(* ===== verification/_CoqProject ===== *)
-Q . S2P
Prelude.v
GoStrings.v
GoRuntime.v
GoNet.v
GoJson.v
GoJsonSpec.v
GoJsonFuel.v
GoTime.v
GoDates.v
Effects.v
Authz.v
Kube.v
KubeClient.v
Store.v
Dynamo.v
DynamoTable.v
Keycloak.v
KeycloakSpec.v
KeycloakRace.v
KeycloakDemo.v
Authn.v
Notify.v
Telegram.v
TelegramSpec.v
Manager.v
ManagerSpec.v
ManagerWatch.v
ManagerRace.v
ManagerDemo.v
Api.v
ApiSpec.v
AuditTrail.v
PermitTrail.v
AuditDemo.v
WireTrail.v
WireDemo.v
ChatTrail.v
ChatDemo.v
StoreTrail.v
StoreDemo.v
Gateway.v
