(* ===== verification/Prelude.v ===== *)
(** * deploy-gateway: a verification development

deploy-gateway is a Go service through which CI jobs restart deployments of a
Kubernetes cluster or roll out images.  A job presents a GitHub OIDC token; the
gateway asks an authorizer whether the job's repository may perform that action on
that deployment from that git ref; it records an operation in a table, patches the
deployment, announces the start in a chat, and follows the rollout until it can
record and announce how it ended.  A sweeper and lookups of stale operations finish
what nobody follows any more.

** Reading guide

Code that calls something outside itself (the store, Kubernetes, Keycloak, the Bot
API, the clock, the log, a mutex, an HTTP response) is a value of [Effects.prog E A],
a tree of calls of the signature [E].  The same definition is run against a handler
([run], [sched]; the samples and witnesses), reasoned about call by call ([wp], against
an environment [spec] that says how calls may be answered) and interleaved with
others ([pstep], any number of goroutines, any schedule).  Integers that Go keeps in
64 bits wrap in the model ([GoRuntime.wrap64]); strings are byte strings; instants
count nanoseconds from Go's zero time; errors are values that keep what [errors.Is]
and [errors.As] can see.

Go's own library as far as the program uses it:
- [GoStrings] (strings), [GoRuntime] (integers, durations, errors, contexts),
  [GoNet] (net/url escaping, decoding of JSON values into Go values, strconv.Quote,
  EqualFold), [GoJson] (UTF-8 and encoding/json on bytes), [GoJsonSpec] (what is written
  is read back; Go-quoted strings as JSON), [GoJsonFuel] (reading has fuel enough),
  [GoTime] (Duration.String and Round, RFC 3339 texts), [GoDates] (the calendar, the
  order of RFC 3339 texts, reading them back), [Effects] (programs and their logics).

The program, a file or two per package under src/:
- [Authz]: internal/authz.  [Policy] is policy.go and file.go, [Ref] is ref.go,
  [Shadow] is shadow.go.  An authorizer is a function from context and request to a
  decision and an error.
- [Kube]: internal/kube/rollout.go and the interface [kubeE]; [KubeClient]: client.go.
- [Store]: internal/store/operation.go and inmem.go (both stores), with [store_contract], what every
  user of a store relies on: a map from ids to operations that each method changes in
  one step.  [Dynamo]: dynamo.go; [DynamoTable]: the service it talks to, whose scans may
  show earlier states of the table, and what of the contract it keeps.
- [Keycloak]: internal/keycloak (authorizer.go, client.go, token.go, cache.go, clock.go);
  the shared token, UUID and three caches are state read and written by calls between
  the mutex calls.  [KeycloakSpec], [KeycloakRace], [KeycloakDemo]: its theorems, its
  concurrent use, a runnable Keycloak.
- [Authn]: internal/authn.  [Notify]: the notifier interface; [Telegram] and
  [TelegramSpec]: internal/notify.
- [Manager]: internal/operation (manager.go, reconcile.go) over the signature [mgrE],
  which is the store, Kubernetes, the notifier and the runtime.  [ManagerSpec],
  [ManagerWatch], [ManagerRace], [ManagerDemo]: its theorems.
- [Api] and [ApiSpec]: internal/api/server.go, over the manager's calls, the verifier,
  the authorizer and the response writer.
- [AuditTrail]: handlers, watchers and sweepers of one gateway together, on one table.
  [PermitTrail]: the same with the programs of [Keycloak] put in the place of the
  authorizer's calls ([Effects.plug]).  [AuditDemo]: both, runnable.  [WireTrail] and
  [WireDemo]: the same again with the programs of [KubeClient] put in the place of the
  manager's calls to Kubernetes.  [ChatTrail] and [ChatDemo]: and again with the notifier of
  [Telegram], whose goroutines then run among the others.  [StoreTrail] and [StoreDemo]: and
  at last with the methods of [Dynamo], which is the gateway that [main] wires up.
- [Gateway]: cmd/gateway/main.go.

** What is shown

- The whole gateway: in every interleaving each text sent to the API server reads as one
  restart or rollout (or, when a name is not printable, possibly as no JSON) and has a
  verified token and a row on record in that identity's name behind it, and, unless a field
  of the request holds a NUL byte, Keycloak's own permission
  ([StoreTrail.deployed_texts_permitted], built on [PermitTrail.every_patch_is_permitted]),
  with any other authorizer its consent ([AuditTrail.every_patch_is_audited]); every item of
  the table is well formed at all times, a denied one with the authorizer's reason
  ([StoreTrail.deployed_rows_well_formed]); every request to the Bot API is for the configured
  chat and carries the rendering of an item, running or as it has ended
  ([StoreTrail.deployed_messages_on_record]).
  Each goroutine follows a discipline ([audit_proto], [know], [gw_proto], [wire_proto],
  [chat_proto], [table_proto]: what it must know before a call, what it learns from one),
  proved of its program with [wp]; the discipline keeps the invariant of the pool.  A larger
  system inherits the smaller one's theorems by showing that the programs it puts in the
  place of calls keep what the calls promised ([Effects.wp_plug]).
- Authorization: per handler, no patch without a verified token and an allowed request
  ([ApiSpec.no_patch_without_authorization]); an answer of the Keycloak authorizer is
  backed by answers of Keycloak in every interleaving ([KeycloakRace]); what the cache may
  serve and for how long ([KeycloakSpec.Authorize_decides]); the file policy and ref
  patterns decide what their specifications say ([Authz]); the shadow changes nothing.
- The life of an operation: every branch of starting, following, reconciling and looking
  up, with every call of the store and its answer in the world ([ManagerSpec]); a watcher's
  verdict is justified and it is done by a computed instant ([ManagerWatch]);
  a sweep leaves nothing stale running; in every interleaving the end is announced at most
  once, exactly once when no store call is lost, and as stored ([ManagerRace]).
- The store: the in-memory one keeps the contract the manager is proved against, and its
  terminal states are final ([Store.InMemory_refines_contract], [Store.terminal_is_final]);
  the DynamoDB one keeps it in its writes, and in its reads for a table the service has had
  ([DynamoTable.Dynamo_refines_contract]).
- Start-up: nothing is served before everything it is served with has been made ([Gateway]).
- The HTTP interface: every handler on every branch, one response per request ([ApiSpec]).
- Secrets: the Keycloak client secret and the bot token influence nothing but the
  requests that carry them ([alike]).
- Locks: taken in one order, released on every path, never held by a cache while waiting.
- Texts: an HTML reader finds in a chat message the template's elements with the fields of
  the operation as text ([TelegramSpec.render_reads]; the three fields of the link must not
  hold a double quote, [quote_breaks_out]); escaping is exact; whatever bytes a container or image name holds, the patch reads as the object meant
  or is no JSON ([KubeClient.client_patches]); distinct instants make distinct patches; every
  JSON response parses ([ApiSpec.one_response]).

** Fuel

Go loops that are not over a slice take a fuel argument and stop with [OutOfFuel] without
it.  [ManagerWatch.watchRollout_terminates] computes enough fuel for a watcher from its
deadline and the time calls take; [DynamoTable.Dynamo_refines_contract] needs one page more
than the scan order has places; attempts of a Keycloak request (2) and of a Bot API call (3)
are fuel the code itself counts; [GoJson.Decode] reads with two calls per byte and one more,
and [GoJsonFuel.Decode_enough] shows that more change nothing; [StartSweeper] runs for as
many ticks as it is given, and its properties hold for any number.  Theorems on safety hold
for any fuel.

** Parameters

Code outside the repository is an argument of the definitions that use it, or a call:
the OIDC library, YAML decoding, reading files, [retry.RetryOnConflict], [attributevalue],
the service calls of AWS, Kubernetes, Telegram and Keycloak, [http.NewRequest]'s URL check,
[unicode.IsPrint] and case folding beyond ASCII.  What is assumed of them is stated where
it is used ([KubeClient.retries_only], [DynamoTable.DynamoItemLaws], [DynamoTable.dy_env],
[ManagerSpec.mgr_env], [ManagerWatch.timed_env], [KeycloakSpec.kc_env]) with an instance on
which the assumptions hold.

** Not modelled

- internal/kubetest: it starts a Kubernetes API server for the repository's tests.
- The goroutines of [PermitTrail] and [WireTrail] read two clocks, the manager's and the
  authorizer's, that advance independently (in [ChatTrail] the notifier's clock is a third);
  no theorem there depends on their agreement.  Below [ChatTrail] a notification is one call,
  below [StoreTrail] a method of the store.
- [StoreTrail] has one gateway process writing to the table, in years that RFC 3339 can write,
  and takes the texts of operations and errors to be UTF-8 ([operations_storable]);
  its scans may show old versions of rows or miss some, as eventually consistent reads do.
  [DynamoTable] has any number of processes, and reads that see states the table has had, but
  the store alone.
- Structured attributes of log lines, but for the errors the notifier logs; the chi router's
  matching, panic recovery and request deadline; the HTTP server's own goroutines. *)

From stdpp Require Export base tactics list strings gmap.
From Stdlib Require Export ZArith Lia.
From Stdlib Require Export Ascii.

#[global] Open Scope Z_scope.

(** ** Strings as byte sequences

Go strings are byte sequences; Rocq strings are sequences of [ascii], that is
of bytes.  [str_take] and [str_drop] are Go's slices [s[:n]] and [s[n:]]. *)

Fixpoint str_take (n : nat) (s : string) : string :=
  match n, s with
  | S n', String c s' => String c (str_take n' s')
  | _, _ => EmptyString
  end.

Fixpoint str_drop (n : nat) (s : string) : string :=
  match n, s with
  | S n', String _ s' => str_drop n' s'
  | _, _ => s
  end.

(** Byte membership. *)
Fixpoint str_in (c : ascii) (s : string) : bool :=
  match s with
  | EmptyString => false
  | String d s' => bool_decide (c = d) || str_in c s'
  end.

(** Number of occurrences of a byte. *)
Fixpoint str_count (c : ascii) (s : string) : nat :=
  match s with
  | EmptyString => 0
  | String d s' => (if decide (c = d) then 1 else 0) + str_count c s'
  end.

(** The Go boolean operators read better infix. *)
Declare Scope go_scope.
Delimit Scope go_scope with go.
Notation "a &&& b" := (andb a b) (at level 40, left associativity) : go_scope.
Notation "a ||| b" := (orb a b) (at level 50, left associativity) : go_scope.

(** ** Results

A Go function returning [(T, error)] returns either a useful value or an
error; where the code keeps both (an operation id next to an error) the model
keeps the pair. *)

Inductive result (E A : Type) : Type :=
  | Ok (a : A)
  | Err (e : E).
Arguments Ok {E A} a.
Arguments Err {E A} e.

#[export] Instance result_eq_dec {E A} `{EqDecision E, EqDecision A} :
  EqDecision (result E A).
Proof. solve_decision. Defined.

(** ** Automation *)

Create HintDb gateway.
Create Rewrite HintDb gostr.

(** Case analysis on every boolean test, [decide] and [match] of the goal. *)
Ltac split_cases :=
  repeat first [ progress simplify_eq/=
               | case_decide
               | case_bool_decide
               | case_match ].

(** Linear arithmetic with quotients and remainders. *)
Ltac euclid := Z.to_euclidean_division_equations; lia.

(** Turn boolean hypotheses into propositions. *)
Ltac to_prop :=
  repeat match goal with
  | H : andb _ _ = true |- _ => apply andb_true_iff in H as [? ?]
  | H : orb _ _ = false |- _ => apply orb_false_iff in H as [? ?]
  | H : negb _ = true |- _ => apply negb_true_iff in H
  | H : negb _ = false |- _ => apply negb_false_iff in H
  | H : (_ <? _) = true |- _ => apply Z.ltb_lt in H
  | H : (_ <? _) = false |- _ => apply Z.ltb_ge in H
  | H : (_ <=? _) = true |- _ => apply Z.leb_le in H
  | H : (_ <=? _) = false |- _ => apply Z.leb_gt in H
  | H : (_ =? _) = true |- _ => apply Z.eqb_eq in H
  | H : (_ =? _) = false |- _ => apply Z.eqb_neq in H
  | H : bool_decide _ = true |- _ => apply bool_decide_eq_true in H
  | H : bool_decide _ = false |- _ => apply bool_decide_eq_false in H
  end.

(** ** Lemmas on strings *)

#[local] Arguments String.append !_ _ /.

Lemma str_app_nil_r s : s +:+ EmptyString = s.
Proof. induction s as [|c s IH]; simpl; [done|]. by rewrite IH. Qed.

Lemma str_app_assoc a b c : (a +:+ b) +:+ c = a +:+ (b +:+ c).
Proof. induction a as [|x a IH]; simpl; [done|]. by rewrite IH. Qed.

Lemma str_length_app a b :
  String.length (a +:+ b) = (String.length a + String.length b)%nat.
Proof. induction a as [|x a IH]; simpl; [done|]. by rewrite IH. Qed.

Lemma str_take_drop n s : str_take n s +:+ str_drop n s = s.
Proof. revert s. induction n as [|n IH]; intros [|c s]; simpl; try done. by rewrite IH. Qed.

Lemma str_take_app p s : str_take (String.length p) (p +:+ s) = p.
Proof. induction p as [|c p IH]; simpl; [by destruct s|]. by rewrite IH. Qed.

Lemma str_drop_app p s : str_drop (String.length p) (p +:+ s) = s.
Proof. induction p as [|c p IH]; simpl; done. Qed.

Lemma str_take_full n s : (String.length s <= n)%nat -> str_take n s = s.
Proof.
  revert s. induction n as [|n IH]; intros [|c s] Hn; simpl in *; try done; try lia.
  rewrite IH; [done | lia].
Qed.

Lemma str_app_inj_r a b s : a +:+ s = b +:+ s -> a = b.
Proof.
  revert b. induction a as [|x a IH]; intros [|y b] Heq; simpl in Heq; try done.
  - apply (f_equal String.length) in Heq. simpl in Heq. rewrite str_length_app in Heq. lia.
  - apply (f_equal String.length) in Heq. simpl in Heq. rewrite str_length_app in Heq. lia.
  - injection Heq as -> Heq. f_equal. by apply IH.
Qed.

Lemma str_in_app c a b : str_in c (a +:+ b) = str_in c a || str_in c b.
Proof. induction a as [|d a IH]; simpl; [done|]. rewrite IH. by rewrite orb_assoc. Qed.

Lemma str_count_app c a b :
  str_count c (a +:+ b) = (str_count c a + str_count c b)%nat.
Proof. induction a as [|d a IH]; simpl; [done|]. rewrite IH. lia. Qed.

Lemma str_in_count c s : str_in c s = true <-> (0 < str_count c s)%nat.
Proof.
  induction s as [|d s IH]; simpl; [split; [done|lia]|].
  rewrite orb_true_iff, bool_decide_eq_true, IH. case_decide.
  - split; [lia|by left].
  - split; [intros [?|?]; [done|lia]|intros; right; lia].
Qed.

(** Splitting a string at a separator that occurs in neither left part. *)
Lemma str_split_unique c a b x y :
  str_in c a = false -> str_in c b = false ->
  a +:+ String c x = b +:+ String c y -> a = b /\ x = y.
Proof.
  revert b. induction a as [|d a IH]; intros [|e b] Ha Hb Heq; simpl in *.
  - by simplify_eq.
  - simplify_eq. by case_bool_decide.
  - simplify_eq. by case_bool_decide.
  - injection Heq as -> Heq. apply orb_false_iff in Ha as [_ Ha].
    apply orb_false_iff in Hb as [_ Hb].
    destruct (IH b Ha Hb Heq) as [-> ->]. done.
Qed.

#[export] Hint Rewrite str_app_nil_r str_app_assoc str_length_app
  str_take_app str_drop_app : gostr.
