(* ===== verification/GoStrings.v ===== *)
(** * The [strings] package

The functions of Go's [strings] package the gateway calls, written the way the
Go standard library writes them (slices of byte strings), and the lemmas that
characterise them. *)

From S2P Require Import Prelude.

(** [len(s) >= len(prefix) && s[:len(prefix)] == prefix] *)
Definition HasPrefix (s prefix : string) : bool :=
  (String.length prefix <=? String.length s)%nat &&
  bool_decide (str_take (String.length prefix) s = prefix).

(** [len(s) >= len(suffix) && s[len(s)-len(suffix):] == suffix] *)
Definition HasSuffix (s suffix : string) : bool :=
  (String.length suffix <=? String.length s)%nat &&
  bool_decide (str_drop (String.length s - String.length suffix) s = suffix).

Definition TrimPrefix (s prefix : string) : string :=
  if HasPrefix s prefix then str_drop (String.length prefix) s else s.

Definition TrimSuffix (s suffix : string) : string :=
  if HasSuffix s suffix then str_take (String.length s - String.length suffix) s else s.

(** The index of the first occurrence of a byte, [-1] when there is none. *)
Fixpoint index_byte (s : string) (c : ascii) : option nat :=
  match s with
  | EmptyString => None
  | String d s' => if decide (c = d) then Some 0%nat else S <$> index_byte s' c
  end.

Definition IndexByte (s : string) (c : ascii) : Z :=
  match index_byte s c with Some n => Z.of_nat n | None => -1 end.

(** [Contains s sub]: [sub] occurs at some offset. *)
Fixpoint Contains (s sub : string) : bool :=
  HasPrefix s sub ||
  match s with EmptyString => false | String _ s' => Contains s' sub end.

Fixpoint Join (elems : list string) (sep : string) : string :=
  match elems with
  | [] => EmptyString
  | [e] => e
  | e :: es => e +:+ sep +:+ Join es sep
  end.

(** ASCII lower-casing, byte by byte. *)
Definition to_lower_byte (c : ascii) : ascii :=
  let n := nat_of_ascii c in
  if (65 <=? n)%nat && (n <=? 90)%nat then ascii_of_nat (n + 32) else c.

Fixpoint ToLower (s : string) : string :=
  match s with
  | EmptyString => EmptyString
  | String c s' => String (to_lower_byte c) (ToLower s')
  end.

(** All bytes below [utf8.RuneSelf]. *)
Fixpoint is_ascii (s : string) : bool :=
  match s with
  | EmptyString => true
  | String c s' => (nat_of_ascii c <? 128)%nat && is_ascii s'
  end.

(** ** Characterisations *)

#[local] Arguments String.append !_ _ /.

Lemma HasPrefix_true s p : HasPrefix s p = true <-> exists r, s = p +:+ r.
Proof.
  unfold HasPrefix. rewrite andb_true_iff, Nat.leb_le, bool_decide_eq_true. split.
  - intros [_ Heq]. exists (str_drop (String.length p) s).
    rewrite <- Heq at 1. by rewrite str_take_drop.
  - intros [r ->]. rewrite str_length_app, str_take_app. split; [lia|done].
Qed.

Lemma HasPrefix_app p r : HasPrefix (p +:+ r) p = true.
Proof. apply HasPrefix_true. by exists r. Qed.

Lemma HasSuffix_true s x : HasSuffix s x = true <-> exists r, s = r +:+ x.
Proof.
  unfold HasSuffix. rewrite andb_true_iff, Nat.leb_le, bool_decide_eq_true. split.
  - intros [_ Heq]. exists (str_take (String.length s - String.length x) s).
    rewrite <- Heq at 2. by rewrite str_take_drop.
  - intros [r ->]. rewrite str_length_app. split; [lia|].
    replace (String.length r + String.length x - String.length x)%nat
      with (String.length r) by lia.
    by rewrite str_drop_app.
Qed.

Lemma HasSuffix_app r x : HasSuffix (r +:+ x) x = true.
Proof. apply HasSuffix_true. by exists r. Qed.

Lemma TrimPrefix_app p r : TrimPrefix (p +:+ r) p = r.
Proof. unfold TrimPrefix. by rewrite HasPrefix_app, str_drop_app. Qed.

Lemma TrimSuffix_app r x : TrimSuffix (r +:+ x) x = r.
Proof.
  unfold TrimSuffix. rewrite HasSuffix_app, str_length_app.
  replace (String.length r + String.length x - String.length x)%nat
    with (String.length r) by lia.
  by rewrite str_take_app.
Qed.

Lemma index_byte_None s c : index_byte s c = None <-> str_in c s = false.
Proof.
  induction s as [|d s IH]; simpl; [done|].
  case_decide as Hd; case_bool_decide; try done.
  rewrite fmap_None, IH. done.
Qed.

Lemma index_byte_Some s c n :
  index_byte s c = Some n <->
  exists a b, s = a +:+ String c b /\ String.length a = n /\ str_in c a = false.
Proof.
  revert n. induction s as [|d s IH]; intros n; simpl.
  { split; [done|]. intros (a & b & Heq & _). destruct a; discriminate. }
  case_decide as Hd; [subst d|].
  - split.
    + intros [= <-]. by exists EmptyString, s.
    + intros ([|e a] & b & Heq & Hlen & Ha); simpl in *; simplify_eq/=; [done|].
      case_bool_decide; done.
  - rewrite fmap_Some. split.
    + intros (m & Hm & ->). apply IH in Hm as (a & b & -> & Hlen & Ha).
      exists (String d a), b. simpl. rewrite Hlen.
      case_bool_decide; done.
    + intros ([|e a] & b & Heq & Hlen & Ha); simpl in *; simplify_eq/=.
      exists (String.length a). split; [|done]. apply IH.
      apply orb_false_iff in Ha as [_ Ha]. by exists a, b.
Qed.

Lemma IndexByte_nonneg s c : 0 <= IndexByte s c <-> str_in c s = true.
Proof.
  unfold IndexByte. destruct (index_byte s c) as [n|] eqn:Hi.
  - split; [|lia]. intros _. apply index_byte_Some in Hi as (a & b & -> & _ & _).
    rewrite str_in_app. simpl. by rewrite bool_decide_eq_true_2, orb_true_r by done.
  - apply index_byte_None in Hi. rewrite Hi. split; [lia|done].
Qed.

(** The first occurrence is the last byte of the string exactly when the string
is a prefix without the byte, followed by the byte. *)
Lemma IndexByte_last s c :
  IndexByte s c = Z.of_nat (String.length s) - 1 <->
  s = EmptyString \/
  exists a, s = a +:+ String c EmptyString /\ str_in c a = false.
Proof.
  unfold IndexByte. destruct (index_byte s c) as [n|] eqn:Hi.
  - apply index_byte_Some in Hi as (a & b & -> & Hlen & Ha).
    rewrite str_length_app. simpl. split.
    + intros Hn. right. exists a. split; [|done].
      destruct b; simpl in *; [done|lia].
    + intros [Hnil|(a' & Heq & Ha')]; [destruct a; discriminate|].
      destruct (str_split_unique c a a' b EmptyString Ha Ha' Heq) as [-> ->].
      simpl. lia.
  - apply index_byte_None in Hi. split.
    + intros Hn. left. destruct s; simpl in *; [done|lia].
    + intros [->|(a & -> & _)]; [done|].
      rewrite str_in_app in Hi. simpl in Hi.
      rewrite bool_decide_eq_true_2, orb_true_r in Hi by done. done.
Qed.

Lemma Contains_true s sub : Contains s sub = true <-> exists a b, s = a +:+ sub +:+ b.
Proof.
  induction s as [|c s IH]; simpl; rewrite orb_true_iff, HasPrefix_true.
  - split.
    + intros [[r Hr]|]; [|done]. by exists EmptyString, r.
    + intros (a & b & Heq). left. destruct a; [by exists b|discriminate].
  - rewrite IH. split.
    + intros [[r Hr]|(a & b & ->)]; [by exists EmptyString, r|].
      by exists (String c a), b.
    + intros ([|d a] & b & Heq); simpl in Heq; [left; by exists b|].
      injection Heq as -> ->. right. by exists a, b.
Qed.

#[export] Hint Rewrite HasPrefix_app HasSuffix_app TrimPrefix_app TrimSuffix_app : gostr.
