(* ===== verification/GoRuntime.v ===== *)
(** * The Go runtime: integers, durations, instants, errors, contexts

The parts of the language and of the packages [time], [errors], [fmt] and
[context] the gateway's code relies on.  An [int64] is a [Z] kept in range by
[wrap64]; a [time.Duration] is an [int64] count of nanoseconds; a [time.Time]
is the (unbounded) number of nanoseconds since the zero [time.Time]. *)

From S2P Require Import Prelude GoStrings.

(** ** Machine integers *)

Definition int64_min : Z := -9223372036854775808.
Definition int64_max : Z := 9223372036854775807.
Definition int32_max : Z := 2147483647.

(** Two's complement wrap-around of a 64-bit signed result. *)
Definition wrap64 (z : Z) : Z := (z + 2 ^ 63) mod 2 ^ 64 - 2 ^ 63.

Definition is_int64 (z : Z) : Prop := int64_min <= z <= int64_max.

(** ** [time.Duration] and [time.Time] *)

Abbreviation duration := Z (only parsing).
Abbreviation time := Z (only parsing).

Definition Second : duration := 1000000000.
Definition Minute : duration := 60 * Second.
Definition Hour : duration := 60 * Minute.

(** [time.Duration(n) * unit], with the [int64] multiplication wrapping. *)
Definition dur_mul (n unit : Z) : duration := wrap64 (n * unit).
Definition dur_add (a b : duration) : duration := wrap64 (a + b).
Definition dur_sub (a b : duration) : duration := wrap64 (a - b).

Definition time_Add (t : time) (d : duration) : time := t + d.

(** [t.Sub(u)] saturates at the range of a duration. *)
Definition time_Sub (t u : time) : duration := Z.max int64_min (Z.min int64_max (t - u)).

Definition time_Before (t u : time) : bool := t <? u.
Definition time_IsZero (t : time) : bool := t =? 0.

(** Seconds since the Unix epoch; the zero [time.Time] lies 62135596800 seconds
before it. *)
Definition time_Unix (t : time) : Z := t / Second - 62135596800.

(** ** Errors

[ErrVar] is a package-level error variable, whose identity is its qualified
name; [ErrText] an error made on the spot; [ErrTyped] an error of a concrete
type, found by [errors.As]; [ErrWrap] an [fmt.Errorf] with a [%w] verb between
two pieces of text. *)

Inductive error : Type :=
  | ErrVar (name : string) (msg : string)
  | ErrText (msg : string)
  | ErrTyped (ty : string) (msg : string)
  | ErrWrap (pre : string) (inner : error) (post : string).

#[export] Instance error_eq_dec : EqDecision error.
Proof. solve_decision. Defined.

(** [err.Error()] *)
Fixpoint error_Error (e : error) : string :=
  match e with
  | ErrVar _ msg | ErrText msg | ErrTyped _ msg => msg
  | ErrWrap pre inner post => pre +:+ error_Error inner +:+ post
  end.

(** [errors.Is(err, target)] for a non-nil [err]; the targets the gateway uses
are all package variables. *)
Fixpoint error_Is (e target : error) : bool :=
  bool_decide (e = target) ||
  match e with ErrWrap _ inner _ => error_Is inner target | _ => false end.

(** [errors.Is] on a possibly nil error. *)
Definition errors_Is (e : option error) (target : error) : bool :=
  match e with Some e => error_Is e target | None => false end.

(** [errors.As(err, &v)] for [v] of the concrete type named [ty]. *)
Fixpoint error_As (e : error) (ty : string) : bool :=
  match e with
  | ErrTyped ty' _ => bool_decide (ty' = ty)
  | ErrWrap _ inner _ => error_As inner ty
  | _ => false
  end.

(** [fmt.Errorf("pre: %w", err)] *)
Definition Errorf_w (pre : string) (e : error) : error := ErrWrap (pre +:+ ": ") e "".

Definition ContextCanceled : error := ErrVar "context.Canceled" "context canceled".
Definition ContextDeadlineExceeded : error :=
  ErrVar "context.DeadlineExceeded" "context deadline exceeded".

(** ** Contexts

[context.Background()], the context of the [n]-th HTTP request or of the
sweeper (cancelled from outside), and [context.WithTimeout]. *)

Inductive Context : Type :=
  | Background
  | External (n : nat)
  | WithDeadline (parent : Context) (at_ : time).

#[export] Instance Context_eq_dec : EqDecision Context.
Proof. solve_decision. Defined.

(** [ctx.Err() != nil] at instant [now], when [cancelled] tells which external
contexts have been cancelled. *)
Fixpoint ctx_done (cancelled : nat -> bool) (now : time) (c : Context) : bool :=
  match c with
  | Background => false
  | External n => cancelled n
  | WithDeadline p d => ctx_done cancelled now p || (d <=? now)
  end.

(** ** Lemmas *)

Lemma wrap64_id z : is_int64 z -> wrap64 z = z.
Proof.
  unfold is_int64, int64_min, int64_max, wrap64. intros Hz.
  rewrite Z.mod_small; lia.
Qed.

Lemma wrap64_range z : is_int64 (wrap64 z).
Proof.
  unfold is_int64, int64_min, int64_max, wrap64.
  pose proof (Z.mod_pos_bound (z + 2 ^ 63) (2 ^ 64)). lia.
Qed.

Lemma dur_mul_small n u : is_int64 (n * u) -> dur_mul n u = n * u.
Proof. apply wrap64_id. Qed.

Lemma time_Sub_exact t u : is_int64 (t - u) -> time_Sub t u = t - u.
Proof. unfold is_int64, time_Sub, int64_min, int64_max. lia. Qed.

(** Saturation does not change the outcome of a comparison with a duration
below the largest one. *)
Lemma time_Sub_gt t u d :
  int64_min <= d < int64_max -> (d <? time_Sub t u) = (d <? t - u).
Proof.
  unfold time_Sub, int64_min, int64_max. intros Hd.
  destruct (d <? t - u) eqn:H; to_prop; [apply Z.ltb_lt | apply Z.ltb_ge];
    lia.
Qed.

Lemma error_Is_refl e : error_Is e e = true.
Proof. destruct e; simpl; by rewrite bool_decide_eq_true_2. Qed.

Lemma error_Is_wrap pre e post target :
  error_Is e target = true -> error_Is (ErrWrap pre e post) target = true.
Proof. simpl. intros ->. by rewrite orb_true_r. Qed.

Lemma ctx_done_mono cancelled now now' c :
  now <= now' -> ctx_done cancelled now c = true -> ctx_done cancelled now' c = true.
Proof.
  intros Hn. induction c as [| |p IH d]; simpl; try done.
  rewrite !orb_true_iff, !Z.leb_le. intros [?|?]; [left; auto|right; lia].
Qed.

#[export] Hint Resolve wrap64_range error_Is_refl error_Is_wrap : gateway.
