(* ===== verification/GoNet.v ===== *)
(** * Text formats of the standard library

What the gateway uses of [net/url], [encoding/json], [strconv] and
[strings.EqualFold]: percent-encoding, decoding of JSON values into Go types,
quoted strings. *)

From stdpp Require Import pretty.
From S2P Require Import Prelude GoStrings GoRuntime.

Local Open Scope string_scope.
Local Open Scope list_scope.
Local Open Scope Z_scope.

(** [%d] *)
Definition itoa (n : Z) : string := pretty n.

(** ** Percent-encoding *)

(** One upper-case hexadecimal digit. *)
Definition hex_upper (n : nat) : ascii :=
  ascii_of_nat (if (n <? 10)%nat then 48 + n else 55 + n).

Definition is_alnum (c : ascii) : bool :=
  let n := nat_of_ascii c in
  ((48 <=? n) && (n <=? 57) || (65 <=? n) && (n <=? 90) || (97 <=? n) && (n <=? 122))%nat.

(** The bytes [url.PathEscape] leaves alone. *)
Definition path_safe (c : ascii) : bool := is_alnum c || str_in c "-_.~$&+=:@".

(** The bytes [url.QueryEscape] leaves alone; it also turns a space into [+]. *)
Definition query_safe (c : ascii) : bool := is_alnum c || str_in c "-_.~".

Definition escape_byte (safe : ascii -> bool) (plus : bool) (c : ascii) (rest : string) : string :=
  if safe c then String c rest
  else if plus && bool_decide (c = " "%char) then String "+" rest
  else String "%" (String (hex_upper (nat_of_ascii c / 16))
                     (String (hex_upper (nat_of_ascii c mod 16)) rest)).

Fixpoint escape (safe : ascii -> bool) (plus : bool) (s : string) : string :=
  match s with
  | EmptyString => EmptyString
  | String c s' => escape_byte safe plus c (escape safe plus s')
  end.

Definition PathEscape : string -> string := escape path_safe false.
Definition QueryEscape : string -> string := escape query_safe true.

(** [url.Values.Encode] of single-valued keys already in sorted order. *)
Definition Encode (kvs : list (string * string)) : string :=
  Join ((fun '(k, v) => QueryEscape k +:+ "=" +:+ QueryEscape v) <$> kvs) "&".

(** ** Unescaping, for reasoning *)

Definition unhex (c : ascii) : nat :=
  let n := nat_of_ascii c in if (n <=? 57)%nat then n - 48 else n - 55.

Fixpoint unescape (plus : bool) (s : string) : string :=
  match s with
  | EmptyString => EmptyString
  | String "%" (String h (String l s')) =>
      String (ascii_of_nat (unhex h * 16 + unhex l)) (unescape plus s')
  | String c s' => String (if plus && bool_decide (c = "+"%char) then " "%char else c)
                     (unescape plus s')
  end.

Lemma unhex_byte c :
  ascii_of_nat (unhex (hex_upper (nat_of_ascii c / 16)) * 16 +
                unhex (hex_upper (nat_of_ascii c mod 16))) = c.
Proof. destruct c as [[] [] [] [] [] [] [] []]; vm_compute; reflexivity. Qed.

Lemma unescape_other plus c s :
  c <> "%"%char ->
  unescape plus (String c s) =
    String (if plus && bool_decide (c = "+"%char) then " "%char else c) (unescape plus s).
Proof.
  intros Hc. destruct c as [[] [] [] [] [] [] [] []]; try reflexivity. by destruct Hc.
Qed.

(** Escaping loses nothing. *)
Lemma unescape_escape safe plus s :
  safe "%"%char = false -> (plus = true -> safe "+"%char = false) ->
  unescape plus (escape safe plus s) = s.
Proof.
  intros Hpct Hplus. induction s as [|c s IH]; [done|]. simpl. unfold escape_byte.
  destruct (safe c) eqn:Hc; [|destruct (plus && bool_decide (c = " "%char)) eqn:Hsp].
  - rewrite unescape_other by (intros ->; congruence). rewrite IH. f_equal.
    destruct plus; [|done]. rewrite bool_decide_eq_false_2; [done|].
    intros ->. by rewrite Hplus in Hc.
  - to_prop. subst. simpl. by rewrite IH.
  - cbn [unescape]. by rewrite unhex_byte, IH.
Qed.

Lemma PathEscape_inj a b : PathEscape a = PathEscape b -> a = b.
Proof.
  intros H. apply (f_equal (unescape false)) in H. unfold PathEscape in H.
  by rewrite !unescape_escape in H.
Qed.

Lemma QueryEscape_inj a b : QueryEscape a = QueryEscape b -> a = b.
Proof.
  intros H. apply (f_equal (unescape true)) in H. unfold QueryEscape in H.
  by rewrite !unescape_escape in H.
Qed.

(** A byte that is neither safe nor made by escaping never appears. *)
Lemma escape_excludes safe plus d s :
  safe d = false -> is_alnum d = false -> d <> "%"%char -> (plus = true -> d <> "+"%char) ->
  str_in d (escape safe plus s) = false.
Proof.
  intros Hs Ha Hpct Hplus. assert (forall n, (n < 16)%nat -> d <> hex_upper n) as Hhex.
  { intros n Hn ->. do 16 (destruct n as [|n]; [discriminate Ha|]). lia. }
  induction s as [|c s IH]; [done|]. cbn [escape]. unfold escape_byte.
  destruct (safe c) eqn:Hc; [|destruct (plus && bool_decide (c = " "%char)) eqn:Hsp]; cbn [str_in].
  - rewrite IH, bool_decide_eq_false_2; [done|congruence].
  - to_prop. rewrite IH, bool_decide_eq_false_2; [done|auto].
  - pose proof (nat_ascii_bounded c).
    rewrite IH, !bool_decide_eq_false_2; try done; apply Hhex.
    + apply Nat.mod_upper_bound. lia.
    + apply Nat.Div0.div_lt_upper_bound. lia.
Qed.

(** ** Case folding

[fold] maps the bytes of a string to lower case and the two non-ASCII runes
that fold to ASCII letters (U+212A to [k], U+017F to [s]) to those letters. *)

Fixpoint fold (s : string) : string :=
  match s with
  | EmptyString => EmptyString
  | String "226" (String "132" (String "170" s')) => String "k" (fold s')
  | String "197" (String "191" s') => String "s" (fold s')
  | String c s' => String (to_lower_byte c) (fold s')
  end.

(** [strings.EqualFold]: when one side is ASCII, equality after folding;
otherwise [fold_unicode], Unicode's simple case folding. *)
Definition EqualFold (fold_unicode : string -> string -> bool) (s t : string) : bool :=
  if is_ascii s || is_ascii t then bool_decide (fold s = fold t) else fold_unicode s t.

Lemma fold_ascii s : is_ascii s = true -> fold s = ToLower s.
Proof.
  induction s as [|c s IH]; [done|]. cbn [is_ascii]. rewrite andb_true_iff. intros [Hc Hs].
  cbn [ToLower]. rewrite <- IH by done.
  destruct c as [[] [] [] [] [] [] [] []]; try discriminate Hc; reflexivity.
Qed.

(** ** JSON *)

Inductive json : Type :=
  | JNull
  | JBool (b : bool)
  (** a number, with its value when it is an integer literal *)
  | JNum (int : option Z)
  | JStr (s : string)
  | JArr (l : list json)
  | JObj (fields : list (string * json)).

(** A decoder updates a Go value; [None] is an [UnmarshalTypeError], which the
callers turn into an error whatever else was decoded.  [null] leaves strings and
integers as they are and empties slices and maps. *)
Definition decoder (A : Type) : Type := json -> A -> option A.

Definition dec_string : decoder string := fun j old =>
  match j with JStr s => Some s | JNull => Some old | _ => None end.

Definition dec_bool : decoder bool := fun j old =>
  match j with JBool b => Some b | JNull => Some old | _ => None end.

(** Into an [int], 64 bits wide. *)
Definition dec_int : decoder Z := fun j old =>
  match j with
  | JNum (Some n) =>
      if (-9223372036854775808 <=? n) && (n <=? 9223372036854775807) then Some n else None
  | JNull => Some old
  | _ => None
  end.

Definition dec_slice {A} (zero : A) (d : decoder A) : decoder (list A) := fun j _ =>
  match j with
  | JArr l => mapM (fun j => d j zero) l
  | JNull => Some []
  | _ => None
  end.

Fixpoint dec_entries {A} (zero : A) (d : decoder A) (fields : list (string * json))
    (m : gmap string A) : option (gmap string A) :=
  match fields with
  | [] => Some m
  | (k, j) :: fields' =>
      match d j zero with
      | Some v => dec_entries zero d fields' (<[k := v]> m)
      | None => None
      end
  end.

Definition dec_map {A} (zero : A) (d : decoder A) : decoder (gmap string A) := fun j old =>
  match j with
  | JObj fields => dec_entries zero d fields old
  | JNull => Some ∅
  | _ => None
  end.

(** The field of a struct a key stands for: the exact name, else the same name
up to case. *)
Definition find_field {A} (fields : list (string * decoder A)) (key : string) :
    option (decoder A) :=
  match list_find (fun '(n, _) => n = key) fields with
  | Some (_, (_, d)) => Some d
  | None =>
      match list_find (fun '(n, _) => fold n = fold key) fields with
      | Some (_, (_, d)) => Some d
      | None => None
      end
  end.

(** Keys are handled in order, unknown ones skipped. *)
Fixpoint dec_fields {A} (fields : list (string * decoder A)) (kvs : list (string * json))
    (v : A) : option A :=
  match kvs with
  | [] => Some v
  | (k, j) :: kvs' =>
      match find_field fields k with
      | None => dec_fields fields kvs' v
      | Some d => match d j v with Some v' => dec_fields fields kvs' v' | None => None end
      end
  end.

Definition dec_struct {A} (fields : list (string * decoder A)) : decoder A := fun j v =>
  match j with
  | JObj kvs => dec_fields fields kvs v
  | JNull => Some v
  | _ => None
  end.

(** ** HTTP

A body is a JSON text or a form. *)

Inductive payload : Type :=
  | NoBody
  | FormBody (form : string)
  | JSONBody (text : string).

Record HttpRequest : Type := {
  Method : string;
  URL : string;
  Authorization : option string;
  ContentType : option string;
  Body : payload;
}.

Record HttpResponse : Type := {
  StatusCode : Z;
  (** the bytes that could be read *)
  RespBody : string;
  (** what reading the body failed with after them *)
  ReadErr : option error;
}.

(** ** [%q] *)

Definition hex_lower (n : nat) : ascii :=
  ascii_of_nat (if (n <? 10)%nat then 48 + n else 87 + n).

Definition hex_byte (n : Z) : string :=
  String (hex_lower (Z.to_nat (n / 16))) (String (hex_lower (Z.to_nat (n mod 16))) "").

Definition byte_at (n : nat) (s : string) : Z :=
  match String.get n s with Some c => Z.of_nat (nat_of_ascii c) | None => -1 end.

(** A continuation byte, within the range its first byte allows. *)
Definition cont (lo hi b : Z) : bool := (lo <=? b) && (b <=? hi).

(** [utf8.DecodeRuneInString]: the rune and its width; an ill-formed sequence is
one byte of U+FFFD. *)
Definition DecodeRune (s : string) : Z * nat :=
  let b0 := byte_at 0 s in let b1 := byte_at 1 s in
  let b2 := byte_at 2 s in let b3 := byte_at 3 s in
  if b0 <? 128 then (b0, 1%nat)
  else if cont 194 223 b0 && cont 128 191 b1 then
    (Z.land b0 31 * 64 + Z.land b1 63, 2%nat)
  else if cont 224 239 b0 &&
          cont (if b0 =? 224 then 160 else 128) (if b0 =? 237 then 159 else 191) b1 &&
          cont 128 191 b2 then
    (Z.land b0 15 * 4096 + Z.land b1 63 * 64 + Z.land b2 63, 3%nat)
  else if cont 240 244 b0 &&
          cont (if b0 =? 240 then 144 else 128) (if b0 =? 244 then 143 else 191) b1 &&
          cont 128 191 b2 && cont 128 191 b3 then
    (Z.land b0 7 * 262144 + Z.land b1 63 * 4096 + Z.land b2 63 * 64 + Z.land b3 63, 4%nat)
  else (65533, 1%nat).

Section Quote.
(** [unicode.IsPrint] beyond ASCII. *)
Variable IsPrint : Z -> bool.

(** One rune, [raw] being its bytes in the string. *)
Definition quote_rune (r : Z) (width : nat) (raw : string) : string :=
  if ((width =? 1)%nat && (r =? 65533))%bool then "\x" +:+ hex_byte (byte_at 0 raw)
  else if (r =? 34) || (r =? 92) then "\" +:+ raw
  else if (if r <? 128 then (32 <=? r) && (r <? 127) else IsPrint r) then raw
  else if r =? 7 then "\a" else if r =? 8 then "\b" else if r =? 12 then "\f"
  else if r =? 10 then "\n" else if r =? 13 then "\r" else if r =? 9 then "\t"
  else if r =? 11 then "\v"
  else if (r <? 32) || (r =? 127) then "\x" +:+ hex_byte r
  else if r <? 65536 then "\u" +:+ hex_byte (r / 256) +:+ hex_byte (r mod 256)
  else "\U" +:+ hex_byte (r / 16777216) +:+ hex_byte (r / 65536 mod 256) +:+
       hex_byte (r / 256 mod 256) +:+ hex_byte (r mod 256).

Fixpoint quote_runes (fuel : nat) (s : string) : string :=
  match fuel, s with
  | S fuel', String _ _ =>
      let (r, width) := DecodeRune s in
      quote_rune r width (str_take width s) +:+ quote_runes fuel' (str_drop width s)
  | _, _ => EmptyString
  end.

Definition dquote : string := String (ascii_of_nat 34) EmptyString.

(** [strconv.Quote] *)
Definition Quote (s : string) : string :=
  dquote +:+ quote_runes (String.length s) s +:+ dquote.

Definition plain_byte (c : ascii) : bool :=
  let n := nat_of_ascii c in
  ((32 <=? n)%nat && (n <? 127)%nat && negb (n =? 34)%nat && negb (n =? 92)%nat)%bool.

Fixpoint all_bytes (p : ascii -> bool) (s : string) : bool :=
  match s with EmptyString => true | String c s' => p c && all_bytes p s' end.

(** Printable ASCII without quotes and backslashes is quoted as it is. *)
Lemma Quote_plain s : all_bytes plain_byte s = true -> Quote s = dquote +:+ s +:+ dquote.
Proof.
  intros Hs. unfold Quote. f_equal. f_equal.
  induction s as [|c s IH]; [done|]. cbn [all_bytes] in Hs. apply andb_true_iff in Hs as [Hc Hs].
  cbn [String.length quote_runes].
  assert (DecodeRune (String c s) = (Z.of_nat (nat_of_ascii c), 1%nat) /\
          quote_rune (Z.of_nat (nat_of_ascii c)) 1 (String c "") = String c "") as [-> Hq].
  { destruct c as [[] [] [] [] [] [] [] []]; try discriminate Hc; split; reflexivity. }
  change (str_take 1 (String c s)) with (String c ""). rewrite Hq.
  change (str_drop 1 (String c s)) with s. by rewrite IH.
Qed.

End Quote.
