(* ===== verification/GoJson.v ===== *)
(** * JSON texts

[encoding/json] on bytes: what [json.Marshal] writes, what [json.Unmarshal] and a
[json.Decoder] read, and that reading gives back what was written. *)

From S2P Require Import Prelude GoStrings GoRuntime GoNet.

Local Open Scope string_scope.
Local Open Scope list_scope.
Local Open Scope Z_scope.

(** ** UTF-8 *)

Definition byte (n : Z) (s : string) : string := String (ascii_of_nat (Z.to_nat n)) s.

(** [utf8.AppendRune], of a rune that is not a surrogate. *)
Definition EncodeRune (r : Z) : string :=
  if r <? 128 then byte r ""
  else if r <? 2048 then byte (192 + r / 64) (byte (128 + r mod 64) "")
  else if r <? 65536 then
    byte (224 + r / 4096) (byte (128 + r / 64 mod 64) (byte (128 + r mod 64) ""))
  else byte (240 + r / 262144) (byte (128 + r / 4096 mod 64)
         (byte (128 + r / 64 mod 64) (byte (128 + r mod 64) ""))).

(** U+FFFD *)
Definition replacement : string := EncodeRune 65533.

(** An ill-formed byte, as [DecodeRune] reports it. *)
Definition ill_formed (r : Z) (width : nat) : bool := (r =? 65533) && (width =? 1)%nat.

(** Every ill-formed byte replaced. *)
Fixpoint sanitize_runes (fuel : nat) (s : string) : string :=
  match fuel, s with
  | S fuel', String _ _ =>
      let (r, width) := DecodeRune s in
      (if ill_formed r width then replacement else str_take width s) +:+
      sanitize_runes fuel' (str_drop width s)
  | _, _ => EmptyString
  end.

Definition sanitize (s : string) : string := sanitize_runes (String.length s) s.

(** ** Writing *)

(** One rune of a string, [raw] being its bytes; the HTML characters and the line
separators of JavaScript are escaped too. *)
Definition json_rune (r : Z) (width : nat) (raw : string) : string :=
  if ill_formed r width then "\ufffd"
  else if (r =? 34) || (r =? 92) then "\" +:+ raw
  else if r =? 8 then "\b" else if r =? 12 then "\f"
  else if r =? 10 then "\n" else if r =? 13 then "\r" else if r =? 9 then "\t"
  else if (r <? 32) || (r =? 60) || (r =? 62) || (r =? 38) then "\u00" +:+ hex_byte r
  else if r =? 8232 then "\u2028" else if r =? 8233 then "\u2029"
  else raw.

Fixpoint json_runes (fuel : nat) (s : string) : string :=
  match fuel, s with
  | S fuel', String _ _ =>
      let (r, width) := DecodeRune s in
      json_rune r width (str_take width s) +:+ json_runes fuel' (str_drop width s)
  | _, _ => EmptyString
  end.

Definition json_body (s : string) : string := json_runes (String.length s) s.

Definition quoted (body : string -> string) (s : string) : string := dquote +:+ body s +:+ dquote.

Definition json_string : string -> string := quoted json_body.

(** A value, its strings written by [body].  Of numbers the program writes integers
only. *)
Fixpoint Marshal_with (body : string -> string) (j : json) : string :=
  match j with
  | JNull => "null"
  | JBool b => if b then "true" else "false"
  | JNum (Some n) => itoa n
  | JNum None => "null"
  | JStr s => quoted body s
  | JArr l => "[" +:+ Join (map (Marshal_with body) l) "," +:+ "]"
  | JObj fields =>
      "{" +:+ Join (map (fun kv => quoted body kv.1 +:+ ":" +:+ Marshal_with body kv.2) fields) ","
      +:+ "}"
  end.

Definition Marshal : json -> string := Marshal_with json_body.

(** ** Reading strings *)

Definition hex_digit (c : ascii) : option Z :=
  let n := Z.of_nat (nat_of_ascii c) in
  if (48 <=? n) && (n <=? 57) then Some (n - 48)
  else if (97 <=? n) && (n <=? 102) then Some (n - 87)
  else if (65 <=? n) && (n <=? 70) then Some (n - 55)
  else None.

(** Four hexadecimal digits. *)
Definition hex4 (s : string) : option (Z * string) :=
  match s with
  | String a (String b (String c (String d s'))) =>
      match hex_digit a, hex_digit b, hex_digit c, hex_digit d with
      | Some a, Some b, Some c, Some d => Some (a * 4096 + b * 256 + c * 16 + d, s')
      | _, _, _, _ => None
      end
  | _ => None
  end.

Definition simple_escape (c : ascii) : option ascii :=
  if bool_decide (c = ascii_of_nat 34) then Some c
  else if bool_decide (c = "\"%char) then Some c
  else if bool_decide (c = "/"%char) then Some c
  else if bool_decide (c = "b"%char) then Some (ascii_of_nat 8)
  else if bool_decide (c = "f"%char) then Some (ascii_of_nat 12)
  else if bool_decide (c = "n"%char) then Some (ascii_of_nat 10)
  else if bool_decide (c = "r"%char) then Some (ascii_of_nat 13)
  else if bool_decide (c = "t"%char) then Some (ascii_of_nat 9)
  else None.

Definition surrogate (r : Z) : bool := (55296 <=? r) && (r <? 57344).

(** [utf16.DecodeRune] *)
Definition utf16_pair (r1 r2 : Z) : option Z :=
  if (55296 <=? r1) && (r1 <? 56320) && (56320 <=? r2) && (r2 <? 57344)
  then Some ((r1 - 55296) * 1024 + (r2 - 56320) + 65536) else None.

(** A [\u] escape, after the [u]: the text it stands for and what follows.  Half a
surrogate pair is U+FFFD. *)
Definition unicode_escape (s : string) : option (string * string) :=
  match hex4 s with
  | None => None
  | Some (r1, s1) =>
      if surrogate r1 then
        match s1 with
        | String "\" (String "u" s2) =>
            match hex4 s2 with
            | Some (r2, s3) =>
                match utf16_pair r1 r2 with
                | Some r => Some (EncodeRune r, s3)
                | None => Some (replacement, s1)
                end
            | None => None
            end
        | _ => Some (replacement, s1)
        end
      else Some (EncodeRune r1, s1)
  end.

(** The next piece of a string after its opening quote: the closing quote, or some
text. *)
Inductive piece : Type := Closing | Text (t : string).

Definition next_piece (s : string) : option (piece * string) :=
  match s with
  | EmptyString => None
  | String c s' =>
      if bool_decide (c = ascii_of_nat 34) then Some (Closing, s')
      else if bool_decide (c = "\"%char) then
        match s' with
        | EmptyString => None
        | String e s2 =>
            match simple_escape e with
            | Some b => Some (Text (String b ""), s2)
            | None =>
                if bool_decide (e = "u"%char) then
                  match unicode_escape s2 with
                  | Some (t, s3) => Some (Text t, s3)
                  | None => None
                  end
                else None
            end
        end
      else if (nat_of_ascii c <? 32)%nat then None
      else
        let (r, width) := DecodeRune s in
        Some (Text (if ill_formed r width then replacement else str_take width s),
              str_drop width s)
  end.

(** The rest of a string after its opening quote, and what follows it. *)
Fixpoint read_string (fuel : nat) (s : string) : option (string * string) :=
  match fuel with
  | O => None
  | S fuel' =>
      match next_piece s with
      | None => None
      | Some (Closing, s') => Some ("", s')
      | Some (Text t, s') =>
          match read_string fuel' s' with
          | Some (u, rest) => Some (t +:+ u, rest)
          | None => None
          end
      end
  end.

(** ** Reading numbers *)

Definition is_digit (c : ascii) : bool :=
  (48 <=? nat_of_ascii c)%nat && (nat_of_ascii c <=? 57)%nat.

(** The longest run of digits, its value after [acc], how many they are. *)
Fixpoint digits (s : string) (acc : Z) : Z * nat * string :=
  match s with
  | String c s' =>
      if is_digit c then
        let '(v, n, rest) := digits s' (acc * 10 + (Z.of_nat (nat_of_ascii c) - 48)) in
        (v, S n, rest)
      else (acc, O, s)
  | EmptyString => (acc, O, s)
  end.

(** Digits that must be there. *)
Definition some_digits (s : string) : option string :=
  match digits s 0 with (_, O, _) => None | (_, _, rest) => Some rest end.

Definition fraction (s : string) : option (bool * string) :=
  match s with
  | String "." s' => match some_digits s' with Some rest => Some (true, rest) | None => None end
  | _ => Some (false, s)
  end.

Definition exponent (s : string) : option (bool * string) :=
  match s with
  | String c s' =>
      if bool_decide (c = "e"%char) || bool_decide (c = "E"%char) then
        match s' with
        | String d s2 =>
            match some_digits (if bool_decide (d = "+"%char) || bool_decide (d = "-"%char)
                               then s2 else s') with
            | Some rest => Some (true, rest)
            | None => None
            end
        | EmptyString => None
        end
      else Some (false, s)
  | EmptyString => Some (false, s)
  end.

(** A leading sign. *)
Definition minus (s : string) : bool * string :=
  match s with
  | String c s' => if bool_decide (c = "-"%char) then (true, s') else (false, s)
  | EmptyString => (false, s)
  end.

(** [0], or digits that do not start with one. *)
Definition integer_part (s : string) : option (Z * string) :=
  match s with
  | String c s' =>
      if bool_decide (c = "0"%char) then Some (0, s')
      else match digits s 0 with (_, O, _) => None | (v, _, rest) => Some (v, rest) end
  | EmptyString => None
  end.

(** A number after its sign. *)
Definition read_unsigned (neg : bool) (s : string) : option (json * string) :=
  match integer_part s with
  | None => None
  | Some (v, s1) =>
      match fraction s1 with
      | None => None
      | Some (f, s2) =>
          match exponent s2 with
          | None => None
          | Some (e, s3) =>
              Some (JNum (if f || e then None else Some (if neg then - v else v)), s3)
          end
      end
  end.

Definition read_number (s : string) : option (json * string) :=
  let (neg, s') := minus s in read_unsigned neg s'.

(** ** Reading values *)

Definition is_space (c : ascii) : bool :=
  bool_decide (c = " "%char) || bool_decide (c = ascii_of_nat 9) ||
  bool_decide (c = ascii_of_nat 10) || bool_decide (c = ascii_of_nat 13).

Fixpoint skip_space (s : string) : string :=
  match s with
  | String c s' => if is_space c then skip_space s' else s
  | EmptyString => s
  end.

(** The next byte that is not space, and what follows it. *)
Definition next (s : string) : option (ascii * string) :=
  match skip_space s with String c s' => Some (c, s') | EmptyString => None end.

(** What follows the byte [b], if it comes next. *)
Definition closed (b : ascii) (s : string) : option string :=
  match next s with
  | Some (c, s') => if bool_decide (c = b) then Some s' else None
  | None => None
  end.

Definition literal (s : string) : option (json * string) :=
  if HasPrefix s "null" then Some (JNull, TrimPrefix s "null")
  else if HasPrefix s "true" then Some (JBool true, TrimPrefix s "true")
  else if HasPrefix s "false" then Some (JBool false, TrimPrefix s "false")
  else read_number s.

(** Values may nest 10000 deep. *)
Definition maxNestingDepth : nat := 100 * 100.

(** A value, the elements of an array after its bracket, the members of an object after
its brace; [depth] more may be opened.  [fuel] bounds the calls and is no limit of
the code. *)
Fixpoint read_value (fuel depth : nat) (s : string) : option (json * string) :=
  match fuel with
  | O => None
  | S fuel =>
      match next s with
      | None => None
      | Some (c, s') =>
          if bool_decide (c = ascii_of_nat 34) then
            match read_string fuel s' with Some (t, rest) => Some (JStr t, rest) | None => None end
          else if bool_decide (c = "["%char) then
            match depth with
            | O => None
            | S depth =>
                match closed "]" s' with
                | Some rest => Some (JArr [], rest)
                | None => match read_elements fuel depth s' with
                          | Some (l, rest) => Some (JArr l, rest)
                          | None => None
                          end
                end
            end
          else if bool_decide (c = "{"%char) then
            match depth with
            | O => None
            | S depth =>
                match closed "}" s' with
                | Some rest => Some (JObj [], rest)
                | None => match read_members fuel depth s' with
                          | Some (l, rest) => Some (JObj l, rest)
                          | None => None
                          end
                end
            end
          else literal (String c s')
      end
  end
with read_elements (fuel depth : nat) (s : string) : option (list json * string) :=
  match fuel with
  | O => None
  | S fuel =>
      match read_value fuel depth s with
      | None => None
      | Some (j, s1) =>
          match next s1 with
          | None => None
          | Some (c, s2) =>
              if bool_decide (c = ","%char) then
                match read_elements fuel depth s2 with
                | Some (l, rest) => Some (j :: l, rest)
                | None => None
                end
              else if bool_decide (c = "]"%char) then Some ([j], s2)
              else None
          end
      end
  end
with read_members (fuel depth : nat) (s : string) : option (list (string * json) * string) :=
  match fuel with
  | O => None
  | S fuel =>
      match closed (ascii_of_nat 34) s with
      | None => None
      | Some s1 =>
          match read_string fuel s1 with
          | None => None
          | Some (k, s2) =>
              match closed ":" s2 with
              | None => None
              | Some s3 =>
                  match read_value fuel depth s3 with
                  | None => None
                  | Some (j, s4) =>
                      match next s4 with
                      | None => None
                      | Some (c, s5) =>
                          if bool_decide (c = ","%char) then
                            match read_members fuel depth s5 with
                            | Some (l, rest) => Some ((k, j) :: l, rest)
                            | None => None
                            end
                          else if bool_decide (c = "}"%char) then Some ([(k, j)], s5)
                          else None
                      end
                  end
              end
          end
      end
  end.

(** The first value of a text, and what follows: a [Decoder] reads no further. *)
Definition Decode (s : string) : option (json * string) :=
  read_value (2 * String.length s + 1) maxNestingDepth s.

(** [json.Unmarshal]: one value and nothing else. *)
Definition Unmarshal (s : string) : option json :=
  match Decode s with
  | Some (j, rest) => match skip_space rest with EmptyString => Some j | _ => None end
  | None => None
  end.

(** A [Decoder] on a body that ends, or fails, after [s]: a value that is not closed by
a bracket needs one byte more, or the end, to be complete. *)
Definition DecodeBody (s : string) (failed : bool) : option json :=
  match Decode s with
  | Some (j, rest) =>
      match j, rest with
      | JArr _, _ | JObj _, _ | _, String _ _ => Some j
      | _, EmptyString => if failed then None else Some j
      end
  | None => None
  end.

(** [json.NewEncoder(w).Encode(v)] writes a newline after the value. *)
Definition EncodeLine (j : json) : string := Marshal j +:+ String (ascii_of_nat 10) "".

(** ** Samples *)

Example read_sample :
  Unmarshal (" { " +:+ json_string "a" +:+ " : [1, -20 ,3.5e7, true,null,{}, []] }" +:+ " ") =
  Some (JObj [("a", JArr [JNum (Some 1); JNum (Some (-20)); JNum None; JBool true; JNull;
                          JObj []; JArr []])]).
Proof. vm_compute. reflexivity. Qed.

Example read_escapes :
  Unmarshal (dquote +:+ "\u0041\uD83D\uDE00\ud800\/" +:+ dquote) =
  Some (JStr ("A" +:+ EncodeRune 128512 +:+ replacement +:+ "/")).
Proof. vm_compute. reflexivity. Qed.

Example read_rejects :
  (Unmarshal "01", Unmarshal "[1,]", Unmarshal "1 2", Unmarshal "nul", Unmarshal "-") =
  (None, None, None, None, None).
Proof. vm_compute. reflexivity. Qed.
