(* ===== verification/GoJsonSpec.v ===== *)
(** * Reading back what was written

[Unmarshal] of [Marshal] is the value, with the ill-formed bytes of its strings
replaced; in particular no string of a value can change the structure of the text. *)

From stdpp Require Import pretty.
From S2P Require Import Prelude GoStrings GoRuntime GoNet GoJson.

Local Open Scope string_scope.
Local Open Scope list_scope.
Local Open Scope Z_scope.

#[local] Arguments String.append !_ _ /.

(** ** Runes *)

Lemma land_mod b n : 0 <= n -> Z.land b (2 ^ n - 1) = b mod 2 ^ n.
Proof. intros Hn. rewrite <- Z.land_ones by done. f_equal. rewrite Z.ones_equiv. lia. Qed.

Lemma land_63 b : Z.land b 63 = b mod 64.
Proof. exact (land_mod b 6 ltac:(lia)). Qed.
Lemma land_31 b : Z.land b 31 = b mod 32.
Proof. exact (land_mod b 5 ltac:(lia)). Qed.
Lemma land_15 b : Z.land b 15 = b mod 16.
Proof. exact (land_mod b 4 ltac:(lia)). Qed.
Lemma land_7 b : Z.land b 7 = b mod 8.
Proof. exact (land_mod b 3 ltac:(lia)). Qed.

Lemma byte_ascii c s : byte (Z.of_nat (nat_of_ascii c)) s = String c s.
Proof. unfold byte. by rewrite Nat2Z.id, ascii_nat_embedding. Qed.

Lemma encode_2 b0 b1 : 194 <= b0 <= 223 -> 128 <= b1 <= 191 ->
  let r := b0 mod 32 * 64 + b1 mod 64 in 128 <= r /\ EncodeRune r = byte b0 (byte b1 "").
Proof.
  intros H0 H1 r. assert (128 <= r < 2048) as Hr by (unfold r; euclid). split; [lia|].
  unfold EncodeRune. destruct (Z.ltb_spec r 128); [lia|]. destruct (Z.ltb_spec r 2048); [|lia].
  f_equal; [|f_equal]; unfold r; euclid.
Qed.

Lemma encode_3 b0 b1 b2 : 224 <= b0 <= 239 -> 128 <= b1 <= 191 -> 128 <= b2 <= 191 ->
  (b0 = 224 -> 160 <= b1) ->
  let r := b0 mod 16 * 4096 + b1 mod 64 * 64 + b2 mod 64 in
  128 <= r /\ EncodeRune r = byte b0 (byte b1 (byte b2 "")).
Proof.
  intros H0 H1 H2 H3 r. assert (2048 <= r < 65536) as Hr by (unfold r; euclid). split; [lia|].
  unfold EncodeRune. destruct (Z.ltb_spec r 128); [lia|]. destruct (Z.ltb_spec r 2048); [lia|].
  destruct (Z.ltb_spec r 65536); [|lia].
  f_equal; [|f_equal; [|f_equal]]; unfold r; euclid.
Qed.

Lemma encode_4 b0 b1 b2 b3 : 240 <= b0 <= 244 -> 128 <= b1 <= 191 -> 128 <= b2 <= 191 ->
  128 <= b3 <= 191 -> (b0 = 240 -> 144 <= b1) ->
  let r := b0 mod 8 * 262144 + b1 mod 64 * 4096 + b2 mod 64 * 64 + b3 mod 64 in
  128 <= r /\ EncodeRune r = byte b0 (byte b1 (byte b2 (byte b3 ""))).
Proof.
  intros H0 H1 H2 H3 H4 r. assert (65536 <= r) as Hr by (unfold r; euclid). split; [lia|].
  unfold EncodeRune. destruct (Z.ltb_spec r 128); [lia|]. destruct (Z.ltb_spec r 2048); [lia|].
  destruct (Z.ltb_spec r 65536); [lia|].
  f_equal; [|f_equal; [|f_equal; [|f_equal]]]; unfold r; euclid.
Qed.

Lemma cont_spec lo hi b : cont lo hi b = true <-> lo <= b <= hi.
Proof. unfold cont. rewrite andb_true_iff, !Z.leb_le. done. Qed.

(** [DecodeRune] as a function of the first four bytes, -1 beyond the end. *)
Definition decode4 (b0 b1 b2 b3 : Z) : Z * nat :=
  if b0 <? 128 then (b0, 1%nat)
  else if cont 194 223 b0 && cont 128 191 b1 then
    (Z.land b0 31 * 64 + Z.land b1 63, 2%nat)
  else if cont 224 239 b0 &&
          cont (if b0 =? 224 then 160 else 128) (if b0 =? 237 then 159 else 191) b1 &&
          cont 128 191 b2 then
    (Z.land b0 15 * 4096 + Z.land b1 63 * 64 + Z.land b2 63, 3%nat)
  else if cont 240 244 b0 &&
          cont (if b0 =? 240 then 144 else 128) (if b0 =? 244 then 143 else 191) b1 &&
          cont 128 191 b2 && cont 128 191 b3 then
    (Z.land b0 7 * 262144 + Z.land b1 63 * 4096 + Z.land b2 63 * 64 + Z.land b3 63, 4%nat)
  else (65533, 1%nat).

Lemma DecodeRune_bytes s :
  DecodeRune s = decode4 (byte_at 0 s) (byte_at 1 s) (byte_at 2 s) (byte_at 3 s).
Proof. done. Qed.

(** The cases: ASCII, ill-formed, or a sequence whose later bytes do not matter. *)
Inductive decoded (b0 b1 b2 b3 : Z) : Z -> nat -> Prop :=
  | dec_ascii : b0 < 128 -> decoded b0 b1 b2 b3 b0 1
  | dec_bad : 128 <= b0 -> decoded b0 b1 b2 b3 65533 1
  | dec_2 r : 128 <= b0 -> 128 <= b1 -> 128 <= r -> surrogate r = false ->
      (forall c2 c3, decode4 b0 b1 c2 c3 = (r, 2%nat)) ->
      EncodeRune r = byte b0 (byte b1 "") -> decoded b0 b1 b2 b3 r 2
  | dec_3 r : 128 <= b0 -> 128 <= b1 -> 128 <= b2 -> 128 <= r -> surrogate r = false ->
      (forall c3, decode4 b0 b1 b2 c3 = (r, 3%nat)) ->
      EncodeRune r = byte b0 (byte b1 (byte b2 "")) -> decoded b0 b1 b2 b3 r 3
  | dec_4 r : 128 <= b0 -> 128 <= b1 -> 128 <= b2 -> 128 <= b3 -> 128 <= r -> surrogate r = false ->
      decode4 b0 b1 b2 b3 = (r, 4%nat) ->
      EncodeRune r = byte b0 (byte b1 (byte b2 (byte b3 ""))) -> decoded b0 b1 b2 b3 r 4.

Lemma no_surrogate r : r < 55296 \/ 57344 <= r -> surrogate r = false.
Proof. unfold surrogate. destruct (Z.leb_spec 55296 r), (Z.ltb_spec r 57344); [lia|done..]. Qed.

Lemma decode4_cases b0 b1 b2 b3 :
  decoded b0 b1 b2 b3 (decode4 b0 b1 b2 b3).1 (decode4 b0 b1 b2 b3).2.
Proof.
  unfold decode4. destruct (b0 <? 128) eqn:E0; to_prop; [by constructor|].
  destruct (cont 194 223 b0 && cont 128 191 b1) eqn:E2.
  { apply andb_true_iff in E2 as [H0 H1]. cbn [fst snd].
    pose proof H0 as H0'. pose proof H1 as H1'. apply cont_spec in H0, H1.
    rewrite land_31, land_63. destruct (encode_2 b0 b1) as [Hr He]; [lia..|].
    apply dec_2; try lia; [apply no_surrogate; euclid| |done]. intros c2 c3. unfold decode4.
    destruct (Z.ltb_spec b0 128); [lia|]. by rewrite H0', H1', land_31, land_63. }
  match goal with |- context [if ?c then (_, 3%nat) else _] => destruct c eqn:E3 end.
  { cbn [fst snd]. pose proof E3 as E3'. apply andb_true_iff in E3 as [E3 H2].
    apply andb_true_iff in E3 as [H0 H1]. apply cont_spec in H0, H1, H2.
    assert (128 <= b1 <= 191 /\ (b0 = 224 -> 160 <= b1)) as [H1a H1b].
    { revert H1. destruct (Z.eqb_spec b0 224), (Z.eqb_spec b0 237); lia. }
    assert (b0 = 237 -> b1 <= 159) as H1c.
    { revert H1. destruct (Z.eqb_spec b0 224), (Z.eqb_spec b0 237); lia. }
    rewrite land_15, !land_63. destruct (encode_3 b0 b1 b2) as [Hr He]; [lia..|].
    apply dec_3; try lia; [apply no_surrogate; euclid| |done]. intros c3. unfold decode4.
    destruct (Z.ltb_spec b0 128); [lia|]. by rewrite E2, E3', land_15, !land_63. }
  match goal with |- context [if ?c then (_, 4%nat) else _] => destruct c eqn:E4 end;
    [|by apply dec_bad].
  cbn [fst snd]. pose proof E4 as E4'. apply andb_true_iff in E4 as [E4 H3].
  apply andb_true_iff in E4 as [E4 H2]. apply andb_true_iff in E4 as [H0 H1].
  apply cont_spec in H0, H1, H2, H3.
  assert (128 <= b1 <= 191 /\ (b0 = 240 -> 144 <= b1)) as [H1a H1b].
  { revert H1. destruct (Z.eqb_spec b0 240), (Z.eqb_spec b0 244); lia. }
  rewrite land_7, !land_63. destruct (encode_4 b0 b1 b2 b3) as [Hr He]; [lia..|].
  apply dec_4; try lia; [apply no_surrogate; euclid| |done]. unfold decode4.
  destruct (Z.ltb_spec b0 128); [lia|]. by rewrite E2, E3, E4', land_7, !land_63.
Qed.

(** A sequence of [width] bytes that is read as [r] whatever follows. *)
Definition well_formed_rune (r : Z) (width : nat) (raw : string) : Prop :=
  String.length raw = width /\ (2 <= width)%nat /\ 128 <= r /\ surrogate r = false /\
  (forall t, DecodeRune (raw +:+ t) = (r, width)) /\ EncodeRune r = raw.

(** What the first rune of a text is. *)
Lemma DecodeRune_first c s :
  let b := Z.of_nat (nat_of_ascii c) in
  (b < 128 /\ DecodeRune (String c s) = (b, 1%nat)) \/
  (128 <= b /\
   (DecodeRune (String c s) = (65533, 1%nat) \/
    exists r w, DecodeRune (String c s) = (r, w) /\
      well_formed_rune r w (str_take w (String c s)))).
Proof.
  intros b. rewrite DecodeRune_bytes. change (byte_at 0 (String c s)) with b.
  pose proof (decode4_cases b (byte_at 1 (String c s)) (byte_at 2 (String c s))
                (byte_at 3 (String c s))) as H.
  destruct (decode4 _ _ _ _) as [r w] eqn:Hd. cbn [fst snd] in H.
  destruct H as [H|H|r H0 H1 Hr Hsur Hall He|r H0 H1 H2 Hr Hsur Hall He|r H0 H1 H2 H3 Hr Hsur Hall He];
    [by left|right; split; [lia|by left]|..];
    right; (split; [lia|]); right; eexists r, _; (split; [done|]).
  - destruct s as [|c1 s]; [by destruct (H1 eq_refl)|].
    split; [done|]. split; [lia|].
    split; [done|]. split; [done|]. split.
    + intros t. apply Hall.
    + rewrite He. unfold b.
      change (byte_at 1 _) with (Z.of_nat (nat_of_ascii c1)).
      by rewrite !byte_ascii.
  - destruct s as [|c1 [|c2 s]]; [by destruct (H1 eq_refl)|by destruct (H2 eq_refl)|].
    split; [done|]. split; [lia|].
    split; [done|]. split; [done|]. split.
    + intros t. apply Hall.
    + rewrite He. unfold b.
      change (byte_at 1 _) with (Z.of_nat (nat_of_ascii c1)).
      change (byte_at 2 _) with (Z.of_nat (nat_of_ascii c2)).
      by rewrite !byte_ascii.
  - destruct s as [|c1 [|c2 [|c3 s]]];
      [by destruct (H1 eq_refl)|by destruct (H2 eq_refl)|by destruct (H3 eq_refl)|].
    split; [done|]. split; [lia|].
    split; [done|]. split; [done|]. split.
    + intros t. apply Hall.
    + rewrite He. unfold b.
      change (byte_at 1 _) with (Z.of_nat (nat_of_ascii c1)).
      change (byte_at 2 _) with (Z.of_nat (nat_of_ascii c2)).
      change (byte_at 3 _) with (Z.of_nat (nat_of_ascii c3)).
      by rewrite !byte_ascii.
Qed.

(** ** Strings *)

Lemma long_rune r w : (2 <= w)%nat -> ill_formed r w = false.
Proof. intros Hw. unfold ill_formed. destruct w as [|[|w]]; [lia..|]. apply andb_false_r. Qed.

(** The bytes of a rune beyond ASCII are read as they are. *)
Lemma raw_piece c s t r w :
  let raw := str_take w (String c s) in
  128 <= Z.of_nat (nat_of_ascii c) -> String.length raw = w -> (2 <= w)%nat ->
  (forall t, DecodeRune (raw +:+ t) = (r, w)) ->
  next_piece (raw +:+ t) = Some (Text raw, t).
Proof.
  intros raw Hc Hlen Hw Hall. specialize (Hall t).
  assert (exists raw', raw = String c raw') as [raw' Hraw].
  { unfold raw. destruct w as [|w]; [lia|]. by eexists. }
  rewrite Hraw in *. cbn [String.append next_piece] in *.
  rewrite !bool_decide_eq_false_2 by (intros ->; discriminate Hc || (vm_compute in Hc; congruence)).
  destruct (Nat.ltb_spec (nat_of_ascii c) 32); [lia|]. rewrite Hall, long_rune by done. do 2 f_equal.
  - f_equal. rewrite <- Hlen. apply (str_take_app (String c raw') t).
  - rewrite <- Hlen. apply (str_drop_app (String c raw') t).
Qed.

(** The text that stands for a rune of [s] is read back as that rune. *)
Lemma piece_step c s t :
  let (r, w) := DecodeRune (String c s) in
  next_piece (json_rune r w (str_take w (String c s)) +:+ t) =
  Some (Text (if ill_formed r w then replacement else str_take w (String c s)), t).
Proof.
  destruct (DecodeRune_first c s) as [[Hc ->]|[Hc [->|(r & w & -> & Hlen & Hw & Hr & Hsur & Hall & Henc)]]].
  - change (str_take 1 (String c s)) with (String c ""). clear s.
    destruct c as [[] [] [] [] [] [] [] []]; try discriminate Hc; vm_compute; reflexivity.
  - vm_compute. reflexivity.
  - set (raw := str_take w (String c s)) in *.
    assert (ill_formed r w = false) as Hill by by apply long_rune.
    rewrite Hill. unfold json_rune. rewrite Hill.
    assert (forall n, n < 128 -> (r =? n) = false) as Hne by (intros n Hn; apply Z.eqb_neq; lia).
    rewrite !Hne by lia. destruct (Z.ltb_spec r 32); [lia|]. cbn [orb].
    destruct (Z.eqb_spec r 8232) as [->|_].
    { rewrite <- Henc. vm_compute. reflexivity. }
    destruct (Z.eqb_spec r 8233) as [->|_].
    { rewrite <- Henc. vm_compute. reflexivity. }
    by apply (raw_piece c s t r w).
Qed.

Lemma DecodeRune_width c s : (1 <= (DecodeRune (String c s)).2)%nat.
Proof.
  destruct (DecodeRune_first c s) as [[_ ->]|[_ [->|(r & w & -> & _ & Hw & _)]]]; simpl; lia.
Qed.

Lemma json_rune_nonempty c s :
  let (r, w) := DecodeRune (String c s) in
  (1 <= String.length (json_rune r w (str_take w (String c s))))%nat.
Proof.
  pose proof (piece_step c s "") as H. destruct (DecodeRune (String c s)) as [r w].
  destruct (json_rune _ _ _); [done|simpl; lia].
Qed.

Lemma str_drop_length n s : String.length (str_drop n s) = (String.length s - n)%nat.
Proof. revert s. induction n as [|n IH]; intros [|c s]; simpl; [done..|]. apply IH. Qed.

Lemma read_string_runes n s f rest :
  (String.length s <= n)%nat -> (String.length (json_runes n s) < f)%nat ->
  read_string f (json_runes n s +:+ dquote +:+ rest) = Some (sanitize_runes n s, rest).
Proof.
  revert s f. induction n as [|n IH]; intros [|c s] [|f] Hn Hf; try (simpl in *; lia); [done..|].
  cbn [json_runes sanitize_runes]. cbn [json_runes] in Hf.
  pose proof (piece_step c s) as Hp. pose proof (DecodeRune_width c s) as Hw.
  pose proof (json_rune_nonempty c s) as Hl.
  destruct (DecodeRune (String c s)) as [r w]. cbn [snd] in Hw.
  rewrite str_length_app in Hf. rewrite str_app_assoc. cbn [read_string]. rewrite Hp.
  rewrite IH; [done| |lia]. rewrite str_drop_length. simpl in *. lia.
Qed.

(** A reader gives [a]; a lenient claim allows it to refuse. *)
Definition gives (lenient : Prop) {A} (r : option A) (a : A) : Prop :=
  r = Some a \/ (lenient /\ r = None).

(** Written with [body], a string is read back as [norm] of it. *)
Definition reads_string (lenient : Prop) (body norm : string -> string) (s : string) : Prop :=
  forall f rest, (String.length (quoted body s) < f)%nat ->
  gives lenient (read_string f (body s +:+ dquote +:+ rest)) (norm s, rest).

Lemma reads_json s : reads_string False json_body sanitize s.
Proof.
  intros f rest Hf. left. apply read_string_runes; [done|]. unfold quoted, json_body in Hf.
  rewrite !str_length_app in Hf. lia.
Qed.

(** Well-formed text is left as it is. *)
Lemma sanitize_ascii s : is_ascii s = true -> sanitize s = s.
Proof.
  unfold sanitize. induction s as [|c s IH]; [done|]. cbn [is_ascii]. rewrite andb_true_iff.
  intros [Hc Hs]. cbn [String.length sanitize_runes].
  destruct (DecodeRune_first c s) as [[Hb ->]|[Hb _]].
  - change (str_take 1 (String c s)) with (String c ""). change (str_drop 1 (String c s)) with s.
    rewrite IH by done. assert (ill_formed (Z.of_nat (nat_of_ascii c)) 1 = false) as ->; [|done].
    unfold ill_formed. destruct (Z.eqb_spec (Z.of_nat (nat_of_ascii c)) 65533); [lia|done].
  - exfalso. destruct c as [[] [] [] [] [] [] [] []]; try discriminate Hc; by destruct Hb.
Qed.

(** ** Numbers *)

Lemma pretty_N_char_value d : (d < 10)%N ->
  is_digit (pretty_N_char d) = true /\ Z.of_nat (nat_of_ascii (pretty_N_char d)) - 48 = Z.of_N d /\
  (d <> 0%N -> pretty_N_char d <> "0"%char).
Proof.
  intros Hd. assert (d = 0 \/ d = 1 \/ d = 2 \/ d = 3 \/ d = 4 \/ d = 5 \/ d = 6 \/ d = 7 \/ d = 8 \/
    d = 9)%N as Hin by lia.
  destruct_or! Hin; subst; vm_compute; repeat split; congruence.
Qed.

(** Induction on the digits of a number. *)
Lemma pretty_ind (P : N -> string -> Prop) :
  (forall s, P 0%N s) ->
  (forall x s, (0 < x)%N -> P (x / 10)%N (String (pretty_N_char (x mod 10)) s) -> P x s) ->
  forall x s, P x s.
Proof.
  intros H0 HS x. induction (N.lt_wf_0 x) as [x _ IH]. intros s.
  destruct (N.eq_0_gt_0_cases x) as [->|Hx]; [done|]. apply HS; [done|]. apply IH.
  by apply N.div_lt.
Qed.

Lemma pretty_N_go_app x s t : pretty_N_go x s +:+ t = pretty_N_go x (s +:+ t).
Proof.
  revert x s. apply (pretty_ind (fun x s => pretty_N_go x s +:+ t = pretty_N_go x (s +:+ t))).
  - intros s. by rewrite !pretty_N_go_0.
  - intros x s Hx IH. rewrite (pretty_N_go_step x s), (pretty_N_go_step x (s +:+ t)) by done. exact IH.
Qed.

Lemma pretty_N_go_head x s : (0 < x)%N ->
  exists c u, pretty_N_go x s = String c u /\ is_digit c = true /\ c <> "0"%char.
Proof.
  revert x s. apply (pretty_ind (fun x s => (0 < x)%N ->
    exists c u, pretty_N_go x s = String c u /\ is_digit c = true /\ c <> "0"%char)); [done|].
  intros x s Hx IH _. rewrite pretty_N_go_step by done.
  destruct (N.eq_0_gt_0_cases (x / 10)) as [H0|H0]; [|by apply IH].
  rewrite H0, pretty_N_go_0. assert (x mod 10 = x)%N as Hm.
  { apply N.mod_small. apply N.div_small_iff in H0; lia. }
  destruct (pretty_N_char_value (x mod 10)) as (H1 & _ & H2); [by apply N.mod_lt|].
  eexists _, _. split; [done|]. split; [done|]. apply H2. lia.
Qed.

Lemma digits_pretty x s : exists k, ((0 < x)%N -> (1 <= k)%nat) /\
  digits (pretty_N_go x s) 0 = let '(v, n, rest) := digits s (Z.of_N x) in (v, (k + n)%nat, rest).
Proof.
  revert x s. apply (pretty_ind (fun x s => exists k, ((0 < x)%N -> (1 <= k)%nat) /\
    digits (pretty_N_go x s) 0 =
    let '(v, n, rest) := digits s (Z.of_N x) in (v, (k + n)%nat, rest))).
  - intros s. exists 0%nat. split; [lia|]. rewrite pretty_N_go_0.
    change (Z.of_N 0) with 0. by destruct (digits s 0) as [[v n] r].
  - intros x s Hx (k & _ & IH). exists (S k). split; [lia|]. rewrite pretty_N_go_step, IH by done.
    cbn [digits]. destruct (pretty_N_char_value (x mod 10)) as (H1 & H2 & _); [by apply N.mod_lt|].
    rewrite H1, H2. replace (Z.of_N (x / 10) * 10 + Z.of_N (x mod 10)) with (Z.of_N x).
    + destruct (digits s (Z.of_N x)) as [[v n] r]. f_equal. f_equal. lia.
    + rewrite N2Z.inj_div, N2Z.inj_mod. change (Z.of_N 10) with 10. euclid.
Qed.

(** What follows a number does not continue it. *)
Definition ends_number (s : string) : Prop :=
  match s with
  | String c _ => is_digit c = false /\ c <> "."%char /\ c <> "e"%char /\ c <> "E"%char
  | EmptyString => True
  end.

Lemma ends_digits s v : ends_number s -> digits s v = (v, 0%nat, s).
Proof. destruct s as [|c s]; [done|]. intros [H _]. cbn [digits]. by rewrite H. Qed.

Lemma ends_fraction s : ends_number s -> fraction s = Some (false, s).
Proof.
  destruct s as [|c s]; [done|]. intros (_ & Hc & _). unfold fraction.
  destruct c as [[] [] [] [] [] [] [] []]; try done.
Qed.

Lemma ends_exponent s : ends_number s -> exponent s = Some (false, s).
Proof.
  destruct s as [|c s]; [done|]. intros (_ & _ & H1 & H2). cbn [exponent].
  by rewrite !bool_decide_eq_false_2.
Qed.

Lemma read_unsigned_pretty (x : N) s neg : ends_number s ->
  read_unsigned neg (pretty x +:+ s) = Some (JNum (Some (if neg then - Z.of_N x else Z.of_N x)), s).
Proof.
  intros Hs. unfold read_unsigned. assert (integer_part (pretty x +:+ s) = Some (Z.of_N x, s)) as ->.
  - unfold pretty, pretty_N. case_decide as Hx; [by subst x|].
    rewrite pretty_N_go_app. cbn [String.append].
    destruct (digits_pretty x s) as (k & Hk & Hd). rewrite (ends_digits s) in Hd by done.
    destruct (pretty_N_go_head x s) as (c & u & Hc & _ & Hc0); [lia|]. rewrite Hc in *.
    cbn [integer_part]. rewrite bool_decide_eq_false_2 by done. rewrite Hd.
    destruct k as [|k]; [lia|done].
  - by rewrite ends_fraction, ends_exponent.
Qed.

Lemma pretty_head (x : N) : exists c u, pretty x = String c u /\ is_digit c = true.
Proof.
  unfold pretty, pretty_N. case_decide; [by exists "0"%char, ""|].
  destruct (pretty_N_go_head x "") as (c & u & -> & Hc & _); [lia|]. by exists c, u.
Qed.

(** The first byte of a number. *)
Definition number_head (c : ascii) : Prop := is_digit c = true \/ c = "-"%char.

Lemma itoa_head n : exists c u, itoa n = String c u /\ number_head c.
Proof.
  destruct n as [|p|p].
  - eexists _, _. split; [done|]. by left.
  - change (itoa (Z.pos p)) with (pretty (N.pos p)).
    destruct (pretty_head (N.pos p)) as (c & u & -> & Hc). exists c, u. split; [done|by left].
  - change (itoa (Z.neg p)) with ("-" +:+ pretty (N.pos p)).
    eexists _, _. split; [done|by right].
Qed.

Lemma read_number_pretty (x : N) s : ends_number s ->
  read_number (pretty x +:+ s) = Some (JNum (Some (Z.of_N x)), s).
Proof.
  intros Hs. pose proof (read_unsigned_pretty x s false Hs) as H. unfold read_number.
  destruct (pretty_head x) as (c & u & Hx & Hc). rewrite Hx in *. cbn [String.append minus] in *.
  rewrite bool_decide_eq_false_2 by (by intros ->). exact H.
Qed.

Lemma read_number_itoa n s : ends_number s ->
  read_number (itoa n +:+ s) = Some (JNum (Some n), s).
Proof.
  intros Hs. destruct n as [|p|p].
  - by apply (read_number_pretty 0).
  - by apply (read_number_pretty (N.pos p)).
  - change (itoa (Z.neg p)) with ("-" +:+ pretty (N.pos p)).
    unfold read_number. cbn [String.append minus]. exact (read_unsigned_pretty (N.pos p) s true Hs).
Qed.

(** ** Values *)

Lemma json_nested_ind (P : json -> Prop) :
  P JNull -> (forall b, P (JBool b)) -> (forall n, P (JNum n)) -> (forall s, P (JStr s)) ->
  (forall l, Forall P l -> P (JArr l)) ->
  (forall fields, Forall (fun kv => P kv.2) fields -> P (JObj fields)) -> forall j, P j.
Proof.
  intros H1 H2 H3 H4 H5 H6. fix IH 1. intros [|b|n|s|l|fields]; [done|done|done|done|..].
  - apply H5. induction l as [|j l IHl]; constructor; [apply IH|exact IHl].
  - apply H6. induction fields as [|[k j] fields IHl]; constructor; [apply IH|exact IHl].
Qed.

(** The numbers of a value are integers, its strings [good]. *)
Fixpoint writable (good : string -> bool) (j : json) : bool :=
  match j with
  | JNum None => false
  | JStr s => good s
  | JArr l => forallb (writable good) l
  | JObj fields => forallb (fun kv => good kv.1 && writable good kv.2) fields
  | _ => true
  end.

Definition integral : json -> bool := writable (fun _ => true).

(** How deep its arrays and objects nest. *)
Fixpoint nesting (j : json) : nat :=
  match j with
  | JArr l => S (list_max (map nesting l))
  | JObj fields => S (list_max (map (fun kv => nesting kv.2) fields))
  | _ => O
  end.

(** A value with [norm] applied to its strings. *)
Fixpoint map_strings (norm : string -> string) (j : json) : json :=
  match j with
  | JStr s => JStr (norm s)
  | JArr l => JArr (map (map_strings norm) l)
  | JObj fields => JObj (map (fun kv => (norm kv.1, map_strings norm kv.2)) fields)
  | j => j
  end.

(** A value with the ill-formed bytes of its strings replaced. *)
Definition sanitized : json -> json := map_strings sanitize.

(** The first byte of a value. *)
Definition value_head (c : ascii) : Prop :=
  is_space c = false /\ c <> "]"%char /\ c <> "}"%char.

Lemma number_value_head c : number_head c -> value_head c.
Proof.
  intros [Hc| ->]; [|by vm_compute].
  destruct c as [[] [] [] [] [] [] [] []]; try discriminate Hc; by vm_compute.
Qed.

Lemma next_head c s : is_space c = false -> next (String c s) = Some (c, s).
Proof. intros Hc. unfold next. cbn [skip_space]. by rewrite Hc. Qed.

Lemma closed_head b s : is_space b = false -> closed b (String b s) = Some s.
Proof. intros Hb. unfold closed. rewrite next_head by done. by rewrite bool_decide_eq_true_2. Qed.

Lemma HasPrefix_head c d u p : c <> d -> HasPrefix (String c u) (String d p) = false.
Proof.
  intros Hc. unfold HasPrefix. apply andb_false_iff. right. apply bool_decide_eq_false_2.
  cbn [String.length str_take]. congruence.
Qed.

Lemma literal_itoa n rest : ends_number rest ->
  literal (itoa n +:+ rest) = Some (JNum (Some n), rest).
Proof.
  intros Hrest. pose proof (read_number_itoa n rest Hrest) as H.
  destruct (itoa_head n) as (c & u & Hn & Hc). rewrite Hn in *. cbn [String.append] in *.
  assert (forall e, is_digit e = false -> e <> "-"%char -> c <> e) as Hne.
  { intros e He Hd ->. destruct Hc; congruence. }
  unfold literal. rewrite !HasPrefix_head by (apply Hne; done). exact H.
Qed.

Lemma read_itoa n f d rest : ends_number rest ->
  read_value (S f) d (itoa n +:+ rest) = Some (JNum (Some n), rest).
Proof.
  intros Hrest. pose proof (literal_itoa n rest Hrest) as H.
  destruct (itoa_head n) as (c & u & Hn & Hc). rewrite Hn in *. cbn [String.append] in *.
  pose proof (number_value_head c Hc) as (Hsp & _). cbn [read_value]. rewrite next_head by done.
  assert (forall e, is_digit e = false -> e <> "-"%char -> c <> e) as Hne.
  { intros e He Hd ->. destruct Hc; congruence. }
  rewrite !bool_decide_eq_false_2 by (apply Hne; done). exact H.
Qed.

Lemma literal_null rest : literal ("null" +:+ rest) = Some (JNull, rest).
Proof. unfold literal. by rewrite HasPrefix_app, TrimPrefix_app. Qed.

Lemma literal_true rest : literal ("true" +:+ rest) = Some (JBool true, rest).
Proof.
  unfold literal. assert (HasPrefix ("true" +:+ rest) "null" = false) as ->
    by (apply (HasPrefix_head "t" "n"); done).
  by rewrite HasPrefix_app, TrimPrefix_app.
Qed.

Lemma literal_false rest : literal ("false" +:+ rest) = Some (JBool false, rest).
Proof.
  unfold literal. assert (HasPrefix ("false" +:+ rest) "null" = false) as ->
    by (apply (HasPrefix_head "f" "n"); done).
  assert (HasPrefix ("false" +:+ rest) "true" = false) as ->
    by (apply (HasPrefix_head "f" "t"); done).
  by rewrite HasPrefix_app, TrimPrefix_app.
Qed.

Lemma read_literal f d c u : is_space c = false ->
  c <> ascii_of_nat 34 -> c <> "["%char -> c <> "{"%char ->
  read_value (S f) d (String c u) = literal (String c u).
Proof.
  intros H1 H2 H3 H4. cbn [read_value]. rewrite next_head by done.
  by rewrite !bool_decide_eq_false_2.
Qed.

(** ** Reading back *)

Section Quoted.
Variable lenient : Prop.
Variables body norm : string -> string.
Variable good : string -> bool.
Hypothesis good_reads : forall s, good s = true -> reads_string lenient body norm s.

Local Abbreviation write := (Marshal_with body).

Lemma write_head j : exists c u, write j = String c u /\ value_head c.
Proof.
  destruct j as [|[]|[n|]|s|l|fields]; try (eexists _, _; split; [done|by vm_compute]).
  destruct (itoa_head n) as (c & u & Hn & Hc). exists c, u. split; [done|by apply number_value_head].
Qed.

Lemma next_value j rest :
  exists c u, next (write j +:+ rest) = Some (c, u) /\ value_head c.
Proof.
  destruct (write_head j) as (c & u & -> & Hc). cbn [String.append]. eexists _, _.
  split; [apply next_head, Hc|done].
Qed.

Lemma not_closed j rest : closed "]" (write j +:+ rest) = None.
Proof.
  unfold closed. destruct (next_value j rest) as (c & u & -> & _ & Hc & _).
  by rewrite bool_decide_eq_false_2.
Qed.

Lemma read_quoted s f d rest : good s = true -> (String.length (quoted body s) < f)%nat ->
  gives lenient (read_value (S f) d (quoted body s +:+ rest)) (JStr (norm s), rest).
Proof.
  intros Hs Hf. pose proof (good_reads s Hs f rest Hf) as Hr. unfold quoted. rewrite !str_app_assoc.
  change (dquote +:+ ?s) with (String (ascii_of_nat 34) s) at 1. cbn [read_value].
  rewrite next_head by done. rewrite bool_decide_eq_true_2 by done.
  destruct Hr as [->|[Hl ->]]; [by left|by right].
Qed.

(** [j] is read back wherever a value may stand. *)
Definition reads_back (j : json) : Prop := forall f d rest,
  (2 * String.length (write j) < f)%nat -> (nesting j <= d)%nat -> ends_number rest ->
  gives lenient (read_value f d (write j +:+ rest)) (map_strings norm j, rest).

Lemma read_elements_back l d f rest :
  l <> [] -> Forall reads_back l -> Forall (fun j => nesting j <= d)%nat l ->
  (2 * String.length (Join (map write l) ",") + 1 < f)%nat ->
  gives lenient (read_elements f d (Join (map write l) "," +:+ "]" +:+ rest))
    (map (map_strings norm) l, rest).
Proof.
  revert f. induction l as [|j l IH]; intros f Hl Hback Hnest Hf; [done|].
  apply Forall_cons in Hback as [Hj Hback]. apply Forall_cons in Hnest as [Hnj Hnest].
  destruct f as [|f]; [lia|]. cbn [read_elements map].
  destruct l as [|j2 l]; cbn [map Join] in *.
  - destruct (Hj f d ("]" +:+ rest)) as [->|[Hn ->]]; [lia|done|done| |by right].
    left. cbn [String.append]. by rewrite next_head.
  - rewrite !str_length_app in Hf. rewrite !str_app_assoc.
    match goal with |- context [read_value f d (write j +:+ ?r)] =>
      destruct (Hj f d r) as [->|[Hn ->]]; [simpl in *; lia|done|done| |by right] end.
    cbn [String.append]. rewrite next_head by done. rewrite bool_decide_eq_true_2 by done.
    destruct (IH f) as [Hr|[Hn Hr]]; [done..|simpl in *; lia| |];
      cbn [String.append] in Hr; rewrite Hr; [by left|by right].
Qed.

Definition write_member (kv : string * json) : string :=
  quoted body kv.1 +:+ ":" +:+ write kv.2.

(** The key of a member, up to its colon. *)
Lemma read_key k j f more : good k = true -> (String.length (quoted body k) < f)%nat ->
  exists s, closed (ascii_of_nat 34) (write_member (k, j) +:+ more) = Some s /\
    gives lenient (read_string f s) (norm k, ":" +:+ write j +:+ more).
Proof.
  intros Hgood Hf. unfold write_member. unfold quoted at 1. cbn [fst snd]. rewrite !str_app_assoc.
  change (dquote +:+ ?s) with (String (ascii_of_nat 34) s) at 1. rewrite closed_head by done.
  eexists. split; [done|]. by apply good_reads.
Qed.

Lemma write_member_length k j :
  String.length (write_member (k, j)) =
    (String.length (quoted body k) + 1 + String.length (write j))%nat.
Proof. unfold write_member. cbn [fst snd]. rewrite !str_length_app. simpl. lia. Qed.

Lemma read_members_back l d f rest :
  l <> [] -> Forall (fun kv => good kv.1 = true /\ reads_back kv.2) l ->
  Forall (fun kv => nesting kv.2 <= d)%nat l ->
  (2 * String.length (Join (map write_member l) ",") + 1 < f)%nat ->
  gives lenient (read_members f d (Join (map write_member l) "," +:+ "}" +:+ rest))
    (map (fun kv => (norm kv.1, map_strings norm kv.2)) l, rest).
Proof.
  revert f. induction l as [|[k j] l IH]; intros f Hl Hback Hnest Hf; [done|].
  apply Forall_cons in Hback as [[Hgood Hj] Hback]. apply Forall_cons in Hnest as [Hnj Hnest].
  cbn [fst snd] in Hgood, Hj, Hnj. pose proof (write_member_length k j) as Hlen.
  destruct f as [|f]; [lia|]. cbn [read_members].
  assert ((String.length (quoted body k) + 2 * String.length (write j) < f)%nat) as Hf1.
  { destruct l; cbn [map Join] in Hf; rewrite ?str_length_app in Hf; lia. }
  destruct l as [|kv2 l].
  - cbn [map Join]. destruct (read_key k j f ("}" +:+ rest)) as (s & -> & [->|[Hn ->]]);
      [done|lia| |by right].
    cbn [String.append]. rewrite closed_head by done.
    destruct (Hj f d (String "}" rest)) as [->|[Hn ->]]; [lia|done|done| |by right].
    left. by rewrite next_head.
  - replace (Join (map write_member ((k, j) :: kv2 :: l)) "," +:+ "}" +:+ rest)
      with (write_member (k, j) +:+ "," +:+ Join (map write_member (kv2 :: l)) "," +:+ "}" +:+ rest)
      by (cbn [map Join]; by rewrite !str_app_assoc).
    destruct (read_key k j f ("," +:+ Join (map write_member (kv2 :: l)) "," +:+ "}" +:+ rest))
      as (s & -> & [->|[Hn ->]]); [done|lia| |by right].
    cbn [String.append]. rewrite closed_head by done.
    match goal with |- context [read_value f d (write j +:+ ?r)] =>
      destruct (Hj f d r) as [->|[Hn ->]]; [lia|done|done| |by right] end.
    rewrite next_head by done. rewrite bool_decide_eq_true_2 by done.
    cbn [map Join] in Hf. rewrite !str_length_app in Hf.
    destruct (IH f) as [Hr|[Hn Hr]]; [done..|cbn [map]; simpl in *; lia| |];
      cbn [map Join String.append] in *; rewrite Hr; [by left|by right].
Qed.

Lemma quoted_length s : (2 <= String.length (quoted body s))%nat.
Proof. unfold quoted. rewrite !str_length_app. simpl. lia. Qed.

Lemma all_back {A} (p : A -> bool) (Q : A -> Prop) (l : list A) :
  Forall (fun a => p a = true -> Q a) l -> forallb p l = true -> Forall Q l.
Proof.
  intros Hl Hi. induction Hl as [|a l Ha _ IH]; [done|]. cbn [forallb] in Hi.
  apply andb_true_iff in Hi as [Hi1 Hi2]. constructor; auto.
Qed.

Lemma nested_below {A} (f : A -> json) (l : list A) d :
  (S (list_max (map (fun a => nesting (f a)) l)) <= S d)%nat ->
  Forall (fun a => nesting (f a) <= d)%nat l.
Proof.
  intros Hd. apply le_S_n, list_max_le in Hd. by apply Forall_map in Hd.
Qed.

Lemma reads_back_all j : writable good j = true -> reads_back j.
Proof.
  induction j as [|b|[n|]|s|l IH|fields IH] using json_nested_ind; intros Hint f d rest Hf Hd Hrest;
    try discriminate Hint; (destruct f as [|f]; [lia|]).
  - left. etrans; [by apply read_literal|apply literal_null].
  - left. destruct b; (etrans; [by apply read_literal|]); [apply literal_true|apply literal_false].
  - left. by apply read_itoa.
  - apply read_quoted; [done|]. pose proof (quoted_length s). cbn [Marshal_with] in Hf. lia.
  - cbn [Marshal_with nesting writable map_strings] in *. destruct d as [|d]; [lia|].
    rewrite !str_length_app in Hf. rewrite !str_app_assoc. cbn [String.append read_value].
    rewrite next_head, bool_decide_eq_false_2, bool_decide_eq_true_2 by done.
    destruct l as [|j l]; [by left|].
    assert (closed "]" (Join (map write (j :: l)) "," +:+ String "]" rest) = None) as ->.
    { destruct l; cbn [map Join]; rewrite ?str_app_assoc; apply not_closed. }
    change (String "]" rest) with ("]" +:+ rest).
    destruct (read_elements_back (j :: l) d f rest) as [Hr|[Hn Hr]];
      [done|by eapply all_back|by apply nested_below|simpl in *; lia| |];
      cbn [map Join String.append] in *; rewrite Hr; [by left|by right].
  - cbn [Marshal_with nesting writable map_strings] in *. destruct d as [|d]; [lia|].
    rewrite !str_length_app in Hf. rewrite !str_app_assoc. cbn [String.append read_value].
    rewrite next_head, !bool_decide_eq_false_2, bool_decide_eq_true_2 by done.
    destruct fields as [|[k j] fields]; [by left|].
    change (map (fun kv => quoted body kv.1 +:+ ":" +:+ write kv.2) ((k, j) :: fields))
      with (map write_member ((k, j) :: fields)) in Hf.
    change (map (fun kv => quoted body kv.1 +:+ String ":" (write kv.2)) ((k, j) :: fields))
      with (map write_member ((k, j) :: fields)).
    assert (closed "}" (Join (map write_member ((k, j) :: fields)) "," +:+ String "}" rest) = None)
      as ->.
    { by destruct fields. }
    change (String "}" rest) with ("}" +:+ rest).
    destruct (read_members_back ((k, j) :: fields) d f rest) as [Hr|[Hn Hr]];
      [done| |by apply nested_below|simpl in *; lia|rewrite Hr; by left|rewrite Hr; by right].
    eapply all_back; [|exact Hint]. eapply Forall_impl; [exact IH|].
    intros kv Hkv H. apply andb_true_iff in H as [H1 H2]. auto.
Qed.

End Quoted.

(** ** Round trips *)

Section RoundTrip.
Variable lenient : Prop.
Variables body norm : string -> string.
Variable good : string -> bool.
Hypothesis good_reads : forall s, good s = true -> reads_string lenient body norm s.

Lemma Decode_written j rest :
  writable good j = true -> (nesting j <= maxNestingDepth)%nat -> ends_number rest ->
  gives lenient (Decode (Marshal_with body j +:+ rest)) (map_strings norm j, rest).
Proof.
  intros Hi Hd Hrest. apply (reads_back_all lenient body norm good good_reads); [done| |done|done].
  rewrite str_length_app. lia.
Qed.

Lemma Unmarshal_written j :
  writable good j = true -> (nesting j <= maxNestingDepth)%nat ->
  gives lenient (Unmarshal (Marshal_with body j)) (map_strings norm j).
Proof.
  intros Hi Hd. pose proof (Decode_written j "" Hi Hd I) as H. rewrite str_app_nil_r in H.
  unfold Unmarshal. destruct H as [->|[Hl ->]]; [by left|by right].
Qed.

End RoundTrip.

Lemma gives_strict {A} (r : option A) (a : A) : gives False r a -> r = Some a.
Proof. by intros [H|[[] _]]. Qed.

Lemma gives_lenient {A} (r : option A) (a b : A) : gives True r a -> r = Some b -> b = a.
Proof. by intros [->|[_ ->]] [= ->]. Qed.

(** What [Marshal] writes of a value is read back as that value, its ill-formed bytes
replaced, and nothing of what follows it is read. *)
Theorem Decode_Marshal j rest :
  integral j = true -> (nesting j <= maxNestingDepth)%nat -> ends_number rest ->
  Decode (Marshal j +:+ rest) = Some (sanitized j, rest).
Proof.
  intros Hi Hd Hr. apply gives_strict.
  apply (Decode_written _ _ _ (fun _ => true)); [|done..]. intros s _. apply reads_json.
Qed.

Theorem Unmarshal_Marshal j :
  integral j = true -> (nesting j <= maxNestingDepth)%nat ->
  Unmarshal (Marshal j) = Some (sanitized j).
Proof.
  intros Hi Hd. apply gives_strict.
  apply (Unmarshal_written _ _ _ (fun _ => true)); [|done..]. intros s _. apply reads_json.
Qed.

Theorem Unmarshal_EncodeLine j :
  integral j = true -> (nesting j <= maxNestingDepth)%nat ->
  Unmarshal (EncodeLine j) = Some (sanitized j).
Proof.
  intros Hi Hd. unfold Unmarshal, EncodeLine. by rewrite Decode_Marshal.
Qed.

(** ** Go's quoted strings as JSON strings

[%q] writes Go syntax; of printable ASCII that is JSON too. *)

Lemma all_bytes_app p a b : all_bytes p (a +:+ b) = all_bytes p a && all_bytes p b.
Proof.
  induction a as [|c a IH]; [done|].
  change (all_bytes p (String c a +:+ b)) with (p c && all_bytes p (a +:+ b)).
  cbn [all_bytes]. by rewrite IH, andb_assoc.
Qed.

Definition printable_byte (c : ascii) : bool :=
  (32 <=? nat_of_ascii c)%nat && (nat_of_ascii c <? 127)%nat.

Definition printable : string -> bool := all_bytes printable_byte.

Lemma not_printable_drop w c s :
  printable (str_drop w (String c s)) = false -> printable (String c s) = false.
Proof.
  unfold printable. rewrite <- (str_take_drop w (String c s)) at 2. rewrite all_bytes_app.
  intros ->. apply andb_false_r.
Qed.

Section GoQuoted.
Variable IsPrint : Z -> bool.

Definition quote_body (s : string) : string := quote_runes IsPrint (String.length s) s.

Lemma Quote_quoted s : Quote IsPrint s = quoted quote_body s.
Proof. done. Qed.

Lemma hex_digit_lower z : 0 <= z < 16 -> hex_digit (hex_lower (Z.to_nat z)) = Some z.
Proof.
  intros Hz. rewrite <- (Z2Nat.id z) at 2 by lia. generalize (Z.to_nat z) (Z2Nat.inj_lt z 16).
  intros n Hn. assert (n < 16)%nat as H by (apply Hn; lia). clear -H.
  do 16 (destruct n as [|n]; [done|]). lia.
Qed.

Lemma hex4_bytes r t : 0 <= r < 65536 ->
  hex4 (hex_byte (r / 256) +:+ hex_byte (r mod 256) +:+ t) = Some (r, t).
Proof.
  intros Hr. cbn [hex_byte String.append hex4]. rewrite !hex_digit_lower by euclid.
  do 2 f_equal. euclid.
Qed.

Lemma unicode_escape_bytes r t : 0 <= r < 65536 -> surrogate r = false ->
  unicode_escape (hex_byte (r / 256) +:+ hex_byte (r mod 256) +:+ t) = Some (EncodeRune r, t).
Proof. intros Hr Hs. unfold unicode_escape. by rewrite hex4_bytes, Hs. Qed.

(** A rune of a quoted string is read as itself, or not at all ([\x], [\a], [\v] and
[\U] are not JSON). *)
Lemma quote_step c s t :
  let (r, w) := DecodeRune (String c s) in
  gives (printable_byte c = false)
    (next_piece (quote_rune IsPrint r w (str_take w (String c s)) +:+ t))
    (Text (str_take w (String c s)), t).
Proof.
  destruct (DecodeRune_first c s) as [[Hc ->]|[Hc [->|(r & w & -> & Hlen & Hw & Hr & Hsur & Hall & Henc)]]].
  - change (str_take 1 (String c s)) with (String c ""). clear s.
    destruct c as [[] [] [] [] [] [] [] []]; try discriminate Hc;
      first [left; vm_compute; reflexivity|right; split; vm_compute; reflexivity].
  - right. split; [|done]. destruct c as [[] [] [] [] [] [] [] []]; first [done|by destruct Hc].
  - set (raw := str_take w (String c s)) in *.
    assert ((w =? 1)%nat = false) as Hw1 by (apply Nat.eqb_neq; lia).
    assert (forall n, n < 128 -> (r =? n) = false) as Hne by (intros n Hn; apply Z.eqb_neq; lia).
    unfold quote_rune. rewrite Hw1. cbn [andb]. rewrite !Hne by lia. cbn [andb orb].
    destruct (Z.ltb_spec r 128); [lia|]. destruct (Z.ltb_spec r 32); [lia|]. cbn [orb].
    destruct (IsPrint r); [|destruct (Z.ltb_spec r 65536)].
    + left. by apply (raw_piece c s _ r w).
    + left. rewrite !str_app_assoc. cbn [String.append next_piece].
      rewrite bool_decide_eq_false_2, bool_decide_eq_true_2 by done.
      change (simple_escape "u") with (@None ascii). rewrite bool_decide_eq_true_2 by done.
      rewrite unicode_escape_bytes by (done || lia). by rewrite Henc.
    + right. split; [|done]. destruct c as [[] [] [] [] [] [] [] []]; first [done|by destruct Hc].
Qed.

Lemma quote_rune_nonempty c s :
  let (r, w) := DecodeRune (String c s) in
  (1 <= String.length (quote_rune IsPrint r w (str_take w (String c s))))%nat.
Proof.
  pose proof (DecodeRune_width c s) as Hw. destruct (DecodeRune (String c s)) as [r w].
  cbn [snd] in Hw. destruct w as [|w]; [lia|]. unfold quote_rune.
  repeat case_match; simpl; lia.
Qed.

(** A quoted string is read as it was, or not at all: no text reads as another. *)
Lemma read_quote_runes n s f rest :
  (String.length s <= n)%nat -> (String.length (quote_runes IsPrint n s) < f)%nat ->
  gives (printable s = false)
    (read_string f (quote_runes IsPrint n s +:+ dquote +:+ rest)) (s, rest).
Proof.
  revert s f. induction n as [|n IH]; intros [|c s] [|f] Hn Hf; try (simpl in *; lia);
    [by left..|].
  cbn [quote_runes] in *. pose proof (quote_step c s) as Hp.
  pose proof (DecodeRune_width c s) as Hw. pose proof (quote_rune_nonempty c s) as Hl.
  destruct (DecodeRune (String c s)) as [r w]. cbn [snd] in Hw.
  rewrite str_length_app in Hf. rewrite str_app_assoc. cbn [read_string].
  destruct (Hp (quote_runes IsPrint n (str_drop w (String c s)) +:+ dquote +:+ rest))
    as [->|[Hc ->]]; [|right; split; [unfold printable; cbn [all_bytes]; by rewrite Hc|done]].
  destruct (IH (str_drop w (String c s)) f) as [->|[Hs ->]].
  - rewrite str_drop_length. simpl in *. lia.
  - lia.
  - left. by rewrite str_take_drop.
  - right. split; [|done]. revert Hs. apply not_printable_drop.
Qed.

Lemma map_strings_id j : map_strings (fun s => s) j = j.
Proof.
  induction j as [|b|n|s|l IH|fields IH] using json_nested_ind; try done; cbn [map_strings]; f_equal.
  - induction IH as [|j l Hj _ IHl]; [done|]. cbn [map]. by rewrite Hj, IHl.
  - induction IH as [|[k j] l Hj _ IHl]; [done|]. cbn [map fst snd] in *. by rewrite Hj, IHl.
Qed.

Lemma reads_quoted lenient good s :
  (good s = true -> printable s = true \/ lenient) -> good s = true ->
  reads_string lenient quote_body (fun s => s) s.
Proof.
  intros Hgood Hs f rest Hf. unfold quoted in Hf. rewrite !str_length_app in Hf.
  destruct (read_quote_runes (String.length s) s f rest) as [Hr|[Hp Hr]];
    [done|unfold quote_body in Hf; lia|by left|right].
  split; [|done]. destruct (Hgood Hs) as [Hp'|]; [congruence|done].
Qed.

(** A value of printable strings, each written with [%q], is read back as it is; with
any other strings it is read back as it is or not at all. *)
Lemma Unmarshal_Quoted j :
  writable printable j = true -> (nesting j <= maxNestingDepth)%nat ->
  Unmarshal (Marshal_with quote_body j) = Some j.
Proof.
  intros Hi Hd. apply gives_strict. rewrite <- (map_strings_id j) at 2.
  apply (Unmarshal_written _ _ _ printable); [|done..].
  intros s. apply (reads_quoted _ printable). by left.
Qed.

Lemma Unmarshal_Quoted_only j j' :
  integral j = true -> (nesting j <= maxNestingDepth)%nat ->
  Unmarshal (Marshal_with quote_body j) = Some j' -> j' = j.
Proof.
  intros Hi Hd. apply gives_lenient. rewrite <- (map_strings_id j) at 2.
  apply (Unmarshal_written _ _ _ (fun _ => true)); [|done..].
  intros s. apply (reads_quoted _ (fun _ => true)). by right.
Qed.

End GoQuoted.
