(* ===== verification/GoJsonFuel.v ===== *)
(** * Reading JSON: enough calls

[GoJson.Decode] reads with fuel; every reader moves forward, so two calls per byte are
enough and more change nothing. *)

From S2P Require Import Prelude GoStrings GoNet GoJson GoJsonSpec.

Local Open Scope string_scope.
Local Open Scope list_scope.
Local Open Scope Z_scope.

(** What is left when [k] bytes at least have been read of [s]. *)
Definition left_after (k : nat) (s rest : string) : Prop :=
  (k + String.length rest <= String.length s)%nat.

(** A reader that reads at least one byte. *)
Definition consumes {A} (s : string) (r : option (A * string)) : Prop :=
  match r with Some (_, rest) => left_after 1 s rest | None => True end.

Lemma skip_space_left s : left_after 0 s (skip_space s).
Proof.
  unfold left_after. induction s as [|c s IH]; [done|]. cbn [skip_space String.length].
  destruct (is_space c); simpl in *; lia.
Qed.

Lemma next_consumes s : consumes s (next s).
Proof.
  unfold next, consumes. pose proof (skip_space_left s) as H.
  destruct (skip_space s) as [|c s']; [done|]. exact H.
Qed.

Lemma closed_left b s rest : closed b s = Some rest -> left_after 1 s rest.
Proof.
  unfold closed. pose proof (next_consumes s) as H. destruct (next s) as [[c s']|]; [|done].
  case_bool_decide; [|done]. by intros [= <-].
Qed.

Lemma hex4_left s r rest : hex4 s = Some (r, rest) -> left_after 4 s rest.
Proof.
  unfold hex4, left_after. intros H. repeat case_match; simplify_eq/=. lia.
Qed.

Lemma unicode_escape_left s t rest : unicode_escape s = Some (t, rest) -> left_after 4 s rest.
Proof.
  unfold unicode_escape. destruct (hex4 s) as [[r1 s1]|] eqn:H1; [|done].
  apply hex4_left in H1. intros H. repeat case_match; simplify_eq; try done.
  match goal with H2 : hex4 _ = Some _ |- _ => apply hex4_left in H2 end.
  unfold left_after in *. simpl in *. lia.
Qed.

Lemma next_piece_consumes s : consumes s (next_piece s).
Proof.
  destruct s as [|c s]; [done|]. unfold next_piece, consumes.
  case_bool_decide; [unfold left_after; simpl; lia|]. case_bool_decide.
  - destruct s as [|e s]; [done|]. destruct (simple_escape e); [unfold left_after; simpl; lia|].
    case_bool_decide; [|done]. destruct (unicode_escape s) as [[t rest]|] eqn:Hu; [|done].
    apply unicode_escape_left in Hu. unfold left_after in *. simpl. lia.
  - destruct (nat_of_ascii c <? 32)%nat; [done|]. pose proof (DecodeRune_width c s) as Hw.
    destruct (DecodeRune (String c s)) as [r w]. unfold left_after. rewrite str_drop_length.
    simpl in *. lia.
Qed.

Lemma read_string_consumes f s : consumes s (read_string f s).
Proof.
  revert s. induction f as [|f IH]; intros s; [done|]. cbn [read_string].
  pose proof (next_piece_consumes s) as H. destruct (next_piece s) as [[[|t] s']|]; [done| |done].
  specialize (IH s'). destruct (read_string f s') as [[u rest]|]; [|done].
  unfold consumes, left_after in *. lia.
Qed.

Lemma digits_left s acc v n rest : digits s acc = (v, n, rest) -> left_after n s rest.
Proof.
  revert acc v n rest. induction s as [|c s IH]; intros acc v n rest; cbn [digits].
  - intros [= <- <- <-]. unfold left_after. lia.
  - destruct (is_digit c); [|intros [= <- <- <-]; unfold left_after; lia].
    destruct (digits s _) as [[v' n'] rest'] eqn:Hd. intros [= <- <- <-].
    apply IH in Hd. unfold left_after in *. simpl. lia.
Qed.

Lemma some_digits_left s rest : some_digits s = Some rest -> left_after 0 s rest.
Proof.
  unfold some_digits. destruct (digits s 0) as [[v [|n]] rest'] eqn:Hd; [done|].
  apply digits_left in Hd. intros [= <-]. unfold left_after in *. lia.
Qed.

Lemma fraction_left s b rest : fraction s = Some (b, rest) -> left_after 0 s rest.
Proof.
  unfold fraction. intros H. repeat case_match; simplify_eq; try (unfold left_after; lia).
  match goal with H2 : some_digits _ = Some _ |- _ => apply some_digits_left in H2 end.
  unfold left_after in *. simpl in *. lia.
Qed.

Lemma exponent_left s b rest : exponent s = Some (b, rest) -> left_after 0 s rest.
Proof.
  unfold exponent. intros H. repeat case_match; simplify_eq; try (unfold left_after; lia).
  all: match goal with H2 : some_digits _ = Some _ |- _ => apply some_digits_left in H2 end;
    unfold left_after in *; simpl in *; lia.
Qed.

Lemma integer_part_left s v rest : integer_part s = Some (v, rest) -> left_after 1 s rest.
Proof.
  unfold integer_part. destruct s as [|c s]; [done|].
  case_bool_decide; [intros [= <- <-]; unfold left_after; simpl; lia|].
  destruct (digits (String c s) 0) as [[v' [|n]] rest'] eqn:Hd; [done|].
  apply digits_left in Hd. intros [= <- <-]. unfold left_after in *. lia.
Qed.

Lemma read_number_consumes s : consumes s (read_number s).
Proof.
  assert (left_after 0 s (minus s).2) as Hm.
  { destruct s as [|c s]; [unfold left_after; simpl; lia|]. cbn [minus]. case_bool_decide; unfold left_after; simpl; lia. }
  unfold read_number. destruct (minus s) as [neg s0]. unfold read_unsigned, consumes.
  destruct (integer_part s0) as [[v s1]|] eqn:H1; [apply integer_part_left in H1|done].
  destruct (fraction s1) as [[fr s2]|] eqn:H2; [apply fraction_left in H2|done].
  destruct (exponent s2) as [[e s3]|] eqn:H3; [apply exponent_left in H3|done].
  unfold left_after in *. simpl in *. lia.
Qed.

Lemma TrimPrefix_left s p : HasPrefix s p = true -> left_after (String.length p) s (TrimPrefix s p).
Proof.
  intros [r ->]%HasPrefix_true. rewrite TrimPrefix_app. unfold left_after.
  rewrite str_length_app. lia.
Qed.

Lemma literal_consumes s : consumes s (literal s).
Proof.
  unfold literal.
  destruct (HasPrefix s "null") eqn:H1; [apply TrimPrefix_left in H1|
    destruct (HasPrefix s "true") eqn:H2; [apply TrimPrefix_left in H2|
      destruct (HasPrefix s "false") eqn:H3; [apply TrimPrefix_left in H3|
        apply read_number_consumes]]]; unfold consumes, left_after in *; simpl in *; lia.
Qed.

(** Take the next reader's step, keeping how much it leaves. *)
Ltac read_step :=
  match goal with
  | H : forall d s, consumes s (?r d s) |- context [match ?r ?d ?s with _ => _ end] =>
      pose proof (H d s); destruct (r d s) as [[??]|]
  | |- context [match next ?s with _ => _ end] =>
      pose proof (next_consumes s); destruct (next s) as [[??]|]
  | |- context [match closed ?b ?s with _ => _ end] =>
      let H := fresh in destruct (closed b s) eqn:H; [apply closed_left in H|]
  | |- context [match read_string ?f ?s with _ => _ end] =>
      pose proof (read_string_consumes f s); destruct (read_string f s) as [[??]|]
  | |- context [match ?d with O => _ | S _ => _ end] => destruct d
  | |- context [if bool_decide ?P then _ else _] => case_bool_decide
  end.

Ltac left_lia := unfold consumes, left_after in *; simpl String.length in *; lia.

(** The three readers, with [f] calls at most. *)
Lemma read_consumes f :
  (forall d s, consumes s (read_value f d s)) /\ (forall d s, consumes s (read_elements f d s)) /\
  (forall d s, consumes s (read_members f d s)).
Proof.
  induction f as [|f (Hv & He & Hm)]; [done|].
  split; [|split]; intros d s; cbn [read_value read_elements read_members];
    repeat read_step; try done; try left_lia.
  all: match goal with |- consumes _ (literal ?t) =>
    pose proof (literal_consumes t); destruct (literal t) as [[??]|]; [left_lia|done] end.
Qed.

Lemma read_string_enough f f' s :
  (String.length s <= f)%nat -> (String.length s <= f')%nat -> read_string f s = read_string f' s.
Proof.
  revert f' s. induction f as [|f IH]; intros [|f'] [|c s] Hf Hf'; try (simpl in *; lia); [done..|].
  cbn [read_string]. pose proof (next_piece_consumes (String c s)) as H.
  destruct (next_piece (String c s)) as [[[|t] s']|]; [done| |done].
  by rewrite (IH f' s') by left_lia.
Qed.

(** Any two numbers of calls that are enough for a text read the same. *)
Lemma read_enough f :
  (forall f' d s, (2 * String.length s < f)%nat -> (2 * String.length s < f')%nat ->
     read_value f d s = read_value f' d s) /\
  (forall f' d s, (2 * String.length s + 1 < f)%nat -> (2 * String.length s + 1 < f')%nat ->
     read_elements f d s = read_elements f' d s) /\
  (forall f' d s, (2 * String.length s + 1 < f)%nat -> (2 * String.length s + 1 < f')%nat ->
     read_members f d s = read_members f' d s).
Proof.
  induction f as [|f (Hv & He & Hm)]; [by split; [|split]; intros; lia|].
  destruct (read_consumes f) as (Cv & Ce & Cm).
  split; [|split]; intros [|f'] d s Hf Hf'; try lia; cbn [read_value read_elements read_members].
  - pose proof (next_consumes s). destruct (next s) as [[c s']|]; [|done].
    case_bool_decide; [by rewrite (read_string_enough f f') by left_lia|].
    destruct d as [|d]; [done|].
    by rewrite (He f'), (Hm f') by left_lia.
  - rewrite <- (Hv f') by left_lia. pose proof (Cv d s). destruct (read_value f d s) as [[j s1]|]; [|done].
    pose proof (next_consumes s1). destruct (next s1) as [[c s2]|]; [|done].
    by rewrite (He f' d s2) by left_lia.
  - destruct (closed (ascii_of_nat 34) s) as [s1|] eqn:H1; [apply closed_left in H1|done].
    rewrite <- (read_string_enough f f' s1) by left_lia.
    pose proof (read_string_consumes f s1). destruct (read_string f s1) as [[k s2]|]; [|done].
    destruct (closed ":" s2) as [s3|] eqn:H2; [apply closed_left in H2|done].
    rewrite <- (Hv f') by left_lia. pose proof (Cv d s3). destruct (read_value f d s3) as [[j s4]|]; [|done].
    pose proof (next_consumes s4). destruct (next s4) as [[c s5]|]; [|done].
    by rewrite (Hm f' d s5) by left_lia.
Qed.

(** [Decode] refuses nothing for want of calls. *)
Theorem Decode_enough f s :
  (2 * String.length s < f)%nat -> read_value f maxNestingDepth s = Decode s.
Proof. intros Hf. apply read_enough; [done|lia]. Qed.
