(* ===== verification/GoTime.v ===== *)
(** * Instants and durations as text

[Duration.String], [Duration.Round] and [Time.Format] with [time.RFC3339Nano] in
UTC. *)

From S2P Require Import Prelude GoStrings GoRuntime.

Local Open Scope string_scope.
Local Open Scope list_scope.
Local Open Scope Z_scope.

(** ** Durations as text *)

Definition digit (n : Z) : ascii := ascii_of_nat (48 + Z.to_nat n).

(** [fmtInt]: decimal digits, at least one, put in front of [acc]. *)
Fixpoint fmtInt (fuel : nat) (v : Z) (acc : string) : string :=
  match fuel with
  | O => acc
  | S fuel' =>
      let acc' := String (digit (v mod 10)) acc in
      if v / 10 =? 0 then acc' else fmtInt fuel' (v / 10) acc'
  end.

(** Twenty digits hold any [uint64]. *)
Definition fmt_int (v : Z) (acc : string) : string := fmtInt 20 v acc.

(** [fmtFrac]: [prec] fractional digits without trailing zeros, in front of
[acc]; [printing] once a digit has been written. *)
Fixpoint fmtFrac (prec : nat) (v : Z) (printing : bool) (acc : string) : string * Z :=
  match prec with
  | O => ((if printing then String "." acc else acc), v)
  | S prec' =>
      let d := v mod 10 in
      let printing' := printing || negb (d =? 0) in
      fmtFrac prec' (v / 10) printing' (if printing' then String (digit d) acc else acc)
  end.

(** [Duration.String] *)
Definition Duration_String (d : duration) : string :=
  let u := Z.abs d in
  let unsigned :=
    if u =? 0 then "0s"
    else if u <? Second then
      if u <? 1000 then fmt_int u "ns"
      else if u <? 1000000 then let (s, v) := fmtFrac 3 u false "µs" in fmt_int v s
      else let (s, v) := fmtFrac 6 u false "ms" in fmt_int v s
    else
      let (s, secs) := fmtFrac 9 u false "s" in
      let s := fmt_int (secs mod 60) s in
      let mins := secs / 60 in
      if mins =? 0 then s
      else
        let s := fmt_int (mins mod 60) (String "m" s) in
        let hours := mins / 60 in
        if hours =? 0 then s else fmt_int hours (String "h" s) in
  if d <? 0 then String "-" unsigned else unsigned.

(** [Duration.Round]: to the nearest multiple of [m], halves away from zero,
saturating. *)
Definition Duration_Round (d m : duration) : duration :=
  if m <=? 0 then d
  else
    let r := Z.rem d m in
    if d <? 0 then
      let r := - r in
      if r + r <? m then d + r
      else let d1 := wrap64 (d - m + r) in if d1 <? d then d1 else int64_min
    else
      if r + r <? m then d - r
      else let d1 := wrap64 (d + m - r) in if d <? d1 then d1 else int64_max.

(** ** Dates *)

(** Year, month and day of a day counted from 0001-01-01, in the proleptic
Gregorian calendar (years of 400-year cycles beginning on March 1st). *)
Definition civil (days : Z) : Z * Z * Z :=
  let z := days + 306 in
  let era := z / 146097 in
  let doe := z mod 146097 in
  let yoe := (doe - doe / 1460 + doe / 36524 - doe / 146096) / 365 in
  let doy := doe - (365 * yoe + yoe / 4 - yoe / 100) in
  let mp := (5 * doy + 2) / 153 in
  let m := if mp <? 10 then mp + 3 else mp - 9 in
  (yoe + era * 400 + (if m <=? 2 then 1 else 0), m, doy - (153 * mp + 2) / 5 + 1).

(** [appendInt] with a minimal width, of a non-negative number. *)
Fixpoint pad (width : nat) (v : Z) (acc : string) : string :=
  match width with
  | O => if v =? 0 then acc else fmt_int v acc
  | S w => pad w (v / 10) (String (digit (v mod 10)) acc)
  end.

(** The fraction of a second, [Z] included. *)
Definition nanos (t : time) : string := (fmtFrac 9 (t mod Second) false "Z").1.

(** The date and time down to the second. *)
Definition upto_second (secs : Z) : string :=
  let '(y, m, d) := civil (secs / 86400) in
  let s := secs mod 86400 in
  pad 4 y "-" +:+ pad 2 m "-" +:+ pad 2 d "T" +:+
  pad 2 (s / 3600) ":" +:+ pad 2 (s / 60 mod 60) ":" +:+ pad 2 (s mod 60) "".

(** [t.UTC().Format(time.RFC3339Nano)] *)
Definition Format_RFC3339Nano (t : time) : string := upto_second (t / Second) +:+ nanos t.

Example format_epoch : Format_RFC3339Nano (62135596800 * Second) = "1970-01-01T00:00:00Z".
Proof. reflexivity. Qed.

Example format_leap :
  Format_RFC3339Nano ((62135596800 + 1709210096) * Second + 120000000) = "2024-02-29T12:34:56.12Z".
Proof. reflexivity. Qed.

Example string_of_duration :
  Duration_String (Duration_Round (125 * Second + 400000000) Second) = "2m5s" /\
  Duration_String 1500000 = "1.5ms" /\ Duration_String int64_min = "-2562047h47m16.854775808s".
Proof. vm_compute. repeat split. Qed.

(** ** The fraction tells instants of one second apart *)

Lemma digit_inj a b : 0 <= a < 10 -> 0 <= b < 10 -> digit a = digit b -> a = b.
Proof.
  intros Ha Hb H. apply (f_equal nat_of_ascii) in H. unfold digit in H.
  rewrite !nat_ascii_embedding in H by lia. lia.
Qed.

(** A property of the ten digits is a property of every printed digit. *)
Lemma digit_all (ok : ascii -> bool) n :
  0 <= n < 10 -> forallb (fun k => ok (digit (Z.of_nat k))) (seq 0 10) = true -> ok (digit n) = true.
Proof.
  intros Hn Hok. rewrite forallb_forall in Hok. specialize (Hok (Z.to_nat n)).
  rewrite Z2Nat.id in Hok by lia. apply Hok, in_seq. lia.
Qed.

Lemma fmtFrac_length p v acc :
  String.length (fmtFrac p v true acc).1 = (String.length acc + p + 1)%nat.
Proof.
  revert v acc. induction p as [|p IH]; intros v acc; simpl; [lia|].
  rewrite IH. simpl. lia.
Qed.

Lemma fmtFrac_length_le p v acc :
  (String.length (fmtFrac p v false acc).1 <= String.length acc + p + 1)%nat.
Proof.
  revert v acc. induction p as [|p IH]; intros v acc; cbn [fmtFrac]; [simpl; lia|].
  destruct (v mod 10 =? 0); cbn [negb orb].
  - specialize (IH (v / 10) acc). lia.
  - rewrite fmtFrac_length. simpl. lia.
Qed.

Lemma div_pow10 p v : 0 <= v < 10 ^ Z.of_nat (S p) -> 0 <= v / 10 < 10 ^ Z.of_nat p.
Proof.
  intros Hv. rewrite Nat2Z.inj_succ, Z.pow_succ_r in Hv by lia. split.
  - apply Z.div_pos; lia.
  - apply Z.div_lt_upper_bound; lia.
Qed.

Lemma div_mod_10 v w : v / 10 = w / 10 -> v mod 10 = w mod 10 -> v = w.
Proof. intros Hd Hm. rewrite (Z.div_mod v 10), (Z.div_mod w 10) by lia. lia. Qed.

Lemma fmtFrac_inj_printing p v w acc acc' :
  0 <= v < 10 ^ Z.of_nat p -> 0 <= w < 10 ^ Z.of_nat p ->
  (fmtFrac p v true acc).1 = (fmtFrac p w true acc').1 -> v = w /\ acc = acc'.
Proof.
  revert v w acc acc'. induction p as [|p IH]; intros v w acc acc' Hv Hw H.
  - simpl in *. split; [lia|congruence].
  - cbn [fmtFrac orb] in H. apply IH in H as [Hd Ha]; [|by apply div_pow10..].
    injection Ha as Hm ->. split; [|done]. apply div_mod_10; [done|].
    apply digit_inj; [apply Z.mod_pos_bound; lia..|done].
Qed.

Lemma fmtFrac_inj p v w acc :
  0 <= v < 10 ^ Z.of_nat p -> 0 <= w < 10 ^ Z.of_nat p ->
  (fmtFrac p v false acc).1 = (fmtFrac p w false acc).1 -> v = w.
Proof.
  revert v w. induction p as [|p IH]; intros v w Hv Hw H; [simpl in *; lia|].
  cbn [fmtFrac] in H. pose proof (fmtFrac_length_le p (v / 10) acc) as Lv.
  pose proof (fmtFrac_length_le p (w / 10) acc) as Lw.
  destruct (v mod 10 =? 0) eqn:Ev, (w mod 10 =? 0) eqn:Ew; cbn [negb orb] in H; to_prop.
  - apply IH in H; [|by apply div_pow10..]. by apply div_mod_10; [|congruence].
  - apply (f_equal String.length) in H. rewrite fmtFrac_length in H. simpl in H. lia.
  - apply (f_equal String.length) in H. rewrite fmtFrac_length in H. simpl in H. lia.
  - apply fmtFrac_inj_printing in H as [Hd Ha]; [|by apply div_pow10..].
    injection Ha as Hm. apply div_mod_10; [done|].
    apply digit_inj; [apply Z.mod_pos_bound; lia..|done].
Qed.

(** Two instants of the same second are written differently. *)
Lemma Format_same_second t u :
  t / Second = u / Second -> Format_RFC3339Nano t = Format_RFC3339Nano u -> t = u.
Proof.
  intros Hs H. unfold Format_RFC3339Nano in H. rewrite Hs in H.
  apply (f_equal (str_drop (String.length (upto_second (u / Second))))) in H.
  rewrite !str_drop_app in H. unfold nanos in H.
  assert (forall z, 0 <= z mod Second < 10 ^ Z.of_nat 9) as Hr.
  { intros z. change (10 ^ Z.of_nat 9) with Second. apply Z.mod_pos_bound. reflexivity. }
  apply fmtFrac_inj in H; [|apply Hr..].
  rewrite (Z.div_mod t Second), (Z.div_mod u Second) by done. by rewrite Hs, H.
Qed.

(** The text order is not the order of time: trailing zeros are left out, and [.]
sorts before [Z]. *)
Example text_order_differs :
  let t := 62135596800 * Second in
  t < t + 100000000 /\
  String.compare (Format_RFC3339Nano t) (Format_RFC3339Nano (t + 100000000)) = Gt.
Proof. split; [lia|reflexivity]. Qed.
