(* ===== verification/GoDates.v ===== *)
(** * The order of RFC 3339 texts

Dates and their texts: the text of an instant determines it, and, down to the
second, the order of texts is the order of time.  The DynamoDB store selects
rows by comparing such texts. *)

From S2P Require Import Prelude GoStrings GoRuntime GoTime.

Local Open Scope string_scope.
Local Open Scope list_scope.
Local Open Scope Z_scope.

(** ** The calendar *)

(** Days before the March-based year [n], from the start of year 0. *)
Definition year_start (n : Z) : Z := 365 * n + n / 4 - n / 100 + n / 400.


(** The year of a day within its 400-year cycle. *)
Lemma year_of_era doe :
  0 <= doe < 146097 ->
  let yoe := (doe - doe / 1460 + doe / 36524 - doe / 146096) / 365 in
  0 <= yoe <= 399 /\ year_start yoe <= doe < year_start (yoe + 1).
Proof. intros H. cbv zeta. unfold year_start. split; euclid. Qed.

Lemma year_start_era era yoe : year_start (yoe + era * 400) = era * 146097 + year_start yoe.
Proof. unfold year_start. euclid. Qed.

Lemma year_start_mono a b : a <= b -> year_start a <= year_start b.
Proof. unfold year_start. euclid. Qed.

Lemma year_length n : 365 <= year_start (n + 1) - year_start n <= 366.
Proof. unfold year_start. euclid. Qed.

(** The March-based reading of a date: year, month 0 to 11, day of the year. *)
Record march (days y m d y' mp doy : Z) : Prop := {
  march_days : days = year_start y' + doy - 306;
  march_doy : 0 <= doy < year_start (y' + 1) - year_start y';
  march_mp : mp = (5 * doy + 2) / 153;
  march_d : d = doy - (153 * mp + 2) / 5 + 1;
  march_month : 12 * y + m = 12 * y' + mp + 3;
  march_m : 1 <= m <= 12;
}.

Lemma civil_march days :
  exists y' mp doy, march days (civil days).1.1 (civil days).1.2 (civil days).2 y' mp doy.
Proof.
  unfold civil. pose proof (Z.mod_pos_bound (days + 306) 146097 ltac:(lia)) as Hdoe.
  pose proof (Z.div_mod (days + 306) 146097 ltac:(lia)) as Hdays.
  set (era := (days + 306) / 146097) in *. set (doe := (days + 306) mod 146097) in *.
  pose proof (year_of_era doe Hdoe) as [Hyoe Hys]. cbv zeta in *.
  set (yoe := (doe - doe / 1460 + doe / 36524 - doe / 146096) / 365) in *.
  assert (year_start yoe = 365 * yoe + yoe / 4 - yoe / 100) as Hst.
  { unfold year_start. rewrite (Z.div_small yoe 400) by lia. lia. }
  rewrite <- Hst. set (doy := doe - year_start yoe) in *.
  assert (0 <= doy <= 365) as Hdoy by (pose proof (year_length yoe); lia).
  exists (yoe + era * 400), ((5 * doy + 2) / 153), doy.
  assert (0 <= (5 * doy + 2) / 153 <= 11) as Hmp by (split; euclid).
  cbn [fst snd]. replace (yoe + era * 400 + 1) with (yoe + 1 + era * 400) by lia.
  split; rewrite ?year_start_era; try lia.
  - replace (yoe + era * 400 + 1) with (yoe + 1 + era * 400) by lia.
    rewrite !year_start_era. lia.
  - set (mp := (5 * doy + 2) / 153) in *.
    destruct (Z.ltb_spec mp 10);
      [destruct (Z.leb_spec (mp + 3) 2) | destruct (Z.leb_spec (mp - 9) 2)]; lia.
  - destruct (Z.ltb_spec ((5 * doy + 2) / 153) 10); lia.
Qed.

(** Later days have later dates. *)
Lemma march_lt days y m d y' mp doy days2 y2 m2 d2 y2' mp2 doy2 :
  march days y m d y' mp doy -> march days2 y2 m2 d2 y2' mp2 doy2 -> days < days2 ->
  12 * y + m < 12 * y2 + m2 \/ (12 * y + m = 12 * y2 + m2 /\ d < d2).
Proof.
  intros [-> Hdoy -> -> Hm _] [-> Hdoy2 -> -> Hm2 _] Hlt.
  pose proof (year_length y'). pose proof (year_length y2').
  assert (y' <= y2') as Hy.
  { destruct (Z.le_gt_cases y' y2'); [done|].
    pose proof (year_start_mono (y2' + 1) y' ltac:(lia)). lia. }
  destruct (decide (y' = y2')) as [->|].
  - rewrite Hm, Hm2. assert (doy < doy2) by lia. euclid.
  - left. rewrite Hm, Hm2. euclid.
Qed.

Lemma march_bounds days y m d y' mp doy :
  march days y m d y' mp doy -> 1 <= d <= 31.
Proof. intros [_ Hdoy -> -> _ _]. pose proof (year_length y'). euclid. Qed.

(** The days of the years 1 to 9999. *)
Definition day_range : Z := 3652059.

Lemma civil_year days : 0 <= days < day_range -> 1 <= (civil days).1.1 <= 9999.
Proof.
  unfold day_range. intros H. destruct (civil_march days) as (y' & mp & doy & Hc).
  destruct (civil_march 0) as (y0 & mp0 & doy0 & H0).
  destruct (civil_march 3652058) as (y1 & mp1 & doy1 & H1).
  assert ((civil 0).1.1 = 1 /\ (civil 0).1.2 = 1 /\
          (civil 3652058).1.1 = 9999 /\ (civil 3652058).1.2 = 12) as (E0 & E0' & E1 & E1')
    by (vm_compute; auto).
  pose proof (march_m _ _ _ _ _ _ _ Hc). rewrite E0, E0' in H0. rewrite E1, E1' in H1.
  split.
  - destruct (decide (days = 0)) as [->|]; [lia|].
    pose proof (march_lt _ _ _ _ _ _ _ _ _ _ _ _ _ _ H0 Hc ltac:(lia)). lia.
  - destruct (decide (days = 3652058)) as [->|]; [lia|].
    pose proof (march_lt _ _ _ _ _ _ _ _ _ _ _ _ _ _ Hc H1 ltac:(lia)). lia.
Qed.

(** ** The order of texts

DynamoDB compares strings byte by byte; so does [String.compare]. *)

(** Comparing first by [c], then by [d]. *)
Definition then_compare (c d : comparison) : comparison := 
  match c with Eq => d | Lt => Lt | Gt => Gt end.

Lemma compare_same s x y : String.compare (s +:+ x) (s +:+ y) = String.compare x y.
Proof.
  induction s as [|c s IH]; [done|].
  change (then_compare (Ascii.compare c c) (String.compare (s +:+ x) (s +:+ y)) = String.compare x y).
  unfold Ascii.compare. by rewrite N.compare_refl.
Qed.

Lemma compare_cons c d x y :
  String.compare (String c x) (String d y) =
  then_compare (Ascii.compare c d) (String.compare x y).
Proof. done. Qed.

Lemma digit_compare a b :
  0 <= a < 10 -> 0 <= b < 10 -> Ascii.compare (digit a) (digit b) = (a ?= b).
Proof.
  intros Ha Hb. unfold Ascii.compare, digit, ascii_of_nat.
  rewrite !N_ascii_embedding by lia.
  destruct (Z.compare_spec a b); [apply N.compare_eq_iff|apply N.compare_lt_iff|
    apply N.compare_gt_iff]; lia.
Qed.

Lemma fmtInt_app fuel v a x : fmtInt fuel v a +:+ x = fmtInt fuel v (a +:+ x).
Proof.
  revert v a. induction fuel as [|fuel IH]; intros v a; [done|]. cbn [fmtInt].
  destruct (v / 10 =? 0); [done|]. apply (IH (v / 10) (String _ a)).
Qed.

Lemma pad_app w v a x : pad w v a +:+ x = pad w v (a +:+ x).
Proof.
  revert v a. induction w as [|w IH]; intros v a; cbn [pad].
  - destruct (v =? 0); [done|]. apply fmtInt_app.
  - apply (IH (v / 10) (String _ a)).
Qed.

(** Numbers padded to one width compare as numbers. *)
Lemma pad_compare w v u a b :
  0 <= v < 10 ^ Z.of_nat w -> 0 <= u < 10 ^ Z.of_nat w ->
  String.compare (pad w v a) (pad w u b) = then_compare (v ?= u) (String.compare a b).
Proof.
  revert v u a b. induction w as [|w IH]; intros v u a b Hv Hu.
  - assert (v = 0 /\ u = 0) as [-> ->] by (simpl in *; lia). done.
  - cbn [pad]. rewrite IH by (by apply div_pow10). rewrite compare_cons.
    rewrite digit_compare by (apply Z.mod_pos_bound; lia).
    pose proof (Z.div_mod v 10 ltac:(lia)). pose proof (Z.div_mod u 10 ltac:(lia)).
    pose proof (Z.mod_pos_bound v 10 ltac:(lia)). pose proof (Z.mod_pos_bound u 10 ltac:(lia)).
    destruct (Z.compare_spec (v / 10) (u / 10)), (Z.compare_spec (v mod 10) (u mod 10)),
      (Z.compare_spec v u); cbn [then_compare]; try done; lia.
Qed.

(** The seconds of the years 1 to 9999. *)
Definition sec_in_range (s : Z) : Prop := 0 <= s < day_range * 86400.

(** What the text down to the second compares: dates, then times of day. *)
Lemma upto_second_lt s s' x y :
  sec_in_range s -> sec_in_range s' -> s < s' ->
  String.compare (upto_second s +:+ x) (upto_second s' +:+ y) = Lt.
Proof.
  unfold sec_in_range, day_range. intros Hs Hs' Hlt.
  pose proof (civil_year (s / 86400) ltac:(unfold day_range; split; euclid)) as Hy.
  pose proof (civil_year (s' / 86400) ltac:(unfold day_range; split; euclid)) as Hy'.
  destruct (civil_march (s / 86400)) as (yy & mp & doy & Hc).
  destruct (civil_march (s' / 86400)) as (yy' & mp' & doy' & Hc').
  assert (s / 86400 < s' / 86400 \/
          (s / 86400 = s' / 86400 /\ s mod 86400 < s' mod 86400)) as Hd by euclid.
  pose proof (march_bounds _ _ _ _ _ _ _ Hc). pose proof (march_bounds _ _ _ _ _ _ _ Hc').
  pose proof (march_m _ _ _ _ _ _ _ Hc). pose proof (march_m _ _ _ _ _ _ _ Hc').
  unfold upto_second.
  destruct (civil (s / 86400)) as [[y1 m1] d1] eqn:E1, (civil (s' / 86400)) as [[y2 m2] d2] eqn:E2.
  cbn [fst snd] in *.
  assert (y1 < y2 \/ (y1 = y2 /\ (m1 < m2 \/ (m1 = m2 /\ (d1 < d2 \/
           (d1 = d2 /\ s mod 86400 < s' mod 86400)))))) as Hlex.
  { destruct Hd as [Hd|[Hd Hsec]].
    - pose proof (march_lt _ _ _ _ _ _ _ _ _ _ _ _ _ _ Hc Hc' Hd). lia.
    - rewrite Hd in E1. rewrite E1 in E2. injection E2 as -> -> ->. lia. }
  pose proof (Z.mod_pos_bound s 86400 ltac:(lia)). pose proof (Z.mod_pos_bound s' 86400 ltac:(lia)).
  generalize dependent (s mod 86400). generalize dependent (s' mod 86400).
  intros r' Hr' r _ Hlex Hr. rewrite !str_app_assoc, !pad_app.
  repeat (rewrite pad_compare by (simpl; first [lia | split; euclid]); rewrite ?compare_same).
  assert (r < r' -> r / 3600 < r' / 3600 \/ (r / 3600 = r' / 3600 /\
           (r / 60 mod 60 < r' / 60 mod 60 \/
             (r / 60 mod 60 = r' / 60 mod 60 /\ r mod 60 < r' mod 60)))) as Ht by (intros; euclid).
  unfold then_compare. repeat case Z.compare_spec; intros; try done; lia.
Qed.

Lemma compare_refl s : String.compare s s = Eq.
Proof.
  induction s as [|c s IH]; [done|]. rewrite compare_cons.
  unfold Ascii.compare. by rewrite N.compare_refl, IH.
Qed.

(** Down to the second, texts compare as instants. *)
Lemma upto_second_compare s s' x y :
  sec_in_range s -> sec_in_range s' ->
  String.compare (upto_second s +:+ x) (upto_second s' +:+ y) =
  then_compare (s ?= s') (String.compare x y).
Proof.
  intros Hs Hs'. case Z.compare_spec; intros H; cbn [then_compare].
  - subst. apply compare_same.
  - by apply upto_second_lt.
  - rewrite String.compare_antisym, upto_second_lt by done. done.
Qed.

(** The instants of the years 1 to 9999. *)
Definition in_range (t : time) : Prop := 0 <= t < day_range * 86400 * Second.

#[export] Instance in_range_dec t : base.Decision (in_range t).
Proof. unfold in_range. apply _. Defined.

Lemma in_range_sec t : in_range t -> sec_in_range (t / Second).
Proof. unfold in_range, sec_in_range, Second, day_range. intros. split; euclid. Qed.

(** The text of an instant determines it. *)
Lemma Format_inj t u :
  in_range t -> in_range u -> Format_RFC3339Nano t = Format_RFC3339Nano u -> t = u.
Proof.
  intros Ht Hu H. apply Format_same_second; [|done].
  assert (String.compare (Format_RFC3339Nano t) (Format_RFC3339Nano u) = Eq) as Hc.
  { rewrite H. apply compare_refl. }
  unfold Format_RFC3339Nano in Hc. rewrite upto_second_compare in Hc by by apply in_range_sec.
  revert Hc. by case Z.compare_spec.
Qed.

(** The text order is the order of time between different seconds.  Within one it
is not: see [text_order_differs]. *)
Lemma Format_lt t u :
  in_range t -> in_range u -> t / Second <> u / Second ->
  String.ltb (Format_RFC3339Nano t) (Format_RFC3339Nano u) = (t <? u).
Proof.
  intros Ht Hu Hne. unfold String.ltb, Format_RFC3339Nano.
  rewrite upto_second_compare by by apply in_range_sec.
  case Z.compare_spec; intros H; [done| |]; symmetry; [apply Z.ltb_lt|apply Z.ltb_ge];
    unfold Second in *; euclid.
Qed.

(** ** Reading a text back

What [time.Parse] makes of the texts above; only texts of that form are given to
it here. *)

Definition digit_value (c : ascii) : Z := Z.of_nat (nat_of_ascii c) - 48.

(** The number the first [w] bytes stand for, after [acc], and the rest. *)
Fixpoint read_digits (w : nat) (acc : Z) (s : string) : Z * string :=
  match w, s with
  | S w', String c s' => read_digits w' (10 * acc + digit_value c) s'
  | _, _ => (acc, s)
  end.

(** The fraction: the digits up to the first other byte, [scale] being what the
next one is worth. *)
Fixpoint read_frac (s : string) (scale acc : Z) : Z :=
  match s with
  | String c s' =>
      if (0 <=? digit_value c) && (digit_value c <? 10)
      then read_frac s' (scale / 10) (acc + digit_value c * scale) else acc
  | EmptyString => acc
  end.

(** The day of a date: the inverse of [civil]. *)
Definition day_of (y m d : Z) : Z :=
  let y' := if m <=? 2 then y - 1 else y in
  let mp := if m <=? 2 then m + 9 else m - 3 in
  year_start y' + (153 * mp + 2) / 5 + d - 1 - 306.

Definition Parse_RFC3339Nano (s : string) : time :=
  let (y, s) := read_digits 4 0 s in
  let (m, s) := read_digits 2 0 (str_drop 1 s) in
  let (d, s) := read_digits 2 0 (str_drop 1 s) in
  let (h, s) := read_digits 2 0 (str_drop 1 s) in
  let (mi, s) := read_digits 2 0 (str_drop 1 s) in
  let (sec, s) := read_digits 2 0 (str_drop 1 s) in
  (day_of y m d * 86400 + h * 3600 + mi * 60 + sec) * Second +
  match s with
  | String "." s' => read_frac s' (Second / 10) 0
  | _ => 0
  end.

Lemma day_of_civil days :
  day_of (civil days).1.1 (civil days).1.2 (civil days).2 = days.
Proof.
  destruct (civil_march days) as (y' & mp & doy & [Hd Hdoy Hmp Hdd Hm Hr]).
  pose proof (year_length y'). assert (0 <= mp <= 11) by (subst mp; split; euclid).
  unfold day_of. rewrite Hdd. destruct (Z.leb_spec (civil days).1.2 2).
  - replace ((civil days).1.1 - 1) with y' by lia.
    replace ((civil days).1.2 + 9) with mp by lia. lia.
  - replace ((civil days).1.1) with y' by lia.
    replace ((civil days).1.2 - 3) with mp by lia. lia.
Qed.

Lemma digit_value_digit n : 0 <= n < 10 -> digit_value (digit n) = n.
Proof. intros H. unfold digit_value, digit. rewrite nat_ascii_embedding by lia. lia. Qed.

(** Reading [w] digits and going on with the rest. *)
Lemma read_digits_pad w v a acc n :
  0 <= v < 10 ^ Z.of_nat w ->
  read_digits (w + n) acc (pad w v a) = read_digits n (acc * 10 ^ Z.of_nat w + v) a.
Proof.
  revert v a n. induction w as [|w IH]; intros v a n Hv.
  - assert (v = 0) as -> by (simpl in *; lia). cbn [pad Nat.add]. f_equal. simpl. lia.
  - cbn [pad]. replace (S w + n)%nat with (w + S n)%nat by lia.
    rewrite IH by by apply div_pow10. cbn [read_digits].
    rewrite digit_value_digit by (apply Z.mod_pos_bound; lia). f_equal.
    rewrite Nat2Z.inj_succ, Z.pow_succ_r by lia. pose proof (Z.div_mod v 10 ltac:(lia)). lia.
Qed.

Lemma read_digits_end w v a :
  0 <= v < 10 ^ Z.of_nat w -> read_digits w 0 (pad w v a) = (v, a).
Proof.
  intros Hv. pose proof (read_digits_pad w v a 0 0 Hv) as H. rewrite Nat.add_0_r in H.
  rewrite H. by destruct a.
Qed.

Lemma pow10_S n : 10 ^ Z.of_nat (S n) = 10 * 10 ^ Z.of_nat n.
Proof. rewrite Nat2Z.inj_succ, Z.pow_succ_r by lia. done. Qed.

Lemma read_frac_digit n s scale acc :
  0 <= n < 10 ->
  read_frac (String (digit n) s) scale acc = read_frac s (scale / 10) (acc + n * scale).
Proof.
  intros Hn. cbn [read_frac]. rewrite digit_value_digit by done.
  by rewrite (proj2 (Z.leb_le 0 n)), (proj2 (Z.ltb_lt n 10)) by lia.
Qed.

Lemma read_frac_pad w v a j acc :
  0 <= v < 10 ^ Z.of_nat w ->
  read_frac (pad w v a) (10 ^ Z.of_nat (w + j) / 10) acc =
  read_frac a (10 ^ Z.of_nat j / 10) (acc + v * 10 ^ Z.of_nat j).
Proof.
  revert v a j. induction w as [|w IH]; intros v a j Hv.
  - assert (v = 0) as -> by (simpl in *; lia).
    by rewrite Z.mul_0_l, Z.add_0_r.
  - cbn [pad]. replace (S w + j)%nat with (w + S j)%nat by lia.
    rewrite IH by by apply div_pow10. rewrite read_frac_digit by (apply Z.mod_pos_bound; lia).
    rewrite pow10_S, (Z.mul_comm 10), Z.div_mul by lia. f_equal.
    pose proof (Z.div_mod v 10 ltac:(lia)). lia.
Qed.

Lemma fmtFrac_printing p v acc :
  (fmtFrac p v true acc).1 = String "." (pad p v acc) \/ ~ 0 <= v < 10 ^ Z.of_nat p.
Proof.
  revert v acc. induction p as [|p IH]; intros v acc.
  - destruct (decide (v = 0)) as [->|]; [by left|right; simpl; lia].
  - cbn [fmtFrac orb pad]. destruct (IH (v / 10) (String (digit (v mod 10)) acc)) as [->|Hn];
      [by left|]. right. intros Hv. by apply Hn, div_pow10.
Qed.

(** The fraction is dropped when zero; else trailing zeros are. *)
Lemma fmtFrac_trims p v acc :
  0 <= v < 10 ^ Z.of_nat p ->
  (v = 0 /\ (fmtFrac p v false acc).1 = acc) \/
  exists n k v', (n + k = p)%nat /\ v = v' * 10 ^ Z.of_nat k /\ 0 <= v' < 10 ^ Z.of_nat n /\
    (fmtFrac p v false acc).1 = String "." (pad n v' acc).
Proof.
  revert v. induction p as [|p IH]; intros v Hv.
  { left. split; [simpl in *; lia|done]. }
  cbn [fmtFrac orb]. pose proof (Z.div_mod v 10 ltac:(lia)) as Hdm.
  destruct (v mod 10 =? 0) eqn:H0; to_prop; cbn [negb].
  - destruct (IH (v / 10) ltac:(by apply div_pow10)) as [[Hz ->]|(n & k & v' & Hp & Hv' & Hr & ->)].
    + left. split; [lia|done].
    + right. exists n, (S k), v'. rewrite pow10_S. repeat split; try done; lia.
  - right. exists (S p), 0%nat, v. cbn [pad].
    destruct (fmtFrac_printing p (v / 10) (String (digit (v mod 10)) acc)) as [->|Hn].
    + repeat split; try lia; simpl; lia.
    + destruct Hn. by apply div_pow10.
Qed.

Lemma read_frac_fmtFrac n :
  0 <= n < Second ->
  match (fmtFrac 9 n false "Z").1 with
  | String "." s' => read_frac s' (Second / 10) 0
  | _ => 0
  end = n.
Proof.
  intros Hn. destruct (fmtFrac_trims 9 n "Z" Hn) as [[-> ->]|(w & k & v & Hp & -> & Hv & ->)]; [done|].
  change (Second / 10) with (10 ^ Z.of_nat 9 / 10). rewrite <- Hp.
  rewrite read_frac_pad by done. simpl. lia.
Qed.

(** Texts lose nothing. *)
Lemma Parse_Format t : in_range t -> Parse_RFC3339Nano (Format_RFC3339Nano t) = t.
Proof.
  intros Ht. pose proof (in_range_sec t Ht) as Hs. unfold sec_in_range, day_range in Hs.
  assert (0 <= t mod Second < Second) as Hn by (apply Z.mod_pos_bound; done).
  pose proof (civil_year (t / Second / 86400) ltac:(unfold day_range; split; euclid)) as Hy.
  pose proof (day_of_civil (t / Second / 86400)) as Hday.
  destruct (civil_march (t / Second / 86400)) as (yy & mp & doy & Hc).
  pose proof (march_bounds _ _ _ _ _ _ _ Hc). pose proof (march_m _ _ _ _ _ _ _ Hc).
  unfold Format_RFC3339Nano, upto_second, Parse_RFC3339Nano. clear Hc.
  destruct (civil (t / Second / 86400)) as [[y m] d]. cbn [fst snd] in *.
  set (s := t / Second) in *.
  rewrite !str_app_assoc, !pad_app.
  repeat (rewrite read_digits_end by (simpl; first [lia | split; euclid]);
          try match goal with
              |- context [str_drop 1 (?p +:+ ?x)] => change (str_drop 1 (p +:+ x)) with x
              end).
  rewrite Hday. change ("" +:+ nanos t) with (fmtFrac 9 (t mod Second) false "Z").1.
  rewrite read_frac_fmtFrac by done.
  assert (s / 86400 * 86400 + s mod 86400 / 3600 * 3600 + (s mod 86400 / 60) mod 60 * 60 +
          (s mod 86400) mod 60 = s) as -> by euclid.
  pose proof (Z.div_mod t Second ltac:(done)). lia.
Qed.
