(* ===== verification/Effects.v ===== *)
(** * Effectful programs

Code that calls other components (the store, Kubernetes, Telegram, Keycloak,
the clock) is a value of [prog E A]: a tree whose nodes are calls from the
signature [E] and whose leaves are results.  One definition of a function
therefore has several readings:

- [run], a deterministic execution against a handler, for computing;
- [wp], what holds of every execution against an environment described by a
  [spec] (what a call requires, what it may answer and do to the state);
- [pstep], the interleaving of many goroutines sharing one state. *)

From S2P Require Import Prelude GoStrings GoRuntime.
From stdpp Require Import relations.

(** Why a goroutine stopped without a result. *)
Inductive stop : Type :=
  | Panicked (why : string)
  | OutOfFuel.

Inductive outcome (A : Type) : Type :=
  | Done (a : A)
  | Halted (s : stop).
Arguments Done {A} a.
Arguments Halted {A} s.

Inductive prog (E : Type -> Type) (A : Type) : Type :=
  | Ret (a : A)
  | Halt (s : stop)
  | Vis {X : Type} (e : E X) (k : X -> prog E A).
Arguments Ret {E A} a.
Arguments Halt {E A} s.
Arguments Vis {E A X} e k.

Fixpoint bind {E A B} (p : prog E A) (f : A -> prog E B) : prog E B :=
  match p with
  | Ret a => f a
  | Halt s => Halt s
  | Vis e k => Vis e (fun x => bind (k x) f)
  end.

#[export] Instance prog_ret E : MRet (prog E) := fun A a => Ret a.
#[export] Instance prog_bind E : MBind (prog E) := fun A B f p => bind p f.

(** A single call. *)
Definition call {E X} (e : E X) : prog E X := Vis e Ret.

(** Renaming the signature, to use a component's programs in a larger one. *)
Fixpoint hoist {E F A} (h : forall X, E X -> F X) (p : prog E A) : prog F A :=
  match p with
  | Ret a => Ret a
  | Halt s => Halt s
  | Vis e k => Vis (h _ e) (fun x => hoist h (k x))
  end.

(** Putting a program in the place of every call: the component behind an interface. *)
Fixpoint plug {E F A} (h : forall X, E X -> prog F X) (p : prog E A) : prog F A :=
  match p with
  | Ret a => Ret a
  | Halt s => Halt s
  | Vis e k => bind (h _ e) (fun x => plug h (k x))
  end.

(** Running one program after the other for every element of a slice. *)
Fixpoint for_each {E A} (l : list A) (body : A -> prog E unit) : prog E unit :=
  match l with
  | [] => Ret tt
  | a :: l' => body a ;; for_each l' body
  end.

(** Calls of a signature that is part of a larger one. *)
Class Sub (E F : Type -> Type) : Type := inj : forall X, E X -> F X.
Arguments inj {E F _} X e.

#[export] Instance Sub_refl E : Sub E E := fun X e => e.

Definition trigger {E F X} `{!Sub E F} (e : E X) : prog F X := call (inj X e).

(** ** The clock and the log

[time.Now()] and the methods of [*slog.Logger]; of a log line the model keeps
the level and the message, not the structured attributes. *)

Inductive level : Type := LInfo | LWarn | LError.

#[export] Instance level_eq_dec : EqDecision level.
Proof. solve_decision. Defined.

Inductive rtE : Type -> Type :=
  | TimeNow : rtE Z
  | LogLine (l : level) (msg : string) : rtE unit.

(** [context.WithTimeout(ctx, d)] *)
Definition WithTimeout {E} `{!Sub rtE E} (ctx : Context) (d : Z) : prog E Context :=
  now ← trigger TimeNow;
  mret (WithDeadline ctx (time_Add now d)).

(** ** Deterministic execution *)

Fixpoint run {E W A} (h : forall X, E X -> W -> X * W) (p : prog E A) (w : W) :
    outcome A * W :=
  match p with
  | Ret a => (Done a, w)
  | Halt s => (Halted s, w)
  | Vis e k => let (x, w') := h _ e w in run h (k x) w'
  end.

(** ** Environments and weakest preconditions *)

Record spec (E : Type -> Type) (S : Type) : Type := Spec {
  spec_pre : forall X, E X -> S -> Prop;
  spec_post : forall X, E X -> S -> X -> S -> Prop;
}.
Arguments Spec {E S} spec_pre spec_post.
Arguments spec_pre {E S} s {X} e _.
Arguments spec_post {E S} s {X} e _ _ _.

Fixpoint wp {E S A} (sp : spec E S) (p : prog E A) (Q : outcome A -> S -> Prop) (s : S) :
    Prop :=
  match p with
  | Ret a => Q (Done a) s
  | Halt st => Q (Halted st) s
  | Vis e k => spec_pre sp e s /\
      forall x s', spec_post sp e s x s' -> wp sp (k x) Q s'
  end.

(** A postcondition on results only: no way to stop without one. *)
Definition returning {A S} (Q : A -> S -> Prop) (o : outcome A) (s : S) : Prop :=
  match o with Done a => Q a s | Halted _ => False end.

(** An environment that can always answer. *)
Definition answers {E S} (sp : spec E S) : Prop :=
  forall X (e : E X) s, spec_pre sp e s -> exists x s', spec_post sp e s x s'.

(** A handler that behaves as an environment says. *)
Definition implements {E S} (h : forall X, E X -> S -> X * S) (sp : spec E S) : Prop :=
  forall X (e : E X) s, spec_pre sp e s ->
    spec_post sp e s (h X e s).1 (h X e s).2.

(** ** Goroutines

A pool is a list of goroutines and the state they share.  A step runs the next
call of one goroutine, starts a goroutine the call asks for, lets a new
goroutine in from outside (an HTTP request, a tick), or kills one (a crash). *)

Section Pool.
Context {E : Type -> Type} {S : Type}.
Variable sp : spec E S.
Variable spawned : forall X, E X -> list (prog E unit).
Variable entry : prog E unit -> Prop.
Variable crashes : Prop.

Inductive pstep : list (prog E unit) * S -> list (prog E unit) * S -> Prop :=
  | pstep_call pre post X (e : E X) k s x s' :
      spec_post sp e s x s' ->
      pstep (pre ++ Vis e k :: post, s) (pre ++ k x :: post ++ spawned X e, s')
  | pstep_enter p ts s :
      entry p -> pstep (ts, s) (ts ++ [p], s)
  | pstep_kill pre p post s :
      crashes -> pstep (pre ++ p :: post, s) (pre ++ post, s).

(** A deterministic interleaving: at each step the goroutine picked runs its next
call against a handler. *)
Fixpoint sched (h : forall X, E X -> S -> X * S) (picks : list nat) (ts : list (prog E unit))
    (s : S) : list (prog E unit) * S :=
  match picks with
  | [] => (ts, s)
  | i :: picks' =>
      match ts !! i with
      | Some (Vis e k) =>
          let (x, s') := h _ e s in
          sched h picks' (take i ts ++ k x :: drop (1 + i) ts ++ spawned _ e) s'
      | _ => sched h picks' ts s
      end
  end.

(** Every state a schedule passes through satisfies [check]. *)
Fixpoint sched_checks (h : forall X, E X -> S -> X * S) (check : S -> bool) (picks : list nat)
    (ts : list (prog E unit)) (s : S) : bool :=
  match picks with
  | [] => true
  | i :: picks' =>
      match ts !! i with
      | Some (Vis e k) =>
          let (x, s') := h _ e s in
          check s' &&
          sched_checks h check picks' (take i ts ++ k x :: drop (1 + i) ts ++ spawned _ e) s'
      | _ => sched_checks h check picks' ts s
      end
  end.

Lemma sched_psteps_checked h check (P : S -> Prop) picks ts s :
  (forall X (e : E X) s, P s -> check (h X e s).2 = true ->
     spec_post sp e s (h X e s).1 (h X e s).2 /\ P (h X e s).2) ->
  P s -> sched_checks h check picks ts s = true -> rtc pstep (ts, s) (sched h picks ts s).
Proof.
  intros Hh. revert ts s. induction picks as [|i picks IH]; intros ts s HP; simpl; [done|].
  destruct (ts !! i) as [p|] eqn:Hi; [|by apply IH].
  destruct p as [a|st|X e k]; [by apply IH..|].
  specialize (Hh X e s HP). destruct (h X e s) as [x s'] eqn:Hx. simpl in *.
  intros [Hc Hall]%andb_true_iff. destruct (Hh Hc) as [Hpost HP'].
  eapply rtc_l; [|by apply IH]. rewrite <- (take_drop_middle ts i _ Hi) at 1.
  by apply pstep_call.
Qed.

(** A handler that answers as described in every state of [P] needs no check. *)
Lemma sched_psteps h (P : S -> Prop) picks ts s :
  (forall X (e : E X) s, P s -> spec_post sp e s (h X e s).1 (h X e s).2 /\ P (h X e s).2) ->
  P s -> rtc pstep (ts, s) (sched h picks ts s).
Proof.
  intros Hh HP. apply (sched_psteps_checked h (fun _ => true) P); [by auto|done|].
  clear. revert ts s. induction picks as [|i picks IH]; intros ts s; simpl; [done|].
  destruct (ts !! i) as [[a|st|X e k]|]; [done..| |done]. by destruct (h X e s).
Qed.

End Pool.

(** ** Laws *)

Lemma run_bind {E W A B} (h : forall X, E X -> W -> X * W) (p : prog E A)
    (f : A -> prog E B) w :
  run h (bind p f) w =
  match run h p w with
  | (Done a, w') => run h (f a) w'
  | (Halted s, w') => (Halted s, w')
  end.
Proof.
  revert w. induction p as [a|s|X e k IH]; intros w; simpl; try done.
  destruct (h X e w) as [x w']. apply IH.
Qed.

Lemma wp_mono {E S A} (sp : spec E S) (p : prog E A) (Q R : outcome A -> S -> Prop) s :
  (forall o s, Q o s -> R o s) -> wp sp p Q s -> wp sp p R s.
Proof.
  intros HQR. revert s. induction p as [a|st|X e k IH]; intros s; simpl; auto.
  intros [Hpre Hk]. split; [done|]. intros x s' Hpost. apply IH. by apply Hk.
Qed.

Lemma wp_bind {E S A B} (sp : spec E S) (p : prog E A) (f : A -> prog E B) Q s :
  wp sp (bind p f) Q s <->
  wp sp p (fun o s' => match o with
                       | Done a => wp sp (f a) Q s'
                       | Halted st => Q (Halted st) s'
                       end) s.
Proof.
  revert s. induction p as [a|st|X e k IH]; intros s; simpl; try done.
  split; intros [Hpre Hk]; (split; [done|]); intros x s' Hpost.
  - apply IH. by apply Hk.
  - apply IH. by apply Hk.
Qed.

(** The sequencing rule used in proofs: a postcondition for the first program
that implies what the second needs. *)
Lemma wp_seq {E S A B} (sp : spec E S) (p : prog E A) (f : A -> prog E B)
    (R : A -> S -> Prop) Q s :
  wp sp p (returning R) s ->
  (forall a s', R a s' -> wp sp (f a) Q s') ->
  wp sp (bind p f) Q s.
Proof.
  intros Hp Hf. apply wp_bind. revert Hp. apply wp_mono.
  intros [a|st] s' HR; [by apply Hf|done].
Qed.

Lemma wp_conj {E S A} (sp : spec E S) (p : prog E A) (Q R : outcome A -> S -> Prop) s :
  wp sp p Q s -> wp sp p R s -> wp sp p (fun o s => Q o s /\ R o s) s.
Proof.
  revert s. induction p as [a|st|X e k IH]; intros s; simpl; [by split..|].
  intros [Hpre Hk] [_ Hk']. split; [done|]. intros x s' Hpost. apply IH; auto.
Qed.

(** An invariant kept by every step of a loop body is kept by the loop. *)
Lemma wp_for_each {E S A} (sp : spec E S) (body : A -> prog E unit) (I : list A -> S -> Prop)
    l s :
  (forall a l' s, I (a :: l') s -> wp sp (body a) (returning (fun _ => I l')) s) ->
  I l s -> wp sp (for_each l body) (returning (fun _ => I [])) s.
Proof.
  intros Hbody. revert s. induction l as [|a l IH]; intros s HI; simpl; [done|].
  eapply (wp_seq _ _ _ (fun _ => I l)).
  - by apply Hbody.
  - intros [] s' HI'. by apply IH.
Qed.

(** What [wp] proves holds of every run against a conforming handler. *)
Lemma wp_run {E S A} (sp : spec E S) (h : forall X, E X -> S -> X * S) (p : prog E A)
    (Q : outcome A -> S -> Prop) s :
  implements h sp -> wp sp p Q s -> Q (run h p s).1 (run h p s).2.
Proof.
  intros Hh. revert s. induction p as [a|st|X e k IH]; intros s; simpl; try done.
  intros [Hpre Hk]. pose proof (Hh X e s Hpre) as Hpost.
  destruct (h X e s) as [x s'] eqn:Hx. simpl in Hpost. apply IH. by apply Hk.
Qed.

Lemma wp_hoist {E F S A} (h : forall X, E X -> F X) (sp : spec F S) (p : prog E A) Q s :
  wp sp (hoist h p) Q s <->
  wp (Spec (fun X e => spec_pre sp (h X e)) (fun X e => spec_post sp (h X e))) p Q s.
Proof.
  revert s. induction p as [a|st|X e k IH]; intros s; simpl; try done.
  split; intros [Hpre Hk]; (split; [done|]); intros x s' Hpost; apply IH; by apply Hk.
Qed.

(** Carrying a proof over to a larger system: [R] relates the states, and what the
larger system does at a call is something the smaller one may do. *)
Lemma wp_simulate {E F S T A} (h : forall X, E X -> F X) (sp : spec E S) (sp' : spec F T)
    (R : S -> T -> Prop) (p : prog E A) (Q : outcome A -> S -> Prop)
    (Q' : outcome A -> T -> Prop) s t :
  (forall X (e : E X) s t, R s t -> spec_pre sp e s ->
     spec_pre sp' (h X e) t /\
     forall x t', spec_post sp' (h X e) t x t' -> exists s', spec_post sp e s x s' /\ R s' t') ->
  (forall o s t, R s t -> Q o s -> Q' o t) ->
  R s t -> wp sp p Q s -> wp sp' (hoist h p) Q' t.
Proof.
  intros Hstep Hend. revert s t. induction p as [a|st|X e k IH]; intros s t HR; simpl; eauto.
  intros [Hpre Hk]. destruct (Hstep X e s t HR Hpre) as [Hpre' Hpost]. split; [done|].
  intros x t' Ht. destruct (Hpost x t' Ht) as (s' & Hs & HR'). eapply IH; eauto.
Qed.

(** Plugging in programs that keep the promises of the calls they stand for. *)
Lemma wp_plug {E F S T A} (h : forall X, E X -> prog F X) (sp : spec E S) (sp' : spec F T)
    (R : S -> T -> Prop) (p : prog E A) Q s t :
  (forall X (e : E X) s t, R s t -> spec_pre sp e s ->
     wp sp' (h X e) (returning (fun x t' => exists s', spec_post sp e s x s' /\ R s' t')) t) ->
  R s t -> wp sp p Q s -> wp sp' (plug h p) (fun o t' => exists s', Q o s' /\ R s' t') t.
Proof.
  intros Hh. revert s t. induction p as [a|st|X e k IH]; intros s t HR; simpl; [by exists s..|].
  intros [Hpre Hk]. eapply wp_seq; [by eapply Hh|]. intros x t' (s' & Hpost & HR').
  by eapply IH; [|apply Hk].
Qed.

(** The same when the programs plugged in may stop short, and all that matters is what
is called. *)
Lemma wp_plug_calls {E F S T A} (h : forall X, E X -> prog F X) (sp : spec E S) (sp' : spec F T)
    (R : S -> T -> Prop) (p : prog E A) Q s t :
  (forall X (e : E X) s t, R s t -> spec_pre sp e s ->
     wp sp' (h X e) (fun o t' =>
       if o is Done x then exists s', spec_post sp e s x s' /\ R s' t' else True) t) ->
  R s t -> wp sp p Q s -> wp sp' (plug h p) (fun _ _ => True) t.
Proof.
  intros Hh. revert s t. induction p as [a|st|X e k IH]; intros s t HR; simpl; [done..|].
  intros [Hpre Hk]. apply wp_bind. eapply wp_mono; [|by eapply Hh].
  intros [x|st] t'; [|done]. intros (s' & Hpost & HR'). by eapply IH; [|apply Hk].
Qed.

(** A weaker environment description is enough. *)
Lemma wp_weaken {E S A} (sp sp' : spec E S) (p : prog E A) Q s :
  (forall X (e : E X) s, spec_pre sp e s -> spec_pre sp' e s) ->
  (forall X (e : E X) s x s', spec_post sp' e s x s' -> spec_post sp e s x s') ->
  wp sp p Q s -> wp sp' p Q s.
Proof.
  intros Hpre Hpost. revert s. induction p as [a|st|X e k IH]; intros s; simpl; try done.
  intros [He Hk]. split; [by apply Hpre|]. intros x s' Hx. apply IH, Hk. by apply Hpost.
Qed.

(** A goroutine that has nothing left to do. *)
Definition finished {E} (p : prog E unit) : Prop :=
  match p with Vis _ _ => False | _ => True end.

(** ** Invariants of a pool

To prove an invariant of all interleavings it is enough that every program
let in or started follows a per-goroutine protocol (a ghost state and a [wp])
whose steps keep the invariant. *)

Section PoolInvariant.
Context {E : Type -> Type} {S : Type}.
Variable sp : spec E S.
Variable spawned : forall X, E X -> list (prog E unit).
Variable entry : prog E unit -> Prop.
Variable crashes : Prop.
Variable G : Type.
(** The goroutine protocol: allowed calls and their effect on the ghost. *)
Variable proto : spec E G.
(** What holds of the ghost when a goroutine ends. *)
Variable fin : outcome unit -> G -> Prop.
(** The invariant, over the ghosts of all goroutines. *)
Variable I : list G -> S -> Prop.
(** The ghosts of a goroutine let in from outside and of those a call starts. *)
Variable g0 : G.
Variable gspawn : forall X, E X -> list G.

Hypothesis entry_ok : forall p, entry p -> wp proto p fin g0.
Hypothesis spawned_ok : forall X (e : E X) g,
  spec_pre proto e g -> Forall2 (fun p g' => wp proto p fin g') (spawned X e) (gspawn X e).
Hypothesis I_call : forall pre g post X (e : E X) s x s',
  I (pre ++ g :: post) s -> spec_pre proto e g -> spec_post sp e s x s' ->
  exists g', spec_post proto e g x g' /\ I (pre ++ g' :: post ++ gspawn X e) s'.
Hypothesis I_enter : forall gs s, I gs s -> I (gs ++ [g0]) s.
Hypothesis I_kill : forall pre g post s, crashes -> I (pre ++ g :: post) s -> I (pre ++ post) s.

Definition pool_inv (c : list (prog E unit) * S) : Prop :=
  exists gs, Forall2 (fun p g => wp proto p fin g) c.1 gs /\ I gs c.2.

Lemma pool_inv_step c c' : pstep sp spawned entry crashes c c' -> pool_inv c -> pool_inv c'.
Proof.
  intros Hstep (gs & Hts & HI). destruct Hstep as [pre post X e k s x s' Hpost|p ts s Hp|pre p post s Hc];
    simpl in *.
  - apply Forall2_app_inv_l in Hts as (gpre & grest & Hpre & Hrest & ->).
    apply Forall2_cons_inv_l in Hrest as (g & gpost & [Hg Hk] & Hpost' & ->).
    destruct (I_call _ _ _ _ _ _ _ _ HI Hg Hpost) as (g' & Hg' & HI').
    exists (gpre ++ g' :: gpost ++ gspawn X e). split; [|done].
    apply Forall2_app; [done|]. constructor; [by apply Hk|]. apply Forall2_app; [done|].
    by eapply spawned_ok.
  - exists (gs ++ [g0]). split; [|by apply I_enter].
    apply Forall2_app; [done|]. constructor; [by apply entry_ok|done].
  - apply Forall2_app_inv_l in Hts as (gpre & grest & Hpre & Hrest & ->).
    apply Forall2_cons_inv_l in Hrest as (g & gpost & _ & Hpost & ->).
    exists (gpre ++ gpost). split; [by apply Forall2_app|]. by eapply I_kill.
Qed.

Lemma pool_inv_steps c c' :
  rtc (pstep sp spawned entry crashes) c c' -> pool_inv c -> pool_inv c'.
Proof. induction 1 as [|c1 c2 c3 H12 _ IH]; eauto using pool_inv_step. Qed.

(** Every reachable state of an empty pool satisfies the invariant. *)
Lemma pool_reachable_spawn s0 ts s :
  I [] s0 -> rtc (pstep sp spawned entry crashes) ([], s0) (ts, s) ->
  exists gs, Forall2 (fun p g => wp proto p fin g) ts gs /\ I gs s.
Proof.
  intros HI Hsteps. apply pool_inv_steps in Hsteps; [done|]. by exists [].
Qed.

End PoolInvariant.

(** The case in which every goroutine starts with the same ghost, which the
invariant admits at any time. *)
Section PoolInvariantUniform.
Context {E : Type -> Type} {S : Type}.
Variable sp : spec E S.
Variable spawned : forall X, E X -> list (prog E unit).
Variable entry : prog E unit -> Prop.
Variable crashes : Prop.
Variable G : Type.
Variable proto : spec E G.
Variable fin : outcome unit -> G -> Prop.
Variable I : list G -> S -> Prop.
Variable g0 : G.

Hypothesis entry_ok : forall p, entry p -> wp proto p fin g0.
Hypothesis spawned_ok : forall X (e : E X) g p,
  spec_pre proto e g -> p ∈ spawned X e -> wp proto p fin g0.
Hypothesis I_call : forall pre g post X (e : E X) s x s',
  I (pre ++ g :: post) s -> spec_pre proto e g -> spec_post sp e s x s' ->
  exists g', spec_post proto e g x g' /\ I (pre ++ g' :: post) s'.
Hypothesis I_enter : forall gs s, I gs s -> I (gs ++ [g0]) s.
Hypothesis I_kill : forall pre g post s, crashes -> I (pre ++ g :: post) s -> I (pre ++ post) s.

Lemma I_enters n gs s : I gs s -> I (gs ++ replicate n g0) s.
Proof.
  induction n as [|n IH] in gs |- *; intros HI; simpl; [by rewrite app_nil_r|].
  replace (gs ++ g0 :: replicate n g0) with ((gs ++ [g0]) ++ replicate n g0)
    by (by rewrite <- app_assoc).
  by apply IH, I_enter.
Qed.

Lemma pool_reachable s0 ts s :
  I [] s0 -> rtc (pstep sp spawned entry crashes) ([], s0) (ts, s) ->
  exists gs, Forall2 (fun p g => wp proto p fin g) ts gs /\ I gs s.
Proof.
  apply (pool_reachable_spawn sp spawned entry crashes G proto fin I g0
           (fun X e => replicate (length (spawned X e)) g0)); try done.
  - intros X e g Hpre. apply Forall2_same_length_lookup_2; [by rewrite length_replicate|].
    intros i q g1 Hq Hg1. apply lookup_replicate in Hg1 as [-> _].
    eapply spawned_ok; [done|]. by eapply list_elem_of_lookup_2.
  - intros pre g post X e s1 x s1' HI Hpre Hpost.
    destruct (I_call _ _ _ _ _ _ _ _ HI Hpre Hpost) as (g' & Hg' & HI'). exists g'. split; [done|].
    rewrite app_comm_cons, app_assoc. by apply I_enters.
Qed.

End PoolInvariantUniform.

(** ** Programs that differ in what a view hides

[alike h p q]: [p] and [q] make the same calls up to [h], which erases part of
what a call carries, and return the same results.  Whoever sees calls through
[h] only cannot tell them apart. *)

Inductive alike {E A} (h : forall X, E X -> E X) : prog E A -> prog E A -> Prop :=
  | alike_ret a : alike h (Ret a) (Ret a)
  | alike_halt s : alike h (Halt s) (Halt s)
  | alike_vis X (e e' : E X) k k' :
      h X e = h X e' -> (forall x, alike h (k x) (k' x)) -> alike h (Vis e k) (Vis e' k').

Lemma alike_refl {E A} h (p : prog E A) : alike h p p.
Proof. induction p; by constructor. Qed.

Lemma alike_bind {E A B} h (p p' : prog E A) (f f' : A -> prog E B) :
  alike h p p' -> (forall a, alike h (f a) (f' a)) -> alike h (bind p f) (bind p' f').
Proof. intros Hp Hf. induction Hp as [a|s|X e e' k k' He Hk IH]; simpl; [auto|..]; by constructor. Qed.
