(* ===== verification/Authz.v ===== *)
(** * Authorization questions, the file policy, ref patterns and the shadow

[internal/authz]: the request and decision types, the static YAML policy
([Policy]), the matching of git refs against allowed patterns ([Ref]) and the
authorizer that runs two others side by side ([Shadow]). *)

From S2P Require Import Prelude GoStrings GoRuntime Effects.

Local Open Scope string_scope.
Local Open Scope list_scope.
Local Open Scope Z_scope.

Record Request : Type := {
  Req_Repository : string;
  Req_Action : string;
  Req_Namespace : string;
  Req_Deployment : string;
  Req_Ref : string;
}.

Record Decision : Type := { Allowed : bool; Reason : string }.

#[export] Instance Decision_eq_dec : EqDecision Decision.
Proof. solve_decision. Defined.

(** The [Authorizer] interface: an error is "no decision", not a denial. *)
Class Authorizer (E : Type -> Type) : Type :=
  Authorize : Context -> Request -> prog E (Decision * option error).

(** ** The static policy *)

Module Policy.

Record Permission : Type := {
  Action : string;
  Namespaces : list string;
  Deployments : list string;
}.

Record RepositoryEntry : Type := {
  Repository : string;
  Permissions : list Permission;
}.

Record t : Type := {
  Version : Z;
  Repositories : list RepositoryEntry;
}.

(** [os.ReadFile] is the operating system's and [yaml.Unmarshal] a third-party
package: both are parameters. *)
Definition LoadPolicy (ReadFile : string -> result error string)
    (Unmarshal : string -> result error t) (path : string) : result error t :=
  match ReadFile path with
  | Err err => Err (ErrWrap "read policy: " err "")
  | Ok raw =>
      match Unmarshal raw with
      | Err err => Err (ErrWrap "parse policy: " err "")
      | Ok p =>
          if Version p =? 1 then Ok p
          else Err (ErrText ("unsupported policy version " +:+ pretty.pretty (Version p)))
      end
  end.

Fixpoint matchList (l : list string) (value : string) : bool :=
  match l with
  | [] => false
  | v :: l' => if bool_decide (v = "*") || bool_decide (v = value) then true
               else matchList l' value
  end.

(** The inner loop, over the permissions of one entry. *)
Fixpoint authorize_perms (perms : list Permission) (action namespace deployment : string) :
    bool :=
  match perms with
  | [] => false
  | perm :: perms' =>
      if bool_decide (Action perm = action) && matchList (Namespaces perm) namespace &&
         matchList (Deployments perm) deployment
      then true else authorize_perms perms' action namespace deployment
  end.

(** The outer loop, over the entries. *)
Fixpoint authorize_entries (entries : list RepositoryEntry)
    (repo action namespace deployment : string) : bool :=
  match entries with
  | [] => false
  | entry :: entries' =>
      if decide (Repository entry ≠ repo) then
        authorize_entries entries' repo action namespace deployment
      else if authorize_perms (Permissions entry) action namespace deployment then true
      else authorize_entries entries' repo action namespace deployment
  end.

Definition Authorize (p : t) (repo action namespace deployment : string) : bool :=
  authorize_entries (Repositories p) repo action namespace deployment.

(** [FileAuthorizer.Authorize] *)
Definition FileAuthorize (p : t) (req : Request) : Decision * option error :=
  if Authorize p (Req_Repository req) (Req_Action req) (Req_Namespace req) (Req_Deployment req)
  then ({| Allowed := true; Reason := "" |}, None)
  else ({| Allowed := false;
           Reason := "policy does not allow " +:+ Req_Action req +:+ " on " +:+
                     Req_Namespace req +:+ "/" +:+ Req_Deployment req |}, None).

Definition FileAuthorizer {E} (p : t) : Authorizer E :=
  fun _ req => Ret (FileAuthorize p req).

(** [NewFileAuthorizer] *)
Definition NewFileAuthorizer {E} (ReadFile : string -> result error string)
    (Unmarshal : string -> result error t) (path : string) : result error (Authorizer E) :=
  match LoadPolicy ReadFile Unmarshal path with
  | Err err => Err err
  | Ok p => Ok (FileAuthorizer p)
  end.

(** What a policy grants, stated without loops. *)
Definition list_allows (l : list string) (value : string) : Prop :=
  "*" ∈ l \/ value ∈ l.

Definition grants (p : t) (repo action namespace deployment : string) : Prop :=
  exists entry perm,
    entry ∈ Repositories p /\ Repository entry = repo /\
    perm ∈ Permissions entry /\ Action perm = action /\
    list_allows (Namespaces perm) namespace /\ list_allows (Deployments perm) deployment.

Lemma matchList_true l v : matchList l v = true <-> list_allows l v.
Proof.
  unfold list_allows. induction l as [|x l IH]; simpl; [set_solver|].
  destruct (bool_decide (x = "*")) eqn:H1; [to_prop; set_solver|].
  destruct (bool_decide (x = v)) eqn:H2; to_prop; simpl; [set_solver|].
  rewrite IH. set_solver.
Qed.

Lemma authorize_perms_true perms a n d :
  authorize_perms perms a n d = true <->
  exists perm, perm ∈ perms /\ Action perm = a /\
    list_allows (Namespaces perm) n /\ list_allows (Deployments perm) d.
Proof.
  induction perms as [|perm perms IH]; simpl; [set_solver|].
  destruct (_ && _ && _) eqn:H.
  - split; [|done]. intros _. to_prop. exists perm.
    rewrite <- !matchList_true. set_solver.
  - rewrite IH. split; [set_solver|].
    intros (q & [->|Hq]%elem_of_cons & Ha & Hn & Hd); [|by exists q].
    rewrite <- matchList_true in Hn, Hd.
    rewrite Hn, Hd, bool_decide_eq_true_2 in H by done. done.
Qed.

(** C20: the nested loops of [Policy.Authorize] decide exactly [grants]. *)
Theorem Authorize_grants p repo a n d :
  Authorize p repo a n d = true <-> grants p repo a n d.
Proof.
  unfold Authorize, grants. destruct p as [v entries]. simpl. clear v.
  induction entries as [|e entries IH]; simpl; [set_solver|].
  case_decide as Hr.
  - rewrite IH. set_solver.
  - destruct (authorize_perms (Permissions e) a n d) eqn:Hp.
    + split; [|done]. intros _. apply authorize_perms_true in Hp as (perm & ?).
      exists e, perm. split; [set_solver|]. split; [|naive_solver]. by destruct (decide (Repository e = repo)).
    + rewrite IH. split; [set_solver|].
      intros (e' & perm & [->|He]%elem_of_cons & Hrest); [|by exists e', perm].
      assert (authorize_perms (Permissions e) a n d = true) as Hp'; [|congruence].
      apply authorize_perms_true. exists perm. naive_solver.
Qed.

End Policy.

(** ** Ref patterns *)

Module Ref.

Definition ErrMalformedRefConstraint : error :=
  ErrVar "authz.ErrMalformedRefConstraint" "malformed ref constraint".

(** The byte ['*']. *)
Definition star : ascii := "*"%char.

(** The first loop: every pattern is validated before any is matched. *)
Fixpoint validate (allowed : list string) : option error :=
  match allowed with
  | [] => None
  | p :: ps =>
      if decide (p = "*") then validate ps
      else if decide (p = "") then Some ErrMalformedRefConstraint
      else let i := IndexByte p star in
           if (0 <=? i) && negb (i =? Z.of_nat (String.length p) - 1)
           then Some ErrMalformedRefConstraint
           else validate ps
  end.

(** The second loop. *)
Fixpoint match_any (allowed : list string) (ref : string) : bool :=
  match allowed with
  | [] => false
  | p :: ps =>
      if decide (p = "*") then true
      else if HasSuffix p "*" then
        if HasPrefix ref (TrimSuffix p "*") then true else match_any ps ref
      else if decide (p = ref) then true
      else match_any ps ref
  end.

Definition MatchRef (allowed : list string) (ref : string) : bool * option error :=
  if decide (length allowed = 0%nat) then (true, None)
  else match validate allowed with
       | Some err => (false, Some err)
       | None => if decide (ref = "") then (false, None)
                 else (match_any allowed ref, None)
       end.

(** The pattern language of the doc comment: a pattern is literal text, possibly
followed by one trailing ['*']. *)
Definition well_formed (p : string) : Prop :=
  p <> "" /\ exists lit, str_in star lit = false /\ (p = lit \/ p = lit +:+ "*").

Definition matches (ref p : string) : Prop :=
  p = ref \/ exists lit rest, p = lit +:+ "*" /\ ref = lit +:+ rest.

Lemma validate_step p :
  p ≠ "*" -> p ≠ "" ->
  ((0 <=? IndexByte p star) && negb (IndexByte p star =? Z.of_nat (String.length p) - 1)
   = false) <-> well_formed p.
Proof.
  intros Hstar Hne. rewrite andb_false_iff, negb_false_iff, Z.eqb_eq, IndexByte_last.
  unfold well_formed. split.
  - intros [Hneg|[?|(a & -> & Ha)]]; [|done|].
    + split; [done|]. exists p. split; [|by left].
      destruct (str_in star p) eqn:Hin; [|done]. apply IndexByte_nonneg in Hin. to_prop. lia.
    + split; [done|]. exists a. split; [done|]. by right.
  - intros [_ (lit & Hlit & [-> | ->])].
    + left. apply Z.leb_gt. destruct (Z.leb_spec 0 (IndexByte lit star)) as [H|H]; [|lia].
      apply IndexByte_nonneg in H. congruence.
    + right. right. exists lit. done.
Qed.

Lemma well_formed_star : well_formed "*".
Proof. split; [done|]. exists "". split; [done|]. by right. Qed.

Lemma validate_None allowed : validate allowed = None <-> Forall well_formed allowed.
Proof.
  induction allowed as [|p ps IH]; simpl; [done|].
  rewrite Forall_cons. case_decide as Hs; [subst p|case_decide as He].
  - rewrite IH. split; [|naive_solver]. intros. split; [apply well_formed_star|done].
  - split; [done|]. intros [[? _] _]. done.
  - rewrite <- validate_step by done.
    destruct (_ && _) eqn:Hv; [split; [done|naive_solver]|]. rewrite IH. naive_solver.
Qed.

Lemma validate_Some allowed e : validate allowed = Some e -> e = ErrMalformedRefConstraint.
Proof.
  induction allowed as [|p ps IH]; simpl; [done|]. intros H.
  repeat (case_decide; [naive_solver|]). case_match; naive_solver.
Qed.

Lemma match_any_true allowed ref :
  match_any allowed ref = true <-> Exists (matches ref) allowed.
Proof.
  induction allowed as [|p ps IH]; simpl; [by rewrite Exists_nil|].
  rewrite Exists_cons. case_decide as Hs; [|destruct (HasSuffix p "*") eqn:Hsuf].
  - subst p. split; [|done]. intros _. left. right. by exists "", ref.
  - apply HasSuffix_true in Hsuf as [a ->]. rewrite TrimSuffix_app.
    destruct (HasPrefix ref a) eqn:Hpre.
    + apply HasPrefix_true in Hpre as [r ->]. split; [|done]. intros _. left. right.
      by exists a, r.
    + rewrite IH. split; [by right|]. intros [Hm|Hm]; [|done]. exfalso.
      assert (HasPrefix ref a = true) as H; [|congruence]. apply HasPrefix_true.
      destruct Hm as [Hpr|(lit & rest & Heq & ->)]; [subst ref; by eexists|].
      apply str_app_inj_r in Heq as ->. by eexists.
  - case_decide as Heq; [split; [|done]; intros _; left; by left|].
    rewrite IH. split; [by right|]. intros [[Hm|(lit & rest & -> & _)]|Hm]; try done.
    by rewrite HasSuffix_app in Hsuf.
Qed.

(** C21: [MatchRef] decides the documented pattern language.  An empty list is
unrestricted; a malformed pattern is an error wherever it stands in the list,
so that an earlier match cannot mask it; a request without a ref is refused by
every non-empty list, ["*"] included; otherwise one pattern must match. *)
Theorem MatchRef_spec allowed ref :
  (MatchRef allowed ref = (true, None) <->
     allowed = [] \/
     (Forall well_formed allowed /\ ref <> "" /\ Exists (matches ref) allowed)) /\
  (MatchRef allowed ref = (false, Some ErrMalformedRefConstraint) <->
     allowed <> [] /\ ~ Forall well_formed allowed) /\
  (MatchRef allowed ref = (false, None) <->
     allowed <> [] /\ Forall well_formed allowed /\
     (ref = "" \/ ~ Exists (matches ref) allowed)).
Proof.
  unfold MatchRef. rewrite <- match_any_true, <- validate_None.
  case_decide as Hl; [apply nil_length_inv in Hl as ->; simpl; naive_solver|].
  assert (allowed <> []) by (by destruct allowed).
  destruct (validate allowed) as [e|] eqn:Hv.
  - apply validate_Some in Hv as ->. naive_solver.
  - case_decide; [naive_solver|]. destruct (match_any allowed ref); naive_solver.
Qed.

End Ref.

(** ** The shadow authorizer *)

Module Shadow.

Definition shadowTimeout : Z := 3 * Second.

(** The [switch] that only logs. *)
Definition verdict (dec : Decision) (err : option error)
    (shadowDec : Decision) (shadowErr : option error) : level * string :=
  match shadowErr, err with
  | Some _, _ => (LWarn, "shadow authorizer unavailable")
  | None, Some _ => (LWarn, "primary authorizer unavailable, shadow not compared")
  | None, None =>
      if negb (Bool.eqb (Allowed shadowDec) (Allowed dec))
      then (LWarn, "shadow authorizer disagrees")
      else (LInfo, "shadow authorizer agrees")
  end.

Definition Shadow {E} `{!Sub rtE E} (primary shadow : Authorizer E) : Authorizer E :=
  fun ctx req =>
    '(dec, err) ← primary ctx req;
    shadowCtx ← WithTimeout ctx shadowTimeout;
    '(shadowDec, shadowErr) ← shadow shadowCtx req;
    (let (l, msg) := verdict dec err shadowDec shadowErr in
     trigger (LogLine l msg)) ;;
    mret (dec, err).

(** C39: what a shadowed authorizer answers is the primary's answer, whatever the
shadow answers: its decision, denial, error or timeout changes nothing.  (A
shadow that panics is the one thing that can still be seen.) *)
Theorem Shadow_transparent {E W} `{!Sub rtE E} (h : forall X, E X -> W -> X * W)
    (primary shadow : Authorizer E) ctx req w :
  (run h (Shadow primary shadow ctx req) w).1 =
  match run h (primary ctx req) w with
  | (Halted s, _) => Halted s
  | (Done r, w1) =>
      let (shadowCtx, w2) := run h (WithTimeout ctx shadowTimeout) w1 in
      match shadowCtx with
      | Halted s => Halted s
      | Done c => match (run h (shadow c req) w2).1 with
                  | Halted s => Halted s
                  | Done _ => Done r
                  end
      end
  end.
Proof.
  unfold Shadow, mbind, prog_bind. rewrite run_bind.
  destruct (run h (primary ctx req) w) as [[[dec err]|s] w1]; simpl; [|done].
  destruct (h Z (inj Z TimeNow) w1) as [now w2].
  rewrite run_bind.
  destruct (run h (shadow _ req) w2) as [[[sdec serr]|s] w3]; simpl; [|done].
  destruct (verdict dec err sdec serr) as [l msg]. simpl. by destruct (h unit _ w3).
Qed.

(** The log line "shadow authorizer disagrees", the one to look for before a
cutover, is written exactly when both authorizers reached a decision and the
decisions differ. *)
Theorem disagrees_iff dec err sdec serr :
  verdict dec err sdec serr = (LWarn, "shadow authorizer disagrees") <->
  serr = None /\ err = None /\ Allowed sdec <> Allowed dec.
Proof.
  unfold verdict. destruct serr, err, (Allowed sdec), (Allowed dec); simpl; naive_solver.
Qed.

End Shadow.
