(* ===== verification/Kube.v ===== *)
(** * Kubernetes: deployments, rollout evaluation, and the client interface

[internal/kube].  [Deployment] keeps the fields of the Kubernetes API type the
gateway reads; [EvaluateRollout] is the judgement every terminal status rests
on; [kubeE] is the [Kube] interface. *)

From S2P Require Import Prelude GoStrings GoRuntime Effects.

Local Open Scope string_scope.
Local Open Scope list_scope.
Local Open Scope Z_scope.

(** ** API objects (third-party types, the fields that are read) *)

Record DeploymentCondition : Type := {
  Cond_Type : string;
  Cond_Status : string;
  Cond_Reason : string;
}.

Record Container : Type := { Container_Name : string; Container_Image : string }.

Record Deployment : Type := {
  Generation : Z;
  Spec_Replicas : option Z;
  ProgressDeadlineSeconds : option Z;
  Containers : list Container;
  ObservedGeneration : Z;
  Replicas : Z;
  UpdatedReplicas : Z;
  ReadyReplicas : Z;
  AvailableReplicas : Z;
  Conditions : list DeploymentCondition;
}.

Definition DeploymentProgressing : string := "Progressing".
Definition ConditionFalse : string := "False".

(** ** Rollout evaluation *)

Inductive RolloutState : Type :=
  | RolloutProgressing
  | RolloutComplete
  | RolloutFailed.

#[export] Instance RolloutState_eq_dec : EqDecision RolloutState.
Proof. solve_decision. Defined.

(** [RolloutState.String] *)
Definition RolloutState_String (s : RolloutState) : string :=
  match s with
  | RolloutComplete => "complete"
  | RolloutFailed => "failed"
  | RolloutProgressing => "progressing"
  end.

Record RolloutEvaluation : Type := { Eval_State : RolloutState; Eval_Reason : string }.

(** The first condition of the given type. *)
Fixpoint find_condition (conds : list DeploymentCondition) (t : string) :
    option DeploymentCondition :=
  match conds with
  | [] => None
  | c :: cs => if decide (Cond_Type c = t) then Some c else find_condition cs t
  end.

Definition getCondition (dep : Deployment) (t : string) : option DeploymentCondition :=
  find_condition (Conditions dep) t.

(** [fmt.Sprintf("%d")] *)
Definition fmt_d (z : Z) : string := pretty.pretty z.

Definition EvaluateRollout (dep : Deployment) : RolloutEvaluation :=
  let observed := Generation dep <=? ObservedGeneration dep in
  let deadline_exceeded :=
    match getCondition dep DeploymentProgressing with
    | None => false
    | Some c => bool_decide (Cond_Status c = ConditionFalse) &&
                bool_decide (Cond_Reason c = "ProgressDeadlineExceeded") && observed
    end in
  if deadline_exceeded then
    {| Eval_State := RolloutFailed; Eval_Reason := "progress deadline exceeded" |}
  else
    let desired := match Spec_Replicas dep with Some n => n | None => 1 end in
    if observed && ((UpdatedReplicas dep =? desired) && (Replicas dep =? desired) &&
                    (ReadyReplicas dep =? desired) && (AvailableReplicas dep =? desired))
    then {| Eval_State := RolloutComplete;
            Eval_Reason := "all replicas are new, ready and available" |}
    else {| Eval_State := RolloutProgressing;
            Eval_Reason := "observedGeneration=" +:+ fmt_d (ObservedGeneration dep) +:+
              " generation=" +:+ fmt_d (Generation dep) +:+
              " replicas=" +:+ fmt_d (Replicas dep) +:+
              " updated=" +:+ fmt_d (UpdatedReplicas dep) +:+
              " ready=" +:+ fmt_d (ReadyReplicas dep) +:+
              " available=" +:+ fmt_d (AvailableReplicas dep) |}.

(** ** The [Kube] interface

[WatchObject] is what a watch delivers; only deployments matter to the code.
A watch is identified by a number. *)

Inductive WatchObject : Type :=
  | WatchDeploymentObject (dep : Deployment)
  | WatchOther.

Inductive kubeE : Type -> Type :=
  | RestartDeployment (ctx : Context) (namespace name : string) : kubeE (option error)
  | RolloutDeployment (ctx : Context) (namespace name container image : string) :
      kubeE (option error)
  | GetDeployment (ctx : Context) (namespace name : string) : kubeE (result error Deployment)
  | WatchDeployment (ctx : Context) (namespace name : string) : kubeE (result error nat).

(** ** What completion and failure mean *)

(** The controller has seen the generation that is asked for. *)
Definition observed (dep : Deployment) : Prop := Generation dep <= ObservedGeneration dep.

Definition desired_replicas (dep : Deployment) : Z := default 1 (Spec_Replicas dep).

(** Every pod counted is of the new template, ready and available, and none is
left over: the bar of [kubectl rollout status]. *)
Definition fully_rolled_out (dep : Deployment) : Prop :=
  let n := desired_replicas dep in
  UpdatedReplicas dep = n /\ Replicas dep = n /\ ReadyReplicas dep = n /\
  AvailableReplicas dep = n.

(** The (first) Progressing condition reports an exceeded deadline. *)
Definition reports_deadline_exceeded (dep : Deployment) : Prop :=
  exists pre c post, Conditions dep = pre ++ c :: post /\
    Cond_Type c = DeploymentProgressing /\
    Forall (fun c' => Cond_Type c' <> DeploymentProgressing) pre /\
    Cond_Status c = ConditionFalse /\ Cond_Reason c = "ProgressDeadlineExceeded".

Lemma find_condition_Some conds t c :
  find_condition conds t = Some c <->
  exists pre post, conds = pre ++ c :: post /\ Cond_Type c = t /\
    Forall (fun c' => Cond_Type c' <> t) pre.
Proof.
  induction conds as [|c0 conds IH]; simpl.
  { split; [done|]. intros ([|] & post & H & _); discriminate. }
  case_decide as Ht.
  - split.
    + intros [= <-]. by exists [], conds.
    + intros ([|d pre] & post & Heq & Hc & Hpre); simpl in Heq; simplify_eq; [done|].
      by apply Forall_cons in Hpre as [? _].
  - rewrite IH. split.
    + intros (pre & post & -> & Hc & Hpre). exists (c0 :: pre), post.
      split; [done|]. split; [done|]. by constructor.
    + intros ([|d pre] & post & Heq & Hc & Hpre); simpl in Heq; simplify_eq.
      exists pre, post. apply Forall_cons in Hpre as [_ ?]. done.
Qed.

Lemma deadline_exceeded_iff dep :
  match getCondition dep DeploymentProgressing with
  | None => false
  | Some c => bool_decide (Cond_Status c = ConditionFalse) &&
              bool_decide (Cond_Reason c = "ProgressDeadlineExceeded") &&
              (Generation dep <=? ObservedGeneration dep)
  end = true <-> reports_deadline_exceeded dep /\ observed dep.
Proof.
  unfold reports_deadline_exceeded, observed, getCondition.
  destruct (find_condition (Conditions dep) DeploymentProgressing) as [c|] eqn:Hc.
  - rewrite !andb_true_iff, !bool_decide_eq_true, Z.leb_le.
    pose proof (proj1 (find_condition_Some _ _ _) Hc) as (pre & post & Heq & Ht & Hpre).
    split.
    + intros [[Hs Hr] Ho]. split; [|done]. by exists pre, c, post.
    + intros [(pre' & c' & post' & Heq' & Ht' & Hpre' & Hs & Hr) Ho].
      assert (find_condition (Conditions dep) DeploymentProgressing = Some c') as Hc'.
      { apply find_condition_Some. by exists pre', post'. }
      rewrite Hc in Hc'. by simplify_eq.
  - split; [done|]. intros [(pre & c & post & Heq & Ht & Hpre & _) _].
    assert (find_condition (Conditions dep) DeploymentProgressing = Some c); [|congruence].
    apply find_condition_Some. by exists pre, post.
Qed.

(** What each verdict means, as one case distinction. *)
Lemma EvaluateRollout_means dep :
  match Eval_State (EvaluateRollout dep) with
  | RolloutFailed => observed dep /\ reports_deadline_exceeded dep
  | RolloutComplete =>
      observed dep /\ ~ reports_deadline_exceeded dep /\ fully_rolled_out dep
  | RolloutProgressing =>
      ~ observed dep \/ (~ reports_deadline_exceeded dep /\ ~ fully_rolled_out dep)
  end.
Proof.
  pose proof (deadline_exceeded_iff dep) as Hd.
  unfold EvaluateRollout. destruct (match getCondition _ _ with Some _ => _ | None => _ end); simpl.
  { destruct Hd as [Hd _]. destruct (Hd eq_refl). done. }
  assert (observed dep -> ~ reports_deadline_exceeded dep) as Hno by naive_solver. clear Hd.
  unfold observed in *.
  destruct (Z.leb_spec (Generation dep) (ObservedGeneration dep)) as [Ho|Ho]; simpl; [|left; lia].
  specialize (Hno Ho). unfold fully_rolled_out, desired_replicas, default.
  destruct (_ && _ && _ && _) eqn:Hall; simpl.
  - to_prop. destruct (Spec_Replicas dep); naive_solver.
  - right. split; [done|]. intros (H1 & H2 & H3 & H4).
    destruct (Spec_Replicas dep); rewrite H1, H2, H3, H4, !Z.eqb_refl in Hall; done.
Qed.

(** C19: a rollout is failed exactly when the controller, having observed the
current generation, reports an exceeded progress deadline; it is complete
exactly when it has not failed, the current generation is observed and all pods
are new, ready and available; it is progressing otherwise. *)
Theorem EvaluateRollout_spec dep :
  (Eval_State (EvaluateRollout dep) = RolloutFailed <->
     observed dep /\ reports_deadline_exceeded dep) /\
  (Eval_State (EvaluateRollout dep) = RolloutComplete <->
     observed dep /\ ~ reports_deadline_exceeded dep /\ fully_rolled_out dep) /\
  (Eval_State (EvaluateRollout dep) = RolloutProgressing <->
     ~ observed dep \/ (~ reports_deadline_exceeded dep /\ ~ fully_rolled_out dep)).
Proof.
  pose proof (EvaluateRollout_means dep) as H.
  destruct (Eval_State (EvaluateRollout dep)); naive_solver.
Qed.

(** Right after a patch has bumped the generation, no status left over from
the rollout before it resolves the operation: until the controller observes the
new generation the rollout is progressing, whatever the counters and
conditions say. *)
Theorem unobserved_is_progressing dep :
  ObservedGeneration dep < Generation dep ->
  Eval_State (EvaluateRollout dep) = RolloutProgressing.
Proof.
  intros H. pose proof (EvaluateRollout_means dep) as Hm. unfold observed in Hm.
  destruct (Eval_State (EvaluateRollout dep)); [done| |]; destruct Hm; lia.
Qed.

(** A deployment in the middle of a single-replica surge. *)
Definition surge (gen obs total : Z) : Deployment := {|
  Generation := gen; Spec_Replicas := Some 1; ProgressDeadlineSeconds := None;
  Containers := [{| Container_Name := "c"; Container_Image := "busybox" |}];
  ObservedGeneration := obs; Replicas := total; UpdatedReplicas := 1; ReadyReplicas := 1;
  AvailableReplicas := 1; Conditions := [] |}.

Lemma unobserved_is_progressing_witness :
  ObservedGeneration (surge 2 1 1) < Generation (surge 2 1 1) /\
  Eval_State (EvaluateRollout (surge 2 1 1)) = RolloutProgressing.
Proof.
  split; [vm_compute; reflexivity|].
  apply unobserved_is_progressing. vm_compute. reflexivity.
Defined.

Example surge_running : Eval_State (EvaluateRollout (surge 2 2 2)) = RolloutProgressing.
Proof. reflexivity. Qed.

Example surge_done : Eval_State (EvaluateRollout (surge 2 2 1)) = RolloutComplete.
Proof. reflexivity. Qed.
