(* ===== verification/KubeClient.v ===== *)
(** * The Kubernetes client

[internal/kube/client.go]: the two patches and the two reads, over the calls of
[client-go] ([cgE]).  [retry.RetryOnConflict] is [client-go]'s and a parameter.  The
patches are texts that the code prints with [%q]: read as JSON ([GoJsonSpec]) they are
[restart_object] and [rollout_object], or nothing. *)

From S2P Require Import Prelude GoStrings GoRuntime GoNet GoJson GoJsonSpec GoTime GoDates Effects Kube.

Local Open Scope string_scope.
Local Open Scope list_scope.
Local Open Scope Z_scope.

(** ** Calls *)

Inductive cgE : Type -> Type :=
  | CRt {X} (e : rtE X) : cgE X
  (** [Deployments(namespace).Patch] with [StrategicMergePatchType] *)
  | Patch (ctx : Context) (namespace name patch : string) : cgE (option error)
  (** [Deployments(namespace).Get] *)
  | CGet (ctx : Context) (namespace name : string) : cgE (result error Deployment)
  (** [Deployments(namespace).Watch] with a [FieldSelector] *)
  | CWatch (ctx : Context) (namespace fieldSelector : string) : cgE (result error nat).

#[export] Instance Sub_rt_cg : Sub rtE cgE := @CRt.

(** ** Patches *)

Section Client.
(** [unicode.IsPrint] beyond ASCII. *)
Variable IsPrint : Z -> bool.
(** [retry.RetryOnConflict(retry.DefaultBackoff, fn)]. *)
Variable RetryOnConflict : prog cgE (option error) -> prog cgE (option error).

Definition restartStamp : prog cgE string :=
  now ← trigger TimeNow;
  mret (Format_RFC3339Nano now).

Definition q (s : string) : string := Quote IsPrint s.

Definition restart_head : string :=
  "{" +:+ dquote +:+ "spec" +:+ dquote +:+ ":{" +:+ dquote +:+ "template" +:+ dquote +:+ ":{" +:+
  dquote +:+ "metadata" +:+ dquote +:+ ":{" +:+ dquote +:+ "annotations" +:+ dquote +:+ ":{" +:+
  dquote +:+ "kubectl.kubernetes.io/restartedAt" +:+ dquote +:+ ":".

Definition restart_patch (stamp : string) : string := restart_head +:+ q stamp +:+ "}}}}}".

Definition rollout_patch (stamp container image : string) : string :=
  restart_head +:+ q stamp +:+ "}}," +:+
  dquote +:+ "spec" +:+ dquote +:+ ":{" +:+ dquote +:+ "containers" +:+ dquote +:+ ":[{" +:+
  dquote +:+ "name" +:+ dquote +:+ ":" +:+ q container +:+ "," +:+
  dquote +:+ "image" +:+ dquote +:+ ":" +:+ q image +:+ "}]}}}}".

Definition RestartDeployment (ctx : Context) (namespace name : string) :
    prog cgE (option error) :=
  RetryOnConflict (
    stamp ← restartStamp;
    call (Patch ctx namespace name (restart_patch stamp))).

Definition RolloutDeployment (ctx : Context) (namespace name container image : string) :
    prog cgE (option error) :=
  if decide (container = "" \/ image = "") then
    mret (Some (ErrText "rollout requires container and image"))
  else
    RetryOnConflict (
      stamp ← restartStamp;
      call (Patch ctx namespace name (rollout_patch stamp container image))).

Definition GetDeployment (ctx : Context) (namespace name : string) :
    prog cgE (result error Deployment) :=
  call (CGet ctx namespace name).

Definition WatchDeployment (ctx : Context) (namespace name : string) :
    prog cgE (result error nat) :=
  call (CWatch ctx namespace ("metadata.name=" +:+ name)).

(** ** Constructors

The REST configuration and the clientset are client-go's. *)
Section Constructors.
Context {RestConfig Clientset : Type}.
Variable InClusterConfig : result error RestConfig.
Variable NewForConfig : RestConfig -> result error Clientset.

Definition NewFromConfig (cfg : RestConfig) : result error Clientset :=
  match NewForConfig cfg with
  | Err err => Err err
  | Ok cs => Ok cs
  end.

Definition NewInCluster : result error Clientset :=
  match InClusterConfig with
  | Err err => Err (ErrWrap "in-cluster config: " err "")
  | Ok cfg => NewFromConfig cfg
  end.

End Constructors.

End Client.

(** ** The text of a patch *)

Lemma digit_plain v : plain_byte (digit (v mod 10)) = true.
Proof. apply digit_all; [apply Z.mod_pos_bound; lia|reflexivity]. Qed.

Lemma fmtInt_plain fuel v acc :
  all_bytes plain_byte acc = true -> all_bytes plain_byte (fmtInt fuel v acc) = true.
Proof.
  revert v acc. induction fuel as [|fuel IH]; intros v acc Ha; [done|]. cbn [fmtInt].
  assert (all_bytes plain_byte (String (digit (v mod 10)) acc) = true) as Hd.
  { cbn [all_bytes]. by rewrite digit_plain. }
  destruct (v / 10 =? 0); [done|]. by apply IH.
Qed.

Lemma fmtFrac_plain p v b acc :
  all_bytes plain_byte acc = true -> all_bytes plain_byte (fmtFrac p v b acc).1 = true.
Proof.
  revert v b acc. induction p as [|p IH]; intros v b acc Ha; cbn [fmtFrac]; [by destruct b|].
  apply IH. destruct (b || _); [|done]. cbn [all_bytes]. by rewrite digit_plain.
Qed.

Lemma pad_plain w v acc :
  all_bytes plain_byte acc = true -> all_bytes plain_byte (pad w v acc) = true.
Proof.
  revert v acc. induction w as [|w IH]; intros v acc Ha; cbn [pad].
  - destruct (v =? 0); [done|]. by apply fmtInt_plain.
  - apply IH. cbn [all_bytes]. by rewrite digit_plain.
Qed.

Lemma Format_plain t : all_bytes plain_byte (Format_RFC3339Nano t) = true.
Proof.
  unfold Format_RFC3339Nano, upto_second, nanos. destruct (civil _) as [[y m] d].
  by rewrite !all_bytes_app, fmtFrac_plain, !pad_plain.
Qed.

(** A stamp is plain ASCII, so [%q] writes it as JSON would. *)
Lemma plain_printable s : all_bytes plain_byte s = true -> printable s = true.
Proof.
  unfold printable. induction s as [|c s IH]; [done|]. cbn [all_bytes].
  intros [Hc Hs]%andb_true_iff. rewrite IH by done. rewrite andb_true_r. clear -Hc.
  by destruct c as [[] [] [] [] [] [] [] []].
Qed.

Lemma Format_printable t : printable (Format_RFC3339Nano t) = true.
Proof. apply plain_printable, Format_plain. Qed.

(** ** The objects patched *)

Definition at_path (path : list string) (j : json) : json :=
  fold_right (fun k j => JObj [(k, j)]) j path.

Definition stamped (stamp : string) : string * json :=
  ("metadata", at_path ["annotations"; "kubectl.kubernetes.io/restartedAt"] (JStr stamp)).

(** The pod template with a new annotation. *)
Definition restart_object (stamp : string) : json :=
  at_path ["spec"; "template"] (JObj [stamped stamp]).

(** The pod template with a new annotation and one container's image. *)
Definition rollout_object (stamp container image : string) : json :=
  at_path ["spec"; "template"]
    (JObj [stamped stamp;
           ("spec", JObj [("containers",
              JArr [JObj [("name", JStr container); ("image", JStr image)]])])]).

Lemma restart_patch_marshal IsPrint stamp :
  restart_patch IsPrint stamp = Marshal_with (quote_body IsPrint) (restart_object stamp).
Proof.
  unfold restart_patch, q. rewrite Quote_quoted. unfold quoted.
  cbn [restart_object at_path stamped fold_right Marshal_with map Join fst snd].
  unfold quoted. rewrite !str_app_assoc. reflexivity.
Qed.

Lemma rollout_patch_marshal IsPrint stamp container image :
  rollout_patch IsPrint stamp container image =
    Marshal_with (quote_body IsPrint) (rollout_object stamp container image).
Proof.
  unfold rollout_patch, q. rewrite !Quote_quoted. unfold quoted.
  cbn [rollout_object at_path stamped fold_right Marshal_with map Join fst snd].
  unfold quoted. rewrite !str_app_assoc. reflexivity.
Qed.

(** A text that, read as JSON, is nothing but [j], and is [j] when its names are [clean]. *)
Definition says (clean : Prop) (text : string) (j : json) : Prop :=
  (forall j', Unmarshal text = Some j' -> j' = j) /\ (clean -> Unmarshal text = Some j).

Lemma restart_patch_says IsPrint stamp :
  printable stamp = true -> says True (restart_patch IsPrint stamp) (restart_object stamp).
Proof.
  intros Hs. rewrite restart_patch_marshal.
  assert (nesting (restart_object stamp) <= maxNestingDepth)%nat as Hn by (by apply Nat.leb_le).
  split; [intros j'; by apply Unmarshal_Quoted_only|intros _].
  apply Unmarshal_Quoted; [|done]. cbn. by rewrite Hs.
Qed.

Lemma rollout_patch_says IsPrint stamp container image :
  printable stamp = true ->
  says (printable container = true /\ printable image = true)
    (rollout_patch IsPrint stamp container image) (rollout_object stamp container image).
Proof.
  intros Hs. rewrite rollout_patch_marshal.
  assert (nesting (rollout_object stamp container image) <= maxNestingDepth)%nat as Hn
    by (by apply Nat.leb_le).
  split; [intros j'; by apply Unmarshal_Quoted_only|intros [Hc Hi]].
  apply Unmarshal_Quoted; [|done]. cbn. by rewrite Hs, Hc, Hi.
Qed.

(** ** What is patched *)

(** Documented: [RetryOnConflict] calls its function, once or several times, and
nothing else, and returns what the last call returned. *)
Definition retries_only (retry : prog cgE (option error) -> prog cgE (option error)) : Prop :=
  forall S (sp : spec cgE S) (I : S -> Prop) (Q : option error -> S -> Prop) body,
    (forall s, I s -> wp sp body (returning (fun r s' => I s' /\ Q r s')) s) ->
    forall s, I s -> wp sp (retry body) (returning Q) s.

(** An instant read and not yet used, and the server's last answer. *)
Record attempts := Attempts { fresh : option Z; answered : option (option error) }.

(** The calls allowed: patches of one deployment whose text says the object of a stamp
read for that patch alone. *)
Definition patch_proto (ns dep : string) (clean : Prop) (object : string -> json) :
    spec cgE attempts :=
  {| spec_pre := fun X e g =>
       match e with
       | Patch _ ns' name p => ns' = ns /\ name = dep /\
           exists t, fresh g = Some t /\ says clean p (object (Format_RFC3339Nano t))
       | CRt _ => True
       | _ => False
       end;
     spec_post := fun X e g =>
       match e in cgE X return X -> attempts -> Prop with
       | CRt e =>
           match e in rtE X return X -> attempts -> Prop with
           | TimeNow => fun x g' => g' = Attempts (Some x) (answered g)
           | LogLine _ _ => fun _ g' => g' = g
           end
       | Patch _ _ _ _ => fun x g' => g' = Attempts None (Some x)
       | _ => fun _ g' => g' = g
       end |}.

(** The server's last answer is the result. *)
Definition last_answer (r : option error) (g : attempts) : Prop := answered g = Some r.

Section Patches.
Variable IsPrint : Z -> bool.
Variable RetryOnConflict : prog cgE (option error) -> prog cgE (option error).
Hypothesis RetryOnConflict_retries : retries_only RetryOnConflict.

Lemma stamped_patch_wp ctx ns dep clean text object g :
  (forall t, says clean (text (Format_RFC3339Nano t)) (object (Format_RFC3339Nano t))) ->
  wp (patch_proto ns dep clean object)
    (RetryOnConflict (stamp ← restartStamp; call (Patch ctx ns dep (text stamp))))
    (returning last_answer) g.
Proof.
  intros Htext. apply (RetryOnConflict_retries _ _ (fun _ => True)); [|done]. intros s _.
  unfold restartStamp. cbv beta delta [mbind mret prog_bind prog_ret trigger call inj Sub_rt_cg].
  cbn [bind wp]. split; [exact I|]. intros t g' H. cbn in H. subst g'.
  split; [by repeat split; exists t|]. intros x g' H. cbn in H. by subst g'.
Qed.

(** C16: a restart and a rollout send patches of the one deployment named and nothing
else, at least one, and return the server's last answer; each patch is the pod template
with the restart annotation, and for a rollout that container's image, with a stamp read
afresh for every attempt (conflicts included).  Whatever bytes the container and the image
hold, the text reads as that object or is no JSON at all: they cannot smuggle in another
field.  A rollout without a container or an image makes no call at all. *)
Theorem client_patches ctx ns dep container image g :
  wp (patch_proto ns dep True restart_object)
    (RestartDeployment IsPrint RetryOnConflict ctx ns dep) (returning last_answer) g /\
  if decide (container = "" \/ image = "") then
    RolloutDeployment IsPrint RetryOnConflict ctx ns dep container image =
      Ret (Some (ErrText "rollout requires container and image"))
  else
    wp (patch_proto ns dep (printable container = true /\ printable image = true)
          (fun stamp => rollout_object stamp container image))
      (RolloutDeployment IsPrint RetryOnConflict ctx ns dep container image)
      (returning last_answer) g.
Proof.
  split.
  - apply stamped_patch_wp. intros t. apply restart_patch_says, Format_printable.
  - unfold RolloutDeployment. case_decide; [done|].
    apply (stamped_patch_wp ctx ns dep _ (fun stamp => rollout_patch IsPrint stamp container image)).
    intros t. apply rollout_patch_says, Format_printable.
Qed.

End Patches.

(** Two restarts at different instants send different patches: the pod template
changes, so a rollout happens. *)
Theorem restart_patch_distinct IsPrint t u :
  in_range t -> in_range u -> t <> u ->
  restart_patch IsPrint (Format_RFC3339Nano t) <> restart_patch IsPrint (Format_RFC3339Nano u).
Proof.
  intros Ht Hu Hne H. apply Hne, (Format_inj t u Ht Hu). unfold restart_patch, q in H.
  rewrite !Quote_plain in H by apply Format_plain.
  apply (f_equal (str_drop (String.length restart_head))) in H. rewrite !str_drop_app in H.
  apply str_app_inj_r in H. apply (f_equal (str_drop 1)) in H.
  change (Format_RFC3339Nano t +:+ dquote = Format_RFC3339Nano u +:+ dquote) in H.
  by apply str_app_inj_r in H.
Qed.

Lemma restart_patch_distinct_witness :
  let t := 63839000000 * Second in
  restart_patch (fun _ => false) (Format_RFC3339Nano t) <>
  restart_patch (fun _ => false) (Format_RFC3339Nano (t + 1)).
Proof.
  intros t. apply restart_patch_distinct; [by vm_compute..|unfold t; lia].
Defined.

(** A [RetryOnConflict] that tries up to [n] times. *)
Fixpoint retry_n (n : nat) (body : prog cgE (option error)) : prog cgE (option error) :=
  match n with
  | O => body
  | S n' =>
      r ← body;
      match r with
      | Some err => if error_As err "Conflict" then retry_n n' body else mret (Some err)
      | None => mret None
      end
  end.

Lemma retry_n_retries n : retries_only (retry_n n).
Proof.
  intros S sp I Q body Hbody. induction n as [|n IH]; intros s HI; simpl.
  - eapply wp_mono; [|by apply Hbody]. by intros [] ? H; [apply H|].
  - eapply wp_seq; [by apply Hbody|]. intros [err|] s' [HI' HQ]; [|done].
    destruct (error_As err "Conflict"); [by apply IH|done].
Qed.

Lemma client_patches_witness :
  let restart := RestartDeployment (fun _ => false) (retry_n 3) Background "app" "api" in
  let rollout := RolloutDeployment (fun _ => false) (retry_n 3) Background "app" "api" "web" "app:1" in
  wp (patch_proto "app" "api" True restart_object) restart (returning last_answer) (Attempts None None) /\
  wp (patch_proto "app" "api" (printable "web" = true /\ printable "app:1" = true)
        (fun stamp => rollout_object stamp "web" "app:1")) rollout
    (returning last_answer) (Attempts None None).
Proof.
  exact (client_patches (fun _ => false) (retry_n 3) (retry_n_retries 3) Background "app" "api"
    "web" "app:1" (Attempts None None)).
Defined.

(** With plain names the patch is the JSON one expects; a control character is
written [\x..], which is not JSON. *)
Example rollout_patch_text :
  rollout_patch (fun _ => false) "S" "web" "app:1" =
  restart_head +:+ dquote +:+ "S" +:+ dquote +:+ "}}," +:+ dquote +:+ "spec" +:+ dquote +:+ ":{" +:+
  dquote +:+ "containers" +:+ dquote +:+ ":[{" +:+ dquote +:+ "name" +:+ dquote +:+ ":" +:+
  dquote +:+ "web" +:+ dquote +:+ "," +:+ dquote +:+ "image" +:+ dquote +:+ ":" +:+
  dquote +:+ "app:1" +:+ dquote +:+ "}]}}}}".
Proof. reflexivity. Qed.

Example control_character_is_not_json :
  Unmarshal (rollout_patch (fun _ => false) "S" "web" (String "001"%char "")) = None /\
  Unmarshal (rollout_patch (fun _ => false) "S" "web" "app:1") =
    Some (rollout_object "S" "web" "app:1").
Proof. vm_compute. split; reflexivity. Qed.
