(* ===== verification/Store.v ===== *)
(** * The operation store: data, contract, in-memory implementation

[internal/store]: the persisted [Operation], the [Store] interface ([storeE]),
the contract its callers rely on ([store_contract]) and the in-memory
implementation with the proof that it honours the contract. *)

From S2P Require Import Prelude GoStrings GoRuntime Effects.

Local Open Scope string_scope.
Local Open Scope list_scope.
Local Open Scope Z_scope.

(** ** Data *)

(** [OperationStatus] is a string type with five named values. *)
Abbreviation OperationStatus := string (only parsing).

Definition StatusRunning : OperationStatus := "running".
Definition StatusSucceeded : OperationStatus := "succeeded".
Definition StatusFailed : OperationStatus := "failed".
Definition StatusTimeout : OperationStatus := "timeout".
Definition StatusDenied : OperationStatus := "denied".

Definition ErrNotFound : error := ErrVar "store.ErrNotFound" "operation not found".
Definition ErrAlreadyTerminal : error :=
  ErrVar "store.ErrAlreadyTerminal" "operation already terminal".

Record AuditEvent : Type := { Event : string; At : Z }.

Record Operation : Type := {
  OperationID : string;
  Repository : string;
  RepositoryID : string;
  RepositoryOwner : string;
  Actor : string;
  Workflow : string;
  WorkflowRef : string;
  RunID : string;
  RunAttempt : string;
  EventName : string;
  Action : string;
  Namespace : string;
  Deployment : string;
  Op_Container : string;
  Image : string;
  NsDep : string;
  Status : OperationStatus;
  ErrorCode : string;
  ErrorMessage : string;
  RequestedAt : Z;
  CompletedAt : option Z;
  ExpiresAt : Z;
  Events : list AuditEvent;
}.

#[export] Instance AuditEvent_eq_dec : EqDecision AuditEvent.
Proof. solve_decision. Defined.
#[export] Instance Operation_eq_dec : EqDecision Operation.
Proof. solve_decision. Defined.

(** [Operation.Terminal] *)
Definition Terminal (o : Operation) : bool := negb (bool_decide (Status o = StatusRunning)).

Record TerminalUpdate : Type := {
  Upd_Status : OperationStatus;
  Upd_Event : string;
  Upd_ErrorCode : string;
  Upd_ErrorMessage : string;
  Upd_CompletedAt : Z;
}.

(** An operation with its status, error, completion time and events replaced. *)
Definition with_outcome (op : Operation) (st code msg : string) (done : option Z)
    (evs : list AuditEvent) : Operation := {|
  OperationID := OperationID op; Repository := Repository op;
  RepositoryID := RepositoryID op; RepositoryOwner := RepositoryOwner op;
  Actor := Actor op; Workflow := Workflow op; WorkflowRef := WorkflowRef op;
  RunID := RunID op; RunAttempt := RunAttempt op; EventName := EventName op;
  Action := Action op; Namespace := Namespace op; Deployment := Deployment op;
  Op_Container := Op_Container op; Image := Image op; NsDep := NsDep op;
  Status := st; ErrorCode := code; ErrorMessage := msg;
  RequestedAt := RequestedAt op; CompletedAt := done; ExpiresAt := ExpiresAt op;
  Events := evs |}.

(** The five assignments of [UpdateTerminal], the event stamped [at_]. *)
Definition terminated (op : Operation) (upd : TerminalUpdate) (at_ : Z) : Operation :=
  with_outcome op (Upd_Status upd) (Upd_ErrorCode upd) (Upd_ErrorMessage upd)
    (Some (Upd_CompletedAt upd))
    (Events op ++ [{| Event := Upd_Event upd; At := at_ |}]).

(** ** The interface *)

Inductive storeE : Type -> Type :=
  | PutOperation (ctx : Context) (op : Operation) : storeE (option error)
  | GetOperation (ctx : Context) (id : string) : storeE (result error Operation)
  | UpdateTerminal (ctx : Context) (id : string) (upd : TerminalUpdate) : storeE (option error)
  | ListRunningPastDeadline (ctx : Context) (olderThan : Z) :
      storeE (result error (list Operation))
  | Ping (ctx : Context) : storeE (option error).

(** ** The contract

What the callers of a store may rely on, over the map from ids to operations.
A call that fails for a reason of its own (network, throttling) may or may not
have had its effect: its response may be what was lost.  For the same reason an
operation reported as already terminal may be so because of this very call: the
client of a remote store sends a request again whose response was lost. *)

Abbreviation opmap := (gmap string Operation) (only parsing).

(** What a list of the operations running past a deadline may hold and what it must
hold; an operation requested within the second of the deadline may or may not be
in it. *)
Definition maybe_past (olderThan : Z) (op : Operation) : Prop :=
  Status op = StatusRunning /\ RequestedAt op / Second <= olderThan / Second.
Definition surely_past (olderThan : Z) (op : Operation) : Prop :=
  Status op = StatusRunning /\ RequestedAt op / Second < olderThan / Second.

(** One terminal transition of the stored operation [id]. *)
Definition terminal_write (m : opmap) (id : string) (upd : TerminalUpdate) (m' : opmap) :
    Prop :=
  exists op at_, m !! id = Some op /\ Status op = StatusRunning /\
    m' = <[id := terminated op upd at_]> m.

Definition other_error (e : error) : Prop :=
  error_Is e ErrNotFound = false /\ error_Is e ErrAlreadyTerminal = false.

Definition store_post X (e : storeE X) (m : opmap) : X -> opmap -> Prop :=
  match e in storeE X return X -> opmap -> Prop with
  | PutOperation _ op => fun x m' =>
      match x with
      | None => m' = <[OperationID op := op]> m
      | Some err => m' = m \/ m' = <[OperationID op := op]> m
      end
  | GetOperation _ id => fun x m' =>
      m' = m /\
      match x with
      | Ok op => m !! id = Some op
      | Err err => (error_Is err ErrNotFound = true /\ m !! id = None) \/ other_error err
      end
  | UpdateTerminal _ id upd => fun x m' =>
      match x with
      | None => terminal_write m id upd m'
      | Some err =>
          (m' = m /\ error_Is err ErrNotFound = true /\ m !! id = None) \/
          (error_Is err ErrAlreadyTerminal = true /\
             ((m' = m /\ forall op, m !! id = Some op -> Status op <> StatusRunning) \/
              terminal_write m id upd m')) \/
          (other_error err /\ (m' = m \/ terminal_write m id upd m'))
      end
  | ListRunningPastDeadline _ olderThan => fun x m' =>
      m' = m /\
      match x with
      | Ok l => NoDup (OperationID <$> l) /\
                (forall op, op ∈ l -> m !! OperationID op = Some op /\ maybe_past olderThan op) /\
                (forall op, m !! OperationID op = Some op -> surely_past olderThan op -> op ∈ l)
      | Err _ => True
      end
  | Ping _ => fun x m' => m' = m
  end.

(** Every stored operation sits under its own id. *)
Definition well_keyed (m : opmap) : Prop :=
  map_Forall (fun id op => OperationID op = id) m.

Definition store_contract : spec storeE opmap :=
  {| spec_pre := fun _ _ m => well_keyed m; spec_post := store_post |}.

(** ** The in-memory store

[ops] is the mutex-protected map; each method runs entirely under the mutex and
so is one atomic step.  [now] is what [time.Now().UTC()] answers inside
[UpdateTerminal].  The map holds private copies: [PutOperation] and the readers
copy the struct, and no [Events] slice is ever written in place. *)

Module InMemory.

Definition NewInMemory : opmap := ∅.

Definition PutOperation (op : Operation) (ops : opmap) : option error * opmap :=
  (None, <[OperationID op := op]> ops).

Definition GetOperation (id : string) (ops : opmap) : result error Operation * opmap :=
  match ops !! id with
  | None => (Err ErrNotFound, ops)
  | Some op => (Ok op, ops)
  end.

Definition UpdateTerminal (now : Z) (id : string) (upd : TerminalUpdate) (ops : opmap) :
    option error * opmap :=
  match ops !! id with
  | None => (Some ErrNotFound, ops)
  | Some op =>
      if decide (Status op ≠ StatusRunning) then (Some ErrAlreadyTerminal, ops)
      else (None, <[id := with_outcome op (Upd_Status upd) (Upd_ErrorCode upd)
                            (Upd_ErrorMessage upd) (Some (Upd_CompletedAt upd))
                            (Events op ++ [{| Event := Upd_Event upd; At := now |}])]> ops)
  end.

Definition past_deadline (olderThan : Z) (op : Operation) : bool :=
  bool_decide (Status op = StatusRunning) && time_Before (RequestedAt op) olderThan.

(** The range over the map; Go leaves the order open, the model fixes one. *)
Definition ListRunningPastDeadline (olderThan : Z) (ops : opmap) :
    result error (list Operation) * opmap :=
  (Ok (omap (fun '(_, op) =>
         if past_deadline olderThan op then Some op else None) (map_to_list ops)), ops).

Definition Ping (ops : opmap) : option error * opmap := (None, ops).

Definition handler (now : Z) X (e : storeE X) : opmap -> X * opmap :=
  match e in storeE X return opmap -> X * opmap with
  | Store.PutOperation _ op => PutOperation op
  | Store.GetOperation _ id => GetOperation id
  | Store.UpdateTerminal _ id upd => UpdateTerminal now id upd
  | Store.ListRunningPastDeadline _ t => ListRunningPastDeadline t
  | Store.Ping _ => Ping
  end.

End InMemory.

(** [RecordingStore]: the in-memory store, embedded, and every [PutOperation] in
order.  The recorded pointer is the caller's; no caller writes to an operation after
putting it, so its value is kept. *)
Module Recording.

Record t : Type := { inner : opmap; puts : list Operation }.

Definition NewRecording : t := {| inner := InMemory.NewInMemory; puts := [] |}.

Definition PutOperation (op : Operation) (r : t) : option error * t :=
  let (err, m) := InMemory.PutOperation op (inner r) in
  (err, {| inner := m; puts := puts r ++ [op] |}).

(** The function [Recorder] returns. *)
Definition Recorder (r : t) : list Operation * t := (puts r, r).

(** The methods not redefined are those of the embedded store. *)
Definition handler (now : Z) X (e : storeE X) (r : t) : X * t :=
  match e in storeE X return X * t with
  | Store.PutOperation _ op => PutOperation op r
  | e => let (x, m) := InMemory.handler now _ e (inner r) in
         (x, {| inner := m; puts := puts r |})
  end.

End Recording.

(** ** Properties of the contract *)

Lemma terminated_id op upd at_ : OperationID (terminated op upd at_) = OperationID op.
Proof. done. Qed.

Lemma terminal_write_keyed m id upd m' :
  terminal_write m id upd m' -> well_keyed m -> well_keyed m'.
Proof.
  intros (op & at_ & Hop & _ & ->) Hm. apply map_Forall_insert_2; [|done].
  rewrite terminated_id. by apply (Hm id op).
Qed.

(** The contract keeps the map well keyed. *)
Lemma store_post_keyed X (e : storeE X) m x m' :
  store_post X e m x m' -> well_keyed m -> well_keyed m'.
Proof.
  intros Hpost Hm. destruct e; simpl in Hpost.
  - assert (well_keyed (<[OperationID op:=op]> m)) by by apply map_Forall_insert_2.
    destruct x; naive_solver.
  - by destruct Hpost as [-> _].
  - destruct x as [err|]; [|by eapply terminal_write_keyed].
    destruct Hpost as [[-> _]|[[_ [[-> _]|Hw]]|[_ [->|Hw]]]]; try done; by eapply terminal_write_keyed.
  - by destruct Hpost as [-> _].
  - by subst.
Qed.

(** Rows of ended operations are still there, unchanged. *)
Definition ended_rows_kept (m m' : opmap) : Prop :=
  forall id op, m !! id = Some op -> Status op <> StatusRunning -> m' !! id = Some op.

Lemma terminal_write_keeps m id upd m' :
  terminal_write m id upd m' -> ended_rows_kept m m'.
Proof.
  intros (op' & at_ & Hop' & Hrun & ->) id' op Hop Hst.
  destruct (decide (id = id')) as [->|?]; [congruence|by rewrite lookup_insert_ne].
Qed.

Lemma insert_keeps (m : opmap) id op : m !! id = None -> ended_rows_kept m (<[id := op]> m).
Proof. intros Hid id' op' Hop _. rewrite lookup_insert_ne; congruence. Qed.

(** ** The in-memory store honours the contract *)

Lemma InMemory_list_elem t (m : opmap) op :
  well_keyed m ->
  op ∈ omap (fun '(_, op) =>
         if InMemory.past_deadline t op then Some op else None) (map_to_list m) <->
  m !! OperationID op = Some op /\ InMemory.past_deadline t op = true.
Proof.
  intros Hm. rewrite list_elem_of_omap. split.
  - intros ([id o] & Hin & Hc). apply elem_of_map_to_list in Hin.
    destruct (InMemory.past_deadline t o) eqn:Hp; [|done]. simplify_eq. rewrite (Hm _ _ Hin). done.
  - intros [Hin Hp]. exists (OperationID op, op). rewrite elem_of_map_to_list.
    split; [done|]. by rewrite Hp.
Qed.

Lemma InMemory_list_NoDup t (m : opmap) :
  well_keyed m ->
  NoDup (OperationID <$> omap (fun '(_, op) =>
         if InMemory.past_deadline t op then Some op else None) (map_to_list m)).
Proof.
  intros Hm. assert (Forall (fun '(id, op) => OperationID op = id) (map_to_list m)) as Hall.
  { by apply map_Forall_to_list. }
  pose proof (NoDup_fst_map_to_list m) as Hnd. revert Hall Hnd.
  induction (map_to_list m) as [|[id op] l IH]; simpl; [constructor|].
  rewrite Forall_cons, NoDup_cons. intros [Hid Hall] [Hnin Hnd].
  destruct (InMemory.past_deadline t op); simpl; [|by apply IH]. constructor; [|by apply IH].
  rewrite Hid. intros Hin. apply Hnin. apply list_elem_of_fmap in Hin as (o & -> & Ho).
  apply list_elem_of_omap in Ho as ([id' o'] & Hin & Hc).
  destruct (InMemory.past_deadline t o'); simplify_eq. rewrite Forall_forall in Hall.
  specialize (Hall _ Hin). simpl in Hall. subst id'. apply list_elem_of_fmap.
  by exists (OperationID o, o).
Qed.

Lemma past_deadline_past t op :
  (InMemory.past_deadline t op = true -> maybe_past t op) /\
  (surely_past t op -> InMemory.past_deadline t op = true).
Proof.
  unfold InMemory.past_deadline, maybe_past, surely_past, time_Before.
  rewrite andb_true_iff, bool_decide_eq_true, Z.ltb_lt. unfold Second.
  split; intros [Hs Ht]; (split; [done|]); euclid.
Qed.

Lemma InMemory_handler_ok now : implements (InMemory.handler now) store_contract.
Proof.
  intros X e m Hm. destruct e; simpl.
  - done.
  - unfold InMemory.GetOperation. destruct (m !! id) eqn:Hid; simpl; auto.
  - unfold InMemory.UpdateTerminal. destruct (m !! id) as [op|] eqn:Hid; simpl; [|by left].
    case_decide as Hst; simpl.
    + right. left. split; [done|]. left. split; [done|]. intros op' Hop'. by simplify_eq.
    + exists op, now. split; [done|]. split; [|done].
      by destruct (decide (Status op = StatusRunning)).
  - split; [done|]. split; [by apply InMemory_list_NoDup|].
    pose proof (past_deadline_past olderThan) as Hp.
    split; intros op; rewrite InMemory_list_elem by done; destruct (Hp op); tauto.
  - done.
Qed.

(** A store that honours the contract can always answer. *)
Lemma store_contract_answers : answers store_contract.
Proof.
  intros X e m Hm. exists (InMemory.handler 0 X e m).1, (InMemory.handler 0 X e m).2.
  by apply InMemory_handler_ok.
Qed.

(** C15: the in-memory store implements the store contract: every method answers
and updates the map as the contract says, at whatever instant it runs. *)
Theorem InMemory_refines_contract now : implements (InMemory.handler now) store_contract.
Proof. apply InMemory_handler_ok. Qed.

(** *** Terminal states *)

(** The calls of all goroutines, one after the other as the mutex lets them in, each at the
instant the clock shows then: the operations after them. *)
Fixpoint serve (calls : list (Z * sigT storeE)) (m : opmap) : opmap :=
  match calls with
  | [] => m
  | (now, existT X e) :: calls' => serve calls' (InMemory.handler now X e m).2
  end.

(** The call puts an operation with this id. *)
Definition puts_id (id : string) (c : Z * sigT storeE) : Prop :=
  match c with (_, existT _ (PutOperation _ op)) => OperationID op = id | _ => False end.

(** C22: a terminal status is final.  Whatever calls of whatever goroutines follow, in
whatever order, an operation of the in-memory store that is not running stays exactly as
it is, as long as none of them puts an operation with its id; and every later terminal
write of it is refused as already terminal. *)
Theorem terminal_is_final calls m id op :
  Forall (fun c => ~ puts_id id c) calls -> m !! id = Some op -> Status op <> StatusRunning ->
  serve calls m !! id = Some op /\
  forall now ctx upd, (InMemory.handler now _ (UpdateTerminal ctx id upd) (serve calls m)).1 =
    Some ErrAlreadyTerminal.
Proof.
  intros Hcalls Hop Hst. assert (serve calls m !! id = Some op) as Hend.
  { revert m Hop. induction Hcalls as [|[now [X e]] calls Hputs _ IH]; intros m Hop; [done|].
    cbn [serve]. apply IH. destruct e as [ctx op'|ctx id'|ctx id' upd|ctx t|ctx]; simpl.
    - by rewrite lookup_insert_ne.
    - unfold InMemory.GetOperation. by destruct (m !! id').
    - unfold InMemory.UpdateTerminal. destruct (m !! id') as [op'|] eqn:Hop'; [|done].
      destruct (decide (Status op' ≠ StatusRunning)) as [|Hrun]; [done|]. simpl.
      destruct (decide (id' = id)) as [->|]; [|by rewrite lookup_insert_ne].
      rewrite Hop in Hop'. injection Hop' as <-. by destruct Hrun.
    - done.
    - done. }
  split; [done|]. intros now ctx upd. simpl. unfold InMemory.UpdateTerminal. rewrite Hend.
  by rewrite decide_True.
Qed.

(** ** The recording store *)

(** It is the in-memory store to whoever calls it. *)
Lemma Recording_transparent now X (e : storeE X) r :
  (Recording.handler now X e r).1 = (InMemory.handler now X e (Recording.inner r)).1 /\
  Recording.inner (Recording.handler now X e r).2 = (InMemory.handler now X e (Recording.inner r)).2.
Proof.
  destruct e; try done; cbn [Recording.handler]; by destruct (InMemory.handler _ _ _ _).
Qed.

(** What a program puts, in order. *)
Fixpoint puts_of {A} (now : Z) (p : prog storeE A) (m : opmap) : list Operation :=
  match p with
  | Vis e k =>
      let (x, m') := InMemory.handler now _ e m in
      (match e with PutOperation _ op => [op] | _ => [] end) ++ puts_of now (k x) m'
  | _ => []
  end.

(** Whatever program runs against it, the result and the rows are those of the
in-memory store, and the recorder returns the operations put, in order. *)
Theorem Recording_records {A} now (p : prog storeE A) r :
  let m := Recording.inner r in
  let (o, r') := run (Recording.handler now) p r in
  o = (run (InMemory.handler now) p m).1 /\
  Recording.inner r' = (run (InMemory.handler now) p m).2 /\
  (Recording.Recorder r').1 = Recording.puts r ++ puts_of now p m.
Proof.
  revert r. induction p as [a|st|X e k IH]; intros r; simpl; [by rewrite app_nil_r..|].
  destruct (Recording_transparent now X e r) as [Hx Hm].
  assert (Recording.puts (Recording.handler now X e r).2 =
    Recording.puts r ++ match e with PutOperation _ op => [op] | _ => [] end) as Hp.
  { destruct e; cbn [Recording.handler]; try destruct (InMemory.handler _ _ _ _);
      simpl; by rewrite ?app_nil_r. }
  destruct (Recording.handler now X e r) as [x r1]. simpl in *.
  destruct (InMemory.handler now X e (Recording.inner r)) as [x' m']. simpl in *. subst x' m'.
  specialize (IH x r1). destruct (run (Recording.handler now) (k x) r1) as [o r'].
  destruct IH as (Ho & Hi & Hl). split; [done|]. split; [done|]. rewrite Hl, Hp. by rewrite <- app_assoc.
Qed.
