(* ===== verification/Dynamo.v ===== *)
(** * The DynamoDB store

[internal/store/dynamo.go], over the three calls it makes ([dyE]).  Marshalling
([attributevalue]) and the service itself are third-party: the first two are
parameters, the service is described by what its documentation promises
([dy_env]). *)

From S2P Require Import Prelude GoStrings GoRuntime GoNet GoTime Effects Store.

Local Open Scope string_scope.
Local Open Scope list_scope.
Local Open Scope Z_scope.

(** ** Calls *)

(** A primary key: the operation id, and the sort key if it is given. *)
Record Key : Type := { k_operation_id : string; k_requested_at : option string }.

(** The values of the update expression; its condition is [#st = running]. *)
Record Update : Type := {
  u_status : string;
  u_event : string;
  u_at : string;
  u_error_code : string;
  u_error_message : string;
  u_completed_at : string;
}.

Inductive Filter : Type :=
  (** [#op = :op] *)
  | ByID (id : string)
  (** [#st = running AND requested_at < :t] *)
  | RunningBefore (t : string).

Section Calls.
Variable Item Cursor : Type.

Inductive dyE : Type -> Type :=
  | PutItem (ctx : Context) (item : Item) : dyE (option error)
  | UpdateItem (ctx : Context) (key : Key) (u : Update) : dyE (option error)
  (** a page of 100 evaluated items, and where to go on *)
  | Scan (ctx : Context) (filter : Filter) (start : option Cursor) :
      dyE (result error (list Item * option Cursor))
  (** one item, whatever it is *)
  | ScanOne (ctx : Context) : dyE (option error).

End Calls.
Arguments PutItem {Item Cursor} ctx item.
Arguments UpdateItem {Item Cursor} ctx key u.
Arguments Scan {Item Cursor} ctx filter start.
Arguments ScanOne {Item Cursor} ctx.

Section Dynamo.
Context {Item Cursor : Type}.
(** [attributevalue.MarshalMap] and [UnmarshalMap]. *)
Variable MarshalMap : Operation -> result error Item.
Variable UnmarshalMap : Item -> result error Operation.
(** [unicode.IsPrint] beyond ASCII. *)
Variable IsPrint : Z -> bool.

Local Abbreviation dprog := (prog (dyE Item Cursor)).

(** ** Operations *)

Definition PutOperation (ctx : Context) (op : Operation) : dprog (option error) :=
  match MarshalMap op with
  | Err err => mret (Some (ErrWrap "marshal: " err ""))
  | Ok av =>
      err ← call (PutItem ctx av);
      mret (match err with Some err => Some (ErrWrap "put: " err "") | None => None end)
  end.

(** The items of a page, after those found before it. *)
Fixpoint take_found (id : string) (items : list Item) (found : option Operation) :
    result error (option Operation) :=
  match items with
  | [] => Ok found
  | item :: items' =>
      match UnmarshalMap item with
      | Err err => Err (ErrWrap "unmarshal operation: " err "")
      | Ok op =>
          match found with
          | Some _ =>
              Err (ErrText ("scan by operation_id: duplicate operation_id " +:+ Quote IsPrint id))
          | None => take_found id items' (Some op)
          end
      end
  end.

(** The loop over pages. *)
Fixpoint find_pages (fuel : nat) (ctx : Context) (id : string) (start : option Cursor)
    (found : option Operation) : dprog (result error Operation) :=
  match fuel with
  | O => Halt OutOfFuel
  | S fuel' =>
      out ← call (Scan ctx (ByID id) start);
      match out with
      | Err err => mret (Err (ErrWrap "scan by operation_id: " err ""))
      | Ok (items, last) =>
          match take_found id items found with
          | Err err => mret (Err err)
          | Ok found' =>
              match last with
              | None => mret (match found' with Some op => Ok op | None => Err ErrNotFound end)
              | Some c => find_pages fuel' ctx id (Some c) found'
              end
          end
      end
  end.

Definition findOperation (fuel : nat) (ctx : Context) (id : string) :
    dprog (result error Operation) :=
  find_pages fuel ctx id None None.

Definition GetOperation (fuel : nat) (ctx : Context) (id : string) :
    dprog (result error Operation) :=
  findOperation fuel ctx id.

Definition updateKeysFor (op : Operation) : list Key :=
  let hashOnly := {| k_operation_id := OperationID op; k_requested_at := None |} in
  if time_IsZero (RequestedAt op) then [hashOnly]
  else [{| k_operation_id := OperationID op;
           k_requested_at := Some (Format_RFC3339Nano (RequestedAt op)) |}; hashOnly].

Definition isKeySchemaMismatch (err : error) : bool :=
  Contains (error_Error err) "ValidationException" &&
  Contains (error_Error err) "key element does not match the schema".

Definition update_of (upd : TerminalUpdate) : Update := {|
  u_status := Upd_Status upd; u_event := Upd_Event upd;
  u_at := Format_RFC3339Nano (Upd_CompletedAt upd);
  u_error_code := Upd_ErrorCode upd; u_error_message := Upd_ErrorMessage upd;
  u_completed_at := Format_RFC3339Nano (Upd_CompletedAt upd) |}.

(** One [UpdateItem] per key until one succeeds or fails for another reason than
the key schema; [lastErr] is what the last one failed with. *)
Fixpoint try_keys (ctx : Context) (keys : list Key) (u : Update) (lastErr : option error) :
    dprog (option error) :=
  match keys with
  | [] => mret lastErr
  | key :: keys' =>
      err ← call (UpdateItem ctx key u);
      match err with
      | None => mret None
      | Some err => if isKeySchemaMismatch err then try_keys ctx keys' u (Some err)
                    else mret (Some err)
      end
  end.

Definition update_error (err : error) : error :=
  if error_As err "ResourceNotFoundException" then ErrNotFound
  else if error_As err "ConditionalCheckFailedException" then ErrAlreadyTerminal
  else ErrWrap "update: " err "".

Definition UpdateTerminal (fuel : nat) (ctx : Context) (id : string) (upd : TerminalUpdate) :
    dprog (option error) :=
  r ← findOperation fuel ctx id;
  match r with
  | Err err => mret (Some err)
  | Ok op =>
      err ← try_keys ctx (updateKeysFor op) (update_of upd) None;
      mret (match err with Some err => Some (update_error err) | None => None end)
  end.

Fixpoint take_all (items : list Item) (ops : list Operation) : result error (list Operation) :=
  match items with
  | [] => Ok ops
  | item :: items' =>
      match UnmarshalMap item with
      | Err err => Err (ErrWrap "unmarshal scan item: " err "")
      | Ok op => take_all items' (ops ++ [op])
      end
  end.

Fixpoint list_pages (fuel : nat) (ctx : Context) (t : string) (start : option Cursor)
    (ops : list Operation) : dprog (result error (list Operation)) :=
  match fuel with
  | O => Halt OutOfFuel
  | S fuel' =>
      out ← call (Scan ctx (RunningBefore t) start);
      match out with
      | Err err => mret (Err (ErrWrap "scan: " err ""))
      | Ok (items, last) =>
          match take_all items ops with
          | Err err => mret (Err err)
          | Ok ops' =>
              match last with
              | None => mret (Ok ops')
              | Some c => list_pages fuel' ctx t (Some c) ops'
              end
          end
      end
  end.

Definition ListRunningPastDeadline (fuel : nat) (ctx : Context) (olderThan : Z) :
    dprog (result error (list Operation)) :=
  list_pages fuel ctx (Format_RFC3339Nano olderThan) None [].

Definition Ping (ctx : Context) : dprog (option error) := call (ScanOne ctx).

(** [dynamoStore] as a [Store]. *)
Definition dynamoStore (fuel : nat) X (e : storeE X) : dprog X :=
  match e in storeE X return dprog X with
  | Store.PutOperation ctx op => PutOperation ctx op
  | Store.GetOperation ctx id => GetOperation fuel ctx id
  | Store.UpdateTerminal ctx id upd => UpdateTerminal fuel ctx id upd
  | Store.ListRunningPastDeadline ctx t => ListRunningPastDeadline fuel ctx t
  | Store.Ping ctx => Ping ctx
  end.

End Dynamo.

(** The client the store calls; configuration and client are the SDK's. *)
Definition NewDynamo {AWSConfig Client : Type} (LoadDefaultConfig : result error AWSConfig)
    (NewFromConfig : AWSConfig -> Client) : result error Client :=
  match LoadDefaultConfig with
  | Err err => Err (ErrWrap "aws config: " err "")
  | Ok cfg => Ok (NewFromConfig cfg)
  end.

(** ** Pagination *)

Section Pages.
Context {Item : Type}.
Variable UnmarshalMap : Item -> result error Operation.
Variable IsPrint : Z -> bool.
(** The pages of the scan with filter [f]; a page may be empty though more follow. *)
Variable f : Filter.
Variable pages : list (list Item).

(** A service that serves these pages, its cursor being the number of the next one. *)
Definition paged : spec (dyE Item nat) unit :=
  {| spec_pre := fun X e _ =>
       match e with
       | Scan _ f' start => f' = f /\ (default 0%nat start < length pages)%nat
       | _ => False
       end;
     spec_post := fun X e _ =>
       match e in dyE _ _ X return X -> unit -> Prop with
       | Scan _ _ start => fun x _ =>
           let i := default 0%nat start in
           x = Ok (default [] (pages !! i),
                   if (S i <? length pages)%nat then Some (S i) else None)
       | _ => fun _ _ => True
       end |}.

Lemma take_found_decoded id items ops found :
  Forall2 (fun item op => UnmarshalMap item = Ok op) items ops ->
  take_found UnmarshalMap IsPrint id items found =
  match option_list found ++ ops with
  | [] => Ok None
  | [op] => Ok (Some op)
  | _ => match ops with
         | [] => Ok found
         | _ => Err (ErrText ("scan by operation_id: duplicate operation_id " +:+ Quote IsPrint id))
         end
  end.
Proof.
  intros Hall. revert found. induction Hall as [|item op items ops Hi Hall IH]; intros found.
  - by destruct found.
  - cbn [take_found]. rewrite Hi. destruct found as [op0|]; simpl; [by destruct ops|].
    rewrite IH. simpl. by destruct ops.
Qed.

Lemma take_all_decoded items ops acc :
  Forall2 (fun item op => UnmarshalMap item = Ok op) items ops ->
  take_all UnmarshalMap items acc = Ok (acc ++ ops).
Proof.
  intros Hall. revert acc. induction Hall as [|item op items ops Hi Hall IH]; intros acc; simpl.
  - by rewrite app_nil_r.
  - rewrite Hi, IH. by rewrite <- app_assoc.
Qed.

(** Every stored item can be read back. *)
Definition readable (ops : list (list Operation)) : Prop :=
  Forall2 (Forall2 (fun item op => UnmarshalMap item = Ok op)) pages ops.

(** What a lookup makes of the matching rows. *)
Definition lookup_answer (id : string) (ops : list Operation) : result error Operation :=
  match ops with
  | [] => Err ErrNotFound
  | [op] => Ok op
  | _ => Err (ErrText ("scan by operation_id: duplicate operation_id " +:+ Quote IsPrint id))
  end.

Lemma readable_page ops i :
  readable ops -> (i < length pages)%nat ->
  exists items page, pages !! i = Some items /\ ops !! i = Some page /\
    Forall2 (fun item op => UnmarshalMap item = Ok op) items page.
Proof.
  intros Hr Hi. destruct (lookup_lt_is_Some_2 pages i Hi) as [items Hitems].
  destruct (Forall2_lookup_l _ _ _ _ _ Hr Hitems) as (page & Hp & Hall). eauto.
Qed.

Lemma find_pages_all fuel ctx id ops i start found :
  f = ByID id -> readable ops -> (i < length pages)%nat -> (length pages - i <= fuel)%nat ->
  start = Some i \/ (start = None /\ i = 0%nat) ->
  wp paged (find_pages UnmarshalMap IsPrint fuel ctx id start found)
    (returning (fun r _ =>
       r = lookup_answer id (option_list found ++ concat (drop i ops)))) tt.
Proof.
  intros Hf Hr. revert i start found.
  induction fuel as [|fuel IH]; intros i start found Hi Hfuel Hstart; [lia|].
  assert (default 0%nat start = i) as Hd by (destruct Hstart as [-> |[-> ->]]; done).
  destruct (readable_page ops i Hr Hi) as (items & page & Hitems & Hpage & Hdec).
  cbn [find_pages]. cbv beta delta [mbind mret prog_bind prog_ret call]. cbn [bind wp].
  split; [cbn [paged spec_pre]; by rewrite Hd, Hf|].
  intros x [] Hx. cbn [paged spec_post] in Hx. rewrite Hd, Hitems in Hx.
  simpl in Hx. subst x. rewrite (take_found_decoded id items page found Hdec).
  rewrite (drop_S ops page i Hpage). cbn [concat].
  destruct (S i <? length pages)%nat eqn:Hmore.
  - apply Nat.ltb_lt in Hmore.
    destruct found as [op0|], page as [|op1 [|op2 page]]; cbn [option_list app];
      try (rewrite <- (app_nil_l (concat _)); apply (IH (S i) (Some (S i)) None); [lia|lia|by left]);
      try (apply (IH (S i) (Some (S i)) (Some _)); [lia|lia|by left]); done.
  - apply Nat.ltb_ge in Hmore. assert (drop (S i) ops = []) as ->.
    { apply drop_ge. apply Forall2_length in Hr. lia. }
    cbn [concat]. rewrite app_nil_r.
    destruct found as [op0|], page as [|op1 [|op2 page]]; cbn [option_list app]; done.
Qed.

Lemma list_pages_all fuel ctx t ops i start acc :
  f = RunningBefore t -> readable ops -> (i < length pages)%nat ->
  (length pages - i <= fuel)%nat -> start = Some i \/ (start = None /\ i = 0%nat) ->
  wp paged (list_pages UnmarshalMap fuel ctx t start acc)
    (returning (fun r _ => r = Ok (acc ++ concat (drop i ops)))) tt.
Proof.
  intros Hf Hr. revert i start acc.
  induction fuel as [|fuel IH]; intros i start acc Hi Hfuel Hstart; [lia|].
  assert (default 0%nat start = i) as Hd by (destruct Hstart as [-> |[-> ->]]; done).
  destruct (readable_page ops i Hr Hi) as (items & page & Hitems & Hpage & Hdec).
  cbn [list_pages]. cbv beta delta [mbind mret prog_bind prog_ret call]. cbn [bind wp].
  split; [cbn [paged spec_pre]; by rewrite Hd, Hf|].
  intros x [] Hx. cbn [paged spec_post] in Hx. rewrite Hd, Hitems in Hx.
  simpl in Hx. subst x. rewrite (take_all_decoded items page acc Hdec).
  rewrite (drop_S ops page i Hpage). cbn [concat]. rewrite app_assoc.
  destruct (S i <? length pages)%nat eqn:Hmore.
  - apply Nat.ltb_lt in Hmore. apply IH; [lia|lia|by left].
  - apply Nat.ltb_ge in Hmore. assert (drop (S i) ops = []) as ->.
    { apply drop_ge. apply Forall2_length in Hr. lia. }
    cbn [concat]. by rewrite app_nil_r.
Qed.

(** A lookup reads every page: it finds the one row with the id wherever it is,
reports an absent id only after the last page, and refuses an id stored twice.
Fuel for as many iterations as there are pages is enough. *)
Theorem findOperation_reads_all_pages fuel ctx id ops :
  f = ByID id -> readable ops -> (0 < length pages <= fuel)%nat ->
  wp paged (findOperation UnmarshalMap IsPrint fuel ctx id)
    (returning (fun r _ => r = lookup_answer id (concat ops))) tt.
Proof.
  intros Hf Hr Hfuel.
  refine (find_pages_all fuel ctx id ops 0 None None Hf Hr _ _ _); [lia|lia|by right].
Qed.

(** A sweep's scan misses no page: it lists the selected rows of all pages, in
order. *)
Theorem ListRunning_reads_all_pages fuel ctx olderThan ops :
  f = RunningBefore (Format_RFC3339Nano olderThan) -> readable ops ->
  (0 < length pages <= fuel)%nat ->
  wp paged (ListRunningPastDeadline UnmarshalMap fuel ctx olderThan)
    (returning (fun r _ => r = Ok (concat ops))) tt.
Proof.
  intros Hf Hr Hfuel.
  refine (list_pages_all fuel ctx _ ops 0 None [] Hf Hr _ _ _); [lia|lia|by right].
Qed.

End Pages.

(** ** Terminal writes *)

Section Writes.
Context {Item Cursor : Type}.
Variable UnmarshalMap : Item -> result error Operation.
Variable IsPrint : Z -> bool.

(** The conditional writes made, latest first, with their answers. *)
Definition writes : spec (dyE Item Cursor) (list (Key * Update * option error)) :=
  {| spec_pre := fun X e _ =>
       match e with Scan _ (ByID _) _ | UpdateItem _ _ _ => True | _ => False end;
     spec_post := fun X e l =>
       match e in dyE _ _ X return X -> list (Key * Update * option error) -> Prop with
       | UpdateItem _ key u => fun x l' => l' = (key, u, x) :: l
       | _ => fun _ l' => l' = l
       end |}.

(** The answers the keys get one after the other, and what is left of them: each
write but the last failed on the key schema. *)
Inductive tried (u : Update) : list Key -> option error -> list (Key * Update * option error) -> Prop :=
  | tried_last key keys x :
      (if x is Some err then keys = [] \/ isKeySchemaMismatch err = false else True) ->
      tried u (key :: keys) x [(key, u, x)]
  | tried_next key keys err x l :
      isKeySchemaMismatch err = true -> keys <> [] -> tried u keys x l ->
      tried u (key :: keys) x (l ++ [(key, u, Some err)]).

Lemma try_keys_wp ctx keys u lastErr l :
  keys <> [] ->
  wp writes (try_keys ctx keys u lastErr)
    (returning (fun x l' => exists made, tried u keys x made /\ l' = made ++ l)) l.
Proof.
  revert lastErr l. induction keys as [|key keys IH]; intros lastErr l Hne; [done|].
  cbn [try_keys]. cbv beta delta [mbind mret prog_bind prog_ret call]. cbn [bind wp].
  split; [exact I|]. intros x l' H. cbn in H. subst l'. destruct x as [err|].
  - destruct (isKeySchemaMismatch err) eqn:Hk.
    + destruct keys as [|key' keys].
      * exists [(key, u, Some err)]. split; [|done]. apply tried_last. by left.
      * eapply wp_mono; [|by apply IH]. intros [x|s] l'; [|done]. intros (made & Ht & ->).
        exists (made ++ [(key, u, Some err)]). split; [by apply tried_next|].
        by rewrite <- app_assoc.
    + exists [(key, u, Some err)]. split; [|done]. apply tried_last. by right.
  - exists [(key, u, None)]. split; [|done]. by apply tried_last.
Qed.

Lemma updateKeysFor_nonempty op : updateKeysFor op <> [].
Proof. unfold updateKeysFor. by destruct (time_IsZero _). Qed.

Lemma find_pages_writes fuel ctx id start found l :
  wp writes (find_pages UnmarshalMap IsPrint fuel ctx id start found)
    (fun o l' => l' = l /\ match o with Halted s => s = OutOfFuel | Done _ => True end) l.
Proof.
  revert start found. induction fuel as [|fuel IH]; intros start found; [done|].
  cbn [find_pages]. cbv beta delta [mbind mret prog_bind prog_ret call]. cbn [bind wp].
  split; [exact I|]. intros x l' H. cbn in H. subst l'. destruct x as [[items last]|err]; [|done].
  destruct (take_found _ _ _ _ _) as [found'|err]; [|done]. destruct last; [apply IH|done].
Qed.

(** [UpdateTerminal] writes under the key of the row it found: with the sort key
first, without it exactly if the service says the key does not fit the schema; it
stops at the first write that succeeds or fails otherwise; and the store's own
errors stand for exactly the service's "no such resource" and "condition failed". *)
Theorem UpdateTerminal_writes fuel ctx id upd l :
  wp writes (UpdateTerminal UnmarshalMap IsPrint fuel ctx id upd) (fun o l' =>
    match o with
    | Halted s => s = OutOfFuel /\ l' = l
    | Done x =>
        (exists err, x = Some err /\ l' = l) \/
        exists op answer made, tried (update_of upd) (updateKeysFor op) answer made /\
          l' = made ++ l /\ x = update_error <$> answer
    end) l.
Proof.
  unfold UpdateTerminal, findOperation. apply wp_bind.
  eapply wp_mono; [|apply find_pages_writes]. intros [r|s] l' [-> Hs]; [|by rewrite Hs].
  destruct r as [op|err]; [|left; by exists err].
  apply wp_bind. eapply wp_mono; [|apply try_keys_wp, updateKeysFor_nonempty].
  intros [x|s] l'; [|done]. intros (made & Ht & ->). right. exists op, x, made.
  split; [done|]. split; [done|]. by destruct x.
Qed.

End Writes.

(** ** Samples and witnesses *)

Definition sample_row (id : string) : Operation :=
  {| OperationID := id; Repository := ""; RepositoryID := ""; RepositoryOwner := ""; Actor := "";
     Workflow := ""; WorkflowRef := ""; RunID := ""; RunAttempt := ""; EventName := "";
     Action := ""; Namespace := ""; Deployment := ""; Op_Container := ""; Image := ""; NsDep := "";
     Status := StatusRunning; ErrorCode := ""; ErrorMessage := ""; RequestedAt := 0;
     CompletedAt := None; ExpiresAt := 0; Events := [] |}.

(** Items that are operations already; the row is on the third page. *)
Definition three_pages : list (list Operation) := [[]; []; [sample_row "op_1"]].

Lemma three_pages_readable : readable Ok three_pages three_pages.
Proof. repeat constructor. Qed.

Lemma findOperation_reads_all_pages_witness :
  wp (paged (ByID "op_1") three_pages) (findOperation Ok (fun _ => false) 3 Background "op_1")
    (returning (fun r _ => r = Ok (sample_row "op_1"))) tt.
Proof.
  apply (findOperation_reads_all_pages Ok (fun _ => false) (ByID "op_1") three_pages 3 Background
           "op_1" three_pages eq_refl three_pages_readable). simpl. lia.
Defined.

Lemma ListRunning_reads_all_pages_witness :
  wp (paged (RunningBefore (Format_RFC3339Nano 7)) three_pages)
    (ListRunningPastDeadline Ok 3 Background 7)
    (returning (fun r _ => r = Ok [sample_row "op_1"])) tt.
Proof.
  apply (ListRunning_reads_all_pages Ok (RunningBefore (Format_RFC3339Nano 7)) three_pages 3
           Background 7 three_pages eq_refl three_pages_readable). simpl. lia.
Defined.
