(* ===== verification/DynamoTable.v ===== *)
(** * The DynamoDB store and the contract

The service as a table that answers and fails the way its documentation says
([dy_env]): writes act on the table as it is, scans, which are eventually consistent, may
show of every item an earlier state, and other gateway processes and goroutines write
between any two calls.  Every method of the store, made of several calls, takes effect at
one instant as the store contract says, or answers as the contract does of a table the
service has had. *)

From stdpp Require Import relations.
From S2P Require Import Prelude GoStrings GoRuntime GoNet GoTime GoDates Effects Store Dynamo.

Local Open Scope string_scope.
Local Open Scope list_scope.
Local Open Scope Z_scope.

(** ** Items

What [attributevalue] and the service make of an item: the conversions, the three
string attributes the store's expressions mention, and the update expression of
[UpdateTerminal]. *)
Class DynamoItems (Item : Type) := {
  MarshalMap : Operation -> result error Item;
  UnmarshalMap : Item -> result error Operation;
  attr_operation_id : Item -> option string;
  attr_requested_at : Item -> option string;
  attr_status : Item -> option string;
  apply_update : Update -> Item -> Item;
  (** what an item can hold: text that is UTF-8, years of four digits *)
  storable : Operation -> Prop;
  storable_update : TerminalUpdate -> Prop;
}.

(** An item that stands for an operation. *)
Record encodes `{DynamoItems Item} (item : Item) (op : Operation) : Prop := {
  enc_unmarshal : UnmarshalMap item = Ok op;
  enc_id : attr_operation_id item = Some (OperationID op);
  enc_requested : attr_requested_at item = Some (Format_RFC3339Nano (RequestedAt op));
  enc_status : attr_status item = Some (Status op);
  enc_storable : storable op;
}.

(** Documented: items are read back as they were written, and an update sets the
named attributes and appends to the list. *)
Class DynamoItemLaws Item `{!DynamoItems Item} : Prop := {
  storable_in_range op : storable op -> in_range (RequestedAt op);
  marshal_encodes op : storable op -> exists item, MarshalMap op = Ok item /\ encodes item op;
  update_encodes item op upd : encodes item op -> storable_update upd ->
    encodes (apply_update (update_of upd) item) (terminated op upd (Upd_CompletedAt upd));
}.

Section Table.
Context `{DynamoItemLaws Item}.
(** [unicode.IsPrint] beyond ASCII. *)
Variable IsPrint : Z -> bool.
(** The table has a sort key, [requested_at]. *)
Variable has_sort : bool.
(** The place of an item in the order of a scan, given its key attributes. *)
Variable pos : option string -> option string -> nat.
Variable top : nat.
(** The ids this process has made and not yet stored: ULIDs are unique. *)
Variable mine : string -> Prop.

(** An operation id is stored once, so the id alone finds the item. *)
Abbreviation table := (gmap string Item) (only parsing).

Definition item_pos (item : Item) : nat := pos (attr_operation_id item) (attr_requested_at item).

Definition table_ok (t : table) : Prop :=
  map_Forall (fun id item => exists op, encodes item op /\ OperationID op = id) t.

(** The operations a table holds. *)
Definition rows (t : table) : gmap string Operation :=
  omap (fun item => match UnmarshalMap item with Ok op => Some op | Err _ => None end) t.

(** ** Other writers *)

Inductive other_step : table -> table -> Prop :=
  | other_put t op item :
      ~ mine (OperationID op) -> t !! OperationID op = None -> storable op ->
      MarshalMap op = Ok item -> other_step t (<[OperationID op := item]> t)
  | other_end t id item upd :
      t !! id = Some item -> attr_status item = Some StatusRunning -> storable_update upd ->
      other_step t (<[id := apply_update (update_of upd) item]> t).

(** What happens between two calls: the tables the service goes through. *)
Inductive others : table -> list table -> table -> Prop :=
  | others_none t : others t [] t
  | others_more t t1 ts t' : other_step t t1 -> others t1 ts t' -> others t (t1 :: ts) t'.

(** ** The service *)

Definition matches (f : Filter) (item : Item) : Prop :=
  match f with
  | ByID id => attr_operation_id item = Some id
  | RunningBefore txt => attr_status item = Some StatusRunning /\
      exists s, attr_requested_at item = Some s /\ String.ltb s txt = true
  end.

(** The matching items from place [lo] up to [hi] (to the end without it), in any
order. *)
Definition page (t : table) (f : Filter) (lo : nat) (hi : option nat) (items : list Item) : Prop :=
  exists l : list (string * Item), NoDup l.*1 /\ items = l.*2 /\
    forall id item, (id, item) ∈ l <->
      t !! id = Some item /\ matches f item /\
      (lo <= item_pos item)%nat /\ (if hi is Some c then item_pos item < c else True)%nat.

(** What an eventually consistent read sees, which is what a scan does unless asked
otherwise: of every item one of the states it has had, or that it is not there yet. *)
Definition view (hs : list table) (v : table) : Prop :=
  forall id, exists h, h ∈ hs /\ v !! id = h !! id.

(** The item a key designates, if the key fits the schema. *)
Definition fits (k : Key) : bool :=
  bool_decide (is_Some (k_requested_at k)) && has_sort ||
  bool_decide (k_requested_at k = None) && negb has_sort.

Definition at_key (t : table) (k : Key) (item : Item) : Prop :=
  t !! k_operation_id k = Some item /\
  (has_sort = true -> attr_requested_at item = k_requested_at k).

(** An error of the service that is none of the three the store tells apart. *)
Definition plain_error (err : error) : Prop :=
  other_error err /\ error_As err "ResourceNotFoundException" = false /\
  error_As err "ConditionalCheckFailedException" = false /\ isKeySchemaMismatch err = false.

Definition condition_failed (err : error) : Prop :=
  error_As err "ResourceNotFoundException" = false /\
  error_As err "ConditionalCheckFailedException" = true /\ isKeySchemaMismatch err = false.

(** A conditional write.  The SDK sends a request again when its response was lost,
so a write that took effect may be answered with a failed condition. *)
Inductive update_item (k : Key) (u : Update) (t : table) : option error -> table -> Prop :=
  | upd_mismatch err :
      fits k = false -> isKeySchemaMismatch err = true -> other_error err ->
      error_As err "ResourceNotFoundException" = false ->
      error_As err "ConditionalCheckFailedException" = false ->
      update_item k u t (Some err) t
  | upd_done item :
      fits k = true -> at_key t k item -> attr_status item = Some StatusRunning ->
      update_item k u t None (<[k_operation_id k := apply_update u item]> t)
  | upd_refused err :
      fits k = true -> condition_failed err ->
      (forall item, at_key t k item -> attr_status item <> Some StatusRunning) ->
      update_item k u t (Some err) t
  | upd_resent item err :
      fits k = true -> condition_failed err -> at_key t k item ->
      attr_status item = Some StatusRunning ->
      update_item k u t (Some err) (<[k_operation_id k := apply_update u item]> t)
  | upd_lost err :
      plain_error err -> update_item k u t (Some err) t
  | upd_lost_done item err :
      fits k = true -> plain_error err -> at_key t k item ->
      attr_status item = Some StatusRunning ->
      update_item k u t (Some err) (<[k_operation_id k := apply_update u item]> t).

(** The table; for every call made, latest first, the tables before and after; and every
table there has been that a read may still see. *)
Record DyState : Type := mkDy {
  tbl : table;
  past : list (table * table);
  hist : list table;
}.

Definition put_ok (t : table) (item : Item) : Prop :=
  exists op, encodes item op /\ mine (OperationID op) /\ t !! OperationID op = None.

(** A call: writes act on the table as it is, scans see what reads may still see. *)
Definition dy_call (hs : list table) X (e : dyE Item nat X) (t : table) : X -> table -> Prop :=
  match e in dyE _ _ X return X -> table -> Prop with
  | PutItem _ item => fun x t' =>
      forall op, encodes item op ->
      match x with
      | None => t' = <[OperationID op := item]> t
      | Some err => t' = t \/ t' = <[OperationID op := item]> t
      end
  | UpdateItem _ key u => update_item key u t
  | Scan _ f start => fun x t' => t' = t /\
      match x with
      | Err err => other_error err
      | Ok (items, last) =>
          (exists v, view hs v /\ page v f (default 0%nat start) last items) /\
          (if last is Some c then default 0%nat start < c /\ c <= top else True)%nat
      end
  | ScanOne _ => fun _ t' => t' = t
  end.

Definition dy_env : spec (dyE Item nat) DyState :=
  {| spec_pre := fun X e s =>
       match e with PutItem _ item => put_ok (tbl s) item | _ => True end;
     spec_post := fun X e s x s' => exists ts t, others (tbl s) ts t /\
       dy_call (ts ++ hist s) X e t x (tbl s') /\ past s' = (t, tbl s') :: past s /\
       hist s' = tbl s' :: ts ++ hist s |}.

(** ** Facts about tables *)

Lemma encodes_inj item op op' : encodes item op -> encodes item op' -> op = op'.
Proof. intros [H1 _ _ _ _] [H2 _ _ _ _]. congruence. Qed.

Lemma rows_lookup t id op :
  table_ok t -> rows t !! id = Some op <-> exists item, t !! id = Some item /\ encodes item op.
Proof.
  intros Hok. unfold rows. rewrite lookup_omap. split.
  - destruct (t !! id) as [item|] eqn:Hid; [|done]. simpl.
    destruct (Hok id item Hid) as (op' & He & _). rewrite (enc_unmarshal _ _ He).
    intros [= ->]. by exists item.
  - intros (item & -> & He). simpl. by rewrite (enc_unmarshal _ _ He).
Qed.

Lemma rows_None t id : table_ok t -> rows t !! id = None <-> t !! id = None.
Proof.
  intros Hok. unfold rows. rewrite lookup_omap. destruct (t !! id) as [item|] eqn:Hid; [|done].
  simpl. destruct (Hok id item Hid) as (op & He & _). by rewrite (enc_unmarshal _ _ He).
Qed.

Lemma rows_insert t id item op :
  encodes item op -> rows (<[id := item]> t) = <[id := op]> (rows t).
Proof.
  intros He. unfold rows. apply omap_insert_Some. by rewrite (enc_unmarshal _ _ He).
Qed.

Lemma table_ok_insert t item op :
  table_ok t -> encodes item op -> table_ok (<[OperationID op := item]> t).
Proof. intros Hok He. apply map_Forall_insert_2; [by exists op|done]. Qed.

(** A terminal update of an item, as a change of the operations held. *)
Lemma ended_row t id item upd :
  table_ok t -> t !! id = Some item -> attr_status item = Some StatusRunning ->
  storable_update upd ->
  let t' := <[id := apply_update (update_of upd) item]> t in
  table_ok t' /\ terminal_write (rows t) id upd (rows t').
Proof.
  intros Hok Hid Hst Hupd t'. destruct (Hok id item Hid) as (op & He & Hop).
  pose proof (update_encodes item op upd He Hupd) as He'. split.
  - subst id. by apply (table_ok_insert t _ (terminated op upd (Upd_CompletedAt upd))).
  - exists op, (Upd_CompletedAt upd). rewrite <- (rows_insert t _ _ _ He').
    split; [|split; [|done]]; [apply rows_lookup; eauto|].
    pose proof (enc_status _ _ He). congruence.
Qed.

(** [op'] is [op], possibly ended since. *)
Definition same_request (op op' : Operation) : Prop :=
  OperationID op' = OperationID op /\ RequestedAt op' = RequestedAt op.

(** Rows stay; their keys do not change. *)
Definition kept (t t' : table) : Prop :=
  forall id item op, t !! id = Some item -> encodes item op ->
    exists item' op', t' !! id = Some item' /\ encodes item' op' /\ same_request op op'.

Lemma kept_refl t : kept t t.
Proof. intros id item op Hid He. by exists item, op. Qed.

Lemma kept_trans t1 t2 t3 : kept t1 t2 -> kept t2 t3 -> kept t1 t3.
Proof.
  intros H12 H23 id item op Hid He. destruct (H12 id item op Hid He) as (i2 & o2 & H2 & E2 & S2).
  destruct (H23 id i2 o2 H2 E2) as (i3 & o3 & H3 & E3 & S3). exists i3, o3.
  destruct S2, S3. split; [done|]. split; [done|]. split; congruence.
Qed.

Lemma kept_end t id item upd :
  t !! id = Some item -> storable_update upd -> kept t (<[id := apply_update (update_of upd) item]> t).
Proof.
  intros Hid Hupd id' item' op Hid' He. destruct (decide (id = id')) as [<-|Hne].
  - simplify_eq. eexists _, _. rewrite lookup_insert_eq. split; [done|].
    split; [by apply update_encodes|done].
  - exists item', op. by rewrite lookup_insert_ne.
Qed.

Lemma kept_put t id item : t !! id = None -> kept t (<[id := item]> t).
Proof.
  intros Hid id' item' op Hid' He. exists item', op. rewrite lookup_insert_ne by congruence. done.
Qed.

Lemma other_step_kept t t' : table_ok t -> other_step t t' -> table_ok t' /\ kept t t'.
Proof.
  intros Hok Hstep. revert Hok.
  destruct Hstep as [t op item Hm Hid Hs Hi|t id item upd Hid Hst Hupd]; intros Hok.
  - destruct (marshal_encodes op Hs) as (item' & Hi' & He). rewrite Hi in Hi'. injection Hi' as <-.
    split; [by apply table_ok_insert|by apply kept_put].
  - split; [by apply ended_row|by apply kept_end].
Qed.

Lemma others_kept t ts t' : table_ok t -> others t ts t' ->
  table_ok t' /\ kept t t' /\ (t' ∈ ts \/ t' = t) /\ forall h, h ∈ ts -> table_ok h /\ kept h t'.
Proof.
  intros Hok. induction 1 as [t|t t1 ts t' Hstep _ IH].
  - split; [done|]. split; [apply kept_refl|]. split; [by right|]. by intros h ?%not_elem_of_nil.
  - destruct (other_step_kept t t1 Hok Hstep) as [Hok1 H1].
    destruct (IH Hok1) as (Hok' & Hk & Hin & Hall). split; [done|].
    split; [by eapply kept_trans|]. split.
    + left. destruct Hin as [?| ->]; [by right|by left].
    + intros h [->|Hh]%elem_of_cons; [done|by apply Hall].
Qed.

(** What reads may still see is the service's past. *)
Definition hist_ok (s : DyState) : Prop :=
  tbl s ∈ hist s /\ forall h, h ∈ hist s -> table_ok h /\ kept h (tbl s).

Lemma hist_table_ok s : hist_ok s -> table_ok (tbl s).
Proof. intros [Hin Hall]. by apply Hall. Qed.

(** The same before a call of what the call can see. *)
Lemma others_hist s ts t : hist_ok s -> others (tbl s) ts t ->
  table_ok t /\ kept (tbl s) t /\ t ∈ ts ++ hist s /\
  forall h, h ∈ ts ++ hist s -> table_ok h /\ kept h t.
Proof.
  intros Hs Ho. destruct (others_kept _ _ _ (hist_table_ok _ Hs) Ho) as (Hok & Hk & Hin & Hall).
  split; [done|]. split; [done|]. split.
  - apply elem_of_app. destruct Hin as [?| ->]; [by left|right; apply Hs].
  - intros h [Hh|Hh]%elem_of_app; [by apply Hall|]. destruct Hs as [_ Hs].
    destruct (Hs h Hh) as [? ?]. split; [done|]. by eapply kept_trans.
Qed.

(** A view is a table whose rows have been there. *)
Lemma view_kept hs v t :
  view hs v -> (forall h, h ∈ hs -> table_ok h /\ kept h t) -> table_ok v /\ kept v t.
Proof.
  intros Hv Hall. split.
  - intros id item Hid. destruct (Hv id) as (h & Hh & Heq). rewrite Heq in Hid.
    by apply (proj1 (Hall h Hh)).
  - intros id item op Hid He. destruct (Hv id) as (h & Hh & Heq). rewrite Heq in Hid.
    by apply (proj2 (Hall h Hh)) with (item := item).
Qed.

(** The place of a row does not change. *)
Lemma same_pos item item' op op' :
  encodes item op -> encodes item' op' -> same_request op op' -> item_pos item' = item_pos item.
Proof.
  intros [_ H1 H2 _ _] [_ H1' H2' _ _] [Hid Hreq]. unfold item_pos. congruence.
Qed.

(** ** A lookup among other writers *)

Definition unchanged (c : table * table) : Prop := c.2 = c.1.

Lemma other_error_wrap pre err post : other_error err -> other_error (ErrWrap pre err post).
Proof.
  unfold other_error. intros [H1 H2]. cbn [error_Is]. rewrite H1, H2.
  split; by rewrite orb_false_r; apply bool_decide_eq_false_2.
Qed.

Lemma other_error_text msg : other_error (ErrText msg).
Proof. by split. Qed.

Lemma page_by_id t id lo hi items :
  table_ok t -> page t (ByID id) lo hi items ->
  (exists item op, t !! id = Some item /\ encodes item op /\ items = [item] /\
     (lo <= item_pos item)%nat /\ (if hi is Some c then item_pos item < c else True)%nat) \/
  (items = [] /\ forall item, t !! id = Some item ->
     (item_pos item < lo)%nat \/ exists c, hi = Some c /\ (c <= item_pos item)%nat).
Proof.
  intros Hok (l & Hnd & -> & Hl).
  assert (forall id' item, (id', item) ∈ l -> id' = id) as Hsame.
  { intros id' item Hin. apply Hl in Hin as (Ht & Hm & _).
    destruct (Hok id' item Ht) as (op & He & <-). simpl in Hm.
    rewrite (enc_id _ _ He) in Hm. by injection Hm as <-. }
  destruct l as [|[id1 item1] [|[id2 item2] l]].
  - right. split; [done|]. intros item Ht. destruct (Hok id item Ht) as (op & He & Hid).
    pose proof (enc_id _ _ He) as Hi. rewrite Hid in Hi.
    destruct (Nat.lt_ge_cases (item_pos item) lo) as [?|Hlo]; [by left|right].
    destruct hi as [c|].
    + destruct (Nat.lt_ge_cases (item_pos item) c) as [Hc|Hc]; [|by exists c].
      exfalso. apply (not_elem_of_nil (id, item)). by apply Hl.
    + exfalso. apply (not_elem_of_nil (id, item)). by apply Hl.
  - left. assert (id1 = id) as -> by (eapply Hsame; by left).
    destruct (proj1 (Hl id item1)) as (Ht & _ & Hlo & Hhi); [by left|].
    destruct (Hok id item1 Ht) as (op & He & _). by exists item1, op.
  - exfalso. assert (id1 = id) as -> by (eapply Hsame; by left).
    assert (id2 = id) as -> by (eapply Hsame; right; by left).
    apply NoDup_cons in Hnd as [Hn _]. apply Hn. by left.
Qed.

(** The row of the id in [t] has the key of [op]. *)
Definition row_like (op : Operation) (t : table) (ok : nat -> Prop) : Prop :=
  exists item op', t !! OperationID op = Some item /\ encodes item op' /\
    same_request op op' /\ ok (item_pos item).

Lemma row_like_kept op t t' ok : kept t t' -> row_like op t ok -> row_like op t' ok.
Proof.
  intros Hk (item & op' & Ht & He & Hs & Hp). destruct (Hk _ _ _ Ht He) as (i2 & o2 & H2 & E2 & S2).
  exists i2, o2. rewrite (same_pos item i2 op' o2 He E2 S2). destruct Hs, S2.
  split; [done|]. split; [done|]. split; [|done]. split; congruence.
Qed.

(** [id] has a place in at most one page, whatever state of its row a read sees. *)
Lemma kept_pos h t id item item' :
  table_ok h -> table_ok t -> kept h t -> h !! id = Some item -> t !! id = Some item' ->
  item_pos item' = item_pos item.
Proof.
  intros Hh Ht Hk Hi Hi'. destruct (Hh _ _ Hi) as (op & He & _).
  destruct (Hk _ _ _ Hi He) as (i2 & o2 & H2 & E2 & S2). rewrite Hi' in H2. injection H2 as <-.
  by eapply same_pos.
Qed.

(** Scans were made, other writers came in between. *)
Record scanned (s s' : DyState) (l : list (table * table)) : Prop := {
  scan_past : past s' = l ++ past s;
  scan_unchanged : Forall unchanged l;
  scan_hist_ok : hist_ok s';
  scan_hist : hist s ⊆ hist s';
  scan_kept : kept (tbl s) (tbl s');
}.

Lemma scanned_refl s : hist_ok s -> scanned s s [].
Proof. intros Hs. split; [done..|apply kept_refl]. Qed.

Lemma scanned_app s1 s2 s3 l1 l2 :
  scanned s1 s2 l1 -> scanned s2 s3 l2 -> scanned s1 s3 (l2 ++ l1).
Proof.
  intros [P1 U1 O1 H1 K1] [P2 U2 O2 H2 K2]. split.
  - by rewrite P2, P1, <- app_assoc.
  - by apply Forall_app.
  - done.
  - by etrans.
  - by eapply kept_trans.
Qed.

(** One scan. *)
Lemma scan_one ctx f start x s s' :
  hist_ok s -> spec_post dy_env (Scan ctx f start) s x s' ->
  scanned s s' [(tbl s', tbl s')] /\
  match x with
  | Err err => other_error err
  | Ok (items, last) =>
      (exists v, view (hist s') v /\ table_ok v /\ kept v (tbl s') /\
         page v f (default 0%nat start) last items) /\
      (if last is Some c then default 0%nat start < c /\ c <= top else True)%nat
  end.
Proof.
  intros Hs (ts & t & Ho & [Ht Hx] & Hpast & Hhist). cbn in Ht, Hx. subst t.
  destruct (others_hist _ _ _ Hs Ho) as (Hok & Hk & Hin & Hall). split.
  - split; [done|by constructor| | |done].
    + unfold hist_ok. rewrite Hhist. split; [by left|].
      intros h [->|Hh]%elem_of_cons; [split; [done|apply kept_refl]|by apply Hall].
    + rewrite Hhist. intros h Hh. right. apply elem_of_app. by right.
  - destruct x as [[items last]|err]; [|done]. destruct Hx as [(v & Hv & Hp) Hlast].
    split; [|done]. exists v. destruct (view_kept _ _ _ Hv Hall) as [? ?]. split; [|done].
    intros id. destruct (Hv id) as (h & Hh & Heq). exists h. split; [|done]. rewrite Hhist. by right.
Qed.

(** What a lookup that starts at place [lo] answers. *)
Definition looked_up (id : string) (lo : nat) (found : option Operation) (s' : DyState)
    (r : result error Operation) : Prop :=
  match r with
  | Ok op => OperationID op = id /\ row_like op (tbl s') (fun _ => True) /\
      (found = Some op \/ exists h item, h ∈ hist s' /\ h !! id = Some item /\ encodes item op)
  | Err err => other_error err \/
      (err = ErrNotFound /\ found = None /\
       ((exists h, h ∈ hist s' /\ h !! id = None) \/
        exists item, tbl s' !! id = Some item /\ (item_pos item < lo)%nat))
  end.

Definition below (hi : option nat) (p : nat) : Prop :=
  if hi is Some c then (p < c)%nat else True.

(** One page of the lookup, of what is seen of the table [t]. *)
Lemma take_found_page v t id lo hi items found :
  table_ok v -> table_ok t -> kept v t -> page v (ByID id) lo hi items ->
  (forall p, (p < lo)%nat -> below hi p) ->
  (forall op, found = Some op -> OperationID op = id /\ row_like op t (fun p => p < lo)%nat) ->
  exists found', take_found UnmarshalMap IsPrint id items found = Ok found' /\
    (forall op, found' = Some op -> OperationID op = id /\ row_like op t (below hi) /\
       (found = Some op \/ exists item, v !! id = Some item /\ encodes item op)) /\
    (found' = None -> found = None /\ forall item, v !! id = Some item ->
       (item_pos item < lo)%nat \/ ~ below hi (item_pos item)).
Proof.
  intros Hv Hok Hk Hpage Hhi Hfound.
  destruct (page_by_id _ _ _ _ _ Hv Hpage) as [(item & op & Hrow & He & -> & Hlo & Hb)|[-> Hno]].
  - destruct (Hv _ _ Hrow) as (op2 & He2 & Hid). pose proof (encodes_inj _ _ _ He He2) as <-.
    destruct (Hk _ _ _ Hrow He) as (item' & op' & Hrow' & He' & Hs').
    pose proof (same_pos _ _ _ _ He He' Hs') as Hpos.
    assert (found = None) as ->.
    { destruct found as [op0|]; [|done]. exfalso.
      destruct (Hfound op0 eq_refl) as [Hid0 (i0 & o0 & H0 & _ & _ & Hp)].
      rewrite Hid0, Hrow' in H0. injection H0 as <-. cbv beta in Hp. lia. }
    exists (Some op). cbn [take_found]. rewrite (enc_unmarshal _ _ He). split; [done|].
    split; [|done]. intros op0 [= <-]. split; [done|]. split; [|right; by exists item].
    exists item', op'. rewrite Hid, Hpos. by destruct hi.
  - exists found. split; [done|]. split.
    + intros op ->. destruct (Hfound op eq_refl) as [Hid (item & op' & H1 & H2 & H3 & H4)].
      split; [done|]. split; [|by left]. exists item, op'. auto.
    + intros ->. split; [done|]. intros item Hrow.
      destruct (Hno item Hrow) as [?|(c & -> & Hc)]; [by left|right; simpl; lia].
Qed.

(** When no page has had the row up to [hi], nor the rest of the scan has. *)
Lemma not_found_before s s' v id lo hi :
  hist_ok s' -> view (hist s) v -> hist s ⊆ hist s' ->
  (forall item, v !! id = Some item -> (item_pos item < lo)%nat \/ ~ below hi (item_pos item)) ->
  (exists item, tbl s' !! id = Some item /\ below hi (item_pos item)) ->
  (exists h, h ∈ hist s' /\ h !! id = None) \/
  exists item, tbl s' !! id = Some item /\ (item_pos item < lo)%nat.
Proof.
  intros Hs' Hv Hsub Hno (item & Hrow & Hb). destruct (Hv id) as (h & Hh & Heq).
  destruct (h !! id) as [item1|] eqn:Hi; [|left; exists h; auto]. right. exists item.
  split; [done|]. destruct (proj2 Hs' h (Hsub _ Hh)) as [Hok Hk].
  pose proof (kept_pos _ _ _ _ _ Hok (hist_table_ok _ Hs') Hk Hi Hrow) as Hpos.
  rewrite Hpos in *. by destruct (Hno item1 Heq).
Qed.

Lemma find_pages_table fuel ctx id start found s :
  hist_ok s -> (default 0 start <= top < default 0 start + fuel)%nat ->
  (forall op, found = Some op -> OperationID op = id /\
     row_like op (tbl s) (fun p => p < default 0 start)%nat) ->
  wp dy_env (find_pages UnmarshalMap IsPrint fuel ctx id start found)
    (returning (fun r s' => (exists l, scanned s s' l) /\
       looked_up id (default 0%nat start) found s' r)) s.
Proof.
  revert start found s. induction fuel as [|fuel IH]; intros start found s Hs Hfuel Hfound; [lia|].
  cbn [find_pages]. cbv beta delta [mbind mret prog_bind prog_ret call]. cbn [bind wp].
  split; [exact I|]. intros x s1 Hx. destruct (scan_one _ _ _ _ _ _ Hs Hx) as [Hscan Hres].
  destruct x as [[items last]|err].
  2: { split; [by eexists|]. left. by apply other_error_wrap. }
  destruct Hres as [(v & Hv & Hvok & Hvk & Hpage) Hlast].
  pose proof (scan_hist_ok _ _ _ Hscan) as Hs1.
  destruct (take_found_page _ _ _ _ _ _ found Hvok (hist_table_ok _ Hs1) Hvk Hpage)
    as (found' & -> & Hsome & Hnone).
  { intros p Hp. destruct last; simpl; [lia|done]. }
  { intros op Hop. destruct (Hfound op Hop) as [Hid Hrow]. split; [done|].
    eapply row_like_kept, Hrow. apply (scan_kept _ _ _ Hscan). }
  assert (forall op, found' = Some op -> found = Some op \/
            exists h item, h ∈ hist s1 /\ h !! id = Some item /\ encodes item op) as Hfrom.
  { intros op Hop. destruct (Hsome op Hop) as (_ & _ & [?|(item & Hi & He)]); [by left|right].
    destruct (Hv id) as (h & Hh & Heq). exists h, item. by rewrite <- Heq. }
  destruct last as [c|].
  - eapply wp_mono; [|apply (IH (Some c) found' s1 Hs1); [simpl in *; lia|]].
    2: { intros op Hop. destruct (Hsome op Hop) as (Hid & Hrow & _). done. }
    intros [r|]; [|done]. intros s2 [(l & Hscan2) Hr]. split.
    { eexists. by eapply scanned_app. }
    pose proof (scan_hist _ _ _ Hscan2) as Hsub.
    destruct r as [op|err]; simpl in *.
    + destruct Hr as (Hid & Hrow & Hop). split; [done|]. split; [done|].
      destruct Hop as [Hop|?]; [|by right].
      destruct (Hfrom op Hop) as [?|(h & item & Hh & ?)]; [by left|right]. exists h, item. auto.
    + destruct Hr as [?|(-> & Hf & Hno)]; [by left|right]. destruct (Hnone Hf) as [-> Hpos].
      split; [done|]. split; [done|]. destruct Hno as [?|Hno]; [by left|].
      eapply (not_found_before s1 s2 v id _ (Some c)); try done. apply (scan_hist_ok _ _ _ Hscan2).
  - split; [by eexists|]. destruct found' as [op|]; simpl.
    + destruct (Hsome op eq_refl) as (Hid & (item & op' & ? & ? & ? & _) & _). split; [done|].
      split; [by exists item, op'|by apply Hfrom].
    + right. destruct (Hnone eq_refl) as [-> Hpos]. split; [done|]. split; [done|].
      destruct (tbl s1 !! id) as [item|] eqn:Hrow.
      * rewrite <- Hrow. eapply (not_found_before s1 s1 v id _ None); try done. by exists item.
      * left. exists (tbl s1). split; [apply Hs1|done].
Qed.

(** ** The conditional write *)

(** A key made for the row of [op]. *)
Definition key_for (op : Operation) (k : Key) : Prop :=
  k_operation_id k = OperationID op /\
  forall txt, k_requested_at k = Some txt -> txt = Format_RFC3339Nano (RequestedAt op).

Lemma updateKeysFor_keys op : Forall (key_for op) (updateKeysFor op).
Proof.
  clear. unfold updateKeysFor. destruct (time_IsZero _); repeat constructor; naive_solver.
Qed.

(** A key that fits designates the row it was made for. *)
Lemma key_for_row op k t item op' :
  key_for op k -> fits k = true -> t !! OperationID op = Some item -> encodes item op' ->
  same_request op op' -> at_key t k item.
Proof.
  intros [Hid Htxt] Hfits Ht He [_ Hreq]. unfold at_key. rewrite Hid. split; [done|].
  intros Hs. unfold fits in Hfits. rewrite Hs, andb_true_r, andb_false_r, orb_false_r in Hfits.
  apply bool_decide_eq_true in Hfits as [txt Hk]. rewrite Hk, (Htxt txt Hk).
  rewrite (enc_requested _ _ He). congruence.
Qed.

Definition no_place (p : nat) : Prop := True.

(** One conditional write: the key does not fit, or the contract is kept. *)
Lemma update_item_outcome ctx k upd op t x t' :
  table_ok t -> row_like op t no_place -> storable_update upd -> key_for op k ->
  update_item k (update_of upd) t x t' ->
  table_ok t' /\ row_like op t' no_place /\
  ((exists err, x = Some err /\ isKeySchemaMismatch err = true /\ t' = t /\
      other_error (update_error err)) \/
   ((forall err, x = Some err -> isKeySchemaMismatch err = false) /\
    store_post _ (Store.UpdateTerminal ctx (OperationID op) upd) (rows t) (update_error <$> x)
      (rows t'))).
Proof.
  intros Hok Hrow Hupd Hkey Hcall.
  assert (forall item, at_key t k item -> attr_status item = Some StatusRunning ->
    let t2 := <[k_operation_id k := apply_update (update_of upd) item]> t in
    table_ok t2 /\ row_like op t2 no_place /\
    terminal_write (rows t) (OperationID op) upd (rows t2)) as Hdone.
  { intros item [Hat _] Hst. destruct Hkey as [Hid _]. rewrite Hid in *.
    destruct (ended_row _ _ _ _ Hok Hat Hst Hupd) as [H1 H2].
    split; [done|]. split; [|done]. eapply row_like_kept; [by apply kept_end|done]. }
  destruct Hcall as [err Hf Hk Ho H1 H2|item Hf Hat Hst|err Hf [H1 [H2 H3]] Hno
                    |item err Hf [H1 [H2 H3]] Hat Hst|err [Ho [H1 [H2 H3]]]
                    |item err Hf [Ho [H1 [H2 H3]]] Hat Hst].
  - split; [done|]. split; [done|]. left. exists err. do 3 (split; [done|]).
    unfold update_error. rewrite H1, H2. by apply other_error_wrap.
  - destruct (Hdone item Hat Hst) as (? & ? & ?). split; [done|]. split; [done|]. by right.
  - split; [done|]. split; [done|]. right. split; [by intros ? [= <-]|]. simpl.
    unfold update_error. rewrite H1, H2. right. left. split; [done|]. left. split; [done|].
    intros op' Hop'. apply (rows_lookup t _ _ Hok) in Hop' as (item & Hi & He).
    destruct Hrow as (i & o & Hi2 & He2 & Hs2 & _). rewrite Hi in Hi2. injection Hi2 as <-.
    intros Hrun. apply (Hno item).
    + by apply (key_for_row op k t item o).
    + rewrite (enc_status _ _ He). congruence.
  - destruct (Hdone item Hat Hst) as (? & ? & ?). split; [done|]. split; [done|]. right.
    split; [by intros ? [= <-]|]. simpl. unfold update_error. rewrite H1, H2.
    right. left. split; [done|]. by right.
  - split; [done|]. split; [done|]. right. split; [by intros ? [= <-]|]. simpl.
    unfold update_error. rewrite H1, H2. right. right.
    split; [by apply other_error_wrap|by left].
  - destruct (Hdone item Hat Hst) as (? & ? & ?). split; [done|]. split; [done|]. right.
    split; [by intros ? [= <-]|]. simpl. unfold update_error. rewrite H1, H2. right. right.
    split; [by apply other_error_wrap|by right].
Qed.

(** The calls made, one of them a write that keeps the contract for [op]. *)
Definition written ctx (op : Operation) (upd : TerminalUpdate) (s s' : DyState)
    (l : list (table * table)) (x : option error) : Prop :=
  past s' = l ++ past s /\ hist s ⊆ hist s' /\
  ((Forall unchanged l /\ exists err, x = Some err /\ other_error (update_error err)) \/
   exists t t' l2, l = (t, t') :: l2 /\ Forall unchanged l2 /\
     store_post _ (Store.UpdateTerminal ctx (OperationID op) upd) (rows t)
       (update_error <$> x) (rows t')).

Lemma written_after ctx op upd s1 s2 s3 l c x :
  past s2 = c :: past s1 -> unchanged c -> hist s1 ⊆ hist s2 ->
  written ctx op upd s2 s3 l x -> written ctx op upd s1 s3 (l ++ [c]) x.
Proof.
  intros Hp Hc Hh (Hp' & Hh' & Hl). split; [by rewrite Hp', Hp, <- app_assoc|].
  split; [by etrans|]. destruct Hl as [[Hl Hx]|(t & t' & l2 & -> & Hl & Hpost)]; [left|right].
  - split; [|done]. apply Forall_app. split; [done|by constructor].
  - exists t, t', (l2 ++ [c]). split; [done|]. split; [|done].
    apply Forall_app. split; [done|by constructor].
Qed.

Lemma try_keys_table ctx op upd keys lastErr s :
  table_ok (tbl s) -> row_like op (tbl s) no_place -> storable_update upd ->
  Forall (key_for op) keys ->
  (keys = [] -> exists err, lastErr = Some err /\ other_error (update_error err)) ->
  wp dy_env (try_keys ctx keys (update_of upd) lastErr)
    (returning (fun x s' => exists l, written ctx op upd s s' l x)) s.
Proof.
  intros Hok Hrow Hupd Hkeys. revert lastErr s Hok Hrow.
  induction Hkeys as [|key keys Hkey Hkeys IH]; intros lastErr s Hok Hrow Hlast.
  - destruct (Hlast eq_refl) as (err & -> & Herr). exists []. split; [done|]. split; [done|].
    left. split; [done|]. by exists err.
  - cbn [try_keys]. cbv beta delta [mbind mret prog_bind prog_ret call]. cbn [bind wp].
    split; [exact I|]. intros x s1 (ts & t & Ho & Hcall & Hpast & Hhist). cbn [dy_call] in Hcall.
    destruct (others_kept _ _ _ Hok Ho) as (Hok1 & Hk1 & _).
    pose proof (row_like_kept _ _ _ _ Hk1 Hrow) as Hrow1.
    assert (hist s ⊆ hist s1) as Hsub.
    { rewrite Hhist. intros h Hh. right. apply elem_of_app. by right. }
    destruct (update_item_outcome ctx _ _ _ _ _ _ Hok1 Hrow1 Hupd Hkey Hcall)
      as (Hok2 & Hrow2 & [(err & -> & Hk & Ht & Herr)|[Hk Hpost]]).
    + rewrite Hk. eapply wp_mono; [|apply (IH (Some err) s1 Hok2 Hrow2); by exists err].
      intros [x|]; [|done]. intros s2 (l & Hl). eexists. by eapply written_after.
    + assert (written ctx op upd s s1 [(t, tbl s1)] x) as Hl.
      { split; [done|]. split; [done|]. right. by exists t, (tbl s1), []. }
      destruct x as [err|]; [rewrite (Hk err eq_refl)|]; by eexists.
Qed.

(** ** The sweep's scan *)

(** The operations a scan from [lo] to [hi] selects. *)
Definition in_scan (t : table) (txt : string) (lo : nat) (hi : option nat) (op : Operation) : Prop :=
  exists item, t !! OperationID op = Some item /\ encodes item op /\
    matches (RunningBefore txt) item /\ (lo <= item_pos item)%nat /\ below hi (item_pos item).

Lemma take_all_page t txt lo hi items acc :
  table_ok t -> page t (RunningBefore txt) lo hi items ->
  exists ops, take_all UnmarshalMap items acc = Ok (acc ++ ops) /\
    NoDup (OperationID <$> ops) /\ forall op, op ∈ ops <-> in_scan t txt lo hi op.
Proof.
  intros Hok (l & Hnd & -> & Hl).
  assert (exists ops, Forall2 (fun p op => encodes p.2 op /\ OperationID op = p.1) l ops) as [ops Hops].
  { apply Forall_exists_Forall2_l, Forall_forall. intros [id item] Hin.
    apply Hl in Hin as [Ht _]. exact (Hok id item Ht). }
  exists ops. split; [|split].
  - apply take_all_decoded. clear -Hops. induction Hops as [|p op l ops [He _] _ IH]; constructor; [|done].
    apply He.
  - assert (OperationID <$> ops = l.*1) as ->; [|done]. clear -Hops.
    induction Hops as [|p op l ops [_ He] _ IH]; [done|]. cbn. by rewrite He, IH.
  - intros op. split.
    + intros Hin. apply list_elem_of_lookup in Hin as [i Hi].
      destruct (Forall2_lookup_r _ _ _ _ _ Hops Hi) as ([id item] & Hp & He & Hid). simpl in *.
      apply list_elem_of_lookup_2, Hl in Hp as (Ht & Hm & Hlo & Hhi). exists item. by subst id.
    + intros (item & Ht & He & Hm & Hlo & Hhi).
      assert ((OperationID op, item) ∈ l) as Hin by by apply Hl.
      apply list_elem_of_lookup in Hin as [i Hi].
      destruct (Forall2_lookup_l _ _ _ _ _ Hops Hi) as (op' & Hp & He' & _). simpl in *.
        rewrite (encodes_inj _ _ _ He He'). by eapply list_elem_of_lookup_2.
Qed.

Lemma in_scan_view hs v txt lo hi op :
  view hs v -> in_scan v txt lo hi op -> exists h, h ∈ hs /\ in_scan h txt lo hi op.
Proof.
  intros Hv (item & Hi & Hin). destruct (Hv (OperationID op)) as (h & Hh & Heq).
  exists h. split; [done|]. exists item. by rewrite <- Heq.
Qed.

(** The place of a row is the same in all that reads see. *)
Lemma same_place s h h' id item item' :
  hist_ok s -> h ∈ hist s -> h' ∈ hist s -> h !! id = Some item -> h' !! id = Some item' ->
  item_pos item' = item_pos item.
Proof.
  intros Hs Hh Hh' Hi Hi'. destruct Hs as [Ht Hall].
  destruct (Hall h Hh) as [Hok Hk], (Hall h' Hh') as [Hok' Hk'], (Hall _ Ht) as [Hokt _].
  destruct (Hok _ _ Hi) as (op & He & _). destruct (Hk _ _ _ Hi He) as (it & ot & H1 & _ & _).
  by rewrite <- (kept_pos _ _ _ _ _ Hok Hokt Hk Hi H1), <- (kept_pos _ _ _ _ _ Hok' Hokt Hk' Hi' H1).
Qed.

(** What a scan from [lo] lists, by what its reads may see: each id at most once, each row
as it has been, and every id whose row is selected in whatever state. *)
Record listed (hs : list table) (txt : string) (lo : nat) (ops : list Operation) : Prop := {
  listed_once : NoDup (OperationID <$> ops);
  listed_seen : forall op, op ∈ ops -> exists h, h ∈ hs /\ in_scan h txt lo None op;
  listed_all : forall id, (forall h, h ∈ hs -> exists op, OperationID op = id /\
                  in_scan h txt lo None op) -> exists op, op ∈ ops /\ OperationID op = id;
}.

Lemma in_scan_lower t txt lo c op : (lo <= c)%nat -> in_scan t txt c None op -> in_scan t txt lo None op.
Proof. intros Hlo (i & Ht & He & Hm & Hb & _). exists i. do 3 (split; [done|]). by split; [lia|]. Qed.

Lemma in_scan_all t txt lo hi op : in_scan t txt lo hi op -> in_scan t txt lo None op.
Proof. intros (i & Ht & He & Hm & Hb & _). exists i. by do 4 (split; [done|]). Qed.

(** A scan up to [c] and one from there are a scan of all. *)
Lemma listed_app s v hs1 txt lo c ops rest :
  hist_ok s -> view hs1 v -> hs1 ⊆ hist s -> (lo <= c)%nat ->
  NoDup (OperationID <$> ops) -> (forall op, op ∈ ops <-> in_scan v txt lo (Some c) op) ->
  listed (hist s) txt c rest -> listed (hist s) txt lo (ops ++ rest).
Proof.
  intros Hs Hv Hsub Hlo Hnd Hin [Hnd2 Hin2 Hall2]. split.
  - rewrite fmap_app. apply NoDup_app. split; [done|]. split; [|done].
    intros id H1 H2. apply list_elem_of_fmap in H1 as (op1 & -> & H1), H2 as (op2 & Hid & H2).
    apply Hin in H1. destruct (in_scan_view _ _ _ _ _ _ Hv H1) as (h1 & Hh1 & i1 & Ht1 & _ & _ & _ & Hb1).
    destruct (Hin2 _ H2) as (h2 & Hh2 & i2 & Ht2 & _ & _ & Hb2 & _). rewrite <- Hid in Ht2.
    pose proof (same_place s h1 h2 _ _ _ Hs (Hsub _ Hh1) Hh2 Ht1 Ht2). simpl in Hb1. lia.
  - intros op [Hop|Hop]%elem_of_app.
    + apply Hin, in_scan_all in Hop. destruct (in_scan_view _ _ _ _ _ _ Hv Hop) as (h & Hh & Hscan).
      exists h. auto.
    + destruct (Hin2 op Hop) as (h & Hh & Hscan). exists h. split; [done|]. by eapply in_scan_lower.
  - intros id Hid. destruct (Hv id) as (h & Hh & Heq).
    destruct (Hid h (Hsub _ Hh)) as (op & Ho & item & Ht & He & Hm & Hb & _). rewrite Ho in Ht.
    destruct (Nat.lt_ge_cases (item_pos item) c) as [Hc|Hc].
    + exists op. split; [|done]. apply elem_of_app. left. apply Hin. exists item.
      rewrite Ho, Heq. by do 3 (split; [done|]).
    + destruct (Hall2 id) as (op2 & Hop2 & Ho2).
      { intros h2 Hh2. destruct (Hid h2 Hh2) as (op2 & Ho2 & i2 & Ht2 & He2 & Hm2 & _).
        exists op2. split; [done|]. exists i2. do 3 (split; [done|]). rewrite Ho2 in Ht2.
        rewrite (same_place s h h2 _ _ _ Hs (Hsub _ Hh) Hh2 Ht Ht2). by split. }
      exists op2. split; [|done]. apply elem_of_app. by right.
Qed.

Lemma listed_page s v txt lo ops :
  view (hist s) v -> NoDup (OperationID <$> ops) ->
  (forall op, op ∈ ops <-> in_scan v txt lo None op) -> listed (hist s) txt lo ops.
Proof.
  intros Hv Hnd Hin. split; [done| |].
  - intros op Hop. apply Hin in Hop. by eapply in_scan_view.
  - intros id Hid. destruct (Hv id) as (h & Hh & Heq). destruct (Hid h Hh) as (op & Ho & item & Ht & Hrest).
    exists op. split; [|done]. apply Hin. exists item. rewrite Ho, Heq. by rewrite Ho in Ht.
Qed.

Lemma list_pages_table fuel ctx txt start acc s :
  hist_ok s -> (default 0 start <= top < default 0 start + fuel)%nat ->
  wp dy_env (list_pages UnmarshalMap fuel ctx txt start acc)
    (returning (fun r s' => (exists l, scanned s s' l) /\
       match r with
       | Err _ => True
       | Ok res => exists rest, res = acc ++ rest /\
           listed (hist s') txt (default 0%nat start) rest
       end)) s.
Proof.
  revert start acc s. induction fuel as [|fuel IH]; intros start acc s Hs Hfuel; [lia|].
  cbn [list_pages]. cbv beta delta [mbind mret prog_bind prog_ret call]. cbn [bind wp].
  split; [exact I|]. intros x s1 Hx. destruct (scan_one _ _ _ _ _ _ Hs Hx) as [Hscan Hres].
  destruct x as [[items last]|err]; [|split; [by eexists|done]].
  destruct Hres as [(v & Hv & Hvok & _ & Hpage) Hlast].
  destruct (take_all_page _ _ _ _ _ acc Hvok Hpage) as (ops & -> & Hnd & Hin).
  destruct last as [c|].
  - eapply wp_mono; [|apply (IH (Some c) (acc ++ ops) s1 (scan_hist_ok _ _ _ Hscan)); simpl in *; lia].
    intros [r|]; [|done]. intros s2 [(l & Hscan2) Hr]. split; [eexists; by eapply scanned_app|].
    destruct r as [res|err]; [|done]. destruct Hr as (rest & -> & Hrest). exists (ops ++ rest).
    rewrite <- app_assoc. split; [done|]. destruct Hscan2 as [_ _ Hs2 Hsub _].
    eapply (listed_app s2 v (hist s1) _ _ c); try done. simpl in *. lia.
  - split; [by eexists|]. exists ops. split; [done|]. by eapply listed_page.
Qed.

(** ** The store *)

(** What the contract says of reads that may see the tables [hs]: a lookup answers as of
one of them; a list has each row as of one of them, and the rows to be listed in all. *)
Definition reads (hs : list table) X (e : storeE X) : X -> Prop :=
  match e in storeE X return X -> Prop with
  | Store.ListRunningPastDeadline _ olderThan => fun x =>
      match x with
      | Err _ => True
      | Ok l =>
          NoDup (OperationID <$> l) /\
          (forall op, op ∈ l -> exists h, h ∈ hs /\ rows h !! OperationID op = Some op /\
             maybe_past olderThan op) /\
          (forall id, (forall h, h ∈ hs -> exists op, rows h !! id = Some op /\
             surely_past olderThan op) -> exists op, op ∈ l /\ OperationID op = id)
      end
  | e => fun x => exists h, h ∈ hs /\ store_post _ e (rows h) x (rows h)
  end.

(** The calls made took effect together: they changed nothing and the answer is that of
reads, or one of the calls is the whole effect and the answer, at one instant. *)
Definition linearizes X (e : storeE X) (s : DyState) (x : X) (s' : DyState) : Prop :=
  hist s ⊆ hist s' /\ exists l, past s' = l ++ past s /\
    ((Forall unchanged l /\ reads (hist s') X e x) \/
     exists l1 t t' l2, l = l1 ++ (t, t') :: l2 /\ Forall unchanged l1 /\ Forall unchanged l2 /\
       store_post X e (rows t) x (rows t')).

(** When a method may be called: a new operation has an id of this process that is
not in the table yet, and what is written can be stored. *)
Definition admissible X (e : storeE X) (t : table) : Prop :=
  match e with
  | Store.PutOperation _ op => storable op /\ mine (OperationID op) /\ t !! OperationID op = None
  | Store.UpdateTerminal _ _ upd => storable_update upd
  | Store.ListRunningPastDeadline _ olderThan => in_range olderThan
  | _ => True
  end.

Lemma GetOperation_linearizes fuel ctx id s :
  hist_ok s -> (top < fuel)%nat ->
  wp dy_env (GetOperation UnmarshalMap IsPrint fuel ctx id)
    (returning (linearizes _ (Store.GetOperation ctx id) s)) s.
Proof.
  intros Hs Hfuel. eapply wp_mono;
    [|apply (find_pages_table fuel ctx id None None s Hs); [simpl; lia|done]].
  intros [r|]; [|done]. intros s' [(l & [Hp Hall Hs' Hsub _]) Hr]. split; [done|]. exists l.
  split; [done|]. left. split; [done|]. simpl. destruct r as [op|err]; simpl in Hr.
  - destruct Hr as (_ & _ & [?|(h & item & Hh & Hi & He)]); [done|]. exists h. split; [done|].
    split; [done|]. apply rows_lookup; [by apply (proj2 Hs')|by exists item].
  - destruct Hr as [?|(-> & _ & [(h & Hh & Hi)|(item & _ & ?)])]; [|..|simpl in *; lia].
    + exists (tbl s'). split; [apply Hs'|]. split; [done|by right].
    + exists h. split; [done|]. split; [done|]. left. split; [apply error_Is_refl|].
      apply rows_None; [by apply (proj2 Hs')|done].
Qed.

Lemma UpdateTerminal_linearizes fuel ctx id upd s :
  hist_ok s -> (top < fuel)%nat -> storable_update upd ->
  wp dy_env (UpdateTerminal UnmarshalMap IsPrint fuel ctx id upd)
    (returning (linearizes _ (Store.UpdateTerminal ctx id upd) s)) s.
Proof.
  intros Hs Hfuel Hupd. unfold UpdateTerminal, findOperation.
  eapply wp_seq; [apply (find_pages_table fuel ctx id None None s Hs); [simpl; lia|done]|].
  intros r s1 [(l & [Hp Hall Hs1 Hsub _]) Hr]. destruct r as [op|err]; simpl in Hr.
  - destruct Hr as (<- & Hrow & _).
    eapply wp_seq; [apply (try_keys_table ctx op upd _ None s1 (hist_table_ok _ Hs1) Hrow Hupd)|].
    + apply updateKeysFor_keys.
    + intros Hnil. by destruct (updateKeysFor_nonempty op).
    + intros x s2 (l' & Hp' & Hsub' & Hl'). split; [by etrans|]. exists (l' ++ l).
      rewrite Hp', Hp, <- app_assoc.
      split; [done|]. destruct Hl' as [[Hl' (err & -> & Herr)]|(t & t' & l2 & -> & Hl2 & Hpost)].
      * left. split; [by apply Forall_app|]. exists (tbl s1). split; [apply Hsub', Hs1|].
        right. right. split; [done|by left].
      * right. exists [], t, t', (l2 ++ l). split; [done|]. split; [done|].
        split; [by apply Forall_app|]. by destruct x.
  - split; [done|]. exists l. split; [done|]. left. split; [done|].
    destruct Hr as [?|(-> & _ & [(h & Hh & Hi)|(item & _ & ?)])]; [|..|lia].
    + exists (tbl s1). split; [apply Hs1|]. right. right. split; [done|by left].
    + exists h. split; [done|]. left. split; [done|]. split; [apply error_Is_refl|].
      apply rows_None; [by apply (proj2 Hs1)|done].
Qed.

Lemma PutOperation_linearizes ctx op s :
  storable op -> mine (OperationID op) -> tbl s !! OperationID op = None ->
  wp dy_env (PutOperation (Cursor := nat) MarshalMap ctx op)
    (returning (linearizes _ (Store.PutOperation ctx op) s)) s.
Proof.
  intros Hst Hm Hnew. destruct (marshal_encodes op Hst) as (item & Hi & He).
  unfold PutOperation. rewrite Hi. cbv beta delta [mbind mret prog_bind prog_ret call].
  cbn [bind wp]. split; [by exists op|]. intros x s1 (ts & t & Ho & Hcall & Hp & Hhist).
  specialize (Hcall op He). split.
  { rewrite Hhist. intros h Hh. right. apply elem_of_app. by right. }
  exists [(t, tbl s1)]. split; [done|]. right.
  exists [], t, (tbl s1), []. do 3 (split; [done|]). simpl. destruct x as [err|]; simpl.
  - destruct Hcall as [-> | ->]; [by left|right]. by apply rows_insert.
  - rewrite Hcall. by apply rows_insert.
Qed.

(** The rows a scan selects are those that were requested long ago, to the second. *)
Lemma in_scan_maybe t olderThan op :
  table_ok t -> in_range olderThan -> in_scan t (Format_RFC3339Nano olderThan) 0 None op ->
  rows t !! OperationID op = Some op /\ maybe_past olderThan op.
Proof.
  intros Hok Hr (item & Ht & He & [Hst (txt & Htxt & Hlt)] & _).
  split; [apply rows_lookup; [done|by exists item]|]. rewrite (enc_status _ _ He) in Hst.
  rewrite (enc_requested _ _ He) in Htxt. injection Hst as Hst. injection Htxt as <-.
  split; [done|]. destruct (decide (RequestedAt op / Second = olderThan / Second)); [lia|].
  rewrite Format_lt in Hlt by (done || by apply storable_in_range, He). apply Z.ltb_lt in Hlt.
  unfold Second in *. euclid.
Qed.

Lemma surely_in_scan t olderThan id op :
  table_ok t -> in_range olderThan -> rows t !! id = Some op -> surely_past olderThan op ->
  OperationID op = id /\ in_scan t (Format_RFC3339Nano olderThan) 0 None op.
Proof.
  intros Hok Hr Hop [Hst Hpast]. apply rows_lookup in Hop as (item & Ht & He); [|done].
  destruct (Hok _ _ Ht) as (op' & He' & Hid). rewrite (encodes_inj _ _ _ He' He) in Hid.
  split; [done|]. exists item. rewrite Hid. split; [done|]. split; [done|].
  split; [|split; [lia|done]]. split; [by rewrite (enc_status _ _ He), Hst|].
  eexists. split; [apply (enc_requested _ _ He)|].
  rewrite Format_lt by (lia || done || by apply storable_in_range, He).
  apply Z.ltb_lt. unfold Second in *. euclid.
Qed.

Lemma ListRunning_linearizes fuel ctx olderThan s :
  hist_ok s -> (top < fuel)%nat -> in_range olderThan ->
  wp dy_env (ListRunningPastDeadline UnmarshalMap fuel ctx olderThan)
    (returning (linearizes _ (Store.ListRunningPastDeadline ctx olderThan) s)) s.
Proof.
  intros Hs Hfuel Hr. eapply wp_mono; [|apply (list_pages_table fuel ctx _ None [] s Hs); simpl; lia].
  intros [r|]; [|done]. intros s' [(l & [Hp Hall Hs' Hsub _]) Hres]. split; [done|]. exists l.
  split; [done|]. left. split; [done|]. destruct r as [res|err]; [|done].
  destruct Hres as (rest & -> & [Hnd Hin Hcomp]). cbn [reads app default] in *. split; [done|]. split.
  - intros op Hop. destruct (Hin op Hop) as (h & Hh & Hscan). exists h. split; [done|].
    apply in_scan_maybe; [by apply (proj2 Hs')|done|done].
  - intros id Hid. apply Hcomp. intros h Hh. destruct (Hid h Hh) as (op & Hop & Hpast). exists op.
    apply surely_in_scan; [by apply (proj2 Hs')|done..].
Qed.

(** C14: the DynamoDB store implements the store contract, as far as its reads allow.
Scans are eventually consistent (the store does not ask for more): of every item a scan
sees any state it has had, or misses it when it is not everywhere yet.  While other
writers change the table between any two calls, whatever fails, and whether the table has
a sort key or not, every method comes to an end.  Its write, if any, takes effect as the
contract says at one instant between its start and its end, and its answer is that
write's.  What is answered without a write, a lookup or a row not found to end, is the
contract's answer for a table the service has had, which may be an earlier one than that
at the start; the sweep's list has no id twice, each row as it has been, and no running
operation is missing that is old enough in all the tables its reads may have seen.  (With
all replicas up to date at the start, [hist s = [tbl s]], these are the tables there have
been since.) *)
Theorem Dynamo_refines_contract fuel X (e : storeE X) s :
  hist_ok s -> admissible X e (tbl s) -> (top < fuel)%nat ->
  wp dy_env (dynamoStore MarshalMap UnmarshalMap IsPrint fuel X e)
    (returning (linearizes X e s)) s.
Proof.
  intros Hs Hadm Hfuel. destruct e as [ctx op|ctx id|ctx id upd|ctx t|ctx]; simpl in *.
  - destruct Hadm as (Hst & Hm & Hnew). by apply PutOperation_linearizes.
  - by apply GetOperation_linearizes.
  - by apply UpdateTerminal_linearizes.
  - by apply ListRunning_linearizes.
  - unfold Ping, call. simpl. split; [exact I|]. intros x s1 (ts & t & Ho & Ht & Hp & Hhist). split.
    { rewrite Hhist. intros h Hh. right. apply elem_of_app. by right. }
    exists [(t, tbl s1)]. split; [done|]. right. exists [], t, (tbl s1), [].
    do 3 (split; [done|]). simpl. by rewrite Ht.
Qed.

End Table.

(** ** A table to run on

Items that are operations; texts are read back with [Parse_RFC3339Nano]. *)

#[export] Instance operation_items : DynamoItems Operation := {|
  MarshalMap := fun op =>
    if decide (in_range (RequestedAt op)) then Ok op else Err (ErrText "year outside of range");
  UnmarshalMap := Ok;
  attr_operation_id := fun op => Some (OperationID op);
  attr_requested_at := fun op => Some (Format_RFC3339Nano (RequestedAt op));
  attr_status := fun op => Some (Status op);
  apply_update := fun u op =>
    with_outcome op (u_status u) (u_error_code u) (u_error_message u)
      (Some (Parse_RFC3339Nano (u_completed_at u)))
      (Events op ++ [{| Event := u_event u; At := Parse_RFC3339Nano (u_at u) |}]);
  storable := fun op => in_range (RequestedAt op);
  storable_update := fun upd => in_range (Upd_CompletedAt upd);
|}.

#[export] Instance operation_item_laws : DynamoItemLaws Operation.
Proof.
  split.
  - done.
  - intros op Hop. exists op. split; [by apply decide_True|]. by split.
  - intros item op upd [Hu _ _ _ Hs] Hupd. cbn in Hu, Hs, Hupd. injection Hu as ->.
    assert (apply_update (update_of upd) op = terminated op upd (Upd_CompletedAt upd)) as ->.
    { unfold apply_update, terminated. simpl. by rewrite Parse_Format. }
    by split.
Qed.

Section Sim.
Variable has_sort : bool.

Definition ErrKeySchema : error :=
  ErrTyped "APIError" "ValidationException: The provided key element does not match the schema".
Definition ErrCondition : error :=
  ErrTyped "ConditionalCheckFailedException" "The conditional request failed".

Definition fitsb (k : Key) : bool :=
  bool_decide (is_Some (k_requested_at k)) && has_sort ||
  bool_decide (k_requested_at k = None) && negb has_sort.

Definition at_keyb (k : Key) (item : Operation) : bool :=
  negb has_sort || bool_decide (attr_requested_at item = k_requested_at k).

Definition matchesb (f : Filter) (op : Operation) : bool :=
  match f with
  | ByID id => bool_decide (OperationID op = id)
  | RunningBefore txt => bool_decide (Status op = StatusRunning) &&
      String.ltb (Format_RFC3339Nano (RequestedAt op)) txt
  end.

(** A service without failures whose reads are up to date, a page holding the whole table. *)
Definition sim_call X (e : dyE Operation nat X) (t : gmap string Operation) :
    X * gmap string Operation :=
  match e in dyE _ _ X return X * gmap string Operation with
  | PutItem _ item => (None, <[OperationID item := item]> t)
  | UpdateItem _ k u =>
      if fitsb k then
        match t !! k_operation_id k with
        | Some item =>
            if at_keyb k item && bool_decide (Status item = StatusRunning)
            then (None, <[k_operation_id k := apply_update u item]> t)
            else (Some ErrCondition, t)
        | None => (Some ErrCondition, t)
        end
      else (Some ErrKeySchema, t)
  | Scan _ f start =>
      (Ok (match start with
           | None | Some O => (filter (fun p => matchesb f p.2) (map_to_list t)).*2
           | Some (S _) => []
           end, None), t)
  | ScanOne _ => (None, t)
  end.

Definition sim X (e : dyE Operation nat X) (s : @DyState Operation) : X * @DyState Operation :=
  let (x, t) := sim_call X e (tbl s) in (x, mkDy t ((tbl s, t) :: past s) (t :: hist s)).

Lemma matchesb_matches f op : matchesb f op = true <-> matches f op.
Proof.
  destruct f as [id|txt]; simpl; rewrite ?andb_true_iff, ?bool_decide_eq_true; [naive_solver|].
  split; [intros [-> H]; eauto|]. intros [[= ->] (s & [= <-] & H)]. done.
Qed.

Lemma sim_page t f :
  page (fun _ _ => 0%nat) t f 0 None (filter (fun p => matchesb f p.2) (map_to_list t)).*2.
Proof.
  eexists. split; [|split; [done|]].
  - apply (sublist_NoDup _ (map_to_list t).*1); [apply NoDup_fst_map_to_list|].
    apply fmap_sublist, sublist_filter.
  - intros id item. rewrite list_elem_of_filter, elem_of_map_to_list. simpl.
    rewrite <- matchesb_matches. split; [|naive_solver].
    intros [Hm Ht]. split; [done|]. split; [by destruct (matchesb f item)|]. split; [lia|done].
Qed.

Lemma view_now {Item} (hs : list (gmap string Item)) t : t ∈ hs -> view hs t.
Proof. intros Ht id. by exists t. Qed.

Lemma sim_call_ok hs X (e : dyE Operation nat X) t :
  t ∈ hs -> dy_call has_sort (fun _ _ => 0%nat) 0 hs X e t (sim_call X e t).1 (sim_call X e t).2.
Proof.
  intros Hhs.
  destruct e as [ctx item|ctx k u|ctx f start|ctx]; cbn [dy_call sim_call].
  - intros op [Hu _ _ _ _]. cbn in Hu. by injection Hu as ->.
  - change (fitsb k) with (fits has_sort k). destruct (fits has_sort k) eqn:Hf.
    + assert (condition_failed ErrCondition) as Hc by by vm_compute.
      destruct (t !! k_operation_id k) as [item|] eqn:Ht.
      * destruct (at_keyb k item && bool_decide (Status item = StatusRunning)) eqn:Hb; cbn [fst snd].
        -- apply andb_true_iff in Hb as [Ha Hs]. apply bool_decide_eq_true in Hs.
           apply upd_done; [done| |cbn; by rewrite Hs]. split; [done|]. intros Hh. unfold at_keyb in Ha.
           rewrite Hh in Ha. by apply bool_decide_eq_true in Ha.
        -- apply upd_refused; [done..|]. intros item' [Ht' Hr] [= Hrun]. rewrite Ht in Ht'.
           injection Ht' as <-. apply andb_false_iff in Hb as [Ha|Hs].
           ++ unfold at_keyb in Ha. apply orb_false_iff in Ha as [Hh Ha].
              apply bool_decide_eq_false in Ha. apply Ha, Hr. by destruct has_sort.
           ++ by apply bool_decide_eq_false in Hs.
      * apply upd_refused; [done..|]. intros item' [Ht' _]. simpl in Ht'. congruence.
    + apply upd_mismatch; [done|by vm_compute..].
  - split; [done|]. split; [|done]. exists t. split; [by apply view_now|].
    destruct start as [[|c]|]; simpl; [by apply sim_page| |by apply sim_page].
    exists []. split; [constructor|]. split; [done|]. intros id item.
    split; [by intros ?%not_elem_of_nil|]. unfold item_pos. lia.
  - done.
Qed.

(** With nobody else writing, [sim] is such a service. *)
Lemma dy_sim_ok mine X (e : dyE Operation nat X) s :
  tbl s ∈ hist s ->
  spec_post (dy_env has_sort (fun _ _ => 0%nat) 0 mine) e s (sim X e s).1 (sim X e s).2 /\
  tbl (sim X e s).2 ∈ hist (sim X e s).2.
Proof.
  intros Hs. pose proof (sim_call_ok _ X e (tbl s) Hs) as H. unfold sim.
  destruct (sim_call X e (tbl s)) as [x t]. split; [|by left].
  exists [], (tbl s). split; [constructor|]. by split.
Qed.

End Sim.

(** A running operation requested on 2024-01-01. *)
Definition jan_1 : Z := (62135596800 + 1704067200) * Second + 5.

Definition row (id : string) : Operation :=
  with_outcome {|
    OperationID := id; Repository := "acme/api"; RepositoryID := "1"; RepositoryOwner := "acme";
    Actor := ""; Workflow := ""; WorkflowRef := ""; RunID := ""; RunAttempt := "";
    EventName := ""; Action := "deployment.restart"; Namespace := "app"; Deployment := "api";
    Op_Container := ""; Image := ""; NsDep := "app#api"; Status := ""; ErrorCode := "";
    ErrorMessage := ""; RequestedAt := jan_1; CompletedAt := None; ExpiresAt := 0; Events := [] |}
    StatusRunning "" "" None [].

Definition done_at (t : Z) : TerminalUpdate := {|
  Upd_Status := StatusSucceeded; Upd_Event := "SUCCEEDED"; Upd_ErrorCode := "";
  Upd_ErrorMessage := ""; Upd_CompletedAt := t |}.

(** The row has just been written: a read may still miss it. *)
Definition one_row : @DyState Operation :=
  mkDy {["op_1" := row "op_1"]} [] [{["op_1" := row "op_1"]}; ∅].

Definition end_op_1 : prog (dyE Operation nat) (option error) :=
  UpdateTerminal Ok (fun _ => false) 1 Background "op_1" (done_at (jan_1 + 70 * Second)).

(** Whatever the key schema, the row is ended; without a sort key the second key of
the two is the one that fits. *)
Example ends_on_both_schemas :
  let ended := terminated (row "op_1") (done_at (jan_1 + 70 * Second)) (jan_1 + 70 * Second) in
  (run (sim true) end_op_1 one_row).1 = Done None /\
  tbl (run (sim true) end_op_1 one_row).2 !! "op_1" = Some ended /\
  length (past (run (sim true) end_op_1 one_row).2) = 2%nat /\
  (run (sim false) end_op_1 one_row).1 = Done None /\
  tbl (run (sim false) end_op_1 one_row).2 !! "op_1" = Some ended /\
  length (past (run (sim false) end_op_1 one_row).2) = 3%nat.
Proof. vm_compute. repeat split. Qed.

(** A second terminal write is refused. *)
Example ends_once :
  (run (sim true) (end_op_1 ;; end_op_1) one_row).1 = Done (Some ErrAlreadyTerminal).
Proof. reflexivity. Qed.

Lemma one_row_ok : hist_ok one_row.
Proof.
  assert (table_ok (tbl one_row)) as Hok.
  { apply map_Forall_singleton. exists (row "op_1"). split; [|done]. split; by vm_compute. }
  split; [by left|]. intros h [-> |[-> |[]%elem_of_nil]%elem_of_cons]%elem_of_cons.
  - split; [done|apply kept_refl].
  - split; [apply map_Forall_empty|]. intros id item op H. by rewrite lookup_empty in H.
Qed.

Lemma Dynamo_refines_contract_witness :
  let upd := done_at (jan_1 + 70 * Second) in
  hist_ok one_row /\
  wp (dy_env true (fun _ _ => 0%nat) 0 (fun _ => False))
    (dynamoStore MarshalMap UnmarshalMap (fun _ => false) 1 _ (Store.UpdateTerminal Background "op_1" upd))
    (returning (linearizes _ (Store.UpdateTerminal Background "op_1" upd) one_row)) one_row.
Proof.
  intros upd. split; [exact one_row_ok|].
  apply (Dynamo_refines_contract (fun _ => false) true (fun _ _ => 0%nat) 0 (fun _ => False)
           1 _ (Store.UpdateTerminal Background "op_1" upd) one_row).
  - exact one_row_ok.
  - by vm_compute.
  - lia.
Defined.
