(* ===== verification/Keycloak.v ===== *)
(** * Keycloak

[internal/keycloak]: the TTL cache, the token source, the Admin API client and
the authorizer.  Every function is a program over [kcE]: HTTP exchanges, mutexes,
and reads and writes of the state the goroutines share. *)

From S2P Require Import Prelude GoStrings GoRuntime GoNet GoJson Effects Authz.

Local Open Scope string_scope.
Local Open Scope list_scope.
Local Open Scope Z_scope.

(** ** Configuration *)

Record Config : Type := {
  BaseURL : string;
  Realm : string;
  ClientID : string;
  ClientSecret : string;
  Timeout : Z;
}.

Definition refreshSkew : Z := 30 * Second.

Definition tokenURL (c : Config) : string :=
  TrimSuffix (BaseURL c) "/" +:+ "/realms/" +:+ PathEscape (Realm c) +:+
  "/protocol/openid-connect/token".

Definition adminURL (c : Config) (path : string) : string :=
  TrimSuffix (BaseURL c) "/" +:+ "/admin/realms/" +:+ PathEscape (Realm c) +:+ path.

(** ** Calls *)

Record entry (V : Type) : Type := { value : V; storedAt : Z }.
Arguments value {V} _.
Arguments storedAt {V} _.
Arguments Build_entry {V} _ _.

(** The three caches, by the type of what they hold. *)
Inductive cache_id : Type -> Type :=
  | UserIDs : cache_id string
  | Refs : cache_id (list string)
  | Decisions : cache_id bool.

Inductive mutex : Type :=
  | TokenMu
  | UuidMu
  | CacheMu (name : string).

#[export] Instance mutex_eq_dec : EqDecision mutex.
Proof. solve_decision. Defined.

Inductive kcE : Type -> Type :=
  | KRt {X} (e : rtE X) : kcE X
  (** [hc.Do(req)] by a client with the given [Timeout] *)
  | HttpDo (timeout : Z) (ctx : Context) (req : HttpRequest) : kcE (result error HttpResponse)
  | Lock (mu : mutex) : kcE unit
  | Unlock (mu : mutex) : kcE unit
  | RLock (mu : mutex) : kcE unit
  | RUnlock (mu : mutex) : kcE unit
  (** [t.token], [t.expiresAt] *)
  | TokenRead : kcE (string * Z)
  | TokenWrite (token : string) (expiresAt : Z) : kcE unit
  | TokenDrop : kcE unit
  (** [c.uuid] *)
  | UuidRead : kcE string
  | UuidWrite (uuid : string) : kcE unit
  (** [c.entries[key]] *)
  | CacheRead {V} (c : cache_id V) (key : string) : kcE (option (entry V))
  | CacheWrite {V} (c : cache_id V) (key : string) (e : entry V) : kcE unit.

#[export] Instance Sub_rt_kc : Sub rtE kcE := @KRt.

Definition kc_now : prog kcE Z := trigger TimeNow.
Definition kc_warn (msg : string) : prog kcE unit := trigger (LogLine LWarn msg).

(** [mu.Lock(); defer mu.Unlock()] around a body. *)
Definition locked {A} (mu : mutex) (body : prog kcE A) : prog kcE A :=
  call (Lock mu) ;;
  a ← body;
  call (Unlock mu) ;;
  mret a.

(** ** The cache *)

Definition decisionTTL : Z := 30 * Second.
Definition decisionStaleFor : Z := 5 * Minute.
Definition userIDTTL : Z := 10 * Minute.
Definition refsTTL : Z := decisionTTL.

(** The [ttl] and [staleFor] each cache is made with. *)
Definition ttl {V} (c : cache_id V) : Z :=
  match c with UserIDs => userIDTTL | Refs => refsTTL | Decisions => decisionTTL end.
Definition staleFor {V} (c : cache_id V) : Z :=
  match c with Decisions => decisionStaleFor | _ => 0 end.
Definition cache_mu {V} (c : cache_id V) : mutex :=
  CacheMu (match c with UserIDs => "userIDs" | Refs => "refs" | Decisions => "decisions" end).

Definition cache_get {V} (c : cache_id V) (key : string) (maxAge : Z) : prog kcE (option V) :=
  call (RLock (cache_mu c)) ;;
  e ← call (CacheRead c key);
  call (RUnlock (cache_mu c)) ;;
  match e with
  | None => mret None
  | Some e =>
      now ← kc_now;
      if maxAge <? time_Sub now (storedAt e) then mret None else mret (Some (value e))
  end.

Definition Get {V} (c : cache_id V) (key : string) : prog kcE (option V) :=
  cache_get c key (ttl c).
Definition GetStale {V} (c : cache_id V) (key : string) : prog kcE (option V) :=
  cache_get c key (dur_add (ttl c) (staleFor c)).

Definition Put {V} (c : cache_id V) (key : string) (v : V) : prog kcE unit :=
  call (Lock (cache_mu c)) ;;
  now ← kc_now;
  call (CacheWrite c key {| value := v; storedAt := now |}) ;;
  call (Unlock (cache_mu c)).

Section Client.
(** Why [http.NewRequestWithContext] refuses a method and URL, [unicode.IsPrint]
beyond ASCII, and Unicode case folding. *)
Variable new_request_error : string -> string -> option error.
Variable IsPrint : Z -> bool.
Variable fold_unicode : string -> string -> bool.
Variable cfg : Config.

(** [NewClient]: 3 s unless configured. *)
Definition client_timeout : Z := if Timeout cfg =? 0 then 3 * Second else Timeout cfg.

(** ** The token source *)

Definition token_fields : list (string * decoder (string * Z)) :=
  [("access_token", fun j v => s ← dec_string j v.1; mret (s, v.2));
   ("expires_in", fun j v => n ← dec_int j v.2; mret (v.1, n))].

Definition token_request : HttpRequest := {|
  Method := "POST"; URL := tokenURL cfg; Authorization := None;
  ContentType := Some "application/x-www-form-urlencoded";
  Body := FormBody (Encode [("client_id", ClientID cfg); ("client_secret", ClientSecret cfg);
                            ("grant_type", "client_credentials")]) |}.

(** What the token response says: the token and its lifetime in seconds. *)
Definition token_answer (resp : HttpResponse) : result error (string * Z) :=
  if decide (StatusCode resp = 200) then
    match DecodeBody (RespBody resp) (bool_decide (is_Some (ReadErr resp))) with
    | None =>
        Err (ErrWrap "keycloak: decode token response: "
               (default (ErrText "invalid JSON") (ReadErr resp)) "")
    | Some j =>
        match dec_struct token_fields j ("", 0) with
        | None =>
            Err (ErrWrap "keycloak: decode token response: " (ErrText "cannot unmarshal") "")
        | Some (tok, n) =>
            if decide (tok = "") then Err (ErrText "keycloak: token response had no access_token")
            else Ok (tok, n)
        end
    end
  else Err (ErrText ("keycloak: token endpoint returned " +:+ itoa (StatusCode resp))).

(** The time a token of [n] seconds is kept: [int64] arithmetic. *)
Definition token_lifetime (n : Z) : Z :=
  let lifetime := dur_mul n Second in
  if refreshSkew <? lifetime then dur_sub lifetime refreshSkew else lifetime.

Definition Token (ctx : Context) : prog kcE (result error string) :=
  locked TokenMu (
    '(token, expiresAt) ← call TokenRead;
    fresh ← (if decide (token = "") then mret false
             else now ← kc_now; mret (time_Before now expiresAt));
    if (fresh : bool) then mret (Ok token)
    else
      match new_request_error "POST" (tokenURL cfg) with
      | Some _ => mret (Err (ErrText "keycloak: build token request"))
      | None =>
          r ← call (HttpDo client_timeout ctx token_request);
          match r with
          | Err _ => mret (Err (ErrText "keycloak: token request failed"))
          | Ok resp =>
              match token_answer resp with
              | Err err => mret (Err err)
              | Ok (tok, n) =>
                  now ← kc_now;
                  call (TokenWrite tok (time_Add now (token_lifetime n))) ;;
                  mret (Ok tok)
              end
          end
      end).

Definition Invalidate : prog kcE unit :=
  call (Lock TokenMu) ;; call TokenDrop ;; call (Unlock TokenMu).

(** ** Authenticated requests *)

(** How one attempt ends: retry with this error, or return. *)
Inductive attempted : Type :=
  | Retry (err : error)
  | Return (r : result error string).

Definition admin_request (method url token : string) (body : option string) : HttpRequest := {|
  Method := method; URL := url; Authorization := Some ("Bearer " +:+ token);
  ContentType := match body with Some _ => Some "application/json" | None => None end;
  Body := match body with Some text => JSONBody text | None => NoBody end |}.

Definition returned (status : Z) : error := ErrText ("keycloak: returned " +:+ itoa status).

Definition attempt (ctx : Context) (method url : string) (body : option string) :
    prog kcE attempted :=
  t ← Token ctx;
  match t with
  | Err err => mret (Retry err)
  | Ok tok =>
      match new_request_error method url with
      | Some err => mret (Return (Err (ErrWrap "keycloak: build request: " err "")))
      | None =>
          r ← call (HttpDo client_timeout ctx (admin_request method url tok body));
          match r with
          | Err err =>
              mret (Retry (ErrWrap ("keycloak: " +:+ method +:+ " request failed: ") err ""))
          | Ok resp =>
              if decide (StatusCode resp = 401) then
                Invalidate ;; mret (Retry (ErrText "keycloak: unauthorized"))
              else if 500 <=? StatusCode resp then mret (Retry (returned (StatusCode resp)))
              else if 400 <=? StatusCode resp then
                mret (Return (Err (returned (StatusCode resp))))
              else
                match ReadErr resp with
                | Some err => mret (Return (Err (ErrWrap "keycloak: read response: " err "")))
                | None => mret (Return (Ok (RespBody resp)))
                end
          end
      end
  end.

(** The loop over [n] attempts; [lastErr] is returned after the last. *)
Fixpoint attempts (n : nat) (lastErr : error) (ctx : Context) (method url : string)
    (body : option string) : prog kcE (result error string) :=
  match n with
  | O => mret (Err lastErr)
  | S n' =>
      a ← attempt ctx method url body;
      match a with
      | Retry err => attempts n' err ctx method url body
      | Return r => mret r
      end
  end.

(** [lastErr] starts nil; the two attempts always set it. *)
Definition do (ctx : Context) (method url : string) (body : option string) :
    prog kcE (result error string) :=
  attempts 2 (ErrText "") ctx method url body.

(** [json.Unmarshal(raw, &v)], wrapped as every caller does. *)
Definition unmarshal {A} (d : decoder A) (zero : A) (what : string) (raw : string) :
    result error A :=
  match Unmarshal raw with
  | None => Err (ErrWrap ("keycloak: decode " +:+ what +:+ ": ") (ErrText "invalid JSON") "")
  | Some j =>
      match d j zero with
      | None => Err (ErrWrap ("keycloak: decode " +:+ what +:+ ": ") (ErrText "cannot unmarshal") "")
      | Some v => Ok v
      end
  end.

(** ** The resource server *)

(** The structs [{id, clientId}] and [{id, username}]. *)
Definition dec_named (name : string) : decoder (list (string * string)) :=
  dec_slice ("", "") (dec_struct
    [("id", fun j v => s ← dec_string j v.1; mret (s, v.2));
     (name, fun j v => s ← dec_string j v.2; mret (v.1, s))]).

Definition clients_url : string :=
  adminURL cfg ("/clients?clientId=" +:+ QueryEscape (ClientID cfg)).

(** The first client that is the one asked for. *)
Definition pick_client (clients : list (string * string)) : option string :=
  match list_find (fun '(id, clientId) => clientId = ClientID cfg /\ id <> "") clients with
  | Some (_, (id, _)) => Some id
  | None => None
  end.

Definition ResourceServerUUID (ctx : Context) : prog kcE (result error string) :=
  locked UuidMu (
    uuid ← call UuidRead;
    if decide (uuid = "") then
      raw ← do ctx "GET" clients_url None;
      match raw with
      | Err err => mret (Err err)
      | Ok raw =>
          match unmarshal (dec_named "clientId") [] "clients" raw with
          | Err err => mret (Err err)
          | Ok clients =>
              match pick_client clients with
              | Some id => call (UuidWrite id) ;; mret (Ok id)
              | None =>
                  mret (Err (ErrText ("keycloak: client " +:+ Quote IsPrint (ClientID cfg) +:+
                    " not found in " +:+ itoa (Z.of_nat (length clients)) +:+ " results")))
              end
          end
      end
    else mret (Ok uuid)).

(** ** Users *)

Definition ErrNoSubject : error :=
  ErrVar "keycloak.ErrNoSubject" "keycloak: repository has no subject".

Definition users_url (username : string) : string :=
  adminURL cfg ("/users?exact=true&username=" +:+ QueryEscape username).

(** The first user whose name is the one asked for, up to case. *)
Definition pick_user (username : string) (users : list (string * string)) : option string :=
  match list_find (fun '(id, name) => id <> "" /\ EqualFold fold_unicode name username = true)
          users with
  | Some (_, (id, _)) => Some id
  | None => None
  end.

Definition UserID (ctx : Context) (username : string) : prog kcE (result error string) :=
  cached ← Get UserIDs username;
  match cached with
  | Some id => mret (Ok id)
  | None =>
      raw ← do ctx "GET" (users_url username) None;
      match raw with
      | Err err => mret (Err err)
      | Ok raw =>
          match unmarshal (dec_named "username") [] "users" raw with
          | Err err => mret (Err err)
          | Ok users =>
              match pick_user username users with
              | Some id => Put UserIDs username id ;; mret (Ok id)
              | None => mret (Err (ErrWrap "" ErrNoSubject (": " +:+ username)))
              end
          end
      end
  end.

(** ** Policy evaluation *)

(** [evalRequest], as JSON. *)
Definition evalRequest (userID resource scope : string) : json :=
  JObj [("resources", JArr [JObj [("name", JStr resource);
                                  ("scopes", JArr [JObj [("name", JStr scope)]])]]);
        ("userId", JStr userID);
        ("entitlements", JBool false);
        ("context", JObj [("attributes", JObj [])])].

Definition dec_status : decoder string := dec_struct [("status", dec_string)].

Definition evaluate_url (uuid : string) : string :=
  adminURL cfg ("/clients/" +:+ PathEscape uuid +:+ "/authz/resource-server/policy/evaluate").

(** What the evaluate response says. *)
Definition eval_answer (raw : string) : result error bool :=
  match unmarshal dec_status "" "evaluate response" raw with
  | Err err => Err err
  | Ok status =>
      if decide (status = "PERMIT") then Ok true
      else if decide (status = "DENY") then Ok false
      else Err (ErrText ("keycloak: unexpected evaluate status " +:+ Quote IsPrint status))
  end.

Definition Evaluate (ctx : Context) (userID resource scope : string) :
    prog kcE (result error bool) :=
  u ← ResourceServerUUID ctx;
  match u with
  | Err err => mret (Err err)
  | Ok uuid =>
      raw ← do ctx "POST" (evaluate_url uuid) (Some (Marshal (evalRequest userID resource scope)));
      match raw with
      | Err err => mret (Err err)
      | Ok raw => mret (eval_answer raw)
      end
  end.

(** ** Ref constraints *)

Abbreviation attributes := (gmap string (list string)) (only parsing).

Definition dec_resources : decoder (list (string * attributes)) :=
  dec_slice ("", ∅) (dec_struct
    [("name", fun j v => s ← dec_string j v.1; mret (s, v.2));
     ("attributes", fun j v => a ← dec_map [] (dec_slice "" dec_string) j v.2; mret (v.1, a))]).

Definition resources_url (uuid resource : string) : string :=
  adminURL cfg ("/clients/" +:+ PathEscape uuid +:+
    "/authz/resource-server/resource?exactName=true&name=" +:+ QueryEscape resource).

(** The constraints of a resource: those of the action, else the general ones. *)
Definition refs_of (attrs : attributes) (action : string) : list string :=
  match attrs !! ("allowed_refs." +:+ action) with
  | Some v => v
  | None => match attrs !! "allowed_refs" with Some v => v | None => [] end
  end.

(** The first resource of that very name. *)
Definition pick_resource (resource : string) (rs : list (string * attributes)) :
    option attributes :=
  match list_find (fun '(name, _) => name = resource) rs with
  | Some (_, (_, attrs)) => Some attrs
  | None => None
  end.

Definition nul : string := String "000"%char EmptyString.

Definition refs_key (resource action : string) : string := resource +:+ nul +:+ action.

Definition AllowedRefs (ctx : Context) (resource action : string) :
    prog kcE (result error (list string)) :=
  cached ← Get Refs (refs_key resource action);
  match cached with
  | Some v => mret (Ok v)
  | None =>
      u ← ResourceServerUUID ctx;
      match u with
      | Err err => mret (Err err)
      | Ok uuid =>
          raw ← do ctx "GET" (resources_url uuid resource) None;
          match raw with
          | Err err => mret (Err err)
          | Ok raw =>
              match unmarshal dec_resources [] "resources" raw with
              | Err err => mret (Err err)
              | Ok rs =>
                  out ← match pick_resource resource rs with
                        | Some attrs => mret (refs_of attrs action)
                        | None =>
                            kc_warn "keycloak resource not found; ref constraints cannot be applied" ;;
                            mret []
                        end;
                  Put Refs (refs_key resource action) out ;;
                  mret (Ok out)
              end
          end
      end
  end.

(** ** The authorizer *)

Definition decisionKey (req : Request) : string :=
  Req_Repository req +:+ nul +:+ Req_Action req +:+ nul +:+ Req_Namespace req +:+ nul +:+
  Req_Deployment req +:+ nul +:+ Req_Ref req.

Definition resourceName (req : Request) : string :=
  Req_Namespace req +:+ "/" +:+ Req_Deployment req.

Definition permitted : Decision := {| Allowed := true; Reason := "" |}.

Definition grantDenied (req : Request) : Decision :=
  {| Allowed := false;
     Reason := "keycloak does not grant " +:+ Req_Action req +:+ " on " +:+ resourceName req |}.

Definition refDenied (req : Request) : Decision :=
  {| Allowed := false;
     Reason := "ref " +:+ Req_Ref req +:+ " is not permitted to " +:+ Req_Action req +:+ " on " +:+
               resourceName req |}.

Definition evaluate (ctx : Context) (req : Request) : prog kcE (result error Decision) :=
  u ← UserID ctx (Req_Repository req);
  match u with
  | Err err => if error_Is err ErrNoSubject then mret (Ok (grantDenied req)) else mret (Err err)
  | Ok userID =>
      g ← Evaluate ctx userID (resourceName req) (Req_Action req);
      match g with
      | Err err => mret (Err err)
      | Ok false => mret (Ok (grantDenied req))
      | Ok true =>
          a ← AllowedRefs ctx (resourceName req) (Req_Action req);
          match a with
          | Err err => mret (Err err)
          | Ok allowedRefs =>
              match Ref.MatchRef allowedRefs (Req_Ref req) with
              | (_, Some _) =>
                  kc_warn "malformed ref constraint, denying" ;; mret (Ok (refDenied req))
              | (false, None) => mret (Ok (refDenied req))
              | (true, None) => mret (Ok permitted)
              end
          end
      end
  end.

(** [Authorize], over the way a decision is reached. *)
Definition Authorize_with (req : Request) (eval : prog kcE (result error Decision)) :
    prog kcE (result error Decision) :=
  cached ← Get Decisions (decisionKey req);
  if decide (cached = Some true) then mret (Ok permitted)
  else
    d ← eval;
    match d with
    | Err err =>
        stale ← GetStale Decisions (decisionKey req);
        if decide (stale = Some true) then
          kc_warn "serving stale authorization decision" ;; mret (Ok permitted)
        else mret (Err err)
    | Ok decision =>
        (if Allowed decision then Put Decisions (decisionKey req) true else mret tt) ;;
        mret (Ok decision)
    end.

Definition Authorize (ctx : Context) (req : Request) : prog kcE (result error Decision) :=
  Authorize_with req (evaluate ctx req).

(** As an [Authorizer]: the zero decision goes with an error. *)
Definition KeycloakAuthorizer : Authorizer kcE := fun ctx req =>
  r ← Authorize ctx req;
  mret (match r with
        | Ok d => (d, None)
        | Err err => ({| Allowed := false; Reason := "" |}, Some err)
        end).

Definition Ready (ctx : Context) : prog kcE (option error) :=
  r ← ResourceServerUUID ctx;
  mret (match r with Ok _ => None | Err err => Some err end).

End Client.
