(* ===== verification/KeycloakSpec.v ===== *)
(** * Keycloak: caching, retries, secrets, locks

What the cache, the token source, the retrying client and the authorizer do, call
by call; that the client secret reaches the token endpoint only; that mutexes are
taken in one order. *)

From S2P Require Import Prelude GoStrings GoRuntime GoNet GoJson GoJsonSpec Effects Authz Keycloak.

Local Open Scope string_scope.
Local Open Scope list_scope.
Local Open Scope Z_scope.

(** ** The world *)

Abbreviation exchange := (HttpRequest * result error HttpResponse)%type (only parsing).

Record KWorld : Type := mkK {
  kclock : Z;
  ktoken : string;
  kexpires : Z;
  kuuid : string;
  kusers : gmap string (entry string);
  krefs : gmap string (entry (list string));
  kdecisions : gmap string (entry bool);
  (** every HTTP exchange, latest first *)
  exchanges : list exchange;
}.

Definition at_clock (t : Z) (w : KWorld) : KWorld :=
  mkK t (ktoken w) (kexpires w) (kuuid w) (kusers w) (krefs w) (kdecisions w) (exchanges w).
Definition with_token (tok : string) (exp : Z) (w : KWorld) : KWorld :=
  mkK (kclock w) tok exp (kuuid w) (kusers w) (krefs w) (kdecisions w) (exchanges w).
Definition with_uuid (u : string) (w : KWorld) : KWorld :=
  mkK (kclock w) (ktoken w) (kexpires w) u (kusers w) (krefs w) (kdecisions w) (exchanges w).
Definition with_exchange (x : exchange) (w : KWorld) : KWorld :=
  mkK (kclock w) (ktoken w) (kexpires w) (kuuid w) (kusers w) (krefs w) (kdecisions w)
    (x :: exchanges w).

Definition entries {V} (c : cache_id V) (w : KWorld) : gmap string (entry V) :=
  match c in cache_id V return gmap string (entry V) with
  | UserIDs => kusers w
  | Refs => krefs w
  | Decisions => kdecisions w
  end.

Definition with_entry {V} (c : cache_id V) (key : string) (e : entry V) (w : KWorld) : KWorld :=
  match c in cache_id V return entry V -> KWorld with
  | UserIDs => fun e => mkK (kclock w) (ktoken w) (kexpires w) (kuuid w)
      (<[key := e]> (kusers w)) (krefs w) (kdecisions w) (exchanges w)
  | Refs => fun e => mkK (kclock w) (ktoken w) (kexpires w) (kuuid w)
      (kusers w) (<[key := e]> (krefs w)) (kdecisions w) (exchanges w)
  | Decisions => fun e => mkK (kclock w) (ktoken w) (kexpires w) (kuuid w)
      (kusers w) (krefs w) (<[key := e]> (kdecisions w)) (exchanges w)
  end e.

(** The network answers anything, after any time; the clock does not run
backwards; state is what was last written. *)
Definition kc_post X (e : kcE X) (w : KWorld) : X -> KWorld -> Prop :=
  match e in kcE X return X -> KWorld -> Prop with
  | KRt e =>
      match e in rtE X return X -> KWorld -> Prop with
      | TimeNow => fun t w' => kclock w <= t /\ w' = at_clock t w
      | LogLine _ _ => fun _ w' => w' = w
      end
  | HttpDo _ _ req => fun x w' => w' = with_exchange (req, x) w
  | Lock _ | Unlock _ | RLock _ | RUnlock _ => fun _ w' => w' = w
  | TokenRead => fun x w' => x = (ktoken w, kexpires w) /\ w' = w
  | TokenWrite tok exp => fun _ w' => w' = with_token tok exp w
  | TokenDrop => fun _ w' => w' = with_token "" (kexpires w) w
  | UuidRead => fun x w' => x = kuuid w /\ w' = w
  | UuidWrite u => fun _ w' => w' = with_uuid u w
  | CacheRead c key => fun x w' => x = entries c w !! key /\ w' = w
  | CacheWrite c key e => fun _ w' => w' = with_entry c key e w
  end.

Definition kc_env : spec kcE KWorld :=
  {| spec_pre := fun _ _ _ => True; spec_post := kc_post |}.

(** ** Symbolic execution *)

Ltac kc_unfold :=
  cbv beta delta [mbind mret prog_bind prog_ret locked kc_now kc_warn trigger call
    inj Sub_rt_kc].

Ltac kc_wp := kc_unfold; cbn [wp bind].

Ltac kc_call x w' H :=
  split; [exact I|]; intros x w' H; cbn [kc_env spec_post kc_post] in H.

(** ** The cache *)

Lemma at_clock_now w : at_clock (kclock w) w = w.
Proof. by destruct w. Qed.

Lemma at_clock_twice t t' w : at_clock t (at_clock t' w) = at_clock t w.
Proof. done. Qed.

(** The age of an entry at an instant, as [Sub] computes it. *)
Definition age {V} (t : Z) (e : entry V) : Z := time_Sub t (storedAt e).

(** The value of an entry no older than [maxAge]. *)
Definition fresh {V} (maxAge t : Z) (e : option (entry V)) : option V :=
  match e with
  | Some e => if maxAge <? age t e then None else Some (value e)
  | None => None
  end.

Lemma cache_get_wp {V} (c : cache_id V) key maxAge w :
  wp kc_env (cache_get c key maxAge) (returning (fun r w' => exists t, kclock w <= t /\
    w' = at_clock t w /\ r = fresh maxAge t (entries c w !! key))) w.
Proof.
  unfold cache_get. kc_wp. kc_call u w1 H; subst w1. kc_call e w1 H.
  destruct H as [-> ->]. kc_call u2 w1 H; subst w1.
  destruct (entries c w !! key) as [e|]; kc_wp.
  - kc_call t w1 H. destruct H as [Ht ->]. cbn [fresh]. fold (age t e).
    destruct (maxAge <? age t e) eqn:Ha; exists t; by rewrite Ha.
  - exists (kclock w). split; [lia|]. by rewrite at_clock_now.
Qed.

Lemma Put_wp {V} (c : cache_id V) key v w :
  wp kc_env (Put c key v) (returning (fun _ w' => exists t, kclock w <= t /\
    w' = with_entry c key {| value := v; storedAt := t |} (at_clock t w))) w.
Proof.
  unfold Put. kc_wp. kc_call u w1 H; subst w1. kc_call t w1 H. destruct H as [Ht ->].
  kc_call u2 w1 H; subst w1. kc_call u3 w1 H; subst w1. by exists t.
Qed.

(** ** Decisions *)

(** A PERMIT for the key, no older than [maxAge] at instant [t]. *)
Definition permit_within (maxAge : Z) (t : Z) (key : string) (w : KWorld) : Prop :=
  exists e, kdecisions w !! key = Some e /\ value e = true /\ age t e <= maxAge.

Lemma fresh_permit maxAge t key w :
  fresh maxAge t (entries Decisions w !! key) = Some true <-> permit_within maxAge t key w.
Proof.
  unfold permit_within. cbn [entries]. destruct (kdecisions w !! key) as [e|]; cbn [fresh].
  - destruct (maxAge <? age t e) eqn:Ha; to_prop.
    + split; [done|]. intros (e' & [= <-] & _ & ?). lia.
    + split; [intros [= Hv]; by exists e|]. by intros (e' & [= <-] & -> & _).
  - split; [done|]. by intros (e' & ? & _).
Qed.

(** What [Authorize] answers and leaves behind, when deciding afresh answered [d]
and left [w1]. *)
Definition decided (key : string) (d : result error Decision) (w1 : KWorld)
    (r : result error Decision) (w' : KWorld) : Prop :=
  match d with
  | Ok dec => r = Ok dec /\
      if Allowed dec then exists t, kclock w1 <= t /\
        w' = with_entry Decisions key {| value := true; storedAt := t |} (at_clock t w1)
      else w' = w1
  | Err err => exists t, kclock w1 <= t /\ w' = at_clock t w1 /\
      ((permit_within (decisionTTL + decisionStaleFor) t key w1 /\ r = Ok permitted) \/
       (~ permit_within (decisionTTL + decisionStaleFor) t key w1 /\ r = Err err))
  end.

(** C11: a cached PERMIT is used for 30 s, and for 5 min 30 s at most when Keycloak
gives no decision; otherwise the decision taken afresh, or the error, is the
answer.  Only permits are cached: a denial leaves no trace. *)
Theorem Authorize_decides req eval R w :
  (forall t, kclock w <= t -> wp kc_env eval (returning R) (at_clock t w)) ->
  wp kc_env (Authorize_with req eval) (returning (fun r w' =>
    exists t, kclock w <= t /\
      ((permit_within decisionTTL t (decisionKey req) w /\ r = Ok permitted /\
        w' = at_clock t w) \/
       (~ permit_within decisionTTL t (decisionKey req) w /\
        exists d w1, R d w1 /\ decided (decisionKey req) d w1 r w')))) w.
Proof.
  intros Heval. unfold Authorize_with. eapply wp_seq; [apply cache_get_wp|].
  intros cached w1 (t & Ht & -> & ->). case_decide as Hhit; rewrite fresh_permit in Hhit.
  { exists t. split; [done|]. by left. }
  eapply wp_seq; [by apply Heval|]. intros d w1 HR.
  assert (forall r w', decided (decisionKey req) d w1 r w' ->
    exists t, kclock w <= t /\
      ((permit_within decisionTTL t (decisionKey req) w /\ r = Ok permitted /\
        w' = at_clock t w) \/
       (~ permit_within decisionTTL t (decisionKey req) w /\
        exists d w1, R d w1 /\ decided (decisionKey req) d w1 r w'))) as Hdone.
  { intros r w' Hd. exists t. split; [done|]. right. split; [done|]. by exists d, w1. }
  destruct d as [dec|err].
  - destruct (Allowed dec) eqn:Hal.
    + eapply wp_seq; [apply Put_wp|]. intros [] w2 H. apply Hdone. simpl. by rewrite Hal.
    + kc_wp. apply Hdone. simpl. by rewrite Hal.
  - eapply wp_seq; [apply cache_get_wp|]. intros stale w2 (t2 & Ht2 & -> & ->).
    change (dur_add _ _) with (decisionTTL + decisionStaleFor).
    case_decide as Hst; rewrite fresh_permit in Hst.
    + kc_wp. kc_call u w2 H; subst w2. apply Hdone. simpl. exists t2. eauto.
    + kc_wp. apply Hdone. simpl. exists t2. eauto.
Qed.

Section Client.
Variable new_request_error : string -> string -> option error.
Variable IsPrint : Z -> bool.
Variable fold_unicode : string -> string -> bool.
Variable cfg : Config.

(** ** Tokens *)

(** What the answer to the token request means. *)
Definition token_said (x : result error HttpResponse) : result error (string * Z) :=
  match x with
  | Err _ => Err (ErrText "keycloak: token request failed")
  | Ok resp => token_answer resp
  end.

(** A token from the cache while it lasts, else from one request; a failed
request leaves the cached token alone. *)
Definition token_got (w : KWorld) (r : result error string) (w' : KWorld) : Prop :=
  exists t, kclock w <= t /\
    if bool_decide (ktoken w <> "") && (t <? kexpires w) then
      r = Ok (ktoken w) /\ w' = at_clock t w
    else
      match new_request_error "POST" (tokenURL cfg) with
      | Some _ => r = Err (ErrText "keycloak: build token request") /\ w' = at_clock t w
      | None => exists x,
          let w1 := with_exchange (token_request cfg, x) (at_clock t w) in
          match token_said x with
          | Err err => r = Err err /\ w' = w1
          | Ok (tok, n) => exists t', t <= t' /\ r = Ok tok /\
              w' = with_token tok (t' + token_lifetime n) (at_clock t' w1)
          end
      end.

Lemma Token_ask_wp ctx t w :
  kclock w <= t -> bool_decide (ktoken w <> "") && (t <? kexpires w) = false ->
  wp kc_env
    (match new_request_error "POST" (tokenURL cfg) with
     | Some _ => mret (Err (ErrText "keycloak: build token request"))
     | None =>
         r ← call (HttpDo (client_timeout cfg) ctx (token_request cfg));
         match r with
         | Err _ => mret (Err (ErrText "keycloak: token request failed"))
         | Ok resp =>
             match token_answer resp with
             | Err err => mret (Err err)
             | Ok (tok, n) =>
                 now ← kc_now;
                 call (TokenWrite tok (time_Add now (token_lifetime n))) ;;
                 mret (Ok tok)
             end
         end
     end) (returning (token_got w)) (at_clock t w).
Proof.
  intros Ht Hold. unfold token_got. destruct (new_request_error _ _) eqn:Hreq; kc_wp.
  - exists t. by rewrite Hold.
  - kc_call x w1 H; subst w1. destruct x as [resp|err]; kc_wp.
    + destruct (token_answer resp) as [[tok n]|err] eqn:Ha; kc_wp.
      * kc_call t' w1 H. destruct H as [Ht' ->]. kc_call u w1 H. subst w1.
        exists t. rewrite Hold. split; [done|]. exists (Ok resp). simpl. rewrite Ha.
        by exists t'.
      * exists t. rewrite Hold. split; [done|]. exists (Ok resp). simpl. by rewrite Ha.
    + exists t. rewrite Hold. split; [done|]. by exists (Err err).
Qed.

Lemma Token_wp ctx w :
  wp kc_env (Token new_request_error cfg ctx) (returning (token_got w)) w.
Proof.
  unfold Token, locked. kc_wp. kc_call u w1 H; subst w1. kc_call x w1 H.
  destruct H as [-> ->]. apply wp_bind.
  assert (forall (p : prog kcE (result error string)) s,
    wp kc_env p (returning (token_got w)) s ->
    wp kc_env p (fun o s' => match o with
      | Done a => wp kc_env (Vis (Unlock TokenMu) (fun _ => Ret a)) (returning (token_got w)) s'
      | Halted st => returning (token_got w) (Halted st) s' end) s) as Hun.
  { intros p s. apply wp_mono. intros [r|st] s'; [|done]. intros Hr. simpl.
    split; [done|]. by intros y s2 ->. }
  apply Hun. case_decide as Htok; kc_wp.
  - rewrite <- (at_clock_now w) at 2. apply Token_ask_wp; [lia|].
    by rewrite bool_decide_eq_false_2 by naive_solver.
  - kc_call t w1 H. destruct H as [Ht ->]. unfold time_Before.
    destruct (t <? kexpires w) eqn:Hexp; kc_wp.
    + exists t. rewrite bool_decide_eq_true_2 by done. by rewrite Hexp.
    + apply Token_ask_wp; [done|]. rewrite Hexp. by rewrite andb_false_r.
Qed.

(** C26: [Token] on every branch: the cached token while it lasts; otherwise one
request to the token endpoint, whose success alone replaces the cached token. *)
Theorem Token_spec ctx w :
  wp kc_env (Token new_request_error cfg ctx) (returning (token_got w)) w.
Proof. apply Token_wp. Qed.

(** Lifetimes.  A token announced for more than 30 s (and less than 292 years)
is dropped 30 s early; a shorter one is kept to its end. *)
Theorem token_lifetime_skewed n :
  0 <= n <= 9223372036 ->
  token_lifetime n = if 30 <? n then (n - 30) * Second else n * Second.
Proof.
  intros Hn. unfold token_lifetime, dur_mul, dur_sub, refreshSkew.
  rewrite (wrap64_id (n * Second)) by (unfold is_int64, int64_min, int64_max, Second; lia).
  assert ((30 * Second <? n * Second) = (30 <? n)) as ->.
  { unfold Second. destruct (30 <? n) eqn:H; to_prop; [apply Z.ltb_lt|apply Z.ltb_ge]; lia. }
  destruct (30 <? n) eqn:H; to_prop; [|done].
  rewrite wrap64_id; unfold is_int64, int64_min, int64_max, Second; lia.
Qed.

(** ** Retries *)

(** What the answer to an authenticated request means: 401, 5xx and transport
errors are worth a second attempt, nothing else is. *)
Definition judge (method : string) (x : result error HttpResponse) : attempted :=
  match x with
  | Err err => Retry (ErrWrap ("keycloak: " +:+ method +:+ " request failed: ") err "")
  | Ok resp =>
      if decide (StatusCode resp = 401) then Retry (ErrText "keycloak: unauthorized")
      else if 500 <=? StatusCode resp then Retry (returned (StatusCode resp))
      else if 400 <=? StatusCode resp then Return (Err (returned (StatusCode resp)))
      else match ReadErr resp with
           | Some err => Return (Err (ErrWrap "keycloak: read response: " err ""))
           | None => Return (Ok (RespBody resp))
           end
  end.

Definition unauthorized (x : result error HttpResponse) : bool :=
  match x with Ok resp => bool_decide (StatusCode resp = 401) | Err _ => false end.

(** One attempt: a token, then one request, whose 401 drops the token. *)
Definition attempt_made (method url : string) (body : option string) (w : KWorld)
    (a : attempted) (w' : KWorld) : Prop :=
  exists tr w1, token_got w tr w1 /\
    match tr with
    | Err err => a = Retry err /\ w' = w1
    | Ok tok =>
        match new_request_error method url with
        | Some err => a = Return (Err (ErrWrap "keycloak: build request: " err "")) /\ w' = w1
        | None => exists x, a = judge method x /\
            let w2 := with_exchange (admin_request method url tok body, x) w1 in
            w' = if unauthorized x then with_token "" (kexpires w2) w2 else w2
        end
    end.

Lemma attempt_wp ctx method url body w :
  wp kc_env (attempt new_request_error cfg ctx method url body)
    (returning (attempt_made method url body w)) w.
Proof.
  unfold attempt, attempt_made. eapply wp_seq; [apply Token_wp|].
  intros tr w1 Htr. destruct tr as [tok|err]; kc_wp; [|by eexists _, _].
  destruct (new_request_error method url) as [err|] eqn:Hreq; kc_wp; [by eexists _, _|].
  kc_call x w2 H; subst w2.
  assert (forall a w',
    a = judge method x ->
    w' = (if unauthorized x then
       with_token "" (kexpires (with_exchange (admin_request method url tok body, x) w1))
         (with_exchange (admin_request method url tok body, x) w1)
     else with_exchange (admin_request method url tok body, x) w1) ->
    exists tr w1, token_got w tr w1 /\
      match tr with
      | Err err => a = Retry err /\ w' = w1
      | Ok tok =>
          exists x, a = judge method x /\
              let w2 := with_exchange (admin_request method url tok body, x) w1 in
              w' = if unauthorized x then with_token "" (kexpires w2) w2 else w2
      end) as Hend.
  { intros a w' Ha Hw'. exists (Ok tok), w1. split; [done|]. by exists x. }
  destruct x as [resp|err]; [|kc_wp; by apply Hend].
  unfold judge, unauthorized in Hend. case_decide as H401.
  - unfold Invalidate. kc_wp. kc_call u w2 H; subst w2. kc_call u2 w2 H; subst w2.
    kc_call u3 w2 H; subst w2. apply Hend; [done|]. by rewrite bool_decide_eq_true_2.
  - rewrite bool_decide_eq_false_2 in Hend by done.
    destruct (500 <=? _); [by apply Hend|]. destruct (400 <=? _); [by apply Hend|].
    destruct (ReadErr resp); by apply Hend.
Qed.

(** C25: [do] makes one attempt, and a second one exactly when the first ended in a
missing token, a transport error, a 5xx or a 401; the second one's outcome is
final. *)
Theorem do_spec ctx method url body w :
  wp kc_env (do new_request_error cfg ctx method url body) (returning (fun r w' =>
    exists a1 w1, attempt_made method url body w a1 w1 /\
      match a1 with
      | Return r1 => r = r1 /\ w' = w1
      | Retry _ => exists a2, attempt_made method url body w1 a2 w' /\
          r = match a2 with Return r2 => r2 | Retry err => Err err end
      end)) w.
Proof.
  unfold do. cbn [attempts]. eapply wp_seq; [apply attempt_wp|].
  intros a1 w1 H1. destruct a1 as [err1|r1]; kc_wp; [|by exists (Return r1), w1].
  eapply wp_seq; [apply attempt_wp|]. intros a2 w2 H2.
  destruct a2 as [err2|r2]; kc_wp; (exists (Retry err1), w1; split; [done|]).
  - by exists (Retry err2).
  - by exists (Return r2).
Qed.

(** ** Reading answers *)

Lemma list_find_Some_in {A} (P : A -> Prop) `{forall x, base.Decision (P x)} l i x :
  list_find P l = Some (i, x) -> x ∈ l /\ P x.
Proof.
  intros Hf. apply list_find_Some in Hf as (Hl & Hp & _).
  split; [by eapply list_elem_of_lookup_2|done].
Qed.

(** [UserID] takes no substitute: an id it reads from an answer belongs to a
user whose name equals the repository up to case; and it gives up only when the
answer holds no such user. *)
Theorem pick_user_spec username users :
  match pick_user fold_unicode username users with
  | Some id => id <> "" /\ exists name, (id, name) ∈ users /\
      EqualFold fold_unicode name username = true
  | None => forall id name, (id, name) ∈ users -> id <> "" ->
      EqualFold fold_unicode name username = false
  end.
Proof.
  unfold pick_user. destruct (list_find _ _) as [[i [id name]]|] eqn:Hf.
  - apply list_find_Some_in in Hf as [Hin [Hid Hname]]. split; [done|]. by exists name.
  - intros id name Hin Hid. apply list_find_None, Forall_forall with (x := (id, name)) in Hf;
      [|done]. destruct (EqualFold _ _ _) eqn:He; [|done]. by destruct Hf.
Qed.

(** [Evaluate] fails closed: the answer grants exactly when it is JSON whose
status is PERMIT, denies exactly when it is DENY, and anything else is an error. *)
Theorem eval_answer_spec raw b :
  eval_answer IsPrint raw = Ok b <->
  exists j, Unmarshal raw = Some j /\ dec_status j "" = Some (if b then "PERMIT" else "DENY").
Proof.
  unfold eval_answer, unmarshal. destruct (Unmarshal raw) as [j|]; [|split; [done|by intros (j & ? & _)]].
  destruct (dec_status j "") as [st|] eqn:Hst.
  - split.
    + intros H. exists j. split; [done|]. rewrite Hst. repeat case_decide; naive_solver.
    + intros (j' & [= <-] & Hj). rewrite Hst in Hj. injection Hj as ->. by destruct b.
  - split; [done|]. intros (j' & [= <-] & Hj). congruence.
Qed.

(** ** Requests name what they ask about *)

Lemma str_app_inj_l a x y : a +:+ x = a +:+ y -> x = y.
Proof.
  intros H. apply (f_equal (str_drop (String.length a))) in H.
  by rewrite !str_drop_app in H.
Qed.

(** No repository name can make the lookup ask about another user: the URL
determines the name. *)
Theorem users_url_inj u v : users_url cfg u = users_url cfg v -> u = v.
Proof.
  unfold users_url, adminURL. intros H. apply QueryEscape_inj.
  do 4 apply str_app_inj_l in H. exact H.
Qed.

(** The evaluation asked for is read by Keycloak as it was meant, ill-formed bytes
replaced. *)
Theorem evalRequest_read userID resource scope :
  Unmarshal (Marshal (evalRequest userID resource scope)) =
    Some (evalRequest (sanitize userID) (sanitize resource) (sanitize scope)).
Proof. apply Unmarshal_Marshal; [done|by apply Nat.leb_le]. Qed.

End Client.

(** *** Cache keys

A key joins its fields with NUL bytes.  The number of NUL bytes in a key tells
whether the fields hold any, so a key made of fields without them is the key of
nothing else. *)

Definition nuls (s : string) : nat := str_count "000"%char s.

Lemma nuls_zero s : nuls s = 0%nat <-> str_in "000"%char s = false.
Proof.
  unfold nuls. pose proof (str_in_count "000"%char s) as H.
  destruct (str_in "000"%char s); [split; [lia|done]|].
  split; [done|]. intros _. destruct (str_count _ s); [done|]. destruct H as [_ H].
  discriminate H. lia.
Qed.

(** The fields of a request hold no NUL byte. *)
Definition nul_free (req : Request) : Prop :=
  str_in "000"%char (Req_Repository req) = false /\
  str_in "000"%char (Req_Action req) = false /\
  str_in "000"%char (Req_Namespace req) = false /\
  str_in "000"%char (Req_Deployment req) = false /\
  str_in "000"%char (Req_Ref req) = false.

Lemma refs_key_inj r a r' a' :
  str_in "000"%char r = false -> str_in "000"%char a = false ->
  refs_key r a = refs_key r' a' -> r = r' /\ a = a'.
Proof.
  intros Hr Ha H. apply (str_split_unique "000"%char); [done| |exact H].
  apply (f_equal nuls) in H. unfold refs_key, nuls in H. rewrite !str_count_app in H.
  apply nuls_zero in Hr. apply nuls_zero in Ha. apply nuls_zero. unfold nuls in *. lia.
Qed.

Lemma nuls_decisionKey r :
  nuls (decisionKey r) =
  (4 + nuls (Req_Repository r) + nuls (Req_Action r) + nuls (Req_Namespace r) +
   nuls (Req_Deployment r) + nuls (Req_Ref r))%nat.
Proof.
  unfold decisionKey, nuls. rewrite !str_count_app. change (str_count "000"%char nul) with 1%nat. lia.
Qed.

Lemma nul_free_nuls r : nul_free r <-> nuls (decisionKey r) = 4%nat.
Proof.
  unfold nul_free. rewrite <- !nuls_zero, nuls_decisionKey. lia.
Qed.

Lemma decisionKey_inj_lemma r r' : nul_free r -> decisionKey r = decisionKey r' -> r = r'.
Proof.
  intros Hn H. assert (nul_free r') as Hn' by (apply nul_free_nuls; rewrite <- H; by apply nul_free_nuls).
  destruct Hn as (H1 & H2 & H3 & H4 & _), Hn' as (H1' & H2' & H3' & H4' & _). unfold decisionKey in H.
  apply (str_split_unique "000"%char) in H as [E1 H]; [|done..].
  apply (str_split_unique "000"%char) in H as [E2 H]; [|done..].
  apply (str_split_unique "000"%char) in H as [E3 H]; [|done..].
  apply (str_split_unique "000"%char) in H as [E4 E5]; [|done..].
  destruct r, r'; simpl in *; by subst.
Qed.

(** C27: the decision cache key of a request whose fields hold no NUL byte is the key of
no other request, whatever the fields of that one hold: nobody's permit can be
served to it but its own. *)
Theorem decisionKey_inj r r' :
  nul_free r -> decisionKey r = decisionKey r' -> r = r'.
Proof. apply decisionKey_inj_lemma. Qed.

Definition deploy_request : Request :=
  {| Req_Repository := "tuncloud/backend"; Req_Action := "deployment.restart";
     Req_Namespace := "app"; Req_Deployment := "api"; Req_Ref := "refs/heads/main" |}.

Lemma decisionKey_inj_witness :
  nul_free deploy_request /\ deploy_request = deploy_request.
Proof.
  split; [vm_compute; repeat split|].
  apply decisionKey_inj; vm_compute; repeat split.
Defined.

(** With NUL bytes two different requests can share a key. *)
Definition nul_request (namespace deployment : string) : Request :=
  {| Req_Repository := "r"; Req_Action := "a"; Req_Namespace := namespace;
     Req_Deployment := deployment; Req_Ref := "m" |}.

Example decisionKey_collision :
  let r := nul_request ("x" +:+ nul +:+ "y") "z" in
  let r' := nul_request "x" ("y" +:+ nul +:+ "z") in
  decisionKey r = decisionKey r' /\ r <> r'.
Proof. split; [vm_compute; reflexivity|]. discriminate. Qed.

(** ** The client secret *)

(** A request as seen by everyone but the token endpoint. *)
Definition scrub_request (req : HttpRequest) : HttpRequest := {|
  Method := Method req; URL := URL req; Authorization := Authorization req;
  ContentType := ContentType req;
  Body := match Body req with FormBody _ => FormBody "" | b => b end |}.

Definition scrub X (e : kcE X) : kcE X :=
  match e in kcE X return kcE X with
  | HttpDo timeout ctx req => HttpDo timeout ctx (scrub_request req)
  | e => e
  end.

Definition with_secret (secret : string) (c : Config) : Config :=
  {| BaseURL := BaseURL c; Realm := Realm c; ClientID := ClientID c; ClientSecret := secret;
     Timeout := Timeout c |}.

Section Secret.
Variable new_request_error : string -> string -> option error.
Variable IsPrint : Z -> bool.
Variable fold_unicode : string -> string -> bool.
Variable cfg : Config.
Variable secret : string.

Local Abbreviation cfg' := (with_secret secret cfg).

Lemma alike_locked {A} mu (p p' : prog kcE A) :
  alike scrub p p' -> alike scrub (locked mu p) (locked mu p').
Proof.
  intros Hp. constructor; [done|]. intros x. apply alike_bind; [done|].
  intros a. apply alike_refl.
Qed.

Lemma Token_alike ctx :
  alike scrub (Token new_request_error cfg ctx) (Token new_request_error cfg' ctx).
Proof.
  apply alike_locked. apply alike_bind; [apply alike_refl|]. intros [token expiresAt].
  apply alike_bind; [apply alike_refl|]. intros []; [apply alike_refl|].
  change (tokenURL cfg') with (tokenURL cfg).
  destruct (new_request_error _ _); [apply alike_refl|].
  apply (alike_vis scrub _ (HttpDo _ ctx (token_request cfg)) (HttpDo _ ctx (token_request cfg')));
    [done|]. intros x. apply alike_refl.
Qed.

Lemma do_alike ctx method url body :
  alike scrub (do new_request_error cfg ctx method url body)
    (do new_request_error cfg' ctx method url body).
Proof.
  assert (alike scrub (attempt new_request_error cfg ctx method url body)
            (attempt new_request_error cfg' ctx method url body)) as Ha.
  { apply alike_bind; [apply Token_alike|]. intros r. apply alike_refl. }
  assert (forall n e, alike scrub (attempts new_request_error cfg n e ctx method url body)
            (attempts new_request_error cfg' n e ctx method url body)) as Hn; [|apply Hn].
  induction n as [|n IH]; intros e; [apply alike_refl|]. cbn [attempts].
  apply alike_bind; [done|]. intros [err|r]; [apply IH|apply alike_refl].
Qed.

Lemma UUID_alike ctx :
  alike scrub (ResourceServerUUID new_request_error IsPrint cfg ctx)
    (ResourceServerUUID new_request_error IsPrint cfg' ctx).
Proof.
  apply alike_locked. apply alike_bind; [apply alike_refl|]. intros uuid.
  case_decide; [|apply alike_refl]. apply alike_bind; [apply do_alike|].
  intros x. apply alike_refl.
Qed.

Lemma evaluate_alike ctx req :
  alike scrub (evaluate new_request_error IsPrint fold_unicode cfg ctx req)
    (evaluate new_request_error IsPrint fold_unicode cfg' ctx req).
Proof.
  apply alike_bind.
  { apply alike_bind; [apply alike_refl|]. intros [id|]; [apply alike_refl|].
    apply alike_bind; [apply do_alike|]. intros x. apply alike_refl. }
  intros [userID|err]; [|apply alike_refl]. apply alike_bind.
  { apply alike_bind; [apply UUID_alike|]. intros [uuid|err]; [|apply alike_refl].
    apply alike_bind; [apply do_alike|]. intros x. apply alike_refl. }
  intros [[]|err]; [|apply alike_refl..]. apply alike_bind.
  { apply alike_bind; [apply alike_refl|]. intros [v|]; [apply alike_refl|].
    apply alike_bind; [apply UUID_alike|]. intros [uuid|err]; [|apply alike_refl].
    apply alike_bind; [apply do_alike|]. intros x. apply alike_refl. }
  intros x. apply alike_refl.
Qed.

(** C23: the secret stays with the token endpoint.  Whatever Keycloak answers,
everything the authorizer does and returns (URLs, headers, JSON bodies, logs,
errors, cached state, decisions) is the same whatever the client secret is, the
body of the token request excepted. *)
Theorem secret_not_revealed ctx req :
  alike scrub (Authorize new_request_error IsPrint fold_unicode cfg ctx req)
    (Authorize new_request_error IsPrint fold_unicode cfg' ctx req).
Proof.
  apply alike_bind; [apply alike_refl|]. intros cached. case_decide; [apply alike_refl|].
  apply alike_bind; [apply evaluate_alike|]. intros d. apply alike_refl.
Qed.

(** ** Mutexes *)

(** Mutexes are ordered; a goroutine takes them in increasing order, releases the
last one taken, and waits for the network with the token and UUID mutexes only. *)
Definition rank (mu : mutex) : nat :=
  match mu with UuidMu => 0 | TokenMu => 1 | CacheMu _ => 2 end.

Definition lock_pre X (e : kcE X) (held : list mutex) : Prop :=
  match e with
  | Lock mu | RLock mu => Forall (fun h => rank h < rank mu)%nat held
  | Unlock mu | RUnlock mu => exists rest, held = mu :: rest
  | HttpDo _ _ _ => Forall (fun h => h = TokenMu \/ h = UuidMu) held
  | _ => True
  end.

Definition lock_step X (e : kcE X) (held : list mutex) (_ : X) (held' : list mutex) : Prop :=
  match e with
  | Lock mu | RLock mu => held' = mu :: held
  | Unlock mu | RUnlock mu => held = mu :: held'
  | _ => held' = held
  end.

Definition lock_proto : spec kcE (list mutex) :=
  {| spec_pre := lock_pre; spec_post := lock_step |}.

(** The program ends holding what it held. *)
Definition balanced {A} (held : list mutex) (o : outcome A) (held' : list mutex) : Prop :=
  match o with Done _ => held' = held | Halted _ => False end.

Ltac lk_call x :=
  split; [first [exact I | by eexists | assumption | by repeat constructor | by constructor; [left|]]|];
  let h' := fresh "h'" in let H := fresh "Hh" in
  intros x h' H; cbn [lock_proto spec_post lock_step] in H; simplify_eq.

Lemma lk_seq {A B} (p : prog kcE A) (f : A -> prog kcE B) held held0 :
  wp lock_proto p (balanced held) held ->
  (forall a, wp lock_proto (f a) (balanced held0) held) ->
  wp lock_proto (bind p f) (balanced held0) held.
Proof. intros Hp Hf. eapply wp_seq; [exact Hp|]. by intros a h ->. Qed.

Lemma lk_locked {A} mu (p : prog kcE A) held :
  Forall (fun h => rank h < rank mu)%nat held ->
  wp lock_proto p (balanced (mu :: held)) (mu :: held) ->
  wp lock_proto (locked mu p) (balanced held) held.
Proof.
  intros Hr Hp. unfold locked. kc_wp. lk_call u.
  eapply lk_seq; [exact Hp|]. intros a. kc_wp. by lk_call v.
Qed.

Lemma lk_get {V} (c : cache_id V) key maxAge :
  wp lock_proto (cache_get c key maxAge) (balanced []) [].
Proof.
  unfold cache_get. kc_wp. lk_call u. lk_call e. lk_call v.
  destruct e; kc_wp; [|done]. lk_call now. by destruct (_ <? _).
Qed.

Lemma lk_put {V} (c : cache_id V) key v : wp lock_proto (Put c key v) (balanced []) [].
Proof.
  unfold Put. kc_wp. lk_call u. lk_call now. lk_call x. by lk_call y.
Qed.

Lemma lk_do ctx method url body held :
  Forall (fun h => h = UuidMu) held ->
  wp lock_proto (do new_request_error cfg ctx method url body) (balanced held) held.
Proof.
  intros Hheld.
  assert (Forall (fun h => rank h < rank TokenMu)%nat held) as Hrank.
  { eapply Forall_impl; [exact Hheld|]. intros h ->. simpl. lia. }
  assert (Forall (fun h => h = TokenMu \/ h = UuidMu) held) as Hnet.
  { eapply Forall_impl; [exact Hheld|]. intros h ->. by right. }
  assert (wp lock_proto (Token new_request_error cfg ctx) (balanced held) held) as Htok.
  { apply lk_locked; [done|]. kc_wp. lk_call x. destruct x as [token expiresAt].
    apply lk_seq with (held := TokenMu :: held).
    - case_decide; kc_wp; [done|]. by lk_call now.
    - intros []; kc_wp; [done|]. destruct (new_request_error _ _); kc_wp; [done|].
      lk_call r. destruct r as [resp|]; kc_wp; [|done].
      destruct (token_answer resp) as [[tok n]|]; kc_wp; [|done]. lk_call now. by lk_call y. }
  assert (wp lock_proto (attempt new_request_error cfg ctx method url body) (balanced held) held)
    as Hatt.
  { apply lk_seq with (held := held); [exact Htok|]. intros [tok|err]; kc_wp; [|done].
    destruct (new_request_error _ _); kc_wp; [done|]. lk_call r.
    destruct r as [resp|]; kc_wp; [|done]. case_decide; kc_wp.
    - unfold Invalidate. kc_wp. lk_call u. lk_call x. by lk_call y.
    - destruct (500 <=? _); [done|]. destruct (400 <=? _); [done|]. by destruct (ReadErr resp). }
  unfold do. cbn [attempts]. apply lk_seq with (held := held); [exact Hatt|].
  intros [e|r]; kc_wp; [|done]. apply lk_seq with (held := held); [exact Hatt|].
  by intros [e'|r].
Qed.

Lemma lk_uuid ctx :
  wp lock_proto (ResourceServerUUID new_request_error IsPrint cfg ctx) (balanced []) [].
Proof.
  apply lk_locked; [by constructor|]. kc_wp. lk_call uuid. case_decide; [|done].
  apply lk_seq with (held := [UuidMu]); [by apply lk_do; repeat constructor|].
  intros [raw|err]; kc_wp; [|done]. destruct (unmarshal _ _ _ _); kc_wp; [|done].
  destruct (pick_client _ _); kc_wp; [|done]. by lk_call x.
Qed.

(** C24: no deadlock.  [Authorize] takes mutexes in increasing rank, never one it
holds, releases them all on every path, and never waits for Keycloak while
holding a cache's mutex. *)
Theorem Authorize_lock_order ctx req :
  wp lock_proto (Authorize new_request_error IsPrint fold_unicode cfg ctx req) (balanced []) [].
Proof.
  apply lk_seq with (held := []); [apply lk_get|]. intros cached. case_decide; [done|].
  apply lk_seq with (held := []).
  - apply lk_seq with (held := []).
    { apply lk_seq with (held := []); [apply lk_get|]. intros [id|]; [done|].
      apply lk_seq with (held := []); [by apply lk_do|]. intros [raw|err]; [|done].
      destruct (unmarshal _ _ _ _); [|done]. destruct (pick_user _ _ _); [|done].
      apply lk_seq with (held := []); [apply lk_put|]. done. }
    intros [userID|err]; [|by destruct (error_Is _ _)]. apply lk_seq with (held := []).
    { apply lk_seq with (held := []); [apply lk_uuid|]. intros [uuid|err]; [|done].
      apply lk_seq with (held := []); [by apply lk_do|]. by intros [raw|err]. }
    intros [[]|err]; [|done..]. apply lk_seq with (held := []).
    { apply lk_seq with (held := []); [apply lk_get|]. intros [v|]; [done|].
      apply lk_seq with (held := []); [apply lk_uuid|]. intros [uuid|err]; [|done].
      apply lk_seq with (held := []); [by apply lk_do|]. intros [raw|err]; [|done].
      destruct (unmarshal _ _ _ _) as [rs|]; [|done]. apply lk_seq with (held := []).
      - destruct (pick_resource _ _); [done|]. kc_wp. by lk_call x.
      - intros out. apply lk_seq with (held := []); [apply lk_put|]. done. }
    intros [refs|err]; [|done]. destruct (Ref.MatchRef _ _) as [[] [err|]]; try done;
      kc_wp; by lk_call x.
  - intros [d|err].
    + apply lk_seq with (held := []); [destruct (Allowed d); [apply lk_put|done]|]. done.
    + apply lk_seq with (held := []); [apply lk_get|]. intros stale. case_decide; [|done].
      kc_wp. by lk_call x.
Qed.

End Secret.
