(* ===== verification/KeycloakRace.v ===== *)
(** * No authorization without a PERMIT

Any number of [Authorize] calls run at once, sharing the token, the resource
server's UUID and the three caches.  Whatever Keycloak answers, in every
interleaving each allowed request is backed by answers Keycloak did give: to the
lookup of that repository's user, to the evaluation of that user's access to that
deployment, and to the lookup of that deployment's ref constraints. *)

From stdpp Require Import relations.
From S2P Require Import Prelude GoStrings GoRuntime GoNet GoJson Effects Authz Keycloak KeycloakSpec.

Local Open Scope string_scope.
Local Open Scope list_scope.
Local Open Scope Z_scope.

(** ** The service *)

(** [Authorize] calls, and the answers they give. *)
Inductive svcE : Type -> Type :=
  | Kc {X} (e : kcE X) : svcE X
  | Answer (req : Request) (r : result error Decision) : svcE unit.

Section Service.
Variable new_request_error : string -> string -> option error.
Variable IsPrint : Z -> bool.
Variable fold_unicode : string -> string -> bool.
Variable cfg : Config.

Definition serve (ctx : Context) (req : Request) : prog svcE unit :=
  bind (hoist (@Kc) (Authorize new_request_error IsPrint fold_unicode cfg ctx req))
    (fun r => call (Answer req r)).

Inductive request_in : prog svcE unit -> Prop :=
  | request_in_serve ctx req : request_in (serve ctx req).

Definition svc_post X (e : svcE X) (s : KWorld * list (Request * result error Decision)) :
    X -> KWorld * list (Request * result error Decision) -> Prop :=
  match e in svcE X return X -> KWorld * _ -> Prop with
  | Kc e => fun x s' => kc_post _ e s.1 x s'.1 /\ s'.2 = s.2
  | Answer req r => fun _ s' => s' = (s.1, (req, r) :: s.2)
  end.

Definition svc_env : spec svcE (KWorld * list (Request * result error Decision)) :=
  {| spec_pre := fun _ _ _ => True; spec_post := svc_post |}.

Definition svc_step := pstep svc_env (fun _ _ => []) request_in True.

(** ** What Keycloak has answered *)

(** Among the exchanges [T] is an authenticated request, accepted, with this body
in the answer. *)
Definition answered (T : list exchange) (method url : string) (body : option string) (raw : string) : Prop :=
  exists tok x, (admin_request method url tok body, x) ∈ T /\ judge method x = Return (Ok raw).

Definition uuid_fact (T : list exchange) (uuid : string) : Prop :=
  exists raw clients, answered T "GET" (clients_url cfg) None raw /\
    unmarshal (dec_named "clientId") [] "clients" raw = Ok clients /\
    pick_client cfg clients = Some uuid.

(** The user lookup for [name] returned a user of that name with this id. *)
Definition user_fact (T : list exchange) (name id : string) : Prop :=
  exists raw users, answered T "GET" (users_url cfg name) None raw /\
    unmarshal (dec_named "username") [] "users" raw = Ok users /\
    pick_user fold_unicode name users = Some id.

(** The evaluation of [scope] on [resource] for [userID] returned PERMIT. *)
Definition grant_fact (T : list exchange) (userID resource scope : string) : Prop :=
  exists uuid raw, uuid_fact T uuid /\
    answered T "POST" (evaluate_url cfg uuid) (Some (Marshal (evalRequest userID resource scope))) raw /\
    eval_answer IsPrint raw = Ok true.

(** The resource lookup gave these constraints. *)
Definition refs_fact (T : list exchange) (resource action : string) (refs : list string) : Prop :=
  exists uuid raw rs, uuid_fact T uuid /\
    answered T "GET" (resources_url cfg uuid resource) None raw /\
    unmarshal dec_resources [] "resources" raw = Ok rs /\
    refs = match pick_resource resource rs with
           | Some attrs => refs_of attrs action
           | None => []
           end.

Definition permit_fact (T : list exchange) (req : Request) : Prop :=
  exists id refs, user_fact T (Req_Repository req) id /\
    grant_fact T id (resourceName req) (Req_Action req) /\
    refs_fact T (resourceName req) (Req_Action req) refs /\
    Ref.MatchRef refs (Req_Ref req) = (true, None).

(** What an entry of a cache stands for. *)
Definition entry_fact {V} (c : cache_id V) (T : list exchange) (key : string) : V -> Prop :=
  match c in cache_id V return V -> Prop with
  | UserIDs => user_fact T key
  | Refs => fun v => forall r a, str_in "000"%char r = false -> str_in "000"%char a = false ->
      key = refs_key r a -> refs_fact T r a v
  | Decisions => fun v => v = true ->
      forall req, nul_free req -> key = decisionKey req -> permit_fact T req
  end.

(** Facts stay true as exchanges are added. *)
Lemma answered_mono T T' method url body raw :
  T ⊆ T' -> answered T method url body raw -> answered T' method url body raw.
Proof. intros HT (tok & x & Hin & Hj). exists tok, x. split; [by apply HT|done]. Qed.

Lemma uuid_fact_mono T T' u : T ⊆ T' -> uuid_fact T u -> uuid_fact T' u.
Proof. intros HT (raw & cl & Ha & H). exists raw, cl. split; [by eapply answered_mono|done]. Qed.

Lemma user_fact_mono T T' name id : T ⊆ T' -> user_fact T name id -> user_fact T' name id.
Proof. intros HT (raw & us & Ha & H). exists raw, us. split; [by eapply answered_mono|done]. Qed.

Lemma grant_fact_mono T T' id r a : T ⊆ T' -> grant_fact T id r a -> grant_fact T' id r a.
Proof.
  intros HT (uuid & raw & Hu & Ha & H). exists uuid, raw.
  split; [by eapply uuid_fact_mono|]. split; [by eapply answered_mono|done].
Qed.

Lemma refs_fact_mono T T' r a v : T ⊆ T' -> refs_fact T r a v -> refs_fact T' r a v.
Proof.
  intros HT (uuid & raw & rs & Hu & Ha & H). exists uuid, raw, rs.
  split; [by eapply uuid_fact_mono|]. split; [by eapply answered_mono|done].
Qed.

Lemma permit_fact_mono T T' req : T ⊆ T' -> permit_fact T req -> permit_fact T' req.
Proof.
  intros HT (id & refs & Hu & Hg & Hr & Hm). exists id, refs.
  split; [by eapply user_fact_mono|]. split; [by eapply grant_fact_mono|].
  split; [by eapply refs_fact_mono|done].
Qed.

Lemma entry_fact_mono {V} (c : cache_id V) T T' key v :
  T ⊆ T' -> entry_fact c T key v -> entry_fact c T' key v.
Proof.
  intros HT. destruct c; simpl.
  - by apply user_fact_mono.
  - intros H r a Hr Ha Hk. by eapply refs_fact_mono, H.
  - intros H Hv req Hn Hk. by eapply permit_fact_mono, H.
Qed.

(** ** The discipline

A goroutine knows some of the exchanges that took place ([g]); it caches, and
answers, only what they justify; what it reads from a cache, it knows to be
justified. *)

Definition know_pre X (e : kcE X) (g : list exchange) : Prop :=
  match e with
  | UuidWrite u => uuid_fact g u
  | CacheWrite c key e => entry_fact c g key (value e)
  | _ => True
  end.

Definition learnt X (e : kcE X) (x : X) (g' : list exchange) : Prop :=
  match e in kcE X return X -> Prop with
  | HttpDo _ _ req => fun x => (req, x) ∈ g'
  | UuidRead => fun u => u <> "" -> uuid_fact g' u
  | CacheRead c key => fun x =>
      match x with Some e => entry_fact c g' key (value e) | None => True end
  | _ => fun _ => True
  end x.

Definition know : spec kcE (list exchange) :=
  {| spec_pre := know_pre; spec_post := fun X e g x g' => g ⊆ g' /\ learnt X e x g' |}.

Ltac kn_call x g' :=
  split;
  [ first [exact I | eassumption | idtac]
  | let H := fresh "H" in let Hsub := fresh "Hsub" in let Hl := fresh "Hl" in
    intros x g' H; cbn [know spec_post learnt] in H; destruct H as [Hsub Hl] ].

(** Postconditions: more is known, and [Q] holds of the result. *)
Definition knows {A} (Q : A -> list exchange -> Prop) (g : list exchange) :
    outcome A -> list exchange -> Prop :=
  returning (fun a g' => g ⊆ g' /\ Q a g').

Lemma kn_seq {A B} (p : prog kcE A) (f : A -> prog kcE B) Q R g :
  wp know p (knows Q g) g ->
  (forall a g', g ⊆ g' -> Q a g' -> wp know (f a) (knows R g') g') ->
  wp know (bind p f) (knows R g) g.
Proof.
  intros Hp Hf. eapply wp_seq; [exact Hp|]. intros a g' [Hsub HQ].
  eapply wp_mono; [|by apply Hf]. intros [b|s] g''; [|done]. intros [Hsub' HR].
  split; [by etrans|done].
Qed.

Lemma kn_weaken {A} (p : prog kcE A) Q g g' :
  g ⊆ g' -> wp know p (knows Q g') g' -> wp know p (knows Q g) g'.
Proof.
  intros Hsub. apply wp_mono. intros [a|s] g''; [|done]. intros [H HQ]. split; [by etrans|done].
Qed.

Lemma kn_locked {A} mu (p : prog kcE A) (Q : A -> list exchange -> Prop) g :
  (forall a g g', g ⊆ g' -> Q a g -> Q a g') ->
  (forall g', g ⊆ g' -> wp know p (knows Q g') g') -> wp know (locked mu p) (knows Q g) g.
Proof.
  intros Hmono Hp. unfold locked. kc_wp. kn_call u g1. apply kn_weaken; [done|].
  eapply kn_seq; [by apply Hp|]. intros a g2 _ HQ. kc_wp. kn_call v g3.
  split; [done|]. by eapply Hmono.
Qed.

Lemma kn_get {V} (c : cache_id V) key maxAge g :
  wp know (cache_get c key maxAge) (knows (fun r g' =>
    match r with Some v => entry_fact c g' key v | None => True end) g) g.
Proof.
  unfold cache_get. kc_wp. kn_call u g1. kn_call e g2. kn_call v g3.
  assert (g ⊆ g3) by (etrans; [done|]; by etrans). destruct e as [e|]; kc_wp; [|done].
  kn_call now g4. destruct (_ <? _); (split; [by etrans|]); [done|].
  eapply entry_fact_mono; [|done]. by etrans.
Qed.

Lemma kn_put {V} (c : cache_id V) key v g :
  entry_fact c g key v -> wp know (Put c key v) (knows (fun _ _ => True) g) g.
Proof.
  intros Hf. unfold Put. kc_wp. kn_call u g1. kn_call now g2. kn_call x g3.
  { simpl. eapply entry_fact_mono; [|exact Hf]. by etrans. }
  kn_call y g4. split; [|done]. etrans; [done|]. etrans; [done|]. by etrans.
Qed.

Lemma kn_token ctx g :
  wp know (Token new_request_error cfg ctx) (knows (fun _ _ => True) g) g.
Proof.
  apply kn_locked; [done|]. intros g1 _. kc_wp. kn_call x g2. destruct x as [token expiresAt].
  apply kn_weaken; [done|]. apply kn_seq with (Q := fun _ _ => True).
  - case_decide; kc_wp; [done|]. by kn_call now g3.
  - intros [] g3 _ _; kc_wp; [done|]. destruct (new_request_error _ _); kc_wp; [done|].
    kn_call r g4. destruct r as [resp|]; kc_wp; [|done].
    destruct (token_answer resp) as [[tok n]|]; kc_wp; [|done]. kn_call now g5. kn_call y g6.
    split; [|done]. etrans; [done|]. by etrans.
Qed.

Lemma kn_attempt ctx method url body g :
  wp know (attempt new_request_error cfg ctx method url body) (knows (fun a g' =>
    forall raw, a = Return (Ok raw) -> answered g' method url body raw) g) g.
Proof.
  eapply kn_seq; [apply kn_token|]. intros [tok|err] g1 _ _; kc_wp; [|done].
  destruct (new_request_error _ _); kc_wp; [done|]. kn_call x g2.
  assert (forall a, a = judge method x ->
            forall raw, a = Return (Ok raw) -> answered g2 method url body raw) as Hend.
  { intros a -> raw Hraw. by exists tok, x. }
  unfold judge in Hend. destruct x as [resp|err]; [|kc_wp; by split].
  case_decide; [|destruct (500 <=? _); [by split|]; destruct (400 <=? _); [by split|];
                 destruct (ReadErr resp); (split; [done|by apply Hend])].
  unfold Invalidate. kc_wp. kn_call u g3. kn_call v g4. kn_call y g5.
  split; [|done]. etrans; [done|]. etrans; [done|]. by etrans.
Qed.

Lemma kn_do ctx method url body g :
  wp know (do new_request_error cfg ctx method url body) (knows (fun r g' =>
    match r with Ok raw => answered g' method url body raw | Err _ => True end) g) g.
Proof.
  unfold do. cbn [attempts]. eapply kn_seq; [apply kn_attempt|].
  intros [e|r] g1 _ H1; kc_wp.
  - eapply kn_seq; [apply kn_attempt|]. intros [e'|r] g2 _ H2; kc_wp; [done|].
    split; [done|]. destruct r; [by apply H2|done].
  - split; [done|]. destruct r; [by apply H1|done].
Qed.

Lemma kn_uuid ctx g :
  wp know (ResourceServerUUID new_request_error IsPrint cfg ctx) (knows (fun r g' =>
    match r with Ok u => uuid_fact g' u | Err _ => True end) g) g.
Proof.
  apply kn_locked.
  { intros [u|e] g1 g2 Hs; [by apply uuid_fact_mono|done]. }
  intros g1 _. kc_wp. kn_call u g2. apply kn_weaken; [done|].
  case_decide; [|by split; [|apply Hl]]. eapply kn_seq; [apply kn_do|].
  intros [raw|err] g3 _ Ha; kc_wp; [|done].
  destruct (unmarshal _ _ _ _) as [cl|] eqn:Hum; kc_wp; [|done].
  destruct (pick_client _ _) as [id|] eqn:Hp; kc_wp; [|done].
  assert (uuid_fact g3 id) as Hid by by exists raw, cl. kn_call x g4.
  split; [done|]. by eapply uuid_fact_mono.
Qed.

Lemma kn_user ctx name g :
  wp know (UserID new_request_error fold_unicode cfg ctx name) (knows (fun r g' =>
    match r with Ok id => user_fact g' name id | Err _ => True end) g) g.
Proof.
  eapply kn_seq; [apply (kn_get UserIDs)|]. intros [id|] g1 _ H1; [by split|].
  eapply kn_seq; [apply kn_do|]. intros [raw|err] g2 _ Ha; [|done].
  destruct (unmarshal _ _ _ _) as [us|] eqn:Hum; [|done].
  destruct (pick_user _ _ _) as [id|] eqn:Hp; [|done].
  assert (user_fact g2 name id) as Hid by by exists raw, us.
  eapply kn_seq; [by apply (kn_put UserIDs)|]. intros [] g3 Hs _. split; [done|].
  by eapply user_fact_mono.
Qed.

Lemma kn_evaluate ctx id resource scope g :
  wp know (Evaluate new_request_error IsPrint cfg ctx id resource scope) (knows (fun r g' =>
    r = Ok true -> grant_fact g' id resource scope) g) g.
Proof.
  eapply kn_seq; [apply kn_uuid|]. intros [uuid|err] g1 _ Hu; [|done].
  eapply kn_seq; [apply kn_do|]. intros [raw|err] g2 Hs Ha; [|done]. split; [done|].
  intros Hok. exists uuid, raw. split; [by eapply uuid_fact_mono|]. done.
Qed.

Lemma kn_refs ctx resource action g :
  wp know (AllowedRefs new_request_error IsPrint cfg ctx resource action) (knows (fun r g' =>
    match r with
    | Ok v => str_in "000"%char resource = false -> str_in "000"%char action = false ->
        refs_fact g' resource action v
    | Err _ => True
    end) g) g.
Proof.
  eapply kn_seq; [apply (kn_get Refs)|]. intros [v|] g1 _ H1.
  { split; [done|]. intros Hr Ha. by apply H1. }
  eapply kn_seq; [apply kn_uuid|]. intros [uuid|err] g2 _ Hu; [|done].
  eapply kn_seq; [apply kn_do|]. intros [raw|err] g3 Hs Ha; [|done].
  destruct (unmarshal _ _ _ _) as [rs|] eqn:Hum; [|done].
  apply kn_seq with (Q := fun out g' => refs_fact g' resource action out).
  - assert (refs_fact g3 resource action
      (match pick_resource resource rs with
       | Some attrs => refs_of attrs action | None => [] end)) as Hf.
    { exists uuid, raw, rs. split; [by eapply uuid_fact_mono|]. done. }
    destruct (pick_resource resource rs); [by split|]. kc_wp. kn_call u g4.
    split; [done|]. by eapply refs_fact_mono.
  - intros out g4 _ Hf. eapply kn_seq.
    { apply (kn_put Refs). intros r a Hr Ha' Hk. symmetry in Hk.
      by destruct (refs_key_inj _ _ _ _ Hr Ha' Hk) as [<- <-]. }
    intros [] g5 Hs5 _. split; [done|]. intros _ _. by eapply refs_fact_mono.
Qed.

Lemma nul_free_resource req :
  nul_free req -> str_in "000"%char (resourceName req) = false.
Proof.
  intros (_ & _ & Hn & Hd & _). unfold resourceName. by rewrite !str_in_app, Hn, Hd.
Qed.

(** What an answer is worth: an allowed request without NUL bytes is permitted. *)
Definition answer_fact (req : Request) (r : result error Decision) (T : list exchange) : Prop :=
  forall d, r = Ok d -> Allowed d = true -> nul_free req -> permit_fact T req.

Lemma answer_fact_mono req r T T' : T ⊆ T' -> answer_fact req r T -> answer_fact req r T'.
Proof. intros HT H d Hd Ha Hn. by eapply permit_fact_mono, H. Qed.

Lemma kn_decide ctx req g :
  wp know (evaluate new_request_error IsPrint fold_unicode cfg ctx req)
    (knows (answer_fact req) g) g.
Proof.
  eapply kn_seq; [apply kn_user|]. intros [id|err] g1 _ Hu.
  2:{ destruct (error_Is _ _); (split; [done|]); by intros d [= <-]. }
  eapply kn_seq; [apply kn_evaluate|]. intros [[]|err] g2 Hs2 Hg;
    [|by split; [|intros d [= <-]]|by split].
  eapply kn_seq; [apply kn_refs|].
  intros [v|err] g3 Hs3 Hr; [|by split].
  destruct (Ref.MatchRef v (Req_Ref req)) as [[] [e|]] eqn:Hm; kc_wp.
  - kn_call u g4. split; [done|]. by intros d [= <-].
  - split; [done|]. intros d _ _ Hn. exists id, v.
    split; [eapply user_fact_mono; [|done]; by etrans|].
    split; [eapply grant_fact_mono; [|by apply Hg]; done|]. split; [|done].
    apply Hr; [by apply nul_free_resource|by destruct Hn as (_ & ? & _)].
  - kn_call u g4. split; [done|]. by intros d [= <-].
  - split; [done|]. by intros d [= <-].
Qed.

Lemma kn_authorize ctx req g :
  wp know (Authorize new_request_error IsPrint fold_unicode cfg ctx req)
    (knows (answer_fact req) g) g.
Proof.
  assert (forall g r, (match r with Some v => entry_fact Decisions g (decisionKey req) v
                               | None => True end) ->
            r = Some true -> nul_free req -> permit_fact g req) as Hhit.
  { intros g1 r Hf -> Hn. by apply Hf. }
  eapply kn_seq; [apply (kn_get Decisions)|]. intros cached g1 _ H1. case_decide as Hc.
  { split; [done|]. intros d _ _. exact (Hhit g1 cached H1 Hc). }
  eapply kn_seq; [by apply kn_decide|]. intros [d|err] g2 _ H2.
  - apply kn_seq with (Q := fun _ _ => True).
    + destruct (Allowed d) eqn:Hal; [|done]. apply (kn_put Decisions).
      intros _ req' Hn Hk. symmetry in Hk. pose proof (decisionKey_inj_lemma _ _ Hn Hk) as ->.
      by apply (H2 d).
    + intros [] g3 Hs _. split; [done|]. intros d' [= <-] Hal Hn.
      eapply permit_fact_mono; [done|]. by apply (H2 d).
  - eapply kn_seq; [apply (kn_get Decisions)|]. intros stale g3 _ H3. case_decide as Hst; [|done].
    kc_wp. kn_call u g4. split; [done|]. intros d _ _ Hn.
    eapply permit_fact_mono; [done|]. exact (Hhit g3 stale H3 Hst Hn).
Qed.

(** ** All interleavings *)

Definition svc_know : spec svcE (list exchange) := {|
  spec_pre := fun X e g =>
    match e with
    | Kc e => know_pre _ e g
    | Answer req r => answer_fact req r g
    end;
  spec_post := fun X e g x g' =>
    g ⊆ g' /\
    match e in svcE X return X -> Prop with
    | Kc e => fun x => learnt _ e x g'
    | Answer _ _ => fun _ => True
    end x |}.

(** What goroutines know did happen, what is cached is justified, and so is what
was answered. *)
Record backed (gs : list (list exchange))
    (s : KWorld * list (Request * result error Decision)) : Prop := {
  backed_known : forall g, g ∈ gs -> g ⊆ exchanges s.1;
  backed_uuid : kuuid s.1 <> "" -> uuid_fact (exchanges s.1) (kuuid s.1);
  backed_entry : forall V (c : cache_id V) key e,
    entries c s.1 !! key = Some e -> entry_fact c (exchanges s.1) key (value e);
  backed_answer : forall req r, (req, r) ∈ s.2 -> answer_fact req r (exchanges s.1);
}.

Lemma kn_serve p : request_in p -> wp svc_know p (fun _ _ => True) [].
Proof.
  intros [ctx req]. unfold serve. apply wp_bind, wp_hoist.
  eapply wp_mono; [|apply (kn_authorize ctx req [])].
  intros [r|s] g; [|done]. intros [_ Hr]. simpl. done.
Qed.

(** More exchanges, and nothing else but a smaller set of goroutines. *)
Lemma backed_ext gs gs' s s' :
  (forall g, g ∈ gs' -> g ∈ gs \/ g ⊆ exchanges s'.1) ->
  exchanges s.1 ⊆ exchanges s'.1 -> kuuid s'.1 = kuuid s.1 ->
  (forall V (c : cache_id V), entries c s'.1 = entries c s.1) -> s'.2 = s.2 ->
  backed gs s -> backed gs' s'.
Proof.
  intros Hg Hx Hu He Ha [Hk Huu Hen Han]. split.
  - intros g Hin. destruct (Hg g Hin) as [?|?]; [|done]. etrans; [by apply Hk|done].
  - rewrite Hu. intros Hne. eapply uuid_fact_mono; [done|]. by apply Huu.
  - intros V c key e. rewrite He. intros Hl. eapply entry_fact_mono; [done|]. by apply Hen.
  - rewrite Ha. intros req r Hin. eapply answer_fact_mono; [done|]. by apply Han.
Qed.

Lemma with_entry_entries {V} (c : cache_id V) key e {V'} (c' : cache_id V') key' e' w :
  entries c' (with_entry c key e w) !! key' = Some e' ->
  entries c' w !! key' = Some e' \/
  (forall T, entry_fact c T key (value e) -> entry_fact c' T key' (value e')).
Proof.
  destruct c; destruct c'; simpl; try (intros; by left);
    rewrite lookup_insert; (case_decide as Hk; [|by left]); intros [= <-]; right; by subst.
Qed.

Lemma backed_call pre g post X (e : kcE X) w ans x w' :
  backed (pre ++ g :: post) (w, ans) -> know_pre X e g -> kc_post X e w x w' ->
  learnt X e x (exchanges w') /\ backed (pre ++ exchanges w' :: post) (w', ans).
Proof.
  intros HI Hpre Hpost.
  assert (forall w', exchanges w ⊆ exchanges w' -> kuuid w' = kuuid w ->
    (forall V (c : cache_id V), entries c w' = entries c w) ->
    backed (pre ++ exchanges w' :: post) (w', ans)) as Hext.
  { intros w2 Hx Hu He. eapply (backed_ext _ _ (w, ans)); try done.
    intros g1 Hin. apply elem_of_app in Hin as [?|Hin]; [left; set_solver|].
    apply elem_of_cons in Hin as [->|?]; [by right|left; set_solver]. }
  assert (backed (pre ++ exchanges w :: post) (w, ans)) as Hsame by by apply Hext.
  assert (g ⊆ exchanges w) as Hg by (apply (backed_known _ _ HI); set_solver).
  destruct e; simpl in Hpost.
  - destruct e; simpl in *; [destruct Hpost as [_ ->]|subst w']; (split; [done|]); by apply Hext.
  - subst w'. split; [by left|]. apply Hext; [by apply list_subseteq_cons|done|].
    by intros ? [].
  - by subst w'.
  - by subst w'.
  - by subst w'.
  - by subst w'.
  - by destruct Hpost as [_ ->].
  - subst w'. split; [done|]. apply Hext; [done..|]. by intros ? [].
  - subst w'. split; [done|]. apply Hext; [done..|]. by intros ? [].
  - destruct Hpost as [-> ->]. split; [|done]. simpl. apply (backed_uuid _ _ HI).
  - subst w'. split; [done|]. destruct Hsame as [H1 H2 H3 H4]. split; [exact H1| | |exact H4].
    + intros _. simpl in *. by eapply uuid_fact_mono.
    + intros V c key e Hl. apply (H3 V c key e). by destruct c.
  - destruct Hpost as [-> ->]. split; [|done]. simpl. destruct (entries c w !! key) eqn:He; [|done].
    by apply (backed_entry _ _ HI).
  - subst w'. destruct Hsame as [H1 H2 H3 H4].
    assert (exchanges (with_entry c key e w) = exchanges w) as Hx by by destruct c.
    assert (kuuid (with_entry c key e w) = kuuid w) as Hu by by destruct c.
    split; [done|]. split; simpl in *; rewrite ?Hx, ?Hu; try done.
    intros V' c' key' e' Hl. apply with_entry_entries in Hl as [Hl|Hl]; [by apply H3|].
    apply Hl. eapply entry_fact_mono; [exact Hg|exact Hpre].
Qed.

(** Goroutines enter and leave, and answer what they can justify. *)
Lemma backed_enter gs s : backed gs s -> backed (gs ++ [[]]) s.
Proof.
  intros HI. eapply backed_ext; [| | | | |exact HI]; try done.
  intros g Hg. apply elem_of_app in Hg as [?|Hg]; [by left|].
  apply list_elem_of_singleton in Hg as ->. right. apply list_subseteq_nil.
Qed.

Lemma backed_leave pre g post s : backed (pre ++ g :: post) s -> backed (pre ++ post) s.
Proof.
  intros HI. eapply backed_ext; [| | | | |exact HI]; try done. intros g1 Hg1. left. set_solver.
Qed.

Lemma backed_answers pre g post req r w ans :
  backed (pre ++ g :: post) (w, ans) -> answer_fact req r g ->
  backed (pre ++ g :: post) (w, (req, r) :: ans).
Proof.
  intros [H1 H2 H3 H4] Hr. split; try done.
  intros req' r' [[= -> ->]|Hin']%elem_of_cons; [|by apply H4].
  apply (answer_fact_mono _ _ g); [apply (H1 g); set_solver|exact Hr].
Qed.

Lemma kc_post_grows X (e : kcE X) w x w' :
  kc_post X e w x w' -> exchanges w ⊆ exchanges w'.
Proof.
  intros Hpost. destruct e as [X e|timeout ctx req| | | | | | | | | | |V c key e']; simpl in Hpost.
  - destruct e; [by destruct Hpost as [_ ->]|by subst w'].
  - subst w'. by apply list_subseteq_cons.
  - by subst w'.
  - by subst w'.
  - by subst w'.
  - by subst w'.
  - by destruct Hpost as [_ ->].
  - by subst w'.
  - by subst w'.
  - by destruct Hpost as [_ ->].
  - by subst w'.
  - by destruct Hpost as [_ ->].
  - subst w'. by destruct c.
Qed.

Definition fresh_service : KWorld := mkK 0 "" 0 "" ∅ ∅ ∅ [].

Lemma backed_fresh : backed [] (fresh_service, []).
Proof.
  split; simpl; try done.
  - intros g Hg. by apply elem_of_nil in Hg.
  - intros V [] key e; simpl; by rewrite lookup_empty.
  - intros r0 d0 H0. by apply elem_of_nil in H0.
Qed.

(** C3: no authorization without a PERMIT.  In every interleaving of any number of
[Authorize] calls for any requests, whatever Keycloak answers, an allowed request is
one for which Keycloak returned the repository's own user, a PERMIT for that user,
deployment and action, and ref constraints that match the ref.  (Of requests that
carry NUL bytes nothing is said, but they cannot affect the others.) *)
Theorem allowed_is_permitted ts w answers req d :
  rtc svc_step ([], (fresh_service, [])) (ts, (w, answers)) ->
  (req, Ok d) ∈ answers -> Allowed d = true -> nul_free req -> permit_fact (exchanges w) req.
Proof.
  intros Hsteps Hin Hal Hn.
  destruct (pool_reachable svc_env (fun _ _ => []) request_in True (list exchange) svc_know
              (fun _ _ => True) backed []) with (s0 := (fresh_service, @nil (Request * result error Decision)))
    (ts := ts) (s := (w, answers)) as (gs & _ & HI); [..|exact Hsteps|].
  - exact kn_serve.
  - intros X e g p _ Hp. by apply elem_of_nil in Hp.
  - intros pre g post X e [w1 a1] x [w2 a2] HI Hpre Hpost. destruct e as [X e|r0 d0]; simpl in *.
    + destruct Hpost as [Hpost ->].
      destruct (backed_call _ _ _ _ _ _ _ _ _ HI Hpre Hpost) as [Hl HI'].
      exists (exchanges w2). split; [|done]. split; [|done].
      etrans; [apply (backed_known _ _ HI); set_solver|]. by eapply kc_post_grows.
    + simplify_eq. exists g. split; [done|]. by apply backed_answers.
  - intros gs s. apply backed_enter.
  - intros pre g post s _. apply backed_leave.
  - exact backed_fresh.
  - by eapply (backed_answer _ _ HI).
Qed.

End Service.
