(* ===== verification/KeycloakDemo.v ===== *)
(** * A runnable Keycloak

A handler for the authorizer's calls over a scripted Keycloak; the witnesses and
samples computed with it. *)

From stdpp Require Import relations.
From S2P Require Import Prelude GoStrings GoRuntime GoNet GoJson Effects Authz Keycloak KeycloakSpec KeycloakRace.

Local Open Scope string_scope.
Local Open Scope list_scope.
Local Open Scope Z_scope.

Definition cfg : Config :=
  {| BaseURL := "https://sso.example/"; Realm := "ci"; ClientID := "deploy-gateway";
     ClientSecret := "hunter2"; Timeout := 0 |}.

(** ** The scripted server *)

Section Server.
(** The status [evaluate] answers with, and the users a lookup returns. *)
Variable status : string.
Variable users : list (string * string).

Definition json_answer (j : json) : result error HttpResponse :=
  Ok {| StatusCode := 200; RespBody := Marshal j; ReadErr := None |}.

Definition server (req : HttpRequest) : result error HttpResponse :=
  if Contains (URL req) "/protocol/openid-connect/token" then
    json_answer (JObj [("access_token", JStr "t0k3n"); ("expires_in", JNum (Some 300))])
  else if Contains (URL req) "/policy/evaluate" then
    json_answer (JObj [("status", JStr status)])
  else if Contains (URL req) "/resource-server/resource" then
    json_answer (JArr [JObj [("name", JStr "app/api");
      ("attributes", JObj [("allowed_refs", JArr [JStr "refs/heads/*"])])]])
  else if Contains (URL req) "/users" then
    json_answer (JArr ((fun '(id, name) => JObj [("id", JStr id); ("username", JStr name)]) <$> users))
  else json_answer (JArr [JObj [("id", JStr "u-1"); ("clientId", JStr "deploy-gateway")]]).

(** ** The handler *)

Definition kc_sim X (e : kcE X) (w : KWorld) : X * KWorld :=
  match e in kcE X return X * KWorld with
  | KRt e =>
      match e in rtE X return X * KWorld with
      | TimeNow => (kclock w + 1, at_clock (kclock w + 1) w)
      | LogLine _ _ => (tt, w)
      end
  | HttpDo _ _ req => (server req, with_exchange (req, server req) w)
  | Lock _ => (tt, w)
  | Unlock _ => (tt, w)
  | RLock _ => (tt, w)
  | RUnlock _ => (tt, w)
  | TokenRead => ((ktoken w, kexpires w), w)
  | TokenWrite tok exp => (tt, with_token tok exp w)
  | TokenDrop => (tt, with_token "" (kexpires w) w)
  | UuidRead => (kuuid w, w)
  | UuidWrite u => (tt, with_uuid u w)
  | CacheRead c key => (entries c w !! key, w)
  | CacheWrite c key e => (tt, with_entry c key e w)
  end.

Lemma kc_sim_ok : implements kc_sim kc_env.
Proof.
  intros X e w _. destruct e; simpl; try done.
  destruct e; simpl; [|done]. split; [lia|done].
Qed.

Definition svc_sim X (e : svcE X) (s : KWorld * list (Request * result error Authz.Decision)) :
    X * (KWorld * list (Request * result error Authz.Decision)) :=
  match e in svcE X return X * (KWorld * _) with
  | Kc e => let (x, w') := kc_sim _ e s.1 in (x, (w', s.2))
  | Answer req r => (tt, (s.1, (req, r) :: s.2))
  end.

Lemma svc_sim_ok X (e : svcE X) s : svc_post X e s (svc_sim X e s).1 (svc_sim X e s).2.
Proof.
  destruct e as [X e|req r]; simpl; [|done]. pose proof (kc_sim_ok X e s.1 I) as H. simpl in H.
  by destruct (kc_sim X e s.1) as [x w'].
Qed.

End Server.

(** ** Runs *)

Definition no_error (method url : string) : option error := None.
Definition ascii_only (r : Z) : bool := false.
Definition no_fold (s t : string) : bool := false.

Abbreviation authorize := (Authorize no_error ascii_only no_fold cfg Background deploy_request).

(** Two [Authorize] calls for the same request, in turns. *)
Definition two_calls : list (prog svcE unit) * (KWorld * list (Request * result error Authz.Decision)) :=
  sched (fun _ _ => []) (svc_sim "PERMIT" [("id-9", "tuncloud/backend-api"); ("id-7", "TunCloud/Backend")])
    (concat (replicate 80 [0; 1]%nat))
    [serve no_error ascii_only no_fold cfg Background deploy_request;
     serve no_error ascii_only no_fold cfg Background deploy_request] (fresh_service, []).

Lemma two_calls_reached :
  rtc (svc_step no_error ascii_only no_fold cfg) ([], (fresh_service, [])) two_calls.
Proof.
  assert (request_in no_error ascii_only no_fold cfg
            (serve no_error ascii_only no_fold cfg Background deploy_request)) as Hin.
  { constructor. }
  eapply rtc_l; [by apply pstep_enter|]. eapply rtc_l; [by apply pstep_enter|].
  refine (sched_psteps _ _ _ _ _ (fun _ => True) _ _ _ _ I).
  intros X e s _. split; [apply svc_sim_ok|done].
Qed.

Lemma pair_eta {A B C} (p : A * (B * C)) : p = (p.1, (p.2.1, p.2.2)).
Proof. by destruct p as [? []]. Qed.

Lemma allowed_is_permitted_witness :
  two_calls.2.2 = [(deploy_request, Ok permitted); (deploy_request, Ok permitted)] /\
  permit_fact ascii_only no_fold cfg (exchanges two_calls.2.1) deploy_request.
Proof.
  assert (two_calls.2.2 = [(deploy_request, Ok permitted); (deploy_request, Ok permitted)])
    as Hans by (vm_compute; reflexivity).
  split; [exact Hans|].
  apply (allowed_is_permitted no_error ascii_only no_fold cfg two_calls.1 two_calls.2.1
           two_calls.2.2 deploy_request permitted).
  - exact (eq_ind _ (fun c => rtc (svc_step _ _ _ _) _ c) two_calls_reached _ (pair_eta two_calls)).
  - rewrite Hans. left.
  - reflexivity.
  - vm_compute. repeat split.
Defined.

(** A denial is not cached: the grant given later is seen at once. *)
Example denial_then_permit :
  let users := [("id-7", "tuncloud/backend")] in
  let (r1, w1) := run (kc_sim "DENY" users) authorize fresh_service in
  let (r2, w2) := run (kc_sim "PERMIT" users) authorize w1 in
  r1 = Done (Ok (grantDenied deploy_request)) /\ r2 = Done (Ok permitted).
Proof. vm_compute. split; reflexivity. Qed.

(** An unknown status is an error, and a permit cached 40 s ago rides it out,
one cached 6 min ago does not. *)
Example stale_permit :
  let users := [("id-7", "tuncloud/backend")] in
  let w1 := (run (kc_sim "PERMIT" users) authorize fresh_service).2 in
  let later n := (run (kc_sim "MAYBE" users) authorize (at_clock (kclock w1 + n * Second) w1)).1 in
  later 40 = Done (Ok permitted) /\
  later 360 = Done (Err (ErrText ("keycloak: unexpected evaluate status " +:+
                                  Quote ascii_only "MAYBE"))).
Proof. vm_compute. split; reflexivity. Qed.

(** A repository without a user of its own is denied. *)
Example near_miss_denied :
  (run (kc_sim "PERMIT" [("id-9", "tuncloud/backend-api")]) authorize fresh_service).1 =
  Done (Ok (grantDenied deploy_request)).
Proof. vm_compute. reflexivity. Qed.

(** The hypotheses of the cache theorem hold of the real evaluation. *)
Lemma Authorize_decides_witness :
  wp kc_env (Authorize_with deploy_request (mret (Ok (grantDenied deploy_request))))
    (returning (fun r w' => exists t, 0 <= t /\
      ((permit_within decisionTTL t (decisionKey deploy_request) fresh_service /\
        r = Ok permitted /\ w' = at_clock t fresh_service) \/
       (~ permit_within decisionTTL t (decisionKey deploy_request) fresh_service /\
        exists d w1, (d = Ok (grantDenied deploy_request)) /\
          decided (decisionKey deploy_request) d w1 r w')))) fresh_service.
Proof.
  apply (Authorize_decides deploy_request (mret (Ok (grantDenied deploy_request)))
           (fun d _ => d = Ok (grantDenied deploy_request)) fresh_service).
  intros t Ht. reflexivity.
Defined.

Lemma token_lifetime_skewed_witness :
  token_lifetime 300 = 270 * Second /\ token_lifetime 20 = 20 * Second.
Proof.
  split.
  - apply (token_lifetime_skewed 300). lia.
  - apply (token_lifetime_skewed 20). lia.
Defined.

Lemma users_url_inj_witness :
  users_url cfg "a&b" = users_url cfg "a&b" /\ "a&b" = "a&b".
Proof. split; [reflexivity|]. apply (users_url_inj cfg). reflexivity. Defined.
