(* ===== verification/Authn.v ===== *)
(** * Authentication: the identity carried by a GitHub OIDC token

[internal/authn]. Signature, issuer, audience and expiry checks are those of
the [go-oidc] package and are parameters; what the gateway adds is modelled. *)

From S2P Require Import Prelude GoStrings GoRuntime Effects.

Local Open Scope string_scope.
Local Open Scope list_scope.
Local Open Scope Z_scope.

Record GitHubIdentity : Type := {
  Id_Subject : string;
  Id_Repository : string;
  Id_RepositoryID : string;
  Id_RepositoryOwner : string;
  Id_Ref : string;
  Id_Workflow : string;
  Id_WorkflowRef : string;
  Id_Environment : string;
  Id_Actor : string;
  Id_EventName : string;
  Id_RunID : string;
  Id_RunAttempt : string;
}.

(** The [TokenVerifier] interface of the API. *)
Class TokenVerifier (E : Type -> Type) : Type :=
  Verify : Context -> string -> prog E (result error GitHubIdentity).

Section Verifier.
Context {E : Type -> Type} {IDToken Provider : Type}.
(** [oidc.NewProvider] and [provider.Verifier(&oidc.Config{ClientID: audience})]. *)
Variable oidc_NewProvider : Context -> string -> prog E (result error Provider).
(** [oidc.IDTokenVerifier.Verify] of the verifier made for an audience. *)
Variable oidc_Verify : Provider -> string -> Context -> string -> prog E (result error IDToken).
(** [idToken.Claims(id)]: decoding the claims into the struct. *)
Variable idToken_Claims : IDToken -> result error GitHubIdentity.

Record Verifier : Type := { provider : Provider; audience : string }.

Definition NewVerifier (ctx : Context) (issuer aud : string) :
    prog E (result error Verifier) :=
  r ← oidc_NewProvider ctx issuer;
  match r with
  | Err err => mret (Err (ErrWrap "oidc discovery: " err ""))
  | Ok p => mret (Ok {| provider := p; audience := aud |})
  end.

Definition Verifier_Verify (v : Verifier) : TokenVerifier E := fun ctx rawToken =>
  r ← oidc_Verify (provider v) (audience v) ctx rawToken;
  match r with
  | Err err => mret (Err (ErrWrap "verify token: " err ""))
  | Ok idToken =>
      match idToken_Claims idToken with
      | Err err => mret (Err (ErrWrap "extract claims: " err ""))
      | Ok id =>
          if decide (Id_Repository id = "") then mret (Err (ErrText "missing repository claim"))
          else mret (Ok id)
      end
  end.

(** An identity is handed out only for a token the OIDC verifier accepted for
the configured audience, with the claims it carries and a repository; every
other outcome is an error. *)
Theorem Verify_sound {S} (sp : spec E S) v ctx rawToken s
    (accepted : IDToken -> S -> Prop) :
  wp sp (oidc_Verify (provider v) (audience v) ctx rawToken)
     (returning (fun r s' => forall t, r = Ok t -> accepted t s')) s ->
  wp sp (Verifier_Verify v ctx rawToken)
     (returning (fun r s' => forall id, r = Ok id ->
        Id_Repository id <> "" /\
        exists t, accepted t s' /\ idToken_Claims t = Ok id)) s.
Proof.
  intros Hv. eapply wp_seq; [exact Hv|]. intros [t|err] s' Ht; simpl; [|done].
  destruct (idToken_Claims t) as [id|err] eqn:Hc; simpl; [|done].
  case_decide; simpl; [done|]. intros id' [= <-]. split; [done|]. exists t. auto.
Qed.

End Verifier.

(** [NewStaticVerifier]: every token is the same identity. *)
Definition NewStaticVerifier {E} (id : GitHubIdentity) : TokenVerifier E :=
  fun _ _ => Ret (Ok id).
