(* ===== verification/Notify.v ===== *)
(** * Notifications: the interface

[internal/notify].  A [*Message] is [None] when nil, else the number of an
in-flight message. *)

From S2P Require Import Prelude GoStrings GoRuntime Effects Store.

Inductive notifyE : Type -> Type :=
  | Started (op : Operation) : notifyE (option nat)
  | Resolved (op : Operation) (msg : option nat) : notifyE unit.
