(* ===== verification/Telegram.v ===== *)
(** * Telegram notifications

[internal/notify]: the HTML text of an operation ([format.go]), the Bot API
transport with its retries ([telegram.go]) and the notifier that sends in the
background ([notify.go]).  Programs over [tgE]. *)

From S2P Require Import Prelude GoStrings GoRuntime GoNet GoJson GoTime Effects Store.

Local Open Scope string_scope.
Local Open Scope list_scope.
Local Open Scope Z_scope.

(** ** Format *)

Definition esc_byte (c : ascii) (rest : string) : string :=
  if decide (c = "&"%char) then "&amp;" +:+ rest
  else if decide (c = "<"%char) then "&lt;" +:+ rest
  else if decide (c = ">"%char) then "&gt;" +:+ rest
  else String c rest.

Fixpoint esc (s : string) : string :=
  match s with
  | EmptyString => EmptyString
  | String c s' => esc_byte c (esc s')
  end.

Definition marker (status : OperationStatus) : string :=
  if decide (status = StatusSucceeded) then "✅"
  else if decide (status = StatusFailed) then "❌"
  else if decide (status = StatusTimeout) then "⏱"
  else "🟡".

Definition runLink (op : Operation) : string :=
  if decide (RunID op = "" \/ Repository op = "") then ""
  else
    let url := "https://github.com/" +:+ Repository op +:+ "/actions/runs" +:+ "/" +:+ RunID op in
    let url := if decide (RunAttempt op = "") then url else url +:+ "/attempts/" +:+ RunAttempt op in
    "<a href=" +:+ dquote +:+ esc url +:+ dquote +:+ ">run #" +:+ esc (RunID op) +:+ "</a>".

Definition elapsed (op : Operation) : string :=
  match CompletedAt op with
  | None => ""
  | Some t => Duration_String (Duration_Round (time_Sub t (RequestedAt op)) Second)
  end.

Definition newline : string := String "010"%char EmptyString.

Definition title (op : Operation) : string :=
  let t := marker (Status op) +:+ " <b>" +:+ esc (TrimPrefix (Action op) "deployment.") +:+
           "</b> · " +:+ esc (Namespace op +:+ "/" +:+ Deployment op) in
  if decide (ErrorCode op = "") then t else t +:+ " — " +:+ esc (ErrorCode op).

Definition who_line (op : Operation) : string :=
  let who := "@" +:+ esc (Actor op) in
  if decide (runLink op = "") then who else who +:+ " · " +:+ runLink op.

Definition render (op : Operation) : string :=
  Join ([title op] ++
        (if decide (Image op = "") then [] else ["<code>" +:+ esc (Image op) +:+ "</code>"]) ++
        (if decide (ErrorMessage op = "") then [] else [esc (ErrorMessage op)]) ++
        [who_line op] ++
        (if decide (elapsed op = "") then []
         else [elapsed op +:+ " · <code>" +:+ esc (OperationID op) +:+ "</code>"])) newline.

(** ** Calls *)

Inductive tgE : Type -> Type :=
  | TRt {X} (e : rtE X) : tgE X
  (** the exchange of [client.Do], of a client with the given [Timeout] *)
  | TDo (timeout : Z) (ctx : Context) (req : HttpRequest) : tgE (result error HttpResponse)
  (** [select] on [ctx.Done()] and [time.After(d)]: [true] when the timer won *)
  | TSelectAfter (ctx : Context) (d : Z) : tgE bool
  (** [newMessage()] *)
  | TNewMessage : tgE nat
  (** [m.settle(id)] *)
  | TSettle (m : nat) (id : Z) : tgE unit
  (** [select] on [m.ready] and [time.After(timeout)]: [None] when the timer won *)
  | TWaitReady (m : nat) (timeout : Z) : tgE (option Z)
  (** the two [go func()] of the notifier *)
  | GoStarted (m : nat) (text : string) : tgE unit
  | GoResolved (msg : option nat) (text : string) : tgE unit.

#[export] Instance Sub_rt_tg : Sub rtE tgE := @TRt.

Definition tg_log (l : level) (msg : string) : prog tgE unit := trigger (LogLine l msg).

(** A line with an [err] attribute, as slog's text handler ends it. *)
Definition tg_log_err (l : level) (msg : string) (err : error) : prog tgE unit :=
  tg_log l (msg +:+ " err=" +:+ error_Error err).

(** ** Transport *)

Definition sendTimeout : Z := 5 * Second.
Definition callTimeout : Z := 30 * Second.
Definition maxAttempts : nat := 3.
Definition handleWait : Z := callTimeout + Second.

Record transport : Type := { baseURL : string; token : string; retryBase : Z }.

Definition newTransport (base tok : string) : transport :=
  {| baseURL := TrimSuffix base "/"; token := tok; retryBase := Second |}.

Record apiResponse : Type := {
  OK : bool;
  MessageID : Z;
  Description : string;
  RetryAfter : Z;
}.

Definition no_response : apiResponse :=
  {| OK := false; MessageID := 0; Description := ""; RetryAfter := 0 |}.

Definition dec_apiResponse : decoder apiResponse := dec_struct
  [("ok", fun j v => b ← dec_bool j (OK v);
      mret {| OK := b; MessageID := MessageID v; Description := Description v;
              RetryAfter := RetryAfter v |});
   ("result", dec_struct
      [("message_id", fun j v => n ← dec_int j (MessageID v);
          mret {| OK := OK v; MessageID := n; Description := Description v;
                  RetryAfter := RetryAfter v |})]);
   ("description", fun j v => s ← dec_string j (Description v);
      mret {| OK := OK v; MessageID := MessageID v; Description := s;
              RetryAfter := RetryAfter v |});
   ("parameters", dec_struct
      [("retry_after", fun j v => n ← dec_int j (RetryAfter v);
          mret {| OK := OK v; MessageID := MessageID v; Description := Description v;
                  RetryAfter := n |})])].

Section Transport.
(** Why [http.NewRequestWithContext] refuses a method and URL. *)
Variable new_request_error : string -> string -> option error.
Variable t : transport.

Definition bot_request (method : string) (payload : json) : HttpRequest := {|
  Method := "POST"; URL := baseURL t +:+ "/bot" +:+ token t +:+ "/" +:+ method;
  Authorization := None; ContentType := Some "application/json"; Body := JSONBody (Marshal payload) |}.

(** [client.Do]: what keeps the exchange from happening comes wrapped in a [*url.Error],
which names the method and the URL. *)
Definition url_error (req : HttpRequest) (err : error) : error :=
  ErrWrap ("Post " +:+ dquote +:+ URL req +:+ dquote +:+ ": ") err "".

Definition client_Do (ctx : Context) (req : HttpRequest) : prog tgE (result error HttpResponse) :=
  r ← call (TDo sendTimeout ctx req);
  mret (match r with Err err => Err (url_error req err) | Ok resp => Ok resp end).

Definition once (ctx : Context) (method : string) (payload : json) :
    prog tgE (option apiResponse * Z * option error) :=
  match new_request_error "POST" (URL (bot_request method payload)) with
  | Some _ => mret (None, 0, Some (ErrText ("telegram " +:+ method +:+ ": build request")))
  | None =>
      r ← client_Do ctx (bot_request method payload);
      match r with
      | Err _ => mret (None, 0, Some (ErrText ("telegram " +:+ method +:+ ": request failed")))
      | Ok resp =>
          match DecodeBody (RespBody resp) (bool_decide (is_Some (ReadErr resp))) with
          | None =>
              mret (None, StatusCode resp,
                    Some (ErrWrap ("telegram " +:+ method +:+ ": decode response: ")
                            (default (ErrText "invalid JSON") (ReadErr resp)) ""))
          | Some j =>
              match dec_apiResponse j no_response with
              | None =>
                  mret (None, StatusCode resp,
                        Some (ErrWrap ("telegram " +:+ method +:+ ": decode response: ")
                                (ErrText "cannot unmarshal") ""))
              | Some out => mret (Some out, StatusCode resp, None)
              end
          end
      end
  end.

(** What one attempt decides: done, give up, or try again after a delay. *)
Inductive verdict : Type :=
  | Success (resp : apiResponse)
  | GiveUp (err : error)
  | Again (err : error) (delay : Z).

Definition judge (attempt : nat) (method : string)
    (a : option apiResponse * Z * option error) : verdict :=
  let '(resp, status, err) := a in
  let out := default no_response resp in
  if bool_decide (err = None) && (status =? 200) && OK out then Success out
  else
    let lastErr := match err with
                   | Some e => e
                   | None => ErrText ("telegram " +:+ method +:+ ": status " +:+ itoa status +:+
                                      ": " +:+ Description out)
                   end in
    let retryable := bool_decide (err <> None) || (status =? 429) || (500 <=? status) in
    if negb retryable || (attempt =? maxAttempts)%nat then GiveUp lastErr
    else
      Again lastErr
        (if bool_decide (resp <> None) && (0 <? RetryAfter out)
         then dur_mul (RetryAfter out) Second
         else dur_mul (Z.of_nat attempt) (retryBase t)).

(** [left] more attempts, the next being number [attempt]. *)
Fixpoint call_from (left attempt : nat) (lastErr : error) (ctx : Context) (method : string)
    (payload : json) : prog tgE (result error apiResponse) :=
  match left with
  | O => mret (Err lastErr)
  | S left' =>
      a ← once ctx method payload;
      match judge attempt method a with
      | Success resp => mret (Ok resp)
      | GiveUp err => mret (Err err)
      | Again err delay =>
          slept ← call (TSelectAfter ctx delay);
          if (slept : bool) then call_from left' (S attempt) err ctx method payload
          else mret (Err err)
      end
  end.

Definition bot_call (ctx : Context) (method : string) (payload : json) :
    prog tgE (result error apiResponse) :=
  call_from maxAttempts 1 (ErrText "") ctx method payload.

Definition send_payload (chatID text : string) : json :=
  JObj [("chat_id", JStr chatID); ("disable_web_page_preview", JBool true);
        ("parse_mode", JStr "HTML"); ("text", JStr text)].

Definition send (ctx : Context) (chatID text : string) : prog tgE (result error Z) :=
  r ← bot_call ctx "sendMessage" (send_payload chatID text);
  mret (match r with Ok resp => Ok (MessageID resp) | Err err => Err err end).

Definition edit_payload (chatID : string) (messageID : Z) (text : string) : json :=
  JObj [("chat_id", JStr chatID); ("disable_web_page_preview", JBool true);
        ("message_id", JNum (Some messageID)); ("parse_mode", JStr "HTML"); ("text", JStr text)].

Definition edit (ctx : Context) (chatID : string) (messageID : Z) (text : string) :
    prog tgE (option error) :=
  r ← bot_call ctx "editMessageText" (edit_payload chatID messageID text);
  mret (match r with Ok _ => None | Err err => Some err end).

(** ** The notifier *)

Variable chatID : string.

(** The goroutine of [Started]. *)
Definition send_started (m : nat) (text : string) : prog tgE unit :=
  ctx ← WithTimeout Background callTimeout;
  r ← send ctx chatID text;
  match r with
  | Err err => tg_log_err LWarn "telegram start notification failed" err ;; call (TSettle m 0)
  | Ok id => call (TSettle m id)
  end.

Definition telegram_Started (op : Operation) : prog tgE (option nat) :=
  m ← call TNewMessage;
  call (GoStarted m (render op)) ;;
  mret (Some m).

Definition wait (msg : option nat) (timeout : Z) : prog tgE Z :=
  match msg with
  | None => mret 0
  | Some m => r ← call (TWaitReady m timeout); mret (default 0 r)
  end.

(** The goroutine of [Resolved]. *)
Definition send_resolved (msg : option nat) (text : string) : prog tgE unit :=
  id ← wait msg handleWait;
  ctx ← WithTimeout Background callTimeout;
  if id =? 0 then
    r ← send ctx chatID text;
    match r with
    | Err err => tg_log_err LWarn "telegram terminal notification failed" err
    | Ok _ => mret tt
    end
  else
    err ← edit ctx chatID id text;
    match err with
    | Some err => tg_log_err LWarn "telegram terminal edit failed" err
    | None => mret tt
    end.

Definition telegram_Resolved (op : Operation) (msg : option nat) : prog tgE unit :=
  call (GoResolved msg (render op)).

(** The goroutines behind the two [go] statements. *)
Definition tg_spawned X (e : tgE X) : list (prog tgE unit) :=
  match e with
  | GoStarted m text => [send_started m text]
  | GoResolved msg text => [send_resolved msg text]
  | _ => []
  end.

End Transport.

(** ** Construction *)

Record Config : Type := { BotToken : string; ChatID : string; APIBase : string }.

Inductive Notifier : Type :=
  | Disabled
  | Telegram (tp : transport) (chatID : string).

Definition New (cfg : Config) : prog tgE Notifier :=
  if decide (BotToken cfg = "" \/ ChatID cfg = "") then
    tg_log LInfo "telegram notifications disabled" ;; mret Disabled
  else
    let base := if decide (APIBase cfg = "") then "https://api.telegram.org" else APIBase cfg in
    tg_log LInfo "telegram notifications enabled" ;;
    mret (Telegram (newTransport base (BotToken cfg)) (ChatID cfg)).

Definition Started (n : Notifier) (op : Operation) : prog tgE (option nat) :=
  match n with Disabled => mret None | Telegram _ _ => telegram_Started op end.

Definition Resolved (n : Notifier) (op : Operation) (msg : option nat) : prog tgE unit :=
  match n with Disabled => mret tt | Telegram _ _ => telegram_Resolved op msg end.
