(* ===== verification/TelegramSpec.v ===== *)
(** * Telegram notifications: text, retries, timing, secrets

A reader of the markup the Bot API documents, which reads a rendered message back;
the retry and deadline behaviour of [call] and of the worker that settles a
message; and what of the token reaches a log line. *)

From S2P Require Import Prelude GoStrings GoRuntime GoNet GoJson GoJsonSpec GoTime Effects Store Telegram.

Local Open Scope string_scope.
Local Open Scope list_scope.
Local Open Scope Z_scope.

(** ** Reading HTML

What a reader of the markup the Bot API documents sees: text with entities, and tags
with attributes in double quotes. *)

Inductive node : Type :=
  | TText (c : ascii)
  | TOpen (name : string) (attrs : list (string * string))
  | TClose (name : string).

Definition entity (name : string) : option ascii :=
  if decide (name = "amp") then Some "&"%char
  else if decide (name = "lt") then Some "<"%char
  else if decide (name = "gt") then Some ">"%char
  else if decide (name = "quot") then Some "034"%char
  else None.

(** Where the reader is; what it has read of a name or value so far. *)
Inductive mode : Type :=
  | Txt
  | TxtEntity (acc : string)
  | Tag (acc : string)
  | Attr (tag : string) (attrs : list (string * string)) (acc : string)
  | Equals (tag : string) (attrs : list (string * string)) (name : string)
  | Val (tag : string) (attrs : list (string * string)) (name acc : string)
  | ValEntity (tag : string) (attrs : list (string * string)) (name acc ent : string)
  | AfterVal (tag : string) (attrs : list (string * string)).

Definition tag_node (name : string) (attrs : list (string * string)) : node :=
  match name with
  | String c name' => if decide (c = "/"%char) then TClose name' else TOpen name attrs
  | EmptyString => TOpen name attrs
  end.

Definition snoc (s : string) (c : ascii) : string := s +:+ String c EmptyString.

(** The tokens of a text; nothing when it is not well formed. *)
Fixpoint read (m : mode) (s : string) : option (list node) :=
  match s with
  | EmptyString => match m with Txt => Some [] | _ => None end
  | String c s' =>
      match m with
      | Txt =>
          if decide (c = "<"%char) then read (Tag "") s'
          else if decide (c = "&"%char) then read (TxtEntity "") s'
          else if decide (c = ">"%char) then None
          else cons (TText c) <$> read Txt s'
      | TxtEntity acc =>
          if decide (c = ";"%char) then
            match entity acc with Some d => cons (TText d) <$> read Txt s' | None => None end
          else read (TxtEntity (snoc acc c)) s'
      | Tag acc =>
          if decide (c = ">"%char) then cons (tag_node acc []) <$> read Txt s'
          else if decide (c = " "%char) then read (Attr acc [] "") s'
          else read (Tag (snoc acc c)) s'
      | Attr tag attrs acc =>
          if decide (c = "="%char) then read (Equals tag attrs acc) s'
          else read (Attr tag attrs (snoc acc c)) s'
      | Equals tag attrs name =>
          if decide (c = "034"%char) then read (Val tag attrs name "") s' else None
      | Val tag attrs name acc =>
          if decide (c = "034"%char) then read (AfterVal tag (attrs ++ [(name, acc)])) s'
          else if decide (c = "&"%char) then read (ValEntity tag attrs name acc "") s'
          else read (Val tag attrs name (snoc acc c)) s'
      | ValEntity tag attrs name acc ent =>
          if decide (c = ";"%char) then
            match entity ent with
            | Some d => read (Val tag attrs name (snoc acc d)) s'
            | None => None
            end
          else read (ValEntity tag attrs name acc (snoc ent c)) s'
      | AfterVal tag attrs =>
          if decide (c = ">"%char) then cons (tag_node tag attrs) <$> read Txt s'
          else if decide (c = " "%char) then read (Attr tag attrs "") s'
          else None
      end
  end.

Fixpoint text (s : string) : list node :=
  match s with EmptyString => [] | String c s' => TText c :: text s' end.

Lemma text_app a b : text (a +:+ b) = text a ++ text b.
Proof.
  induction a as [|c a IH]; [done|].
  change (TText c :: text (a +:+ b) = TText c :: text a ++ text b). by rewrite IH.
Qed.

(** *** Escaped text *)

Definition no_quote (s : string) : Prop := str_count "034"%char s = 0%nat.

Lemma snoc_app a c b : snoc a c +:+ b = a +:+ String c b.
Proof. unfold snoc. by rewrite str_app_assoc. Qed.

Lemma read_nothing rest : read Txt ("" +:+ rest) = app [] <$> read Txt rest.
Proof. change ("" +:+ rest) with rest. by destruct (read Txt rest). Qed.

Lemma read_esc s rest : read Txt (esc s +:+ rest) = app (text s) <$> read Txt rest.
Proof.
  induction s as [|c s IH]; cbn [esc text].
  { apply read_nothing. }
  assert (app (TText c :: text s) <$> read Txt rest = cons (TText c) <$> read Txt (esc s +:+ rest))
    as -> by (rewrite IH; by destruct (read Txt rest)).
  unfold esc_byte. repeat case_decide; subst; try reflexivity.
  change (String c (esc s) +:+ rest) with (String c (esc s +:+ rest)). cbn [read].
  by rewrite !decide_False by done.
Qed.

Lemma read_esc_attr s tag attrs name acc rest :
  no_quote s ->
  read (Val tag attrs name acc) (esc s +:+ dquote +:+ rest) =
  read (AfterVal tag (attrs ++ [(name, acc +:+ s)])) rest.
Proof.
  unfold no_quote. revert acc. induction s as [|c s IH]; intros acc Hq.
  { cbn [esc]. by rewrite str_app_nil_r. }
  cbn [str_count] in Hq. destruct (decide ("034"%char = c)) as [|Hc]; [done|].
  cbn [esc]. rewrite <- snoc_app, <- IH by done. unfold esc_byte.
  repeat case_decide; subst; try reflexivity.
  change (String c (esc s) +:+ dquote +:+ rest) with (String c (esc s +:+ dquote +:+ rest)).
  cbn [read]. by rewrite !decide_False by done.
Qed.

(** C35: escaping is exact.  Wherever the escaped text stands, a reader of the HTML sees
that very text and no tag; and in an attribute too, when the text has no quote. *)
Theorem esc_reads s rest :
  read Txt (esc s +:+ rest) = app (text s) <$> read Txt rest /\
  (no_quote s -> forall tag attrs name,
     read (Val tag attrs name "") (esc s +:+ dquote +:+ rest) =
     read (AfterVal tag (attrs ++ [(name, s)])) rest).
Proof.
  split; [apply read_esc|]. intros Hq tag attrs name. by apply (read_esc_attr s tag attrs name "").
Qed.

Lemma esc_reads_witness :
  let s := "a<b>&amp;" in
  no_quote s /\
  read (Val "a" [] "href" "") (esc s +:+ dquote +:+ ">") = read (AfterVal "a" [("href", s)]) ">".
Proof. intros s. split; [reflexivity|]. by apply (esc_reads s ">"). Defined.

(** *** Text without markup *)

Definition markup (c : ascii) : Prop := c = "<"%char \/ c = ">"%char \/ c = "&"%char.

Definition plain (s : string) : Prop := forall c, markup c -> str_count c s = 0%nat.

Lemma read_plain s rest : plain s -> read Txt (s +:+ rest) = app (text s) <$> read Txt rest.
Proof.
  intros Hs. induction s as [|c s IH]; [apply read_nothing|].
  assert (forall d, markup d -> d <> c /\ str_count d s = 0%nat) as Hc.
  { intros d Hd. specialize (Hs d Hd). cbn [str_count] in Hs. by case_decide. }
  change (String c s +:+ rest) with (String c (s +:+ rest)). cbn [read text].
  assert (forall d, markup d -> c <> d) as Hne by (intros d Hd ->; by destruct (Hc d Hd)).
  rewrite !decide_False by (apply Hne; unfold markup; tauto).
  rewrite IH by (intros d Hd; by apply Hc). by destruct (read Txt rest).
Qed.

Lemma plain_app a b : plain a -> plain b -> plain (a +:+ b).
Proof. intros Ha Hb c Hc. by rewrite str_count_app, Ha, Hb. Qed.

(** *** Durations *)

Section Durations.
Variable c : ascii.
Hypothesis Hc : markup c.

Lemma skip_char d s : d <> c -> str_count c (String d s) = str_count c s.
Proof. intros Hd. cbn [str_count]. by rewrite decide_False by congruence. Qed.

Lemma skip_digit n s : 0 <= n < 10 -> str_count c (String (digit n) s) = str_count c s.
Proof.
  intros Hn. apply skip_char.
  apply (digit_all (fun d => negb (bool_decide (d = "<"%char \/ d = ">"%char \/ d = "&"%char)))) in Hn;
    [|reflexivity].
  to_prop. intros Heq. apply Hn. by rewrite Heq.
Qed.

Lemma fmtInt_without fuel v acc : 0 <= v -> str_count c (fmtInt fuel v acc) = str_count c acc.
Proof.
  revert v acc. induction fuel as [|fuel IH]; intros v acc Hv; [done|]. cbn [fmtInt].
  assert (str_count c (String (digit (v mod 10)) acc) = str_count c acc) as Hd
    by (apply skip_digit, Z.mod_pos_bound; lia).
  destruct (v / 10 =? 0); [done|]. rewrite IH; [done|]. apply Z.div_pos; lia.
Qed.

Lemma unit_plain d s : d ∈ ["n"; "s"; "m"; "h"; "-"; "."]%char ->
  str_count c (String d s) = str_count c s.
Proof.
  intros Hd. apply skip_char. intros ->.
  destruct Hc as [H|[H|H]]; rewrite H in Hd; apply (bool_decide_eq_true_2 _) in Hd;
    vm_compute in Hd; discriminate Hd.
Qed.

Lemma fmtFrac_without prec v b acc :
  0 <= v -> str_count c (fmtFrac prec v b acc).1 = str_count c acc /\ 0 <= (fmtFrac prec v b acc).2.
Proof.
  revert v b acc. induction prec as [|prec IH]; intros v b acc Hv; cbn [fmtFrac].
  - destruct b; [|done]. split; [|done]. apply unit_plain. by do 5 right; left.
  - assert (0 <= v / 10) as Hq by (apply Z.div_pos; lia).
    destruct (IH (v / 10) (b || negb (v mod 10 =? 0))
                (if b || negb (v mod 10 =? 0) then String (digit (v mod 10)) acc else acc) Hq)
      as [-> H]. split; [|done].
    destruct (b || negb (v mod 10 =? 0)); [|done]. apply skip_digit, Z.mod_pos_bound. lia.
Qed.

Lemma Duration_plain_in d : str_count c (Duration_String d) = 0%nat.
Proof.
  unfold Duration_String, fmt_int. pose proof (Z.abs_nonneg d) as Hu.
  assert (forall s, str_count c s = 0%nat ->
    str_count c (if d <? 0 then String "-" s else s) = 0%nat) as Hsign.
  { intros s Hs. destruct (d <? 0); [|done]. rewrite unit_plain; [done|set_solver]. }
  assert (forall s, s ∈ ["0s"; "ns"; "µs"; "ms"; "s"] -> str_count c s = 0%nat) as Hunit.
  { intros s Hs. rewrite !elem_of_cons in Hs.
    destruct Hs as [->|[->|[->|[->|[->|[]%elem_of_nil]]]]]; destruct Hc as [->|[->| ->]]; reflexivity. }
  apply Hsign. clear Hsign. destruct (Z.abs d =? 0); [apply Hunit; set_solver|].
  destruct (Z.abs d <? Second).
  - destruct (Z.abs d <? 1000); [rewrite fmtInt_without by done; apply Hunit; set_solver|].
    destruct (Z.abs d <? 1000000).
    + destruct (fmtFrac_without 3 (Z.abs d) false "µs" Hu) as [H H'].
      destruct (fmtFrac 3 _ _ _) as [s v]. cbn [fst snd] in *. rewrite fmtInt_without, H by done.
      apply Hunit. set_solver.
    + destruct (fmtFrac_without 6 (Z.abs d) false "ms" Hu) as [H H'].
      destruct (fmtFrac 6 _ _ _) as [s v]. cbn [fst snd] in *. rewrite fmtInt_without, H by done.
      apply Hunit. set_solver.
  - destruct (fmtFrac_without 9 (Z.abs d) false "s" Hu) as [H H'].
    destruct (fmtFrac 9 _ _ _) as [s v]. cbn [fst snd] in *.
    assert (str_count c s = 0%nat) as Hs by (rewrite H; apply Hunit; set_solver).
    assert (0 <= v / 60) by (apply Z.div_pos; lia).
    assert (0 <= v / 60 / 60) by (apply Z.div_pos; lia).
    assert (forall z, 0 <= z mod 60) by (intros z; apply Z.mod_pos_bound; lia).
    destruct (v / 60 =? 0); [by rewrite fmtInt_without|].
    destruct (v / 60 / 60 =? 0); rewrite fmtInt_without by done; rewrite unit_plain by set_solver;
      rewrite fmtInt_without by done; [done|]. rewrite unit_plain by set_solver. by rewrite fmtInt_without.
Qed.

End Durations.

Lemma elapsed_plain op : plain (elapsed op).
Proof.
  unfold elapsed. intros c Hc. destruct (CompletedAt op); [by apply Duration_plain_in|done].
Qed.

(** *** The message *)

(** [s] reads as the tokens [l], whatever follows. *)
Definition reads_as (s : string) (l : list node) : Prop :=
  forall rest, read Txt (s +:+ rest) = app l <$> read Txt rest.

Lemma reads_app a b la lb : reads_as a la -> reads_as b lb -> reads_as (a +:+ b) (la ++ lb).
Proof.
  intros Ha Hb rest. rewrite str_app_assoc, Ha, Hb.
  destruct (read Txt rest); [|done]. cbn. by rewrite app_assoc.
Qed.

Lemma reads_esc s : reads_as (esc s) (text s).
Proof. intros rest. apply read_esc. Qed.

Lemma reads_plain s : plain s -> reads_as s (text s).
Proof. intros Hs rest. by apply read_plain. Qed.

Lemma reads_done s l : reads_as s l -> read Txt s = Some l.
Proof. intros Hs. rewrite <- (str_app_nil_r s), Hs. cbn. by rewrite app_nil_r. Qed.

Definition element (name : string) (attrs : list (string * string)) (body : list node) :
    list node :=
  TOpen name attrs :: body ++ [TClose name].

Lemma reads_b s l : reads_as s l -> reads_as ("<b>" +:+ s +:+ "</b>") (element "b" [] l).
Proof.
  intros Hs. apply (reads_app "<b>" _ [TOpen "b" []]); [by intros rest|].
  apply reads_app; [done|]. by intros rest.
Qed.

Lemma reads_code s l : reads_as s l -> reads_as ("<code>" +:+ s +:+ "</code>") (element "code" [] l).
Proof.
  intros Hs. apply (reads_app "<code>" _ [TOpen "code" []]); [by intros rest|].
  apply reads_app; [done|]. by intros rest.
Qed.

Lemma reads_link url s l :
  no_quote url -> reads_as s l ->
  reads_as ("<a href=" +:+ dquote +:+ esc url +:+ dquote +:+ ">" +:+ s +:+ "</a>")
    (element "a" [("href", url)] l).
Proof.
  intros Hq Hs rest. rewrite !str_app_assoc.
  change (read Txt ("<a href=" +:+ dquote +:+ esc url +:+ dquote +:+ ">" +:+ s +:+ "</a>" +:+ rest))
    with (read (Val "a" [] "href" "") (esc url +:+ dquote +:+ ">" +:+ s +:+ "</a>" +:+ rest)).
  rewrite read_esc_attr by done. cbn [app].
  change (read (AfterVal "a" [("href", "" +:+ url)]) (">" +:+ s +:+ "</a>" +:+ rest))
    with (cons (TOpen "a" [("href", url)]) <$> read Txt (s +:+ "</a>" +:+ rest)).
  rewrite Hs.
  change (read Txt ("</a>" +:+ rest)) with (cons (TClose "a") <$> read Txt rest).
  destruct (read Txt rest); [|done]. cbn. by rewrite <- app_assoc.
Qed.

(** The run an operation came from. *)
Definition run_url (op : Operation) : option string :=
  if decide (RunID op = "" \/ Repository op = "") then None
  else Some ("https://github.com/" +:+ Repository op +:+ "/actions/runs/" +:+ RunID op +:+
             (if decide (RunAttempt op = "") then "" else "/attempts/" +:+ RunAttempt op)).

(** The lines of the message of an operation: its fields as text, in the elements of the
template. *)
Definition document (op : Operation) : list (list node) :=
  [text (marker (Status op) +:+ " ") ++
   element "b" [] (text (TrimPrefix (Action op) "deployment.")) ++
   text (" · " +:+ Namespace op +:+ "/" +:+ Deployment op) ++
   (if decide (ErrorCode op = "") then [] else text (" — " +:+ ErrorCode op))] ++
  (if decide (Image op = "") then [] else [element "code" [] (text (Image op))]) ++
  (if decide (ErrorMessage op = "") then [] else [text (ErrorMessage op)]) ++
  [text ("@" +:+ Actor op) ++
   match run_url op with
   | None => []
   | Some url => text " · " ++ element "a" [("href", url)] (text ("run #" +:+ RunID op))
   end] ++
  (if decide (elapsed op = "") then []
   else [text (elapsed op +:+ " · ") ++ element "code" [] (text (OperationID op))]).

Fixpoint joined (lines : list (list node)) : list node :=
  match lines with
  | [] => []
  | [l] => l
  | l :: lines' => l ++ text newline ++ joined lines'
  end.

Ltac plain_text := intros c [->|[->| ->]]; reflexivity.

Lemma reads_join ss lines : Forall2 reads_as ss lines -> reads_as (Join ss newline) (joined lines).
Proof.
  induction 1 as [|s l ss lines Hs Hss IH]; [intros rest; apply read_nothing|].
  destruct Hss as [|s' l' ss lines Hs' Hss]; [done|].
  apply (reads_app s (newline +:+ Join (s' :: ss) newline)); [done|].
  apply reads_app; [|done]. apply reads_plain. plain_text.
Qed.

Lemma reads_title op :
  reads_as (title op)
    (text (marker (Status op) +:+ " ") ++
     element "b" [] (text (TrimPrefix (Action op) "deployment.")) ++
     text (" · " +:+ Namespace op +:+ "/" +:+ Deployment op) ++
     (if decide (ErrorCode op = "") then [] else text (" — " +:+ ErrorCode op))).
Proof.
  assert (reads_as (marker (Status op) +:+ " ") (text (marker (Status op) +:+ " "))) as Hm.
  { apply reads_plain, plain_app; [|plain_text]. unfold marker. repeat case_decide; plain_text. }
  assert (forall s tail, reads_as s tail -> reads_as
    (marker (Status op) +:+ " <b>" +:+ esc (TrimPrefix (Action op) "deployment.") +:+ "</b> · " +:+
       esc (Namespace op +:+ "/" +:+ Deployment op) +:+ s)
    (text (marker (Status op) +:+ " ") ++
     element "b" [] (text (TrimPrefix (Action op) "deployment.")) ++
     text (" · " +:+ Namespace op +:+ "/" +:+ Deployment op) ++ tail)) as Hall.
  { intros s tail Hs. rewrite (text_app " · ").
    replace (marker (Status op) +:+ " <b>" +:+ _) with
      ((marker (Status op) +:+ " ") +:+
       ("<b>" +:+ esc (TrimPrefix (Action op) "deployment.") +:+ "</b>") +:+
       (" · " +:+ esc (Namespace op +:+ "/" +:+ Deployment op)) +:+ s)
      by (rewrite !str_app_assoc; reflexivity).
    apply reads_app; [done|]. apply reads_app; [apply reads_b, reads_esc|].
    apply reads_app; [|done]. apply reads_app; [apply reads_plain; plain_text|apply reads_esc]. }
  unfold title. case_decide.
  - specialize (Hall "" []). rewrite str_app_nil_r in Hall. apply Hall.
    intros rest. apply read_nothing.
  - specialize (Hall (" — " +:+ esc (ErrorCode op)) (text (" — " +:+ ErrorCode op))).
    rewrite !str_app_assoc. apply Hall. rewrite text_app.
    apply reads_app; [apply reads_plain; plain_text|apply reads_esc].
Qed.

(** The link of the run, when no part of its address has a quote. *)
Lemma reads_run op :
  Forall no_quote [Repository op; RunID op; RunAttempt op] ->
  match run_url op with
  | None => runLink op = ""
  | Some url => runLink op <> "" /\
      reads_as (runLink op) (element "a" [("href", url)] (text ("run #" +:+ RunID op)))
  end.
Proof.
  rewrite !Forall_cons. intros (H1 & H2 & H3 & _). unfold run_url, runLink.
  destruct (decide (RunID op = "" \/ Repository op = "")) as [|Hrun]; [done|].
  split; [done|].
  set (url := "https://github.com/" +:+ Repository op +:+ "/actions/runs/" +:+ RunID op +:+
              (if decide (RunAttempt op = "") then "" else "/attempts/" +:+ RunAttempt op)).
  match goal with |- reads_as (_ +:+ _ +:+ esc ?u +:+ _) _ => assert (u = url) as -> end.
  { subst url. case_decide; rewrite ?str_app_nil_r, ?str_app_assoc; reflexivity. }
  assert (no_quote url) as Hq.
  { unfold no_quote in *. subst url. rewrite !str_count_app, H1, H2.
    case_decide; rewrite ?str_count_app, ?H3; reflexivity. }
  apply (reads_link url ("run #" +:+ esc (RunID op))); [done|].
  rewrite text_app. apply reads_app; [apply reads_plain; plain_text|apply reads_esc].
Qed.

(** C34: no markup but the gateway's own.  A reader of the HTML of an operation sees the
elements of the template (the action in bold, image and id as code, one link to the run,
its address in [href]) with the fields of the operation as text in them, character by
character, whatever they hold, and no other tag or attribute; provided the repository, the
run's id and its attempt, which GitHub's token vouches for, have no double quote. *)
Theorem render_reads op :
  Forall no_quote [Repository op; RunID op; RunAttempt op] ->
  read Txt (render op) = Some (joined (document op)).
Proof.
  intros Hq. apply reads_done, reads_join. unfold document. repeat apply Forall2_app.
  - repeat constructor. apply reads_title.
  - case_decide; repeat constructor. apply reads_code, reads_esc.
  - case_decide; repeat constructor. apply reads_esc.
  - repeat constructor. unfold who_line. pose proof (reads_run op Hq) as Hrun.
    assert (reads_as ("@" +:+ esc (Actor op)) (text ("@" +:+ Actor op))) as Ha.
    { rewrite text_app. apply reads_app; [apply reads_plain; plain_text|apply reads_esc]. }
    destruct (run_url op) as [url|]; [destruct Hrun as [Hne Hrun]|].
    + rewrite decide_False by done. apply reads_app; [done|].
      apply reads_app; [apply reads_plain; plain_text|done].
    + rewrite decide_True by done. by rewrite app_nil_r.
  - case_decide; repeat constructor.
    replace (elapsed op +:+ " · <code>" +:+ esc (OperationID op) +:+ "</code>")
      with ((elapsed op +:+ " · ") +:+ ("<code>" +:+ esc (OperationID op) +:+ "</code>"))
      by (rewrite !str_app_assoc; reflexivity).
    apply reads_app; [|apply reads_code, reads_esc].
    apply reads_plain, plain_app; [apply elapsed_plain|plain_text].
Qed.

Definition sly_op (repository image : string) : Operation :=
  {| OperationID := "op_1"; Repository := repository; RepositoryID := ""; RepositoryOwner := "";
     Actor := "octo<b>cat"; Workflow := ""; WorkflowRef := ""; RunID := "7"; RunAttempt := "";
     EventName := ""; Action := "deployment.rollout"; Namespace := "app"; Deployment := "api";
     Op_Container := ""; Image := image; NsDep := ""; Status := StatusRunning; ErrorCode := "";
     ErrorMessage := ""; RequestedAt := 0; CompletedAt := None; ExpiresAt := 0; Events := [] |}.

Lemma render_reads_witness :
  read Txt (render (sly_op "tuncloud/backend" "</code><a href=x>")) =
  Some (joined (document (sly_op "tuncloud/backend" "</code><a href=x>"))).
Proof. apply render_reads. repeat constructor. Defined.

(** With a quote in the name of the repository the link gets an attribute of its own
making. *)
Example quote_breaks_out :
  let evil := "x" +:+ dquote +:+ " id=" +:+ dquote +:+ "y" in
  option_map (omap (fun t => match t with TOpen "a" attrs => Some attrs | _ => None end))
    (read Txt (render (sly_op evil ""))) =
  Some [[("href", "https://github.com/x"); ("id", "y/actions/runs/7")]].
Proof. vm_compute. reflexivity. Qed.

(** ** Payloads *)

(** The Bot API reads the chat, the message and the text that were meant, ill-formed
bytes replaced. *)
Theorem payloads_read chatID messageID text :
  Unmarshal (Marshal (send_payload chatID text)) =
    Some (send_payload (sanitize chatID) (sanitize text)) /\
  Unmarshal (Marshal (edit_payload chatID messageID text)) =
    Some (edit_payload (sanitize chatID) messageID (sanitize text)).
Proof. split; (apply Unmarshal_Marshal; [done|by apply Nat.leb_le]). Qed.

(** ** Retries *)

Ltac tg_unfold :=
  cbv beta delta [mbind mret prog_bind prog_ret tg_log_err tg_log trigger call inj Sub_rt_tg WithTimeout].

Section Transport.
Variable new_request_error : string -> string -> option error.
Variable t : transport.

(** What a goroutine may still do in one call: [b_requests] requests and [b_pauses] pauses;
and the last answer it got. *)
Record Budget : Type := mkBudget {
  b_requests : nat;
  b_pauses : nat;
  b_answer : option (result error HttpResponse);
}.

Definition budget_pre (ctx : Context) X (e : tgE X) (g : Budget) : Prop :=
  match e with
  | TDo timeout ctx' req => (0 < b_requests g)%nat /\ timeout = sendTimeout /\ ctx' = ctx
  | TSelectAfter ctx' _ => (0 < b_pauses g)%nat /\ ctx' = ctx
  | _ => False
  end.

Definition budget_step X (e : tgE X) (g : Budget) : X -> Budget -> Prop :=
  match e in tgE X return X -> Budget -> Prop with
  | TDo _ _ _ => fun r g' => g' = mkBudget (pred (b_requests g)) (b_pauses g) (Some r)
  | TSelectAfter _ _ => fun _ g' => g' = mkBudget (b_requests g) (pred (b_pauses g)) (b_answer g)
  | _ => fun _ g' => g' = g
  end.

Definition budget (ctx : Context) : spec tgE Budget :=
  {| spec_pre := budget_pre ctx; spec_post := budget_step |}.

(** The envelope of an answer that was read in full. *)
Definition answered (resp : HttpResponse) (out : apiResponse) : Prop :=
  exists j, DecodeBody (RespBody resp) (bool_decide (is_Some (ReadErr resp))) = Some j /\
    dec_apiResponse j no_response = Some out.

(** A call succeeds on an answer with status 200 whose envelope says ok. *)
Definition accepted (r : result error apiResponse) (g : Budget) : Prop :=
  match r with
  | Ok out => OK out = true /\ exists resp, b_answer g = Some (Ok resp) /\
      StatusCode resp = 200 /\ answered resp out
  | Err _ => True
  end.

Lemma judge_success attempt method a out :
  judge t attempt method a = Success out -> OK out = true /\ a = (Some out, 200, None).
Proof.
  destruct a as [[resp status] err]. unfold judge.
  destruct (bool_decide _ && _ && _) eqn:Hs.
  - intros [= <-]. to_prop. subst. split; [done|]. by destruct resp.
  - by destruct (_ || _).
Qed.

Lemma judge_again attempt method a err delay :
  judge t attempt method a = Again err delay -> attempt <> maxAttempts.
Proof.
  destruct a as [[out status] e]. unfold judge. destruct (bool_decide _ && _ && _); [done|].
  destruct (negb _ || _) eqn:Hr; [done|]. intros _ ->.
  rewrite Nat.eqb_refl, orb_true_r in Hr. done.
Qed.

(** One attempt, and what its outcome says of the answer it got. *)
Definition attempted (n s : nat) (a : option apiResponse * Z * option error) (g : Budget) : Prop :=
  (b_requests g = n \/ b_requests g = S n) /\ b_pauses g = s /\
  forall out status, a = (Some out, status, None) -> exists resp,
    b_answer g = Some (Ok resp) /\ StatusCode resp = status /\ answered resp out.

Lemma once_budget ctx method payload n s last :
  wp (budget ctx) (once new_request_error t ctx method payload)
    (returning (attempted n s)) (mkBudget (S n) s last).
Proof.
  unfold once. destruct (new_request_error _ _); [split; [by right|done]|].
  unfold client_Do. tg_unfold. cbn [bind wp].
  split; [split; [simpl; lia|done]|]. intros r g ->. cbn [bind wp pred b_requests b_pauses].
  destruct r as [resp|]; [|split; [by left|done]].
  destruct (DecodeBody _ _) as [j|] eqn:Hj; [|split; [by left|done]].
  destruct (dec_apiResponse j no_response) as [out|] eqn:Hout; [|split; [by left|done]].
  split; [by left|]. split; [done|]. intros out' status [= <- <-]. exists resp.
  split; [done|]. split; [done|]. by exists j.
Qed.

Lemma call_from_budget left attempt err ctx method payload n s last :
  (left + attempt = 4)%nat -> (left <= n)%nat -> (left <= S s)%nat ->
  wp (budget ctx) (call_from new_request_error t left attempt err ctx method payload)
    (returning accepted) (mkBudget n s last).
Proof.
  revert attempt err n s last. induction left as [|left IH]; intros attempt err n s last Ha Hn Hs; [done|].
  destruct n as [|n]; [lia|]. cbn [call_from]. eapply wp_seq; [apply once_budget|].
  intros a [n' s' last'] (Hg & Hp & Hans). cbn in Hg, Hp, Hans.
  destruct (judge t attempt method a) as [out|e|e delay] eqn:Hj.
  - apply judge_success in Hj as [Hok ->]. split; [done|]. by apply Hans.
  - done.
  - apply judge_again in Hj. unfold maxAttempts in Hj. destruct left as [|left]; [lia|].
    tg_unfold. cbn [bind wp]. split; [simpl; split; [lia|done]|]. intros slept g ->.
    destruct slept; [|done]. apply IH; simpl; lia.
Qed.

(** C38: a call to the Bot API makes at most three requests with two pauses, all
under its own deadline, comes to an end, and succeeds only when the last request was
answered with status 200 and an envelope that could be read and says ok, which is what it
returns. *)
Theorem bot_call_bounded ctx method payload :
  wp (budget ctx) (bot_call new_request_error t ctx method payload)
    (returning accepted) (mkBudget 3 2 None).
Proof. by apply call_from_budget. Qed.

(** Pauses.  The next attempt waits for as long as Telegram's [retry_after]
says, else one [retryBase] per attempt made; and only a 429, a 5xx or a missing
answer is tried again, and only before the third attempt. *)
Theorem judge_again_iff attempt method out status err e delay :
  judge t attempt method (out, status, err) = Again e delay <->
  ~ (err = None /\ status = 200 /\ OK (default no_response out) = true) /\
  (err <> None \/ status = 429 \/ 500 <= status) /\ attempt <> maxAttempts /\
  e = match err with
      | Some e => e
      | None => ErrText ("telegram " +:+ method +:+ ": status " +:+ itoa status +:+ ": " +:+
                         Description (default no_response out))
      end /\
  delay = match out with
          | Some resp => if 0 <? RetryAfter resp then dur_mul (RetryAfter resp) Second
                         else dur_mul (Z.of_nat attempt) (retryBase t)
          | None => dur_mul (Z.of_nat attempt) (retryBase t)
          end.
Proof.
  unfold judge. destruct (bool_decide (err = None) && _ && _) eqn:Hs.
  - to_prop. split; [done|]. intros [Hn _]. by destruct Hn.
  - assert (~ (err = None /\ status = 200 /\ OK (default no_response out) = true)) as Hns.
    { intros (-> & -> & Hok). by rewrite Hok in Hs. }
    destruct (negb _ || _) eqn:Hr.
    + split; [done|]. intros (_ & Hretry & Hatt & _). exfalso.
      apply orb_true_iff in Hr as [Hr|Hr]; [|by apply Nat.eqb_eq in Hr].
      apply negb_true_iff in Hr. to_prop. naive_solver lia.
    + apply orb_false_iff in Hr as [Hr Hatt]. apply negb_false_iff in Hr.
      apply Nat.eqb_neq in Hatt. rewrite !orb_true_iff in Hr.
      assert (err <> None \/ status = 429 \/ 500 <= status) as Hretry.
      { destruct Hr as [[Hr|Hr]|Hr]; to_prop; auto. }
      assert ((if bool_decide (out <> None) && (0 <? RetryAfter (default no_response out))
               then dur_mul (RetryAfter (default no_response out)) Second
               else dur_mul (Z.of_nat attempt) (retryBase t)) =
              match out with
              | Some resp => if 0 <? RetryAfter resp then dur_mul (RetryAfter resp) Second
                             else dur_mul (Z.of_nat attempt) (retryBase t)
              | None => dur_mul (Z.of_nat attempt) (retryBase t)
              end) as -> by by destruct out.
      split; [intros [= <- <-]|]; [done|]. by intros (_ & _ & _ & -> & ->).
Qed.

End Transport.

(** ** The bot token *)

(** A call as seen by everyone but the Bot API: the path of the URL is hidden. *)
Definition hide_url X (e : tgE X) : tgE X :=
  match e in tgE X return tgE X with
  | TDo timeout ctx req =>
      TDo timeout ctx {| Method := Method req; URL := ""; Authorization := Authorization req;
                         ContentType := ContentType req; Body := Body req |}
  | e => e
  end.

Definition with_token (tok : string) (t : transport) : transport :=
  {| baseURL := baseURL t; token := tok; retryBase := retryBase t |}.

Section Token.
Variable new_request_error : string -> string -> option error.
Variable t : transport.
Variable tok : string.
(** The new token makes a well-formed URL whenever the old one does. *)
Hypothesis same_urls : forall method payload,
  is_Some (new_request_error "POST" (URL (bot_request t method payload))) <->
  is_Some (new_request_error "POST" (URL (bot_request (with_token tok t) method payload))).

Lemma once_alike ctx method payload :
  alike hide_url (once new_request_error t ctx method payload)
    (once new_request_error (with_token tok t) ctx method payload).
Proof.
  unfold once. pose proof (same_urls method payload) as Hsame.
  destruct (new_request_error _ (URL (bot_request t method payload))) as [e|],
    (new_request_error _ (URL (bot_request (with_token tok t) method payload))) as [e'|].
  - apply alike_refl.
  - destruct Hsame as [H _]. destruct H; [by eexists|done].
  - destruct Hsame as [_ H]. destruct H; [by eexists|done].
  - unfold client_Do. tg_unfold. constructor; [done|]. intros [resp|err]; apply alike_refl.
Qed.

Lemma bot_call_alike ctx method payload :
  alike hide_url (bot_call new_request_error t ctx method payload)
    (bot_call new_request_error (with_token tok t) ctx method payload).
Proof.
  assert (forall left attempt err,
    alike hide_url (call_from new_request_error t left attempt err ctx method payload)
      (call_from new_request_error (with_token tok t) left attempt err ctx method payload)) as H;
    [|apply H].
  induction left as [|left IH]; intros attempt err; [apply alike_refl|]. cbn [call_from].
  apply alike_bind; [apply once_alike|]. intros a.
  change (judge (with_token tok t) attempt method a) with (judge t attempt method a).
  destruct (judge t attempt method a); [apply alike_refl..|].
  apply alike_bind; [apply alike_refl|]. intros []; [apply IH|apply alike_refl].
Qed.

(** C36: the bot token stays in the URL.  Take two tokens that make acceptable URLs of the
same methods and payloads.  Whatever Telegram answers, and though a failed request is
reported with the URL it was for, what the two background goroutines send, wait for, record
and log, errors included, is the same with either token, the URLs of the requests
excepted. *)
Theorem token_not_revealed chatID m msg text :
  alike hide_url (send_started new_request_error t chatID m text)
    (send_started new_request_error (with_token tok t) chatID m text) /\
  alike hide_url (send_resolved new_request_error t chatID msg text)
    (send_resolved new_request_error (with_token tok t) chatID msg text).
Proof.
  split.
  - apply alike_bind; [apply alike_refl|]. intros ctx. apply alike_bind; [|intros r; apply alike_refl].
    apply alike_bind; [apply bot_call_alike|]. intros r. apply alike_refl.
  - apply alike_bind; [apply alike_refl|]. intros id. apply alike_bind; [apply alike_refl|].
    intros ctx. destruct (id =? 0).
    + apply alike_bind; [|intros r; apply alike_refl].
      apply alike_bind; [apply bot_call_alike|]. intros r. apply alike_refl.
    + apply alike_bind; [|intros r; apply alike_refl].
      apply alike_bind; [apply bot_call_alike|]. intros r. apply alike_refl.
Qed.

End Token.

Lemma token_not_revealed_witness :
  let t := newTransport "https://api.telegram.org" "123:abc" in
  alike hide_url (send_started (fun _ _ => None) t "42" 0 "hi")
    (send_started (fun _ _ => None) (with_token "456:def" t) "42" 0 "hi").
Proof.
  apply (token_not_revealed (fun _ _ => None) (newTransport "https://api.telegram.org" "123:abc")
           "456:def").
  - intros method payload. split; intros H; exact H.
  - exact None.
Defined.

(** ** The started message is settled in time *)

(** The clock, and how often the message has been settled. *)
Record Timing : Type := { t_clock : Z; t_settled : nat }.

(** A wait under a context ends by the context's deadline. *)
Definition by_deadline (ctx : Context) (c c' : Z) : Prop :=
  c <= c' /\ match ctx with WithDeadline _ d => c' <= Z.max c d | _ => True end.

Definition timing_pre (start : Z) (m : nat) X (e : tgE X) (g : Timing) : Prop :=
  match e with
  | TSettle m' _ => m' = m /\ t_settled g = 0%nat /\ t_clock g <= start + callTimeout
  | TWaitReady _ _ | TNewMessage | GoStarted _ _ | GoResolved _ _ => False
  | _ => True
  end.

Definition timing_step X (e : tgE X) (g : Timing) : X -> Timing -> Prop :=
  match e in tgE X return X -> Timing -> Prop with
  | TRt e =>
      match e in rtE X return X -> Timing -> Prop with
      | TimeNow => fun x g' => x = t_clock g /\ g' = g
      | LogLine _ _ => fun _ g' => g' = g
      end
  | TDo _ ctx _ => fun _ g' => by_deadline ctx (t_clock g) (t_clock g') /\ t_settled g' = t_settled g
  | TSelectAfter ctx _ => fun _ g' =>
      by_deadline ctx (t_clock g) (t_clock g') /\ t_settled g' = t_settled g
  | TSettle _ _ => fun _ g' => g' = {| t_clock := t_clock g; t_settled := S (t_settled g) |}
  | _ => fun _ g' => g' = g
  end.

Definition timing (start : Z) (m : nat) : spec tgE Timing :=
  {| spec_pre := timing_pre start m; spec_post := timing_step |}.

Section Timing.
Variable new_request_error : string -> string -> option error.
Variable t : transport.

(** Within the deadline, nothing settled yet. *)
Definition within (dl : Z) {A} (_ : A) (g : Timing) : Prop := t_clock g <= dl /\ t_settled g = 0%nat.

Lemma call_from_in_time start m dl left attempt err method payload g :
  within dl tt g ->
  wp (timing start m) (call_from new_request_error t left attempt err (WithDeadline Background dl)
                         method payload)
    (returning (within dl)) g.
Proof.
  revert attempt err g. induction left as [|left IH]; intros attempt err g Hg; [exact Hg|].
  cbn [call_from].
  assert (forall g', by_deadline (WithDeadline Background dl) (t_clock g) (t_clock g') ->
            t_settled g' = t_settled g -> within dl tt g') as Hstep.
  { intros g' [_ Hd] Hs. destruct Hg. split; [simpl in Hd; lia|congruence]. }
  eapply (wp_seq _ _ _ (fun _ => within dl tt)).
  - unfold once. destruct (new_request_error _ _); [exact Hg|]. unfold client_Do. tg_unfold. cbn [bind wp].
    split; [exact I|]. intros r g' [Hd Hs]. cbn [bind wp]. specialize (Hstep g' Hd Hs).
    destruct r as [resp|]; [|exact Hstep].
    destruct (DecodeBody _ _) as [j|]; [|exact Hstep].
    by destruct (dec_apiResponse j no_response).
  - intros a g1 Hg1. destruct (judge t attempt method a); [exact Hg1..|].
    tg_unfold. cbn [bind wp]. split; [exact I|]. intros slept g2 [Hd Hs].
    assert (within dl tt g2).
    { destruct Hg1, Hd as [_ Hd]. split; [simpl in Hd; lia|congruence]. }
    destruct slept; [by apply IH|done].
Qed.

(** C37: the started message is settled once, and at most [callTimeout] after its
goroutine started, as long as waits honour their contexts: a terminal
notification, which waits for [handleWait], one second more, finds it settled. *)
Theorem started_settles_in_time chatID m text start :
  callTimeout < handleWait /\
  wp (timing start m) (send_started new_request_error t chatID m text)
    (returning (fun _ g => t_settled g = 1%nat)) {| t_clock := start; t_settled := 0 |}.
Proof.
  split; [reflexivity|]. unfold send_started. tg_unfold. cbn [bind wp].
  split; [exact I|]. intros now g [-> ->]. cbn [t_clock].
  apply wp_bind. unfold send. tg_unfold. apply wp_bind.
  eapply wp_mono; [|apply (call_from_in_time start m (time_Add start callTimeout) 3 1)].
  - intros [[resp|err]|s] g' Hg; [| |done]; destruct Hg as [Hc Hs]; cbn [wp bind].
    + split; [by split|]. intros u g2 H. cbn in H. subst g2. simpl. by rewrite Hs.
    + split; [exact I|]. intros u g2 H. cbn in H. subst g2. split; [by split|].
      intros u2 g2 H. cbn in H. subst g2. simpl. by rewrite Hs.
  - split; [simpl; unfold time_Add, callTimeout, Second; lia|done].
Qed.

End Timing.
