(* ===== verification/Manager.v ===== *)
(** * The operation manager

[internal/operation]: starting restarts and rollouts, following them to a
terminal status, and reconciling operations nobody follows any more.  Every
function of [manager.go] and [reconcile.go] is a program over [mgrE], the calls
it makes to the store, Kubernetes, the notifier and the runtime; the theorems
are in [ManagerSpec], [ManagerWatch] and [ManagerRace]. *)

From S2P Require Import Prelude GoStrings GoRuntime Effects Kube Store Authn Notify.

Local Open Scope string_scope.
Local Open Scope list_scope.
Local Open Scope Z_scope.

(** ** Calls *)

Inductive mgrE : Type -> Type :=
  | MStore {X} (e : storeE X) : mgrE X
  | MKube {X} (e : kubeE X) : mgrE X
  | MNotify {X} (e : notifyE X) : mgrE X
  | MRt {X} (e : rtE X) : mgrE X
  (** [ulid.Make().String()] *)
  | UlidMake : mgrE string
  (** [ctx.Err() != nil] *)
  | CtxErr (ctx : Context) : mgrE bool
  (** [select] on [ctx.Done()] and [time.After(d)]: [true] when the timer won *)
  | SelectAfter (ctx : Context) (d : Z) : mgrE bool
  (** [select] on [ctx.Done()] and a [time.Ticker] of period [d]: [true] for a
      tick, which may have been waiting *)
  | SelectTick (ctx : Context) (d : Z) : mgrE bool
  (** receiving from [w.ResultChan()]: [None] when it is closed *)
  | Recv (w : nat) : mgrE (option WatchObject)
  (** [w.Stop()] *)
  | StopWatch (w : nat) : mgrE unit
  (** [go m.watchRollout(op, msg)] *)
  | GoWatch (op : Operation) (msg : option nat) : mgrE unit.

#[export] Instance Sub_store_mgr : Sub storeE mgrE := @MStore.
#[export] Instance Sub_kube_mgr : Sub kubeE mgrE := @MKube.
#[export] Instance Sub_notify_mgr : Sub notifyE mgrE := @MNotify.
#[export] Instance Sub_rt_mgr : Sub rtE mgrE := @MRt.

Definition log (l : level) (msg : string) : prog mgrE unit := trigger (LogLine l msg).
Definition now_ : prog mgrE Z := trigger TimeNow.

(** ** Constants and construction *)

Definition ActionRestart : string := "deployment.restart".
Definition ActionRollout : string := "deployment.rollout".

Definition ErrAmbiguousContainer : error :=
  ErrVar "operation.ErrAmbiguousContainer"
    "deployment has multiple containers; container must be specified".

(** The manager; its three collaborators are the signature [mgrE]. *)
Record Manager : Type := { defaultDeadline : Z }.

Definition NewManager (d : Z) : Manager :=
  {| defaultDeadline := if d <=? 0 then 10 * Minute else d |}.

Definition NewOperationID : prog mgrE string :=
  u ← call UlidMake;
  mret ("op_" +:+ ToLower u).

(** [now.Add(365 * 24 * time.Hour).Unix()] *)
Definition expires_at (now : Z) : Z := time_Unix (time_Add now (365 * 24 * Hour)).

(** ** Terminal writes *)

Definition applyTerminal (op : Operation) (upd : TerminalUpdate) : Operation :=
  with_outcome op (Upd_Status upd) (Upd_ErrorCode upd) (Upd_ErrorMessage upd)
    (Some (Upd_CompletedAt upd)) (Events op).

Definition logTerminalWriteErr (what : string) (err : error) : prog mgrE unit :=
  if error_Is err ErrAlreadyTerminal then log LInfo (what +:+ " skipped: already terminal")
  else log LError what.

Definition resolve (op : Operation) (msg : option nat) (what : string)
    (upd : TerminalUpdate) : prog mgrE unit :=
  err ← trigger (UpdateTerminal Background (OperationID op) upd);
  match err with
  | Some err => logTerminalWriteErr what err
  | None => trigger (Resolved (applyTerminal op upd) msg)
  end.

Definition failOperation (op : Operation) (msg : option nat) (code errMsg : string) :
    prog mgrE unit :=
  now ← now_;
  resolve op msg "mark operation failed"
    {| Upd_Status := StatusFailed; Upd_Event := "FAILED"; Upd_ErrorCode := code;
       Upd_ErrorMessage := errMsg; Upd_CompletedAt := now |}.

(** The reason is only logged. *)
Definition completeOperation (op : Operation) (msg : option nat) (reason : string) :
    prog mgrE unit :=
  now ← now_;
  resolve op msg "mark operation succeeded"
    {| Upd_Status := StatusSucceeded; Upd_Event := "SUCCEEDED"; Upd_ErrorCode := "";
       Upd_ErrorMessage := ""; Upd_CompletedAt := now |} ;;
  log LInfo "rollout succeeded".

Definition timeoutOperation (op : Operation) (msg : option nat) (errMsg : string) :
    prog mgrE unit :=
  now ← now_;
  resolve op msg "mark operation timeout"
    {| Upd_Status := StatusTimeout; Upd_Event := "TIMEOUT"; Upd_ErrorCode := "TIMEOUT";
       Upd_ErrorMessage := errMsg; Upd_CompletedAt := now |}.

(** ** Starting operations *)

Definition Restart (ctx : Context) (id : GitHubIdentity) (namespace deployment : string) :
    prog mgrE (string * option error) :=
  now ← now_;
  opID ← NewOperationID;
  let op := {|
    OperationID := opID; Store.Repository := Id_Repository id;
    RepositoryID := Id_RepositoryID id; RepositoryOwner := Id_RepositoryOwner id;
    Actor := Id_Actor id; Workflow := Id_Workflow id; WorkflowRef := Id_WorkflowRef id;
    RunID := Id_RunID id; RunAttempt := Id_RunAttempt id; EventName := Id_EventName id;
    Action := ActionRestart; Namespace := namespace; Store.Deployment := deployment;
    Op_Container := ""; Image := ""; NsDep := namespace +:+ "#" +:+ deployment;
    Status := StatusRunning; ErrorCode := ""; ErrorMessage := "";
    RequestedAt := now; CompletedAt := None; ExpiresAt := expires_at now;
    Events := [{| Event := "REQUESTED"; At := now |}; {| Event := "STARTED"; At := now |}] |} in
  err ← trigger (PutOperation ctx op);
  match err with
  | Some err => mret ("", Some (ErrWrap "persist operation: " err ""))
  | None =>
      err ← trigger (RestartDeployment ctx namespace deployment);
      match err with
      | Some err =>
          failOperation op None "K8S_PATCH_FAILED" (error_Error err) ;;
          mret (OperationID op, Some (ErrWrap "patch deployment: " err ""))
      | None =>
          log LInfo "restart started" ;;
          msg ← trigger (Started op);
          call (GoWatch op msg) ;;
          mret (OperationID op, None)
      end
  end.

Definition resolveContainer (ctx : Context) (namespace deployment : string) :
    prog mgrE (string * option error) :=
  r ← trigger (GetDeployment ctx namespace deployment);
  match r with
  | Err err => mret ("", Some (ErrWrap "get deployment: " err ""))
  | Ok dep =>
      match Containers dep with
      | [c] => mret (Container_Name c, None)
      | [] => mret ("", Some (ErrText ("deployment " +:+ namespace +:+ "/" +:+ deployment +:+
                                       " has no containers")))
      | _ => mret ("", Some ErrAmbiguousContainer)
      end
  end.

(** Unlike the other two constructors of an operation, this one leaves the
repository owner out. *)
Definition recordFailedRollout (ctx : Context) (id : GitHubIdentity)
    (namespace deployment container image code msg : string) : prog mgrE string :=
  now ← now_;
  opID ← NewOperationID;
  let op := {|
    OperationID := opID; Store.Repository := Id_Repository id;
    RepositoryID := Id_RepositoryID id; RepositoryOwner := "";
    Actor := Id_Actor id; Workflow := Id_Workflow id; WorkflowRef := Id_WorkflowRef id;
    RunID := Id_RunID id; RunAttempt := Id_RunAttempt id; EventName := Id_EventName id;
    Action := ActionRollout; Namespace := namespace; Store.Deployment := deployment;
    Op_Container := container; Image := image; NsDep := namespace +:+ "#" +:+ deployment;
    Status := StatusRunning; ErrorCode := ""; ErrorMessage := "";
    RequestedAt := now; CompletedAt := None; ExpiresAt := expires_at now;
    Events := [{| Event := "REQUESTED"; At := now |}] |} in
  err ← trigger (PutOperation ctx op);
  match err with
  | Some _ => log LError "persist failed rollout operation" ;; mret ""
  | None => failOperation op None code msg ;; mret (OperationID op)
  end.

(** [Rollout] from the point where the container is known. *)
Definition rollout_with (ctx : Context) (id : GitHubIdentity)
    (namespace deployment container image : string) : prog mgrE (string * option error) :=
  now ← now_;
  opID ← NewOperationID;
  let op := {|
    OperationID := opID; Store.Repository := Id_Repository id;
    RepositoryID := Id_RepositoryID id; RepositoryOwner := Id_RepositoryOwner id;
    Actor := Id_Actor id; Workflow := Id_Workflow id; WorkflowRef := Id_WorkflowRef id;
    RunID := Id_RunID id; RunAttempt := Id_RunAttempt id; EventName := Id_EventName id;
    Action := ActionRollout; Namespace := namespace; Store.Deployment := deployment;
    Op_Container := container; Image := image; NsDep := namespace +:+ "#" +:+ deployment;
    Status := StatusRunning; ErrorCode := ""; ErrorMessage := "";
    RequestedAt := now; CompletedAt := None; ExpiresAt := expires_at now;
    Events := [{| Event := "REQUESTED"; At := now |}; {| Event := "STARTED"; At := now |}] |} in
  err ← trigger (PutOperation ctx op);
  match err with
  | Some err => mret ("", Some (ErrWrap "persist operation: " err ""))
  | None =>
      err ← trigger (RolloutDeployment ctx namespace deployment container image);
      match err with
      | Some err =>
          failOperation op None "K8S_PATCH_FAILED" (error_Error err) ;;
          mret (OperationID op, Some (ErrWrap "patch deployment: " err ""))
      | None =>
          log LInfo "rollout started" ;;
          msg ← trigger (Started op);
          call (GoWatch op msg) ;;
          mret (OperationID op, None)
      end
  end.

(** A missing container is resolved first.  [resolveErr.Error()] is evaluated
even when the error is nil and only the name is empty: a nil dereference. *)
Definition Rollout (ctx : Context) (id : GitHubIdentity)
    (namespace deployment container image : string) : prog mgrE (string * option error) :=
  if decide (container = "") then
    '(resolved, resolveErr) ← resolveContainer ctx namespace deployment;
    if errors_Is resolveErr ErrAmbiguousContainer then mret ("", Some ErrAmbiguousContainer)
    else if decide (resolveErr ≠ None \/ resolved = "") then
      match resolveErr with
      | None => Halt (Panicked "invalid memory address or nil pointer dereference")
      | Some err =>
          opID ← recordFailedRollout ctx id namespace deployment "" image
                   "K8S_PATCH_FAILED" ("resolve container: " +:+ error_Error err);
          mret (opID, Some err)
      end
    else rollout_with ctx id namespace deployment resolved image
  else rollout_with ctx id namespace deployment container image.

(** ** Following a rollout *)

Definition progressDeadline (m : Manager) (dep : Kube.Deployment) : Z :=
  match ProgressDeadlineSeconds dep with
  | Some s => if 0 <? s then dur_mul s Second else defaultDeadline m
  | None => defaultDeadline m
  end.

Definition maxBackoff : Z := 15 * Second.

Definition sleepCtx (ctx : Context) (d : Z) : prog mgrE bool :=
  timer ← call (SelectAfter ctx d);
  mret timer.

(** Acting on an evaluation: [true] when it is terminal. *)
Definition act_on (op : Operation) (msg : option nat) (ev : RolloutEvaluation) :
    prog mgrE bool :=
  match Eval_State ev with
  | RolloutComplete => completeOperation op msg (Eval_Reason ev) ;; mret true
  | RolloutFailed => failOperation op msg "ROLLOUT_FAILED" (Eval_Reason ev) ;; mret true
  | RolloutProgressing => mret false
  end.

Definition evalOnce (ctx : Context) (op : Operation) (msg : option nat) : prog mgrE bool :=
  r ← trigger (GetDeployment ctx (Namespace op) (Store.Deployment op));
  match r with
  | Err _ => log LWarn "re-get deployment" ;; mret false
  | Ok dep => act_on op msg (EvaluateRollout dep)
  end.

(** [for event := range w.ResultChan()]: [true] when an event resolved the
operation, [false] when the channel was closed. *)
Fixpoint range_events (fuel : nat) (w : nat) (op : Operation) (msg : option nat) :
    prog mgrE bool :=
  match fuel with
  | O => Halt OutOfFuel
  | S fuel' =>
      event ← call (Recv w);
      match event with
      | None => mret false
      | Some WatchOther => range_events fuel' w op msg
      | Some (WatchDeploymentObject dep) =>
          done ← act_on op msg (EvaluateRollout dep);
          if (done : bool) then call (StopWatch w) ;; mret true
          else range_events fuel' w op msg
      end
  end.

Fixpoint watch_loop (fuel evfuel : nat) (ctx : Context) (op : Operation) (msg : option nat)
    (backoff : Z) : prog mgrE unit :=
  match fuel with
  | O => Halt OutOfFuel
  | S fuel' =>
      expired ← call (CtxErr ctx);
      if (expired : bool) then
        timeoutOperation op msg "watch deadline exceeded before rollout resolved"
      else
        resolved ← evalOnce ctx op msg;
        if (resolved : bool) then mret tt
        else
          r ← trigger (WatchDeployment ctx (Namespace op) (Store.Deployment op));
          match r with
          | Err _ =>
              log LWarn "watch start failed" ;;
              slept ← sleepCtx ctx backoff;
              if (slept : bool) then
                watch_loop fuel' evfuel ctx op msg (Z.min (dur_mul 2 backoff) maxBackoff)
              else timeoutOperation op msg "watch deadline exceeded"
          | Ok w =>
              finished ← range_events evfuel w op msg;
              if (finished : bool) then mret tt
              else
                slept ← sleepCtx ctx backoff;
                if (slept : bool) then
                  watch_loop fuel' evfuel ctx op msg (Z.min (dur_mul 2 backoff) maxBackoff)
                else timeoutOperation op msg "watch deadline exceeded after reconnect"
          end
  end.

Definition watchRollout (m : Manager) (fuel evfuel : nat) (op : Operation)
    (msg : option nat) : prog mgrE unit :=
  r ← trigger (GetDeployment Background (Namespace op) (Store.Deployment op));
  let deadline := match r with
                  | Ok dep => progressDeadline m dep
                  | Err _ => defaultDeadline m
                  end in
  ctx ← WithTimeout Background (dur_add deadline (2 * Minute));
  watch_loop fuel evfuel ctx op msg Second.

(** ** Reconciliation *)

Definition staleAfter : Z := 2 * Hour.
Definition sweepInterval : Z := 60 * Second.

Definition resolveRunning (ctx : Context) (op : Operation) : prog mgrE unit :=
  r ← trigger (GetDeployment ctx (Namespace op) (Store.Deployment op));
  match r with
  | Err err =>
      done ← (if error_Is err ContextCanceled then mret true else call (CtxErr ctx));
      if (done : bool) then log LWarn "resolve skipped: context done"
      else timeoutOperation op None
             ("deployment no longer readable while operation running: " +:+ error_Error err)
  | Ok dep =>
      let ev := EvaluateRollout dep in
      match Eval_State ev with
      | RolloutComplete => completeOperation op None (Eval_Reason ev)
      | RolloutFailed => failOperation op None "ROLLOUT_FAILED" (Eval_Reason ev)
      | RolloutProgressing =>
          timeoutOperation op None
            ("operation stale and rollout still not terminal: " +:+ Eval_Reason ev)
      end
  end.

Definition ReconcileSweep (ctx : Context) : prog mgrE unit :=
  now ← now_;
  r ← trigger (ListRunningPastDeadline ctx (time_Add now (- staleAfter)));
  match r with
  | Err _ => log LError "sweeper list"
  | Ok ops => for_each ops (resolveRunning ctx)
  end.

(** The ticker loop: forever, until the context is done ([fuel] ticks are
followed). *)
Fixpoint StartSweeper (fuel : nat) (ctx : Context) : prog mgrE unit :=
  match fuel with
  | O => Halt OutOfFuel
  | S fuel' =>
      tick ← call (SelectTick ctx sweepInterval);
      if (tick : bool) then ReconcileSweep ctx ;; StartSweeper fuel' ctx
      else mret tt
  end.

Definition Get (ctx : Context) (opID : string) : prog mgrE (result error Operation) :=
  r ← trigger (GetOperation ctx opID);
  match r with
  | Err err => mret (Err err)
  | Ok op =>
      stale ← (if decide (Status op = StatusRunning) then
                 now ← now_; mret (staleAfter <? time_Sub now (RequestedAt op))
               else mret false);
      if (stale : bool) then
        resolveRunning ctx op ;;
        refreshed ← trigger (GetOperation ctx opID);
        match refreshed with
        | Ok op' => mret (Ok op')
        | Err _ => mret (Ok op)
        end
      else mret (Ok op)
  end.

#[global] Arguments log : simpl never.
#[global] Arguments resolve : simpl never.
#[global] Arguments failOperation : simpl never.
#[global] Arguments completeOperation : simpl never.
#[global] Arguments timeoutOperation : simpl never.
#[global] Arguments recordFailedRollout : simpl never.
#[global] Arguments rollout_with : simpl never.
#[global] Arguments act_on : simpl never.
#[global] Arguments evalOnce : simpl never.
#[global] Arguments resolveRunning : simpl never.
