(* ===== verification/ManagerSpec.v ===== *)
(** * The operation manager: what each function does

The world the manager runs in ([World]), how its collaborators may answer
([mgr_env]: the store by its contract, Kubernetes and the notifier arbitrarily,
a clock that does not run backwards, fresh operation ids), and the functional
specification of every function on every branch. *)

From S2P Require Import Prelude GoStrings GoRuntime Effects Kube Store Authn Notify Manager.

Local Open Scope string_scope.
Local Open Scope list_scope.
Local Open Scope Z_scope.

(** ** The world *)

Inductive Notice : Type :=
  | NStarted (op : Operation)
  | NResolved (op : Operation) (msg : option nat).

Inductive Patch : Type :=
  | PRestart (namespace name : string)
  | PRollout (namespace name container image : string).

#[export] Instance Patch_eq_dec : EqDecision Patch.
Proof. solve_decision. Defined.

(** A call of the store with its answer. *)
Inductive StoreCall : Type :=
  | DidPut (op : Operation) (x : option error)
  | DidGet (id : string) (x : result error Operation)
  | DidEnd (id : string) (upd : TerminalUpdate) (x : option error)
  | DidList (t : Z) (x : result error (list Operation))
  | DidPing (x : option error).

Definition store_call X (e : storeE X) : X -> StoreCall :=
  match e in storeE X return X -> StoreCall with
  | PutOperation _ op => DidPut op
  | GetOperation _ id => DidGet id
  | UpdateTerminal _ id upd => DidEnd id upd
  | ListRunningPastDeadline _ t => DidList t
  | Ping _ => DidPing
  end.

Record World : Type := mkWorld {
  (** the operations table *)
  ops : gmap string Operation;
  (** the instant last read *)
  clock : Z;
  (** the external contexts already cancelled *)
  cancelled : nat -> bool;
  (** the operation ids handed out *)
  used : gset string;
  (** every answer to [GetDeployment], latest first *)
  seen : list (result error Kube.Deployment);
  (** every patch sent, latest first, and whether it was accepted *)
  patches : list (Patch * bool);
  (** every call to the notifier, latest first *)
  notices : list Notice;
  (** every watcher started, latest first *)
  watchers : list (Operation * option nat);
  (** every call of the store, latest first *)
  stored : list StoreCall;
}.

Definition set_ops (m : gmap string Operation) (w : World) : World :=
  mkWorld m (clock w) (cancelled w) (used w) (seen w) (patches w) (notices w) (watchers w) (stored w).
Definition set_clock (t : Z) (w : World) : World :=
  mkWorld (ops w) t (cancelled w) (used w) (seen w) (patches w) (notices w) (watchers w) (stored w).
Definition set_cancelled (c : nat -> bool) (w : World) : World :=
  mkWorld (ops w) (clock w) c (used w) (seen w) (patches w) (notices w) (watchers w) (stored w).
Definition add_used (id : string) (w : World) : World :=
  mkWorld (ops w) (clock w) (cancelled w) ({[id]} ∪ used w) (seen w) (patches w) (notices w)
    (watchers w) (stored w).
Definition add_seen (r : result error Kube.Deployment) (w : World) : World :=
  mkWorld (ops w) (clock w) (cancelled w) (used w) (r :: seen w) (patches w) (notices w)
    (watchers w) (stored w).
Definition add_patch (p : Patch * bool) (w : World) : World :=
  mkWorld (ops w) (clock w) (cancelled w) (used w) (seen w) (p :: patches w) (notices w)
    (watchers w) (stored w).
Definition add_notice (n : Notice) (w : World) : World :=
  mkWorld (ops w) (clock w) (cancelled w) (used w) (seen w) (patches w) (n :: notices w)
    (watchers w) (stored w).
Definition add_watcher (o : Operation * option nat) (w : World) : World :=
  mkWorld (ops w) (clock w) (cancelled w) (used w) (seen w) (patches w) (notices w)
    (o :: watchers w) (stored w).
(** A call of the store that leaves the table [m]. *)
Definition did_store (c : StoreCall) (m : gmap string Operation) (w : World) : World :=
  mkWorld m (clock w) (cancelled w) (used w) (seen w) (patches w) (notices w) (watchers w)
    (c :: stored w).

(** Contexts may be cancelled at any time, and stay cancelled. *)
Definition more_cancelled (c c' : nat -> bool) : Prop := forall n, c n = true -> c' n = true.

(** The id an operation gets for a ULID. *)
Definition id_of_ulid (u : string) : string := "op_" +:+ ToLower u.

(** ** How the collaborators answer *)

Definition kube_post X (e : kubeE X) (w : World) : X -> World -> Prop :=
  match e in kubeE X return X -> World -> Prop with
  | RestartDeployment _ ns name => fun x w' =>
      w' = add_patch (PRestart ns name, bool_decide (x = None)) w
  | RolloutDeployment _ ns name c i => fun x w' =>
      w' = add_patch (PRollout ns name c i, bool_decide (x = None)) w
  | GetDeployment _ _ _ => fun x w' => w' = add_seen x w
  | WatchDeployment _ _ _ => fun _ w' => w' = w
  end.

Definition notify_post X (e : notifyE X) (w : World) : X -> World -> Prop :=
  match e in notifyE X return X -> World -> Prop with
  | Started op => fun _ w' => w' = add_notice (NStarted op) w
  | Resolved op msg => fun _ w' => w' = add_notice (NResolved op msg) w
  end.

Definition rt_post X (e : rtE X) (w : World) : X -> World -> Prop :=
  match e in rtE X return X -> World -> Prop with
  | TimeNow => fun t w' => clock w <= t /\ w' = set_clock t w
  | LogLine _ _ => fun _ w' => w' = w
  end.

Definition mgr_post X (e : mgrE X) (w : World) : X -> World -> Prop :=
  match e in mgrE X return X -> World -> Prop with
  | MStore e => fun x w' =>
      exists m', store_post _ e (ops w) x m' /\ w' = did_store (store_call _ e x) m' w
  | MKube e => kube_post _ e w
  | MNotify e => notify_post _ e w
  | MRt e => rt_post _ e w
  | UlidMake => fun u w' => (id_of_ulid u ∉ used w) /\ w' = add_used (id_of_ulid u) w
  | CtxErr ctx => fun b w' => exists t c, clock w <= t /\ more_cancelled (cancelled w) c /\
      b = ctx_done c t ctx /\ w' = set_cancelled c (set_clock t w)
  | SelectAfter ctx d => fun b w' => exists t c, clock w <= t /\
      more_cancelled (cancelled w) c /\ w' = set_cancelled c (set_clock t w) /\
      if (b : bool) then clock w + d <= t else ctx_done c t ctx = true
  | SelectTick ctx d => fun b w' => exists t c, clock w <= t /\
      more_cancelled (cancelled w) c /\ w' = set_cancelled c (set_clock t w) /\
      if (b : bool) then True else ctx_done c t ctx = true
  | Recv _ => fun _ w' => w' = w
  | StopWatch _ => fun _ w' => w' = w
  | GoWatch op msg => fun _ w' => w' = add_watcher (op, msg) w
  end.

Definition mgr_env : spec mgrE World :=
  {| spec_pre := fun _ _ _ => True; spec_post := mgr_post |}.

(** Ids in the table have been handed out, and the table is well keyed. *)
Definition ids_ok (w : World) : Prop := well_keyed (ops w) /\ (dom (ops w) ⊆ used w).

(** ** Symbolic execution *)

Ltac prog_unfold :=
  cbv beta delta [mbind mret prog_bind prog_ret log now_ NewOperationID sleepCtx trigger call
    inj Sub_store_mgr Sub_kube_mgr Sub_notify_mgr Sub_rt_mgr].

Ltac wp_unfold := prog_unfold; cbn [wp bind].

(** One call: split the precondition off and name the answer. *)
Ltac wp_call x w' H :=
  split; [exact I|]; intros x w' H; cbn [mgr_env spec_post mgr_post kube_post notify_post rt_post] in H.

(** ** What a terminal write leads to *)

Definition failed_update (code msg : string) (upd : TerminalUpdate) : Prop :=
  Upd_Status upd = StatusFailed /\ Upd_Event upd = "FAILED" /\
  Upd_ErrorCode upd = code /\ Upd_ErrorMessage upd = msg.

(** [resolve] made its one write with [upd]; the store answered as its contract allows,
and the notifier was told if and only if the store confirmed.  Nothing else happened. *)
Definition resolved_with (op : Operation) (msg : option nat) (upd : TerminalUpdate)
    (w w' : World) : Prop :=
  exists x m, store_post _ (UpdateTerminal Background (OperationID op) upd) (ops w) x m /\
    let w1 := did_store (DidEnd (OperationID op) upd x) m w in
    w' = match x with
         | None => add_notice (NResolved (applyTerminal op upd) msg) w1
         | Some _ => w1
         end.

Lemma log_wp l msg w Q : Q (Done tt) w -> wp mgr_env (log l msg) Q w.
Proof. intros HQ. wp_unfold. wp_call x w' Hw. by destruct x; subst. Qed.

Lemma logTerminalWriteErr_wp what err w Q :
  Q (Done tt) w -> wp mgr_env (logTerminalWriteErr what err) Q w.
Proof. intros HQ. unfold logTerminalWriteErr. case_match; by apply log_wp. Qed.

Lemma resolve_wp op msg what upd w :
  wp mgr_env (resolve op msg what upd) (returning (fun _ => resolved_with op msg upd w)) w.
Proof.
  unfold resolve, resolved_with. wp_unfold. wp_call err w1 Hw.
  destruct Hw as (m & Hm & ->). destruct err as [err|].
  - apply logTerminalWriteErr_wp. by exists (Some err), m.
  - wp_unfold. wp_call u w2 Hw2. subst w2. by exists None, m.
Qed.

(** The three ways to end an operation differ in the update only. *)
Definition ends_with (op : Operation) (msg : option nat) (st ev code errMsg : string)
    (w w' : World) : Prop :=
  exists t, clock w <= t /\
    resolved_with op msg
      {| Upd_Status := st; Upd_Event := ev; Upd_ErrorCode := code; Upd_ErrorMessage := errMsg;
         Upd_CompletedAt := t |} (set_clock t w) w'.

Lemma failOperation_wp op msg code errMsg w :
  wp mgr_env (failOperation op msg code errMsg)
    (returning (fun _ => ends_with op msg StatusFailed "FAILED" code errMsg w)) w.
Proof.
  unfold failOperation. wp_unfold. wp_call t w1 Hw. destruct Hw as [Ht ->].
  eapply wp_mono; [|apply resolve_wp]. intros [[]|]; simpl; [|done]. intros H. by exists t.
Qed.

Lemma timeoutOperation_wp op msg errMsg w :
  wp mgr_env (timeoutOperation op msg errMsg)
    (returning (fun _ => ends_with op msg StatusTimeout "TIMEOUT" "TIMEOUT" errMsg w)) w.
Proof.
  unfold timeoutOperation. wp_unfold. wp_call t w1 Hw. destruct Hw as [Ht ->].
  eapply wp_mono; [|apply resolve_wp]. intros [[]|]; simpl; [|done]. intros H. by exists t.
Qed.

Lemma completeOperation_wp op msg reason w :
  wp mgr_env (completeOperation op msg reason)
    (returning (fun _ => ends_with op msg StatusSucceeded "SUCCEEDED" "" "" w)) w.
Proof.
  unfold completeOperation. wp_unfold. wp_call t w1 Hw. destruct Hw as [Ht ->].
  eapply wp_seq; [apply resolve_wp|].
  intros [] w2 H. apply log_wp. simpl. by exists t.
Qed.

(** ** Starting an operation *)

(** The row a request persists. *)
Definition requested_op (action : string) (id : GitHubIdentity)
    (namespace deployment container image : string) (opID : string) (now : Z) : Operation := {|
  OperationID := opID; Store.Repository := Id_Repository id;
  RepositoryID := Id_RepositoryID id; RepositoryOwner := Id_RepositoryOwner id;
  Actor := Id_Actor id; Workflow := Id_Workflow id; WorkflowRef := Id_WorkflowRef id;
  RunID := Id_RunID id; RunAttempt := Id_RunAttempt id; EventName := Id_EventName id;
  Action := action; Namespace := namespace; Store.Deployment := deployment;
  Op_Container := container; Image := image; NsDep := namespace +:+ "#" +:+ deployment;
  Status := StatusRunning; ErrorCode := ""; ErrorMessage := "";
  RequestedAt := now; CompletedAt := None; ExpiresAt := expires_at now;
  Events := [{| Event := "REQUESTED"; At := now |}; {| Event := "STARTED"; At := now |}] |}.

(** The row of a rollout that failed before its patch: same, without the owner
and without the [STARTED] event. *)
Definition unstarted_op (id : GitHubIdentity) (namespace deployment image : string)
    (opID : string) (now : Z) : Operation := {|
  OperationID := opID; Store.Repository := Id_Repository id;
  RepositoryID := Id_RepositoryID id; RepositoryOwner := "";
  Actor := Id_Actor id; Workflow := Id_Workflow id; WorkflowRef := Id_WorkflowRef id;
  RunID := Id_RunID id; RunAttempt := Id_RunAttempt id; EventName := Id_EventName id;
  Action := ActionRollout; Namespace := namespace; Store.Deployment := deployment;
  Op_Container := ""; Image := image; NsDep := namespace +:+ "#" +:+ deployment;
  Status := StatusRunning; ErrorCode := ""; ErrorMessage := "";
  RequestedAt := now; CompletedAt := None; ExpiresAt := expires_at now;
  Events := [{| Event := "REQUESTED"; At := now |}] |}.

(** The instant and the id an operation was made with are fresh. *)
Definition fresh_op (w : World) (op : Operation) : Prop :=
  clock w <= RequestedAt op /\ OperationID op ∉ used w.

(** The id and the instant of [op] have been drawn. *)
Definition drawn (op : Operation) (w : World) : World :=
  add_used (OperationID op) (set_clock (RequestedAt op) w).
(** Its row has been written; the store reported an error, the write lost or not. *)
Definition persisted (op : Operation) (w : World) : World :=
  did_store (DidPut op None) (<[OperationID op := op]> (ops w)) (drawn op w).
Definition not_persisted (op : Operation) (e : error) (w w' : World) : Prop :=
  exists m, (m = ops w \/ m = <[OperationID op := op]> (ops w)) /\
    w' = did_store (DidPut op (Some e)) m (drawn op w).

(** The three outcomes of a start: the row could not be persisted, and nothing
was patched; the patch was refused, and the operation was failed; the patch was
accepted, the start announced and a watcher left running. *)
Definition start_outcome (op : Operation) (patch : Patch) (w : World)
    (r : string * option error) (w' : World) : Prop :=
  (exists e, r = ("", Some (ErrWrap "persist operation: " e "")) /\ not_persisted op e w w') \/
  (exists e, r = (OperationID op, Some (ErrWrap "patch deployment: " e "")) /\
     ends_with op None StatusFailed "FAILED" "K8S_PATCH_FAILED" (error_Error e)
       (add_patch (patch, false) (persisted op w)) w') \/
  (exists h, r = (OperationID op, None) /\
     w' = add_watcher (op, h) (add_notice (NStarted op)
            (add_patch (patch, true) (persisted op w)))).

(** What [Restart] and [Rollout] share once the row is built: persist it, patch,
announce, watch. *)
Definition start_body (ctx : Context) (op : Operation) (patch_call : kubeE (option error))
    (started : string) : prog mgrE (string * option error) :=
  err ← trigger (PutOperation ctx op);
  match err with
  | Some err => mret ("", Some (ErrWrap "persist operation: " err ""))
  | None =>
      err ← trigger patch_call;
      match err with
      | Some err =>
          failOperation op None "K8S_PATCH_FAILED" (error_Error err) ;;
          mret (OperationID op, Some (ErrWrap "patch deployment: " err ""))
      | None =>
          log LInfo started ;;
          msg ← trigger (Started op);
          call (GoWatch op msg) ;;
          mret (OperationID op, None)
      end
  end.

Lemma start_body_wp ctx op patch_call patch started w :
  (forall w x w', kube_post _ patch_call w x w' ->
     w' = add_patch (patch, bool_decide (x = None)) w) ->
  wp mgr_env (start_body ctx op patch_call started)
    (returning (start_outcome op patch w)) (drawn op w).
Proof.
  intros Hpatch. unfold start_body, start_outcome. wp_unfold.
  wp_call err w1 Hw. destruct Hw as (m & Hm & ->). simpl in Hm. destruct err as [e|]; wp_unfold.
  { left. exists e. split; [done|]. by exists m. }
  subst m. wp_call err w2 Hw. apply Hpatch in Hw as ->. destruct err as [e|]; wp_unfold.
  - eapply wp_seq; [apply failOperation_wp|]. intros [] w3 H. right. left. by exists e.
  - wp_call x w3 Hw. subst w3. wp_call h w4 Hw. subst w4. wp_call y w5 Hw. subst w5.
    right. right. by exists h.
Qed.

Lemma Restart_wp ctx id ns dep w :
  wp mgr_env (Restart ctx id ns dep)
    (returning (fun r w' => exists op,
       (exists opID now, op = requested_op ActionRestart id ns dep "" "" opID now) /\
       fresh_op w op /\ start_outcome op (PRestart ns dep) w r w')) w.
Proof.
  unfold Restart. wp_unfold. wp_call now w1 Hw. destruct Hw as [Hnow ->].
  wp_call u w2 Hw. destruct Hw as [Hu ->].
  set (op := requested_op ActionRestart id ns dep "" "" (id_of_ulid u) now).
  refine (wp_mono _ _ _ _ _ _ (start_body_wp ctx op (RestartDeployment ctx ns dep) (PRestart ns dep)
            "restart started" w _)); [|naive_solver].
  intros [r|] w3; simpl; [|done]. intros Hr. exists op. split; [by eexists _, _|].
  split; [by split|done].
Qed.

(** C18: what [Restart] does on every branch, for any answers of the store,
Kubernetes and the notifier: no patch without a persisted running operation; a
refused patch is followed by one terminal write that fails the operation, under the id
returned, and the store's answer to it decides whether the end is announced; an accepted
patch is announced and watched. *)
Theorem Restart_spec ctx id ns dep w :
  wp mgr_env (Restart ctx id ns dep)
    (returning (fun r w' => exists op,
       (exists opID now, op = requested_op ActionRestart id ns dep "" "" opID now) /\
       fresh_op w op /\ start_outcome op (PRestart ns dep) w r w')) w.
Proof. apply Restart_wp. Qed.

(** The outcome of a start with the given container. *)
Definition rollout_started (id : GitHubIdentity) (ns dep c image : string) (w : World)
    (r : string * option error) (w' : World) : Prop :=
  exists op, (exists opID now, op = requested_op ActionRollout id ns dep c image opID now) /\
    fresh_op w op /\ start_outcome op (PRollout ns dep c image) w r w'.

Lemma rollout_with_wp ctx id ns dep c image w :
  wp mgr_env (rollout_with ctx id ns dep c image)
    (returning (rollout_started id ns dep c image w)) w.
Proof.
  unfold rollout_with. wp_unfold. wp_call now w1 Hw. destruct Hw as [Hnow ->].
  wp_call u w2 Hw. destruct Hw as [Hu ->].
  set (op := requested_op ActionRollout id ns dep c image (id_of_ulid u) now).
  refine (wp_mono _ _ _ _ _ _ (start_body_wp ctx op (RolloutDeployment ctx ns dep c image) (PRollout ns dep c image)
            "rollout started" w _)); [|naive_solver].
  intros [r|] w3; simpl; [|done]. intros Hr. exists op. split; [by eexists _, _|].
  split; [by split|done].
Qed.

(** The outcome when the container could not be resolved: the operation goes
straight to failed, or is not recorded at all. *)
Definition rollout_unstarted (id : GitHubIdentity) (ns dep image : string) (why : error)
    (w : World) (r : string * option error) (w' : World) : Prop :=
  exists op, (exists opID now, op = unstarted_op id ns dep image opID now) /\
    fresh_op w op /\
    ((r = ("", Some why) /\ exists e, not_persisted op e w w') \/
     (r = (OperationID op, Some why) /\
      ends_with op None StatusFailed "FAILED" "K8S_PATCH_FAILED"
        ("resolve container: " +:+ error_Error why) (persisted op w) w')).

Lemma recordFailedRollout_wp ctx id ns dep image why w :
  wp mgr_env
    (bind (recordFailedRollout ctx id ns dep "" image "K8S_PATCH_FAILED"
             ("resolve container: " +:+ error_Error why))
       (fun opID => mret (opID, Some why)))
    (returning (rollout_unstarted id ns dep image why w)) w.
Proof.
  unfold recordFailedRollout, rollout_unstarted. wp_unfold.
  wp_call now w1 Hw. destruct Hw as [Hnow ->]. wp_call u w2 Hw. destruct Hw as [Hu ->].
  set (op := unstarted_op id ns dep image (id_of_ulid u) now).
  assert (fresh_op w op) as Hfresh by by split.
  wp_call err w3 Hw. destruct Hw as (m & Hm & ->). simpl in Hm.
  destruct err as [e|]; wp_unfold.
  - wp_call x w4 Hw. subst w4. exists op. split; [by eexists _, _|]. split; [done|]. left.
    split; [done|]. exists e. by exists m.
  - subst m. apply wp_bind. eapply wp_seq; [apply failOperation_wp|].
    intros [] w4 H. exists op. split; [by eexists _, _|]. split; [done|]. by right.
Qed.

(** What [Rollout] does, by the answer to the one [GetDeployment] it makes when
no container is named. *)
Definition rollout_outcome (id : GitHubIdentity) (ns dep container image : string)
    (w : World) (o : outcome (string * option error)) (w' : World) : Prop :=
  if decide (container = "") then
    exists answer, let w1 := add_seen answer w in
    match answer with
    | Err e =>
        let why := ErrWrap "get deployment: " e "" in
        if error_Is e ErrAmbiguousContainer
        then o = Done ("", Some ErrAmbiguousContainer) /\ w' = w1
        else exists r, o = Done r /\ rollout_unstarted id ns dep image why w1 r w'
    | Ok d =>
        match Containers d with
        | [] => exists r, o = Done r /\
            rollout_unstarted id ns dep image
              (ErrText ("deployment " +:+ ns +:+ "/" +:+ dep +:+ " has no containers")) w1 r w'
        | [c] =>
            if decide (Container_Name c = "")
            then o = Halted (Panicked "invalid memory address or nil pointer dereference") /\
                 w' = w1
            else exists r, o = Done r /\
              rollout_started id ns dep (Container_Name c) image w1 r w'
        | _ => o = Done ("", Some ErrAmbiguousContainer) /\ w' = w1
        end
    end
  else exists r, o = Done r /\ rollout_started id ns dep container image w r w'.

Lemma returning_done {A S} (Q : A -> S -> Prop) o s :
  returning Q o s -> exists a, o = Done a /\ Q a s.
Proof. destruct o as [a|]; simpl; [|done]. intros HQ. by exists a. Qed.

Lemma Rollout_wp ctx id ns dep container image w :
  wp mgr_env (Rollout ctx id ns dep container image)
    (rollout_outcome id ns dep container image w) w.
Proof.
  unfold Rollout, rollout_outcome. case_decide as Hc.
  2: { eapply wp_mono; [|apply rollout_with_wp]. intros o w1. apply returning_done. }
  unfold resolveContainer. wp_unfold. wp_call answer w1 Hw. subst w1.
  destruct answer as [d|e]; wp_unfold.
  - destruct (Containers d) as [|c [|c2 cs]] eqn:Hcs; wp_unfold.
    + change (errors_Is _ _) with false. rewrite decide_True by by left.
      eapply wp_mono; [|apply recordFailedRollout_wp]. intros o w1 H%returning_done.
      exists (Ok d). by rewrite Hcs.
    + cbn [errors_Is]. destruct (decide (Container_Name c = "")) as [Hn|Hn].
      * rewrite decide_True by by right. exists (Ok d). rewrite Hcs. by rewrite decide_True.
      * rewrite decide_False by naive_solver. eapply wp_mono; [|apply rollout_with_wp].
        intros o w1 H%returning_done. exists (Ok d). rewrite Hcs. by rewrite decide_False.
    + change (errors_Is _ _) with true. exists (Ok d). by rewrite Hcs.
  - cbn [errors_Is error_Is]. rewrite bool_decide_eq_false_2 by done.
    destruct (error_Is e ErrAmbiguousContainer) eqn:He; cbn [orb].
    + exists (Err e). by rewrite He.
    + rewrite decide_True by by left.
      eapply wp_mono; [|apply recordFailedRollout_wp]. intros o w1 H%returning_done.
      exists (Err e). by rewrite He.
Qed.

(** C17: what [Rollout] does on every branch.  A named container is used as it is;
otherwise the only container of the deployment; several containers are the
caller's choice to make, and nothing is recorded; a deployment that cannot be
read or has no container has a row written for it, and then the one terminal write that
fails it, whose answer decides whether the end is announced.  A single container
with an empty name, which Kubernetes does not admit, makes the code dereference
a nil error. *)
Theorem Rollout_spec ctx id ns dep container image w :
  wp mgr_env (Rollout ctx id ns dep container image)
    (rollout_outcome id ns dep container image w) w.
Proof. apply Rollout_wp. Qed.

(** ** Acting on an evaluation *)

Definition acted (op : Operation) (msg : option nat) (ev : RolloutEvaluation)
    (w : World) (b : bool) (w' : World) : Prop :=
  match Eval_State ev with
  | RolloutComplete => b = true /\ ends_with op msg StatusSucceeded "SUCCEEDED" "" "" w w'
  | RolloutFailed =>
      b = true /\ ends_with op msg StatusFailed "FAILED" "ROLLOUT_FAILED" (Eval_Reason ev) w w'
  | RolloutProgressing => b = false /\ w' = w
  end.

Lemma act_on_wp op msg ev w :
  wp mgr_env (act_on op msg ev) (returning (acted op msg ev w)) w.
Proof.
  unfold act_on, acted. destruct (Eval_State ev); wp_unfold.
  - done.
  - eapply wp_seq; [apply completeOperation_wp|]. by intros [] w1 H.
  - eapply wp_seq; [apply failOperation_wp|]. by intros [] w1 H.
Qed.

(** ** Reconciliation *)

(** What [resolveRunning] does, by the answer to its [GetDeployment]. *)
Definition reconciled (ctx : Context) (op : Operation) (w w' : World) : Prop :=
  exists answer, let w1 := add_seen answer w in
  match answer with
  | Err err =>
      if error_Is err ContextCanceled then w' = w1
      else exists t c, clock w <= t /\ more_cancelled (cancelled w) c /\
        let w2 := set_cancelled c (set_clock t w1) in
        if ctx_done c t ctx then w' = w2
        else ends_with op None StatusTimeout "TIMEOUT" "TIMEOUT"
               ("deployment no longer readable while operation running: " +:+ error_Error err)
               w2 w'
  | Ok dep =>
      let ev := EvaluateRollout dep in
      match Eval_State ev with
      | RolloutComplete => ends_with op None StatusSucceeded "SUCCEEDED" "" "" w1 w'
      | RolloutFailed =>
          ends_with op None StatusFailed "FAILED" "ROLLOUT_FAILED" (Eval_Reason ev) w1 w'
      | RolloutProgressing =>
          ends_with op None StatusTimeout "TIMEOUT" "TIMEOUT"
            ("operation stale and rollout still not terminal: " +:+ Eval_Reason ev) w1 w'
      end
  end.

Lemma resolveRunning_wp ctx op w :
  wp mgr_env (resolveRunning ctx op) (returning (fun _ => reconciled ctx op w)) w.
Proof.
  unfold resolveRunning, reconciled. wp_unfold. wp_call answer w1 Hw. subst w1.
  destruct answer as [dep|err].
  - destruct (Eval_State (EvaluateRollout dep)) eqn:Hs;
      (eapply wp_mono; [|first [apply timeoutOperation_wp | apply completeOperation_wp
                               | apply failOperation_wp]]);
      (intros [[]|] w1 H; simpl in *; [|done]); exists (Ok dep); by rewrite Hs.
  - destruct (error_Is err ContextCanceled) eqn:Hc; wp_unfold.
    + wp_call x w1 Hw. subst w1. exists (Err err). by rewrite Hc.
    + wp_call b w1 Hw. destruct Hw as (t & c & Ht & Hmore & -> & ->).
      destruct (ctx_done c t ctx) eqn:Hd; wp_unfold.
      * wp_call x w1 Hw. subst w1. exists (Err err). rewrite Hc. exists t, c. by rewrite Hd.
      * eapply wp_mono; [|apply timeoutOperation_wp]. intros [[]|] w1 H; simpl in *; [|done].
        exists (Err err). rewrite Hc. exists t, c. by rewrite Hd.
Qed.

(** C30: reconciling a running operation makes one terminal write with the status its
deployment deserves: succeeded when the rollout is complete, failed when it has failed,
timeout when it is still not terminal or the deployment cannot be read; the end is
announced when the store confirms it.  An unreadable deployment under a cancelled or
expired context says nothing: the operation is left alone. *)
Theorem resolveRunning_spec ctx op w :
  wp mgr_env (resolveRunning ctx op) (returning (fun _ => reconciled ctx op w)) w.
Proof. apply resolveRunning_wp. Qed.

(** What [Get] answers: the row read; when that is stale, it is reconciled and what the
second read shows is answered, or, if that fails, the first one's row after all. *)
Definition got (ctx : Context) (opID : string) (w : World) (r : result error Operation)
    (w' : World) : Prop :=
  match r with
  | Err err => w' = did_store (DidGet opID (Err err)) (ops w) w /\
      ((error_Is err ErrNotFound = true /\ ops w !! opID = None) \/ other_error err)
  | Ok op' => exists op, ops w !! opID = Some op /\
      let w1 := did_store (DidGet opID (Ok op)) (ops w) w in
      ((Status op <> StatusRunning /\ op' = op /\ w' = w1) \/
       (Status op = StatusRunning /\ exists now, clock w <= now /\
          if staleAfter <? time_Sub now (RequestedAt op)
          then exists w2 r2, reconciled ctx op (set_clock now w1) w2 /\
            store_post _ (GetOperation ctx opID) (ops w2) r2 (ops w2) /\
            w' = did_store (DidGet opID r2) (ops w2) w2 /\
            op' = match r2 with Ok op2 => op2 | Err _ => op end
          else op' = op /\ w' = set_clock now w1))
  end.

Lemma Get_wp ctx opID w :
  wp mgr_env (Get ctx opID) (returning (got ctx opID w)) w.
Proof.
  unfold Get, got. wp_unfold. wp_call r w1 Hw. destruct Hw as (m & [-> Hr] & ->).
  destruct r as [op|err]; wp_unfold; [|done].
  case_decide as Hst; wp_unfold.
  - wp_call now w1 Hw. destruct Hw as [Hnow ->].
    destruct (staleAfter <? time_Sub now (RequestedAt op)) eqn:Hstale; wp_unfold.
    + eapply wp_seq; [apply resolveRunning_wp|]. intros [] w1 Hrec. wp_unfold.
      wp_call r w2 Hw. destruct Hw as (m & Hm & ->). pose proof Hm as [-> Hr2].
      destruct r as [op'|err]; wp_unfold; exists op; (split; [done|]); right;
        (split; [done|]); exists now; (split; [done|]); rewrite Hstale; by eexists w1, _.
    + exists op. split; [done|]. right. split; [done|]. exists now. by rewrite Hstale.
  - exists op. split; [done|]. by left.
Qed.

(** C31: a lookup returns the operation as it was read; one that has been running for
more than two hours is reconciled first and read again, and the row of that second read is
the answer, or the first one's if it fails. *)
Theorem Get_spec ctx opID w :
  wp mgr_env (Get ctx opID) (returning (got ctx opID w)) w.
Proof. apply Get_wp. Qed.

(** ** No operation stays running for ever *)

(** Answers that let a sweep do its work: the store lists and writes, the
context is live and Kubernetes does not report a cancellation. *)
Definition reliable X (e : mgrE X) : X -> Prop :=
  match e in mgrE X return X -> Prop with
  | MStore e =>
      match e in storeE X return X -> Prop with
      | UpdateTerminal _ _ _ => fun x =>
          match x with
          | Some err => error_Is err ErrNotFound = true \/ error_Is err ErrAlreadyTerminal = true
          | None => True
          end
      | ListRunningPastDeadline _ _ => fun x => exists l, x = Ok l
      | _ => fun _ => True
      end
  | MKube e =>
      match e in kubeE X return X -> Prop with
      | GetDeployment _ _ _ => fun x =>
          match x with Err err => error_Is err ContextCanceled = false | Ok _ => True end
      | _ => fun _ => True
      end
  | CtxErr _ => fun b => b = false
  | _ => fun _ => True
  end.

Definition reliable_env : spec mgrE World :=
  {| spec_pre := fun _ _ _ => True;
     spec_post := fun X e w x w' => mgr_post X e w x w' /\ reliable X e x |}.

(** Operation [id] is not running in the table (or not there). *)
Definition settled (id : string) (m : gmap string Operation) : Prop :=
  forall op, m !! id = Some op -> Status op <> StatusRunning.

Lemma terminal_write_settles m id upd m' :
  Upd_Status upd <> StatusRunning -> terminal_write m id upd m' -> settled id m'.
Proof.
  intros Hupd (op & at_ & Hop & _ & ->) op' Hop'. rewrite lookup_insert_eq in Hop'.
  by simplify_eq.
Qed.

Lemma terminal_write_other m id upd m' id' :
  Upd_Status upd <> StatusRunning -> terminal_write m id upd m' -> settled id' m ->
  settled id' m'.
Proof.
  intros Hupd (op & at_ & Hop & Hrun & ->) Hset op' Hop'.
  destruct (decide (id = id')) as [->|Hne].
  - rewrite lookup_insert_eq in Hop'. by simplify_eq.
  - rewrite lookup_insert_ne in Hop' by done. by apply Hset.
Qed.

(** Progress of a sweep: who is settled stays settled, nobody starts running. *)
Definition settling (m m' : gmap string Operation) : Prop :=
  forall id op', m' !! id = Some op' -> Status op' = StatusRunning -> m !! id = Some op'.

Lemma terminal_write_settling m id upd m' :
  Upd_Status upd <> StatusRunning -> terminal_write m id upd m' -> settling m m'.
Proof.
  intros Hupd (op & at_ & Hop & Hrun & ->) id' op' Hop' Hst.
  destruct (decide (id = id')) as [->|Hne].
  - rewrite lookup_insert_eq in Hop'. by simplify_eq.
  - by rewrite lookup_insert_ne in Hop' by done.
Qed.

Lemma settling_settled m m' id : settling m m' -> settled id m -> settled id m'.
Proof. intros Hset Hid op' Hop' Hst. by apply (Hid op'); [apply Hset|]. Qed.

Lemma resolve_settles op msg what upd w :
  Upd_Status upd <> StatusRunning ->
  wp reliable_env (resolve op msg what upd)
    (returning (fun _ w' => settled (OperationID op) (ops w') /\ settling (ops w) (ops w'))) w.
Proof.
  intros Hupd. unfold resolve. wp_unfold. split; [exact I|]. intros err w1 [Hw Hrel].
  cbn in Hw, Hrel. destruct Hw as (m & Hm & ->). destruct err as [err|]; simpl in *.
  - assert (settled (OperationID op) m /\ settling (ops w) m) as Hgoal.
    { destruct Hm as [(-> & _ & Hnone)|[(_ & [[-> Hset]|Hwr])|[[Hnf Hat] _]]].
      - split; [intros ? ?; congruence|]. by intros ? ? ? ?.
      - split; [done|]. by intros ? ? ? ?.
      - split; [by eapply terminal_write_settles|by eapply terminal_write_settling].
      - destruct Hrel; congruence. }
    unfold logTerminalWriteErr. case_match; wp_unfold; (split; [exact I|]);
      intros x w2 [-> _]; done.
  - wp_unfold. split; [exact I|]. intros x w2 [-> _]. simpl. split.
    + by eapply terminal_write_settles.
    + by eapply terminal_write_settling.
Qed.

Lemma resolveRunning_settles ctx op w :
  wp reliable_env (resolveRunning ctx op)
    (returning (fun _ w' => settled (OperationID op) (ops w') /\ settling (ops w) (ops w'))) w.
Proof.
  unfold resolveRunning, completeOperation, failOperation, timeoutOperation. wp_unfold.
  split; [exact I|]. intros answer w1 [Hw Hrel]. cbn in Hw, Hrel. subst w1.
  destruct answer as [dep|err].
  - destruct (Eval_State (EvaluateRollout dep)); wp_unfold; (split; [exact I|]);
      intros t w1 [[_ ->] _].
    + refine (wp_mono _ _ _ _ _ _ (resolve_settles _ _ _ _ _ _)); [|done]. by intros [[]|].
    + eapply wp_seq; [by apply resolve_settles|]. intros [] w2 H. wp_unfold.
      split; [exact I|]. by intros x w3 [-> _].
    + refine (wp_mono _ _ _ _ _ _ (resolve_settles _ _ _ _ _ _)); [|done]. by intros [[]|].
  - rewrite Hrel. wp_unfold. split; [exact I|]. intros b w1 [Hw Hb]. cbn in Hw, Hb. subst b.
    destruct Hw as (t & c & _ & _ & _ & ->). wp_unfold. split; [exact I|].
    intros t' w1 [[_ ->] _].
    refine (wp_mono _ _ _ _ _ _ (resolve_settles _ _ _ _ _ _)); [|done]. by intros [[]|].
Qed.

(** C10: no operation stays running for ever.  When the store answers and the
context is live, a sweep leaves no operation running that had been requested
more than two hours and a second before, whatever Kubernetes answers about the
deployments. *)
Theorem sweep_settles ctx w :
  well_keyed (ops w) ->
  wp reliable_env (ReconcileSweep ctx)
    (returning (fun _ w' => forall id op, ops w' !! id = Some op ->
       Status op = StatusRunning -> clock w - staleAfter - Second < RequestedAt op)) w.
Proof.
  intros Hkey. unfold ReconcileSweep. wp_unfold. split; [exact I|].
  intros now w1 [[Hnow ->] _]. wp_unfold. split; [exact I|].
  intros r w2 [Hw [l ->]]. destruct Hw as (m & [-> [_ [_ Hl]]] & ->). wp_unfold.
  eapply wp_mono; [|apply (wp_for_each _ _ (fun rest s =>
    settling (ops w) (ops s) /\
    forall op, op ∈ l -> op ∉ rest -> settled (OperationID op) (ops s)))].
  - intros [[]|] w3; simpl; [|done]. intros [Hset Hall] id op Hop Hrun.
    pose proof (Hset id op Hop Hrun) as Hop0.
    destruct (Z.lt_ge_cases (clock w - staleAfter - Second) (RequestedAt op)) as [?|Hold]; [done|].
    exfalso. assert (OperationID op = id) as <- by exact (Hkey id op Hop0).
    apply (Hall op) with op; try done; [|by apply not_elem_of_nil]. apply Hl; [done|].
    split; [done|]. unfold time_Add, staleAfter, Hour, Minute, Second in *. simpl in *.
    euclid.
  - intros op rest s [Hset Hall].
    eapply wp_mono; [|apply resolveRunning_settles]. intros [[]|] s'; simpl; [|done].
    intros [Hop Hset']. split.
    + intros id op' Hop' Hrun. apply Hset; [|done]. by apply Hset'.
    + intros op' Hin Hnin. destruct (decide (op' = op)) as [->|Hne]; [done|].
      eapply settling_settled; [done|]. apply Hall; [done|]. set_solver.
  - simpl. split; [by intros ? ? ? ?|]. done.
Qed.
