(* ===== verification/ManagerWatch.v ===== *)
(** * Following a rollout: justification and termination

Two readings of [watchRollout].  [watch_proto] says what a watcher may do and
when: the terminal status it writes must be justified by the last thing it saw.
[timed_env] is a clock and a Kubernetes API in which every call takes a bounded
time and every watch ends; in it the loop terminates, with enough fuel computed
from the deadline, and by an instant computed from the deadline and the bound on a
call. *)

From S2P Require Import Prelude GoStrings GoRuntime Effects Kube Store Authn Notify Manager ManagerSpec.

Local Open Scope string_scope.
Local Open Scope list_scope.
Local Open Scope Z_scope.

(** ** Bounds *)

(** A manager whose default deadline leaves room for the two minutes added to it. *)
Definition sane_manager (m : Manager) : Prop :=
  0 < defaultDeadline m <= int64_max - 2 * Minute.

(** The field is an [*int32]. *)
Definition typed_deployment (dep : Kube.Deployment) : Prop :=
  forall s, ProgressDeadlineSeconds dep = Some s -> s <= int32_max.

(** The deadline a watcher grants, by the answer to its first [GetDeployment]. *)
Definition granted (m : Manager) (first : result error Kube.Deployment) : Z :=
  match first with Ok dep => progressDeadline m dep | Err _ => defaultDeadline m end.

Definition typed_answer (r : result error Kube.Deployment) : Prop :=
  match r with Ok dep => typed_deployment dep | Err _ => True end.

Lemma progressDeadline_exact m dep :
  typed_deployment dep ->
  progressDeadline m dep =
    match ProgressDeadlineSeconds dep with
    | Some s => if 0 <? s then s * Second else defaultDeadline m
    | None => defaultDeadline m
    end.
Proof.
  unfold typed_deployment, progressDeadline, Second. intros Ht.
  destruct (ProgressDeadlineSeconds dep) as [s|]; [|done]. specialize (Ht s eq_refl).
  destruct (0 <? s) eqn:Hs; [|done]. to_prop. apply dur_mul_small.
  unfold is_int64, int64_min, int64_max, int32_max in *. lia.
Qed.

(** The time a watcher waits never overflows.  For every deployment whose
progressDeadlineSeconds is an int32, the deadline is positive and adding the two
minutes to it is exact. *)
Theorem watch_deadline_exact m r :
  sane_manager m -> typed_answer r ->
  0 < granted m r /\ dur_add (granted m r) (2 * Minute) = granted m r + 2 * Minute.
Proof.
  unfold sane_manager, granted. intros Hm Hr.
  assert (0 < match r with Ok dep => progressDeadline m dep | Err _ => defaultDeadline m end
          <= int64_max - 2 * Minute) as H.
  { destruct r as [dep|]; [|lia]. rewrite progressDeadline_exact by done.
    destruct (ProgressDeadlineSeconds dep) as [s|] eqn:Hs; [|lia].
    specialize (Hr s Hs). destruct (0 <? s) eqn:Hpos; [|lia]. to_prop.
    unfold int32_max, int64_max, Minute, Second in *. lia. }
  split; [lia|]. apply wrap64_id.
  unfold is_int64, int64_min, int64_max, Minute, Second in *. lia.
Qed.

(** The back-off stays between one and fifteen seconds. *)
Definition backoff_ok (b : Z) : Prop := Second <= b <= maxBackoff.

Lemma backoff_next b : backoff_ok b -> backoff_ok (Z.min (dur_mul 2 b) maxBackoff).
Proof.
  unfold backoff_ok, maxBackoff. intros Hb. rewrite dur_mul_small.
  - unfold Second in *. lia.
  - unfold is_int64, int64_min, int64_max, Second in *. lia.
Qed.

(** ** Justification *)

Record WatchGhost : Type := {
  (** the answer to the first [GetDeployment] *)
  g_first : option (result error Kube.Deployment);
  (** the evaluation of the last deployment seen *)
  g_last : option RolloutEvaluation;
  g_clock : Z;
  (** whether the one terminal write has been made *)
  g_tried : bool;
}.

Definition saw (ev : option RolloutEvaluation) (g : WatchGhost) : WatchGhost :=
  {| g_first := g_first g; g_last := ev; g_clock := g_clock g; g_tried := g_tried g |}.
Definition got_first (r : result error Kube.Deployment) (g : WatchGhost) : WatchGhost :=
  {| g_first := match g_first g with None => Some r | f => f end;
     g_last := match r with Ok dep => Some (EvaluateRollout dep) | Err _ => None end;
     g_clock := g_clock g; g_tried := g_tried g |}.
Definition ticked (t : Z) (g : WatchGhost) : WatchGhost :=
  {| g_first := g_first g; g_last := g_last g; g_clock := t; g_tried := g_tried g |}.
Definition tried (g : WatchGhost) : WatchGhost :=
  {| g_first := g_first g; g_last := g_last g; g_clock := g_clock g; g_tried := true |}.

(** A terminal status a watcher started at [t0] is entitled to write: success
and failure by the last deployment seen, timeout by the clock. *)
Definition justified (m : Manager) (t0 : Z) (upd : TerminalUpdate) (g : WatchGhost) : Prop :=
  (Upd_Status upd = StatusSucceeded /\ Upd_ErrorCode upd = "" /\
     exists ev, g_last g = Some ev /\ Eval_State ev = RolloutComplete) \/
  (Upd_Status upd = StatusFailed /\ Upd_ErrorCode upd = "ROLLOUT_FAILED" /\
     exists ev, g_last g = Some ev /\ Eval_State ev = RolloutFailed /\
       Upd_ErrorMessage upd = Eval_Reason ev) \/
  (Upd_Status upd = StatusTimeout /\ Upd_ErrorCode upd = "TIMEOUT" /\
     exists r, g_first g = Some r /\ t0 + granted m r + 2 * Minute <= g_clock g).

(** What a watcher of [op] may call: reads and watches of its own deployment, and
one justified terminal write of its own operation; it never patches. *)
Definition watch_pre (m : Manager) (op : Operation) (t0 : Z) X (e : mgrE X)
    (g : WatchGhost) : Prop :=
  match e with
  | MStore e =>
      match e with
      | UpdateTerminal ctx id upd =>
          ctx = Background /\ id = OperationID op /\ g_tried g = false /\ justified m t0 upd g
      | _ => False
      end
  | MKube e =>
      match e with
      | GetDeployment _ ns name | WatchDeployment _ ns name =>
          ns = Namespace op /\ name = Store.Deployment op
      | _ => False
      end
  | MNotify e => match e with Started _ => False | Resolved _ _ => g_tried g = true end
  | UlidMake | GoWatch _ _ => False
  | _ => True
  end.

Definition watch_step X (e : mgrE X) (g : WatchGhost) : X -> WatchGhost -> Prop :=
  match e in mgrE X return X -> WatchGhost -> Prop with
  | MStore e => fun _ g' => g' = tried g
  | MKube e =>
      match e in kubeE X return X -> WatchGhost -> Prop with
      | GetDeployment _ _ _ => fun r g' => typed_answer r /\ g' = got_first r g
      | _ => fun _ g' => g' = g
      end
  | MRt e =>
      match e in rtE X return X -> WatchGhost -> Prop with
      | TimeNow => fun t g' => g_clock g <= t /\ g' = ticked t g
      | LogLine _ _ => fun _ g' => g' = g
      end
  | CtxErr ctx => fun b g' => exists t c, g_clock g <= t /\ g' = ticked t g /\
      b = ctx_done c t ctx
  | SelectAfter ctx d => fun b g' => exists t c, g_clock g <= t /\ g' = ticked t g /\
      (b = false -> ctx_done c t ctx = true)
  | Recv _ => fun o g' =>
      g' = match o with
           | Some (WatchDeploymentObject dep) => saw (Some (EvaluateRollout dep)) g
           | _ => g
           end
  | _ => fun _ g' => g' = g
  end.

Definition watch_proto (m : Manager) (op : Operation) (t0 : Z) : spec mgrE WatchGhost :=
  {| spec_pre := watch_pre m op t0; spec_post := watch_step |}.

(** Out of fuel, or finished with the one terminal write made. *)
Definition watched {A} (o : outcome A) (g : WatchGhost) : Prop :=
  match o with
  | Done _ => g_tried g = true
  | Halted s => s = OutOfFuel
  end.

Section Justified.
Variables (m : Manager) (op : Operation) (t0 : Z).

Let proto := watch_proto m op t0.

(** A justified terminal write can be made as soon as none has been. *)
Lemma resolve_justified msg what upd g :
  g_tried g = false -> justified m t0 upd g ->
  wp proto (resolve op msg what upd) (returning (fun _ g' => g_tried g' = true)) g.
Proof.
  intros Htried Hj. unfold resolve. wp_unfold. split; [done|].
  intros err g1 Hg. cbn in Hg. subst g1. destruct err as [err|]; wp_unfold.
  - unfold logTerminalWriteErr. case_match; wp_unfold; (split; [done|]); by intros x g2 ->.
  - split; [done|]. by intros x g2 ->.
Qed.

Lemma justified_ticked upd t g :
  g_clock g <= t -> justified m t0 upd g -> justified m t0 upd (ticked t g).
Proof.
  intros Ht [H|[H|(Hs & Hc & r & Hr & Hle)]]; [by left|by right; left|].
  right. right. repeat (split; [done|]). exists r. split; [done|]. simpl. lia.
Qed.

Lemma timeout_justified msg text g r :
  g_tried g = false -> g_first g = Some r -> t0 + granted m r + 2 * Minute <= g_clock g ->
  wp proto (timeoutOperation op msg text) watched g.
Proof.
  intros Htried Hr Hle. unfold timeoutOperation. wp_unfold. split; [done|].
  intros t g1 [Ht ->]. eapply wp_mono; [|apply resolve_justified; [done|]].
  - by intros [] g2.
  - apply justified_ticked; [done|]. right. right. repeat (split; [done|]). by exists r.
Qed.

(** Acting on the deployment last seen. *)
Lemma act_on_justified msg ev g :
  g_tried g = false -> g_last g = Some ev ->
  wp proto (act_on op msg ev)
    (returning (fun b g' => if (b : bool) then g_tried g' = true else g' = g)) g.
Proof.
  intros Htried Hlast. unfold act_on, completeOperation, failOperation.
  destruct (Eval_State ev) eqn:Hs; wp_unfold; [done| |].
  - split; [done|]. intros t g1 [Ht ->]. apply wp_bind.
    eapply wp_seq; [apply resolve_justified; [done|]|].
    + left. repeat (split; [done|]). by exists ev.
    + intros [] g2 Hg2. wp_unfold. split; [done|]. by intros x g3 ->.
  - split; [done|]. intros t g1 [Ht ->]. apply wp_bind.
    eapply wp_mono; [|apply resolve_justified; [done|]].
    + intros [[]|] g2 Hg2; [|done]. by wp_unfold.
    + right. left. repeat (split; [done|]). by exists ev.
Qed.

(** What the loop keeps: no write yet, the deadline granted. *)
Definition waiting (r : result error Kube.Deployment) (g : WatchGhost) : Prop :=
  g_tried g = false /\ g_first g = Some r.

Lemma act_on_waiting msg ev g r :
  waiting r g -> g_last g = Some ev ->
  wp proto (act_on op msg ev)
    (returning (fun b g' => if (b : bool) then g_tried g' = true else waiting r g')) g.
Proof.
  intros [Htried Hr] Hlast. eapply wp_mono; [|by apply act_on_justified].
  intros [[]|] g'; simpl; [done| |done]. by intros ->.
Qed.

Lemma evalOnce_waiting ctx msg g r :
  waiting r g ->
  wp proto (evalOnce ctx op msg)
    (returning (fun b g' => if (b : bool) then g_tried g' = true else waiting r g')) g.
Proof.
  intros [Htried Hr]. unfold evalOnce. wp_unfold. split; [done|].
  intros a g1 [_ ->]. assert (waiting r (got_first a g)) as Hw.
  { split; [done|]. simpl. by rewrite Hr. }
  destruct a as [dep|err]; wp_unfold.
  - by apply act_on_waiting.
  - split; [done|]. by intros x g2 ->.
Qed.

Lemma range_events_waiting fuel w msg g r :
  waiting r g ->
  wp proto (range_events fuel w op msg)
    (fun o g' => match o with
                 | Done true => g_tried g' = true
                 | Done false => waiting r g'
                 | Halted s => s = OutOfFuel
                 end) g.
Proof.
  revert g. induction fuel as [|fuel IH]; intros g Hw; simpl; [done|].
  split; [done|]. intros ev g1 ->. destruct ev as [[dep|]|]; [|by apply IH|done].
  assert (waiting r (saw (Some (EvaluateRollout dep)) g)) as Hw' by exact Hw.
  eapply wp_seq; [by apply act_on_waiting|]. intros [] g2 Hg2; [|by apply IH].
  simpl. split; [done|]. by intros x g3 ->.
Qed.

Lemma watch_loop_justified fuel evfuel dl msg backoff g r :
  waiting r g -> t0 + granted m r + 2 * Minute <= dl ->
  wp proto (watch_loop fuel evfuel (WithDeadline Background dl) op msg backoff) watched g.
Proof.
  intros Hw Hdl. revert backoff g Hw. induction fuel as [|fuel IH]; intros backoff g Hw; [done|].
  cbn [watch_loop]. wp_unfold. split; [done|]. intros b g1 (t & c & Ht & -> & ->).
  assert (waiting r (ticked t g)) as Hw1 by exact Hw. clear Hw. cbn [ctx_done orb].
  destruct (dl <=? t) eqn:Hexp.
  { to_prop. destruct Hw1. eapply timeout_justified; [done..|]. simpl. lia. }
  eapply wp_seq; [by apply evalOnce_waiting|]. intros [] g2 Hg2; [done|].
  assert (forall g msg', waiting r g -> wp proto
    (Vis (SelectAfter (WithDeadline Background dl) backoff)
       (fun b => bind (Ret b) (fun slept => if (slept : bool)
          then watch_loop fuel evfuel (WithDeadline Background dl) op msg
                 (Z.min (dur_mul 2 backoff) maxBackoff)
          else timeoutOperation op msg msg'))) watched g) as Hsleep.
  { intros g3 msg' Hw3. simpl. split; [done|]. intros b g4 (t3 & c3 & Ht3 & -> & Hdone).
    destruct b; [by apply IH|]. destruct Hw3. specialize (Hdone eq_refl). simpl in Hdone.
    to_prop. eapply timeout_justified; [done..|]. simpl. lia. }
  wp_unfold. split; [done|]. intros a g3 ->. destruct a as [w|err].
  - apply wp_bind. eapply wp_mono; [|by apply range_events_waiting].
    intros [[]|] g4; [done| |by intros ->]. intros Hg4. by apply Hsleep.
  - wp_unfold. split; [done|]. intros x g4 Hg4. cbn in Hg4. subst g4. by apply Hsleep.
Qed.

End Justified.

(** The ghost of a watcher about to start. *)
Definition watch_ghost0 (t0 : Z) : WatchGhost :=
  {| g_first := None; g_last := None; g_clock := t0; g_tried := false |}.

(** C7: a watcher writes at most one terminal status, to its own operation, and
only a justified one: succeeded when the deployment it last saw has completely
rolled out, failed when that deployment exceeded its progress deadline, timeout
when the granted deadline and two minutes more have passed.  It patches nothing
and touches no other row, and if it finishes it has made that write. *)
Theorem watchRollout_justified m fuel evfuel op msg t0 :
  sane_manager m ->
  wp (watch_proto m op t0) (watchRollout m fuel evfuel op msg) watched (watch_ghost0 t0).
Proof.
  intros Hm. unfold watchRollout, WithTimeout. wp_unfold. split; [done|].
  intros r g1 [Hr ->]. wp_unfold. split; [done|]. intros t g2 [Ht ->]. wp_unfold.
  fold (granted m r). destruct (watch_deadline_exact m r Hm Hr) as [Hpos ->].
  eapply (watch_loop_justified _ _ _ _ _ _ _ _ _ r); [done|].
  unfold time_Add. simpl in Ht. lia.
Qed.

Definition gateway_manager : Manager := NewManager (10 * Minute).

Lemma gateway_manager_sane : sane_manager gateway_manager.
Proof. by vm_compute. Qed.

Definition idle_op : Operation :=
  requested_op ActionRestart
    {| Id_Subject := ""; Id_Repository := "tuncloud/backend"; Id_RepositoryID := "123";
       Id_RepositoryOwner := "tuncloud"; Id_Ref := "refs/heads/main"; Id_Workflow := "deploy.yml";
       Id_WorkflowRef := ""; Id_Environment := ""; Id_Actor := "octocat";
       Id_EventName := "push"; Id_RunID := "1827"; Id_RunAttempt := "1" |}
    "app" "api" "" "" "op_1" 0.

Lemma watch_deadline_exact_witness :
  sane_manager gateway_manager /\
  0 < granted gateway_manager (Ok (surge 2 2 1)) /\
  dur_add (granted gateway_manager (Ok (surge 2 2 1))) (2 * Minute) =
    granted gateway_manager (Ok (surge 2 2 1)) + 2 * Minute.
Proof.
  split; [exact gateway_manager_sane|].
  apply (watch_deadline_exact gateway_manager (Ok (surge 2 2 1)) gateway_manager_sane).
  intros s Hs. discriminate Hs.
Defined.

Lemma watchRollout_justified_witness :
  sane_manager gateway_manager /\
  wp (watch_proto gateway_manager idle_op 0) (watchRollout gateway_manager 5 5 idle_op None)
    watched (watch_ghost0 0).
Proof.
  split; [exact gateway_manager_sane|].
  exact (watchRollout_justified gateway_manager 5 5 idle_op None 0 gateway_manager_sane).
Defined.

(** ** Termination *)

(** The clock, how many events the open watch still has to deliver, and when the context
it was opened with expires. *)
Record TimedState : Type := { ts_clock : Z; ts_pending : nat; ts_until : Z }.

(** The deadline of a context, for a watch opened now. *)
Definition expires (now : Z) (ctx : Context) : Z :=
  match ctx with WithDeadline _ dl => dl | _ => now end.

(** When a call is due to have returned: at once; a receive when the watch's context has
expired, which closes the channel; a wait when its timer fires or its context expires. *)
Definition due X (e : mgrE X) (s : TimedState) : Z :=
  match e with
  | Recv _ => Z.max (ts_clock s) (ts_until s)
  | SelectAfter (WithDeadline _ dl) d => Z.min (ts_clock s + d) (Z.max (ts_clock s) dl)
  | SelectAfter _ d => ts_clock s + d
  | SelectTick _ d => ts_clock s + d
  | _ => ts_clock s
  end.

(** What the answers say: no deployment has a progress deadline above [D] seconds, a watch
delivers at most [N] events, a timer that fires has waited. *)
Definition timed_answer (D : Z) (N : nat) X (e : mgrE X) (s : TimedState) :
    X -> TimedState -> Prop :=
  match e in mgrE X return X -> TimedState -> Prop with
  | MKube e =>
      match e in kubeE X return X -> TimedState -> Prop with
      | GetDeployment _ _ _ => fun r _ =>
          match r with
          | Ok dep => forall n, ProgressDeadlineSeconds dep = Some n -> n <= D
          | Err _ => True
          end
      | WatchDeployment ctx _ _ => fun _ s' =>
          (ts_pending s' <= N)%nat /\ ts_until s' = expires (ts_clock s) ctx
      | _ => fun _ _ => True
      end
  | MRt e =>
      match e in rtE X return X -> TimedState -> Prop with
      | TimeNow => fun t s' => ts_clock s' = t
      | LogLine _ _ => fun _ _ => True
      end
  | CtxErr ctx => fun b s' => exists c, b = ctx_done c (ts_clock s') ctx
  | SelectAfter ctx d => fun b s' => b = true -> ts_clock s + d <= ts_clock s'
  | Recv _ => fun o s' => ts_until s' = ts_until s /\
      (o <> None -> ts_pending s = S (ts_pending s'))
  | _ => fun _ _ => True
  end.

(** Every call returns at most [L] after it is due. *)
Definition timed_step (D : Z) (N : nat) (L : Z) X (e : mgrE X) (s : TimedState)
    (x : X) (s' : TimedState) : Prop :=
  ts_clock s <= ts_clock s' <= due X e s + L /\ timed_answer D N X e s x s'.

Definition timed_env (D : Z) (N : nat) (L : Z) : spec mgrE TimedState :=
  {| spec_pre := fun _ _ _ => True; spec_post := timed_step D N L |}.

Section Termination.
Variables (D : Z) (N : nat) (L : Z) (op : Operation) (msg : option nat).

Let env := timed_env D N L.

(** At most [k] calls that are due at once. *)
Definition spends (k : Z) (s s' : TimedState) : Prop :=
  ts_clock s <= ts_clock s' <= ts_clock s + k * L.

Ltac timed_call x s' :=
  split; [exact I|]; let Hc := fresh "Hc" in let Ha := fresh "Ha" in
  intros x s' [Hc Ha]; cbn [due timed_answer] in Hc, Ha.

Lemma log_spends l text s Q :
  (forall s', spends 1 s s' -> Q (Done tt) s') -> wp env (log l text) Q s.
Proof.
  intros HQ. wp_unfold. timed_call x s1. destruct x. apply HQ. unfold spends. lia.
Qed.

Lemma resolve_spends what upd s :
  wp env (resolve op msg what upd) (returning (fun _ => spends 2 s)) s.
Proof.
  unfold resolve. wp_unfold. timed_call err s1. destruct err; wp_unfold.
  - unfold logTerminalWriteErr.
    case_match; apply log_spends; intros s2 H2; unfold returning, spends in *; lia.
  - timed_call x s2. unfold returning, spends. lia.
Qed.

Lemma timeoutOperation_spends text s :
  wp env (timeoutOperation op msg text) (returning (fun _ => spends 3 s)) s.
Proof.
  unfold timeoutOperation. wp_unfold. timed_call t s1.
  eapply wp_mono; [|apply resolve_spends]. intros [[]|] s2 H2; [|done].
  unfold returning, spends in *. lia.
Qed.

(** A watcher that goes on has done nothing. *)
Lemma act_on_spends ev s :
  wp env (act_on op msg ev)
    (returning (fun b s' => if (b : bool) then spends 4 s s' else s' = s)) s.
Proof.
  unfold act_on, completeOperation, failOperation.
  destruct (Eval_State ev); wp_unfold; [done| |].
  - timed_call t s1. apply wp_bind. eapply wp_seq; [apply resolve_spends|]. intros [] s2 H2.
    wp_unfold. timed_call x s3. unfold returning, spends in *. lia.
  - timed_call t s1. apply wp_bind. eapply wp_mono; [|apply resolve_spends].
    intros [[]|] s2 H2; [|done]. wp_unfold. unfold returning, spends in *. lia.
Qed.

Lemma evalOnce_spends ctx s :
  wp env (evalOnce ctx op msg)
    (returning (fun b => spends (if (b : bool) then 5 else 2) s)) s.
Proof.
  unfold evalOnce. wp_unfold. timed_call r s1. destruct r; wp_unfold.
  - eapply wp_mono; [|apply act_on_spends]. intros [[]|] s2 H2; [| |done];
      unfold returning, spends in *; [lia|subst s2; lia].
  - timed_call x s2. unfold returning, spends. lia.
Qed.

(** The events of a watch: those pending, and its end. *)
Lemma range_events_spends fuel w s :
  0 <= L -> (ts_pending s < fuel)%nat ->
  wp env (range_events fuel w op msg) (returning (fun _ s' =>
    ts_clock s <= ts_clock s' <=
      Z.max (ts_clock s) (ts_until s) + (Z.of_nat (ts_pending s) + 6) * L)) s.
Proof.
  intros HL. revert s. induction fuel as [|fuel IH]; intros s Hfuel; [lia|].
  cbn [range_events]. wp_unfold. timed_call o s1. destruct Ha as [Hu Hp].
  assert (0 <= Z.of_nat (ts_pending s) * L) as Hpos by (apply Z.mul_nonneg_nonneg; lia).
  destruct o as [ev|]; [|cbn [wp bind returning]; lia].
  assert (ts_pending s = S (ts_pending s1)) as Hp1 by by apply Hp.
  assert (wp env (range_events fuel w op msg) (returning (fun _ s' =>
    ts_clock s <= ts_clock s' <=
      Z.max (ts_clock s) (ts_until s) + (Z.of_nat (ts_pending s) + 6) * L)) s1) as Hrest.
  { eapply wp_mono; [|apply IH; lia]. intros [b|] s2 H2; [|done]. unfold returning in *. lia. }
  destruct ev as [dep|]; [|exact Hrest].
  eapply wp_seq; [apply act_on_spends|]. intros [] s2 H2; [|by subst s2].
  wp_unfold. timed_call x s3. unfold returning, spends in *. nia.
Qed.

Lemma watch_loop_ends fuel evfuel dl backoff s :
  0 <= L -> backoff_ok backoff -> (N < evfuel)%nat ->
  dl - ts_clock s < Z.of_nat fuel * Second ->
  ts_clock s <= dl + (Z.of_nat N + 10) * L ->
  wp env (watch_loop (S fuel) evfuel (WithDeadline Background dl) op msg backoff)
    (returning (fun _ s' => ts_clock s' <= dl + (Z.of_nat N + 14) * L)) s.
Proof.
  intros HL Hb HN. revert backoff s Hb.
  assert (0 <= Z.of_nat N * L) as HNL by (apply Z.mul_nonneg_nonneg; lia).
  assert (forall text s1, ts_clock s1 <= dl + (Z.of_nat N + 11) * L ->
    wp env (timeoutOperation op msg text)
      (returning (fun _ s' => ts_clock s' <= dl + (Z.of_nat N + 14) * L)) s1) as Htimeout.
  { intros text s1 H1. eapply wp_mono; [|apply timeoutOperation_spends].
    intros [[]|] s2 H2; [|done]. unfold returning, spends in *. lia. }
  induction fuel as [|fuel IH]; intros backoff s Hb Hfuel Hlate;
    cbn [watch_loop]; wp_unfold; timed_call b s1; destruct Ha as [c ->];
    cbn [ctx_done orb]; (destruct (dl <=? ts_clock s1) eqn:Hexp; [apply Htimeout; lia|]);
    to_prop; [lia|].
  eapply wp_seq; [apply evalOnce_spends|]. intros [] s2 H2; unfold spends in H2;
    [cbn [wp bind returning]; lia|].
  assert (forall s3 text, ts_clock s2 <= ts_clock s3 -> ts_clock s3 <= dl + (Z.of_nat N + 9) * L ->
    wp env
    (Vis (SelectAfter (WithDeadline Background dl) backoff)
       (fun b => bind (Ret b) (fun slept => if (slept : bool)
          then watch_loop (S fuel) evfuel (WithDeadline Background dl) op msg
                 (Z.min (dur_mul 2 backoff) maxBackoff)
          else timeoutOperation op msg text)))
       (returning (fun _ s' => ts_clock s' <= dl + (Z.of_nat N + 14) * L)) s3) as Hsleep.
  { intros s3 text Hs3 Hs3'. cbn [wp bind]. timed_call b s4.
    destruct b; [|apply Htimeout; lia]. specialize (Ha eq_refl).
    apply IH; [by apply backoff_next|unfold backoff_ok in Hb; lia|lia]. }
  wp_unfold. timed_call r s3. destruct Ha as [Hp Hu]. cbn [expires] in Hu. destruct r as [w|err].
  - assert (Z.of_nat (ts_pending s3) * L <= Z.of_nat N * L) as Hpend
      by (apply Z.mul_le_mono_nonneg_r; lia).
    eapply wp_seq; [apply range_events_spends; lia|]. rewrite Hu. intros [] s4 H4.
    + cbn [wp bind returning]. lia.
    + apply Hsleep; lia.
  - wp_unfold. timed_call x s4. apply Hsleep; lia.
Qed.

End Termination.

(** The largest deadline a watcher can be granted. *)
Definition longest_wait (m : Manager) (D : Z) : Z :=
  Z.max (defaultDeadline m) (D * Second) + 2 * Minute.

(** C8: following a rollout always ends.  When no call takes longer than [L] beyond what it
waits for, no watch delivers more than [N] events and no deployment has a progress deadline
above [D] seconds, the watcher is done at the latest when the longest deadline, the two
minutes and [N + 16] times [L] have passed since it started.  The loop runs at most once per
second of the deadline: fuel beyond that number of iterations (with [evfuel] above the
longest event burst) is never exhausted. *)
Theorem watchRollout_terminates m D N L fuel evfuel op msg s :
  sane_manager m -> D <= int32_max ->
  (N < evfuel)%nat -> longest_wait m D < Z.of_nat fuel * Second ->
  wp (timed_env D N L) (watchRollout m (S fuel) evfuel op msg)
    (returning (fun _ s' =>
       ts_clock s' <= ts_clock s + longest_wait m D + (Z.of_nat N + 16) * L)) s.
Proof.
  intros Hm HD HN Hfuel. unfold watchRollout, WithTimeout. wp_unfold. split; [done|].
  intros r s1 [Hc1 Hr]. cbn [due timed_answer] in Hc1, Hr. split; [done|].
  intros t s2 [Hc2 Ht]. cbn [due timed_answer] in Hc2, Ht. wp_unfold. fold (granted m r).
  assert (typed_answer r) as Htyped.
  { destruct r as [dep|]; [|done]. intros n Hn. specialize (Hr n Hn). lia. }
  destruct (watch_deadline_exact m r Hm Htyped) as [_ ->].
  assert (0 < granted m r <= Z.max (defaultDeadline m) (D * Second)) as Hg.
  { split; [by apply watch_deadline_exact|].
    destruct r as [dep|]; simpl; [|lia]. rewrite progressDeadline_exact by done.
    destruct (ProgressDeadlineSeconds dep) as [n|]; [|lia]. specialize (Hr n eq_refl).
    unfold Second in *. case_match; lia. }
  unfold longest_wait, Minute, Second in *. unfold time_Add.
  eapply wp_mono; [|apply watch_loop_ends]; [|lia|by vm_compute|done|unfold Second; lia|nia].
  intros [[]|] s3 H3; [|done]. unfold returning in *. lia.
Qed.

Lemma watchRollout_terminates_witness :
  longest_wait gateway_manager 600 < Z.of_nat 721 * Second /\
  0 + longest_wait gateway_manager 600 + (Z.of_nat 10 + 16) * (35 * Second) =
    27 * Minute + 10 * Second /\
  wp (timed_env 600 10 (35 * Second)) (watchRollout gateway_manager (S 721) 11 idle_op None)
    (returning (fun _ s' => ts_clock s' <=
       0 + longest_wait gateway_manager 600 + (Z.of_nat 10 + 16) * (35 * Second)))
    {| ts_clock := 0; ts_pending := 0; ts_until := 0 |}.
Proof.
  split; [by vm_compute|]. split; [by vm_compute|].
  refine (watchRollout_terminates gateway_manager 600 10 (35 * Second) 721 11 idle_op None
            {| ts_clock := 0; ts_pending := 0; ts_until := 0 |} gateway_manager_sane _ _ _);
    [by vm_compute|lia|by vm_compute].
Defined.
