(* ===== verification/ManagerRace.v ===== *)
(** * Watchers, sweeps and lookups racing on one table

All goroutines of the gateway share the operations table: request handlers that
start operations, their watchers, the sweeper and the lookups that reconcile
stale operations.  [pstep] interleaves them in any order, lets new requests in at
any time and may kill any of them.  The theorems say who gets to announce the
end of an operation. *)

From S2P Require Import Prelude GoStrings GoRuntime Effects Kube Store Authn Notify Manager ManagerSpec.

Local Open Scope string_scope.
Local Open Scope list_scope.
Local Open Scope Z_scope.

(** ** The discipline every goroutine follows *)

(** [due]: the operation whose terminal write this goroutine has had confirmed
and must announce.  [made]: the id it has drawn and not yet used. *)
Record Ghost : Type := { due : option (string * TerminalUpdate); made : option string }.

Definition ghost0 : Ghost := {| due := None; made := None |}.
Definition set_due (d : option (string * TerminalUpdate)) (g : Ghost) : Ghost := {| due := d; made := made g |}.
Definition set_made (m : option string) (g : Ghost) : Ghost := {| due := due g; made := m |}.

(** The operation ended the way the update says. *)
Definition ended_as (op : Operation) (upd : TerminalUpdate) : Prop :=
  Status op = Upd_Status upd /\ ErrorCode op = Upd_ErrorCode upd /\
  ErrorMessage op = Upd_ErrorMessage upd /\ CompletedAt op = Some (Upd_CompletedAt upd).

Definition notify_pre X (e : mgrE X) (g : Ghost) : Prop :=
  match e with
  | MStore e =>
      match e with
      | UpdateTerminal _ _ upd => due g = None /\ Upd_Status upd <> StatusRunning
      | PutOperation _ op => made g = Some (OperationID op) /\ Status op = StatusRunning
      | _ => True
      end
  | MNotify e =>
      match e with
      | Resolved op _ => exists upd, due g = Some (OperationID op, upd) /\ ended_as op upd
      | Started _ => True
      end
  | _ => True
  end.

Definition notify_step X (e : mgrE X) (g : Ghost) : X -> Ghost -> Prop :=
  match e in mgrE X return X -> Ghost -> Prop with
  | MStore e =>
      match e in storeE X return X -> Ghost -> Prop with
      | UpdateTerminal _ id upd => fun x g' =>
          g' = match x with None => set_due (Some (id, upd)) g | Some _ => g end
      | PutOperation _ _ => fun _ g' => g' = set_made None g
      | _ => fun _ g' => g' = g
      end
  | MNotify e =>
      match e in notifyE X return X -> Ghost -> Prop with
      | Resolved _ _ => fun _ g' => g' = set_due None g
      | Started _ => fun _ g' => g' = g
      end
  | UlidMake => fun u g' => g' = set_made (Some (id_of_ulid u)) g
  | _ => fun _ g' => g' = g
  end.

Definition notify_proto : spec mgrE Ghost :=
  {| spec_pre := notify_pre; spec_post := notify_step |}.

(** No announcement is left to make. *)
Definition quiet {A} (_ : outcome A) (g : Ghost) : Prop := due g = None.

(** ** The programs follow it *)

(** One call whose ghost effect is trivial or immediate. *)
Ltac np_call x :=
  split; [first [exact I | done | by split]|];
  let g' := fresh "g'" in let H := fresh "Hg" in
  intros x g' H; cbn [notify_proto spec_post notify_step] in H; subst g'.

Lemma np_log l msg g Q : Q (Done tt) g -> wp notify_proto (log l msg) Q g.
Proof. intros HQ. wp_unfold. np_call x. by destruct x. Qed.

Lemma np_resolve op msg what upd g :
  due g = None -> Upd_Status upd <> StatusRunning ->
  wp notify_proto (resolve op msg what upd) (returning (fun _ g' => due g' = None)) g.
Proof.
  intros Hdue Hupd. unfold resolve. wp_unfold. np_call err.
  destruct err as [err|]; wp_unfold.
  - unfold logTerminalWriteErr. case_match; by apply np_log.
  - split; [by exists upd|]. intros x g' ->. done.
Qed.

Lemma np_end op msg g :
  due g = None ->
  (forall code text, wp notify_proto (failOperation op msg code text)
     (returning (fun _ g' => due g' = None)) g) /\
  (forall reason, wp notify_proto (completeOperation op msg reason)
     (returning (fun _ g' => due g' = None)) g) /\
  (forall text, wp notify_proto (timeoutOperation op msg text)
     (returning (fun _ g' => due g' = None)) g).
Proof.
  intros Hdue. unfold failOperation, completeOperation, timeoutOperation.
  split; [|split]; intros; wp_unfold; np_call t.
  - by apply np_resolve.
  - eapply wp_seq; [by apply np_resolve|]. intros [] g' H. by apply np_log.
  - by apply np_resolve.
Qed.

Lemma np_fail op msg code text g :
  due g = None ->
  wp notify_proto (failOperation op msg code text) (returning (fun _ g' => due g' = None)) g.
Proof. intros H. by apply np_end. Qed.

Lemma np_complete op msg reason g :
  due g = None ->
  wp notify_proto (completeOperation op msg reason) (returning (fun _ g' => due g' = None)) g.
Proof. intros H. by apply np_end. Qed.

Lemma np_timeout op msg text g :
  due g = None ->
  wp notify_proto (timeoutOperation op msg text) (returning (fun _ g' => due g' = None)) g.
Proof. intros H. by apply np_end. Qed.

Lemma np_quiet {A} (p : prog mgrE A) g :
  wp notify_proto p (returning (fun _ g' => due g' = None)) g -> wp notify_proto p quiet g.
Proof. apply wp_mono. by intros [a|s] g'. Qed.

Lemma np_start_body ctx op patch_call started g :
  due g = None -> made g = Some (OperationID op) -> Status op = StatusRunning ->
  wp notify_proto (start_body ctx op patch_call started) quiet g.
Proof.
  intros Hdue Hmade Hrun. unfold start_body. wp_unfold. np_call err.
  destruct err as [err|]; wp_unfold; [done|]. np_call err.
  destruct err as [err|]; wp_unfold.
  - eapply wp_seq; [by apply np_fail|]. by intros [] g' H.
  - np_call x. np_call y. by np_call z.
Qed.

Lemma np_Restart ctx id ns dep g :
  due g = None -> wp notify_proto (Restart ctx id ns dep) quiet g.
Proof.
  intros Hdue. unfold Restart. wp_unfold. np_call now. np_call u.
  by refine (np_start_body ctx (requested_op ActionRestart id ns dep "" "" (id_of_ulid u) now)
            (RestartDeployment ctx ns dep) "restart started" _ _ _ _).
Qed.

Lemma np_rollout_with ctx id ns dep c image g :
  due g = None -> wp notify_proto (rollout_with ctx id ns dep c image) quiet g.
Proof.
  intros Hdue. unfold rollout_with. wp_unfold. np_call now. np_call u.
  by refine (np_start_body ctx (requested_op ActionRollout id ns dep c image (id_of_ulid u) now)
            (RolloutDeployment ctx ns dep c image) "rollout started" _ _ _ _).
Qed.

Lemma np_recordFailed ctx id ns dep c image code text g :
  due g = None ->
  wp notify_proto (recordFailedRollout ctx id ns dep c image code text) quiet g.
Proof.
  intros Hdue. unfold recordFailedRollout. wp_unfold. np_call now. np_call u.
  np_call err. destruct err as [err|]; wp_unfold.
  - by np_call x.
  - eapply wp_seq; [by apply np_fail|]. by intros [] g' H.
Qed.

Lemma np_Rollout ctx id ns dep c image g :
  due g = None -> wp notify_proto (Rollout ctx id ns dep c image) quiet g.
Proof.
  intros Hdue. unfold Rollout. case_decide; [|by apply np_rollout_with].
  unfold resolveContainer. wp_unfold. np_call r.
  apply wp_bind. eapply (wp_mono _ _ (fun _ g' => due g' = None)).
  - intros [[resolved resolveErr]|st] g' Hg'; [|done].
    destruct (errors_Is _ _); [done|]. case_decide; [|by apply np_rollout_with].
    destruct resolveErr as [err|]; [|done]. apply wp_bind.
    eapply wp_mono; [|by apply np_recordFailed]. by intros [a|s] g2.
  - destruct r as [d|err]; wp_unfold; [|done]. by destruct (Containers d) as [|? []]; wp_unfold.
Qed.

Lemma np_act_on op msg ev g :
  due g = None -> wp notify_proto (act_on op msg ev) (returning (fun _ g' => due g' = None)) g.
Proof.
  intros Hdue. unfold act_on. destruct (Eval_State ev); wp_unfold; [done| |].
  - eapply wp_seq; [by apply np_complete|]. by intros [] g' H.
  - eapply wp_seq; [by apply np_fail|]. by intros [] g' H.
Qed.

Lemma np_evalOnce ctx op msg g :
  due g = None ->
  wp notify_proto (evalOnce ctx op msg) (returning (fun _ g' => due g' = None)) g.
Proof.
  intros Hdue. unfold evalOnce. wp_unfold. np_call r. destruct r; wp_unfold.
  - by apply np_act_on.
  - by np_call x.
Qed.

Lemma np_range_events fuel w op msg g :
  due g = None -> wp notify_proto (range_events fuel w op msg) quiet g.
Proof.
  revert g. induction fuel as [|fuel IH]; intros g Hdue; [done|]. cbn [range_events]. wp_unfold.
  np_call ev. destruct ev as [[dep|]|]; wp_unfold; [|by apply IH|done].
  eapply wp_seq; [by apply np_act_on|]. intros [] g' H; wp_unfold; [by np_call x|by apply IH].
Qed.

Lemma np_watch_loop fuel evfuel ctx op msg b g :
  due g = None -> wp notify_proto (watch_loop fuel evfuel ctx op msg b) quiet g.
Proof.
  revert b g. induction fuel as [|fuel IH]; intros b g Hdue; [done|]. cbn [watch_loop]. wp_unfold.
  np_call expired. destruct expired; [by apply np_quiet, np_timeout|].
  eapply wp_seq; [by apply np_evalOnce|]. intros [] g1 H1; wp_unfold; [done|].
  np_call r. destruct r as [w|err]; wp_unfold.
  - apply wp_bind. eapply wp_mono; [|by apply np_range_events].
    intros [[]|s] g2 H2; [done| |done]. wp_unfold. np_call slept.
    destruct slept; [by apply IH|by apply np_quiet, np_timeout].
  - np_call x. np_call slept.
    destruct slept; [by apply IH|by apply np_quiet, np_timeout].
Qed.

Lemma np_watchRollout m fuel evfuel op msg g :
  due g = None -> wp notify_proto (watchRollout m fuel evfuel op msg) quiet g.
Proof.
  intros Hdue. unfold watchRollout, WithTimeout. wp_unfold. np_call r. np_call t.
  by apply np_watch_loop.
Qed.

Lemma np_resolveRunning ctx op g :
  due g = None ->
  wp notify_proto (resolveRunning ctx op) (returning (fun _ g' => due g' = None)) g.
Proof.
  intros Hdue. unfold resolveRunning. wp_unfold. np_call r. destruct r as [dep|err].
  - destruct (Eval_State _); [by apply np_timeout|by apply np_complete|by apply np_fail].
  - destruct (error_Is err ContextCanceled); wp_unfold; [by np_call x|].
    np_call b. destruct b; wp_unfold; [by np_call x|by apply np_timeout].
Qed.

Lemma np_ReconcileSweep ctx g :
  due g = None -> wp notify_proto (ReconcileSweep ctx) quiet g.
Proof.
  intros Hdue. unfold ReconcileSweep. wp_unfold. np_call now. np_call r.
  destruct r as [l|err]; wp_unfold; [|by np_call x]. apply np_quiet.
  apply (wp_for_each _ _ (fun _ g => due g = None)); [|done].
  intros op l' g' H. by apply np_resolveRunning.
Qed.

Lemma np_Get ctx opID g : due g = None -> wp notify_proto (Get ctx opID) quiet g.
Proof.
  intros Hdue. unfold Get. wp_unfold. np_call r. destruct r as [op|err]; wp_unfold; [|done].
  assert (forall g, due g = None -> wp notify_proto
    (bind (resolveRunning ctx op) (fun _ => Vis (MStore (GetOperation ctx opID))
       (fun refreshed => match refreshed with Ok op' => Ret (Ok op') | Err _ => Ret (@Ok error _ op) end)))
    quiet g) as Hstale.
  { intros g1 H1. eapply wp_seq; [by apply np_resolveRunning|]. intros [] g2 H2. wp_unfold.
    np_call r. by destruct r. }
  case_decide; wp_unfold; [|done]. np_call now.
  destruct (_ <? _); wp_unfold; [by apply Hstale|done].
Qed.

(** ** The system *)

Section System.
Variables (m : Manager) (fuel evfuel : nat).

Definition spawned X (e : mgrE X) : list (prog mgrE unit) :=
  match e with GoWatch op msg => [watchRollout m fuel evfuel op msg] | _ => [] end.

Definition discard {A} (p : prog mgrE A) : prog mgrE unit := bind p (fun _ => Ret tt).

(** What comes in from outside: requests, lookups, sweeps. *)
Inductive entry : prog mgrE unit -> Prop :=
  | entry_restart ctx id ns dep : entry (discard (Restart ctx id ns dep))
  | entry_rollout ctx id ns dep c image : entry (discard (Rollout ctx id ns dep c image))
  | entry_get ctx opID : entry (discard (Get ctx opID))
  | entry_sweeper n ctx : entry (StartSweeper n ctx).

(** With [exact], a store call that fails has had no effect. *)
Definition no_loss X (e : mgrE X) (w : World) : X -> World -> Prop :=
  match e in mgrE X return X -> World -> Prop with
  | MStore e =>
      match e in storeE X return X -> World -> Prop with
      | PutOperation _ _ | UpdateTerminal _ _ _ => fun x w' =>
          match x with Some _ => ops w' = ops w | None => True end
      | _ => fun _ _ => True
      end
  | _ => fun _ _ => True
  end.

Definition race_env (exact : bool) : spec mgrE World :=
  {| spec_pre := fun _ _ w => ids_ok w;
     spec_post := fun X e w x w' =>
       mgr_post X e w x w' /\ (exact = true -> no_loss X e w x w') |}.

Definition race_step (exact : bool) (crashes : Prop) :=
  pstep (race_env exact) spawned entry crashes.

(** ** Counting announcements *)

Definition announces (id : string) (n : Notice) : nat :=
  match n with
  | NResolved op _ => if decide (OperationID op = id) then 1 else 0
  | NStarted _ => 0
  end.

Definition times_resolved (id : string) (w : World) : nat :=
  sum_list_with (announces id) (notices w).

Definition owes (id : string) (g : Ghost) : nat :=
  if decide (fst <$> due g = Some id) then 1 else 0.

Definition owed (id : string) (gs : list Ghost) : nat := sum_list_with (owes id) gs.

(** [1] when the table holds [id] in a status other than running. *)
Definition stopped (id : string) (t : gmap string Operation) : nat :=
  match t !! id with
  | Some op => if decide (Status op = StatusRunning) then 0 else 1
  | None => 0
  end.

Definition balance (exact : bool) (a b : nat) : Prop := if exact then a = b else (a <= b)%nat.

(** Every stopped operation is paid for by at most (with [exact], exactly) one
announcement, made or still owed; the ids drawn and not yet used are pairwise
different and not in the table. *)
Record race_inv (exact : bool) (t0 : gmap string Operation) (gs : list Ghost) (w : World) :
    Prop := {
  inv_balance : forall id,
    balance exact (stopped id t0 + times_resolved id w + owed id gs) (stopped id (ops w));
  inv_made : NoDup (omap made gs);
  inv_fresh : forall id, id ∈ omap made gs -> id ∈ used w /\ ops w !! id = None;
  inv_ids : ids_ok w;
}.

Lemma race_inv_perm exact t0 gs gs' w :
  gs ≡ₚ gs' -> race_inv exact t0 gs w -> race_inv exact t0 gs' w.
Proof.
  intros Hp [Hb Hm Hf Hi]. split; [|by rewrite <- Hp| |done].
  - intros id. unfold owed. rewrite <- Hp. apply Hb.
  - intros id Hin. apply Hf. by rewrite Hp.
Qed.

Lemma race_inv_frame exact t0 gs w w' :
  ops w' = ops w -> used w' = used w -> notices w' = notices w ->
  race_inv exact t0 gs w -> race_inv exact t0 gs w'.
Proof.
  intros Ho Hu Hn [Hb Hm Hf [Hk Hd]]. split; [|done| |].
  - intros id. unfold times_resolved. rewrite Hn, Ho. apply Hb.
  - intros id Hin. rewrite Hu, Ho. by apply Hf.
  - split; rewrite Ho; [done|]. by rewrite Hu.
Qed.

Lemma stopped_insert id id' op t :
  stopped id (<[id' := op]> t) =
    if decide (id' = id) then (if decide (Status op = StatusRunning) then 0%nat else 1%nat)
    else stopped id t.
Proof. unfold stopped. rewrite lookup_insert. by case_decide. Qed.

Lemma stopped_le id t : (stopped id t <= 1)%nat.
Proof. unfold stopped. case_match; [case_decide|]; lia. Qed.

Lemma race_inv_ulid exact t0 g gs w id :
  id ∉ used w -> race_inv exact t0 (g :: gs) w ->
  race_inv exact t0 (set_made (Some id) g :: gs) (add_used id w).
Proof.
  intros Hid [Hb Hm Hf [Hk Hd]]. cbn [omap list_omap] in *.
  assert (NoDup (omap made gs) /\
          forall id, id ∈ omap made gs -> id ∈ used w /\ ops w !! id = None) as [Hm' Hf'].
  { destruct (made g); [|done]. apply NoDup_cons in Hm as [_ Hm]. set_solver. }
  split; simpl.
  - exact Hb.
  - apply NoDup_cons. split; [|done]. intros Hin. by apply Hf' in Hin as [? _].
  - intros id' [->|Hin]%elem_of_cons.
    + split; [set_solver|]. apply not_elem_of_dom. set_solver.
    + destruct (Hf' _ Hin). set_solver.
  - split; [done|]. simpl. set_solver.
Qed.

Lemma race_inv_unmade exact t0 g gs w :
  race_inv exact t0 (g :: gs) w -> race_inv exact t0 (set_made None g :: gs) w.
Proof.
  intros [Hb Hm Hf Hi]. split; [exact Hb| | |done]; cbn in *; destruct (made g); try done.
  - by apply NoDup_cons in Hm as [_ ?].
  - intros id Hin. apply Hf. by right.
Qed.

Lemma race_inv_put exact t0 g gs w op c :
  made g = Some (OperationID op) -> Status op = StatusRunning ->
  race_inv exact t0 (g :: gs) w ->
  race_inv exact t0 (set_made None g :: gs) (did_store c (<[OperationID op := op]> (ops w)) w).
Proof.
  intros Hmade Hrun [Hb Hm Hf [Hk Hd]]. cbn in Hm, Hf. rewrite Hmade in Hm, Hf.
  destruct (Hf (OperationID op)) as [Hused Habs]; [by left|].
  apply NoDup_cons in Hm as [Hnin Hm]. split; simpl.
  - intros id. rewrite stopped_insert. specialize (Hb id). case_decide as Hid; [|exact Hb].
    subst id. rewrite decide_True by done. unfold stopped at 2 in Hb. by rewrite Habs in Hb.
  - done.
  - intros id Hin. rewrite lookup_insert_ne; [|by intros <-]. apply Hf. by right.
  - split; simpl; [by apply map_Forall_insert_2|]. rewrite dom_insert_L. set_solver.
Qed.

(** What any terminal write does to the invariant but for the balance. *)
Lemma race_inv_write exact exact' t0 gs gs' w id upd t c :
  Upd_Status upd <> StatusRunning -> terminal_write (ops w) id upd t ->
  omap made gs' = omap made gs ->
  (forall id', owed id' gs' = (owed id' gs + if decide (exact' = true /\ id' = id) then 1 else 0)%nat) ->
  (exact = true -> exact' = true) ->
  race_inv exact t0 gs w -> race_inv exact t0 gs' (did_store c t w).
Proof.
  intros Hupd Hw Hmade Howed Hex [Hb Hm Hf [Hk Hd]].
  pose proof Hw as (op & at_ & Hop & Hrun & ->).
  assert (stopped id (ops w) = 0%nat) as Hzero.
  { unfold stopped. by rewrite Hop, decide_True. }
  split; rewrite ?Hmade; simpl; [|done| |].
  - intros id'. rewrite stopped_insert, Howed. specialize (Hb id').
    change (Status (terminated op upd at_)) with (Upd_Status upd).
    rewrite (decide_False (P := Upd_Status upd = StatusRunning)) by done.
    change (times_resolved id' (did_store _ _ w)) with (times_resolved id' w).
    unfold balance in *. destruct (decide (id = id')) as [<-|Hne].
    + rewrite Hzero in Hb. destruct exact; [rewrite decide_True by auto; lia|].
      destruct (decide (exact' = true /\ id = id)); lia.
    + rewrite decide_False by naive_solver. destruct exact; lia.
  - intros id' Hin. destruct (Hf id' Hin) as [Hu Hn]. split; [done|].
    rewrite lookup_insert_ne; [done|congruence].
  - split; simpl; [by eapply terminal_write_keyed|]. rewrite dom_insert_L.
    assert (id ∈ dom (ops w)) by (apply elem_of_dom; by exists op). set_solver.
Qed.

Lemma race_inv_announce exact t0 g gs w op msg :
  fst <$> due g = Some (OperationID op) -> race_inv exact t0 (g :: gs) w ->
  race_inv exact t0 (set_due None g :: gs) (add_notice (NResolved op msg) w).
Proof.
  intros Hdue [Hb Hm Hf Hi]. split; try done. intros id. specialize (Hb id).
  unfold times_resolved, owed, owes in *. simpl in *. rewrite Hdue in Hb.
  unfold balance in *. destruct (decide (OperationID op = id)) as [Heq|Hne].
  - rewrite decide_True in Hb by by rewrite Heq. destruct exact; lia.
  - rewrite decide_False in Hb by naive_solver. destruct exact; lia.
Qed.

Lemma race_inv_enter exact t0 gs w :
  race_inv exact t0 gs w -> race_inv exact t0 (ghost0 :: gs) w.
Proof. by intros [Hb Hm Hf Hi]; split. Qed.

Lemma race_inv_kill t0 g gs w :
  race_inv false t0 (g :: gs) w -> race_inv false t0 gs w.
Proof.
  intros [Hb Hm Hf Hi]. split; [| | |done].
  - intros id. specialize (Hb id). unfold owed, balance in *. simpl in Hb. lia.
  - cbn in Hm. destruct (made g); [by apply NoDup_cons in Hm as [_ ?]|done].
  - intros id Hin. apply Hf. cbn. destruct (made g); [by right|done].
Qed.

(** A terminal write: it succeeds, and is owed, or fails, whatever it did. *)
Lemma race_inv_update exact t0 g gs w ctx id upd (x : option error) t c :
  race_inv exact t0 (g :: gs) w -> due g = None -> Upd_Status upd <> StatusRunning ->
  store_post _ (Store.UpdateTerminal ctx id upd) (ops w) x t ->
  (exact = true -> forall err, x = Some err -> t = ops w) ->
  exists g', notify_step _ (MStore (Store.UpdateTerminal ctx id upd)) g x g' /\
    race_inv exact t0 (g' :: gs) (did_store c t w).
Proof.
  intros Hinv Hdue Hupd Ht Hloss. destruct x as [err|]; simpl in *.
  - exists g. split; [done|].
    assert (race_inv exact t0 (g :: gs) (did_store c (ops w) w)) as Hsame.
    { by eapply race_inv_frame; [..|exact Hinv]. }
    destruct Ht as [[-> _]|[[_ [[-> _]|Hw]]|[_ [->|Hw]]]]; try done;
      (destruct exact; [by rewrite (Hloss eq_refl err)|]);
      (eapply (race_inv_write false false _ (g :: gs));
         [exact Hupd|exact Hw|done| |done|exact Hinv]);
      intros id'; rewrite decide_False by naive_solver; lia.
  - exists (set_due (Some (id, upd)) g). split; [done|].
    eapply (race_inv_write exact true _ (g :: gs)); [exact Hupd|exact Ht|done| |done|exact Hinv].
    intros id'. unfold owed, owes. simpl. rewrite Hdue.
    rewrite (decide_False (P := None = Some id')) by done.
    destruct (decide (id' = id)) as [->|Hne].
    + rewrite !decide_True by done. lia.
    + rewrite !decide_False by naive_solver. lia.
Qed.

(** One call of one goroutine. *)
Lemma race_inv_call exact t0 g gs w X (e : mgrE X) x w' :
  race_inv exact t0 (g :: gs) w -> notify_pre X e g -> spec_post (race_env exact) e w x w' ->
  exists g', notify_step X e g x g' /\ race_inv exact t0 (g' :: gs) w'.
Proof.
  intros Hinv Hpre [Hpost Hloss]. destruct e as [X e|X e|X e|X e| | | | | | |]; simpl in *.
  - destruct Hpost as (t & Ht & ->). destruct e as [ctx op|ctx id|ctx id upd|ctx t1|ctx]; simpl in *.
    + exists (set_made None g). split; [done|]. destruct Hpre as [Hmade Hrun].
      assert (race_inv exact t0 (set_made None g :: gs) (did_store (DidPut op x) (ops w) w)).
      { apply race_inv_unmade. by eapply race_inv_frame; [..|exact Hinv]. }
      assert (race_inv exact t0 (set_made None g :: gs)
                (did_store (DidPut op x) (<[OperationID op := op]> (ops w)) w)) by by apply race_inv_put.
      destruct x; naive_solver.
    + exists g. split; [done|]. destruct Ht as [-> _]. by eapply race_inv_frame; [..|exact Hinv].
    + destruct Hpre as [Hdue Hupd]. apply (race_inv_update exact t0 g gs w ctx id upd x t _); try done.
      intros -> err ->. by apply Hloss.
    + exists g. split; [done|]. destruct Ht as [-> _]. by eapply race_inv_frame; [..|exact Hinv].
    + exists g. split; [done|]. subst t. by eapply race_inv_frame; [..|exact Hinv].
  - exists g. split; [by destruct e|].
    destruct e; simpl in *; subst w'; by eapply race_inv_frame; [..|exact Hinv].
  - destruct e; simpl in *; subst w'.
    + exists g. split; [done|]. destruct Hinv as [Hb Hm Hf Hi]. by split.
    + exists (set_due None g). split; [done|]. destruct Hpre as (upd & Hdue & _).
      apply race_inv_announce; [by rewrite Hdue|done].
  - exists g. split; [done|]. destruct e; simpl in *; [destruct Hpost as [_ ->]|subst w'];
      by eapply race_inv_frame; [..|exact Hinv].
  - eexists. split; [done|]. destruct Hpost as [Hid ->]. by apply race_inv_ulid.
  - exists g. split; [done|]. destruct Hpost as (t & c & _ & _ & _ & ->).
    by eapply race_inv_frame; [..|exact Hinv].
  - exists g. split; [done|]. destruct Hpost as (t & c & _ & _ & -> & _).
    by eapply race_inv_frame; [..|exact Hinv].
  - exists g. split; [done|]. destruct Hpost as (t & c & _ & _ & -> & _).
    by eapply race_inv_frame; [..|exact Hinv].
  - exists g. split; [done|]. by subst w'.
  - exists g. split; [done|]. by subst w'.
  - exists g. split; [done|]. subst w'. by eapply race_inv_frame; [..|exact Hinv].
Qed.

(** ** Announcements tell the truth *)

(** The table holds the operation, ended as the update says. *)
Definition row_ended (id : string) (upd : TerminalUpdate) (t : gmap string Operation) : Prop :=
  exists row, t !! id = Some row /\ Status row <> StatusRunning /\ ended_as row upd.

(** What is owed and what has been announced both agree with the table. *)
Definition honest (gs : list Ghost) (w : World) : Prop :=
  (forall g id upd, g ∈ gs -> due g = Some (id, upd) -> row_ended id upd (ops w)) /\
  (forall op msg, NResolved op msg ∈ notices w ->
     exists upd, ended_as op upd /\ row_ended (OperationID op) upd (ops w)).

Lemma row_ended_kept id upd t t' :
  ended_rows_kept t t' -> row_ended id upd t -> row_ended id upd t'.
Proof. intros Hk (row & Hrow & Hst & He). exists row. split; [by apply Hk|done]. Qed.

Lemma honest_kept gs w w' :
  ended_rows_kept (ops w) (ops w') -> notices w' = notices w -> honest gs w -> honest gs w'.
Proof.
  intros Hk Hn [Hd Hs]. split.
  - intros g id upd Hg Hdue. eapply row_ended_kept; [done|]. by eapply Hd.
  - rewrite Hn. intros op msg Hin. destruct (Hs op msg Hin) as (upd & He & Hr).
    exists upd. split; [done|]. by eapply row_ended_kept.
Qed.

Lemma honest_head g g' gs w :
  (forall id upd, due g' = Some (id, upd) -> row_ended id upd (ops w)) ->
  honest (g :: gs) w -> honest (g' :: gs) w.
Proof.
  intros Hg' [Hd Hs]. split; [|done]. intros g1 id upd [->|Hin]%elem_of_cons; [by apply Hg'|].
  intros Hdue. eapply Hd; [by right|done].
Qed.

Lemma honest_same g g' gs w : due g' = due g -> honest (g :: gs) w -> honest (g' :: gs) w.
Proof.
  intros Hdue HI. eapply honest_head; [|exact HI]. intros id upd. rewrite Hdue.
  intros Hg. destruct HI as [Hd _]. eapply Hd; [by left|done].
Qed.

Lemma honest_perm gs gs' w : gs ≡ₚ gs' -> honest gs w -> honest gs' w.
Proof.
  intros Hp [Hd Hs]. split; [|done]. intros g id upd Hg. apply Hd. by rewrite Hp.
Qed.

Lemma honest_store exact t0 g gs w X (e : storeE X) x t c g' :
  race_inv exact t0 (g :: gs) w -> honest (g :: gs) w -> notify_pre X (MStore e) g ->
  store_post X e (ops w) x t -> notify_step X (MStore e) g x g' ->
  honest (g' :: gs) (did_store c t w).
Proof.
  intros Hinv HI Hpre Ht Hg'. assert (ended_rows_kept (ops w) (ops w)) as Hrefl by by intros ??.
  destruct e as [ctx op|ctx id|ctx id upd|ctx t1|ctx]; simpl in *; subst.
  - destruct Hpre as [Hmade _].
    assert (ended_rows_kept (ops w) (<[OperationID op := op]> (ops w))) as Hput.
    { apply insert_keeps. apply (inv_fresh _ _ _ _ Hinv). cbn. rewrite Hmade. by left. }
    apply (honest_same g); [done|]. apply (honest_kept _ w); [|done|exact HI].
    destruct x; simpl in *; naive_solver.
  - destruct Ht as [-> _]. by eapply honest_kept; [..|exact HI].
  - destruct Hpre as [_ Hupd]. destruct x as [err|]; simpl in *.
    + apply (honest_kept _ w); [|done|exact HI]. simpl.
      destruct Ht as [[-> _]|[[_ [[-> _]|Hw]]|[_ [->|Hw]]]]; try done;
        by eapply terminal_write_keeps.
    + apply (honest_head g).
      * simpl. intros id' upd' [= <- <-]. destruct Ht as (op & at_ & _ & _ & ->).
        exists (terminated op upd at_). rewrite lookup_insert_eq. by repeat split.
      * apply (honest_kept _ w); [|done|exact HI]. simpl. by eapply terminal_write_keeps.
  - destruct Ht as [-> _]. by eapply honest_kept; [..|exact HI].
  - by eapply honest_kept; [..|exact HI].
Qed.

Lemma honest_call exact t0 g gs w X (e : mgrE X) x w' g' :
  race_inv exact t0 (g :: gs) w -> honest (g :: gs) w -> notify_pre X e g ->
  spec_post (race_env exact) e w x w' -> notify_step X e g x g' ->
  honest (g' :: gs) w'.
Proof.
  intros Hinv HI Hpre [Hpost _] Hg'.
  assert (ended_rows_kept (ops w) (ops w)) as Hrefl by by intros ??.
  destruct e as [X e|X e|X e|X e| | | | | | |]; [|simpl in *; try subst g'..]; cbn in Hpost.
  - destruct Hpost as (t & Ht & ->). by eapply honest_store.
  - destruct e; simpl in *; subst; by eapply honest_kept; [..|exact HI].
  - destruct e; simpl in *; subst.
    + destruct HI as [Hd Hs]. split; [done|]. intros op' msg [?|Hin]%elem_of_cons; [done|].
      by eapply Hs.
    + destruct Hpre as (upd & Hdue & He). apply (honest_head g); [done|].
      destruct HI as [Hd Hs]. split; [done|]. intros op' msg' [[= -> ->]|Hin]%elem_of_cons.
      * exists upd. split; [done|]. eapply Hd; [by left|done].
      * by eapply Hs.
  - destruct e; simpl in *; [destruct Hpost as [_ ->]|subst w'];
      by eapply honest_kept; [..|exact HI].
  - destruct Hpost as [_ ->]. apply (honest_same g); [done|]. by eapply honest_kept; [..|exact HI].
  - destruct Hpost as (t & c & _ & _ & _ & ->). by eapply honest_kept; [..|exact HI].
  - destruct Hpost as (t & c & _ & _ & -> & _). by eapply honest_kept; [..|exact HI].
  - destruct Hpost as (t & c & _ & _ & -> & _). by eapply honest_kept; [..|exact HI].
  - by subst w'.
  - by subst w'.
  - subst w'. by eapply honest_kept; [..|exact HI].
Qed.

(** ** Every reachable state *)

Lemma np_StartSweeper n ctx g :
  due g = None -> wp notify_proto (StartSweeper n ctx) quiet g.
Proof.
  revert g. induction n as [|n IH]; intros g Hdue; [done|]. cbn [StartSweeper]. wp_unfold.
  np_call tick. destruct tick; wp_unfold; [|done]. apply wp_bind.
  eapply wp_mono; [|by apply np_ReconcileSweep]. intros [[]|s] g' H; [by apply IH|done].
Qed.

Lemma np_discard {A} (p : prog mgrE A) g :
  wp notify_proto p quiet g -> wp notify_proto (discard p) quiet g.
Proof. intros Hp. apply wp_bind. revert Hp. apply wp_mono. by intros [a|s] g'. Qed.

Lemma np_entry p : entry p -> wp notify_proto p quiet ghost0.
Proof.
  intros []; try apply np_discard.
  - by apply np_Restart.
  - by apply np_Rollout.
  - by apply np_Get.
  - by apply np_StartSweeper.
Qed.

Lemma race_reachable exact (crashes : Prop) w0 ts w :
  (crashes -> exact = false) -> ids_ok w0 -> notices w0 = [] ->
  rtc (race_step exact crashes) ([], w0) (ts, w) ->
  exists gs, Forall2 (fun p g => wp notify_proto p quiet g) ts gs /\
    race_inv exact (ops w0) gs w /\ honest gs w.
Proof.
  intros Hcrash Hids Hn Hsteps.
  eapply (pool_reachable _ _ _ _ _ notify_proto quiet
            (fun gs w => race_inv exact (ops w0) gs w /\ honest gs w) ghost0);
    [..|exact Hsteps].
  - exact np_entry.
  - intros X e g p _ Hp. destruct e; simpl in Hp; try by apply not_elem_of_nil in Hp.
    apply list_elem_of_singleton in Hp as ->. by apply np_watchRollout.
  - intros pre g post X e s x s' [HI Hh] Hpre Hpost.
    assert (pre ++ g :: post ≡ₚ g :: pre ++ post) as Hp by by rewrite Permutation_middle.
    apply (race_inv_perm _ _ _ _ _ Hp) in HI. apply (honest_perm _ _ _ Hp) in Hh.
    destruct (race_inv_call _ _ _ _ _ _ _ _ _ HI Hpre Hpost) as (g' & Hg' & HI').
    pose proof (honest_call _ _ _ _ _ _ _ _ _ _ HI Hh Hpre Hpost Hg') as Hh'.
    exists g'. split; [done|].
    assert (g' :: pre ++ post ≡ₚ pre ++ g' :: post) as Hp' by by rewrite Permutation_middle.
    split; [by eapply race_inv_perm|by eapply honest_perm].
  - intros gs s [HI Hh]. assert (ghost0 :: gs ≡ₚ gs ++ [ghost0]) as Hp
      by by rewrite Permutation_cons_append.
    split; [eapply race_inv_perm, race_inv_enter, HI; done|]. eapply honest_perm; [exact Hp|].
    destruct Hh as [Hd Hs]. split; [|done]. intros g id upd [->|Hin]%elem_of_cons; [done|].
    by apply Hd.
  - intros pre g post s Hc [HI Hh]. rewrite Hcrash in * by done.
    assert (pre ++ g :: post ≡ₚ g :: pre ++ post) as Hp by by rewrite Permutation_middle.
    split; [eapply race_inv_kill, race_inv_perm, HI; done|].
    destruct Hh as [Hd Hs]. split; [|done]. intros g1 id upd Hin. apply Hd. set_solver.
  - split.
    + split; [|constructor|by intros id Hin; apply elem_of_nil in Hin|done].
      intros id. unfold times_resolved. rewrite Hn. unfold balance. simpl. destruct exact; lia.
    + split; [by intros g id upd Hin; apply elem_of_nil in Hin|].
      rewrite Hn. by intros op msg Hin; apply elem_of_nil in Hin.
Qed.

(** C4: one announcement at most.  However requests, watchers, sweeps and lookups
interleave, whatever calls fail (even after their effect took place) and
whichever goroutines die, the end of an operation is announced at most once, and
only of an operation that has ended since the start. *)
Theorem resolved_at_most_once w0 ts w id :
  ids_ok w0 -> notices w0 = [] ->
  rtc (race_step false True) ([], w0) (ts, w) ->
  (times_resolved id w <= 1)%nat /\
  (times_resolved id w = 1%nat ->
     stopped id (ops w0) = 0%nat /\ exists op, ops w !! id = Some op /\ Status op <> StatusRunning).
Proof.
  intros Hids Hn Hsteps.
  destruct (race_reachable false True w0 ts w) as (gs & _ & [Hb _ _ _] & _); try done.
  specialize (Hb id). simpl in Hb. pose proof (stopped_le id (ops w)). split; [lia|].
  intros H1. split; [lia|]. assert (stopped id (ops w) = 1%nat) as Hs by lia.
  revert Hs. unfold stopped. case_match; [|done]. case_decide; [done|]. intros _. eauto.
Qed.

(** C6: announcements tell the truth.  Whatever interleaves, fails or dies, every
end of an operation that was announced is the one the table holds: same status,
same error, same completion time. *)
Theorem announced_is_stored w0 ts w op msg :
  ids_ok w0 -> notices w0 = [] ->
  rtc (race_step false True) ([], w0) (ts, w) ->
  NResolved op msg ∈ notices w ->
  exists row, ops w !! OperationID op = Some row /\ Status row <> StatusRunning /\
    Status row = Status op /\ ErrorCode row = ErrorCode op /\
    ErrorMessage row = ErrorMessage op /\ CompletedAt row = CompletedAt op.
Proof.
  intros Hids Hn Hsteps Hin.
  destruct (race_reachable false True w0 ts w) as (gs & _ & _ & [_ Hs]); try done.
  destruct (Hs op msg Hin) as (upd & (E1 & E2 & E3 & E4) & row & Hrow & Hst & F1 & F2 & F3 & F4).
  exists row. repeat split; congruence.
Qed.

Lemma finished_owes_nothing ts gs id :
  Forall2 (fun p g => wp notify_proto p quiet g) ts gs ->
  Forall finished ts -> owed id gs = 0%nat.
Proof.
  intros Hall. induction Hall as [|p g ts gs Hp _ IH]; [done|].
  intros Hf. apply Forall_cons in Hf as [Hfin Hf]. unfold owed in *. simpl. rewrite IH by done.
  assert (due g = None) as Hdue by (destruct p; [exact Hp|exact Hp|destruct Hfin]).
  unfold owes. by rewrite Hdue.
Qed.

(** C5: exactly one announcement.  When failed store calls have no effect and no
goroutine dies, once every goroutine has finished, the operations that have ended
since the start are exactly those announced, once each. *)
Theorem resolved_exactly_once w0 ts w id :
  ids_ok w0 -> notices w0 = [] ->
  rtc (race_step true False) ([], w0) (ts, w) -> Forall finished ts ->
  (times_resolved id w + stopped id (ops w0))%nat = stopped id (ops w).
Proof.
  intros Hids Hn Hsteps Hfin.
  destruct (race_reachable true False w0 ts w) as (gs & Hall & [Hb _ _ _] & _); try done.
  specialize (Hb id). simpl in Hb. rewrite (finished_owes_nothing _ _ id Hall Hfin) in Hb. lia.
Qed.

End System.
