(* ===== verification/ManagerDemo.v ===== *)
(** * A runnable environment for the manager

[sim] answers every call of the manager with concrete values: the in-memory
store, scripted Kubernetes answers, a clock that advances, fresh ids.  It
conforms to the environments the theorems assume ([sim_ok]), so runs computed
with it are runs the theorems speak of; the witnesses below apply the theorems
to such runs. *)

From S2P Require Import Prelude GoStrings GoRuntime Effects Kube Store Authn Notify Manager ManagerSpec ManagerWatch ManagerRace.
From stdpp Require Import relations.

Local Open Scope string_scope.
Local Open Scope list_scope.
Local Open Scope Z_scope.

(** ** Fresh ids *)

Fixpoint letters (n : nat) : string :=
  match n with O => "" | S n' => String "a" (letters n') end.

(** Longer than every id handed out so far. *)
Definition next_ulid (w : World) : string :=
  letters (max_list (String.length <$> elements (used w))).

Lemma ToLower_letters n : ToLower (letters n) = letters n.
Proof. induction n as [|n IH]; [done|]. simpl. by rewrite IH. Qed.

Lemma length_letters n : String.length (letters n) = n.
Proof. induction n as [|n IH]; [done|]. simpl. by rewrite IH. Qed.

Lemma next_ulid_fresh w : id_of_ulid (next_ulid w) ∉ used w.
Proof.
  intros Hin. unfold id_of_ulid, next_ulid in Hin. rewrite ToLower_letters in Hin.
  apply elem_of_elements, (list_elem_of_fmap_2 String.length), max_list_elem_of_le in Hin.
  assert (forall s, String.length ("op_" +:+ s) = (3 + String.length s)%nat) as Hlen by done.
  rewrite Hlen, length_letters in Hin. lia.
Qed.

(** ** The handler *)

Section Sim.
(** What the [n]-th [GetDeployment] answers, and whether a patch is accepted. *)
Variable script : nat -> result error Kube.Deployment.
Variable patched : option error.

Definition sim_store X (e : storeE X) (w : World) : X * World :=
  let (x, t) := InMemory.handler (clock w) X e (ops w) in (x, did_store (store_call _ e x) t w).

Definition sim_kube X (e : kubeE X) (w : World) : X * World :=
  match e in kubeE X return X * World with
  | RestartDeployment _ ns name =>
      (patched, add_patch (PRestart ns name, bool_decide (patched = None)) w)
  | RolloutDeployment _ ns name c i =>
      (patched, add_patch (PRollout ns name c i, bool_decide (patched = None)) w)
  | GetDeployment _ _ _ => (script (length (seen w)), add_seen (script (length (seen w))) w)
  | WatchDeployment _ _ _ => (Ok 0%nat, w)
  end.

Definition sim_notify X (e : notifyE X) (w : World) : X * World :=
  match e in notifyE X return X * World with
  | Started op => (Some 0%nat, add_notice (NStarted op) w)
  | Resolved op msg => (tt, add_notice (NResolved op msg) w)
  end.

Definition sim_rt X (e : rtE X) (w : World) : X * World :=
  match e in rtE X return X * World with
  | TimeNow => (clock w + 1, set_clock (clock w + 1) w)
  | LogLine _ _ => (tt, w)
  end.

Definition sim X (e : mgrE X) (w : World) : X * World :=
  match e in mgrE X return X * World with
  | MStore e => sim_store _ e w
  | MKube e => sim_kube _ e w
  | MNotify e => sim_notify _ e w
  | MRt e => sim_rt _ e w
  | UlidMake => (next_ulid w, add_used (id_of_ulid (next_ulid w)) w)
  | CtxErr ctx => (ctx_done (cancelled w) (clock w) ctx, w)
  | SelectAfter ctx d =>
      (true, set_cancelled (cancelled w) (set_clock (clock w + Z.max 0 d) w))
  | SelectTick ctx d =>
      (true, set_cancelled (cancelled w) (set_clock (clock w + Z.max 0 d) w))
  | Recv _ => (None, w)
  | StopWatch _ => (tt, w)
  | GoWatch op msg => (tt, add_watcher (op, msg) w)
  end.

Lemma sim_ok X (e : mgrE X) w :
  well_keyed (ops w) ->
  mgr_post X e w (sim X e w).1 (sim X e w).2 /\ no_loss X e w (sim X e w).1 (sim X e w).2.
Proof.
  intros Hk. destruct e as [X e|X e|X e|X e| | |ctx d|ctx d| | |]; cbn [sim mgr_post].
  - pose proof (InMemory_handler_ok (clock w) X e (ops w) Hk) as Hpost. unfold sim_store.
    destruct (InMemory.handler (clock w) X e (ops w)) as [x t] eqn:Hx. simpl in *.
    split; [by exists t|]. destruct e; try done; simpl in *; [unfold InMemory.PutOperation in Hx; by simplify_eq|].
    destruct x as [err|]; [|done]. unfold InMemory.UpdateTerminal in Hx.
    destruct (ops w !! id); [|by simplify_eq]. case_decide; by simplify_eq.
  - split; [|done]. by destruct e.
  - split; [|done]. by destruct e.
  - split; [|done]. destruct e; simpl; [|done]. split; [lia|done].
  - split; [|done]. split; [apply next_ulid_fresh|done].
  - split; [|done]. exists (clock w), (cancelled w). split; [lia|]. split; [by intros ?|].
    split; [done|by destruct w].
  - split; [|done]. exists (clock w + Z.max 0 d), (cancelled w). simpl. split; [lia|].
    split; [by intros ?|]. split; [done|lia].
  - split; [|done]. exists (clock w + Z.max 0 d), (cancelled w). simpl. split; [lia|].
    split; [by intros ?|done].
  - done.
  - done.
  - done.
Qed.

Lemma mgr_post_keyed X (e : mgrE X) w x w' :
  mgr_post X e w x w' -> well_keyed (ops w) -> well_keyed (ops w').
Proof.
  intros Hpost Hk. destruct e as [X e|X e|X e|X e| | |ctx d|ctx d| | |]; cbn in Hpost.
  - destruct Hpost as (t & Ht & ->). by eapply store_post_keyed.
  - destruct e; simpl in Hpost; by subst.
  - destruct e; simpl in Hpost; by subst.
  - destruct e; simpl in Hpost; [destruct Hpost as [_ ->]|subst]; done.
  - by destruct Hpost as [_ ->].
  - by destruct Hpost as (t & c & _ & _ & _ & ->).
  - by destruct Hpost as (t & c & _ & _ & -> & _).
  - by destruct Hpost as (t & c & _ & _ & -> & _).
  - by subst.
  - by subst.
  - by subst.
Qed.

(** Interleaving goroutines against [sim] is an execution of the system. *)
Lemma sim_steps m fuel evfuel exact (crashes : Prop) picks ts w :
  well_keyed (ops w) ->
  rtc (race_step m fuel evfuel exact crashes) (ts, w)
    (sched (spawned m fuel evfuel) sim picks ts w).
Proof.
  intros Hk. apply (sched_psteps _ _ _ _ _ (fun w => well_keyed (ops w))); [|done].
  intros X e s Hs. destruct (sim_ok X e s Hs) as [Hpost Hloss].
  split; [by split|]. by eapply mgr_post_keyed.
Qed.

End Sim.

(** ** A run *)

Definition idle_world : World :=
  mkWorld ∅ 0 (fun _ => false) ∅ [] [] [] [] [].

Lemma idle_world_ids : ids_ok idle_world.
Proof. split; [apply map_Forall_empty|]. simpl. set_solver. Qed.

Definition octocat : GitHubIdentity :=
  {| Id_Subject := ""; Id_Repository := "tuncloud/backend"; Id_RepositoryID := "123";
     Id_RepositoryOwner := "tuncloud"; Id_Ref := "refs/heads/main"; Id_Workflow := "deploy.yml";
     Id_WorkflowRef := ""; Id_Environment := ""; Id_Actor := "octocat";
     Id_EventName := "push"; Id_RunID := "1827"; Id_RunAttempt := "1" |}.

(** Two replicas updating, then done from the third look on. *)
Definition third_time_lucky (n : nat) : result error Kube.Deployment :=
  Ok (if (n <? 2)%nat then surge 2 2 2 else surge 2 2 1).

Definition a_restart : prog mgrE unit := discard (Restart Background octocat "app" "api").

(** The request first, then its watcher to the end. *)
Definition restart_run : list (prog mgrE unit) * World :=
  sched (spawned gateway_manager 9 9) (sim third_time_lucky None)
    (replicate 12 0%nat ++ replicate 30 1%nat) [a_restart] idle_world.

Lemma restart_run_reached :
  rtc (race_step gateway_manager 9 9 true False) ([], idle_world) restart_run.
Proof.
  eapply rtc_l; [apply (pstep_enter _ _ _ _ a_restart); constructor|].
  apply sim_steps, idle_world_ids.
Qed.

Lemma resolved_exactly_once_witness :
  Forall finished restart_run.1 /\
  (times_resolved "op_" restart_run.2 + stopped "op_" ∅ = stopped "op_" (ops restart_run.2))%nat /\
  times_resolved "op_" restart_run.2 = 1%nat.
Proof.
  assert (Forall finished restart_run.1) as Hfin by (vm_compute; repeat constructor).
  split; [exact Hfin|]. split; [|vm_compute; reflexivity].
  apply (resolved_exactly_once gateway_manager 9 9 idle_world restart_run.1 restart_run.2 "op_"
           idle_world_ids eq_refl); [|exact Hfin].
  rewrite <- surjective_pairing. exact restart_run_reached.
Defined.

(** ** A race

An operation three hours old; two lookups find it running, both ask Kubernetes,
and both try to end it. *)
Definition stale_op : Operation :=
  requested_op ActionRestart octocat "app" "api" "" "" "op_1" 0.

Definition stale_world : World :=
  mkWorld {["op_1" := stale_op]} (3 * Hour) (fun _ => false) {["op_1"]} [] [] [] [] [].

Lemma stale_world_ids : ids_ok stale_world.
Proof. split; [by apply map_Forall_singleton|]. simpl. set_solver. Qed.

Definition a_lookup : prog mgrE unit := discard (Get Background "op_1").

(** The lookups take turns. *)
Definition lookups_run : list (prog mgrE unit) * World :=
  sched (spawned gateway_manager 9 9) (sim (fun _ => Ok (surge 2 2 1)) None)
    (concat (replicate 12 [0; 1]%nat)) [a_lookup; a_lookup] stale_world.

Lemma lookups_run_reached crashes :
  rtc (race_step gateway_manager 9 9 false crashes) ([], stale_world) lookups_run.
Proof.
  eapply rtc_l; [apply (pstep_enter _ _ _ _ a_lookup); constructor|].
  eapply rtc_l; [apply (pstep_enter _ _ _ _ a_lookup); constructor|].
  apply sim_steps, stale_world_ids.
Qed.

Lemma resolved_at_most_once_witness :
  length (seen lookups_run.2) = 2%nat /\
  times_resolved "op_1" lookups_run.2 = 1%nat /\
  (times_resolved "op_1" lookups_run.2 <= 1)%nat /\
  stopped "op_1" (ops stale_world) = 0%nat.
Proof.
  assert (times_resolved "op_1" lookups_run.2 = 1%nat) as Hone by (vm_compute; reflexivity).
  split; [vm_compute; reflexivity|]. split; [exact Hone|].
  destruct (resolved_at_most_once gateway_manager 9 9 stale_world lookups_run.1 lookups_run.2
              "op_1" stale_world_ids eq_refl) as [Hle H1].
  - rewrite <- surjective_pairing. apply lookups_run_reached.
  - split; [exact Hle|]. exact (proj1 (H1 Hone)).
Defined.

Definition announced_op : Operation :=
  match notices lookups_run.2 with NResolved op _ :: _ => op | _ => stale_op end.

Lemma announced_is_stored_witness :
  Status announced_op = StatusSucceeded /\
  exists row, ops lookups_run.2 !! "op_1" = Some row /\ Status row = Status announced_op.
Proof.
  split; [vm_compute; reflexivity|].
  destruct (announced_is_stored gateway_manager 9 9 stale_world lookups_run.1 lookups_run.2
              announced_op None stale_world_ids eq_refl) as (row & Hrow & _ & Hst & _).
  - rewrite <- surjective_pairing. apply lookups_run_reached.
  - apply list_elem_of_In. vm_compute. left. reflexivity.
  - exists row. split; [|exact Hst]. exact Hrow.
Defined.

Lemma sweep_settles_witness :
  well_keyed (ops stale_world) /\
  wp reliable_env (ReconcileSweep Background)
    (returning (fun _ w' => forall id op, ops w' !! id = Some op ->
       Status op = StatusRunning -> clock stale_world - staleAfter - Second < RequestedAt op)) stale_world.
Proof.
  split; [exact (proj1 stale_world_ids)|].
  exact (sweep_settles Background stale_world (proj1 stale_world_ids)).
Defined.

Lemma terminal_is_final_witness :
  let ended := with_outcome stale_op StatusFailed "TIMEOUT" "" None [] in
  let upd := {| Upd_Status := StatusSucceeded; Upd_Event := "SUCCEEDED"; Upd_ErrorCode := "";
                Upd_ErrorMessage := ""; Upd_CompletedAt := 7 |} in
  let calls := [(7, existT _ (UpdateTerminal Background "op_1" upd));
                (8, existT _ (PutOperation Background (with_outcome idle_op "" "" "" None [])))] in
  let m := {["op_0" := ended]} : gmap string Operation in
  serve calls m !! "op_0" = Some ended /\
  forall now ctx upd, (InMemory.handler now _ (UpdateTerminal ctx "op_0" upd) (serve calls m)).1 =
    Some ErrAlreadyTerminal.
Proof.
  intros ended upd calls m. apply (terminal_is_final calls m "op_0" ended).
  - repeat constructor; cbn; discriminate || tauto.
  - reflexivity.
  - discriminate.
Defined.

(** ** Samples *)

(** A deployment whose only container has an empty name makes [Rollout] panic:
[resolveErr.Error()] is called on a nil error. *)
Example rollout_empty_container_panics :
  (run (sim (fun _ => Ok {|
       Generation := 1; Spec_Replicas := Some 1; ProgressDeadlineSeconds := None;
       Containers := [{| Container_Name := ""; Container_Image := "busybox" |}];
       ObservedGeneration := 1; Replicas := 1; UpdatedReplicas := 1; ReadyReplicas := 1;
       AvailableReplicas := 1; Conditions := [] |}) None)
     (Rollout Background octocat "app" "api" "" "busybox:2") idle_world).1 =
  Halted (Panicked "invalid memory address or nil pointer dereference").
Proof. vm_compute. reflexivity. Qed.

(** A refused patch leaves a failed operation behind. *)
Example refused_patch_is_recorded :
  let r := run (sim (fun _ => Ok (surge 2 2 1)) (Some (ErrText "forbidden")))
             (Restart Background octocat "app" "api") idle_world in
  r.1 = Done ("op_", Some (ErrWrap "patch deployment: " (ErrText "forbidden") "")) /\
  (Status <$> ops r.2 !! "op_") = Some StatusFailed.
Proof. vm_compute. split; reflexivity. Qed.
