(* ===== verification/Api.v ===== *)
(** * The HTTP API

[internal/api]: authentication, the three-outcome authorization, the handlers
and the route table.  A handler is a program over [apiE]: the calls of the
operation manager ([AM]), the two interfaces it is given (token verifier,
authorizer) and the [http.ResponseWriter]. *)

From S2P Require Import Prelude GoStrings GoRuntime GoNet GoJson Effects Authz Authn Kube Store Notify Manager.

Local Open Scope string_scope.
Local Open Scope list_scope.
Local Open Scope Z_scope.

(** ** Calls *)

Inductive apiE : Type -> Type :=
  | AM {X} (e : mgrE X) : apiE X
  (** [d.Verifier.Verify] *)
  | AVerify (ctx : Context) (rawToken : string) : apiE (result error GitHubIdentity)
  (** [d.Authz.Authorize] *)
  | AAuthorize (ctx : Context) (req : Request) : apiE (Authz.Decision * option error)
  (** [rc.Ready] *)
  | AReady (ctx : Context) : apiE (option error)
  (** [w.Header().Set("Content-Type", "application/json")] *)
  | ASetJSON : apiE unit
  | AWriteHeader (status : Z) : apiE unit
  | AWrite (text : string) : apiE unit.

#[export] Instance Sub_mgr_api : Sub mgrE apiE := @AM.
#[export] Instance Sub_store_api : Sub storeE apiE := fun X e => AM (MStore e).
#[export] Instance Sub_rt_api : Sub rtE apiE := fun X e => AM (MRt e).

Definition api_log (l : level) (msg : string) : prog apiE unit := trigger (LogLine l msg).

(** A call into the operation manager. *)
Definition of_manager {A} (p : prog mgrE A) : prog apiE A := hoist (@AM) p.

(** ** Requests and dependencies *)

(** What the handlers read of an [*http.Request]. *)
Record HRequest : Type := {
  R_Context : Context;
  (** [r.Header.Get("Authorization")] *)
  R_Authorization : string;
  (** the bytes of the body that arrive, and whether the connection breaks after them *)
  R_Body : string;
  R_Broken : bool;
  (** [chi.URLParam(r, "operation_id")] *)
  R_OperationID : string;
}.

Record Deps : Type := {
  AuthzTimeout : Z;
  (** the authorizer implements [ReadinessChecker] *)
  ChecksReadiness : bool;
}.

Definition defaultAuthzTimeout : Z := 7 * Second.

(** ** Responses *)

Definition error_body (code msg : string) : json :=
  JObj [("error", JObj [("code", JStr code); ("message", JStr msg)])].

Definition writeError (status : Z) (code msg : string) : prog apiE unit :=
  call ASetJSON ;; call (AWriteHeader status) ;; call (AWrite (EncodeLine (error_body code msg))).

(** The operation exists but its patch failed. *)
Definition writePatchFailed (opID : string) : prog apiE unit :=
  call ASetJSON ;; call (AWriteHeader 502) ;;
  call (AWrite (EncodeLine (JObj
    [("error", JObj [("code", JStr "K8S_UNAVAILABLE");
                     ("message", JStr "kubernetes api call failed")]);
     ("operation_id", JStr opID)]))).

Definition writeAccepted (opID : string) : prog apiE unit :=
  call ASetJSON ;; call (AWriteHeader 202) ;;
  call (AWrite (EncodeLine (JObj [("operation_id", JStr opID); ("status", JStr "running")]))).

(** ** Authentication *)

Definition bearer : string := "Bearer ".

(** [authenticate(next)], [next] taking the identity the context carries. *)
Definition authenticate (next : GitHubIdentity -> HRequest -> prog apiE unit) (r : HRequest) :
    prog apiE unit :=
  if HasPrefix (R_Authorization r) bearer then
    v ← call (AVerify (R_Context r) (TrimPrefix (R_Authorization r) bearer));
    match v with
    | Err _ =>
        api_log LWarn "token rejected" ;;
        writeError 401 "UNAUTHENTICATED" "invalid token"
    | Ok id => next id r
    end
  else writeError 401 "UNAUTHENTICATED" "missing bearer token".

(** ** Authorization *)

Definition denied_op (id : GitHubIdentity) (action namespace deployment container image reason : string)
    (opID : string) (now : Z) : Operation := {|
  OperationID := opID; Store.Repository := Id_Repository id;
  RepositoryID := Id_RepositoryID id; RepositoryOwner := Id_RepositoryOwner id;
  Actor := Id_Actor id; Workflow := Id_Workflow id; WorkflowRef := Id_WorkflowRef id;
  RunID := Id_RunID id; RunAttempt := Id_RunAttempt id; EventName := Id_EventName id;
  Action := action; Namespace := namespace; Store.Deployment := deployment;
  Op_Container := container; Image := image; NsDep := namespace +:+ "#" +:+ deployment;
  Status := StatusDenied; ErrorCode := "DENIED"; ErrorMessage := reason;
  RequestedAt := now; CompletedAt := None; ExpiresAt := expires_at now;
  Events := [{| Event := "DENIED"; At := now |}] |}.

Definition recordDenied (ctx : Context) (id : GitHubIdentity)
    (action namespace deployment container image reason : string) : prog apiE unit :=
  now ← trigger TimeNow;
  opID ← of_manager NewOperationID;
  err ← trigger (PutOperation ctx
          (denied_op id action namespace deployment container image reason opID now));
  (match err with
   | Some _ => api_log LError "denied audit write failed"
   | None => mret tt
   end) ;;
  api_log LWarn "denied".

Definition authz_request (id : GitHubIdentity) (action namespace deployment : string) : Request :=
  {| Req_Repository := Id_Repository id; Req_Action := action; Req_Namespace := namespace;
     Req_Deployment := deployment; Req_Ref := Id_Ref id |}.

Definition authorize (d : Deps) (r : HRequest) (id : GitHubIdentity)
    (action namespace deployment container image : string) : prog apiE bool :=
  let timeout := if AuthzTimeout d =? 0 then defaultAuthzTimeout else AuthzTimeout d in
  ctx ← WithTimeout (R_Context r) timeout;
  '(dec, err) ← call (AAuthorize ctx (authz_request id action namespace deployment));
  match err with
  | Some _ =>
      api_log LError "authorization unavailable" ;;
      writeError 503 "AUTHZ_UNAVAILABLE" "authorization service unavailable" ;;
      mret false
  | None =>
      if Allowed dec then mret true
      else
        recordDenied (R_Context r) id action namespace deployment container image (Reason dec) ;;
        writeError 403 "FORBIDDEN" "not allowed" ;;
        mret false
  end.

(** ** Handlers *)

Record RolloutBody : Type := {
  B_Namespace : string; B_Deployment : string; B_Container : string; B_Image : string }.

Definition no_body : RolloutBody :=
  {| B_Namespace := ""; B_Deployment := ""; B_Container := ""; B_Image := "" |}.

Definition restart_fields : list (string * decoder RolloutBody) :=
  [("namespace", fun j v => s ← dec_string j (B_Namespace v);
      mret {| B_Namespace := s; B_Deployment := B_Deployment v;
              B_Container := B_Container v; B_Image := B_Image v |});
   ("deployment", fun j v => s ← dec_string j (B_Deployment v);
      mret {| B_Namespace := B_Namespace v; B_Deployment := s;
              B_Container := B_Container v; B_Image := B_Image v |})].

Definition rollout_fields : list (string * decoder RolloutBody) :=
  restart_fields ++
  [("container", fun j v => s ← dec_string j (B_Container v);
      mret {| B_Namespace := B_Namespace v; B_Deployment := B_Deployment v;
              B_Container := s; B_Image := B_Image v |});
   ("image", fun j v => s ← dec_string j (B_Image v);
      mret {| B_Namespace := B_Namespace v; B_Deployment := B_Deployment v;
              B_Container := B_Container v; B_Image := s |})].

(** Decoding the body; a restart has no container and no image. *)
Definition decode_body (fields : list (string * decoder RolloutBody)) (r : HRequest) :
    option RolloutBody :=
  match DecodeBody (R_Body r) (R_Broken r) with Some j => dec_struct fields j no_body | None => None end.

(** The body of a restart, when it is complete. *)
Definition restart_body (r : HRequest) : option RolloutBody :=
  match decode_body restart_fields r with
  | Some b => if decide (B_Namespace b = "" \/ B_Deployment b = "") then None else Some b
  | None => None
  end.

Definition rollout_body (r : HRequest) : option RolloutBody :=
  match decode_body rollout_fields r with
  | Some b =>
      if decide (B_Namespace b = "" \/ B_Deployment b = "" \/ B_Image b = "") then None else Some b
  | None => None
  end.

Definition handleRestart (d : Deps) (id : GitHubIdentity) (r : HRequest) : prog apiE unit :=
  match restart_body r with
  | None => writeError 400 "INVALID_REQUEST" "namespace and deployment are required"
  | Some b =>
      ok ← authorize d r id ActionRestart (B_Namespace b) (B_Deployment b) "" "";
      if (ok : bool) then
        '(opID, err) ← of_manager (Restart (R_Context r) id (B_Namespace b) (B_Deployment b));
        match err with
        | Some _ =>
            if decide (opID = "") then
              writeError 503 "STORE_UNAVAILABLE" "operation could not be recorded"
            else writePatchFailed opID
        | None => writeAccepted opID
        end
      else mret tt
  end.

Definition handleRollout (d : Deps) (id : GitHubIdentity) (r : HRequest) : prog apiE unit :=
  match rollout_body r with
  | None => writeError 400 "INVALID_REQUEST" "namespace, deployment and image are required"
  | Some b =>
      ok ← authorize d r id ActionRollout (B_Namespace b) (B_Deployment b) (B_Container b) (B_Image b);
      if (ok : bool) then
        '(opID, err) ← of_manager (Rollout (R_Context r) id (B_Namespace b) (B_Deployment b)
                                     (B_Container b) (B_Image b));
        match err with
        | Some err =>
            if error_Is err ErrAmbiguousContainer then
              writeError 400 "AMBIGUOUS_CONTAINER" (error_Error ErrAmbiguousContainer)
            else if decide (opID = "") then
              writeError 503 "STORE_UNAVAILABLE" "operation could not be recorded"
            else writePatchFailed opID
        | None => writeAccepted opID
        end
      else mret tt
  end.

Definition errBody (op : Operation) : json :=
  if decide (ErrorCode op = "") then JNull
  else JObj [("code", JStr (ErrorCode op)); ("message", JStr (ErrorMessage op))].

Definition operation_body (op : Operation) : json :=
  JObj [("action", JStr (Action op)); ("deployment", JStr (Store.Deployment op));
        ("error", errBody op); ("namespace", JStr (Namespace op));
        ("operation_id", JStr (OperationID op)); ("status", JStr (Status op))].

(** The authenticated identity is not consulted. *)
Definition handleGetOperation (id : GitHubIdentity) (r : HRequest) : prog apiE unit :=
  g ← of_manager (Get (R_Context r) (R_OperationID r));
  match g with
  | Err err =>
      if error_Is err ErrNotFound then writeError 404 "NOT_FOUND" "operation not found"
      else writeError 503 "STORE_UNAVAILABLE" "operation store unavailable"
  | Ok op => call ASetJSON ;; call (AWrite (EncodeLine (operation_body op)))
  end.

Definition handleReadyz (d : Deps) (r : HRequest) : prog apiE unit :=
  err ← trigger (Ping (R_Context r));
  match err with
  | Some _ =>
      api_log LError "readiness check failed" ;;
      writeError 503 "STORE_UNAVAILABLE" "store not reachable"
  | None =>
      err ← (if ChecksReadiness d then call (AReady (R_Context r)) else mret None);
      match err with
      | Some _ =>
          api_log LError "readiness check failed" ;;
          writeError 503 "AUTHZ_UNAVAILABLE" "authorization service not reachable"
      | None => call (AWrite "ok")
      end
  end.

Definition handleHealthz (r : HRequest) : prog apiE unit := call (AWrite "ok").

(** ** Routes

The matching of paths, panics turned into 500 and the 30 s deadline of a request
are those of the chi router. *)

Inductive route : Type := Healthz | Readyz | PostRestart | PostRollout | GetOp.

Definition NewRouter : list (string * string * route) :=
  [("GET", "/healthz", Healthz);
   ("GET", "/readyz", Readyz);
   ("POST", "/v1/deployments/restart", PostRestart);
   ("POST", "/v1/deployments/rollout", PostRollout);
   ("GET", "/v1/operations/{operation_id}", GetOp)].

Definition handle (d : Deps) (rt : route) : HRequest -> prog apiE unit :=
  match rt with
  | Healthz => handleHealthz
  | Readyz => handleReadyz d
  | PostRestart => authenticate (handleRestart d)
  | PostRollout => authenticate (handleRollout d)
  | GetOp => authenticate handleGetOperation
  end.
