(* ===== verification/ApiSpec.v ===== *)
(** * The HTTP API: who gets what

No patch without authorization, one response per request, and what every handler
answers and records on every branch. *)

From S2P Require Import Prelude GoStrings GoRuntime GoNet GoJson GoJsonSpec Effects Authz Authn Kube Store Notify Manager ManagerSpec Api.

Local Open Scope string_scope.
Local Open Scope list_scope.
Local Open Scope Z_scope.

(** ** Symbolic execution *)

Ltac api_unfold :=
  cbv beta delta [mbind mret prog_bind prog_ret api_log trigger call inj WithTimeout
    Sub_mgr_api Sub_store_api Sub_rt_api writeError writePatchFailed writeAccepted].

Ltac api_wp := api_unfold; cbn [wp bind].

(** ** No patch without authorization *)

(** The patches a program of the manager may send. *)
Definition patch_pre (P : Patch -> Prop) X (e : mgrE X) : Prop :=
  match e with
  | MKube e =>
      match e with
      | RestartDeployment _ ns name => P (PRestart ns name)
      | RolloutDeployment _ ns name c i => P (PRollout ns name c i)
      | _ => True
      end
  | _ => True
  end.

Definition patch_only (P : Patch -> Prop) : spec mgrE unit :=
  {| spec_pre := fun X e _ => patch_pre P X e; spec_post := fun _ _ _ _ _ => True |}.

Definition anything {A S} : outcome A -> S -> Prop := fun _ _ => True.

(** Walking through a program with nothing to remember. *)
Ltac po_auto :=
  repeat first
    [ exact I
    | progress cbn [wp bind anything]
    | match goal with |- _ /\ _ => split; [first [exact I | reflexivity]|] end
    | intros ? [] _
    | case_match ].

Lemma po_fail P op msg code text :
  wp (patch_only P) (failOperation op msg code text) anything tt.
Proof. unfold failOperation, resolve, logTerminalWriteErr, log. wp_unfold. po_auto. Qed.

Lemma po_seq {A B} P (p : prog mgrE A) (f : A -> prog mgrE B) :
  wp (patch_only P) p anything tt ->
  (forall a, wp (patch_only P) (f a) anything tt) ->
  wp (patch_only P) (bind p f) anything tt.
Proof.
  intros Hp Hf. apply wp_bind. revert Hp. apply wp_mono. intros [a|s] []; [|done]. intros _.
  apply Hf.
Qed.

Lemma po_start ctx op patch_call P started :
  patch_pre P _ (MKube patch_call) ->
  wp (patch_only P) (start_body ctx op patch_call started) anything tt.
Proof.
  intros Hp. unfold start_body. wp_unfold. split; [exact I|]. intros err [] _.
  destruct err as [err|]; cbn [wp]; [done|]. split; [exact Hp|]. intros err [] _.
  destruct err as [err|]; [|po_auto]. apply po_seq; [apply po_fail|done].
Qed.

Lemma po_Restart ctx id ns dep :
  wp (patch_only (eq (PRestart ns dep))) (Restart ctx id ns dep) anything tt.
Proof.
  unfold Restart. wp_unfold. split; [exact I|]. intros now [] _. split; [exact I|]. intros u [] _.
  refine (po_start ctx (requested_op ActionRestart id ns dep "" "" (id_of_ulid u) now)
           (RestartDeployment ctx ns dep) _ "restart started" _). reflexivity.
Qed.

(** The image patches of a rollout: the container asked for, or the one found. *)
Definition rollout_patch (ns dep container image : string) (p : Patch) : Prop :=
  exists c, p = PRollout ns dep c image /\ (container = "" \/ c = container).

Lemma po_rollout_with P ctx id ns dep c image :
  P (PRollout ns dep c image) ->
  wp (patch_only P) (rollout_with ctx id ns dep c image) anything tt.
Proof.
  intros HP. unfold rollout_with. wp_unfold.
  split; [exact I|]. intros now [] _. split; [exact I|]. intros u [] _.
  refine (po_start ctx (requested_op ActionRollout id ns dep c image (id_of_ulid u) now)
           (RolloutDeployment ctx ns dep c image) _ "rollout started" _). exact HP.
Qed.

Lemma po_Rollout ctx id ns dep container image :
  wp (patch_only (rollout_patch ns dep container image))
    (Rollout ctx id ns dep container image) anything tt.
Proof.
  unfold Rollout. case_decide as Hc; [|apply po_rollout_with; exists container; auto].
  subst container. apply po_seq; [unfold resolveContainer; wp_unfold; po_auto|].
  intros [resolved resolveErr]. destruct (errors_Is _ _); [done|]. case_decide.
  - destruct resolveErr as [err|]; [|done]. apply po_seq; [|done].
    unfold recordFailedRollout. wp_unfold. split; [exact I|]. intros now [] _.
    split; [exact I|]. intros u [] _. split; [exact I|]. intros perr [] _.
    destruct perr; [po_auto|]. apply po_seq; [apply po_fail|done].
  - apply po_rollout_with. exists resolved. auto.
Qed.

Lemma po_Get P ctx opID : wp (patch_only P) (Get ctx opID) anything tt.
Proof.
  assert (forall op, wp (patch_only P) (resolveRunning ctx op) anything tt) as Hres.
  { intros op. unfold resolveRunning, completeOperation, failOperation, timeoutOperation, resolve,
      logTerminalWriteErr, log. wp_unfold. split; [exact I|]. intros r [] _.
    destruct r as [dep|err]; [destruct (Eval_State _); po_auto|].
    destruct (error_Is _ _); po_auto. }
  unfold Get. wp_unfold. split; [exact I|]. intros r [] _. destruct r as [op|err]; [|done].
  case_decide; [|done]. wp_unfold. split; [exact I|]. intros now [] _.
  destruct (_ <? _); [|done]. apply po_seq; [apply Hres|]. intros []. wp_unfold. po_auto.
Qed.

(** [who]: the identity the verifier vouched for; [granted]: the questions the
authorizer answered with "allowed" and no error. *)
Record Gate : Type := { who : option GitHubIdentity; granted : list Request }.

Definition gate0 : Gate := {| who := None; granted := [] |}.

Definition covers (req : Request) (p : Patch) : Prop :=
  match p with
  | PRestart ns dep =>
      Req_Action req = ActionRestart /\ Req_Namespace req = ns /\ Req_Deployment req = dep
  | PRollout ns dep _ _ =>
      Req_Action req = ActionRollout /\ Req_Namespace req = ns /\ Req_Deployment req = dep
  end.

Definition gate_pre (r : HRequest) X (e : apiE X) (g : Gate) : Prop :=
  match e with
  | AM e => patch_pre (fun p => exists req, req ∈ granted g /\ covers req p) _ e
  | AVerify _ raw => R_Authorization r = bearer +:+ raw
  | AAuthorize _ req => exists id, who g = Some id /\
      Req_Repository req = Id_Repository id /\ Req_Ref req = Id_Ref id
  | _ => True
  end.

Definition gate_step X (e : apiE X) (g : Gate) : X -> Gate -> Prop :=
  match e in apiE X return X -> Gate -> Prop with
  | AVerify _ _ => fun x g' =>
      g' = match x with Ok id => {| who := Some id; granted := granted g |} | Err _ => g end
  | AAuthorize _ req => fun x g' =>
      g' = match x.2 with
           | None => if Allowed x.1 then {| who := who g; granted := req :: granted g |} else g
           | Some _ => g
           end
  | _ => fun _ g' => g' = g
  end.

Definition gate (r : HRequest) : spec apiE Gate :=
  {| spec_pre := gate_pre r; spec_post := gate_step |}.

Ltac gate_call x :=
  split; [try exact I|];
  let g' := fresh "g'" in let H := fresh "Hg" in
  intros x g' H; cbn [gate spec_post gate_step] in H; subst g'.

Ltac gate_calls := repeat (cbn [bind wp]; let x := fresh "x" in gate_call x); cbn.

(** Programs of the manager whose patches are covered. *)
Lemma gate_manager {A} (p : prog mgrE A) P r g Q :
  (forall p, P p -> exists req, req ∈ granted g /\ covers req p) ->
  wp (patch_only P) p anything tt ->
  (forall o, Q o g) -> wp (gate r) (of_manager p) Q g.
Proof.
  intros Hcov Hp HQ.
  apply (wp_simulate (@AM) (patch_only P) (gate r) (fun _ g' => g' = g) _ anything Q tt); [| |done|done].
  - intros X e [] g' -> Hpre. split.
    + destruct e as [X e|X e|X e|X e| | | | | | |]; try exact I.
      destruct e; try exact I; by apply Hcov.
    + intros x g'' Hg. exists tt. by split.
  - by intros o [] g' ->.
Qed.

Lemma gate_write r status code msg g Q :
  Q (Done tt) g -> wp (gate r) (writeError status code msg) Q g.
Proof. intros HQ. api_wp. gate_call x. gate_call y. gate_call z. by destruct z. Qed.

Lemma gate_log r l msg g Q : Q (Done tt) g -> wp (gate r) (api_log l msg) Q g.
Proof. intros HQ. api_wp. gate_call x. by destruct x. Qed.

Lemma gate_accepted r opID g Q : Q (Done tt) g -> wp (gate r) (writeAccepted opID) Q g.
Proof. intros HQ. api_wp. gate_call x. gate_call y. gate_call z. by destruct z. Qed.

Lemma gate_patch_failed r opID g Q : Q (Done tt) g -> wp (gate r) (writePatchFailed opID) Q g.
Proof. intros HQ. api_wp. gate_call x. gate_call y. gate_call z. by destruct z. Qed.

Lemma gate_authorize d r id action ns dep c image g :
  who g = Some id ->
  wp (gate r) (authorize d r id action ns dep c image)
    (returning (fun ok g' => ok = true -> authz_request id action ns dep ∈ granted g')) g.
Proof.
  intros Hwho. unfold authorize. api_wp. gate_call now. split; [by exists id|].
  intros [dec err] g' Hg. cbn [gate spec_post gate_step fst snd] in Hg.
  destruct err as [err|]; [subst g'|destruct (Allowed dec); subst g'].
  - by gate_calls.
  - simpl. intros _. by left.
  - unfold recordDenied. api_unfold. cbn [bind wp]. gate_call now2. gate_call u. gate_call perr.
    destruct perr; by gate_calls.
Qed.

(** No patch without authorization.  Whatever is sent, on every route: a
deployment is patched only after the authorizer allowed that very action on that
very deployment to the repository and ref of the identity the verifier gave for
the bearer token of the request. *)
Theorem no_patch_without_authorization d rt r :
  wp (gate r) (handle d rt r) anything gate0.
Proof.
  assert (forall next, (forall id g, who g = Some id -> wp (gate r) (next id r) anything g) ->
            wp (gate r) (authenticate next r) anything gate0) as Hauth.
  { intros next Hnext. unfold authenticate. destruct (HasPrefix _ _) eqn:Hp; [|by apply gate_write].
    apply HasPrefix_true in Hp as [raw Hraw]. rewrite Hraw, TrimPrefix_app.
    api_wp. split; [exact Hraw|]. intros v g' Hg. cbn [gate spec_post gate_step] in Hg. subst g'.
    destruct v as [id|err]; [by apply Hnext|]. by gate_calls. }
  destruct rt; cbn [handle].
  - unfold handleHealthz. api_wp. by gate_call x.
  - unfold handleReadyz. api_unfold. cbn [bind wp]. gate_call err. destruct err; [by gate_calls|].
    destruct (ChecksReadiness d); cbn [bind wp]; [|by gate_call x]. gate_call x.
    destruct x; by gate_calls.
  - apply Hauth. intros id g Hwho. unfold handleRestart.
    destruct (restart_body r) as [b|]; [|by apply gate_write].
    eapply wp_seq; [by apply gate_authorize|]. intros ok g' Hok. destruct ok; [|done].
    apply wp_bind. eapply (gate_manager _ _ _ _ _); [|apply po_Restart|].
    + intros p <-. eexists. split; [by apply Hok|]. done.
    + intros [[opID err]|s]; [|done]. destruct err; [case_decide|].
      * by apply gate_write.
      * by apply gate_patch_failed.
      * by apply gate_accepted.
  - apply Hauth. intros id g Hwho. unfold handleRollout.
    destruct (rollout_body r) as [b|]; [|by apply gate_write].
    eapply wp_seq; [by apply gate_authorize|]. intros ok g' Hok. destruct ok; [|done].
    apply wp_bind. eapply (gate_manager _ _ _ _ _); [|apply po_Rollout|].
    + intros p (c & -> & _). eexists. split; [by apply Hok|]. done.
    + intros [[opID err]|s]; [|done]. destruct err; [destruct (error_Is _ _); [|case_decide]|].
      * by apply gate_write.
      * by apply gate_write.
      * by apply gate_patch_failed.
      * by apply gate_accepted.
  - apply Hauth. intros id g Hwho. unfold handleGetOperation. apply wp_bind.
    eapply (gate_manager _ (fun _ => False)); [done|apply po_Get|].
    intros [[op|err]|s]; [| |done].
    + api_unfold. by gate_calls.
    + destruct (error_Is _ _); by apply gate_write.
Qed.

(** ** The world of a handler *)

(** What the authorizer and the verifier were asked and answered. *)
Inductive Asked : Type :=
  | QVerify (raw : string) (x : result error GitHubIdentity)
  | QAuthorize (req : Request) (x : Authz.Decision * option error)
  | QReady (x : option error).

(** The response so far: JSON content type, status line, body. *)
Record AWorld : Type := mkA {
  mw : World;
  asked : list Asked;
  as_json : bool;
  status_line : option Z;
  written : list string;
}.

Definition with_mw (w : World) (a : AWorld) : AWorld :=
  mkA w (asked a) (as_json a) (status_line a) (written a).
Definition ask (q : Asked) (a : AWorld) : AWorld :=
  mkA (mw a) (q :: asked a) (as_json a) (status_line a) (written a).
Definition set_json (a : AWorld) : AWorld :=
  mkA (mw a) (asked a) true (status_line a) (written a).
(** The first status line counts. *)
Definition write_header (s : Z) (a : AWorld) : AWorld :=
  mkA (mw a) (asked a) (as_json a)
    (match status_line a with Some s' => Some s' | None => Some s end) (written a).
(** A body without a status line is a 200. *)
Definition write_body (b : string) (a : AWorld) : AWorld :=
  let a' := write_header 200 a in
  mkA (mw a') (asked a') (as_json a') (status_line a') (written a' ++ [b]).

(** A whole JSON response. *)
Definition respond (s : Z) (j : json) (a : AWorld) : AWorld :=
  write_body (EncodeLine j) (write_header s (set_json a)).

Definition api_post X (e : apiE X) (a : AWorld) : X -> AWorld -> Prop :=
  match e in apiE X return X -> AWorld -> Prop with
  | AM e => fun x a' => exists w', mgr_post _ e (mw a) x w' /\ a' = with_mw w' a
  | AVerify _ raw => fun x a' => a' = ask (QVerify raw x) a
  | AAuthorize _ req => fun x a' => a' = ask (QAuthorize req x) a
  | AReady _ => fun x a' => a' = ask (QReady x) a
  | ASetJSON => fun _ a' => a' = set_json a
  | AWriteHeader s => fun _ a' => a' = write_header s a
  | AWrite b => fun _ a' => a' = write_body b a
  end.

Definition api_env : spec apiE AWorld :=
  {| spec_pre := fun _ _ _ => True; spec_post := api_post |}.

Ltac api_call x a' H :=
  split; [exact I|]; intros x a' H;
  cbn [api_env spec_post api_post mgr_post rt_post] in H.

(** The manager's specifications carry over. *)
Lemma of_manager_wp {A} (p : prog mgrE A) Q a :
  wp mgr_env p Q (mw a) ->
  wp api_env (of_manager p) (fun o a' => exists w', Q o w' /\ a' = with_mw w' a) a.
Proof.
  intros Hp. apply (wp_simulate (@AM) mgr_env api_env (fun w a' => a' = with_mw w a) p Q _ (mw a) a);
    [| |by destruct a|exact Hp].
  - intros X e w a' -> _. split; [exact I|]. intros x a'' (w' & Hw & ->). by exists w'.
  - intros o w a' -> HQ. by exists w.
Qed.

Lemma writeError_wp s code msg a Q :
  Q (Done tt) (respond s (error_body code msg) a) -> wp api_env (writeError s code msg) Q a.
Proof.
  intros HQ. api_wp. api_call x a1 H; subst a1. api_call y a1 H; subst a1. api_call z a1 H; subst a1.
  by destruct z.
Qed.

Lemma api_log_wp l msg a Q : Q (Done tt) a -> wp api_env (api_log l msg) Q a.
Proof.
  intros HQ. api_wp. api_call x a1 H. destruct H as (w' & -> & ->).
  destruct x. by destruct a.
Qed.

(** ** Starting a deployment *)

(** How an authorization ends: allowed; unavailable, and answered 503 without a
row; denied, and answered 403 once the denied row was put in the store, which may have
failed. *)
Definition authorized (id : GitHubIdentity) (action ns dep c image : string) (a : AWorld)
    (ok : bool) (a' : AWorld) : Prop :=
  exists t ans, clock (mw a) <= t /\
    let req := authz_request id action ns dep in
    let a1 := ask (QAuthorize req ans) (with_mw (set_clock t (mw a)) a) in
    match ans with
    | (_, Some _) => ok = false /\
        a' = respond 503 (error_body "AUTHZ_UNAVAILABLE" "authorization service unavailable") a1
    | (dec, None) =>
        if Allowed dec then ok = true /\ a' = a1
        else ok = false /\ exists op opID now w',
          op = denied_op id action ns dep c image (Reason dec) opID now /\
          fresh_op (mw a1) op /\
          (w' = persisted op (mw a1) \/ exists e, not_persisted op e (mw a1) w') /\
          a' = respond 403 (error_body "FORBIDDEN" "not allowed") (with_mw w' a1)
    end.

Lemma authorize_wp d r id action ns dep c image a :
  wp api_env (authorize d r id action ns dep c image)
    (returning (authorized id action ns dep c image a)) a.
Proof.
  unfold authorize. api_unfold. cbn [bind wp]. api_call t a1 H.
  destruct H as (w' & [Ht ->] & ->). api_call ans a2 H. subst a2.
  destruct ans as [dec [err|]].
  - api_call x a1 H. destruct H as (w' & -> & ->). api_call y a1 H; subst a1.
    api_call y2 a1 H; subst a1. api_call y3 a1 H; subst a1.
    exists t, (dec, Some err). by split.
  - destruct (Allowed dec) eqn:Hal.
    + exists t, (dec, None). split; [done|]. simpl. by rewrite Hal.
    + unfold recordDenied. api_unfold. cbn [bind wp of_manager hoist].
      api_call now a1 H. destruct H as (w' & [Hnow ->] & ->).
      api_call u a1 H. destruct H as (w' & [Hu ->] & ->).
      api_call perr a1 H. destruct H as (w' & (m & Hm & ->) & ->). cbn [store_post] in Hm.
      set (op := denied_op id action ns dep c image (Reason dec) (id_of_ulid u) now).
      assert (forall a2, a2 = respond 403 (error_body "FORBIDDEN" "not allowed")
        (with_mw (did_store (DidPut op perr) m (drawn op (set_clock t (mw a))))
           (ask (QAuthorize (authz_request id action ns dep) (dec, None)) 
              (with_mw (set_clock t (mw a)) a))) ->
        authorized id action ns dep c image a false a2) as Hend.
      { intros a2 ->. exists t, (dec, None). split; [done|]. cbn zeta. rewrite Hal.
        split; [done|]. exists op, (id_of_ulid u), now. eexists. split; [done|].
        split; [by split|]. split; [|done].
        destruct perr as [e|]; [right; exists e; by exists m|left; by subst m]. }
      destruct perr; cbn [bind wp].
      * api_call x a1 H. destruct H as (w' & -> & ->). api_call x2 a1 H.
        destruct H as (w' & -> & ->). api_call y a1 H; subst a1. api_call y2 a1 H; subst a1.
        api_call y3 a1 H; subst a1. by apply Hend.
      * api_call x2 a1 H.
        destruct H as (w' & -> & ->). api_call y a1 H; subst a1. api_call y2 a1 H; subst a1.
        api_call y3 a1 H; subst a1. by apply Hend.
Qed.

(** The response to the outcome of a start. *)
Definition start_response (r : string * option error) (a : AWorld) : AWorld :=
  match r.2 with
  | None => respond 202 (JObj [("operation_id", JStr r.1); ("status", JStr "running")]) a
  | Some _ =>
      if decide (r.1 = "") then
        respond 503 (error_body "STORE_UNAVAILABLE" "operation could not be recorded") a
      else respond 502 (JObj
        [("error", JObj [("code", JStr "K8S_UNAVAILABLE");
                         ("message", JStr "kubernetes api call failed")]);
         ("operation_id", JStr r.1)]) a
  end.

Lemma start_response_wp (r : string * option error) a Q :
  Q (Done tt) (start_response r a) ->
  wp api_env (match r.2 with
              | Some _ =>
                  if decide (r.1 = "") then
                    writeError 503 "STORE_UNAVAILABLE" "operation could not be recorded"
                  else writePatchFailed r.1
              | None => writeAccepted r.1
              end) Q a.
Proof.
  intros HQ. unfold start_response in HQ. destruct r as [opID [err|]]; cbn [fst snd] in *.
  - case_decide as Hid; [by apply writeError_wp|].
    api_wp. api_call x a1 H; subst a1. api_call y a1 H; subst a1. api_call z a1 H; subst a1.
    by destruct z.
  - api_wp. api_call x a1 H; subst a1. api_call y a1 H; subst a1.
    api_call z a1 H; subst a1. by destruct z.
Qed.

(** C12: [POST /v1/deployments/restart], every branch: 400 for an incomplete body; 503
without a trace when no decision could be reached; 403 for a denial, after its audit row
was put or the store failed to; and otherwise a restart answered 202, 502 (patch refused,
the operation's one terminal write made) or 503 (nothing recorded, nothing patched).  The
world tells every call of the store with its answer, every patch and every notice. *)
Theorem handleRestart_spec d id r a :
  wp api_env (handleRestart d id r) (returning (fun _ a' =>
    match restart_body r with
    | None =>
        a' = respond 400 (error_body "INVALID_REQUEST" "namespace and deployment are required") a
    | Some b => exists ok a1,
        authorized id ActionRestart (B_Namespace b) (B_Deployment b) "" "" a ok a1 /\
        if (ok : bool) then exists op rr w',
          (exists opID now,
             op = requested_op ActionRestart id (B_Namespace b) (B_Deployment b) "" "" opID now) /\
          fresh_op (mw a1) op /\
          start_outcome op (PRestart (B_Namespace b) (B_Deployment b)) (mw a1) rr w' /\
          a' = start_response rr (with_mw w' a1)
        else a' = a1
    end)) a.
Proof.
  unfold handleRestart. destruct (restart_body r) as [b|]; [|by apply writeError_wp].
  eapply wp_seq; [apply authorize_wp|]. intros ok a1 Hok. destruct ok.
  - apply wp_bind. eapply wp_mono; [|apply of_manager_wp, Restart_wp].
    intros o a2 (w' & HQ & ->). apply returning_done in HQ as ([opID err] & -> & op & Hop & Hf & Hs).
    apply (start_response_wp (opID, err)). simpl. exists true, a1. split; [done|]. eauto 10.
  - simpl. by exists false, a1.
Qed.

(** The response to a rollout: as above, but 400 for an ambiguous container. *)
Definition rollout_response (rr : string * option error) (a : AWorld) : AWorld :=
  if errors_Is rr.2 ErrAmbiguousContainer then
    respond 400 (error_body "AMBIGUOUS_CONTAINER" (error_Error ErrAmbiguousContainer)) a
  else start_response rr a.

(** C13: [POST /v1/deployments/rollout], every branch, told as for a restart: the audit row
of a denial, the terminal write of a rollout that failed before or at its patch, the 400
for an ambiguous container and the panic of [Rollout] on an unnamed one included. *)
Theorem handleRollout_spec d id r a :
  wp api_env (handleRollout d id r) (fun o a' =>
    match rollout_body r with
    | None => o = Done tt /\
        a' = respond 400
               (error_body "INVALID_REQUEST" "namespace, deployment and image are required") a
    | Some b => exists ok a1,
        authorized id ActionRollout (B_Namespace b) (B_Deployment b) (B_Container b) (B_Image b)
          a ok a1 /\
        if (ok : bool) then exists oo w',
          rollout_outcome id (B_Namespace b) (B_Deployment b) (B_Container b) (B_Image b)
            (mw a1) oo w' /\
          match oo with
          | Done rr => o = Done tt /\ a' = rollout_response rr (with_mw w' a1)
          | Halted s => o = Halted s /\ a' = with_mw w' a1
          end
        else o = Done tt /\ a' = a1
    end) a.
Proof.
  unfold handleRollout. destruct (rollout_body r) as [b|]; [|by apply writeError_wp].
  eapply wp_seq; [apply authorize_wp|]. intros ok a1 Hok. destruct ok.
  - apply wp_bind. eapply wp_mono; [|apply of_manager_wp, Rollout_wp].
    intros o a2 (w' & HQ & ->). destruct o as [[opID err]|s].
    + assert (forall a', a' = rollout_response (opID, err) (with_mw w' a1) ->
        exists ok a1, authorized id ActionRollout (B_Namespace b) (B_Deployment b) (B_Container b)
            (B_Image b) a ok a1 /\
          if (ok : bool) then exists oo w',
            rollout_outcome id (B_Namespace b) (B_Deployment b) (B_Container b) (B_Image b)
              (mw a1) oo w' /\
            match oo with
            | Done rr => Done tt = Done tt /\ a' = rollout_response rr (with_mw w' a1)
            | Halted s => Done tt = Halted s /\ a' = with_mw w' a1
            end
          else Done tt = Done tt /\ a' = a1) as Hend.
      { intros a' ->. exists true, a1. split; [done|]. by exists (Done (opID, err)), w'. }
      destruct err as [err|].
      * destruct (error_Is err ErrAmbiguousContainer) eqn:Ham.
        -- apply writeError_wp, Hend. unfold rollout_response. simpl. by rewrite Ham.
        -- apply (start_response_wp (opID, Some err)). apply Hend.
           unfold rollout_response. simpl. by rewrite Ham.
      * apply (start_response_wp (opID, None)). by apply Hend.
    + exists true, a1. split; [done|]. by exists (Halted s), w'.
  - simpl. by exists false, a1.
Qed.

(** C32: [GET /v1/operations/{operation_id}]: 404, 503, or what [Get] read (after
reconciling a stale operation). *)
Theorem handleGetOperation_spec id r a :
  wp api_env (handleGetOperation id r) (returning (fun _ a' =>
    exists g w', got (R_Context r) (R_OperationID r) (mw a) g w' /\
      let a1 := with_mw w' a in
      a' = match g with
           | Ok op => write_body (EncodeLine (operation_body op)) (set_json a1)
           | Err err =>
               if error_Is err ErrNotFound
               then respond 404 (error_body "NOT_FOUND" "operation not found") a1
               else respond 503 (error_body "STORE_UNAVAILABLE" "operation store unavailable") a1
           end)) a.
Proof.
  unfold handleGetOperation. apply wp_bind. eapply wp_mono; [|apply of_manager_wp, Get_wp].
  intros o a1 (w' & HQ & ->). apply returning_done in HQ as (g & -> & Hg).
  destruct g as [op|err].
  - api_wp. api_call x a1 H; subst a1. api_call y a1 H; subst a1. by exists (Ok op), w'.
  - destruct (error_Is err ErrNotFound) eqn:Hnf; apply writeError_wp; exists (Err err), w';
      (split; [exact Hg|]); by rewrite Hnf.
Qed.

(** C29: [authenticate] lets a request through only with an identity the verifier
gave for its bearer token; otherwise it is answered 401 and nothing else happens. *)
Theorem authenticate_spec next r a (Q : outcome unit -> AWorld -> Prop) :
  (forall raw id, R_Authorization r = bearer +:+ raw ->
     wp api_env (next id r) Q (ask (QVerify raw (Ok id)) a)) ->
  wp api_env (authenticate next r) (fun o a' =>
    Q o a' \/
    (o = Done tt /\
     ((HasPrefix (R_Authorization r) bearer = false /\
       a' = respond 401 (error_body "UNAUTHENTICATED" "missing bearer token") a) \/
      exists raw err, R_Authorization r = bearer +:+ raw /\
        a' = respond 401 (error_body "UNAUTHENTICATED" "invalid token")
               (ask (QVerify raw (Err err)) a)))) a.
Proof.
  intros Hnext. unfold authenticate. destruct (HasPrefix _ _) eqn:Hp.
  - apply HasPrefix_true in Hp as [raw Hraw]. rewrite Hraw, TrimPrefix_app.
    api_unfold. cbn [bind wp]. api_call v a1 H. subst a1. destruct v as [id|err].
    + eapply wp_mono; [|by apply Hnext]. intros o a' HQ. by left.
    + cbn [bind wp]. api_call x a1 H. destruct H as (w' & -> & ->). api_call y a1 H; subst a1.
      api_call y2 a1 H; subst a1. api_call y3 a1 H; subst a1. right. destruct y3.
      split; [done|]. right. by exists raw, err.
  - apply writeError_wp. right. split; [done|]. by left.
Qed.

(** ** One response *)

(** What has been sent: the JSON content type, the status line, the bodies. *)
Record Reply : Type := { typed : bool; line : option Z; texts : list string }.

Definition reply0 : Reply := {| typed := false; line := None; texts := [] |}.

Definition reply_pre X (e : apiE X) (g : Reply) : Prop :=
  match e with
  | AWriteHeader _ => line g = None /\ texts g = []
  | AWrite _ => texts g = []
  | _ => g = reply0
  end.

Definition reply_step X (e : apiE X) (g : Reply) (_ : X) (g' : Reply) : Prop :=
  match e with
  | ASetJSON => g' = {| typed := true; line := line g; texts := texts g |}
  | AWriteHeader s => g' = {| typed := typed g; line := Some s; texts := texts g |}
  | AWrite t => g' = {| typed := typed g; line := Some (default 200 (line g)); texts := texts g ++ [t] |}
  | _ => g' = g
  end.

Definition reply_proto : spec apiE Reply :=
  {| spec_pre := reply_pre; spec_post := reply_step |}.

(** Answered once with a status of the list, a body announced as JSON being a JSON
object; or stopped before answering. *)
Definition replied (codes : list Z) (o : outcome unit) (g : Reply) : Prop :=
  match o with
  | Done _ => exists s t, line g = Some s /\ s ∈ codes /\ texts g = [t] /\
      if typed g then exists fields, Unmarshal t = Some (JObj fields) else t = "ok"
  | Halted _ => g = reply0
  end.

Ltac reply_call x :=
  split; [by repeat split|];
  let g' := fresh "g'" in let H := fresh "Hg" in
  intros x g' H; cbn [reply_proto spec_post reply_step] in H; subst g'.

Lemma reply_manager {A} (p : prog mgrE A) Q :
  (forall o, Q o reply0) -> wp reply_proto (of_manager p) Q reply0.
Proof.
  intros HQ. unfold of_manager. induction p as [a|s|X e k IH]; simpl; [done..|].
  split; [done|]. intros x g' ->. apply IH.
Qed.

(** A JSON object with a status. *)
Lemma reply_object s fields codes :
  s ∈ codes -> integral (JObj fields) = true -> (nesting (JObj fields) <= maxNestingDepth)%nat ->
  replied codes (Done tt)
    {| typed := true; line := Some s; texts := [EncodeLine (JObj fields)] |}.
Proof.
  intros Hs Hi Hn. exists s, (EncodeLine (JObj fields)). do 3 (split; [done|]).
  eexists. exact (Unmarshal_EncodeLine _ Hi Hn).
Qed.

(** The depth of a fixed shape is computed. *)
Ltac shallow := apply Nat.leb_le; vm_compute; reflexivity.

Lemma reply_error_end s code msg codes : s ∈ codes ->
  replied codes (Done tt)
    {| typed := true; line := Some s; texts := [EncodeLine (error_body code msg)] |}.
Proof. intros Hs. apply reply_object; [done|done|shallow]. Qed.

Lemma reply_error s code msg codes :
  s ∈ codes -> wp reply_proto (writeError s code msg) (replied codes) reply0.
Proof.
  intros Hs. api_wp. reply_call x. reply_call y. reply_call z. destruct z. by apply reply_error_end.
Qed.

Lemma reply_ok codes : 200 ∈ codes -> wp reply_proto (call (AWrite "ok")) (replied codes) reply0.
Proof. intros Hs. api_wp. reply_call x. by exists 200, "ok". Qed.

Lemma reply_start (opID : string) (err : option error) codes :
  [202; 502; 503] ⊆ codes ->
  wp reply_proto (match err with
    | Some _ =>
        if decide (opID = "") then
          writeError 503 "STORE_UNAVAILABLE" "operation could not be recorded"
        else writePatchFailed opID
    | None => writeAccepted opID
    end) (replied codes) reply0.
Proof.
  intros Hc. destruct err; [case_decide|].
  - apply reply_error. set_solver.
  - api_wp. reply_call x. reply_call y. reply_call z. destruct z.
    apply reply_object; [set_solver|done|shallow].
  - api_wp. reply_call x. reply_call y. reply_call z. destruct z.
    apply reply_object; [set_solver|done|shallow].
Qed.

Lemma reply_authorize d r id action ns dep c image codes (k : bool -> prog apiE unit) :
  [503; 403] ⊆ codes -> k false = Ret tt -> wp reply_proto (k true) (replied codes) reply0 ->
  wp reply_proto (bind (authorize d r id action ns dep c image) k) (replied codes) reply0.
Proof.
  intros Hc Hf Hk. unfold authorize. api_unfold. cbn [bind wp]. reply_call t.
  split; [done|]. intros [dec err] g' ->. destruct err.
  - cbn [bind wp]. reply_call a. reply_call x. reply_call y. reply_call z. rewrite Hf.
    apply reply_error_end. set_solver.
  - destruct (Allowed dec); [exact Hk|]. unfold recordDenied. api_unfold.
    cbn [bind wp of_manager hoist]. reply_call now. reply_call u. reply_call perr.
    assert (forall x : unit, wp reply_proto (k false) (replied codes)
              {| typed := true; line := Some 403;
                 texts := [EncodeLine (error_body "FORBIDDEN" "not allowed")] |}) as Hend.
    { intros _. rewrite Hf. apply reply_error_end. set_solver. }
    destruct perr; cbn [bind wp].
    + reply_call a. reply_call b. reply_call x. reply_call y. reply_call z. by apply Hend.
    + reply_call b. reply_call x. reply_call y. reply_call z. by apply Hend.
Qed.

Lemma reply_readyz d r : wp reply_proto (handleReadyz d r) (replied [200; 503]) reply0.
Proof.
  assert (forall code msg (u : unit), wp reply_proto (writeError 503 code msg)
    (replied [200; 503]) reply0) as Hfail by (intros; apply reply_error; set_solver).
  unfold handleReadyz. api_unfold. cbn [bind wp]. reply_call err.
  destruct err; cbn [bind wp]; [by reply_call a; apply Hfail|].
  destruct (ChecksReadiness d); cbn [bind wp]; [|by apply reply_ok; set_solver].
  reply_call err. destruct err; cbn [bind wp]; [by reply_call a; apply Hfail|].
  apply reply_ok. set_solver.
Qed.

(** The statuses a route answers with. *)
Definition statuses (rt : route) : list Z :=
  match rt with
  | Healthz => [200]
  | Readyz => [200; 503]
  | PostRestart => [202; 400; 401; 403; 502; 503]
  | PostRollout => [202; 400; 401; 403; 502; 503]
  | GetOp => [200; 401; 404; 503]
  end.

Lemma reply_authenticate next r codes :
  401 ∈ codes -> (forall id, wp reply_proto (next id r) (replied codes) reply0) ->
  wp reply_proto (authenticate next r) (replied codes) reply0.
Proof.
  intros H401 Hnext. unfold authenticate. destruct (HasPrefix _ _); [|by apply reply_error].
  api_unfold. cbn [bind wp]. reply_call v. destruct v as [id|err]; [apply Hnext|].
  cbn [bind wp]. reply_call a. by apply (reply_error 401).
Qed.

(** C28: one response.  Every handler writes one status line and one body, with one
of the statuses of its route, nothing before its last call into the store, the
manager or the authorizer, and nothing at all if it panics.  A body that is announced
as JSON is the text of a JSON object, whatever bytes the values in it hold. *)
Theorem one_response d rt r :
  wp reply_proto (handle d rt r) (replied (statuses rt)) reply0.
Proof.
  destruct rt; cbn [handle statuses].
  - apply reply_ok. set_solver.
  - apply reply_readyz.
  - apply reply_authenticate; [set_solver|]. intros id. unfold handleRestart.
    destruct (restart_body r); [|apply reply_error; set_solver].
    apply reply_authorize; [set_solver|done|]. apply wp_bind, reply_manager.
    intros [[opID err]|s]; [|done]. apply reply_start. set_solver.
  - apply reply_authenticate; [set_solver|]. intros id. unfold handleRollout.
    destruct (rollout_body r); [|apply reply_error; set_solver].
    apply reply_authorize; [set_solver|done|]. apply wp_bind, reply_manager.
    intros [[opID err]|s]; [|done]. destruct err as [err|].
    + destruct (error_Is _ _); [apply reply_error; set_solver|].
      apply (reply_start opID (Some err)). set_solver.
    + apply (reply_start opID None). set_solver.
  - apply reply_authenticate; [set_solver|]. intros id. unfold handleGetOperation.
    apply wp_bind, reply_manager. intros [[op|err]|s]; [| |done].
    + api_wp. reply_call x. reply_call y. destruct y. unfold operation_body, errBody.
      apply reply_object; [set_solver|by case_decide|case_decide; shallow].
    + destruct (error_Is _ _); apply reply_error; set_solver.
Qed.

(** Every route under [/v1] authenticates first. *)
Theorem v1_routes_authenticate d method path rt :
  (method, path, rt) ∈ NewRouter -> HasPrefix path "/v1/" = true ->
  exists next, handle d rt = authenticate next.
Proof.
  intros Hin. unfold NewRouter in Hin. rewrite !elem_of_cons in Hin.
  destruct Hin as [[= -> -> ->]|[[= -> -> ->]|[[= -> -> ->]|[[= -> -> ->]|[[= -> -> ->]|Hin]]]]];
    try (intros H; vm_compute in H; discriminate H); try (intros _; by eexists).
  by apply elem_of_nil in Hin.
Qed.

Lemma v1_routes_authenticate_witness :
  exists next, handle {| AuthzTimeout := 0; ChecksReadiness := false |} GetOp = authenticate next.
Proof.
  apply (v1_routes_authenticate _ "GET" "/v1/operations/{operation_id}").
  - unfold NewRouter. do 4 right. left.
  - vm_compute. reflexivity.
Defined.

Lemma authenticate_spec_witness :
  let a := mkA (mkWorld ∅ 0 (fun _ => false) ∅ [] [] [] [] []) [] false None [] in
  let r := {| R_Context := External 0; R_Authorization := "Basic x"; R_Body := ""; R_Broken := false;
              R_OperationID := "" |} in
  wp api_env (authenticate (fun _ _ => Ret tt) r) (fun o a' =>
    (o = Done tt /\ status_line a' = None) \/
    (o = Done tt /\
     ((HasPrefix (R_Authorization r) bearer = false /\
       a' = respond 401 (error_body "UNAUTHENTICATED" "missing bearer token") a) \/
      exists raw err, R_Authorization r = bearer +:+ raw /\
        a' = respond 401 (error_body "UNAUTHENTICATED" "invalid token")
               (ask (QVerify raw (Err err)) a)))) a.
Proof.
  intros a r. apply (authenticate_spec (fun _ _ => Ret tt) r a
    (fun o a' => o = Done tt /\ status_line a' = None)).
  intros raw id _. simpl. split; reflexivity.
Defined.
