(* ===== verification/AuditTrail.v ===== *)
(** * The whole gateway: every patch is audited, every row is well formed

All of the gateway at once: handlers of any requests, the watchers they start and
the sweeper, on one table, interleaved in any way, failing and dying anywhere.  Two
things hold throughout: what was patched is on record, under the identity that was
verified and allowed to do it; and the rows of the table have the shape their
readers expect. *)

From stdpp Require Import relations.
From S2P Require Import Prelude GoStrings GoRuntime GoNet GoJson Effects Authz Authn Kube Store Notify Manager ManagerSpec Api ApiSpec.

Local Open Scope string_scope.
Local Open Scope list_scope.
Local Open Scope Z_scope.

(** ** Rows *)

(** The three ways an operation ends. *)
Definition legit (upd : TerminalUpdate) : Prop :=
  (Upd_Status upd = StatusSucceeded /\ Upd_Event upd = "SUCCEEDED" /\
     Upd_ErrorCode upd = "" /\ Upd_ErrorMessage upd = "") \/
  (Upd_Status upd = StatusFailed /\ Upd_Event upd = "FAILED" /\
     (Upd_ErrorCode upd = "K8S_PATCH_FAILED" \/ Upd_ErrorCode upd = "ROLLOUT_FAILED")) \/
  (Upd_Status upd = StatusTimeout /\ Upd_Event upd = "TIMEOUT" /\ Upd_ErrorCode upd = "TIMEOUT").

(** What never changes of a row once it is written. *)
Record origin_ok (op : Operation) : Prop := {
  org_nsdep : NsDep op = Namespace op +:+ "#" +:+ Store.Deployment op;
  org_expires : ExpiresAt op = expires_at (RequestedAt op);
  org_action : (Action op = ActionRestart /\ Op_Container op = "" /\ Image op = "") \/
               Action op = ActionRollout;
  org_id : exists u, OperationID op = id_of_ulid u;
}.

(** The events of an operation that has not ended. *)
Definition opening (op : Operation) (evs : list AuditEvent) : Prop :=
  let requested := {| Event := "REQUESTED"; At := RequestedAt op |} in
  evs = [requested] \/ evs = [requested; {| Event := "STARTED"; At := RequestedAt op |}].

Definition is_running (op : Operation) : Prop :=
  Status op = StatusRunning /\ CompletedAt op = None /\ ErrorCode op = "" /\
  ErrorMessage op = "" /\ opening op (Events op).

Definition is_denied (op : Operation) : Prop :=
  Status op = StatusDenied /\ CompletedAt op = None /\ ErrorCode op = "DENIED" /\
  Events op = [{| Event := "DENIED"; At := RequestedAt op |}].

(** Ended by one of the three updates, after it was requested and before [now]. *)
Definition is_ended (now : Z) (op : Operation) : Prop :=
  exists upd evs at_, legit upd /\ opening op evs /\
    Status op = Upd_Status upd /\ ErrorCode op = Upd_ErrorCode upd /\
    ErrorMessage op = Upd_ErrorMessage upd /\ CompletedAt op = Some (Upd_CompletedAt upd) /\
    RequestedAt op <= Upd_CompletedAt upd <= now /\
    Events op = evs ++ [{| Event := Upd_Event upd; At := at_ |}].

Record row_ok (now : Z) (op : Operation) : Prop := {
  row_origin : origin_ok op;
  row_requested : RequestedAt op <= now;
  row_life : is_running op \/ is_denied op \/ is_ended now op;
}.

(** [op'] is the row of [op], possibly ended since. *)
Definition same_origin (op op' : Operation) : Prop :=
  op' = with_outcome op (Status op') (ErrorCode op') (ErrorMessage op') (CompletedAt op')
          (Events op').

(** The row names the identity it was written for. *)
Record recorded_for (id : GitHubIdentity) (op : Operation) : Prop := {
  rec_repository : Store.Repository op = Id_Repository id;
  rec_repository_id : RepositoryID op = Id_RepositoryID id;
  rec_actor : Actor op = Id_Actor id;
  rec_workflow : Workflow op = Id_Workflow id;
  rec_workflow_ref : WorkflowRef op = Id_WorkflowRef id;
  rec_run : RunID op = Id_RunID id;
  rec_attempt : RunAttempt op = Id_RunAttempt id;
  rec_event : EventName op = Id_EventName id;
}.

(** The row says what was patched. *)
Definition describes (op : Operation) (p : Patch) : Prop :=
  match p with
  | PRestart ns dep =>
      Action op = ActionRestart /\ Namespace op = ns /\ Store.Deployment op = dep
  | PRollout ns dep c image =>
      Action op = ActionRollout /\ Namespace op = ns /\ Store.Deployment op = dep /\
      Op_Container op = c /\ Image op = image
  end.

(** ** The discipline every goroutine follows *)

(** What a goroutine knows: the identity it acts for, the requests it was granted and
those it was refused, with the reason, the id it has drawn and not yet used, operations
it knows to be in the table, the ends the store has confirmed to it, and the last
instant it read. *)
Record Ghost : Type := mkGhost {
  who : option GitHubIdentity;
  granted : list Request;
  refused : list (Request * string);
  made : option string;
  known : list Operation;
  ended : list (string * TerminalUpdate);
  seen_at : option Z;
}.

Definition ghost0 : Ghost := mkGhost None [] [] None [] [] None.
(** A goroutine that starts with an operation it knows. *)
Definition knowing (op : Operation) : Ghost :=
  mkGhost None [] [] None [op] [] (Some (RequestedAt op)).
Definition set_who (id : GitHubIdentity) (g : Ghost) : Ghost :=
  mkGhost (Some id) (granted g) (refused g) (made g) (known g) (ended g) (seen_at g).
Definition grant (req : Request) (g : Ghost) : Ghost :=
  mkGhost (who g) (req :: granted g) (refused g) (made g) (known g) (ended g) (seen_at g).
Definition refuse (req : Request) (reason : string) (g : Ghost) : Ghost :=
  mkGhost (who g) (granted g) ((req, reason) :: refused g) (made g) (known g) (ended g) (seen_at g).
Definition set_made (m : option string) (g : Ghost) : Ghost :=
  mkGhost (who g) (granted g) (refused g) m (known g) (ended g) (seen_at g).
Definition learn (l : list Operation) (g : Ghost) : Ghost :=
  mkGhost (who g) (granted g) (refused g) (made g) (l ++ known g) (ended g) (seen_at g).
Definition add_end (id : string) (upd : TerminalUpdate) (g : Ghost) : Ghost :=
  mkGhost (who g) (granted g) (refused g) (made g) (known g) ((id, upd) :: ended g) (seen_at g).
Definition set_seen (t : Z) (g : Ghost) : Ghost :=
  mkGhost (who g) (granted g) (refused g) (made g) (known g) (ended g) (Some t).

Definition seen_before (g : Ghost) (t : Z) : Prop :=
  if seen_at g is Some s then s <= t else True.

(** The request an operation is authorized by. *)
Definition request_of_op (id : GitHubIdentity) (op : Operation) : Request :=
  authz_request id (Action op) (Namespace op) (Store.Deployment op).

(** A new row: for the identity, made now, under the id drawn; a denied one with the
reason of the refusal. *)
Definition new_row (g : Ghost) (op : Operation) : Prop :=
  origin_ok op /\ made g = Some (OperationID op) /\ seen_at g = Some (RequestedAt op) /\
  exists id, who g = Some id /\ recorded_for id op /\
    (is_running op \/ is_denied op /\ (request_of_op id op, ErrorMessage op) ∈ refused g).

(** A patch: of an operation in the table, of the identity, granted. *)
Definition patch_ok (g : Ghost) (p : Patch) : Prop :=
  exists op id, op ∈ known g /\ describes op p /\ who g = Some id /\ recorded_for id op /\
    request_of_op id op ∈ granted g.

Definition audit_pre X (e : mgrE X) (g : Ghost) : Prop :=
  match e with
  | MStore e =>
      match e with
      | PutOperation _ op => new_row g op
      | UpdateTerminal _ id upd => legit upd /\ seen_at g = Some (Upd_CompletedAt upd) /\
          exists op, op ∈ known g /\ OperationID op = id
      | _ => True
      end
  | MKube e =>
      match e with
      | RestartDeployment _ ns dep => patch_ok g (PRestart ns dep)
      | RolloutDeployment _ ns dep c image => patch_ok g (PRollout ns dep c image)
      | _ => True
      end
  | MNotify e =>
      match e with
      | Started op => op ∈ known g /\ is_running op
      | Resolved op _ => exists op0 upd, op0 ∈ known g /\ (OperationID op0, upd) ∈ ended g /\
          op = applyTerminal op0 upd
      end
  | GoWatch op _ => op ∈ known g
  | _ => True
  end.

(** Learning of operations read from the table. *)
Definition learns (l : list Operation) (g g' : Ghost) : Prop :=
  exists t, seen_before g t /\ g' = learn l (set_seen t g).

Definition audit_step X (e : mgrE X) (g : Ghost) : X -> Ghost -> Prop :=
  match e in mgrE X return X -> Ghost -> Prop with
  | MStore e =>
      match e in storeE X return X -> Ghost -> Prop with
      | PutOperation _ op => fun x g' =>
          g' = set_made None (match x with None => learn [op] g | Some _ => g end)
      | GetOperation _ _ => fun x g' => learns (match x with Ok op => [op] | Err _ => [] end) g g'
      | ListRunningPastDeadline _ _ => fun x g' =>
          learns (match x with Ok l => l | Err _ => [] end) g g'
      | UpdateTerminal _ id upd => fun x g' =>
          g' = match x with None => add_end id upd g | Some _ => g end
      | _ => fun _ g' => g' = g
      end
  | MRt e =>
      match e in rtE X return X -> Ghost -> Prop with
      | TimeNow => fun t g' => seen_before g t /\ g' = set_seen t g
      | LogLine _ _ => fun _ g' => g' = g
      end
  | UlidMake => fun u g' => g' = set_made (Some (id_of_ulid u)) g
  | _ => fun _ g' => g' = g
  end.

Definition audit_mgr : spec mgrE Ghost := {| spec_pre := audit_pre; spec_post := audit_step |}.

Definition audit_proto : spec apiE Ghost :=
  {| spec_pre := fun X e => match e with AM e => audit_pre _ e | _ => fun _ => True end;
     spec_post := fun X e g =>
       match e in apiE X return X -> Ghost -> Prop with
       | AM e => audit_step _ e g
       | AVerify _ _ => fun x g' => g' = match x with Ok id => set_who id g | Err _ => g end
       | AAuthorize _ req => fun x g' =>
           g' = match x with
                | (dec, None) => if Allowed dec then grant req g else refuse req (Reason dec) g
                | _ => g
                end
       | _ => fun _ g' => g' = g
       end |}.

(** The manager's programs are proved against [audit_mgr]. *)
Lemma audit_of_manager {A} (p : prog mgrE A) Q g :
  wp audit_mgr p Q g -> wp audit_proto (of_manager p) Q g.
Proof. intros H. unfold of_manager. apply wp_hoist. exact H. Qed.

(** ** The programs follow it *)

(** Time has passed and something may have ended; what is known stays. *)
Definition later (g g' : Ghost) : Prop :=
  who g' = who g /\ granted g' = granted g /\ known g' = known g.

Lemma later_refl g : later g g.
Proof. done. Qed.

Lemma later_trans g1 g2 g3 : later g1 g2 -> later g2 g3 -> later g1 g3.
Proof. unfold later. naive_solver congruence. Qed.

#[local] Hint Resolve later_refl later_trans : core.

Ltac au_call x :=
  split; [first [exact I | done]|];
  let g' := fresh "g'" in let H := fresh "Hg" in
  intros x g' H; cbn in H; try subst g'.

Lemma au_log l msg g Q : Q (Done tt) g -> wp audit_mgr (log l msg) Q g.
Proof. intros HQ. wp_unfold. au_call x. by destruct x. Qed.

Lemma au_resolve op msg what upd g :
  legit upd -> seen_at g = Some (Upd_CompletedAt upd) -> op ∈ known g ->
  wp audit_mgr (resolve op msg what upd) (returning (fun _ => later g)) g.
Proof.
  intros Hl Hs Hk. unfold resolve. wp_unfold. split; [naive_solver|].
  intros err g' Hg. cbn in Hg. subst g'. destruct err as [err|]; wp_unfold.
  - unfold logTerminalWriteErr. case_match; by apply au_log.
  - split; [exists op, upd; split; [done|]; split; [by left|done]|].
    intros x g' Hg. cbn in Hg. by subst g'.
Qed.

Lemma au_fail op msg code text g :
  op ∈ known g -> code = "K8S_PATCH_FAILED" \/ code = "ROLLOUT_FAILED" ->
  wp audit_mgr (failOperation op msg code text) (returning (fun _ => later g)) g.
Proof.
  intros Hk Hc. unfold failOperation. wp_unfold. split; [exact I|]. intros t g1 [Ht ->].
  eapply wp_mono; [|apply au_resolve; [by right; left|done|done]].
  by intros [[]|] g2.
Qed.

Lemma au_timeout op msg text g :
  op ∈ known g -> wp audit_mgr (timeoutOperation op msg text) (returning (fun _ => later g)) g.
Proof.
  intros Hk. unfold timeoutOperation. wp_unfold. split; [exact I|]. intros t g1 [Ht ->].
  eapply wp_mono; [|apply au_resolve; [by right; right|done|done]].
  by intros [[]|] g2.
Qed.

Lemma au_complete op msg reason g :
  op ∈ known g -> wp audit_mgr (completeOperation op msg reason) (returning (fun _ => later g)) g.
Proof.
  intros Hk. unfold completeOperation. wp_unfold. split; [exact I|]. intros t g1 [Ht ->].
  eapply wp_seq; [apply au_resolve; [by left|done|done]|].
  intros [] g2 Hg2. by apply au_log.
Qed.

(** Starting: the row first, then the patch it describes. *)
Lemma au_start ctx op patch_call p started g :
  new_row g op -> (forall g, patch_ok g p -> audit_pre _ (MKube patch_call) g) ->
  (forall g x g', audit_step _ (MKube patch_call) g x g' -> g' = g) -> describes op p ->
  (exists id, who g = Some id /\ recorded_for id op /\ request_of_op id op ∈ granted g) ->
  is_running op ->
  wp audit_mgr (start_body ctx op patch_call started) anything g.
Proof.
  intros Hrow Hpre Hstep Hd (id & Hw & Hr & Hg) Hrun. unfold start_body. wp_unfold.
  split; [exact Hrow|]. intros err g1 Hg1. cbn in Hg1. subst g1.
  destruct err as [err|]; wp_unfold; [done|].
  split; [apply Hpre; exists op, id; split; [by left|done]|].
  intros err g1 Hg1. apply Hstep in Hg1 as ->. destruct err as [err|]; wp_unfold.
  - eapply wp_seq; [apply au_fail; [by left|by left]|]. done.
  - au_call x. split; [split; [by left|done]|]. intros y g1 Hg1. cbn in Hg1. subst g1.
    split; [by left|]. done.
Qed.

Lemma requested_running action id ns dep c image opID now :
  is_running (requested_op action id ns dep c image opID now).
Proof. repeat split. by right. Qed.

Lemma requested_row action id ns dep c image u now g :
  (action = ActionRestart /\ c = "" /\ image = "") \/ action = ActionRollout ->
  who g = Some id -> made g = Some (id_of_ulid u) -> seen_at g = Some now ->
  new_row g (requested_op action id ns dep c image (id_of_ulid u) now).
Proof.
  intros Ha Hw Hm Hs. split; [|split; [done|split; [done|]]].
  - split; try done. by exists u.
  - exists id. split; [done|]. split; [by split|]. left. apply requested_running.
Qed.

Lemma au_Restart ctx id ns dep g :
  who g = Some id -> authz_request id ActionRestart ns dep ∈ granted g ->
  wp audit_mgr (Restart ctx id ns dep) anything g.
Proof.
  intros Hw Hg. unfold Restart. wp_unfold. split; [exact I|]. intros now g1 [Ht ->]. au_call u.
  refine (au_start ctx (requested_op ActionRestart id ns dep "" "" (id_of_ulid u) now)
            (RestartDeployment ctx ns dep) (PRestart ns dep) "restart started" _ _ _ _ _ _ _);
    [|done|by intros ? ? ? ->|done| |apply requested_running].
  - apply requested_row; [by left|done..].
  - exists id. split; [done|]. split; [by split|done].
Qed.

Lemma au_rollout_with ctx id ns dep c image g :
  who g = Some id -> authz_request id ActionRollout ns dep ∈ granted g ->
  wp audit_mgr (rollout_with ctx id ns dep c image) anything g.
Proof.
  intros Hw Hg. unfold rollout_with. wp_unfold. split; [exact I|]. intros now g1 [Ht ->]. au_call u.
  refine (au_start ctx (requested_op ActionRollout id ns dep c image (id_of_ulid u) now)
            (RolloutDeployment ctx ns dep c image) (PRollout ns dep c image) "rollout started"
            _ _ _ _ _ _ _); [|done|by intros ? ? ? ->|done| |apply requested_running].
  - apply requested_row; [by right|done..].
  - exists id. split; [done|]. split; [by split|done].
Qed.

Lemma au_recordFailed ctx id ns dep image text g :
  who g = Some id ->
  wp audit_mgr (recordFailedRollout ctx id ns dep "" image "K8S_PATCH_FAILED" text) anything g.
Proof.
  intros Hw. unfold recordFailedRollout. wp_unfold. split; [exact I|]. intros now g1 [Ht ->].
  au_call u. split.
  - split; [split; try done; [by right|by exists u]|]. split; [done|]. split; [done|].
    exists id. split; [done|]. split; [by split|]. left. repeat split. by left.
  - intros err g1 Hg1. cbn in Hg1. subst g1. destruct err as [err|]; wp_unfold; [by au_call x|].
    eapply wp_seq; [apply au_fail; [by left|by left]|]. done.
Qed.

Lemma au_Rollout ctx id ns dep c image g :
  who g = Some id -> authz_request id ActionRollout ns dep ∈ granted g ->
  wp audit_mgr (Rollout ctx id ns dep c image) anything g.
Proof.
  intros Hw Hg. unfold Rollout. case_decide; [|by apply au_rollout_with].
  unfold resolveContainer. wp_unfold. au_call r.
  apply wp_bind. eapply (wp_mono _ _ (fun _ g' => g' = g)).
  - intros [[resolved resolveErr]|st] g' ->; [|done].
    destruct (errors_Is _ _); [done|]. case_decide; [|by apply au_rollout_with].
    destruct resolveErr as [err|]; [|done]. apply wp_bind.
    eapply wp_mono; [|by apply au_recordFailed]. by intros [a|s] g2.
  - destruct r as [d|err]; wp_unfold; [|done]. by destruct (Containers d) as [|? []]; wp_unfold.
Qed.

(** Following a rollout and reconciling keep knowing the operation. *)
Definition still (op : Operation) (g : Ghost) : Prop := op ∈ known g.

Lemma later_still op g g' : later g g' -> still op g -> still op g'.
Proof. unfold still. by intros (_ & _ & ->). Qed.

Lemma au_still {A} (p : prog mgrE A) op g :
  still op g -> wp audit_mgr p (returning (fun _ => later g)) g ->
  wp audit_mgr p (returning (fun _ => still op)) g.
Proof. intros Hs. apply wp_mono. intros [a|s] g' H; [by eapply later_still|done]. Qed.

Lemma au_act_on op msg ev g :
  still op g -> wp audit_mgr (act_on op msg ev) (returning (fun _ => still op)) g.
Proof.
  intros Hs. unfold act_on. destruct (Eval_State ev); wp_unfold; [done| |].
  - eapply wp_seq; [apply au_still; [done|by apply au_complete]|done].
  - eapply wp_seq; [apply au_still; [done|apply au_fail; [done|by right]]|done].
Qed.

Lemma au_evalOnce ctx op msg g :
  still op g -> wp audit_mgr (evalOnce ctx op msg) (returning (fun _ => still op)) g.
Proof.
  intros Hs. unfold evalOnce. wp_unfold. au_call r. destruct r; wp_unfold.
  - by apply au_act_on.
  - by au_call x.
Qed.

Lemma au_timeout_end op msg text g :
  still op g -> wp audit_mgr (timeoutOperation op msg text) anything g.
Proof. intros Hs. eapply wp_mono; [|by apply au_timeout]. done. Qed.

Lemma au_range_events fuel w op msg g :
  still op g -> wp audit_mgr (range_events fuel w op msg)
    (fun o g' => if o is Done _ then still op g' else True) g.
Proof.
  revert g. induction fuel as [|fuel IH]; intros g Hs; [done|]. cbn [range_events]. wp_unfold.
  au_call ev. destruct ev as [[dep|]|]; wp_unfold; [|by apply IH|done].
  eapply wp_seq; [by apply au_act_on|]. intros [] g' H; wp_unfold; [by au_call x|by apply IH].
Qed.

Lemma au_watch_loop fuel evfuel ctx op msg b g :
  still op g -> wp audit_mgr (watch_loop fuel evfuel ctx op msg b) anything g.
Proof.
  revert b g. induction fuel as [|fuel IH]; intros b g Hs; [done|]. cbn [watch_loop]. wp_unfold.
  au_call expired. destruct expired; [by apply au_timeout_end|].
  eapply wp_seq; [by apply au_evalOnce|]. intros [] g1 H1; wp_unfold; [done|].
  au_call r. destruct r as [w|err]; wp_unfold.
  - apply wp_bind. eapply wp_mono; [|by apply au_range_events].
    intros [[]|s] g2 H2; [done| |done]. wp_unfold. au_call slept.
    destruct slept; [by apply IH|by apply au_timeout_end].
  - au_call x. au_call slept. destruct slept; [by apply IH|by apply au_timeout_end].
Qed.

Lemma au_watchRollout m fuel evfuel op msg g :
  still op g -> wp audit_mgr (watchRollout m fuel evfuel op msg) anything g.
Proof.
  intros Hs. unfold watchRollout, WithTimeout. wp_unfold. au_call r. split; [exact I|].
  intros t g1 [Ht ->]. by apply au_watch_loop.
Qed.

Lemma au_resolveRunning ctx op g :
  still op g -> wp audit_mgr (resolveRunning ctx op) (returning (fun _ => later g)) g.
Proof.
  intros Hs. unfold resolveRunning. wp_unfold. au_call r. destruct r as [dep|err].
  - destruct (Eval_State _); [by apply au_timeout|by apply au_complete|apply au_fail; [done|by right]].
  - destruct (error_Is err ContextCanceled); wp_unfold; [by au_call x|].
    au_call b. destruct b; wp_unfold; [by au_call x|by apply au_timeout].
Qed.

Lemma au_ReconcileSweep ctx g : wp audit_mgr (ReconcileSweep ctx) (returning (fun _ _ => True)) g.
Proof.
  unfold ReconcileSweep. wp_unfold. split; [exact I|]. intros now g1 [Ht ->].
  split; [exact I|]. intros r g2 (t & _ & ->). destruct r as [l|err]; wp_unfold; [|by au_call x].
  eapply wp_mono; [|apply (wp_for_each _ _ (fun rest g => Forall (fun op => still op g) rest))].
  - by intros [[]|] g3.
  - intros op rest g3 [Hop Hrest]%Forall_cons. eapply wp_mono; [|by apply au_resolveRunning].
    intros [[]|] g4; [|done]. simpl. intros Hl. eapply Forall_impl; [exact Hrest|].
    intros op' Hop'. by eapply later_still.
  - apply Forall_forall. intros op Hop. unfold still. simpl. apply elem_of_app. by left.
Qed.

Lemma au_StartSweeper n ctx g : wp audit_mgr (StartSweeper n ctx) anything g.
Proof.
  revert g. induction n as [|n IH]; intros g; [done|]. cbn [StartSweeper]. wp_unfold.
  au_call tick. destruct tick; wp_unfold; [|done].
  eapply wp_seq; [apply au_ReconcileSweep|]. intros [] g' _. apply IH.
Qed.

Lemma au_Get ctx opID g : wp audit_mgr (Get ctx opID) anything g.
Proof.
  unfold Get. wp_unfold. split; [exact I|]. intros r g1 (t & _ & ->).
  destruct r as [op|err]; wp_unfold; [|done].
  case_decide; wp_unfold; [|done]. split; [exact I|]. intros now g2 [_ ->].
  destruct (_ <? _); wp_unfold; [|done].
  eapply wp_seq; [apply au_resolveRunning; unfold still; simpl; by left|].
  intros [] g3 _. wp_unfold. split; [exact I|]. intros r g4 _. by destruct r.
Qed.

(** ** The handlers follow it *)

Lemma au_write status code msg g Q :
  Q (Done tt) g -> wp audit_proto (writeError status code msg) Q g.
Proof. intros HQ. api_wp. au_call x. au_call y. au_call z. by destruct z. Qed.

Lemma au_accepted opID g Q : Q (Done tt) g -> wp audit_proto (writeAccepted opID) Q g.
Proof. intros HQ. api_wp. au_call x. au_call y. au_call z. by destruct z. Qed.

Lemma au_patch_failed opID g Q : Q (Done tt) g -> wp audit_proto (writePatchFailed opID) Q g.
Proof. intros HQ. api_wp. au_call x. au_call y. au_call z. by destruct z. Qed.

Lemma au_start_response (r : string * option error) g :
  wp audit_proto
    (match r.2 with
     | Some _ => if decide (r.1 = "") then
                   writeError 503 "STORE_UNAVAILABLE" "operation could not be recorded"
                 else writePatchFailed r.1
     | None => writeAccepted r.1
     end) anything g.
Proof.
  destruct r as [opID [err|]]; cbn [fst snd]; [case_decide|]; [by apply au_write|by apply au_patch_failed|].
  by apply au_accepted.
Qed.

Lemma au_recordDenied ctx id action ns dep c image reason g :
  who g = Some id -> (authz_request id action ns dep, reason) ∈ refused g -> (action = ActionRestart /\ c = "" /\ image = "") \/ action = ActionRollout ->
  wp audit_proto (recordDenied ctx id action ns dep c image reason) (returning (fun _ _ => True)) g.
Proof.
  intros Hw Href Ha. unfold recordDenied. api_unfold. cbn [bind wp]. split; [exact I|].
  intros now g1 [_ ->]. au_call u. split.
  - split; [split; try done; by exists u|]. split; [done|]. split; [done|].
    exists id. split; [done|]. split; [by split|]. by right.
  - intros err g1 _. destruct err; cbn [bind wp]; au_call x; [au_call y|]; done.
Qed.

Lemma au_authorize d r id action ns dep c image g :
  who g = Some id -> (action = ActionRestart /\ c = "" /\ image = "") \/ action = ActionRollout ->
  wp audit_proto (authorize d r id action ns dep c image)
    (returning (fun ok g' => ok = true ->
       who g' = Some id /\ authz_request id action ns dep ∈ granted g')) g.
Proof.
  intros Hw Ha. unfold authorize. api_wp. split; [exact I|]. intros now g1 [_ ->]. split; [exact I|].
  intros [dec err] g2 Hg. cbn in Hg. destruct err as [err|]; [|destruct (Allowed dec)].
  - subst g2. au_call x. au_call y. au_call z. by au_call z2.
  - subst g2. cbn. intros _. split; [done|by left].
  - subst g2. eapply (wp_seq _ _ _ (fun _ _ => True)); [apply au_recordDenied; [done|by left|done]|].
    intros [] g3 _. cbn [bind wp]. au_call x. au_call y. by au_call z.
Qed.

Lemma au_handle d rt r : wp audit_proto (handle d rt r) anything ghost0.
Proof.
  assert (forall next, (forall id g, who g = Some id -> wp audit_proto (next id r) anything g) ->
            wp audit_proto (authenticate next r) anything ghost0) as Hauth.
  { intros next Hnext. unfold authenticate. destruct (HasPrefix _ _); [|by apply au_write].
    api_wp. au_call v. destruct v as [id|err]; [by apply Hnext|]. cbn [bind wp].
    au_call x. by apply au_write. }
  destruct rt; cbn [handle].
  - unfold handleHealthz. api_wp. by au_call x.
  - unfold handleReadyz. api_unfold. cbn [bind wp]. au_call err.
    destruct err; cbn [bind wp]; [au_call x; by apply au_write|].
    destruct (ChecksReadiness d); cbn [bind wp]; [|by au_call x]. au_call x.
    destruct x; cbn [bind wp]; [au_call y; by apply au_write|by au_call y].
  - apply Hauth. intros id g Hw. unfold handleRestart.
    destruct (restart_body r) as [b|]; [|by apply au_write].
    eapply wp_seq; [apply au_authorize; [done|by left]|]. intros ok g' Hok. destruct ok; [|done].
    destruct (Hok eq_refl) as [Hw' Hg']. apply wp_bind.
    eapply wp_mono; [|by apply audit_of_manager, au_Restart].
    intros [res|s] g2 _; [|done]. pose proof (au_start_response res g2) as H.
    by destruct res as [opID [err|]].
  - apply Hauth. intros id g Hw. unfold handleRollout.
    destruct (rollout_body r) as [b|]; [|by apply au_write].
    eapply wp_seq; [apply au_authorize; [done|by right]|]. intros ok g' Hok. destruct ok; [|done].
    destruct (Hok eq_refl) as [Hw' Hg']. apply wp_bind.
    eapply wp_mono; [|by apply audit_of_manager, au_Rollout].
    intros [res|s] g2 _; [|done]. pose proof (au_start_response res g2) as H.
    destruct res as [opID [err|]]; [|done]. destruct (error_Is _ _); [by apply au_write|done].
  - apply Hauth. intros id g Hw. unfold handleGetOperation. apply wp_bind.
    eapply wp_mono; [|by apply audit_of_manager, au_Get].
    intros [[op|err]|s] g2 _; [| |done].
    + api_unfold. cbn [bind wp]. au_call x. by au_call y.
    + destruct (error_Is _ _); by apply au_write.
Qed.

(** ** The gateway *)

(** The rows there were before the gateway started. *)
Class Born := born : gmap string Operation.

Section System.
Context {before : Born}.
Variables (m : Manager) (fuel evfuel : nat).

Definition gspawned X (e : apiE X) : list (prog apiE unit) :=
  match e with
  | AM (GoWatch op msg) => [of_manager (watchRollout m fuel evfuel op msg)]
  | _ => []
  end.

(** Requests of any kind, with any dependencies, and sweepers. *)
Inductive gentry : prog apiE unit -> Prop :=
  | gentry_request d rt r : gentry (handle d rt r)
  | gentry_sweeper n ctx : gentry (of_manager (StartSweeper n ctx)).

(** Any interleaving, goroutines dying at any time. *)
Definition gateway_step := pstep api_env gspawned gentry True.

(** A watcher starts knowing its operation. *)
Definition gghosts X (e : apiE X) : list Ghost :=
  match e with
  | AM (GoWatch op msg) => [knowing op]
  | _ => []
  end.

(** ** The invariant *)

(** The identity was verified; the request was allowed. *)
Definition verified (a : AWorld) (id : GitHubIdentity) : Prop :=
  exists raw, QVerify raw (Ok id) ∈ asked a.
Definition allowed (a : AWorld) (req : Request) : Prop :=
  exists dec, QAuthorize req (dec, None) ∈ asked a /\ Allowed dec = true.

(** The table holds the operation a patch was sent for, under the identity that was
verified and allowed to. *)
Definition audited (a : AWorld) (p : Patch) : Prop :=
  exists opID op id, ops (mw a) !! opID = Some op /\ describes op p /\ recorded_for id op /\
    verified a id /\ allowed a (authz_request id (Action op) (Namespace op) (Store.Deployment op)).

Definition in_table (t : gmap string Operation) (op : Operation) : Prop :=
  exists op', t !! OperationID op = Some op' /\ same_origin op op'.

(** The request was refused for the reason. *)
Definition refusal (a : AWorld) (req : Request) (reason : string) : Prop :=
  exists dec, QAuthorize req (dec, None) ∈ asked a /\ Allowed dec = false /\ reason = Reason dec.

(** The authorizer refused what a denied row records, for the reason the row gives. *)
Definition denied_by (a : AWorld) (op : Operation) : Prop :=
  exists id, verified a id /\ recorded_for id op /\
    refusal a (request_of_op id op) (ErrorMessage op).

(** The row has ended the way [upd] says. *)
Definition ended_row_as (op : Operation) (upd : TerminalUpdate) : Prop :=
  Status op <> StatusRunning /\ Status op = Upd_Status upd /\ ErrorCode op = Upd_ErrorCode upd /\
  ErrorMessage op = Upd_ErrorMessage upd /\ CompletedAt op = Some (Upd_CompletedAt upd).

Record ghost_ok (a : AWorld) (g : Ghost) : Prop := {
  gok_who : forall id, who g = Some id -> verified a id;
  gok_granted : forall req, req ∈ granted g -> allowed a req;
  gok_refused : forall req reason, (req, reason) ∈ refused g -> refusal a req reason;
  gok_ended : forall id upd, (id, upd) ∈ ended g -> exists row,
    ops (mw a) !! id = Some row /\ ended_row_as row upd;
  gok_seen : forall s, seen_at g = Some s -> s <= clock (mw a);
  gok_known : forall op, op ∈ known g -> in_table (ops (mw a)) op /\
    exists s, seen_at g = Some s /\ RequestedAt op <= s;
}.

Record audit_inv (gs : list Ghost) (a : AWorld) : Prop := {
  ai_ids : ids_ok (mw a);
  ai_rows : map_Forall (fun _ op => row_ok (clock (mw a)) op) (ops (mw a));
  ai_denied : forall id op, ops (mw a) !! id = Some op -> Status op = StatusDenied ->
    born !! id = Some op \/ denied_by a op;
  ai_patches : forall p b, (p, b) ∈ patches (mw a) -> audited a p;
  ai_made : NoDup (omap made gs);
  ai_fresh : forall id, id ∈ omap made gs -> id ∈ used (mw a) /\ ops (mw a) !! id = None;
  ai_ghosts : Forall (ghost_ok a) gs;
}.

(** What only grows: no row goes, its fixed columns stay, and once it has ended so does
all of it. *)
Definition evolves (op op' : Operation) : Prop :=
  same_origin op op' /\ (Status op <> StatusRunning -> op' = op).

Definition table_grows (t t' : gmap string Operation) : Prop :=
  forall id op, t !! id = Some op -> exists op', t' !! id = Some op' /\ evolves op op'.

Record grows (a a' : AWorld) : Prop := {
  grows_asked : forall q, q ∈ asked a -> q ∈ asked a';
  grows_clock : clock (mw a) <= clock (mw a');
  grows_table : table_grows (ops (mw a)) (ops (mw a'));
}.

Lemma same_origin_refl op : same_origin op op.
Proof. by destruct op. Qed.

Lemma same_origin_trans op1 op2 op3 :
  same_origin op1 op2 -> same_origin op2 op3 -> same_origin op1 op3.
Proof. unfold same_origin. intros H12 H23. rewrite H23, H12. by destruct op1, op3. Qed.

Lemma same_origin_requested op op' : same_origin op op' -> RequestedAt op' = RequestedAt op.
Proof. by intros ->. Qed.

Lemma same_origin_id op op' : same_origin op op' -> OperationID op' = OperationID op.
Proof. by intros ->. Qed.

Lemma same_origin_request op op' :
  same_origin op op' -> Action op' = Action op /\ Namespace op' = Namespace op /\
    Store.Deployment op' = Store.Deployment op.
Proof. by intros ->. Qed.

Lemma describes_origin op op' p : same_origin op op' -> describes op p -> describes op' p.
Proof. intros ->. by destruct p. Qed.

Lemma recorded_origin id op op' : same_origin op op' -> recorded_for id op -> recorded_for id op'.
Proof. intros -> []. by split. Qed.

Lemma evolves_refl op : evolves op op.
Proof. split; [apply same_origin_refl|done]. Qed.

Lemma table_grows_refl t : table_grows t t.
Proof. intros id op Hop. exists op. split; [done|apply evolves_refl]. Qed.

Lemma in_table_grows t t' op : table_grows t t' -> in_table t op -> in_table t' op.
Proof.
  intros Ht (op1 & H1 & S1). destruct (Ht _ _ H1) as (op2 & H2 & [S2 _]).
  exists op2. split; [done|]. by eapply same_origin_trans.
Qed.

Lemma audited_grows a a' p : grows a a' -> audited a p -> audited a' p.
Proof.
  intros [Hq _ Ht] (opID & op & id & Hop & Hd & Hr & (raw & Hv) & (dec & Hg & Ha)).
  destruct (Ht _ _ Hop) as (op' & Hop' & [Hs _]). exists opID, op', id.
  destruct (same_origin_request _ _ Hs) as (-> & -> & ->).
  split; [done|]. split; [by eapply describes_origin|]. split; [by eapply recorded_origin|].
  split; [exists raw|exists dec]; auto.
Qed.

Lemma denied_by_grows a a' op :
  (forall q, q ∈ asked a -> q ∈ asked a') -> denied_by a op -> denied_by a' op.
Proof.
  intros Hq (id & [raw Hv] & Hr & dec & Ha & ?). exists id. split; [exists raw; auto|].
  split; [done|]. exists dec. auto.
Qed.

Lemma ghost_ok_grows a a' g : grows a a' -> ghost_ok a g -> ghost_ok a' g.
Proof.
  intros [Hq Hc Ht] [H1 H2 H5 H6 H3 H4]. split.
  - intros id Hid. destruct (H1 id Hid) as [raw Hv]. exists raw. auto.
  - intros req Hreq. destruct (H2 req Hreq) as (dec & Hg & Ha). exists dec. auto.
  - intros req reason Hreq. destruct (H5 _ _ Hreq) as (dec & Hd & ?). exists dec. auto.
  - intros id upd Hend. destruct (H6 _ _ Hend) as (row & Hrow & He).
    destruct (Ht _ _ Hrow) as (row' & Hrow' & [_ Hfin]). exists row'. split; [done|].
    by rewrite (Hfin (proj1 He)).
  - intros s Hs. specialize (H3 s Hs). lia.
  - intros op Hop. destruct (H4 op Hop) as [Hin Hs]. split; [by eapply in_table_grows|done].
Qed.

Lemma row_ok_later now now' op : now <= now' -> row_ok now op -> row_ok now' op.
Proof.
  intros Hn [Ho Hr Hl]. split; [done|lia|]. destruct Hl as [?|[?|He]]; [by left|by right; left|].
  right. right. destruct He as (upd & evs & at_ & H1 & H2 & H3 & H4 & H5 & H6 & H7 & H8).
  exists upd, evs, at_. do 6 (split; [done|]). split; [lia|done].
Qed.

Lemma audit_inv_perm gs gs' a : gs ≡ₚ gs' -> audit_inv gs a -> audit_inv gs' a.
Proof.
  intros Hp [H1 H2 H2' H3 H4 H5 H6]. split; try done.
  - by rewrite <- Hp.
  - intros id Hid. apply H5. by rewrite Hp.
  - by rewrite <- Hp.
Qed.

(** ** One call *)

Lemma grows_mw a w' :
  clock (mw a) <= clock w' -> table_grows (ops (mw a)) (ops w') -> grows a (with_mw w' a).
Proof. by split. Qed.

(** A call that leaves the table, the patches and the ids alone. *)
Lemma inv_quiet g g' gs a a' :
  grows a a' -> ops (mw a') = ops (mw a) -> used (mw a') = used (mw a) ->
  patches (mw a') = patches (mw a) -> made g' = made g -> ghost_ok a' g' ->
  audit_inv (g :: gs) a -> audit_inv (g' :: gs) a'.
Proof.
  intros Hg Ho Hu Hp Hm Hok [[Hk Hd] Hr Hdn Hpt Hnd Hf Hgs].
  assert (omap made (g' :: gs) = omap made (g :: gs)) as Hmade by (cbn; by rewrite Hm).
  apply Forall_cons in Hgs as [_ Hgs]. split.
  - split; [by rewrite Ho|by rewrite Ho, Hu].
  - rewrite Ho. intros id op Hop. eapply row_ok_later; [apply Hg|by eapply Hr].
  - rewrite Ho. intros id op Hop Hst. destruct (Hdn id op Hop Hst) as [?|Hby]; [by left|right].
    by eapply denied_by_grows, Hby; apply Hg.
  - rewrite Hp. intros p b Hin. by eapply audited_grows, Hpt.
  - by rewrite Hmade.
  - rewrite Hmade, Ho, Hu. exact Hf.
  - constructor; [done|]. eapply Forall_impl; [exact Hgs|]. intros g1. by apply ghost_ok_grows.
Qed.

(** A call that changes rows, not dropping any, none of an unused id. *)
Lemma inv_table g g' gs a c t :
  table_grows (ops (mw a)) t -> well_keyed t -> dom t ⊆ used (mw a) ->
  map_Forall (fun _ op => row_ok (clock (mw a)) op) t ->
  (forall id op, t !! id = Some op -> Status op = StatusDenied ->
     ops (mw a) !! id = Some op \/ denied_by a op) ->
  (forall id, id ∈ omap made (g' :: gs) -> id ∈ omap made (g :: gs) /\ t !! id = None) ->
  NoDup (omap made (g' :: gs)) -> ghost_ok (with_mw (did_store c t (mw a)) a) g' ->
  audit_inv (g :: gs) a -> audit_inv (g' :: gs) (with_mw (did_store c t (mw a)) a).
Proof.
  intros Ht Hk Hd Hr Hdn Hmade Hnd Hok [_ _ Hdn0 Hpt _ Hf Hgs].
  assert (grows a (with_mw (did_store c t (mw a)) a)) as Hg by (apply grows_mw; simpl; [lia|done]).
  apply Forall_cons in Hgs as [_ Hgs]. split; try done.
  - intros id op Hop Hst. destruct (Hdn id op Hop Hst) as [Hold|?]; [by apply Hdn0|by right].
  - intros p b Hin. by eapply audited_grows, Hpt.
  - intros id Hid. destruct (Hmade id Hid) as [Hin Hn]. split; [by apply Hf|done].
  - constructor; [done|]. eapply Forall_impl; [exact Hgs|]. intros g1. by apply ghost_ok_grows.
Qed.

Lemma ghost_of_head g gs a : audit_inv (g :: gs) a -> ghost_ok a g.
Proof. intros [_ _ _ _ _ _ Hgs]. by apply Forall_cons in Hgs as [? _]. Qed.

Lemma with_mw_same a : with_mw (mw a) a = a.
Proof. by destruct a. Qed.

(** Forgetting the id drawn. *)
Lemma inv_unmade g g' gs a :
  made g' = None -> ghost_ok a g' -> audit_inv (g :: gs) a -> audit_inv (g' :: gs) a.
Proof.
  intros Hm Hok [H1 H2 H2' H3 H4 H5 H6]. apply Forall_cons in H6 as [_ H6].
  assert (forall id, id ∈ omap made (g' :: gs) -> id ∈ omap made (g :: gs)) as Hsub.
  { intros id. cbn. rewrite Hm. destruct (made g); [by right|done]. }
  split; try done.
  - cbn in *. rewrite Hm. destruct (made g); [by apply NoDup_cons in H4 as [_ ?]|done].
  - intros id Hid. by apply H5, Hsub.
  - by constructor.
Qed.

(** The log of the calls of the store is no part of it. *)
Definition set_log (l : list StoreCall) (w : World) : World :=
  mkWorld (ops w) (clock w) (cancelled w) (used w) (seen w) (patches w) (notices w) (watchers w) l.

Lemma inv_relog l gs a : audit_inv gs a -> audit_inv gs (with_mw (set_log l (mw a)) a).
Proof.
  intros [H1 H2 H2' H3 H4 H5 H6].
  assert (grows a (with_mw (set_log l (mw a)) a)) as Hg
    by (apply grows_mw; [simpl; lia|apply table_grows_refl]).
  split; try done. eapply Forall_impl; [exact H6|]. intros g. by apply ghost_ok_grows.
Qed.

(** A call of the store that changes no row. *)
Lemma inv_log gs a c :
  audit_inv gs a -> audit_inv gs (with_mw (did_store c (ops (mw a)) (mw a)) a).
Proof. apply (inv_relog (c :: stored (mw a))). Qed.

(** A goroutine uses the id it drew, or lets it go. *)
Lemma ghost_ok_unmade a g : ghost_ok a g -> ghost_ok a (set_made None g).
Proof. by intros []; split. Qed.

Lemma put_grows (a : AWorld) g gs op :
  audit_inv (g :: gs) a -> made g = Some (OperationID op) ->
  ops (mw a) !! OperationID op = None /\
  table_grows (ops (mw a)) (<[OperationID op := op]> (ops (mw a))).
Proof.
  intros Hinv Hm. destruct (ai_fresh _ _ Hinv (OperationID op)) as [_ Hn].
  { cbn. rewrite Hm. by left. }
  split; [done|]. intros id op' Hop'. exists op'. rewrite lookup_insert_ne by congruence.
  split; [done|apply evolves_refl].
Qed.

(** The row is written. *)
Lemma inv_put g g' gs a op c :
  let a' := with_mw (did_store c (<[OperationID op := op]> (ops (mw a))) (mw a)) a in
  audit_inv (g :: gs) a -> new_row g op -> made g' = None -> ghost_ok a' g' ->
  audit_inv (g' :: gs) a'.
Proof.
  intros a' Hinv (Horg & Hm & Hs & id0 & Hw & Hrec & Hlife) Hm' Hok.
  destruct (put_grows _ _ _ _ Hinv Hm) as [Hn Hgrow].
  pose proof (ghost_of_head _ _ _ Hinv) as Hg.
  pose proof Hinv as [[Hk Hd] Hr _ _ Hnd Hf _]. cbn in Hnd, Hf. rewrite Hm in Hnd, Hf.
  apply NoDup_cons in Hnd as [Hnin Hnd]. destruct (Hf (OperationID op)) as [Hu _]; [by left|].
  eapply inv_table; [done| | | | | | |done|done].
  - by apply map_Forall_insert_2.
  - rewrite dom_insert_L. set_solver.
  - apply map_Forall_insert_2; [|done]. split; [done|by apply (gok_seen _ _ Hg)|naive_solver].
  - intros id op' [[<- <-]|[_ Hop]]%lookup_insert_Some Hst; [|by left]. right.
    destruct Hlife as [[Hrun _]|[[_ _] Href]]; [by rewrite Hrun in Hst|].
    exists id0. split; [by apply (gok_who _ _ Hg)|]. split; [done|].
    exact (gok_refused _ _ Hg _ _ Href).
  - cbn. rewrite Hm', Hm. intros id Hid. split; [by right|].
    rewrite lookup_insert_ne; [apply Hf; by right|by intros <-].
  - cbn. by rewrite Hm'.
Qed.

Lemma call_put g gs a op (x : option error) t c :
  audit_inv (g :: gs) a -> new_row g op ->
  (match x with
   | None => t = <[OperationID op := op]> (ops (mw a))
   | Some _ => t = ops (mw a) \/ t = <[OperationID op := op]> (ops (mw a))
   end) ->
  audit_inv (set_made None (match x with None => learn [op] g | Some _ => g end) :: gs)
    (with_mw (did_store c t (mw a)) a).
Proof.
  intros Hinv Hrow Ht. pose proof Hrow as (_ & Hm & Hs & _).
  destruct (put_grows _ _ _ _ Hinv Hm) as [Hn Hgrow].
  assert (ghost_ok (with_mw (did_store c (<[OperationID op := op]> (ops (mw a))) (mw a)) a)
            (set_made None g)) as Hold.
  { apply ghost_ok_unmade. eapply ghost_ok_grows; [|by eapply ghost_of_head].
    apply grows_mw; [simpl; lia|done]. }
  destruct x as [err|]; [destruct Ht as [-> | ->]|subst t].
  - apply inv_log. eapply inv_unmade; [done| |done]. by eapply ghost_ok_unmade, ghost_of_head.
  - by eapply inv_put.
  - eapply inv_put; [done..|]. destruct Hold as [F1 F2 F3 F4 F5 F6]. split; try done.
    intros op' Hin. cbn in Hin. apply elem_of_cons in Hin as [->|Hin]; [|by apply F6]. split.
    + exists op. simpl. rewrite lookup_insert_eq. split; [done|apply same_origin_refl].
    + by exists (RequestedAt op).
Qed.

(** A running row is ended by a legitimate update made after it was read. *)
Lemma row_ok_terminated now op upd at_ :
  row_ok now op -> Status op = StatusRunning -> legit upd ->
  RequestedAt op <= Upd_CompletedAt upd <= now -> row_ok now (terminated op upd at_).
Proof.
  intros [[H1 H2 H3 H4] Hr Hl] Hst Hlegit Ht.
  assert (opening op (Events op)) as Hev.
  { destruct Hl as [H|[[H _]|(u & evs & at' & Hu & _ & H & _)]]; [apply H| |];
      exfalso; rewrite Hst in H; [discriminate H|].
    destruct Hu as [[Hs _]|[[Hs _]|[Hs _]]]; rewrite Hs in H; discriminate H. }
  split; [by split|done|]. right. right. exists upd, (Events op), at_. do 7 (split; [done|]). done.
Qed.

(** A row of an operation the goroutine knows can be ended now. *)
Lemma known_before g gs a op1 op t :
  audit_inv (g :: gs) a -> op1 ∈ known g -> seen_at g = Some t ->
  ops (mw a) !! OperationID op1 = Some op -> RequestedAt op <= t <= clock (mw a).
Proof.
  intros Hinv Hknown Hseen Hop. pose proof (ghost_of_head _ _ _ Hinv) as Hg.
  split; [|by apply (gok_seen _ _ Hg)].
  destruct (gok_known _ _ Hg _ Hknown) as [(op' & Hop' & Hs) (s & Hs' & Hle)].
  rewrite Hop in Hop'. injection Hop' as <-. rewrite (same_origin_requested _ _ Hs).
  rewrite Hseen in Hs'. by injection Hs' as <-.
Qed.

Lemma terminated_grows t id upd t' : terminal_write t id upd t' -> table_grows t t'.
Proof.
  intros (op & at_ & Hop & Hrun & ->) id' op' Hop'. destruct (decide (id = id')) as [<-|Hne].
  - simplify_eq. eexists. rewrite lookup_insert_eq. by split; [|split].
  - exists op'. rewrite lookup_insert_ne by done. split; [done|apply evolves_refl].
Qed.

Lemma legit_ended upd : legit upd -> Upd_Status upd <> StatusRunning /\ Upd_Status upd <> StatusDenied.
Proof. intros [[-> _]|[[-> _]|[-> _]]]; done. Qed.

(** A terminal write, whether the goroutine is told of it or not. *)
Lemma inv_end g g' gs a id upd t c :
  audit_inv (g :: gs) a -> legit upd -> seen_at g = Some (Upd_CompletedAt upd) ->
  (exists op, op ∈ known g /\ OperationID op = id) ->
  terminal_write (ops (mw a)) id upd t -> made g' = made g ->
  ghost_ok (with_mw (did_store c t (mw a)) a) g' ->
  audit_inv (g' :: gs) (with_mw (did_store c t (mw a)) a).
Proof.
  intros Hinv Hlegit Hseen (op1 & Hknown & Hid1) Hw Hmade Hok.
  pose proof Hinv as [[Hk Hd] Hr _ _ Hnd Hf _].
  pose proof Hw as (op & at_ & Hop & Hst & Ht). rewrite <- Hid1 in Hop.
  pose proof (known_before _ _ _ _ _ _ Hinv Hknown Hseen Hop) as Htime. rewrite Hid1 in Hop.
  assert (omap made (g' :: gs) = omap made (g :: gs)) as Hm by (cbn; by rewrite Hmade).
  eapply inv_table; [by eapply terminated_grows| | | | | | |done|done]; rewrite ?Hm.
  - by eapply terminal_write_keyed.
  - subst t. rewrite dom_insert_L. assert (id ∈ dom (ops (mw a))) by (apply elem_of_dom; by exists op).
    set_solver.
  - subst t. apply map_Forall_insert_2; [|done]. apply row_ok_terminated; try done. by eapply Hr.
  - subst t. intros id' op' [[<- <-]|[_ Hop']]%lookup_insert_Some Hden; [|by left].
    exfalso. by apply (proj2 (legit_ended _ Hlegit)).
  - intros id' Hid'. split; [done|]. destruct (Hf id' Hid') as [_ Hn]. subst t.
    rewrite lookup_insert_ne; [done|congruence].
  - done.
Qed.

Lemma call_update g gs a ctx id upd (x : option error) t c :
  audit_inv (g :: gs) a ->
  legit upd -> seen_at g = Some (Upd_CompletedAt upd) ->
  (exists op, op ∈ known g /\ OperationID op = id) ->
  store_post _ (UpdateTerminal ctx id upd) (ops (mw a)) x t ->
  audit_inv (match x with None => add_end id upd g | Some _ => g end :: gs)
    (with_mw (did_store c t (mw a)) a).
Proof.
  intros Hinv Hlegit Hseen Hknown Hpost.
  assert (terminal_write (ops (mw a)) id upd t ->
          ghost_ok (with_mw (did_store c t (mw a)) a) g) as Hold.
  { intros Hw. eapply ghost_ok_grows; [|by eapply ghost_of_head].
    apply grows_mw; [simpl; lia|by eapply terminated_grows]. }
  destruct x as [err|]; cbn [store_post] in Hpost.
  - assert (t = ops (mw a) \/ terminal_write (ops (mw a)) id upd t) as [->|Hw] by naive_solver.
    + by apply inv_log.
    + eapply inv_end; try done. by apply Hold.
  - eapply inv_end; try done. destruct (Hold Hpost) as [F1 F2 F3 F4 F5 F6]. split; try done.
    intros id' upd' [[= -> ->]|Hin]%elem_of_cons; [|by apply F4].
    destruct Hpost as (op & at_ & _ & _ & ->). eexists. simpl. rewrite lookup_insert_eq.
    split; [done|]. split; [|done]. by apply legit_ended.
Qed.

(** Learning, now, of operations in the table, possibly ended since they were read. *)
Definition learn_now (a : AWorld) (l : list Operation) (g : Ghost) : Ghost :=
  learn l (set_seen (clock (mw a)) g).

Lemma learns_now a l g : ghost_ok a g -> learns l g (learn_now a l g).
Proof.
  intros [_ _ _ _ G3 _]. exists (clock (mw a)). split; [|done]. unfold seen_before.
  destruct (seen_at g) as [s|] eqn:Hs; [by apply G3|done].
Qed.

Lemma inv_learn g gs a l :
  audit_inv (g :: gs) a ->
  (forall op, op ∈ l -> in_table (ops (mw a)) op /\ RequestedAt op <= clock (mw a)) ->
  audit_inv (learn_now a l g :: gs) a.
Proof.
  intros Hinv Hl. pose proof (ghost_of_head _ _ _ Hinv) as [G1 G2 G5 G6 G3 G4].
  apply (inv_quiet g _ _ a); [split; [done|lia|apply table_grows_refl]|done..| |done].
  split; [done..|by intros s [= <-]|]. intros op Hin. simpl in Hin.
  apply elem_of_app in Hin as [Hin|Hin].
  - destruct (Hl op Hin) as [Ht Hr]. split; [done|]. by eexists.
  - destruct (G4 op Hin) as [Ht (s & Hs & Hle)]. split; [done|]. eexists. split; [done|].
    specialize (G3 s Hs). simpl. lia.
Qed.

Lemma call_reads g gs a l :
  audit_inv (g :: gs) a ->
  (forall op, op ∈ l -> ops (mw a) !! OperationID op = Some op) ->
  exists g', learns l g g' /\ audit_inv (g' :: gs) a.
Proof.
  intros Hinv Hl. exists (learn_now a l g). split; [by eapply learns_now, ghost_of_head|].
  apply inv_learn; [done|]. intros op Hin. specialize (Hl op Hin). split.
  - exists op. split; [done|apply same_origin_refl].
  - exact (row_requested _ _ (ai_rows _ _ Hinv _ _ Hl)).
Qed.

Lemma ex_log (P : Ghost -> Prop) gs a c :
  (exists g, P g /\ audit_inv (g :: gs) a) ->
  exists g, P g /\ audit_inv (g :: gs) (with_mw (did_store c (ops (mw a)) (mw a)) a).
Proof. intros (g & Hg & HI). exists g. split; [done|]. by apply inv_log. Qed.

(** The store's methods. *)
Lemma call_store g gs a X (e : storeE X) x t c :
  audit_inv (g :: gs) a -> audit_pre X (MStore e) g -> store_post X e (ops (mw a)) x t ->
  exists g', audit_step X (MStore e) g x g' /\
    audit_inv (g' :: gs) (with_mw (did_store c t (mw a)) a).
Proof.
  intros Hinv Hpre Hpost. destruct e as [ctx op|ctx id|ctx id upd|ctx t1|ctx]; simpl in *.
  - eexists. split; [done|]. apply call_put; [done|done|]. destruct x; done.
  - destruct Hpost as [-> Hx]. apply (ex_log (learns _ g)), call_reads; [done|].
    destruct x as [op|err]; [|by intros op ?%not_elem_of_nil].
    intros op' ->%list_elem_of_singleton. pose proof Hinv as [[Hk _] _ _ _ _ _].
    by rewrite (Hk _ _ Hx).
  - destruct Hpre as (Hl & Hs & Hk). eexists. split; [done|].
    by apply (call_update _ _ _ ctx).
  - destruct Hpost as [-> Hx]. apply (ex_log (learns _ g)), call_reads; [done|].
    destruct x as [l|err]; [|by intros op ?%not_elem_of_nil].
    intros op Hin. by apply Hx.
  - exists g. split; [done|]. subst t. by apply inv_log.
Qed.

(** A patch that follows the discipline is on record. *)
Lemma patch_ok_audited g gs a p : audit_inv (g :: gs) a -> patch_ok g p -> audited a p.
Proof.
  intros Hinv (op & id & Hk & Hd & Hw & Hr & Hg).
  pose proof (ghost_of_head _ _ _ Hinv) as [G1 G2 _ _ _ G4].
  destruct (G4 op Hk) as [(op' & Hop' & Hs) _]. exists (OperationID op), op', id.
  destruct (same_origin_request _ _ Hs) as (-> & -> & ->).
  split; [done|]. split; [by eapply describes_origin|]. split; [by eapply recorded_origin|]. auto.
Qed.

Lemma call_patch g gs a p b :
  audit_inv (g :: gs) a -> patch_ok g p ->
  audit_inv (g :: gs) (with_mw (add_patch (p, b) (mw a)) a).
Proof.
  intros Hinv Hp. pose proof (patch_ok_audited _ _ _ _ Hinv Hp) as Haud.
  assert (grows a (with_mw (add_patch (p, b) (mw a)) a)) as Hg
    by (apply grows_mw; [simpl; lia|apply table_grows_refl]).
  destruct Hinv as [H1 H2 H2' H3 H4 H5 H6]. split; try done.
  - intros p' b' Hin. simpl in Hin. apply elem_of_cons in Hin as [[= -> ->]|Hin].
    + by eapply audited_grows.
    + by eapply audited_grows, H3.
  - eapply Forall_impl; [exact H6|]. intros g1. by apply ghost_ok_grows.
Qed.

(** The clock advances and other bookkeeping of the world changes. *)
Lemma call_tick g gs a w' :
  audit_inv (g :: gs) a -> clock (mw a) <= clock w' -> ops w' = ops (mw a) ->
  used w' = used (mw a) -> patches w' = patches (mw a) ->
  audit_inv (g :: gs) (with_mw w' a).
Proof.
  intros Hinv Hc Ho Hu Hp. assert (grows a (with_mw w' a)) as Hg
    by (apply grows_mw; [done|rewrite Ho; apply table_grows_refl]).
  apply (inv_quiet g _ _ a); try done. eapply ghost_ok_grows; [done|]. by eapply ghost_of_head.
Qed.

Lemma call_ulid g gs a id :
  audit_inv (g :: gs) a -> id ∉ used (mw a) ->
  audit_inv (set_made (Some id) g :: gs) (with_mw (add_used id (mw a)) a).
Proof.
  intros Hinv Hid. pose proof (ghost_of_head _ _ _ Hinv) as [G1 G2 G5 G6 G3 G4].
  assert (audit_inv (set_made None g :: gs) a) as [[Hk Hd] Hr Hdn Hp Hnd Hf Hgs].
  { eapply inv_unmade; [done| |exact Hinv]. by split. }
  cbn in Hnd, Hf. apply Forall_cons in Hgs as [_ Hgs].
  assert (grows a (with_mw (add_used id (mw a)) a)) as Hg
    by (apply grows_mw; [simpl; lia|apply table_grows_refl]).
  split; simpl; try done.
  - split; [done|]. simpl. set_solver.
  - apply NoDup_cons. split; [|done]. intros Hin. by apply Hf in Hin as [? _].
  - intros id' [->|Hin]%elem_of_cons; [|destruct (Hf _ Hin); set_solver].
    split; [set_solver|]. apply not_elem_of_dom. set_solver.
  - constructor; [by split|]. eapply Forall_impl; [exact Hgs|]. intros g1. by apply ghost_ok_grows.
Qed.

Lemma call_mgr g gs a X (e : mgrE X) x w' :
  audit_inv (g :: gs) a -> audit_pre X e g -> mgr_post X e (mw a) x w' ->
  exists g', audit_step X e g x g' /\ audit_inv (g' :: gs) (with_mw w' a).
Proof.
  intros Hinv Hpre Hpost. destruct e as [X e|X e|X e|X e| | | | | | |]; simpl in Hpost.
  - destruct Hpost as (t & Ht & ->). by apply call_store.
  - exists g. split; [by destruct e|].
    destruct e; simpl in *; subst w'; [by apply call_patch..|by apply call_tick|by apply call_tick].
  - exists g. split; [by destruct e|]. destruct e; simpl in *; subst w'; by apply call_tick.
  - destruct e as [|l msg]; simpl in *.
    + destruct Hpost as [Hc ->]. exists (set_seen x g).
      pose proof (ghost_of_head _ _ _ Hinv) as [G1 G2 G5 G6 G3 G4]. split.
      * split; [|done]. unfold seen_before. destruct (seen_at g) as [s|] eqn:Hs; [|done].
        specialize (G3 s eq_refl). lia.
      * apply (inv_quiet g _ _ a); try done; [by apply grows_mw; [|apply table_grows_refl]|].
        split; [done..|by intros s [= <-]|]. intros op Hop. destruct (G4 op Hop) as [Ht (s & Hs & Hle)].
        split; [done|]. exists x. split; [done|]. specialize (G3 s Hs). lia.
    + exists g. split; [done|]. subst w'. by rewrite with_mw_same.
  - destruct Hpost as [Hid ->]. eexists. split; [done|]. by apply call_ulid.
  - exists g. split; [done|]. destruct Hpost as (t & c & Hc & _ & _ & ->). by apply call_tick.
  - exists g. split; [done|]. destruct Hpost as (t & c & Hc & _ & -> & _). by apply call_tick.
  - exists g. split; [done|]. destruct Hpost as (t & c & Hc & _ & -> & _). by apply call_tick.
  - exists g. split; [done|]. subst w'. by rewrite with_mw_same.
  - exists g. split; [done|]. subst w'. by rewrite with_mw_same.
  - exists g. split; [done|]. subst w'. by apply call_tick.
Qed.

(** A call of a handler that is not the manager's. *)
Lemma call_other g g' gs a a' :
  audit_inv (g :: gs) a -> mw a' = mw a -> (forall q, q ∈ asked a -> q ∈ asked a') ->
  made g' = made g -> known g' = known g -> ended g' = ended g -> seen_at g' = seen_at g ->
  (forall id, who g' = Some id -> verified a' id) ->
  (forall req, req ∈ granted g' -> allowed a' req) ->
  (forall req reason, (req, reason) ∈ refused g' -> refusal a' req reason) ->
  audit_inv (g' :: gs) a'.
Proof.
  intros Hinv Hw Hq Hm Hk He Hs H1 H2 H3.
  assert (grows a a') as Hg by (split; [done|rewrite Hw; lia|rewrite Hw; apply table_grows_refl]).
  apply (inv_quiet g _ _ a); rewrite ?Hw; try done.
  destruct (ghost_ok_grows a a' g Hg (ghost_of_head _ _ _ Hinv)) as [_ _ _ F6 F3 F4].
  split; rewrite ?Hk, ?He, ?Hs; auto.
Qed.

Lemma call_api g gs a X (e : apiE X) x a' :
  audit_inv (g :: gs) a -> spec_pre audit_proto e g -> api_post X e a x a' ->
  exists g', spec_post audit_proto e g x g' /\ audit_inv (g' :: gs) a'.
Proof.
  intros Hinv Hpre Hpost. pose proof (ghost_of_head _ _ _ Hinv) as [G1 G2 G5 G6 G3 G4].
  assert (forall a', mw a' = mw a -> (forall q, q ∈ asked a -> q ∈ asked a') ->
            ghost_ok a' g) as Hkeep.
  { intros a2 Hw Hq. eapply ghost_ok_grows; [|by split].
    split; [done|rewrite Hw; lia|rewrite Hw; apply table_grows_refl]. }
  assert (forall q, (forall q', q' ∈ asked a -> q' ∈ asked (ask q a)) /\ ghost_ok (ask q a) g) as Hask.
  { intros q. split; [by right|]. apply Hkeep; [done|by right]. }
  destruct e as [X e|ctx raw|ctx req|ctx| |s|b]; cbn in *.
  - destruct Hpost as (w' & Hw & ->). by apply call_mgr.
  - eexists. split; [done|]. subst a'. destruct (Hask (QVerify raw x)) as [Hq [F1 F2 F5 F6 _ _]].
    destruct x as [id|err]; apply (call_other g _ _ a); try done.
    intros id' [= <-]. exists raw. by left.
  - eexists. split; [done|]. subst a'. destruct (Hask (QAuthorize req x)) as [Hq [F1 F2 F5 F6 _ _]].
    destruct x as [dec [err|]]; [by apply (call_other g _ _ a)|].
    destruct (Allowed dec) eqn:Ha; apply (call_other g _ _ a); try done.
    + intros req' Hin. cbn in Hin. apply elem_of_cons in Hin as [->|Hin]; [|by apply F2].
      exists dec. split; [by left|done].
    + intros req' reason Hin. cbn in Hin. apply elem_of_cons in Hin as [[= -> ->]|Hin]; [|by apply F5].
      exists dec. split; [by left|done].
  - eexists. split; [done|]. subst a'. destruct (Hask (QReady x)) as [Hq [F1 F2 F5 F6 _ _]].
    by apply (call_other g _ _ a).
  - eexists. split; [done|]. subst a'. by apply (call_other g _ _ a).
  - eexists. split; [done|]. subst a'. by apply (call_other g _ _ a).
  - eexists. split; [done|]. subst a'. by apply (call_other g _ _ a).
Qed.

(** Rows are not lost. *)
Lemma call_table_grows g gs a X (e : apiE X) x a' :
  audit_inv (g :: gs) a -> spec_pre audit_proto e g -> api_post X e a x a' ->
  table_grows (ops (mw a)) (ops (mw a')).
Proof.
  intros Hinv Hpre Hpost.
  destruct e as [X e| | | | | |]; cbn in Hpost; try (subst a'; apply table_grows_refl).
  destruct Hpost as (w' & Hpost & ->). cbn [mw with_mw].
  destruct e as [X e|X e|X e|X e| | | | | | |]; simpl in *.
  - destruct Hpost as (t & Ht & ->). cbn [ops did_store].
    destruct e as [ctx op|ctx id|ctx id upd|ctx t1|ctx]; simpl in *.
    + destruct Hpre as (_ & Hm & _). destruct (put_grows _ _ _ _ Hinv Hm) as [_ Hput].
      pose proof (table_grows_refl (ops (mw a))).
      destruct x; naive_solver.
    + destruct Ht as [-> _]. apply table_grows_refl.
    + pose proof (table_grows_refl (ops (mw a))). pose proof (terminated_grows (ops (mw a)) id upd t).
      destruct x; naive_solver.
    + destruct Ht as [-> _]. apply table_grows_refl.
    + subst t. apply table_grows_refl.
  - destruct e; simpl in *; subst; apply table_grows_refl.
  - destruct e; simpl in *; subst; apply table_grows_refl.
  - destruct e; simpl in *; [destruct Hpost as [_ ->]|subst]; apply table_grows_refl.
  - destruct Hpost as [_ ->]. apply table_grows_refl.
  - destruct Hpost as (t & c & _ & _ & _ & ->). apply table_grows_refl.
  - destruct Hpost as (t & c & _ & _ & -> & _). apply table_grows_refl.
  - destruct Hpost as (t & c & _ & _ & -> & _). apply table_grows_refl.
  - subst. apply table_grows_refl.
  - subst. apply table_grows_refl.
  - subst. apply table_grows_refl.
Qed.

(** ** Every reachable state *)

(** A watcher started on an operation the goroutine knows. *)
Lemma inv_spawn g gs a op :
  audit_inv (g :: gs) a -> op ∈ known g ->
  audit_inv (g :: gs ++ [knowing op]) a.
Proof.
  intros Hinv Hop. pose proof (ghost_of_head _ _ _ Hinv) as [_ _ _ _ G3 G4].
  destruct (G4 op Hop) as [Ht (s & Hs & Hle)].
  assert (omap made (g :: gs ++ [knowing op]) =
          omap made (g :: gs)) as Hm.
  { rewrite app_comm_cons, omap_app. cbn. by rewrite app_nil_r. }
  destruct Hinv as [H1 H2 H2' H3 H4 H5 H6]. split; rewrite ?Hm; try done.
  rewrite app_comm_cons. apply Forall_app. split; [done|]. constructor; [|constructor].
  split; simpl; [done|by intros ? ?%not_elem_of_nil|by intros ? ? ?%not_elem_of_nil..| |].
  - intros s' [= <-]. specialize (G3 s Hs). lia.
  - intros op' ->%list_elem_of_singleton. split; [done|]. by eexists.
Qed.

Lemma spawned_follow X (e : apiE X) g :
  spec_pre audit_proto e g ->
  Forall2 (fun p g' => wp audit_proto p anything g') (gspawned X e) (gghosts X e).
Proof.
  intros _. destruct e as [X e| | | | | |]; try constructor.
  destruct e; try constructor; [|constructor].
  apply audit_of_manager, au_watchRollout. unfold still. by left.
Qed.

(** The steps of the pool. *)
Lemma audit_call pre g post X (e : apiE X) x a a' :
  audit_inv (pre ++ g :: post) a -> spec_pre audit_proto e g -> api_post X e a x a' ->
  exists g', spec_post audit_proto e g x g' /\ audit_inv (pre ++ g' :: post ++ gghosts X e) a'.
Proof.
  intros HI Hpre Hpost.
  assert (pre ++ g :: post ≡ₚ g :: pre ++ post) as Hperm by by rewrite Permutation_middle.
  apply (audit_inv_perm _ _ _ Hperm) in HI.
  destruct (call_api _ _ _ _ _ _ _ HI Hpre Hpost) as (g' & Hg' & HI'). exists g'. split; [done|].
  assert (g' :: (pre ++ post) ++ gghosts X e ≡ₚ pre ++ g' :: post ++ gghosts X e) as Hperm'
    by by rewrite <- app_assoc, Permutation_middle.
  eapply audit_inv_perm; [exact Hperm'|].
  destruct e as [X e| | | | | |]; try (by rewrite app_nil_r).
  destruct e; try (by rewrite app_nil_r). cbn in Hg'. subst g'. by apply inv_spawn.
Qed.

Lemma audit_enter gs a : audit_inv gs a -> audit_inv (gs ++ [ghost0]) a.
Proof.
  intros [H1 H2 H2' H3 H4 H5 H6]. assert (omap made (gs ++ [ghost0]) = omap made gs) as Hm
    by (rewrite omap_app; cbn; by rewrite app_nil_r).
  split; rewrite ?Hm; try done. apply Forall_app. split; [done|]. constructor; [|constructor].
  split; simpl; try done; intros *; by intros ?%not_elem_of_nil.
Qed.

Lemma audit_leave pre g post a : audit_inv (pre ++ g :: post) a -> audit_inv (pre ++ post) a.
Proof.
  intros HI. assert (pre ++ g :: post ≡ₚ g :: pre ++ post) as Hperm by by rewrite Permutation_middle.
  apply (audit_inv_perm _ _ _ Hperm) in HI. destruct HI as [H1 H2 H2' H3 H4 H5 H6].
  apply Forall_cons in H6 as [_ H6]. cbn in H4, H5. split; try done.
  - destruct (made g); [by apply NoDup_cons in H4 as [_ ?]|done].
  - intros id Hid. apply H5. destruct (made g); [by right|done].
Qed.

(** Where an execution starts: no goroutine, nothing patched, the rows of earlier
executions in order. *)
Record starting (a : AWorld) : Prop := {
  start_ids : ids_ok (mw a);
  start_rows : map_Forall (fun _ op => row_ok (clock (mw a)) op) (ops (mw a));
  start_patches : patches (mw a) = [];
}.

Lemma audit_start a : starting a -> born = ops (mw a) -> audit_inv [] a.
Proof.
  intros [Hids Hrows Hp] Hborn. split; try done; [intros id op; rewrite Hborn; by left|by rewrite Hp; intros p b ?%not_elem_of_nil|
    exact (NoDup_nil_2 (A:=string))|by intros id ?%not_elem_of_nil].
Qed.

Lemma gentry_follows p : gentry p -> wp audit_proto p anything ghost0.
Proof. intros [d rt r|n ctx]; [apply au_handle|apply audit_of_manager, au_StartSweeper]. Qed.

Lemma audit_reachable a0 ts a :
  starting a0 -> born = ops (mw a0) -> rtc gateway_step ([], a0) (ts, a) ->
  exists gs, audit_inv gs a.
Proof.
  intros Hstart Hborn Hsteps.
  destruct (pool_reachable_spawn api_env gspawned gentry True Ghost audit_proto anything audit_inv
              ghost0 gghosts) with (s0 := a0) (ts := ts) (s := a) as (gs & _ & HI); try done.
  - exact gentry_follows.
  - exact spawned_follow.
  - intros pre g post X e s x s'. apply audit_call.
  - exact audit_enter.
  - intros pre g post s _. apply audit_leave.
  - by apply audit_start.
  - by exists gs.
Qed.

End System.

Section Theorems.
Variables (m : Manager) (fuel evfuel : nat).

(** C2: every patch is audited.  Whatever requests arrive, however handlers, watchers
and the sweeper interleave, whatever calls fail and whoever dies: for every patch
that was sent, accepted or not, the table holds an operation with that action,
namespace, deployment, container and image, in the name of an identity that the
verifier gave for a token, and the authorizer allowed that action on that
deployment to that identity. *)
Theorem every_patch_is_audited a0 ts a p b :
  starting a0 -> rtc (gateway_step m fuel evfuel) ([], a0) (ts, a) ->
  (p, b) ∈ patches (mw a) -> audited a p.
Proof.
  intros Hstart Hsteps Hin.
  destruct (audit_reachable (before := ops (mw a0)) m fuel evfuel a0 ts a) as (gs & [_ _ _ H _ _ _]);
    try done. by eapply H.
Qed.

(** Every row of the table is well formed at all times: fixed columns that agree
with each other, a running operation without outcome, a denied one with the reason the
authorizer gave for refusing it (unless it was there before), an ended one with the
status, code, event and completion time of exactly one of the ways to end, in the order
of time. *)
Theorem rows_well_formed a0 ts a :
  starting a0 -> rtc (gateway_step m fuel evfuel) ([], a0) (ts, a) ->
  map_Forall (fun id op => OperationID op = id /\ row_ok (clock (mw a)) op /\
    (Status op = StatusDenied -> ops (mw a0) !! id = Some op \/ denied_by a op)) (ops (mw a)).
Proof.
  intros Hstart Hsteps.
  destruct (audit_reachable (before := ops (mw a0)) m fuel evfuel a0 ts a)
    as (gs & [[Hk _] H Hd _ _ _ _]); try done.
  intros id op Hop. split; [by apply Hk|]. split; [by eapply H|by apply Hd].
Qed.

End Theorems.
