(* ===== verification/PermitTrail.v ===== *)
(** * The gateway on Keycloak: no patch without a PERMIT

The handlers of [Api] with the Keycloak authorizer behind [d.Authz]: every
[Authorize] and [Ready] of a handler is the program of [Keycloak] that the code
calls there, all requests sharing its token, UUID and caches.  In every
interleaving each patch is backed by a verified token, an operation on record
and Keycloak's own answers. *)

From stdpp Require Import relations.
From S2P Require Import Prelude GoStrings GoRuntime GoNet GoJson Effects Authz Keycloak KeycloakSpec KeycloakRace Authn Kube Store Notify Manager ManagerSpec Api ApiSpec AuditTrail.

Local Open Scope string_scope.
Local Open Scope list_scope.
Local Open Scope Z_scope.

(** ** Handlers and authorizer together *)

(** The calls of the handlers, those of the Keycloak authorizer, and the moment an
authorization is answered. *)
Inductive gwE : Type -> Type :=
  | GApi {X} (e : apiE X) : gwE X
  | GKc {X} (e : kcE X) : gwE X
  | GAnswer (req : Request) (ans : Authz.Decision * option error) : gwE unit.

(** What [Authorize] returned: the decision, or an error. *)
Definition answer_of (ans : Authz.Decision * option error) : result error Authz.Decision :=
  match ans with (d, None) => Ok d | (_, Some err) => Err err end.

(** The state: the gateway's and the authorizer's, each with its clock. *)
Abbreviation GWorld := (AWorld * KWorld)%type (only parsing).

Definition gw_post X (e : gwE X) (s : GWorld) : X -> GWorld -> Prop :=
  match e in gwE X return X -> GWorld -> Prop with
  | GApi e => fun x s' => api_post _ e s.1 x s'.1 /\ s'.2 = s.2
  | GKc e => fun x s' => kc_post _ e s.2 x s'.2 /\ s'.1 = s.1
  | GAnswer req ans => fun _ s' => s' = (ask (QAuthorize req ans) s.1, s.2)
  end.

Definition gw_env : spec gwE GWorld :=
  {| spec_pre := fun _ _ _ => True; spec_post := gw_post |}.

Section System.
Context {before : Born}.
Variables (m : Manager) (fuel evfuel : nat).
Variable new_request_error : string -> string -> option error.
Variable IsPrint : Z -> bool.
Variable fold_unicode : string -> string -> bool.
Variable cfg : Keycloak.Config.

(** What runs at a call of a handler. *)
Definition behind X (e : apiE X) : prog gwE X :=
  match e in apiE X return prog gwE X with
  | AAuthorize ctx req =>
      ans ← hoist (@GKc) (KeycloakAuthorizer new_request_error IsPrint fold_unicode cfg ctx req);
      call (GAnswer req ans) ;;
      mret ans
  | AReady ctx => hoist (@GKc) (Ready new_request_error IsPrint cfg ctx)
  | e => call (GApi e)
  end.

Definition on_keycloak {A} (p : prog apiE A) : prog gwE A := plug behind p.

Definition kspawned X (e : gwE X) : list (prog gwE unit) :=
  match e with
  | GApi e => on_keycloak <$> gspawned m fuel evfuel _ e
  | _ => []
  end.

Inductive kentry : prog gwE unit -> Prop :=
  | kentry_on_keycloak p : gentry p -> kentry (on_keycloak p).

(** Requests, watchers and sweepers in any interleaving, dying at any time. *)
Definition keycloak_step := pstep gw_env kspawned kentry True.

(** ** The discipline: that of the handlers and that of the authorizer *)

Abbreviation KGhost := (Ghost * list exchange)%type (only parsing).

Definition gw_proto : spec gwE KGhost := {|
  spec_pre := fun X e =>
    match e with
    | GApi e => fun g =>
        match e with
        | AAuthorize _ _ | AReady _ => False
        | e => spec_pre audit_proto e g.1
        end
    | GKc e => fun g => spec_pre (know IsPrint fold_unicode cfg) e g.2
    | GAnswer req ans => fun g =>
        answer_fact IsPrint fold_unicode cfg req (answer_of ans) g.2
    end;
  spec_post := fun X e g =>
    match e in gwE X return X -> KGhost -> Prop with
    | GApi e => fun x g' => spec_post audit_proto e g.1 x g'.1 /\ g'.2 = g.2
    | GKc e => fun x g' => g'.1 = g.1 /\ spec_post (know IsPrint fold_unicode cfg) e g.2 x g'.2
    | GAnswer req ans => fun _ g' =>
        spec_post audit_proto (AAuthorize Background req) g.1 ans g'.1 /\ g'.2 = g.2
    end |}.

(** A handler's call keeps the authorizer's ghost, one of the authorizer the handler's. *)
Lemma kc_behind {A} (p : prog kcE A) (Q : A -> list exchange -> Prop) g :
  wp (know IsPrint fold_unicode cfg) p (returning Q) g.2 ->
  wp gw_proto (hoist (@GKc) p) (returning (fun a g' => g'.1 = g.1 /\ Q a g'.2)) g.
Proof.
  apply (wp_simulate (@GKc) _ gw_proto (fun k t => t.1 = g.1 /\ t.2 = k)); [..|done].
  - intros X e k t [Ht <-] Hpre. split; [done|]. intros x t' [Ht' Hpost].
    exists t'.2. split; [done|]. by rewrite Ht'.
  - intros [a|s] k t [Ht <-]; [|done]. by split.
Qed.

(** What stands behind a call keeps what the handler relies on. *)
Lemma behind_ok X (e : apiE X) h g :
  g.1 = h -> spec_pre audit_proto e h ->
  wp gw_proto (behind X e)
    (returning (fun x g' => exists h', spec_post audit_proto e h x h' /\ g'.1 = h')) g.
Proof.
  intros <- Hpre.
  destruct e as [X e|ctx raw|ctx req|ctx| |st|b]; cbn [behind].
  - split; [exact Hpre|]. intros x g' [H1 _]. by exists g'.1.
  - split; [exact I|]. intros x g' [H1 _]. by exists g'.1.
  - eapply (wp_seq _ _ _ (fun ans g' => g'.1 = g.1 /\
      answer_fact IsPrint fold_unicode cfg req (answer_of ans) g'.2)).
    + apply (kc_behind _ (fun ans k => answer_fact IsPrint fold_unicode cfg req (answer_of ans) k)).
      unfold KeycloakAuthorizer. eapply wp_seq; [apply kn_authorize|].
      intros r k [_ Hr]. by destruct r as [d|err].
    + intros ans g1 [Hg1 Hans]. split; [exact Hans|]. intros x g2 [Hg2 _]. rewrite Hg1 in Hg2.
      by exists g2.1.
  - eapply wp_mono; [|apply (kc_behind _ (fun _ _ => True))].
    + intros [x|s] g' H; [|done]. exists g.1. destruct H as [H _]. by split.
    + unfold Ready. eapply wp_seq; [apply kn_uuid|]. by intros r k _.
  - split; [exact I|]. intros x g' [H1 _]. by exists g'.1.
  - split; [exact I|]. intros x g' [H1 _]. by exists g'.1.
  - split; [exact I|]. intros x g' [H1 _]. by exists g'.1.
Qed.

Lemma on_keycloak_follows (p : prog apiE unit) h :
  wp audit_proto p anything h -> wp gw_proto (on_keycloak p) anything (h, []).
Proof.
  intros Hp.
  eapply wp_mono; [|apply (wp_plug behind audit_proto gw_proto (fun h g => g.1 = h) p anything h)];
    [done| |done|exact Hp].
  intros X e h' g Hg Hpre. by apply behind_ok.
Qed.

(** ** The invariant *)

(** The authorizations a request was answered. *)
Definition answers_of (l : list Asked) : list (Request * result error Authz.Decision) :=
  omap (fun q => match q with QAuthorize req ans => Some (req, answer_of ans) | _ => None end) l.

Record gw_inv (gs : list KGhost) (s : GWorld) : Prop := {
  gi_audit : audit_inv gs.*1 s.1;
  gi_backed : backed IsPrint fold_unicode cfg gs.*2 (s.2, answers_of (asked s.1));
}.

Lemma gw_inv_at pre g post s :
  gw_inv (pre ++ g :: post) s <->
  audit_inv (pre.*1 ++ g.1 :: post.*1) s.1 /\
  backed IsPrint fold_unicode cfg (pre.*2 ++ g.2 :: post.*2) (s.2, answers_of (asked s.1)).
Proof.
  rewrite <- !fmap_cons, <- !fmap_app. split; [by intros [H1 H2]|intros [H1 H2]; by split].
Qed.

(** The handlers make no call that the authorizer stands behind. *)
Definition direct X (e : apiE X) : Prop :=
  match e with AAuthorize _ _ | AReady _ => False | _ => True end.

Lemma gw_pre_api X (e : apiE X) g :
  spec_pre gw_proto (GApi e) g -> spec_pre audit_proto e g.1 /\ direct X e.
Proof. by destruct e. Qed.

(** Only [Authorize] adds an answer. *)
Lemma api_post_answers X (e : apiE X) a x a' :
  direct X e -> api_post X e a x a' ->
  answers_of (asked a') = answers_of (asked a).
Proof.
  destruct e; simpl; intros He Hpost; try done; try (by subst).
  by destruct Hpost as (w' & _ & ->).
Qed.

Definition kghosts X (e : gwE X) : list KGhost :=
  match e with
  | GApi e => (fun h => (h, [])) <$> gghosts _ e
  | _ => []
  end.

Lemma kghosts_fst X (e : apiE X) : (kghosts X (GApi e)).*1 = gghosts X e.
Proof. cbn [kghosts]. rewrite <- list_fmap_compose. apply list_fmap_id. Qed.

Lemma kspawned_follow X (e : gwE X) g :
  spec_pre gw_proto e g ->
  Forall2 (fun p g' => wp gw_proto p anything g') (kspawned X e) (kghosts X e).
Proof.
  destruct e as [X e| |]; [|by constructor..]. cbn [kspawned kghosts].
  intros Hpre. apply Forall2_fmap. eapply Forall2_impl; [|intros p h; apply on_keycloak_follows].
  apply (spawned_follow m fuel evfuel X e g.1). by apply gw_pre_api.
Qed.

Lemma backed_enters n gs s :
  backed IsPrint fold_unicode cfg gs s ->
  backed IsPrint fold_unicode cfg (gs ++ replicate n []) s.
Proof.
  revert gs. induction n as [|n IH]; intros gs HI; simpl; [by rewrite app_nil_r|].
  replace (gs ++ [] :: replicate n []) with ((gs ++ [[]]) ++ replicate n [])
    by (by rewrite <- app_assoc). by apply IH, backed_enter.
Qed.

Lemma kghosts_snd X (e : apiE X) :
  (kghosts X (GApi e)).*2 = replicate (length (gghosts X e)) [].
Proof. cbn [kghosts]. by induction (gghosts X e) as [|h l IH]; [|cbn; f_equal]. Qed.

Lemma gw_call_api pre g post X (e : apiE X) x s s' :
  gw_inv (pre ++ g :: post) s -> spec_pre gw_proto (GApi e) g -> gw_post X (GApi e) s x s' ->
  exists g', spec_post gw_proto (GApi e) g x g' /\
    gw_inv (pre ++ g' :: post ++ kghosts X (GApi e)) s'.
Proof.
  intros [H1 H2]%gw_inv_at [Hpre Hdir]%gw_pre_api [Hpost Hk].
  destruct (audit_call _ _ _ _ _ _ _ _ H1 Hpre Hpost) as (h' & Hh & H1').
  exists (h', g.2). split; [done|]. apply gw_inv_at. rewrite !fmap_app. split.
  - by rewrite kghosts_fst.
  - rewrite kghosts_snd, Hk, (api_post_answers _ _ _ _ _ Hdir Hpost).
    rewrite app_comm_cons, app_assoc. by apply backed_enters.
Qed.

Lemma gw_call pre g post X (e : gwE X) s x s' :
  gw_inv (pre ++ g :: post) s -> spec_pre gw_proto e g -> gw_post X e s x s' ->
  exists g', spec_post gw_proto e g x g' /\ gw_inv (pre ++ g' :: post ++ kghosts X e) s'.
Proof.
  intros HI Hpre Hpost. destruct e as [X e|X e|req ans]; [by eapply gw_call_api| |].
  - apply gw_inv_at in HI as [H1 H2]. destruct Hpost as [Hpost Ha].
    destruct (backed_call _ _ _ _ _ _ _ _ _ _ _ _ H2 Hpre Hpost) as [Hl H2'].
    exists (g.1, exchanges s'.2). cbn [kghosts]. rewrite app_nil_r. split.
    + split; [done|]. split; [|done]. etrans; [apply (backed_known _ _ _ _ _ H2)|].
      * apply elem_of_app. right. by left.
      * by eapply kc_post_grows.
    + apply gw_inv_at. by rewrite Ha.
  - cbn [gw_post] in Hpost. subst s'. apply gw_inv_at in HI as [H1 H2].
    destruct (audit_call _ _ _ _ (AAuthorize Background req) ans _ _ H1 I eq_refl)
      as (h' & Hh & H1').
    exists (h', g.2). split; [by split|]. cbn [kghosts]. rewrite app_nil_r.
    cbn [gghosts] in H1'. rewrite app_nil_r in H1'.
    apply gw_inv_at. split; [done|]. by apply backed_answers.
Qed.

Lemma gw_reachable s0 ts s :
  starting s0.1 -> born = ops (mw s0.1) -> asked s0.1 = [] -> s0.2 = fresh_service ->
  rtc keycloak_step ([], s0) (ts, s) -> exists gs, gw_inv gs s.
Proof.
  intros Hstart Hborn Hasked Hk Hsteps.
  destruct (pool_reachable_spawn gw_env kspawned kentry True KGhost gw_proto anything gw_inv
              (ghost0, []) kghosts) with (s0 := s0) (ts := ts) (s := s) as (gs & _ & HI); try done.
  - intros p [q Hq]. by apply on_keycloak_follows, gentry_follows.
  - exact kspawned_follow.
  - intros pre g post X e s1 x s2. apply gw_call.
  - intros gs s1 [H1 H2]. split; rewrite fmap_app; [by apply audit_enter|by apply backed_enter].
  - intros pre g post s1 _ [H1 H2]%gw_inv_at.
    split; rewrite !fmap_app; [by eapply audit_leave|by eapply backed_leave].
  - split; [by apply audit_start|]. rewrite Hasked, Hk. apply backed_fresh.
  - by exists gs.
Qed.

(** ** No patch without a PERMIT *)

(** The table holds the operation a patch was sent for, in the name of an identity
verified from a token; and Keycloak returned that identity's own user, a PERMIT for
that user, deployment and action, and ref constraints that match its ref. *)
Definition permitted_patch (s : GWorld) (p : Patch) : Prop :=
  exists opID op raw id, ops (mw s.1) !! opID = Some op /\ describes op p /\
    QVerify raw (Ok id) ∈ asked s.1 /\ recorded_for id op /\
    let req := authz_request id (Action op) (Namespace op) (Store.Deployment op) in
    nul_free req -> permit_fact IsPrint fold_unicode cfg (exchanges s.2) req.

(** What is on record for a patch is what Keycloak permitted. *)
Lemma audited_permitted gs s p : gw_inv gs s -> audited s.1 p -> permitted_patch s p.
Proof.
  intros [_ H2] (opID & op & id & Hop & Hd & Hr & (raw & Hv) & (dec & Ha & Hal)).
  exists opID, op, raw, id. do 4 (split; [done|]). intros req Hn.
  apply (backed_answer _ _ _ _ _ H2 req (Ok dec)) with (d := dec); try done.
  apply list_elem_of_omap. by exists (QAuthorize req (dec, None)).
Qed.

End System.

Section Theorems.
Variables (m : Manager) (fuel evfuel : nat).
Variable new_request_error : string -> string -> option error.
Variable IsPrint : Z -> bool.
Variable fold_unicode : string -> string -> bool.
Variable cfg : Keycloak.Config.

(** No patch without a PERMIT.  The whole gateway on Keycloak: whatever requests
arrive, however handlers, watchers and the sweeper interleave and share the
authorizer's caches, whatever the verifier, Keycloak, Kubernetes and the store answer
and whoever dies, every patch that was sent is backed by a verified token, a row of the
table and Keycloak's permission.  (Of a request with a NUL byte in a field only the
record is shown; it cannot spoil the caches for others.) *)
Theorem every_patch_is_permitted s0 ts s p b :
  starting s0.1 -> asked s0.1 = [] -> s0.2 = fresh_service ->
  rtc (keycloak_step m fuel evfuel new_request_error IsPrint fold_unicode cfg) ([], s0) (ts, s) ->
  (p, b) ∈ patches (mw s.1) -> permitted_patch IsPrint fold_unicode cfg s p.
Proof.
  intros Hstart Hasked Hk Hsteps Hin.
  pose (before := ops (mw s0.1) : Born).
  destruct (gw_reachable m fuel evfuel new_request_error IsPrint fold_unicode cfg s0 ts s)
    as (gs & HI); try done.
  apply (audited_permitted _ _ _ gs); [done|]. by eapply ai_patches, Hin; apply HI.
Qed.

End Theorems.
