(* ===== verification/AuditDemo.v ===== *)
(** * A runnable gateway

[api_sim] answers the calls of the handlers: a verifier that knows one token, an
authorizer that allows one repository, and the manager's environment of
[ManagerDemo]; [gw_sim] adds the scripted Keycloak of [KeycloakDemo].  Runs computed
with them are runs of [gateway_step] and [keycloak_step]; the witnesses apply the
theorems of [AuditTrail] and [PermitTrail] to such runs. *)

From stdpp Require Import relations.
From S2P Require Import Prelude GoStrings GoRuntime GoNet GoJson Effects Authz Keycloak KeycloakSpec KeycloakRace KeycloakDemo Authn Kube Store Notify Manager ManagerSpec ManagerWatch ManagerRace ManagerDemo Api ApiSpec AuditTrail PermitTrail.

Local Open Scope string_scope.
Local Open Scope list_scope.
Local Open Scope Z_scope.

Definition sim_verify (raw : string) : result error GitHubIdentity :=
  if String.eqb raw "octocat's token" then Ok octocat else Err (ErrText "invalid token").

Definition sim_authorize (req : Request) : Authz.Decision * option error :=
  if String.eqb (Req_Repository req) "tuncloud/backend"
  then ({| Allowed := true; Reason := "" |}, None)
  else ({| Allowed := false; Reason := "repository not in policy" |}, None).

Definition api_sim X (e : apiE X) (a : AWorld) : X * AWorld :=
  match e in apiE X return X * AWorld with
  | AM e => let (x, w) := sim third_time_lucky None _ e (mw a) in (x, with_mw w a)
  | AVerify _ raw => (sim_verify raw, ask (QVerify raw (sim_verify raw)) a)
  | AAuthorize _ req => (sim_authorize req, ask (QAuthorize req (sim_authorize req)) a)
  | AReady _ => (None, ask (QReady None) a)
  | ASetJSON => (tt, set_json a)
  | AWriteHeader s => (tt, write_header s a)
  | AWrite b => (tt, write_body b a)
  end.

Lemma api_sim_ok X (e : apiE X) a :
  well_keyed (ops (mw a)) ->
  api_post X e a (api_sim X e a).1 (api_sim X e a).2 /\
  well_keyed (ops (mw (api_sim X e a).2)).
Proof.
  intros Hk. destruct e as [X e| | | | | |]; try done.
  destruct (sim_ok third_time_lucky None X e (mw a) Hk) as [Hpost _].
  pose proof (mgr_post_keyed _ _ _ _ _ Hpost Hk) as Hk'.
  cbn [api_sim api_post]. destruct (sim _ _ X e (mw a)) as [x w]. cbn [fst snd] in *.
  split; [by exists w|done].
Qed.

(** Interleaving the goroutines against [api_sim] is an execution of the gateway. *)
Lemma api_sim_steps m fuel evfuel picks ts a :
  well_keyed (ops (mw a)) ->
  rtc (gateway_step m fuel evfuel) (ts, a) (sched (gspawned m fuel evfuel) api_sim picks ts a).
Proof.
  intros Hk. apply (sched_psteps _ _ _ _ _ (fun a => well_keyed (ops (mw a)))); [|done].
  intros X e s. apply api_sim_ok.
Qed.

(** ** A run

Two requests from the same job, one with a token nobody knows; and a sweeper. *)
Definition restart_request (token : string) : HRequest := {|
  R_Context := Background; R_Authorization := "Bearer " +:+ token;
  R_Body := Marshal (JObj [("namespace", JStr "app"); ("deployment", JStr "api")]);
  R_Broken := false;
  R_OperationID := "" |}.

Definition deps : Deps := {| AuthzTimeout := 0; ChecksReadiness := false |}.

Definition request_of (token : string) : prog apiE unit :=
  handle deps PostRestart (restart_request token).

Definition idle_gateway : AWorld := mkA idle_world [] false None [].

(** The requests take turns, then the watcher looks three times and ends. *)
Definition gateway_run : list (prog apiE unit) * AWorld :=
  sched (gspawned gateway_manager 9 9) api_sim
    (concat (replicate 20 [0; 1]%nat) ++ replicate 30 2%nat)
    [request_of "octocat's token"; request_of "somebody's token"] idle_gateway.

Lemma gateway_run_reached : rtc (gateway_step gateway_manager 9 9) ([], idle_gateway) gateway_run.
Proof.
  eapply rtc_l; [apply (pstep_enter _ _ _ _ (request_of "octocat's token")); constructor|].
  eapply rtc_l; [apply (pstep_enter _ _ _ _ (request_of "somebody's token")); constructor|].
  apply api_sim_steps, idle_world_ids.
Qed.

(** It patched once and the operation has ended. *)
Example gateway_run_result :
  patches (mw gateway_run.2) = [(PRestart "app" "api", true)] /\
  (Status <$> ops (mw gateway_run.2) !! "op_") = Some StatusSucceeded.
Proof. vm_compute. split; reflexivity. Qed.

Lemma idle_starting : starting idle_gateway.
Proof. split; [apply idle_world_ids|apply map_Forall_empty|done]. Qed.

Lemma every_patch_is_audited_witness :
  patches (mw gateway_run.2) = [(PRestart "app" "api", true)] /\
  audited gateway_run.2 (PRestart "app" "api").
Proof.
  assert (patches (mw gateway_run.2) = [(PRestart "app" "api", true)]) as Hp
    by (vm_compute; reflexivity).
  split; [exact Hp|].
  apply (every_patch_is_audited gateway_manager 9 9 idle_gateway gateway_run.1 gateway_run.2
           (PRestart "app" "api") true idle_starting).
  - rewrite <- surjective_pairing. exact gateway_run_reached.
  - rewrite Hp. apply list_elem_of_singleton. reflexivity.
Defined.

Lemma rows_well_formed_witness :
  exists op, ops (mw gateway_run.2) !! "op_" = Some op /\ Status op = StatusSucceeded /\
    OperationID op = "op_" /\ is_ended (clock (mw gateway_run.2)) op.
Proof.
  destruct (ops (mw gateway_run.2) !! "op_") as [op|] eqn:Hop;
    [|exfalso; revert Hop; vm_compute; discriminate].
  assert (Status op = StatusSucceeded) as Hst.
  { apply (f_equal (fmap Status)) in Hop. revert Hop. vm_compute. congruence. }
  exists op. split; [reflexivity|]. split; [exact Hst|].
  assert (rtc (gateway_step gateway_manager 9 9) ([], idle_gateway)
            (gateway_run.1, gateway_run.2)) as Hreach
    by (rewrite <- surjective_pairing; exact gateway_run_reached).
  destruct (rows_well_formed gateway_manager 9 9 idle_gateway gateway_run.1 gateway_run.2
              idle_starting Hreach "op_" op Hop) as [Hid [[_ _ Hlife] _]].
  split; [exact Hid|].
  destruct Hlife as [[H _]|[[H _]|H]]; [| |exact H]; rewrite Hst in H; discriminate H.
Defined.

(** ** A run on Keycloak *)

Definition users : list (string * string) := [("id-7", "TunCloud/Backend")].

Definition gw_sim X (e : gwE X) (s : AWorld * KWorld) : X * (AWorld * KWorld) :=
  match e in gwE X return X * (AWorld * KWorld) with
  | GApi e => let (x, a) := api_sim _ e s.1 in (x, (a, s.2))
  | GKc e => let (x, k) := kc_sim "PERMIT" users _ e s.2 in (x, (s.1, k))
  | GAnswer req ans => (tt, (ask (QAuthorize req ans) s.1, s.2))
  end.

Lemma gw_sim_ok X (e : gwE X) s :
  well_keyed (ops (mw s.1)) ->
  gw_post X e s (gw_sim X e s).1 (gw_sim X e s).2 /\
  well_keyed (ops (mw (gw_sim X e s).2.1)).
Proof.
  intros Hk. destruct e as [X e|X e|req ans]; cbn [gw_sim gw_post].
  - destruct (api_sim_ok X e s.1 Hk) as [Hpost Hk']. by destruct (api_sim X e s.1).
  - pose proof (kc_sim_ok "PERMIT" users X e s.2 I) as Hpost. by destruct (kc_sim _ _ X e s.2).
  - done.
Qed.

Abbreviation on_sso := (on_keycloak no_error ascii_only no_fold cfg).
Abbreviation sso_step := (keycloak_step gateway_manager 9 9 no_error ascii_only no_fold cfg).

(** The two requests of before, and a watcher. *)
Definition keycloak_run : list (prog gwE unit) * (AWorld * KWorld) :=
  sched (kspawned gateway_manager 9 9 no_error ascii_only no_fold cfg) gw_sim
    (concat (replicate 90 [0; 1]%nat) ++ replicate 30 2%nat)
    [on_sso (request_of "octocat's token"); on_sso (request_of "somebody's token")]
    (idle_gateway, fresh_service).

Lemma keycloak_run_reached : rtc sso_step ([], (idle_gateway, fresh_service)) keycloak_run.
Proof.
  eapply rtc_l; [apply (pstep_enter _ _ _ _ (on_sso (request_of "octocat's token"))); do 2 constructor|].
  eapply rtc_l; [apply (pstep_enter _ _ _ _ (on_sso (request_of "somebody's token"))); do 2 constructor|].
  apply (sched_psteps _ _ _ _ _ (fun s => well_keyed (ops (mw s.1)))); [|apply idle_world_ids].
  intros X e s. apply gw_sim_ok.
Qed.

(** A restart was patched and settled; Keycloak was asked for a token, the user,
the resource server, the evaluation and the ref constraints. *)
Example keycloak_run_result :
  patches (mw keycloak_run.2.1) = [(PRestart "app" "api", true)] /\
  (Status <$> ops (mw keycloak_run.2.1) !! "op_") = Some StatusSucceeded /\
  length (exchanges keycloak_run.2.2) = 5%nat.
Proof. vm_compute. repeat split. Qed.

Lemma every_patch_is_permitted_witness :
  patches (mw keycloak_run.2.1) = [(PRestart "app" "api", true)] /\
  permitted_patch ascii_only no_fold cfg keycloak_run.2 (PRestart "app" "api") /\
  nul_free (authz_request octocat ActionRestart "app" "api").
Proof.
  assert (patches (mw keycloak_run.2.1) = [(PRestart "app" "api", true)]) as Hp
    by (vm_compute; reflexivity).
  split; [exact Hp|]. split; [|vm_compute; repeat split].
  apply (every_patch_is_permitted gateway_manager 9 9 no_error ascii_only no_fold cfg
           (idle_gateway, fresh_service) keycloak_run.1 keycloak_run.2
           (PRestart "app" "api") true idle_starting eq_refl eq_refl).
  - rewrite <- surjective_pairing. exact keycloak_run_reached.
  - rewrite Hp. apply list_elem_of_singleton. reflexivity.
Defined.
