(* ===== verification/WireTrail.v ===== *)
(** * The gateway down to the texts of its patches

The gateway of [PermitTrail] with the client of internal/kube behind the manager's
interface to Kubernetes: every restart and rollout the manager asks for is the program
of [KubeClient], retries included, and what reaches the API server is a text.  In every
interleaving, each text sent says a patch that Keycloak permitted and the table records,
and nothing else. *)

From stdpp Require Import relations.
From S2P Require Import Prelude GoStrings GoRuntime GoNet GoJson GoJsonSpec GoTime Effects Authz Keycloak KeycloakSpec KeycloakRace Authn Kube KubeClient Store Notify Manager ManagerSpec Api ApiSpec AuditTrail PermitTrail.

Local Open Scope string_scope.
Local Open Scope list_scope.
Local Open Scope Z_scope.

(** ** Gateway and client together *)

Inductive wireE : Type -> Type :=
  | WGw {X} (e : gwE X) : wireE X
  | WCg {X} (e : cgE X) : wireE X.

(** A patch as it reached the API server, and the answer. *)
Record Sent : Type := mkSent {
  sent_namespace : string; sent_name : string; sent_text : string;
  sent_answer : option error }.

(** The state of the gateway and the patches sent, latest first. *)
Abbreviation WireWorld := (AWorld * KWorld * list Sent)%type (only parsing).

(** The client reads the manager's clock; the API server is free in its answers. *)
Definition client_post X (e : cgE X) (s : WireWorld) : X -> WireWorld -> Prop :=
  match e in cgE X return X -> WireWorld -> Prop with
  | CRt e => fun x s' => api_post _ (AM (MRt e)) s.1.1 x s'.1.1 /\ s'.1.2 = s.1.2 /\ s'.2 = s.2
  | KubeClient.Patch _ ns name text => fun x s' => s' = (s.1, mkSent ns name text x :: s.2)
  | _ => fun _ s' => s' = s
  end.

Definition wire_post X (e : wireE X) (s : WireWorld) : X -> WireWorld -> Prop :=
  match e in wireE X return X -> WireWorld -> Prop with
  | WGw e => fun x s' => gw_post _ e s.1 x s'.1 /\ s'.2 = s.2
  | WCg e => client_post _ e s
  end.

Definition wire_env : spec wireE WireWorld :=
  {| spec_pre := fun _ _ _ => True; spec_post := wire_post |}.

Section System.
Context {before : Born}.
Variables (m : Manager) (fuel evfuel : nat).
Variable new_request_error : string -> string -> option error.
Variable IsPrint : Z -> bool.
Variable fold_unicode : string -> string -> bool.
Variable cfg : Keycloak.Config.
Variable RetryOnConflict : prog cgE (option error) -> prog cgE (option error).
Hypothesis RetryOnConflict_retries : retries_only RetryOnConflict.

(** What runs at a call of the gateway. *)
Definition kube_behind X (e : kubeE X) : prog wireE X :=
  match e in kubeE X return prog wireE X with
  | Kube.RestartDeployment ctx ns name =>
      hoist (@WCg) (KubeClient.RestartDeployment IsPrint RetryOnConflict ctx ns name)
  | Kube.RolloutDeployment ctx ns name c image =>
      hoist (@WCg) (KubeClient.RolloutDeployment IsPrint RetryOnConflict ctx ns name c image)
  | e => call (WGw (GApi (AM (MKube e))))
  end.

Definition mgr_behind X (e : mgrE X) : prog wireE X :=
  match e in mgrE X return prog wireE X with
  | MKube e => kube_behind _ e
  | e => call (WGw (GApi (AM e)))
  end.

Definition api_behind X (e : apiE X) : prog wireE X :=
  match e in apiE X return prog wireE X with
  | AM e => mgr_behind _ e
  | e => call (WGw (GApi e))
  end.

Definition wire_behind X (e : gwE X) : prog wireE X :=
  match e in gwE X return prog wireE X with
  | GApi e => api_behind _ e
  | e => call (WGw e)
  end.

Definition on_wire {A} (p : prog gwE A) : prog wireE A := plug wire_behind p.

Abbreviation on_sso := (on_keycloak new_request_error IsPrint fold_unicode cfg) (only parsing).

Definition wspawned X (e : wireE X) : list (prog wireE unit) :=
  match e with
  | WGw e => on_wire <$> kspawned m fuel evfuel new_request_error IsPrint fold_unicode cfg _ e
  | _ => []
  end.

Inductive wentry : prog wireE unit -> Prop :=
  | wentry_on_wire p : gentry p -> wentry (on_wire (on_sso p)).

(** Requests, watchers and sweepers in any interleaving, dying at any time. *)
Definition wire_step := pstep wire_env wspawned wentry True.

(** ** What a text says *)

(** [text], sent with a stamp of the instant [t], says the patch [p]: read as JSON it is
the object of [p], or no JSON at all when a name is not printable. *)
Definition carries (p : ManagerSpec.Patch) (t : Z) (ns name text : string) : Prop :=
  match p with
  | PRestart ns' name' =>
      ns = ns' /\ name = name' /\ says True text (restart_object (Format_RFC3339Nano t))
  | PRollout ns' name' c image =>
      ns = ns' /\ name = name' /\
      says (printable c = true /\ printable image = true) text
        (rollout_object (Format_RFC3339Nano t) c image)
  end.

(** ** The discipline *)

(** A goroutine's knowledge, and the instant read for the patch to come. *)
Abbreviation WGhost := (Ghost * list exchange * option Z)%type (only parsing).

(** The calls that only the client makes. *)
Definition is_patch X (e : gwE X) : Prop :=
  match e with
  | GApi (AM (MKube (Kube.RestartDeployment _ _ _))) => True
  | GApi (AM (MKube (Kube.RolloutDeployment _ _ _ _ _))) => True
  | _ => False
  end.

Abbreviation gw_proto' := (gw_proto IsPrint fold_unicode cfg) (only parsing).

Definition wire_proto : spec wireE WGhost := {|
  spec_pre := fun X e g =>
    match e with
    | WGw e => ~ is_patch _ e /\ spec_pre gw_proto' e g.1
    | WCg (CRt _) => True
    | WCg (KubeClient.Patch _ ns name text) =>
        exists p t, patch_ok g.1.1 p /\ g.2 = Some t /\ carries p t ns name text
    | WCg _ => False
    end;
  spec_post := fun X e g =>
    match e in wireE X return X -> WGhost -> Prop with
    | WGw e => fun x g' => spec_post gw_proto' e g.1 x g'.1 /\ g'.2 = g.2
    | WCg e => fun x g' => g'.1 = g.1 /\
        match e in cgE X return X -> Prop with
        | CRt e =>
            match e in rtE X return X -> Prop with
            | TimeNow => fun t => g'.2 = Some t
            | LogLine _ _ => fun _ => True
            end
        | _ => fun _ => True
        end x
    end |}.

Lemma client_sends ctx ns name p text g :
  patch_ok g.1.1 p -> (forall t, carries p t ns name (text (Format_RFC3339Nano t))) ->
  wp wire_proto
    (hoist (@WCg) (RetryOnConflict (
       stamp ← restartStamp; call (KubeClient.Patch ctx ns name (text stamp)))))
    (returning (fun _ g' => g'.1 = g.1)) g.
Proof.
  intros Hp Htext. apply wp_hoist.
  apply (RetryOnConflict_retries _ _ (fun g' => g'.1 = g.1)); [|done]. intros s Hs.
  unfold restartStamp. cbv beta delta [mbind mret prog_bind prog_ret trigger call inj Sub_rt_cg].
  cbn [bind wp]. split; [exact I|]. intros t g1 [Hg1 Ht]. cbn in Ht.
  split; [exists p, t; by rewrite Hg1, Hs|]. intros x g2 [Hg2 _]. simpl. by rewrite Hg2, Hg1, Hs.
Qed.

(** What stands behind a call keeps what the gateway relies on. *)
Lemma direct_ok X (e : gwE X) g :
  ~ is_patch X e -> spec_pre gw_proto' e g.1 ->
  wp wire_proto (call (WGw e))
    (returning (fun x g' => exists h', spec_post gw_proto' e g.1 x h' /\ g'.1 = h')) g.
Proof. intros Hn Hpre. split; [done|]. intros x g' [Hpost _]. by exists g'.1. Qed.

Lemma kube_behind_ok X (e : kubeE X) g :
  spec_pre gw_proto' (GApi (AM (MKube e))) g.1 ->
  wp wire_proto (kube_behind X e)
    (returning (fun x g' => exists h',
       spec_post gw_proto' (GApi (AM (MKube e))) g.1 x h' /\ g'.1 = h')) g.
Proof.
  intros Hpre. destruct e as [ctx ns name|ctx ns name c image|ctx ns name|ctx ns name];
    [| |by apply direct_ok; [intros []|]..]; cbn [kube_behind].
  - eapply wp_mono; [|apply (client_sends ctx ns name (PRestart ns name) (KubeClient.restart_patch IsPrint) g)].
    + intros [x|s] g' H; [|done]. by exists g.1.
    + exact Hpre.
    + intros t. split; [done|]. split; [done|]. apply restart_patch_says, Format_printable.
  - unfold KubeClient.RolloutDeployment. case_decide as Hc; [by exists g.1|].
    eapply wp_mono; [|apply (client_sends ctx ns name (PRollout ns name c image)
                               (fun stamp => KubeClient.rollout_patch IsPrint stamp c image) g)].
    + intros [x|s] g' H; [|done]. by exists g.1.
    + exact Hpre.
    + intros t. split; [done|]. split; [done|]. apply rollout_patch_says, Format_printable.
Qed.

Lemma wire_behind_ok X (e : gwE X) h g :
  g.1 = h -> spec_pre gw_proto' e h ->
  wp wire_proto (wire_behind X e)
    (returning (fun x g' => exists h', spec_post gw_proto' e h x h' /\ g'.1 = h')) g.
Proof.
  intros <- Hpre. destruct e as [X e|X e|req ans]; [|by apply direct_ok; [intros []|]..].
  destruct e as [X e| | | | | |]; [|by apply direct_ok; [intros []|]..].
  destruct e as [X e|X e|X e|X e| | | | | | |]; try (by apply direct_ok; [intros []|]).
  by apply kube_behind_ok.
Qed.

Lemma on_wire_follows (p : prog gwE unit) h :
  wp gw_proto' p anything h -> wp wire_proto (on_wire p) anything (h, None).
Proof.
  intros Hp.
  eapply wp_mono; [|apply (wp_plug wire_behind gw_proto' wire_proto (fun h g => g.1 = h) p anything h)];
    [done| |done|exact Hp].
  intros X e h' g Hg Hpre. by apply wire_behind_ok.
Qed.

(** ** The invariant

The manager's own world counts no patches here; what was sent takes their place. *)

Definition set_patches (ps : list (ManagerSpec.Patch * bool)) (w : World) : World :=
  mkWorld (ops w) (clock w) (cancelled w) (used w) (seen w) ps (notices w) (watchers w) (stored w).

Definition with_patches (ps : list (ManagerSpec.Patch * bool)) (s : AWorld * KWorld) :
    AWorld * KWorld :=
  (with_mw (set_patches ps (mw s.1)) s.1, s.2).

(** [msg] carries the patch [p]. *)
Definition carried (p : ManagerSpec.Patch) (msg : Sent) : Prop :=
  exists t, carries p t (sent_namespace msg) (sent_name msg) (sent_text msg).

Definition wire_inv (gs : list WGhost) (s : WireWorld) : Prop :=
  exists ps, gw_inv IsPrint fold_unicode cfg gs.*1 (with_patches ps s.1) /\
    forall msg, msg ∈ s.2 -> exists p b, (p, b) ∈ ps /\ carried p msg.

(** Calls other than patches do not look at the patches. *)
Lemma mgr_post_patches ps X (e : mgrE X) w x w' :
  ~ is_patch _ (GApi (AM e)) -> mgr_post X e w x w' ->
  mgr_post X e (set_patches ps w) x (set_patches ps w').
Proof.
  intros Hn Hpost.
  destruct e as [X e|X e|X e|X e| | | | | | |]; simpl in *.
  - destruct Hpost as (t & Ht & ->). by exists t.
  - destruct e; simpl in *; first [by destruct Hn|by subst].
  - destruct e; simpl in *; by subst.
  - destruct e; simpl in *; [by destruct Hpost as [? ->]|by subst].
  - by destruct Hpost as [? ->].
  - destruct Hpost as (t & c & ? & ? & ? & ->). by exists t, c.
  - destruct Hpost as (t & c & ? & ? & -> & ?). by exists t, c.
  - destruct Hpost as (t & c & ? & ? & -> & ?). by exists t, c.
  - by subst.
  - by subst.
  - by subst.
Qed.

Lemma gw_post_patches ps X (e : gwE X) s x s' :
  ~ is_patch X e -> gw_post X e s x s' ->
  gw_post X e (with_patches ps s) x (with_patches ps s').
Proof.
  intros Hn Hpost. destruct e as [X e|X e|req ans]; cbn [gw_post] in *.
  - destruct Hpost as [Hpost Hk]. split; [|done].
    destruct e as [X e| | | | | |]; simpl in *;
      [|by (rewrite Hpost; destruct s as [[]])..].
    destruct Hpost as (w' & Hw & Ha). exists (set_patches ps w').
    split; [by apply mgr_post_patches|by rewrite Ha].
  - destruct Hpost as [Hpost Hk]. split; [done|]. unfold with_patches. by rewrite Hk.
  - by subst.
Qed.

Definition wghosts X (e : wireE X) : list WGhost :=
  match e with
  | WGw e => (fun h => (h, None)) <$> kghosts _ e
  | _ => []
  end.

Lemma wspawned_follow X (e : wireE X) g :
  spec_pre wire_proto e g ->
  Forall2 (fun p g' => wp wire_proto p anything g') (wspawned X e) (wghosts X e).
Proof.
  destruct e as [X e|X e]; [|by constructor]. cbn [wspawned wghosts].
  intros [_ Hpre]. apply Forall2_fmap. eapply Forall2_impl; [|intros p h; apply on_wire_follows].
  by eapply kspawned_follow.
Qed.

(** The handlers' half of the invariant, around one goroutine. *)
Lemma gw_inv_audit pre g post s a' :
  gw_inv IsPrint fold_unicode cfg (pre ++ g :: post) s -> asked a' = asked s.1 ->
  (forall gs, audit_inv (g.1 :: gs) s.1 -> audit_inv (g.1 :: gs) a') ->
  gw_inv IsPrint fold_unicode cfg (pre ++ g :: post) (a', s.2).
Proof.
  intros HI Ha Hstep. apply gw_inv_at in HI as [H1 H2]. apply gw_inv_at.
  cbn [fst snd]. split; [|by rewrite Ha].
  assert (forall a, audit_inv (pre.*1 ++ g.1 :: post.*1) a <->
                    audit_inv (g.1 :: pre.*1 ++ post.*1) a) as Hperm.
  { intros a. split; apply audit_inv_perm; by rewrite Permutation_middle. }
  by apply Hperm, Hstep, Hperm.
Qed.

Lemma fmap_middle {A B} (f : A -> B) pre g post :
  f <$> (pre ++ g :: post) = (f <$> pre) ++ f g :: (f <$> post).
Proof. by rewrite fmap_app. Qed.

Lemma wire_call_gw pre g post X (e : gwE X) s x s' :
  wire_inv (pre ++ g :: post) s -> spec_pre wire_proto (WGw e) g -> wire_post X (WGw e) s x s' ->
  exists g', spec_post wire_proto (WGw e) g x g' /\
    wire_inv (pre ++ g' :: post ++ wghosts X (WGw e)) s'.
Proof.
  intros (ps & HI & Hsent) [Hn Hpre] [Hpost Hs]. rewrite fmap_middle in HI.
  destruct (gw_call IsPrint fold_unicode cfg _ _ _ _ _ _ _ _ HI Hpre (gw_post_patches ps _ _ _ _ _ Hn Hpost))
    as (h' & Hh & HI').
  exists (h', g.2). split; [done|]. exists ps. rewrite Hs. split; [|done].
  rewrite fmap_middle, fmap_app. cbn [wghosts]. rewrite <- list_fmap_compose.
  by rewrite list_fmap_id.
Qed.

Lemma wire_call_client pre g post X (e : cgE X) s x s' :
  wire_inv (pre ++ g :: post) s -> spec_pre wire_proto (WCg e) g -> wire_post X (WCg e) s x s' ->
  exists g', spec_post wire_proto (WCg e) g x g' /\ wire_inv (pre ++ g' :: post) s'.
Proof.
  intros (ps & HI & Hsent) Hpre Hpost.
  assert (forall o, (pre ++ (g.1, o) :: post).*1 = (pre ++ g :: post).*1) as Hsame
    by (intros o; by rewrite !fmap_middle).
  destruct e as [X e|ctx ns name text|ctx ns name|ctx ns sel]; [|..|done|done].
  - destruct Hpost as (Hpost & Hk & Hs). destruct e as [|l msg].
    + destruct Hpost as (w' & [Hc ->] & Ha). exists (g.1, Some x). split; [done|]. exists ps.
      rewrite Hsame, Hs. split; [|done]. rewrite fmap_middle in *. unfold with_patches in *.
      rewrite Ha, Hk. apply (gw_inv_audit _ _ _ _ _ HI); [done|]. intros gs Hgs.
      by apply (call_tick _ _ _ (set_patches ps (set_clock x (mw s.1.1))) Hgs).
    + destruct Hpost as (w' & -> & Ha). exists g. split; [done|]. exists ps. rewrite Hs.
      split; [|done]. unfold with_patches in *. rewrite Ha, Hk. by rewrite with_mw_same.
  - cbn in Hpost. subst s'. destruct Hpre as (p & t & Hp & Ht & Htext).
    exists (g.1, None). split; [done|]. exists ((p, bool_decide (x = None)) :: ps).
    rewrite Hsame. split.
    + rewrite fmap_middle in *.
      apply (gw_inv_audit _ _ _ _ (with_patches ((p, bool_decide (x = None)) :: ps) s.1).1 HI);
        [done|]. intros gs Hgs. by apply (call_patch _ _ _ _ (bool_decide (x = None)) Hgs).
    + intros msg [->|Hin]%elem_of_cons.
      * exists p, (bool_decide (x = None)). split; [by left|by exists t].
      * destruct (Hsent msg Hin) as (q & b & Hq & Hc). exists q, b. split; [by right|done].
Qed.

Lemma wire_call pre g post X (e : wireE X) s x s' :
  wire_inv (pre ++ g :: post) s -> spec_pre wire_proto e g -> wire_post X e s x s' ->
  exists g', spec_post wire_proto e g x g' /\ wire_inv (pre ++ g' :: post ++ wghosts X e) s'.
Proof.
  destruct e as [X e|X e]; [apply wire_call_gw|]. intros HI Hpre Hpost.
  destruct (wire_call_client _ _ _ _ _ _ _ _ HI Hpre Hpost) as (g' & Hg & HI').
  exists g'. cbn [wghosts]. by rewrite app_nil_r.
Qed.

(** Rows are not lost, whoever calls what. *)
Lemma gw_grows pre g post s X (e : gwE X) x s' :
  gw_inv IsPrint fold_unicode cfg (pre ++ g :: post) s -> spec_pre gw_proto' e g ->
  gw_post X e s x s' -> table_grows (ops (mw s.1)) (ops (mw s'.1)).
Proof.
  intros HI Hpre Hpost. apply gw_inv_at in HI as [HI _].
  apply (audit_inv_perm _ (g.1 :: pre.*1 ++ post.*1)) in HI; [|by rewrite Permutation_middle].
  destruct e as [X e|X e|req ans]; cbn [gw_post] in Hpost.
  - apply gw_pre_api in Hpre as [Hpre _]. destruct Hpost as [Hpost _].
    by eapply call_table_grows.
  - destruct Hpost as [_ ->]. apply table_grows_refl.
  - subst s'. apply table_grows_refl.
Qed.

Lemma wire_grows pre g post s X (e : wireE X) x s' :
  wire_inv (pre ++ g :: post) s -> spec_pre wire_proto e g -> wire_post X e s x s' ->
  table_grows (ops (mw s.1.1)) (ops (mw s'.1.1)).
Proof.
  intros (ps & HI & _) Hpre Hpost. rewrite fmap_middle in HI. destruct e as [X e|X e].
  - destruct Hpre as [Hn Hpre], Hpost as [Hpost _].
    exact (gw_grows _ _ _ _ _ _ _ _ HI Hpre (gw_post_patches ps _ _ _ _ _ Hn Hpost)).
  - destruct e as [X e| | |]; cbn in Hpost; try (subst s'; apply table_grows_refl).
    destruct Hpost as ((w' & Hw & ->) & _ & _). cbn [mw with_mw].
    destruct e; simpl in Hw; [destruct Hw as [_ ->]|subst w']; apply table_grows_refl.
Qed.

(** Whatever the log of the store's calls says. *)
Lemma wire_relog l gs a k sent :
  wire_inv gs (a, k, sent) -> wire_inv gs (with_mw (set_log l (mw a)) a, k, sent).
Proof.
  intros (ps & [H1 H2] & Hsent). exists ps. split; [|done]. split; [|done].
  exact (inv_relog l _ _ H1).
Qed.

(** What a goroutine knows is so. *)
Lemma wire_ghost_ok pre g post s :
  wire_inv (pre ++ g :: post) s -> exists a, ops (mw a) = ops (mw s.1.1) /\
    clock (mw a) = clock (mw s.1.1) /\ ghost_ok a g.1.1.
Proof.
  intros (ps & HI & _). rewrite fmap_middle in HI. apply gw_inv_at in HI as [HI _].
  apply (audit_inv_perm _ (g.1.1 :: pre.*1.*1 ++ post.*1.*1)) in HI;
    [|by rewrite Permutation_middle].
  eexists. split; [|split; [|exact (ghost_of_head _ _ _ HI)]]; done.
Qed.

Lemma wire_rows gs s :
  wire_inv gs s ->
  map_Forall (fun id op => OperationID op = id /\ row_ok (clock (mw s.1.1)) op) (ops (mw s.1.1)).
Proof.
  intros (ps & [[[Hk _] Hr _ _ _ _ _] _] & _) id op Hop. split; [by apply Hk|by apply (Hr id)].
Qed.

Lemma wire_denied gs s id op :
  wire_inv gs s -> ops (mw s.1.1) !! id = Some op -> Status op = StatusDenied ->
  born !! id = Some op \/ denied_by s.1.1 op.
Proof. intros (ps & [[_ _ Hd _ _ _ _] _] & _). apply Hd. Qed.

Lemma wire_known pre g post s op :
  wire_inv (pre ++ g :: post) s -> op ∈ known g.1.1 -> in_table (ops (mw s.1.1)) op.
Proof.
  intros HI Hop. destruct (wire_ghost_ok _ _ _ _ HI) as (a & <- & _ & Hg).
  exact (proj1 (gok_known _ _ Hg op Hop)).
Qed.

(** A goroutine learns, or forgets, something without a call. *)
Lemma wire_swap pre g g1 post s :
  wire_inv (pre ++ g :: post) s ->
  (forall gs a, ops (mw a) = ops (mw s.1.1) -> clock (mw a) = clock (mw s.1.1) ->
     audit_inv (g.1.1 :: gs) a -> audit_inv (g1 :: gs) a) ->
  wire_inv (pre ++ (g1, g.1.2, g.2) :: post) s.
Proof.
  intros (ps & HI & Hsent) Hswap. exists ps. split; [|done]. rewrite fmap_middle in *.
  apply gw_inv_at in HI as [H1 H2]. apply gw_inv_at. split; [|done]. cbn [fst snd] in *.
  apply (audit_inv_perm (g1 :: pre.*1.*1 ++ post.*1.*1)); [by rewrite Permutation_middle|].
  apply Hswap; [done..|]. by apply (audit_inv_perm (pre.*1.*1 ++ g.1.1 :: post.*1.*1));
    [by rewrite Permutation_middle|].
Qed.

(** ** Where an execution starts *)

Record wire_starting (s : WireWorld) : Prop := {
  wire_start : starting s.1.1;
  wire_asked : asked s.1.1 = [];
  wire_service : s.1.2 = fresh_service;
  wire_sent : s.2 = [];
}.

Lemma wire_enter gs s : wire_inv gs s -> wire_inv (gs ++ [(ghost0, [], None)]) s.
Proof.
  intros (ps & [H1 H2] & H3). exists ps. split; [|done]. rewrite fmap_app.
  split; rewrite fmap_app; [by apply audit_enter|by apply backed_enter].
Qed.

Lemma wire_leave pre g post s : wire_inv (pre ++ g :: post) s -> wire_inv (pre ++ post) s.
Proof.
  intros (ps & HI & H3). exists ps. split; [|done].
  rewrite fmap_middle in HI. apply gw_inv_at in HI as [H1 H2]. rewrite fmap_app.
  split; rewrite !fmap_app; [by eapply audit_leave|by eapply backed_leave].
Qed.

Lemma wire_start_inv s : wire_starting s -> born = ops (mw s.1.1) -> wire_inv [] s.
Proof.
  intros [[H1 H2 H3] Hasked Hk Hsent] Hborn. exists [].
  split; [|by rewrite Hsent; intros msg ?%not_elem_of_nil]. split; simpl.
  - by apply audit_start.
  - rewrite Hasked, Hk. apply backed_fresh.
Qed.

Lemma wire_reachable s0 ts s :
  wire_starting s0 -> born = ops (mw s0.1.1) -> rtc wire_step ([], s0) (ts, s) ->
  exists gs, wire_inv gs s.
Proof.
  intros Hstart Hborn Hsteps.
  destruct (pool_reachable_spawn wire_env wspawned wentry True WGhost wire_proto anything wire_inv
              (ghost0, [], None) wghosts) with (s0 := s0) (ts := ts) (s := s) as (gs & _ & HI); try done.
  - intros p [q Hq]. by apply on_wire_follows, on_keycloak_follows, gentry_follows.
  - exact wspawned_follow.
  - intros pre g post X e s1 x s2. apply wire_call.
  - exact wire_enter.
  - intros pre g post s1 _. apply wire_leave.
  - by apply wire_start_inv.
  - by exists gs.
Qed.

Lemma wire_inv_permitted gs s msg :
  wire_inv gs s -> msg ∈ s.2 ->
  exists p, carried p msg /\ permitted_patch IsPrint fold_unicode cfg s.1 p.
Proof.
  intros (ps & HI & Hsent) Hin.
  destruct (Hsent msg Hin) as (p & b & Hp & Hc). exists p. split; [done|].
  apply (audited_permitted _ _ _ _ (with_patches ps s.1) p HI).
  by eapply ai_patches, Hp; apply HI.
Qed.

End System.

Section Theorems.
Variables (m : Manager) (fuel evfuel : nat).
Variable new_request_error : string -> string -> option error.
Variable IsPrint : Z -> bool.
Variable fold_unicode : string -> string -> bool.
Variable cfg : Keycloak.Config.
Variable RetryOnConflict : prog cgE (option error) -> prog cgE (option error).
Hypothesis RetryOnConflict_retries : retries_only RetryOnConflict.

Abbreviation wire_step' :=
  (wire_step m fuel evfuel new_request_error IsPrint fold_unicode cfg RetryOnConflict)
  (only parsing).

(** What reaches Kubernetes.  The whole gateway, from the bytes of the requests to
the bytes of the patches: whatever requests arrive, however handlers, watchers and the
sweeper interleave and share the authorizer's caches, whatever the verifier, Keycloak,
the API server and the store answer and whoever dies, every text the API server was
sent carries a patch that is permitted: read as JSON it is that restart or rollout and
nothing else, or no JSON when a name is not printable; a verified token and a row of the
table stand behind it, and, for a request without NUL bytes, Keycloak's own answers
permit it. *)
Theorem every_text_is_permitted s0 ts s msg :
  wire_starting s0 -> rtc wire_step' ([], s0) (ts, s) -> msg ∈ s.2 ->
  exists p, carried p msg /\ permitted_patch IsPrint fold_unicode cfg s.1 p.
Proof.
  intros Hstart Hsteps Hin. pose (before := ops (mw s0.1.1) : Born).
  destruct (wire_reachable m fuel evfuel new_request_error IsPrint fold_unicode cfg RetryOnConflict
              RetryOnConflict_retries s0 ts s) as [gs HI]; try done.
  by eapply wire_inv_permitted.
Qed.

End Theorems.
