(* ===== verification/WireDemo.v ===== *)
(** * A runnable gateway, down to its patches

[wire_sim] adds an API server to [AuditDemo.gw_sim]: it refuses the first patch with a
conflict and accepts the next.  The job asks for a rollout of an image whose name tries
to add fields to the patch. *)

From stdpp Require Import relations.
From S2P Require Import Prelude GoStrings GoRuntime GoNet GoJson GoJsonSpec GoTime Effects Authz Keycloak KeycloakSpec KeycloakRace KeycloakDemo Authn Kube KubeClient Store Notify Manager ManagerSpec ManagerWatch ManagerRace ManagerDemo Api ApiSpec AuditTrail PermitTrail AuditDemo WireTrail.

Local Open Scope string_scope.
Local Open Scope list_scope.
Local Open Scope Z_scope.

Definition conflict : error := ErrTyped "Conflict" "the object has been modified".

Definition client_sim X (e : cgE X) (s : AWorld * KWorld * list Sent) :
    X * (AWorld * KWorld * list Sent) :=
  match e in cgE X return X * (AWorld * KWorld * list Sent) with
  | CRt e => let (x, a) := api_sim _ (AM (MRt e)) s.1.1 in (x, (a, s.1.2, s.2))
  | KubeClient.Patch _ ns name text =>
      let answer := match s.2 with [] => Some conflict | _ => None end in
      (answer, (s.1, mkSent ns name text answer :: s.2))
  | CGet _ _ _ | CWatch _ _ _ => (Err conflict, s)
  end.

Definition wire_sim X (e : wireE X) (s : AWorld * KWorld * list Sent) :
    X * (AWorld * KWorld * list Sent) :=
  match e in wireE X return X * (AWorld * KWorld * list Sent) with
  | WGw e => let (x, g) := gw_sim _ e s.1 in (x, (g, s.2))
  | WCg e => client_sim _ e s
  end.

Lemma wire_sim_ok X (e : wireE X) s :
  well_keyed (ops (mw s.1.1)) ->
  wire_post X e s (wire_sim X e s).1 (wire_sim X e s).2 /\
  well_keyed (ops (mw (wire_sim X e s).2.1.1)).
Proof.
  intros Hk. destruct e as [X e|X e]; cbn [wire_sim wire_post].
  - destruct (gw_sim_ok X e s.1 Hk) as [Hpost Hk']. by destruct (gw_sim X e s.1).
  - destruct e as [X e| | |]; cbn [client_sim client_post]; try done.
    destruct (api_sim_ok X (AM (MRt e)) s.1.1 Hk) as [Hpost Hk'].
    by destruct (api_sim X (AM (MRt e)) s.1.1).
Qed.

(** ** A run *)

Definition dq : string := String (ascii_of_nat 34) "".

(** [app:2"}],"hostNetwork":true,"x":[{"y":"] *)
Definition sly_image : string :=
  "app:2" +:+ dq +:+ "}]," +:+ dq +:+ "hostNetwork" +:+ dq +:+ ":true," +:+ dq +:+ "x" +:+ dq +:+
  ":[{" +:+ dq +:+ "y" +:+ dq +:+ ":" +:+ dq.

Definition rollout_request : HRequest := {|
  R_Context := Background; R_Authorization := "Bearer octocat's token";
  R_Body := Marshal (JObj [("namespace", JStr "app"); ("deployment", JStr "api");
                           ("container", JStr "web"); ("image", JStr sly_image)]);
  R_Broken := false; R_OperationID := "" |}.

Abbreviation wired :=
  (on_wire ascii_only (retry_n 3)
     (on_sso (handle deps PostRollout rollout_request))) (only parsing).
Abbreviation wstep :=
  (wire_step gateway_manager 9 9 no_error ascii_only no_fold cfg (retry_n 3)) (only parsing).

Definition idle_wire : AWorld * KWorld * list Sent := (idle_gateway, fresh_service, []).

Lemma idle_wire_starting : wire_starting idle_wire.
Proof. split; [apply idle_starting|done..]. Qed.

Definition wire_run : list (prog wireE unit) * (AWorld * KWorld * list Sent) :=
  sched (wspawned gateway_manager 9 9 no_error ascii_only no_fold cfg (retry_n 3)) wire_sim
    (replicate 120 0%nat ++ replicate 30 1%nat) [wired] idle_wire.

Lemma wire_run_reached : rtc wstep ([], idle_wire) wire_run.
Proof.
  eapply rtc_l; [apply (pstep_enter _ _ _ _ wired); do 2 constructor|].
  apply (sched_psteps _ _ _ _ _ (fun s => well_keyed (ops (mw s.1.1)))); [|apply idle_world_ids].
  intros X e s. apply wire_sim_ok.
Qed.

(** Two attempts, the second accepted. *)
Example wire_run_result :
  (sent_answer <$> wire_run.2.2) = [None; Some conflict] /\
  (Status <$> ops (mw wire_run.2.1.1) !! "op_") = Some StatusSucceeded.
Proof. vm_compute. split; reflexivity. Qed.

(** Each attempt with a stamp of its own; the image stays a string. *)
Example sly_image_stays_a_string :
  ((fun msg => Unmarshal (sent_text msg)) <$> wire_run.2.2) =
  [Some (rollout_object "0001-01-01T00:00:00.000000004Z" "web" sly_image);
   Some (rollout_object "0001-01-01T00:00:00.000000003Z" "web" sly_image)].
Proof. vm_compute. reflexivity. Qed.

Lemma every_text_is_permitted_witness :
  length wire_run.2.2 = 2%nat /\
  Forall (fun msg => exists p, carried p msg /\
            permitted_patch ascii_only no_fold cfg wire_run.2.1 p) wire_run.2.2.
Proof.
  split; [vm_compute; reflexivity|]. apply Forall_forall. intros msg Hin.
  apply (every_text_is_permitted gateway_manager 9 9 no_error ascii_only no_fold cfg (retry_n 3)
           (retry_n_retries 3) idle_wire wire_run.1 wire_run.2 msg idle_wire_starting).
  - rewrite <- surjective_pairing. exact wire_run_reached.
  - exact Hin.
Defined.
