(* ===== verification/ChatTrail.v ===== *)
(** * The gateway down to its chat messages

The gateway of [WireTrail] with the notifier of internal/notify behind the manager's
announcements: every [Started] and [Resolved] is the program of [Telegram], and the
goroutines it starts, their requests, retries and waits, run among the others.  In
every interleaving each request to the Bot API is for the configured chat, and its text
is the rendering of an operation on record. *)

From stdpp Require Import relations.
From S2P Require Import Prelude GoStrings GoRuntime GoNet GoJson GoJsonSpec GoTime Effects Authz Keycloak KeycloakSpec KeycloakRace Authn Kube KubeClient Store Notify Telegram TelegramSpec Manager ManagerSpec Api ApiSpec AuditTrail PermitTrail WireTrail.

Local Open Scope string_scope.
Local Open Scope list_scope.
Local Open Scope Z_scope.

(** ** Gateway and notifier together *)

Inductive chatE : Type -> Type :=
  | FWire {X} (e : wireE X) : chatE X
  | FTg {X} (e : tgE X) : chatE X.

(** The state so far, and the requests made to the Bot API, latest first. *)
Abbreviation ChatWorld := (AWorld * KWorld * list Sent * list HttpRequest)%type (only parsing).

(** Telegram, the notifier's clock and its timers answer as they like. *)
Definition chat_post X (e : chatE X) (s : ChatWorld) : X -> ChatWorld -> Prop :=
  match e in chatE X return X -> ChatWorld -> Prop with
  | FWire e => fun x s' => wire_post _ e s.1 x s'.1 /\ s'.2 = s.2
  | FTg (TDo _ _ req) => fun _ s' => s' = (s.1, req :: s.2)
  | FTg _ => fun _ s' => s' = s
  end.

Definition chat_env : spec chatE ChatWorld :=
  {| spec_pre := fun _ _ _ => True; spec_post := chat_post |}.

(** ** Requests that carry a text *)

(** [req] sends [text] to the chat, or puts it in the place of a message there. *)
Definition posts (tp : transport) (chatID text : string) (req : HttpRequest) : Prop :=
  req = bot_request tp "sendMessage" (send_payload chatID text) \/
  exists messageID,
    req = bot_request tp "editMessageText" (edit_payload chatID messageID text).

(** The notifier's goroutines make such requests only. *)
Definition poster (tp : transport) (chatID text : string) : spec tgE unit := {|
  spec_pre := fun X e _ =>
    match e with
    | TDo _ _ req => posts tp chatID text req
    | TNewMessage | GoStarted _ _ | GoResolved _ _ => False
    | _ => True
    end;
  spec_post := fun _ _ _ _ _ => True |}.

Section Poster.
Variable new_request_error : string -> string -> option error.
Variable tp : transport.
Variable chatID text : string.

Ltac po_call x := split; [first [exact I | done]|]; intros x [] _.

Lemma call_from_posts left attempt err ctx method payload :
  posts tp chatID text (bot_request tp method payload) ->
  wp (poster tp chatID text) (call_from new_request_error tp left attempt err ctx method payload)
    (returning (fun _ _ => True)) tt.
Proof.
  intros Hreq. revert attempt err. induction left as [|left IH]; intros attempt err; [done|].
  cbn [call_from]. eapply wp_seq with (R := fun _ _ => True).
  - unfold once. destruct (new_request_error _ _); [done|]. unfold client_Do. tg_unfold. cbn [bind wp].
    split; [exact Hreq|]. intros r [] _. cbn [bind wp]. destruct r as [resp|]; [|done].
    destruct (DecodeBody _ _) as [j|]; [|done]. by destruct (dec_apiResponse j no_response).
  - intros a [] _. destruct (judge tp attempt method a); [done..|]. tg_unfold. cbn [bind wp].
    po_call slept. destruct slept; [apply IH|done].
Qed.

Lemma bot_call_posts ctx method payload :
  posts tp chatID text (bot_request tp method payload) ->
  wp (poster tp chatID text) (bot_call new_request_error tp ctx method payload)
    (returning (fun _ _ => True)) tt.
Proof. apply call_from_posts. Qed.

Lemma send_posts ctx :
  wp (poster tp chatID text) (send new_request_error tp ctx chatID text)
    (returning (fun _ _ => True)) tt.
Proof. unfold send. eapply wp_seq; [apply bot_call_posts; by left|done]. Qed.

Lemma edit_posts ctx messageID :
  wp (poster tp chatID text) (edit new_request_error tp ctx chatID messageID text)
    (returning (fun _ _ => True)) tt.
Proof. unfold edit. eapply wp_seq; [apply bot_call_posts; right; by exists messageID|done]. Qed.

Lemma send_started_posts msg :
  wp (poster tp chatID text) (send_started new_request_error tp chatID msg text) anything tt.
Proof.
  unfold send_started. tg_unfold. cbn [bind wp]. po_call now.
  eapply wp_seq; [apply send_posts|]. intros r [] _. destruct r; cbn [bind wp]; [by po_call x|].
  po_call x. by po_call y.
Qed.

Lemma send_resolved_posts msg :
  wp (poster tp chatID text) (send_resolved new_request_error tp chatID msg text) anything tt.
Proof.
  unfold send_resolved. eapply wp_seq with (R := fun _ _ => True).
  { destruct msg as [msg|]; [|done]. unfold wait. tg_unfold. cbn [bind wp]. by po_call r. }
  intros id [] _. tg_unfold. cbn [bind wp]. po_call now. destruct (id =? 0).
  - eapply wp_seq; [apply send_posts|]. intros r [] _. destruct r; cbn [bind wp]; [done|by po_call x].
  - eapply wp_seq; [apply edit_posts|]. intros r [] _. destruct r; cbn [bind wp]; [by po_call x|done].
Qed.

End Poster.

(** ** The system *)

Section System.
Context {before : Born}.
Variables (m : Manager) (fuel evfuel : nat).
Variable new_request_error : string -> string -> option error.
Variable IsPrint : Z -> bool.
Variable fold_unicode : string -> string -> bool.
Variable cfg : Keycloak.Config.
Variable RetryOnConflict : prog cgE (option error) -> prog cgE (option error).
Hypothesis RetryOnConflict_retries : retries_only RetryOnConflict.
Variable tp : transport.
Variable chatID : string.

(** What runs at a call of the manager to its notifier. *)
Definition notify_behind X (e : notifyE X) : prog chatE X :=
  match e in notifyE X return prog chatE X with
  | Notify.Started op => hoist (@FTg) (telegram_Started op)
  | Notify.Resolved op msg => hoist (@FTg) (telegram_Resolved op msg)
  end.

Definition chat_behind_mgr X (e : mgrE X) : prog chatE X :=
  match e in mgrE X return prog chatE X with
  | MNotify e => notify_behind _ e
  | e => call (FWire (WGw (GApi (AM e))))
  end.

Definition chat_behind_api X (e : apiE X) : prog chatE X :=
  match e in apiE X return prog chatE X with
  | AM e => chat_behind_mgr _ e
  | e => call (FWire (WGw (GApi e)))
  end.

Definition chat_behind_gw X (e : gwE X) : prog chatE X :=
  match e in gwE X return prog chatE X with
  | GApi e => chat_behind_api _ e
  | e => call (FWire (WGw e))
  end.

Definition chat_behind X (e : wireE X) : prog chatE X :=
  match e in wireE X return prog chatE X with
  | WGw e => chat_behind_gw _ e
  | e => call (FWire e)
  end.

Definition on_chat {A} (p : prog wireE A) : prog chatE A := plug chat_behind p.

Abbreviation on_all p :=
  (on_chat (on_wire IsPrint RetryOnConflict (on_keycloak new_request_error IsPrint fold_unicode cfg p)))
  (only parsing).

(** The watchers, and the goroutines of the notifier. *)
Definition cspawned X (e : chatE X) : list (prog chatE unit) :=
  match e with
  | FWire e =>
      on_chat <$> wspawned m fuel evfuel new_request_error IsPrint fold_unicode cfg RetryOnConflict _ e
  | FTg e => hoist (@FTg) <$> tg_spawned new_request_error tp chatID _ e
  end.

Inductive centry : prog chatE unit -> Prop :=
  | centry_on_all p : gentry p -> centry (on_all p).

(** Requests, watchers, sweepers and messages in any interleaving, dying at any time. *)
Definition chat_step := pstep chat_env cspawned centry True.

(** ** The discipline *)

(** A goroutine of the gateway, or one of the notifier with its text. *)
Inductive CGhost : Type :=
  | Gateway (g : Ghost * list exchange * option Z)
  | Poster (text : string).

(** [text] is the rendering of a running operation the goroutine knows, or of one it knows
to have ended, as it ended. *)
Definition renders (g : Ghost) (text : string) : Prop :=
  (exists op, op ∈ known g /\ is_running op /\ text = render op) \/
  (exists op0 upd, op0 ∈ known g /\ (OperationID op0, upd) ∈ ended g /\
     text = render (applyTerminal op0 upd)).

Definition is_notice X (e : wireE X) : Prop :=
  match e with WGw (GApi (AM (MNotify _))) => True | _ => False end.

Abbreviation wire_proto' := (wire_proto IsPrint fold_unicode cfg) (only parsing).

Definition chat_pre X (e : chatE X) (g : CGhost) : Prop :=
  match g, e with
  | Gateway g, FWire e => ~ is_notice _ e /\ spec_pre wire_proto' e g
  | Gateway g, FTg e =>
      match e with
      | GoStarted _ text | GoResolved _ text => renders g.1.1 text
      | TNewMessage => True
      | _ => False
      end
  | Poster _, FWire _ => False
  | Poster text, FTg e => spec_pre (poster tp chatID text) e tt
  end.

Definition chat_step_post X (e : chatE X) (g : CGhost) : X -> CGhost -> Prop :=
  match e in chatE X return X -> CGhost -> Prop with
  | FWire e => fun x g' =>
      match g with
      | Gateway g => exists h, g' = Gateway h /\ spec_post wire_proto' e g x h
      | Poster _ => False
      end
  | FTg _ => fun _ g' => g' = g
  end.

Definition chat_proto : spec chatE CGhost := {| spec_pre := chat_pre; spec_post := chat_step_post |}.

Lemma poster_follows (p : prog tgE unit) text :
  wp (poster tp chatID text) p anything tt ->
  wp chat_proto (hoist (@FTg) p) anything (Poster text).
Proof.
  intros Hp. apply (wp_simulate (@FTg) (poster tp chatID text) chat_proto
    (fun _ g => g = Poster text) p anything anything tt (Poster text)); [|done|done|done].
  intros X e [] g -> Hpre. split; [done|]. intros x g' ->. by exists tt.
Qed.

Definition keeps (h : Ghost * list exchange * option Z) (g : CGhost) : Prop := g = Gateway h.

Lemma chat_direct_ok X (e : wireE X) h :
  ~ is_notice X e -> spec_pre wire_proto' e h ->
  wp chat_proto (call (FWire e))
    (returning (fun x g' => exists h', spec_post wire_proto' e h x h' /\ keeps h' g')) (Gateway h).
Proof. intros Hn Hpre. split; [done|]. intros x g' (h' & -> & Hpost). by exists h'. Qed.

Lemma notify_behind_ok X (e : notifyE X) h :
  spec_pre wire_proto' (WGw (GApi (AM (MNotify e)))) h ->
  wp chat_proto (notify_behind X e)
    (returning (fun x g' => exists h',
       spec_post wire_proto' (WGw (GApi (AM (MNotify e)))) h x h' /\ keeps h' g')) (Gateway h).
Proof.
  intros [_ Hpre]. destruct e as [op|op msg]; cbn in Hpre; cbn [notify_behind].
  - unfold telegram_Started. tg_unfold. cbn [hoist bind wp]. split; [exact I|]. intros msg g ->.
    split; [left; exists op; destruct Hpre; by split|]. intros x g2 ->. by exists h.
  - destruct Hpre as (op0 & upd & Hk & He & ->). unfold telegram_Resolved, call. cbn [hoist wp].
    split; [right; by exists op0, upd|]. intros x g ->. by exists h.
Qed.

Lemma chat_behind_ok X (e : wireE X) h g :
  keeps h g -> spec_pre wire_proto' e h ->
  wp chat_proto (chat_behind X e)
    (returning (fun x g' => exists h', spec_post wire_proto' e h x h' /\ keeps h' g')) g.
Proof.
  intros -> Hpre. destruct e as [X e|X e]; [|by apply chat_direct_ok; [intros []|]].
  destruct e as [X e|X e|req ans]; [|by apply chat_direct_ok; [intros []|]..].
  destruct e as [X e| | | | | |]; [|by apply chat_direct_ok; [intros []|]..].
  destruct e as [X e|X e|X e|X e| | | | | | |]; try (by apply chat_direct_ok; [intros []|]).
  by apply notify_behind_ok.
Qed.

Lemma on_chat_follows (p : prog wireE unit) h :
  wp wire_proto' p anything h -> wp chat_proto (on_chat p) anything (Gateway h).
Proof.
  intros Hp.
  eapply wp_mono; [|apply (wp_plug chat_behind wire_proto' chat_proto keeps p anything h)];
    [done| |done|exact Hp].
  intros X e h' g. apply chat_behind_ok.
Qed.

(** ** The invariant *)

Definition of_gateway (g : CGhost) : option (Ghost * list exchange * option Z) :=
  match g with Gateway g => Some g | Poster _ => None end.
Definition text_of (g : CGhost) : option string :=
  match g with Gateway _ => None | Poster text => Some text end.

(** [op] has ended the way the row has. *)
Definition ended_alike (row op : Operation) : Prop :=
  Status row <> StatusRunning /\ Status op = Status row /\ ErrorCode op = ErrorCode row /\
  ErrorMessage op = ErrorMessage row /\ CompletedAt op = CompletedAt row.

(** [text] is the rendering of a row: as it was while it ran, or as it has ended. *)
Definition on_record (t : gmap string Operation) (text : string) : Prop :=
  exists id row op, t !! id = Some row /\ same_origin row op /\
    (is_running op \/ ended_alike row op) /\ text = render op.

Definition chat_inv (gs : list CGhost) (s : ChatWorld) : Prop :=
  wire_inv IsPrint fold_unicode cfg (omap of_gateway gs) s.1 /\
  (forall text, text ∈ omap text_of gs -> on_record (ops (mw s.1.1.1)) text) /\
  (forall req, req ∈ s.2 -> exists text, on_record (ops (mw s.1.1.1)) text /\ posts tp chatID text req).

Lemma same_origin_common op0 op1 op2 :
  same_origin op0 op1 -> same_origin op0 op2 -> same_origin op1 op2.
Proof. unfold same_origin. intros -> H. rewrite H. by destruct op0, op2. Qed.

Lemma on_record_grows t t' text : table_grows t t' -> on_record t text -> on_record t' text.
Proof.
  intros Ht (id & row & op & Hid & Hs & Hlife & ->).
  destruct (Ht id row Hid) as (row' & Hid' & [Hs' Hend]).
  exists id, row', op. split; [done|]. split; [by eapply same_origin_common|]. split; [|done].
  destruct Hlife as [?|He]; [by left|right]. by rewrite (Hend (proj1 He)).
Qed.

Lemma applyTerminal_origin op upd : same_origin op (applyTerminal op upd).
Proof. by destruct op. Qed.

Lemma renders_on_record a g text :
  ghost_ok a g -> renders g text -> on_record (ops (mw a)) text.
Proof.
  intros [_ _ _ Hended _ Hk] [(op & Hop & Hrun & ->)|(op & upd & Hop & Hend & ->)];
    destruct (Hk op Hop) as [(row & Hrow & Hs) _].
  - exists (OperationID op), row, op. split; [done|]. split; [|by split; [left|]].
    eapply same_origin_common; [exact Hs|apply same_origin_refl].
  - destruct (Hended _ _ Hend) as (row' & Hrow' & Hst & H1 & H2 & H3 & H4).
    rewrite Hrow in Hrow'. injection Hrow' as <-.
    exists (OperationID op), row, (applyTerminal op upd). split; [done|].
    split; [eapply same_origin_common; [exact Hs|apply applyTerminal_origin]|].
    split; [right|done]. split; [done|]. cbn. by rewrite H1, H2, H3, H4.
Qed.

Definition cghosts X (e : chatE X) : list CGhost :=
  match e with
  | FWire e => Gateway <$> wghosts _ e
  | FTg (GoStarted _ text) | FTg (GoResolved _ text) => [Poster text]
  | FTg _ => []
  end.

Lemma cspawned_follow X (e : chatE X) g :
  spec_pre chat_proto e g ->
  Forall2 (fun p g' => wp chat_proto p anything g') (cspawned X e) (cghosts X e).
Proof.
  destruct e as [X e|X e]; cbn [cspawned cghosts].
  - destruct g as [g|text]; [|done]. intros [_ Hpre].
    apply Forall2_fmap. eapply Forall2_impl; [|intros p h; apply on_chat_follows].
    by eapply wspawned_follow.
  - intros _. destruct e as [X e|timeout ctx req|ctx d| |msg id|msg timeout|msg text|msg text];
      first [by apply Forall2_nil_2|apply Forall2_cons_2; [|by apply Forall2_nil_2]].
    + apply poster_follows, send_started_posts.
    + apply poster_follows, send_resolved_posts.
Qed.

Lemma omap_middle {A B} (f : A -> option B) pre a post :
  omap f (pre ++ a :: post) = omap f pre ++ (if f a is Some b then b :: omap f post else omap f post).
Proof. rewrite omap_app. cbn. by destruct (f a). Qed.

Lemma gateways_only (l : list (Ghost * list exchange * option Z)) :
  omap of_gateway (Gateway <$> l) = l /\ omap text_of (Gateway <$> l) = [].
Proof. induction l as [|g l [IH1 IH2]]; [done|]. cbn. by rewrite IH1. Qed.

(** A call of the gateway. *)
Lemma chat_call_wire pre g post X (e : wireE X) s x s' :
  chat_inv (pre ++ g :: post) s -> spec_pre chat_proto (FWire e) g ->
  chat_post X (FWire e) s x s' ->
  exists g', spec_post chat_proto (FWire e) g x g' /\
    chat_inv (pre ++ g' :: post ++ cghosts X (FWire e)) s'.
Proof.
  intros (HI & Htext & Hreq) Hpre [Hpost Hs]. destruct g as [g|text]; [|done].
  destruct Hpre as [_ Hpre]. rewrite omap_middle in HI. cbn [of_gateway] in HI.
  pose proof (wire_grows _ _ _ _ _ _ _ _ _ _ _ HI Hpre Hpost) as Hgrow.
  destruct (wire_call _ _ _ _ _ _ _ _ _ _ _ HI Hpre Hpost) as (h & Hh & HI').
  destruct (gateways_only (wghosts X e)) as [Hg1 Hg2].
  exists (Gateway h). split; [by exists h|]. split; [|split].
  - rewrite omap_middle, omap_app. cbn [of_gateway cghosts]. by rewrite Hg1.
  - intros text Hin. rewrite omap_middle, omap_app in Hin. cbn [text_of cghosts] in Hin.
    rewrite Hg2, app_nil_r in Hin. eapply on_record_grows; [exact Hgrow|].
    apply Htext. by rewrite omap_middle.
  - intros req Hin. rewrite Hs in Hin. destruct (Hreq req Hin) as (text & Ht & Hp).
    exists text. split; [by eapply on_record_grows|done].
Qed.

(** A call of the notifier. *)
Lemma chat_call_tg pre g post X (e : tgE X) s x s' :
  chat_inv (pre ++ g :: post) s -> spec_pre chat_proto (FTg e) g -> chat_post X (FTg e) s x s' ->
  chat_inv (pre ++ g :: post ++ cghosts X (FTg e)) s'.
Proof.
  intros (HI & Htext & Hreq) Hpre Hpost.
  assert (forall text, g = Poster text -> on_record (ops (mw s.1.1.1)) text) as Hown.
  { intros text ->. apply Htext. rewrite omap_middle. apply elem_of_app. right. by left. }
  assert (forall h text, g = Gateway h -> renders h.1.1 text ->
            chat_inv (pre ++ g :: post ++ [Poster text]) s) as Hnew.
  { intros h text -> Hr.
    assert (pre ++ Gateway h :: post ++ [Poster text] = (pre ++ Gateway h :: post) ++ [Poster text])
      as -> by by rewrite <- app_assoc.
    split; [|split; [|done]].
    - rewrite omap_app. cbn. by rewrite app_nil_r.
    - intros text' Hin. rewrite omap_app in Hin. apply elem_of_app in Hin as [Hin|Hin]; [by apply Htext|].
      apply list_elem_of_singleton in Hin as ->. rewrite omap_middle in HI. cbn [of_gateway] in HI.
      destruct (wire_ghost_ok _ _ _ _ _ _ _ HI) as (a & <- & _ & Hg).
      by apply (renders_on_record a h.1.1). }
  destruct e as [X e|timeout ctx req|ctx d| |msg id|msg timeout|msg text|msg text];
    cbn [chat_post] in Hpost; subst s'; cbn [cghosts]; rewrite ?app_nil_r; try done.
  - destruct g as [h|text]; [done|]. split; [done|]. split; [done|].
    intros req' [->|Hin]%elem_of_cons; [|by apply Hreq]. exists text. split; [by apply Hown|done].
  - destruct g as [h|text']; [by apply (Hnew h text)|done].
  - destruct g as [h|text']; [by apply (Hnew h text)|done].
Qed.

Lemma chat_call pre g post X (e : chatE X) s x s' :
  chat_inv (pre ++ g :: post) s -> spec_pre chat_proto e g -> chat_post X e s x s' ->
  exists g', spec_post chat_proto e g x g' /\ chat_inv (pre ++ g' :: post ++ cghosts X e) s'.
Proof.
  destruct e as [X e|X e]; [apply chat_call_wire|]. intros HI Hpre Hpost. exists g.
  split; [done|]. by eapply chat_call_tg.
Qed.

(** What a goroutine of the gateway knows, learns and forgets. *)
Lemma chat_gateway pre g post s :
  chat_inv (pre ++ Gateway g :: post) s ->
  wire_inv IsPrint fold_unicode cfg (omap of_gateway pre ++ g :: omap of_gateway post) s.1.
Proof. intros [HI _]. by rewrite omap_middle in HI. Qed.

Lemma chat_grows pre g post s X (e : wireE X) x s' :
  chat_inv (pre ++ g :: post) s -> spec_pre chat_proto (FWire e) g ->
  chat_post X (FWire e) s x s' -> table_grows (ops (mw s.1.1.1)) (ops (mw s'.1.1.1)).
Proof.
  intros HI Hpre [Hpost _]. destruct g as [g|text]; [|done]. destruct Hpre as [_ Hpre].
  exact (wire_grows _ _ _ _ _ _ _ _ _ _ _ (chat_gateway _ _ _ _ HI) Hpre Hpost).
Qed.

Lemma chat_rows gs s :
  chat_inv gs s ->
  map_Forall (fun id op => OperationID op = id /\ row_ok (clock (mw s.1.1.1)) op)
    (ops (mw s.1.1.1)).
Proof. intros [HI _]. exact (wire_rows _ _ _ _ _ HI). Qed.

Lemma chat_denied gs s id op :
  chat_inv gs s -> ops (mw s.1.1.1) !! id = Some op -> Status op = StatusDenied ->
  born !! id = Some op \/ denied_by s.1.1.1 op.
Proof. intros [HI _]. exact (wire_denied _ _ _ _ _ _ _ HI). Qed.

Lemma chat_swap pre g g1 post s :
  chat_inv (pre ++ Gateway g :: post) s ->
  (forall gs a, ops (mw a) = ops (mw s.1.1.1) -> clock (mw a) = clock (mw s.1.1.1) ->
     audit_inv (g.1.1 :: gs) a -> audit_inv (g1 :: gs) a) ->
  chat_inv (pre ++ Gateway (g1, g.1.2, g.2) :: post) s.
Proof.
  intros HI Hswap. pose proof (chat_gateway _ _ _ _ HI) as HW.
  destruct HI as (_ & Htext & Hreq). split; [|split; [|done]].
  - rewrite omap_middle. by apply wire_swap.
  - intros text Hin. apply Htext. rewrite omap_middle in *. exact Hin.
Qed.

(** Whatever the log of the store's calls says. *)
Lemma chat_relog l gs a k sent reqs :
  chat_inv gs (a, k, sent, reqs) -> chat_inv gs (with_mw (set_log l (mw a)) a, k, sent, reqs).
Proof.
  intros (HI & Htext & Hreq). split; [|done]. by eapply wire_relog in HI.
Qed.

Lemma chat_enter gs s : chat_inv gs s -> chat_inv (gs ++ [Gateway (ghost0, [], None)]) s.
Proof.
  intros (HI & Htext & Hreq). split; [|split; [|done]].
  - rewrite omap_app. by apply wire_enter.
  - intros text Hin. apply Htext. rewrite omap_app in Hin. cbn in Hin. by rewrite app_nil_r in Hin.
Qed.

Lemma chat_leave pre g post s : chat_inv (pre ++ g :: post) s -> chat_inv (pre ++ post) s.
Proof.
  intros (HI & Htext & Hreq). split; [|split; [|done]].
  - rewrite omap_middle in HI. rewrite omap_app. destruct (of_gateway g); [by eapply wire_leave|done].
  - intros text Hin. apply Htext. rewrite omap_middle. rewrite omap_app in Hin.
    destruct (text_of g); [set_solver|done].
Qed.

(** ** Every reachable state *)

Record chat_starting (s : ChatWorld) : Prop := {
  chat_start : wire_starting s.1;
  chat_quiet : s.2 = [];
}.

Lemma chat_start_inv s : chat_starting s -> born = ops (mw s.1.1.1) -> chat_inv [] s.
Proof.
  intros [Hstart Hquiet] Hborn. split; [by apply wire_start_inv|].
  split; [by intros text ?%not_elem_of_nil|]. rewrite Hquiet. by intros req ?%not_elem_of_nil.
Qed.

Lemma chat_reachable s0 ts s :
  chat_starting s0 -> born = ops (mw s0.1.1.1) -> rtc chat_step ([], s0) (ts, s) ->
  exists gs, chat_inv gs s.
Proof.
  intros Hstart Hborn Hsteps.
  destruct (pool_reachable_spawn chat_env cspawned centry True CGhost chat_proto anything chat_inv
              (Gateway (ghost0, [], None)) cghosts) with (s0 := s0) (ts := ts) (s := s)
    as (gs & _ & HI); try done.
  - intros p [q Hq].
    by apply on_chat_follows, on_wire_follows, on_keycloak_follows, gentry_follows.
  - exact cspawned_follow.
  - intros pre g post X e s1 x s2. apply chat_call.
  - exact chat_enter.
  - intros pre g post s1 _. apply chat_leave.
  - by apply chat_start_inv.
  - by exists gs.
Qed.

End System.

Section Theorems.
Variables (m : Manager) (fuel evfuel : nat).
Variable new_request_error : string -> string -> option error.
Variable IsPrint : Z -> bool.
Variable fold_unicode : string -> string -> bool.
Variable cfg : Keycloak.Config.
Variable RetryOnConflict : prog cgE (option error) -> prog cgE (option error).
Hypothesis RetryOnConflict_retries : retries_only RetryOnConflict.
Variable tp : transport.
Variable chatID : string.

Abbreviation chat_step' :=
  (chat_step m fuel evfuel new_request_error IsPrint fold_unicode cfg RetryOnConflict tp chatID)
  (only parsing).

(** What reaches the chat.  The whole gateway, its notifier included: whatever
interleaves, fails or dies, every request made to the Bot API is for the configured chat
and sends, or puts in the place of a message, the rendering of an operation on record: as
it was while it ran, or as the record has it ended. *)
Theorem every_message_is_on_record s0 ts s req :
  chat_starting s0 -> rtc chat_step' ([], s0) (ts, s) -> req ∈ s.2 ->
  exists text, on_record (ops (mw s.1.1.1)) text /\ posts tp chatID text req.
Proof.
  intros Hstart Hsteps Hin. pose (before := ops (mw s0.1.1.1) : Born).
  destruct (chat_reachable m fuel evfuel new_request_error IsPrint fold_unicode cfg RetryOnConflict
              RetryOnConflict_retries tp chatID s0 ts s) as (gs & _ & _ & Hreq); try done.
  by apply Hreq.
Qed.

(** The patches of this larger system are permitted too. *)
Theorem chat_texts_permitted s0 ts s msg :
  chat_starting s0 -> rtc chat_step' ([], s0) (ts, s) -> msg ∈ s.1.2 ->
  exists p, carried p msg /\ permitted_patch IsPrint fold_unicode cfg s.1.1 p.
Proof.
  intros Hstart Hsteps Hin. pose (before := ops (mw s0.1.1.1) : Born).
  destruct (chat_reachable m fuel evfuel new_request_error IsPrint fold_unicode cfg RetryOnConflict
              RetryOnConflict_retries tp chatID s0 ts s) as (gs & HI & _); try done.
  by eapply wire_inv_permitted.
Qed.

End Theorems.
