(* ===== verification/ChatDemo.v ===== *)
(** * A runnable gateway, down to its chat messages

[chat_sim] adds a Bot API to [WireDemo.wire_sim] that accepts every request and calls
each new message number 5. *)

From stdpp Require Import relations.
From S2P Require Import Prelude GoStrings GoRuntime GoNet GoJson GoJsonSpec GoTime Effects Authz Keycloak KeycloakSpec KeycloakRace KeycloakDemo Authn Kube KubeClient Store Notify Telegram TelegramSpec Manager ManagerSpec ManagerWatch ManagerRace ManagerDemo Api ApiSpec AuditTrail PermitTrail AuditDemo WireTrail WireDemo ChatTrail.

Local Open Scope string_scope.
Local Open Scope list_scope.
Local Open Scope Z_scope.

Definition bot_answer : HttpResponse := {|
  StatusCode := 200; ReadErr := None;
  RespBody := Marshal (JObj [("ok", JBool true);
                             ("result", JObj [("message_id", JNum (Some 5))])]) |}.

Definition tg_answer X (e : tgE X) : X :=
  match e in tgE X return X with
  | TRt e => match e in rtE X return X with TimeNow => 0 | LogLine _ _ => tt end
  | TDo _ _ _ => Ok bot_answer
  | TSelectAfter _ _ => true
  | TNewMessage => 0%nat
  | TSettle _ _ => tt
  | TWaitReady _ _ => Some 5
  | GoStarted _ _ => tt
  | GoResolved _ _ => tt
  end.

Definition chat_sim X (e : chatE X) (s : AWorld * KWorld * list Sent * list HttpRequest) :
    X * (AWorld * KWorld * list Sent * list HttpRequest) :=
  match e in chatE X return X * (AWorld * KWorld * list Sent * list HttpRequest) with
  | FWire e => let (x, w) := wire_sim _ e s.1 in (x, (w, s.2))
  | FTg e => (tg_answer _ e, (s.1, match e with TDo _ _ req => req :: s.2 | _ => s.2 end))
  end.

Lemma chat_sim_ok X (e : chatE X) s :
  well_keyed (ops (mw s.1.1.1)) ->
  chat_post X e s (chat_sim X e s).1 (chat_sim X e s).2 /\
  well_keyed (ops (mw (chat_sim X e s).2.1.1.1)).
Proof.
  intros Hk. destruct e as [X e|X e]; cbn [chat_sim chat_post].
  - destruct (wire_sim_ok X e s.1 Hk) as [Hpost Hk']. by destruct (wire_sim X e s.1).
  - split; [|done]. destruct s as [w reqs]. by destruct e.
Qed.

(** ** A run *)

Definition bot : transport := newTransport "https://api.telegram.org" "secret".

Abbreviation chatted :=
  (on_chat (on_wire ascii_only (retry_n 3)
     (on_sso (handle deps PostRollout rollout_request)))) (only parsing).
Abbreviation cstep :=
  (chat_step gateway_manager 9 9 no_error ascii_only no_fold cfg (retry_n 3) bot "-100") (only parsing).

Definition idle_chat : AWorld * KWorld * list Sent * list HttpRequest := (idle_wire, []).

Lemma idle_chat_starting : chat_starting idle_chat.
Proof. split; [apply idle_wire_starting|done]. Qed.

(** The request, the first message, the watcher, the last message. *)
Definition chat_run : list (prog chatE unit) * (AWorld * KWorld * list Sent * list HttpRequest) :=
  sched (cspawned gateway_manager 9 9 no_error ascii_only no_fold cfg (retry_n 3) bot "-100") chat_sim
    (replicate 120 0%nat ++ replicate 20 1%nat ++ replicate 40 2%nat ++ replicate 20 3%nat)
    [chatted] idle_chat.

Lemma chat_run_reached : rtc cstep ([], idle_chat) chat_run.
Proof.
  eapply rtc_l; [apply (pstep_enter _ _ _ _ chatted); do 2 constructor|].
  apply (sched_psteps _ _ _ _ _ (fun s => well_keyed (ops (mw s.1.1.1)))); [|apply idle_world_ids].
  intros X e s. apply chat_sim_ok.
Qed.

(** One message, put in its place at the end; the operation has ended. *)
Example chat_run_result :
  URL <$> chat_run.2.2 = ["https://api.telegram.org/botsecret/editMessageText";
                          "https://api.telegram.org/botsecret/sendMessage"] /\
  (Status <$> ops (mw chat_run.2.1.1.1) !! "op_") = Some StatusSucceeded /\
  length chat_run.2.1.2 = 2%nat.
Proof. vm_compute. repeat split. Qed.

Lemma every_message_is_on_record_witness :
  length chat_run.2.2 = 2%nat /\
  Forall (fun req => exists text, on_record (ops (mw chat_run.2.1.1.1)) text /\
            posts bot "-100" text req) chat_run.2.2.
Proof.
  split; [vm_compute; reflexivity|]. apply Forall_forall. intros req Hin.
  apply (every_message_is_on_record gateway_manager 9 9 no_error ascii_only no_fold cfg (retry_n 3)
           (retry_n_retries 3) bot "-100" idle_chat chat_run.1 chat_run.2 req idle_chat_starting).
  - rewrite <- surjective_pairing. exact chat_run_reached.
  - exact Hin.
Defined.
