(* ===== verification/StoreTrail.v ===== *)
(** * The gateway as it is deployed

The gateway of [ChatTrail] with the DynamoDB store of internal/store behind the
manager's calls: every method is the program of [Dynamo], several calls to the table
that other goroutines come in between.  This is the system [main] wires up: handlers,
watchers and sweeper, the Keycloak authorizer, the Kubernetes client, the notifier and
the store.  What the smaller systems promise of the store's contract holds of the table:
every patch sent is permitted and recorded in it, every message is about a row of it,
every row is well formed. *)

From stdpp Require Import relations.
From S2P Require Import Prelude GoStrings GoRuntime GoNet GoJson GoJsonSpec GoTime GoDates Effects Authz Keycloak KeycloakSpec KeycloakRace Authn Kube KubeClient Dynamo DynamoTable Store Notify Telegram TelegramSpec Manager ManagerSpec Api ApiSpec AuditTrail PermitTrail WireTrail ChatTrail.

Local Open Scope string_scope.
Local Open Scope list_scope.
Local Open Scope Z_scope.

(** ** Gateway and table together *)

Section System.
Context `{Laws : DynamoItemLaws Item}.
Context {before : Born}.

(** The calls of the gateway, those of the store, and the moment a method returns. *)
Inductive tableE : Type -> Type :=
  | TUp {X} (e : chatE X) : tableE X
  | TDy {X} (e : dyE Item nat X) : tableE X
  | TReturn {X} (e : storeE X) (x : X) : tableE unit.

Variables (m : Manager) (fuel evfuel : nat).
(** How many pages of a scan the store reads. *)
Variable scan_fuel : nat.
Variable new_request_error : string -> string -> option error.
Variable IsPrint : Z -> bool.
Variable fold_unicode : string -> string -> bool.
Variable cfg : Keycloak.Config.
Variable RetryOnConflict : prog cgE (option error) -> prog cgE (option error).
Hypothesis RetryOnConflict_retries : retries_only RetryOnConflict.
Variable tp : transport.
Variable chatID : string.
(** The table has a sort key; the places of its items in a scan. *)
Variable has_sort : bool.
Variable pos : option string -> option string -> nat.
Variable top : nat.

(** The texts of operations and of errors are UTF-8, as what is decoded from JSON is: then
all that keeps an operation from being stored as it is, or an update from being made, is a
time outside the years 0000 to 9999. *)
Hypothesis operations_storable : forall op item,
  MarshalMap op = Ok item -> in_range (RequestedAt op) -> storable op.
Hypothesis updates_storable : forall upd,
  legit upd -> in_range (Upd_CompletedAt upd) -> storable_update upd.

(** The gateway's state, its operations being in the table. *)
Abbreviation TableWorld := (AWorld * KWorld * list Sent * list HttpRequest * gmap string Item)%type
  (only parsing).

(** The service, its scans eventually consistent as the store asks for them: a page may
lack rows and show rows as they were. *)
Definition shown (t : gmap string Item) (f : Filter) (item : Item) : Prop :=
  matches f item /\ exists op, encodes item op /\ in_table (rows t) op.

Definition service X (e : dyE Item nat X) (t : gmap string Item) : X -> gmap string Item -> Prop :=
  match e in dyE _ _ X return X -> gmap string Item -> Prop with
  | Scan _ f _ => fun x t' => t' = t /\
      (if x is Ok (items, _) then Forall (shown t f) items else True)
  | e => dy_call has_sort pos top [t] _ e t
  end.

(** The clock shows a year the store's time format can write. *)
Definition table_post X (e : tableE X) (s : TableWorld) : X -> TableWorld -> Prop :=
  match e in tableE X return X -> TableWorld -> Prop with
  | TUp e => fun x s' => chat_post _ e s.1 x s'.1 /\ s'.2 = s.2 /\
      in_range (clock (mw s'.1.1.1.1))
  | TDy e => fun x s' => service _ e s.2 x s'.2 /\ s'.1 = s.1
  | TReturn _ _ => fun _ s' => s' = s
  end.

Definition table_env : spec tableE TableWorld :=
  {| spec_pre := fun _ _ _ => True; spec_post := table_post |}.

(** A method of the store. *)
Definition store_behind X (e : storeE X) : prog tableE X :=
  x ← hoist (@TDy) (dynamoStore MarshalMap UnmarshalMap IsPrint scan_fuel X e);
  call (TReturn e x) ;;
  mret x.

Abbreviation up e := (FWire (WGw (GApi (AM (MStore e))))) (only parsing).

Definition table_behind_mgr X (e : mgrE X) : prog tableE X :=
  match e in mgrE X return prog tableE X with
  | MStore e => store_behind _ e
  | e => call (TUp (FWire (WGw (GApi (AM e)))))
  end.

Definition table_behind_api X (e : apiE X) : prog tableE X :=
  match e in apiE X return prog tableE X with
  | AM e => table_behind_mgr _ e
  | e => call (TUp (FWire (WGw (GApi e))))
  end.

Definition table_behind_gw X (e : gwE X) : prog tableE X :=
  match e in gwE X return prog tableE X with
  | GApi e => table_behind_api _ e
  | e => call (TUp (FWire (WGw e)))
  end.

Definition table_behind_wire X (e : wireE X) : prog tableE X :=
  match e in wireE X return prog tableE X with
  | WGw e => table_behind_gw _ e
  | e => call (TUp (FWire e))
  end.

Definition table_behind X (e : chatE X) : prog tableE X :=
  match e in chatE X return prog tableE X with
  | FWire e => table_behind_wire _ e
  | e => call (TUp e)
  end.

Definition on_table {A} (p : prog chatE A) : prog tableE A := plug table_behind p.

Abbreviation cspawned' :=
  (cspawned m fuel evfuel new_request_error IsPrint fold_unicode cfg RetryOnConflict tp chatID)
  (only parsing).

Definition tspawned X (e : tableE X) : list (prog tableE unit) :=
  match e with
  | TUp e => on_table <$> cspawned' _ e
  | _ => []
  end.

Inductive tentry : prog tableE unit -> Prop :=
  | tentry_on_table p :
      centry new_request_error IsPrint fold_unicode cfg RetryOnConflict p -> tentry (on_table p).

(** Everything in any interleaving, dying at any time. *)
Definition deployed_step := pstep table_env tspawned tentry True.

(** ** The discipline *)

Abbreviation chat_proto' := (chat_proto IsPrint fold_unicode cfg tp chatID) (only parsing).

(** What a goroutine may do, and the operations it has read in the method it is in. *)
Abbreviation TGhost := (CGhost * list Operation)%type (only parsing).

Definition is_store X (e : chatE X) : Prop :=
  match e with up _ => True | _ => False end.

(** The operations on a page. *)
Definition decoded {Cursor} (x : result error (list Item * Cursor)) : list Operation :=
  match x with
  | Ok (items, _) =>
      omap (fun item => match UnmarshalMap item with Ok op => Some op | Err _ => None end) items
  | Err _ => []
  end.

(** What a method may return: what it has read. *)
Definition may_return X (e : storeE X) (found : list Operation) : X -> Prop :=
  match e in storeE X return X -> Prop with
  | Store.GetOperation _ _ => fun x => match x with Ok op => op ∈ found | Err _ => True end
  | Store.ListRunningPastDeadline _ _ => fun x => match x with Ok l => l ⊆ found | Err _ => True end
  | _ => fun _ => True
  end.

Definition table_pre X (e : tableE X) (g : TGhost) : Prop :=
  match e with
  | TUp e => ~ is_store _ e /\ spec_pre chat_proto' e g.1
  | TDy (PutItem ctx item) => exists op, MarshalMap op = Ok item /\
      spec_pre chat_proto' (up (Store.PutOperation ctx op)) g.1
  | TDy (UpdateItem ctx k u) => exists op upd, u = update_of upd /\ key_for op k /\ op ∈ g.2 /\
      spec_pre chat_proto' (up (Store.UpdateTerminal ctx (OperationID op) upd)) g.1
  | TDy _ => True
  | TReturn e x => may_return _ e g.2 x /\ if g.1 is Gateway _ then True else False
  end.

(** Back from a method, a goroutine of the gateway knows what the contract says. *)
Definition returns X (e : storeE X) (x : X) (g g' : CGhost) : Prop :=
  match e with
  | Store.PutOperation _ _ =>
      exists h, g = Gateway h /\ g' = Gateway (set_made None h.1.1, h.1.2, h.2)
  | Store.UpdateTerminal _ _ _ | Store.Ping _ => g' = g
  | _ => spec_post chat_proto' (up e) g x g'
  end.

Definition table_step X (e : tableE X) (g : TGhost) : X -> TGhost -> Prop :=
  match e in tableE X return X -> TGhost -> Prop with
  | TUp e => fun x g' => spec_post chat_proto' e g.1 x g'.1 /\ g'.2 = []
  | TDy e =>
      match e in dyE _ _ X return X -> TGhost -> Prop with
      | PutItem ctx item => fun x g' => g'.2 = g.2 /\ forall op, MarshalMap op = Ok item ->
          spec_pre chat_proto' (up (Store.PutOperation ctx op)) g.1 ->
          spec_post chat_proto' (up (Store.PutOperation ctx op)) g.1 x g'.1
      | UpdateItem ctx k u => fun x g' => g'.2 = g.2 /\
          forall op upd, u = update_of upd -> key_for op k ->
          spec_pre chat_proto' (up (Store.UpdateTerminal ctx (OperationID op) upd)) g.1 ->
          spec_post chat_proto' (up (Store.UpdateTerminal ctx (OperationID op) upd)) g.1 x g'.1
      | Scan _ f _ => fun x g' => g' = (g.1, decoded x ++ g.2) /\
          (if f is ByID id then Forall (fun op => OperationID op = id) (decoded x) else True)
      | ScanOne _ => fun _ g' => g' = g
      end
  | TReturn e x => fun _ g' => returns _ e x g.1 g'.1 /\ g'.2 = []
  end.

Definition table_proto : spec tableE TGhost := {| spec_pre := table_pre; spec_post := table_step |}.

(** *** The store's programs *)

Definition dy_proto : spec (dyE Item nat) TGhost :=
  Spec (fun X e => table_pre X (TDy e)) (fun X e => table_step X (TDy e)).

Ltac st_unfold := cbv beta delta [mbind mret prog_bind prog_ret call]; cbn [bind wp].
Ltac st_call x g' Hg :=
  split; [exact I|]; intros x g' Hg; cbn [dy_proto spec_post table_step] in Hg.

Lemma elem_of_decoded {Cursor} items (last : Cursor) item op :
  item ∈ items -> UnmarshalMap item = Ok op -> op ∈ decoded (Ok (items, last)).
Proof.
  intros Hin Hu. cbn [decoded]. apply list_elem_of_omap. exists item. by rewrite Hu.
Qed.

Lemma take_found_from id items (last : option nat) found found' op :
  take_found UnmarshalMap IsPrint id items found = Ok found' -> found' = Some op ->
  found = Some op \/ op ∈ decoded (Ok (items, last)).
Proof.
  revert found. induction items as [|item items IH]; intros found Ht Hf; cbn [take_found] in Ht.
  - injection Ht as ->. by left.
  - destruct (UnmarshalMap item) as [op1|] eqn:Hu; [|done]. destruct found as [op0|]; [done|].
    destruct (IH (Some op1) Ht Hf) as [[= ->]|Hin]; right.
    + by eapply elem_of_decoded; [left|].
    + cbn [decoded omap list_omap]. rewrite Hu. by right.
Qed.

Lemma take_all_from items (last : option nat) acc ops op :
  take_all UnmarshalMap items acc = Ok ops -> op ∈ ops ->
  op ∈ acc \/ op ∈ decoded (Ok (items, last)).
Proof.
  revert acc. induction items as [|item items IH]; intros acc Ht Hin; cbn [take_all] in Ht.
  - injection Ht as ->. by left.
  - destruct (UnmarshalMap item) as [op1|] eqn:Hu; [|done].
    destruct (IH _ Ht Hin) as [Ha|Hd].
    + apply elem_of_app in Ha as [?|Ha]; [by left|]. apply list_elem_of_singleton in Ha as ->.
      right. by eapply elem_of_decoded; [left|].
    + right. cbn [decoded omap list_omap]. rewrite Hu. by right.
Qed.

(** What a lookup leaves behind. *)
Definition looked (g : TGhost) (id : string) (o : outcome (result error Operation)) (g' : TGhost) :
    Prop :=
  match o with
  | Done r => g'.1 = g.1 /\ forall op, r = Ok op -> op ∈ g'.2 /\ OperationID op = id
  | Halted _ => True
  end.

Lemma st_find fu ctx id start found g :
  (forall op, found = Some op -> op ∈ g.2 /\ OperationID op = id) ->
  wp dy_proto (find_pages UnmarshalMap IsPrint fu ctx id start found) (looked g id) g.
Proof.
  assert (forall g1, g1.1 = g.1 -> (forall op, found = Some op -> op ∈ g1.2 /\ OperationID op = id) ->
    wp dy_proto (find_pages UnmarshalMap IsPrint fu ctx id start found) (looked g id) g1) as H0;
    [|by apply H0].
  revert start found. induction fu as [|fu IH]; intros start found g1 Hg1 Hf; [done|].
  cbn [find_pages]. st_unfold. st_call x g2 Hg. destruct Hg as [-> Hid].
  destruct x as [[items last]|err]; [|done].
  destruct (take_found _ _ _ _ _) as [found'|err] eqn:Ht; [|done].
  assert (forall op, found' = Some op ->
            op ∈ decoded (Ok (items, last)) ++ g1.2 /\ OperationID op = id) as Hf'.
  { intros op Hop. destruct (take_found_from _ _ last _ _ _ Ht Hop) as [Ho|Hin].
    - destruct (Hf op Ho) as [? ?]. split; [apply elem_of_app; by right|done].
    - split; [apply elem_of_app; by left|]. by eapply Forall_forall in Hid. }
  destruct last as [c|]; [by apply IH|]. split; [done|].
  intros op Hop. destruct found'; [|done]. injection Hop as ->. by apply Hf'.
Qed.

Lemma st_list fu ctx txt start acc g :
  acc ⊆ g.2 ->
  wp dy_proto (list_pages UnmarshalMap fu ctx txt start acc)
    (fun o g' => match o with
                 | Done r => g'.1 = g.1 /\ forall l, r = Ok l -> l ⊆ g'.2
                 | Halted _ => True
                 end) g.
Proof.
  assert (forall g1, g1.1 = g.1 -> acc ⊆ g1.2 ->
    wp dy_proto (list_pages UnmarshalMap fu ctx txt start acc)
    (fun o g' => match o with
                 | Done r => g'.1 = g.1 /\ forall l, r = Ok l -> l ⊆ g'.2
                 | Halted _ => True
                 end) g1) as H0; [|by apply H0].
  revert start acc. induction fu as [|fu IH]; intros start acc g1 Hg1 Hf; [done|].
  cbn [list_pages]. st_unfold. st_call x g2 Hg. destruct Hg as [-> _].
  destruct x as [[items last]|err]; [|done].
  destruct (take_all _ _ _) as [ops|err] eqn:Ht; [|done].
  assert (ops ⊆ decoded (Ok (items, last)) ++ g1.2) as Hf'.
  { intros op Hop. apply elem_of_app.
    destruct (take_all_from _ last _ _ _ Ht Hop) as [Ho|Hin]; [right; by apply Hf|by left]. }
  destruct last as [c|]; [by apply IH|]. split; [done|]. by intros l [= <-].
Qed.

(** What a goroutine of the gateway knows after a terminal write. *)
Lemma end_post ctx id upd g x g' :
  spec_pre chat_proto' (up (Store.UpdateTerminal ctx id upd)) g ->
  spec_post chat_proto' (up (Store.UpdateTerminal ctx id upd)) g x g' <->
  exists h, g = Gateway h /\
    g' = Gateway (match x with None => add_end id upd h.1.1 | Some _ => h.1.1 end, h.1.2, h.2).
Proof.
  intros Hpre. destruct g as [h|text]; [|done]. split.
  - intros (h' & -> & [[Hp Hk] Hs]). cbn in Hp, Hk, Hs. exists h. split; [done|].
    destruct h' as [[h1 h2] h3]. cbn in *. by subst.
  - intros (h' & [= <-] & ->). eexists. split; [done|]. by split.
Qed.

Lemma st_try_keys ctx op upd keys lastErr g :
  op ∈ g.2 -> Forall (key_for op) keys -> lastErr <> None \/ keys <> [] ->
  spec_pre chat_proto' (up (Store.UpdateTerminal ctx (OperationID op) upd)) g.1 ->
  wp dy_proto (try_keys ctx keys (update_of upd) lastErr) (returning (fun x g' =>
    spec_post chat_proto' (up (Store.UpdateTerminal ctx (OperationID op) upd)) g.1 x g'.1)) g.
Proof.
  intros Hop Hkeys Hsome Hpre. revert g lastErr Hop Hsome Hpre.
  induction Hkeys as [|key keys Hkey _ IH]; intros g lastErr Hop Hsome Hpre.
  - destruct lastErr as [err|]; [|by destruct Hsome]. apply end_post; [done|].
    destruct g as [[[[h1 h2] h3]|text] found]; [|done]. by eexists.
  - cbn [try_keys]. st_unfold. split; [by exists op, upd|]. intros x g' [Hf Hg].
    specialize (Hg op upd eq_refl Hkey Hpre). destruct x as [err|]; [|exact Hg].
    destruct (isKeySchemaMismatch err); [|exact Hg].
    assert (g' = g) as ->.
    { apply end_post in Hg as (h & Hh & Hh'); [|done]. destruct g as [g0 found], g' as [g0' found'].
      cbn in *. subst. by destruct h as [[? ?] ?]. }
    by apply IH; [done|left|].
Qed.

(** What a method has done once it comes back: it may return, and what its caller then
knows is what the contract says. *)
Definition comes_back X (e : storeE X) (g : TGhost) (o : outcome X) (g' : TGhost) : Prop :=
  match o with
  | Done x => table_pre _ (TReturn e x) g' /\
      forall u g2, table_step _ (TReturn e x) g' u g2 -> spec_post chat_proto' (up e) g.1 x g2.1
  | Halted _ => True
  end.

Lemma st_put ctx op g :
  spec_pre chat_proto' (up (Store.PutOperation ctx op)) g.1 ->
  wp dy_proto (Dynamo.PutOperation MarshalMap ctx op)
    (comes_back _ (Store.PutOperation ctx op) g) g.
Proof.
  intros Hpre. unfold Dynamo.PutOperation. destruct g as [[h|text] found]; [|done].
  destruct (MarshalMap op) as [item|err] eqn:Hm.
  - st_unfold. split; [by exists op|]. intros x g' [_ Hg]. destruct (Hg op Hm Hpre) as (h' & Hh & Hpost).
    destruct Hpost as [[Hpost Hk] Hs]. cbn in Hpost, Hk, Hs.
    split; [split; [done|by rewrite Hh]|]. intros u g2 [(h2 & Hh2 & ->) _]. rewrite Hh in Hh2.
    injection Hh2 as <-. eexists. split; [done|]. split; [split; [|done]|done].
    cbn. rewrite Hpost. by destruct x.
  - split; [done|]. intros u g2 [(h2 & [= <-] & ->) _]. eexists. split; [done|].
    by split.
Qed.

Lemma st_method X (e : storeE X) g :
  spec_pre chat_proto' (up e) g.1 ->
  wp dy_proto (dynamoStore MarshalMap UnmarshalMap IsPrint scan_fuel X e) (comes_back _ e g) g.
Proof.
  intros Hpre. assert (if g.1 is Gateway _ then True else False) as Hg by by destruct (g.1).
  destruct e as [ctx op|ctx id|ctx id upd|ctx t|ctx]; cbn [dynamoStore].
  - by apply st_put.
  - eapply wp_mono; [|by apply (st_find scan_fuel ctx id None None g)].
    intros [r|] g' Hr; [|done]. destruct Hr as [Hsame Hr]. split.
    + split; [destruct r as [op|]; [by apply Hr|done]|by rewrite Hsame].
    + intros u g2 [Hret _]. cbn [returns] in Hret. by rewrite Hsame in Hret.
  - unfold Dynamo.UpdateTerminal, findOperation. apply wp_bind.
    eapply wp_mono; [|by apply (st_find scan_fuel ctx id None None g)].
    intros [r|] g' Hr; [|done]. destruct Hr as [Hsame Hr].
    assert (forall x g2, spec_post chat_proto' (up (Store.UpdateTerminal ctx id upd)) g.1 x g2.1 ->
              comes_back _ (Store.UpdateTerminal ctx id upd) g (Done x) g2) as Hback.
    { intros x g2 Hpost. split; [split; [done|]|by intros u g3 [-> _]].
      by apply end_post in Hpost as (h & _ & ->). }
    destruct r as [op|err].
    + destruct (Hr op eq_refl) as [Hop <-].
      eapply wp_seq; [apply (st_try_keys ctx op upd); [done|apply updateKeysFor_keys|right|by rewrite Hsame]|].
      * unfold updateKeysFor. by destruct (time_IsZero _).
      * intros x g2 Hx. rewrite Hsame in Hx. apply Hback. apply end_post in Hx as (h & Hh & Hh'); [|done].
        apply end_post; [done|]. exists h. split; [done|]. rewrite Hh'. by destruct x.
    + apply Hback, end_post; [done|]. rewrite Hsame. destruct g as [[[[? ?] ?]|text] found]; [|done].
      by eexists.
  - eapply wp_mono; [|apply (st_list scan_fuel ctx _ None [] g); by intros op ?%not_elem_of_nil].
    intros [r|] g' Hr; [|done]. destruct Hr as [Hsame Hr]. split.
    + split; [destruct r as [l|]; [by apply Hr|done]|by rewrite Hsame].
    + intros u g2 [Hret _]. cbn [returns] in Hret. by rewrite Hsame in Hret.
  - unfold Dynamo.Ping. st_unfold. st_call x g' Hg'. subst g'. split; [by split|].
    intros u g2 [-> _]. destruct g as [[h|text] found]; [|done]. by exists h.
Qed.

(** *** The gateway on top *)

Lemma store_behind_ok X (e : storeE X) g :
  spec_pre chat_proto' (up e) g.1 ->
  wp table_proto (store_behind X e) (fun o g' =>
    if o is Done x then exists h, spec_post chat_proto' (up e) g.1 x h /\ g'.1 = h else True) g.
Proof.
  intros Hpre. unfold store_behind. apply wp_bind, wp_hoist.
  eapply wp_mono; [|by apply (st_method X e g)]. intros [x|st] g' H; [|done].
  destruct H as [Hret Hnext]. st_unfold. split; [done|]. intros u g2 Hg2.
  exists g2.1. split; [|done]. by eapply Hnext.
Qed.

Lemma table_direct_ok X (e : chatE X) g :
  ~ is_store X e -> spec_pre chat_proto' e g.1 ->
  wp table_proto (call (TUp e)) (fun o g' =>
    if o is Done x then exists h, spec_post chat_proto' e g.1 x h /\ g'.1 = h else True) g.
Proof. intros Hn Hpre. split; [done|]. intros x g' [Hpost _]. by exists g'.1. Qed.

Lemma table_behind_ok X (e : chatE X) h g :
  g.1 = h -> spec_pre chat_proto' e h ->
  wp table_proto (table_behind X e) (fun o g' =>
    if o is Done x then exists h', spec_post chat_proto' e h x h' /\ g'.1 = h' else True) g.
Proof.
  intros <- Hpre. destruct e as [X e|X e]; [|by apply table_direct_ok; [intros []|]].
  destruct e as [X e|X e]; [|by apply table_direct_ok; [intros []|]].
  destruct e as [X e|X e|req ans]; [|by apply table_direct_ok; [intros []|]..].
  destruct e as [X e| | | | | |]; [|by apply table_direct_ok; [intros []|]..].
  destruct e as [X e|X e|X e|X e| | | | | | |]; try (by apply table_direct_ok; [intros []|]).
  by apply store_behind_ok.
Qed.

Lemma on_table_follows (p : prog chatE unit) h :
  wp chat_proto' p anything h -> wp table_proto (on_table p) anything (h, []).
Proof.
  apply (wp_plug_calls table_behind chat_proto' table_proto (fun h g => g.1 = h)); [|done].
  intros X e h' g. apply table_behind_ok.
Qed.

(** ** The invariant

The manager's own world holds no rows here; those of the table take their place. *)

Definition with_ops (t : gmap string Operation) (s : AWorld * KWorld * list Sent * list HttpRequest) :
    AWorld * KWorld * list Sent * list HttpRequest :=
  let '(a, k, sent, reqs) := s in (with_mw (set_ops t (mw a)) a, k, sent, reqs).

(** The gateway and what its table says. *)
Definition read_off (s : TableWorld) : AWorld * KWorld * list Sent * list HttpRequest :=
  with_ops (rows s.2) s.1.

(** Calls that are not of the store do not look at the rows. *)
Lemma mgr_post_ops t X (e : mgrE X) w x w' :
  (if e is MStore _ then False else True) -> mgr_post X e w x w' ->
  mgr_post X e (set_ops t w) x (set_ops t w').
Proof.
  intros Hn Hpost. destruct e as [X e|X e|X e|X e| | | | | | |]; simpl in *; [done|..].
  - destruct e; simpl in *; by subst.
  - destruct e; simpl in *; by subst.
  - destruct e; simpl in *; [by destruct Hpost as [? ->]|by subst].
  - by destruct Hpost as [? ->].
  - destruct Hpost as (u & c & ? & ? & ? & ->). by exists u, c.
  - destruct Hpost as (u & c & ? & ? & -> & ?). by exists u, c.
  - destruct Hpost as (u & c & ? & ? & -> & ?). by exists u, c.
  - by subst.
  - by subst.
  - by subst.
Qed.

Lemma api_post_ops t X (e : apiE X) a x a' :
  (if e is AM (MStore _) then False else True) -> api_post X e a x a' ->
  api_post X e (with_mw (set_ops t (mw a)) a) x (with_mw (set_ops t (mw a')) a').
Proof.
  intros Hn Hpost. destruct e as [X e| | | | | |]; simpl in *; [|by subst..].
  destruct Hpost as (w' & Hw & ->). exists (set_ops t w'). split; [|done]. apply mgr_post_ops; [|done].
  by destruct e.
Qed.

Lemma chat_post_ops t X (e : chatE X) s x s' :
  ~ is_store X e -> chat_post X e s x s' -> chat_post X e (with_ops t s) x (with_ops t s').
Proof.
  destruct s as [[[a k] sent] reqs], s' as [[[a' k'] sent'] reqs']. intros Hn Hpost.
  destruct e as [X e|X e]; cbn [chat_post fst snd with_ops] in *; [|by destruct e; simplify_eq].
  destruct Hpost as [Hpost ->]. split; [|done].
  destruct e as [X e|X e]; cbn [wire_post fst snd] in *.
  - destruct Hpost as [Hpost ->]. split; [|done].
    destruct e as [X e|X e|req ans]; cbn [gw_post fst snd] in *; [|naive_solver|by simplify_eq].
    destruct Hpost as [Hpost ->]. split; [|done]. apply api_post_ops; [|done].
    destruct e as [X e| | | | | |]; [|done..]. destruct e; [|done..]. by apply Hn.
  - destruct e as [X e|ctx ns name text|ctx ns name|ctx ns sel]; cbn [client_post fst snd] in *;
      [|by simplify_eq..].
    destruct Hpost as (Hpost & -> & ->). split; [|done]. by apply (api_post_ops t _ (AM (MRt e))).
Qed.

(** Those of the store change nothing else, the log of the calls apart. *)
Definition relog (l : list StoreCall) (s : AWorld * KWorld * list Sent * list HttpRequest) :
    AWorld * KWorld * list Sent * list HttpRequest :=
  let '(a, k, sent, reqs) := s in (with_mw (set_log l (mw a)) a, k, sent, reqs).

Lemma store_post_ops X (e : storeE X) t x t' s :
  store_post X e t x t' -> exists l, chat_post X (up e) (with_ops t s) x (relog l (with_ops t' s)).
Proof.
  destruct s as [[[a k] sent] reqs]. intros Hpost.
  exists (store_call X e x :: stored (mw a)). split; [|done]. split; [|done]. split; [|done].
  exists (did_store (store_call X e x) t' (set_ops t (mw a))). split; [|done]. by exists t'.
Qed.

Lemma relog_back l t s : relog (stored (mw s.1.1.1)) (relog l (with_ops t s)) = with_ops t s.
Proof. by destruct s as [[[a k] sent] reqs]. Qed.

Lemma ops_relog l s : ops (mw (relog l s).1.1.1) = ops (mw s.1.1.1).
Proof. by destruct s as [[[a k] sent] reqs]. Qed.

Lemma clock_with_ops t s : clock (mw (with_ops t s).1.1.1) = clock (mw s.1.1.1).
Proof. by destruct s as [[[a k] sent] reqs]. Qed.

Lemma ops_with_ops t s : ops (mw (with_ops t s).1.1.1) = t.
Proof. by destruct s as [[[a k] sent] reqs]. Qed.

Abbreviation chat_inv' := (chat_inv IsPrint fold_unicode cfg tp chatID) (only parsing).

Lemma chat_relogged l gs s : chat_inv' gs s -> chat_inv' gs (relog l s).
Proof. destruct s as [[[a k] sent] reqs]. intros HI. by eapply chat_relog in HI. Qed.

(** The last instant a goroutine read is one of this era. *)
Definition seen_late (g : CGhost) : Prop :=
  if g is Gateway h then forall t, seen_at h.1.1 = Some t -> 0 <= t else True.

Record table_inv (gs : list TGhost) (s : TableWorld) : Prop := {
  ti_chat : chat_inv' gs.*1 (read_off s);
  ti_table : table_ok s.2;
  ti_clock : in_range (clock (mw s.1.1.1.1));
  ti_found : forall g op, g ∈ gs -> op ∈ g.2 -> in_table (rows s.2) op;
  ti_seen : Forall seen_late gs.*1;
}.

Lemma seen_swap pre (g g' : TGhost) post gs :
  Forall seen_late (pre ++ g :: post).*1 -> seen_late g'.1 -> Forall seen_late gs.*1 ->
  Forall seen_late (pre ++ g' :: post ++ gs).*1.
Proof.
  rewrite !fmap_middle, !fmap_app, !Forall_app, !Forall_cons, !Forall_app. naive_solver.
Qed.

Lemma seen_swap_one pre (g g' : TGhost) post :
  Forall seen_late (pre ++ g :: post).*1 -> seen_late g'.1 ->
  Forall seen_late (pre ++ g' :: post).*1.
Proof.
  intros Hs Hg'. rewrite <- (app_nil_r post). apply (seen_swap pre g g' post []); [done..|].
  constructor.
Qed.

Lemma seen_at_head pre (g : TGhost) post :
  Forall seen_late (pre ++ g :: post).*1 -> seen_late g.1.
Proof. rewrite fmap_middle, Forall_app, Forall_cons. naive_solver. Qed.

(** What a call does to it. *)
Lemma seen_called X (e : chatE X) g s x s' g' :
  ~ is_store X e -> 0 <= clock (mw s.1.1.1) -> chat_post X e s x s' -> spec_pre chat_proto' e g ->
  spec_post chat_proto' e g x g' -> seen_late g -> seen_late g'.
Proof.
  intros Hn Hc Hpost Hpre Hg' Hs. destruct e as [X e|X e]; [|cbn in Hg'; by subst g'].
  destruct g as [h|text]; [|done]. destruct Hg' as (h' & -> & Hw). cbn [seen_late] in *.
  destruct e as [X e|X e]; cbn in Hw; [|by destruct Hw as [-> _]].
  destruct Hw as [Hw _], Hpost as [[Hpost _] _].
  destruct e as [X e|X e|req ans]; cbn in Hw; [|by destruct Hw as [-> _]|].
  - destruct Hw as [Hw _], Hpost as [Hpost _].
    destruct e as [X e|ctx raw|ctx req|ctx| |st|b]; cbn in Hw; try (by rewrite Hw);
      [|by rewrite Hw; destruct x|by rewrite Hw; destruct x as [d [err|]]; [|destruct (Allowed d)]].
    destruct e as [X e|X e|X e|X e| | | | | | |]; try (cbn in Hw; by rewrite Hw);
      [by destruct Hn|].
    destruct e as [|l msg]; cbn in Hw; [|by rewrite Hw]. destruct Hw as [_ ->].
    destruct Hpost as (w' & [Hle _] & _). intros t [= <-]. cbn in Hle. lia.
  - destruct Hw as [-> _]. destruct ans as [d [err|]]; [done|]. by destruct (Allowed d).
Qed.

Lemma found_later pre (g g' : TGhost) post s s' :
  (forall g op, g ∈ pre ++ g' :: post -> op ∈ g.2 -> in_table (rows s) op) ->
  table_grows (rows s) (rows s') ->
  forall gs, Forall (fun g => g.2 = []) gs ->
  forall g op, g ∈ pre ++ g' :: post ++ gs -> op ∈ g.2 -> in_table (rows s') op.
Proof.
  intros Hf Hgrow gs Hgs g1 op Hg1 Hop. eapply in_table_grows; [exact Hgrow|].
  rewrite app_comm_cons, app_assoc in Hg1. apply elem_of_app in Hg1 as [Hg1|Hg1]; [by eapply Hf|].
  rewrite Forall_forall in Hgs. rewrite (Hgs g1 Hg1) in Hop. by apply not_elem_of_nil in Hop.
Qed.

(** A goroutine's ghost changes, what it has read staying or going. *)
Lemma found_swap pre (g g' : TGhost) post t :
  (forall g1 op, g1 ∈ pre ++ g :: post -> op ∈ g1.2 -> in_table t op) ->
  (forall op, op ∈ g'.2 -> in_table t op) ->
  forall g1 op, g1 ∈ pre ++ g' :: post -> op ∈ g1.2 -> in_table t op.
Proof.
  intros Hf Hg' g1 op Hg1 Hop. apply elem_of_app in Hg1 as [Hg1|[->|Hg1]%elem_of_cons].
  - apply (Hf g1); [|done]. apply elem_of_app. by left.
  - by apply Hg'.
  - apply (Hf g1); [|done]. apply elem_of_app. right. by right.
Qed.

(** A method of the store takes effect. *)
Lemma table_store pre g post s X (e : storeE X) x t' :
  table_inv (pre ++ g :: post) s -> spec_pre chat_proto' (up e) g.1 ->
  store_post X e (rows s.2) x (rows t') -> table_ok t' ->
  (forall h, spec_post chat_proto' (up e) g.1 x h -> seen_late g.1 -> seen_late h) ->
  exists h, spec_post chat_proto' (up e) g.1 x h /\ table_inv (pre ++ (h, g.2) :: post) (s.1, t').
Proof.
  intros [HI Hok Hc Hf Hs] Hpre Hpost Hok' Hlate. rewrite fmap_middle in HI.
  destruct (store_post_ops _ _ _ _ _ s.1 Hpost) as [log Hstep].
  pose proof (chat_grows _ _ _ _ _ _ _ _ _ _ _ _ _ HI Hpre Hstep) as Hgrow.
  unfold read_off in Hgrow. rewrite ops_relog, !ops_with_ops in Hgrow.
  destruct (chat_call _ _ _ _ _ _ _ _ _ _ _ _ _ HI Hpre Hstep) as (h & Hh & HI').
  apply (chat_relogged (stored (mw s.1.1.1.1))) in HI'. rewrite relog_back in HI'.
  exists h. split; [done|]. split; [|done|done| |].
  3: { eapply seen_swap_one; [exact Hs|]. eapply Hlate; [exact Hh|]. by eapply seen_at_head. }
  - rewrite fmap_middle. cbn [cghosts wghosts kghosts gghosts fmap list_fmap] in HI'.
    by rewrite app_nil_r in HI'.
  - intros g1 op Hg1 Hop. eapply in_table_grows; [exact Hgrow|]. revert g1 op Hg1 Hop.
    eapply found_swap; [exact Hf|]. intros op Hop. apply (Hf g); [|done].
    apply elem_of_app. right. by left.
Qed.

Definition tghosts X (e : tableE X) : list TGhost :=
  match e with TUp e => (fun h => (h, [])) <$> cghosts _ e | _ => [] end.

Lemma tspawned_follow X (e : tableE X) g :
  spec_pre table_proto e g ->
  Forall2 (fun p g' => wp table_proto p anything g') (tspawned X e) (tghosts X e).
Proof.
  destruct e as [X e|X e|X e y]; cbn [tspawned tghosts]; [|by constructor..].
  intros [_ Hpre]. apply Forall2_fmap. eapply Forall2_impl; [|intros p h; apply on_table_follows].
  by eapply cspawned_follow.
Qed.

(** The times a goroutine of the gateway has read can be stored. *)
Lemma chat_ghost_ok pre h found post s :
  table_inv (pre ++ (Gateway h, found) :: post) s -> exists a, ops (mw a) = rows s.2 /\
    clock (mw a) = clock (mw s.1.1.1.1) /\ ghost_ok a h.1.1.
Proof.
  intros [HI _ _ _ _]. rewrite fmap_middle in HI.
  destruct (wire_ghost_ok _ _ _ _ _ _ _ (chat_gateway _ _ _ _ _ _ _ _ _ HI)) as (a & Ho & Ha & Hg).
  unfold read_off in Ho, Ha. rewrite ops_with_ops in Ho. rewrite clock_with_ops in Ha. by exists a.
Qed.

Lemma seen_in_range pre h found post s t :
  table_inv (pre ++ (Gateway h, found) :: post) s -> seen_at h.1.1 = Some t -> in_range t.
Proof.
  intros HI Ht. destruct (chat_ghost_ok _ _ _ _ _ HI) as (a & _ & Ha & Hg).
  pose proof (gok_seen _ _ Hg _ Ht) as Hle. rewrite Ha in Hle.
  pose proof (seen_at_head _ _ _ (ti_seen _ _ HI) t Ht). pose proof (ti_clock _ _ HI) as [_ Hc].
  unfold in_range. lia.
Qed.

Lemma known_late pre h found post s op :
  table_inv (pre ++ (Gateway h, found) :: post) s -> op ∈ known h.1.1 -> 0 <= RequestedAt op.
Proof.
  intros HI Hop. destruct (chat_ghost_ok _ _ _ _ _ HI) as (a & Ho & _ & Hg).
  destruct (gok_known _ _ Hg op Hop) as [(row & Hrow & Hs) _]. rewrite Ho in Hrow.
  apply (rows_lookup _ _ _ (ti_table _ _ HI)) in Hrow as (item & _ & He).
  rewrite <- (same_origin_requested _ _ Hs). apply (storable_in_range _ (enc_storable _ _ He)).
Qed.

Lemma ghosts_late X (e : chatE X) g :
  spec_pre chat_proto' e g ->
  (forall h op, g = Gateway h -> op ∈ known h.1.1 -> 0 <= RequestedAt op) ->
  Forall seen_late (cghosts X e).
Proof.
  intros Hpre Hk. destruct e as [X e|X e]; [|by destruct e; repeat constructor].
  destruct g as [h|text]; [|done]. destruct Hpre as [_ Hpre].
  destruct e as [X e|X e]; [|constructor]. destruct e as [X e| |]; [|constructor..].
  destruct e as [X e| | | | | |]; [|constructor..].
  destruct e as [| | | | | | | | | |op msg]; try constructor; [|constructor].
  intros t [= <-]. apply (Hk h); [done|]. apply Hpre.
Qed.

(** A call of the gateway. *)
Lemma table_call_up pre g post s X (e : chatE X) x s' :
  table_inv (pre ++ g :: post) s -> table_pre X (TUp e) g -> table_post X (TUp e) s x s' ->
  exists g', table_step X (TUp e) g x g' /\ table_inv (pre ++ g' :: post ++ tghosts X (TUp e)) s'.
Proof.
  intros Hinv [Hn Hpre] (Hpost & Ht & Hc'). pose proof Hinv as [HI Hok Hc Hf Hs].
  rewrite fmap_middle in HI.
  pose proof (chat_post_ops (rows s.2) _ _ _ _ _ Hn Hpost) as Hstep.
  destruct (chat_call _ _ _ _ _ _ _ _ _ _ _ _ _ HI Hpre Hstep) as (h & Hh & HI').
  exists (h, []). split; [by split|]. unfold read_off in *. split; rewrite ?Ht; try done.
  - unfold read_off. rewrite Ht, fmap_middle, fmap_app. cbn [tghosts].
    rewrite <- list_fmap_compose. by rewrite list_fmap_id.
  - apply (found_later pre g (h, []) post s.2 s.2); [|apply table_grows_refl|].
    + eapply found_swap; [exact Hf|]. by intros op ?%not_elem_of_nil.
    + cbn [tghosts]. apply Forall_fmap, Forall_true. done.
  - eapply seen_swap; [exact Hs|eapply (seen_called _ _ _ s.1); try done; [apply Hc|by eapply seen_at_head]|].
    cbn [tghosts]. rewrite <- list_fmap_compose. cbn. rewrite list_fmap_id.
    eapply ghosts_late; [exact Hpre|]. intros h0 op Hg. destruct g as [g0 found]. cbn in Hg. subst g0.
    by apply (known_late _ _ _ _ _ _ Hinv).
Qed.

(** Writing a row. *)
Lemma put_encodes pre g post s ctx op item :
  table_inv (pre ++ g :: post) s -> MarshalMap op = Ok item ->
  spec_pre chat_proto' (up (Store.PutOperation ctx op)) g.1 -> encodes item op.
Proof.
  intros HI Hm Hpre. destruct g as [[h|text] found]; [|done].
  destruct Hpre as (_ & _ & _ & _ & Hseen & _).
  pose proof (seen_in_range _ _ _ _ _ _ HI Hseen) as Hr.
  destruct (marshal_encodes op (operations_storable _ _ Hm Hr)) as (item' & Hm' & He).
  rewrite Hm in Hm'. by injection Hm' as <-.
Qed.

Lemma table_call_put pre g post s ctx item x s' :
  table_inv (pre ++ g :: post) s -> table_pre _ (TDy (PutItem ctx item)) g ->
  table_post _ (TDy (PutItem ctx item)) s x s' ->
  exists g', table_step _ (TDy (PutItem ctx item)) g x g' /\ table_inv (pre ++ g' :: post) s'.
Proof.
  intros HI (op & Hm & Hpre) [Hpost Hs]. destruct s' as [s1 t']. cbn [fst snd] in *. subst s1.
  pose proof (put_encodes _ _ _ _ _ _ _ HI Hm Hpre) as He. specialize (Hpost op He).
  pose proof (ti_table _ _ HI) as Hok.
  destruct (table_store _ _ _ _ _ (Store.PutOperation ctx op) x t' HI Hpre) as (h & Hh & HI').
  - destruct x as [err|]; [destruct Hpost as [-> | ->]; [by left|right]|subst t'];
      by apply rows_insert.
  - assert (table_ok (<[OperationID op:=item]> s.2)) by by apply table_ok_insert.
    destruct x as [err|]; [by destruct Hpost as [-> | ->]|by subst t'].
  - destruct g as [[h|text] found]; [|done]. intros h' (h2 & -> & [[Hw _] _]) Hlate. cbn in Hw.
    cbn [seen_late] in *. rewrite Hw. by destruct x.
  - exists (h, g.2). split; [|done]. split; [done|]. intros op' Hm' Hpre'.
    by rewrite (encodes_inj _ _ _ (put_encodes _ _ _ _ _ _ _ HI Hm' Hpre') He).
Qed.

(** Ending one. *)
Lemma found_row gs s g op :
  table_inv gs s -> g ∈ gs -> op ∈ g.2 -> row_like pos op s.2 no_place.
Proof.
  intros [_ Hok _ Hf _] Hg Hop. destruct (Hf g op Hg Hop) as (op' & Hrow & Hs).
  apply (rows_lookup _ _ _ Hok) in Hrow as (item & Ht & He). exists item, op'.
  split; [done|]. split; [done|]. split; [|done]. split; [by apply same_origin_id|].
  by apply same_origin_requested.
Qed.

Lemma update_in_range pre g post s ctx id upd :
  table_inv (pre ++ g :: post) s ->
  spec_pre chat_proto' (up (Store.UpdateTerminal ctx id upd)) g.1 ->
  legit upd /\ in_range (Upd_CompletedAt upd).
Proof.
  intros HI Hpre. destruct g as [[h|text] found]; [|done].
  destruct Hpre as (_ & _ & Hl & Hseen & _). split; [done|]. by eapply seen_in_range.
Qed.

(** A terminal write is told apart from others by what is sent. *)
Lemma same_update g ctx ctx' op op' upd upd' k :
  update_of upd = update_of upd' -> key_for op k -> key_for op' k ->
  spec_pre chat_proto' (up (Store.UpdateTerminal ctx (OperationID op) upd)) g ->
  spec_pre chat_proto' (up (Store.UpdateTerminal ctx' (OperationID op') upd')) g ->
  OperationID op = OperationID op' /\ upd = upd'.
Proof.
  intros Hu [<- _] [Hid _] Hpre Hpre'. split; [done|]. destruct g as [h|text]; [|done].
  destruct Hpre as (_ & _ & _ & Hs & _), Hpre' as (_ & _ & _ & Hs' & _).
  rewrite Hs in Hs'. injection Hs' as Ht. unfold update_of in Hu. injection Hu as H1 H2 _ H3 H4.
  destruct upd, upd'. cbn in *. by subst.
Qed.

Lemma table_call_update pre g post s ctx k u x s' :
  table_inv (pre ++ g :: post) s -> table_pre _ (TDy (UpdateItem ctx k u)) g ->
  table_post _ (TDy (UpdateItem ctx k u)) s x s' ->
  exists g', table_step _ (TDy (UpdateItem ctx k u)) g x g' /\ table_inv (pre ++ g' :: post) s'.
Proof.
  intros HI (op & upd & -> & Hkey & Hop & Hpre) [Hpost Hs]. destruct s' as [s1 t'].
  cbn [fst snd] in *. subst s1. destruct (update_in_range _ _ _ _ _ _ _ HI Hpre) as [Hl Hr].
  assert (row_like pos op s.2 no_place) as Hrow.
  { eapply found_row; [exact HI| |exact Hop]. apply elem_of_app. right. by left. }
  assert (forall y h g', spec_post chat_proto' (up (Store.UpdateTerminal ctx (OperationID op) upd)) g.1 y h ->
            (y = None <-> x = None) -> g' = (h, g.2) ->
            table_step _ (TDy (UpdateItem ctx k (update_of upd))) g x g') as Hknows.
  { intros y h g' Hh Hy ->. split; [done|]. intros op' upd' Hu Hkey' Hpre'.
    destruct (same_update _ _ _ _ _ _ _ _ Hu Hkey Hkey' Hpre Hpre') as [<- <-].
    apply end_post in Hh as (h0 & H0 & ->); [|done]. apply end_post; [done|]. exists h0.
    split; [done|]. destruct x, y; naive_solver. }
  destruct (update_item_outcome has_sort pos ctx _ _ _ _ _ _ (ti_table _ _ HI) Hrow
              (updates_storable _ Hl Hr) Hkey Hpost) as (Hok' & _ & [(err & -> & _ & -> & _)|[_ Hst]]).
  - exists g. split; [|by destruct s]. apply (Hknows (Some err) g.1); [|done|by destruct g].
    apply end_post; [done|]. destruct g as [[[[? ?] ?]|text] found]; [|done]. by eexists.
  - destruct (table_store _ _ _ _ _ _ _ _ HI Hpre Hst Hok') as (h & Hh & HI').
    { intros h Hh Hlate. apply end_post in Hh as (h0 & H0 & ->); [|done]. rewrite H0 in Hlate.
      cbn [seen_late] in *. by destruct (update_error <$> x). }
    exists (h, g.2). split; [|done]. apply (Hknows (update_error <$> x) h); [done| |done].
    by destruct x.
Qed.

(** Reading a page. *)
Lemma decoded_shown t f items (last : option nat) op :
  Forall (shown t f) items -> op ∈ decoded (Ok (items, last)) ->
  in_table (rows t) op /\ (if f is ByID id then OperationID op = id else True).
Proof.
  intros Hall Hin. cbn [decoded] in Hin. apply list_elem_of_omap in Hin as (item & Hin & Hu).
  rewrite Forall_forall in Hall. destruct (Hall item Hin) as (Hm & op' & He & Ht).
  rewrite (enc_unmarshal _ _ He) in Hu. injection Hu as ->. split; [done|].
  destruct f as [id|txt]; [|done]. cbn [matches] in Hm. rewrite (enc_id _ _ He) in Hm. congruence.
Qed.

(** Consistent scans are a special case. *)
Lemma dy_call_service X (e : dyE Item nat X) t x t' :
  table_ok t -> dy_call has_sort pos top [t] _ e t x t' -> service X e t x t'.
Proof.
  intros Hok Hpost. destruct e as [ctx item|ctx k u|ctx f start|ctx]; try exact Hpost.
  destruct Hpost as [-> Hx]. split; [done|]. destruct x as [[items last]|err]; [|done].
  destruct Hx as [(v & Hv & l & _ & -> & Hl) _].
  assert (v = t) as ->.
  { apply map_eq. intros id. by destruct (Hv id) as (h & ->%list_elem_of_singleton & ?). }
  apply Forall_forall. intros item Hin.
  apply list_elem_of_fmap in Hin as ([id item'] & -> & Hin). apply Hl in Hin as (Ht & Hm & _).
  destruct (Hok _ _ Ht) as (op & He & Hid). split; [done|]. exists op. split; [done|].
  exists op. split; [|apply same_origin_refl]. apply rows_lookup; [done|]. exists item'. by rewrite Hid.
Qed.

Lemma table_call_scan pre g post s ctx f start x s' :
  table_inv (pre ++ g :: post) s -> table_post _ (TDy (Scan ctx f start)) s x s' ->
  exists g', table_step _ (TDy (Scan ctx f start)) g x g' /\ table_inv (pre ++ g' :: post) s'.
Proof.
  intros [HI Hok Hc Hf Hsn] [[Ht Hx] Hs]. destruct s' as [s1 t']. cbn [fst snd] in *. subst s1 t'.
  assert (forall op, op ∈ decoded x -> in_table (rows s.2) op /\
            (if f is ByID id then OperationID op = id else True)) as Hd.
  { destruct x as [[items hi]|err]; [|by intros op ?%not_elem_of_nil].
    intros op. by apply decoded_shown. }
  exists (g.1, decoded x ++ g.2). split; [split; [done|]|].
  - destruct f as [id|txt]; [|done]. apply Forall_forall. intros op Hop. by apply Hd.
  - split; [|done|done| |].
    3: { eapply seen_swap_one; [exact Hsn|]. exact (seen_at_head _ _ _ Hsn). }
    + rewrite fmap_middle in *. by destruct s.
    + eapply found_swap; [exact Hf|]. intros op [Hop|Hop]%elem_of_app; [by apply Hd|].
      apply (Hf g); [|done]. apply elem_of_app. right. by left.
Qed.

(** Coming back from a method. *)
Lemma found_known gs s g op :
  table_inv gs s -> g ∈ gs -> op ∈ g.2 ->
  in_table (rows s.2) op /\ RequestedAt op <= clock (mw s.1.1.1.1).
Proof.
  intros [HI _ _ Hf _] Hg Hop. pose proof (Hf g op Hg Hop) as Hin. split; [done|].
  destruct Hin as (row & Hrow & Hs). pose proof (chat_rows _ _ _ _ _ _ _ HI) as Hrows.
  unfold read_off in Hrows. rewrite ops_with_ops, clock_with_ops in Hrows.
  destruct (Hrows _ _ Hrow) as [_ Hr]. rewrite <- (same_origin_requested _ _ Hs).
  apply (row_requested _ _ Hr).
Qed.

Lemma table_learns pre h found post s l :
  table_inv (pre ++ (Gateway h, found) :: post) s -> l ⊆ found ->
  exists h1, learns l h.1.1 h1 /\
    table_inv (pre ++ (Gateway (h1, h.1.2, h.2), []) :: post) s.
Proof.
  intros HI Hl.
  assert (forall op, op ∈ l -> in_table (rows s.2) op /\ RequestedAt op <= clock (mw s.1.1.1.1)) as Hk.
  { intros op Hop. apply (found_known _ _ (Gateway h, found) op HI); [|by apply Hl].
    apply elem_of_app. right. by left. }
  destruct (chat_ghost_ok _ _ _ _ _ HI) as (a & Ho & Ha & Hg).
  destruct HI as [HI Hok Hc Hf Hs]. rewrite fmap_middle in HI.
  exists (learn_now a l h.1.1). split; [by apply learns_now|]. split; [|done|done| |].
  3: { eapply seen_swap_one; [exact Hs|]. intros t [= <-]. rewrite Ha. apply Hc. }
  - rewrite fmap_middle. cbn [fst]. apply chat_swap; [exact HI|]. intros gs a' Ho' Ha' Hinv.
    assert (learn_now a l h.1.1 = learn_now a' l h.1.1) as -> by (unfold learn_now; rewrite Ha, Ha'; unfold read_off; by rewrite clock_with_ops).
    apply inv_learn; [done|]. rewrite Ho', Ha'. unfold read_off. rewrite ops_with_ops, clock_with_ops.
    exact Hk.
  - eapply found_swap; [exact Hf|]. by intros op ?%not_elem_of_nil.
Qed.

Lemma table_forgets pre h found post s :
  table_inv (pre ++ (Gateway h, found) :: post) s ->
  table_inv (pre ++ (Gateway (set_made None h.1.1, h.1.2, h.2), []) :: post) s.
Proof.
  intros [HI Hok Hc Hf Hs]. rewrite fmap_middle in HI. split; [|done|done| |].
  3: { eapply seen_swap_one; [exact Hs|]. exact (seen_at_head _ _ _ Hs). }
  - rewrite fmap_middle. cbn [fst]. apply chat_swap; [exact HI|]. intros gs a' _ _ Hinv.
    eapply inv_unmade; [done| |exact Hinv]. by destruct (ghost_of_head _ _ _ Hinv).
  - eapply found_swap; [exact Hf|]. by intros op ?%not_elem_of_nil.
Qed.

(** What was read is forgotten. *)
Lemma table_drops pre h found post s :
  table_inv (pre ++ (Gateway h, found) :: post) s -> table_inv (pre ++ (Gateway h, []) :: post) s.
Proof.
  intros [HI Hok Hc Hf Hs]. split; [|done|done| |].
  3: { eapply seen_swap_one; [exact Hs|]. exact (seen_at_head _ _ _ Hs). }
  - by rewrite fmap_middle in *.
  - eapply found_swap; [exact Hf|]. by intros op ?%not_elem_of_nil.
Qed.

Lemma table_call_return pre g post s X (e : storeE X) x :
  table_inv (pre ++ g :: post) s -> table_pre _ (TReturn e x) g ->
  exists g', table_step _ (TReturn e x) g tt g' /\ table_inv (pre ++ g' :: post) s.
Proof.
  intros HI [Hret Hg]. destruct g as [[h|text] found]; [|done]. cbn [fst snd] in *.
  destruct e as [ctx op|ctx id|ctx id upd|ctx t|ctx].
  - eexists. split; [|apply (table_forgets _ _ _ _ _ HI)]. split; [by exists h|done].
  - destruct (table_learns pre h found post s (match x with Ok op => [op] | Err _ => [] end) HI)
      as (h1 & Hh & HI').
    { destruct x as [op|err]; [|by intros op ?%not_elem_of_nil].
      by intros op' ->%list_elem_of_singleton. }
    eexists. split; [|exact HI']. split; [|done]. eexists. split; [done|]. by split.
  - exists (Gateway h, []). split; [by split|]. by eapply table_drops.
  - destruct (table_learns pre h found post s (match x with Ok l => l | Err _ => [] end) HI)
      as (h1 & Hh & HI').
    { destruct x as [l|err]; [done|by intros op ?%not_elem_of_nil]. }
    eexists. split; [|exact HI']. split; [|done]. eexists. split; [done|]. by split.
  - exists (Gateway h, []). split; [by split|]. by eapply table_drops.
Qed.

Lemma table_call pre g post X (e : tableE X) s x s' :
  table_inv (pre ++ g :: post) s -> spec_pre table_proto e g -> table_post X e s x s' ->
  exists g', spec_post table_proto e g x g' /\ table_inv (pre ++ g' :: post ++ tghosts X e) s'.
Proof.
  intros HI Hpre Hpost. destruct e as [X e|X e|X e y]; [by apply (table_call_up _ _ _ s)|..];
    cbn [tghosts]; rewrite app_nil_r.
  - destruct e as [ctx item|ctx k u|ctx f start|ctx].
    + by apply (table_call_put _ _ _ s).
    + by apply (table_call_update _ _ _ s).
    + by apply (table_call_scan _ _ _ s).
    + exists g. split; [done|]. destruct s as [s1 t], s' as [s1' t'].
      destruct Hpost as [Ht Hs]. cbn in Ht, Hs. by subst.
  - cbn [table_post] in Hpost. subst s'. destruct x. by apply table_call_return.
Qed.

(** ** Every reachable state *)

(** Where an execution starts: a table of well formed rows, nothing sent yet. *)
Record table_starting (s : TableWorld) : Prop := {
  table_start : chat_starting (read_off s);
  table_rows : table_ok s.2;
  table_clock : in_range (clock (mw s.1.1.1.1));
}.

Lemma table_reachable s0 ts s :
  table_starting s0 -> born = rows s0.2 -> rtc deployed_step ([], s0) (ts, s) ->
  exists gs, table_inv gs s.
Proof.
  intros [Hstart Hok Hc] Hborn Hsteps.
  destruct (pool_reachable_spawn table_env tspawned tentry True TGhost table_proto anything table_inv
              (Gateway (ghost0, [], None), []) tghosts) with (s0 := s0) (ts := ts) (s := s)
    as (gs & _ & HI); try done.
  - intros p [q [r Hr]].
    by apply on_table_follows, on_chat_follows, on_wire_follows, on_keycloak_follows, gentry_follows.
  - exact tspawned_follow.
  - intros pre g post X e s1 x s2. apply table_call.
  - intros gs s1 [HI Hok1 Hc1 Hf Hs]. split; [|done|done| |].
    3: { rewrite fmap_app. by apply Forall_app_2; repeat constructor. }
    + rewrite fmap_app. by apply chat_enter.
    + intros g op [Hg|Hg]%elem_of_app Hop; [by eapply Hf|].
      apply list_elem_of_singleton in Hg as ->. by apply not_elem_of_nil in Hop.
  - intros pre g post s1 _ [HI Hok1 Hc1 Hf Hs]. split; [|done|done| |].
    3: { rewrite fmap_middle, Forall_app, Forall_cons in Hs. rewrite fmap_app, Forall_app. naive_solver. }
    + rewrite fmap_middle in HI. rewrite fmap_app. by eapply chat_leave.
    + intros g1 op Hg Hop. apply (Hf g1); [|done]. set_solver.
  - split; [apply chat_start_inv; [done|]|done|done| |constructor].
    { unfold read_off. by rewrite ops_with_ops. } by intros g op ?%not_elem_of_nil.
  - by exists gs.
Qed.

(** A denied row is one of those the execution started with, or was refused. *)
Lemma table_denied gs s id op :
  table_inv gs s -> rows s.2 !! id = Some op -> Status op = StatusDenied ->
  born !! id = Some op \/ denied_by s.1.1.1.1 op.
Proof.
  intros [HI _ _ _ _] Hop Hst. unfold read_off in HI.
  pose proof (chat_denied _ _ _ _ _ _ _ id op HI) as Hd. rewrite ops_with_ops in Hd.
  destruct (Hd Hop Hst) as [?|Hby]; [by left|right]. by destruct s as [[[[a k] sent] reqs] t].
Qed.

End System.

Section Theorems.
Context `{Laws : DynamoItemLaws Item}.
Variables (m : Manager) (fuel evfuel scan_fuel : nat).
Variable new_request_error : string -> string -> option error.
Variable IsPrint : Z -> bool.
Variable fold_unicode : string -> string -> bool.
Variable cfg : Keycloak.Config.
Variable RetryOnConflict : prog cgE (option error) -> prog cgE (option error).
Hypothesis RetryOnConflict_retries : retries_only RetryOnConflict.
Variable tp : transport.
Variable chatID : string.
Variable has_sort : bool.
Variable pos : option string -> option string -> nat.
Variable top : nat.
Hypothesis operations_storable : forall op item,
  MarshalMap op = Ok item -> in_range (RequestedAt op) -> storable op.
Hypothesis updates_storable : forall upd,
  legit upd -> in_range (Upd_CompletedAt upd) -> storable_update upd.

Abbreviation deployed :=
  (deployed_step m fuel evfuel scan_fuel new_request_error IsPrint fold_unicode cfg
     RetryOnConflict tp chatID has_sort pos top) (only parsing).

Lemma deployed_reachable s0 ts s (before := rows s0.2 : Born) :
  table_starting s0 -> rtc deployed ([], s0) (ts, s) ->
  exists gs, table_inv IsPrint fold_unicode cfg tp chatID gs s.
Proof.
  intros Hstart Hsteps.
  by apply (table_reachable m fuel evfuel scan_fuel new_request_error IsPrint fold_unicode cfg
              RetryOnConflict RetryOnConflict_retries tp chatID has_sort pos top
              operations_storable updates_storable s0 ts s).
Qed.

(** C1: what reaches Kubernetes.  The whole gateway as [main] wires it up, from the bytes
of the requests to the bytes of the patches and the items of the table: whatever requests
arrive, however handlers, watchers, the sweeper and the notifier interleave between any
two calls and share the authorizer's caches, whatever the verifier, Keycloak, the API
server, DynamoDB and Telegram answer and whoever dies, every text the API server was sent
carries a patch that is permitted.  A restart's text reads as JSON as that restart; a
rollout's as that rollout when its container and image are printable, and otherwise as
that or as no JSON at all, never as another patch.  A verified token and an item of the
table stand behind it, in the name of the identity of the token; and when no field of the
request to the authorizer has a NUL byte, Keycloak's own answers permit it. *)
Theorem deployed_texts_permitted s0 ts s msg :
  table_starting s0 -> rtc deployed ([], s0) (ts, s) -> msg ∈ s.1.1.2 ->
  exists p, carried p msg /\
    permitted_patch IsPrint fold_unicode cfg (read_off s).1.1 p.
Proof.
  intros Hstart Hsteps Hin. destruct (deployed_reachable s0 ts s Hstart Hsteps) as [gs HI].
  destruct (ti_chat _ _ _ _ _ _ _ HI) as (HW & _ & _).
  apply (wire_inv_permitted _ _ _ _ _ _ HW). by destruct s as [[[[a k] sent] reqs] t].
Qed.

(** C33: what reaches the chat.  Every request to the Bot API is for the configured chat
and sends, or puts in the place of a message, the rendering of an item of the table: of the
running operation, without outcome, or of the operation with the status, error and
completion time the item has ended with. *)
Theorem deployed_messages_on_record s0 ts s req :
  table_starting s0 -> rtc deployed ([], s0) (ts, s) -> req ∈ s.1.2 ->
  exists text, on_record (rows s.2) text /\ posts tp chatID text req.
Proof.
  intros Hstart Hsteps Hin. destruct (deployed_reachable s0 ts s Hstart Hsteps) as [gs HI].
  destruct (ti_chat _ _ _ _ _ _ _ HI) as (_ & _ & Hreq).
  unfold read_off in Hreq. rewrite ops_with_ops in Hreq.
  apply Hreq. by destruct s as [[[[a k] sent] reqs] t].
Qed.

(** C9: every item of the table can be read back and is well formed at all times: under its
own id, fixed columns that agree with each other, a running operation without outcome, a
denied one with the reason the authorizer gave when it refused the identity of the row that
action on that deployment (or it was in the table from the start), an ended one with the
status, code, event and completion time of exactly one of the ways to end, in the order of
time. *)
Theorem deployed_rows_well_formed s0 ts s :
  table_starting s0 -> rtc deployed ([], s0) (ts, s) ->
  map_Forall (fun id item => exists op, encodes item op /\ OperationID op = id /\
    row_ok (clock (mw s.1.1.1.1)) op /\
    (Status op = StatusDenied -> rows s0.2 !! id = Some op \/ denied_by s.1.1.1.1 op)) s.2.
Proof.
  intros Hstart Hsteps. destruct (deployed_reachable s0 ts s Hstart Hsteps) as [gs HI].
  pose proof (chat_rows _ _ _ _ _ _ _ (ti_chat _ _ _ _ _ _ _ HI)) as Hrows. unfold read_off in Hrows.
  rewrite ops_with_ops, clock_with_ops in Hrows. intros id item Hitem.
  destruct (ti_table _ _ _ _ _ _ _ HI id item Hitem) as (op & He & Hid). exists op. split; [done|].
  assert (rows s.2 !! id = Some op) as Hop
    by (apply rows_lookup; [apply (ti_table _ _ _ _ _ _ _ HI)|by exists item]).
  split; [done|]. split; [by apply (Hrows id)|]. by apply (table_denied _ _ _ _ _ _ _ _ _ HI).
Qed.

End Theorems.
