(* ===== verification/StoreDemo.v ===== *)
(** * A runnable gateway, as deployed

[table_sim] puts the table of [DynamoTable.sim_call], one without a sort key, under
[ChatDemo.chat_sim]: the store's first key does not fit it, its second one does. *)

From stdpp Require Import relations.
From S2P Require Import Prelude GoStrings GoRuntime GoNet GoJson GoJsonSpec GoTime GoDates Effects Authz Keycloak KeycloakSpec KeycloakRace KeycloakDemo Authn Kube KubeClient Dynamo DynamoTable Store Notify Telegram TelegramSpec Manager ManagerSpec ManagerWatch ManagerRace ManagerDemo Api ApiSpec AuditTrail PermitTrail AuditDemo WireTrail WireDemo ChatTrail ChatDemo StoreTrail.

Local Open Scope string_scope.
Local Open Scope list_scope.
Local Open Scope Z_scope.

Abbreviation DeployedWorld :=
  (AWorld * KWorld * list Sent * list HttpRequest * gmap string Operation)%type (only parsing).

Definition table_sim X (e : @tableE Operation X) (s : DeployedWorld) : X * DeployedWorld :=
  match e in tableE X return X * DeployedWorld with
  | TUp e => let (x, c) := chat_sim _ e s.1 in (x, (c, s.2))
  | TDy e => let (x, t) := sim_call false _ e s.2 in (x, (s.1, t))
  | TReturn _ _ => (tt, s)
  end.

(** The clock shows a year of four digits, and so do the rows. *)
Definition in_time (s : DeployedWorld) : bool :=
  bool_decide (in_range (clock (mw s.1.1.1.1))) &&
  bool_decide (map_Forall (fun id op => in_range (RequestedAt op) /\ OperationID op = id) s.2).

Definition sim_inv (s : DeployedWorld) : Prop :=
  well_keyed (ops (mw s.1.1.1.1)) /\ table_ok s.2.

Lemma table_sim_ok X (e : @tableE Operation X) s :
  sim_inv s -> in_time (table_sim X e s).2 = true ->
  table_post false (fun _ _ => 0%nat) 0 X e s (table_sim X e s).1 (table_sim X e s).2 /\
  sim_inv (table_sim X e s).2.
Proof.
  intros [Hk Hok] [Hc%bool_decide_eq_true Ht%bool_decide_eq_true]%andb_true_iff.
  assert (table_ok (table_sim X e s).2.2) as Hok'.
  { intros id op Hop. destruct (Ht id op Hop) as [Hr Hid]. exists op. split; [|done]. by split. }
  destruct e as [X e|X e|X e y]; cbn [table_sim table_post] in *; [| |done].
  - destruct (chat_sim_ok X e s.1 Hk) as [Hpost Hk']. by destruct (chat_sim X e s.1).
  - pose proof (dy_call_service false (fun _ _ => 0%nat) 0 X e s.2 _ _ Hok (sim_call_ok false [s.2] X e s.2 (list_elem_of_here _ _)))
      as Hpost. by destruct (sim_call false X e s.2).
Qed.

Lemma items_storable (op item : Operation) :
  MarshalMap op = Ok item -> in_range (RequestedAt op) -> storable op.
Proof. done. Qed.

Lemma ends_storable upd :
  legit upd -> in_range (Upd_CompletedAt upd) -> storable_update (Item := Operation) upd.
Proof. done. Qed.

(** ** A run *)

Abbreviation deployed := (on_table 9 ascii_only chatted) (only parsing).
Abbreviation dstep :=
  (deployed_step gateway_manager 9 9 9 no_error ascii_only no_fold cfg (retry_n 3) bot "-100"
     false (fun _ _ => 0%nat) 0) (only parsing).

Definition empty_table : DeployedWorld := (idle_chat, ∅).

Lemma empty_table_starting : table_starting empty_table.
Proof. split; [apply idle_chat_starting|apply map_Forall_empty|by vm_compute]. Qed.

Definition deployed_picks : list nat :=
  replicate 130 0%nat ++ replicate 20 1%nat ++ replicate 60 2%nat ++ replicate 20 3%nat.

Definition deployed_run : list (prog (@tableE Operation) unit) * DeployedWorld :=
  sched (tspawned gateway_manager 9 9 9 no_error ascii_only no_fold cfg (retry_n 3) bot "-100")
    table_sim deployed_picks [deployed] empty_table.

Lemma deployed_run_reached : rtc dstep ([], empty_table) deployed_run.
Proof.
  eapply rtc_l; [apply (pstep_enter _ _ _ _ deployed); do 3 constructor|].
  apply (sched_psteps_checked _ _ _ _ table_sim in_time sim_inv);
    [|split; [apply idle_world_ids|apply map_Forall_empty]|vm_compute; reflexivity].
  intros X e s. apply table_sim_ok.
Qed.

(** The item has ended; two texts were sent and two messages. *)
Example deployed_run_result :
  (Status <$> deployed_run.2.2 !! "op_") = Some StatusSucceeded /\
  length deployed_run.2.1.1.2 = 2%nat /\ length deployed_run.2.1.2 = 2%nat.
Proof. vm_compute. repeat split. Qed.

Lemma deployed_texts_permitted_witness :
  length deployed_run.2.1.1.2 = 2%nat /\
  Forall (fun msg => exists p, carried p msg /\
    permitted_patch ascii_only no_fold cfg (read_off deployed_run.2).1.1 p) deployed_run.2.1.1.2.
Proof.
  split; [vm_compute; reflexivity|]. apply Forall_forall. intros msg Hin.
  apply (deployed_texts_permitted gateway_manager 9 9 9 no_error ascii_only no_fold cfg (retry_n 3)
           (retry_n_retries 3) bot "-100" false (fun _ _ => 0%nat) 0 items_storable
           ends_storable empty_table deployed_run.1 deployed_run.2 msg empty_table_starting).
  - rewrite <- surjective_pairing. exact deployed_run_reached.
  - exact Hin.
Defined.

Lemma deployed_rows_well_formed_witness :
  is_Some (deployed_run.2.2 !! "op_") /\
  map_Forall (fun id item => exists op, encodes item op /\ OperationID op = id /\
    row_ok (clock (mw deployed_run.2.1.1.1.1)) op /\
    (Status op = StatusDenied -> rows (∅ : gmap string Operation) !! id = Some op \/
       denied_by deployed_run.2.1.1.1.1 op)) deployed_run.2.2.
Proof.
  split; [exists (default (row "") (deployed_run.2.2 !! "op_")); vm_compute; reflexivity|].
  apply (deployed_rows_well_formed gateway_manager 9 9 9 no_error ascii_only no_fold cfg (retry_n 3)
           (retry_n_retries 3) bot "-100" false (fun _ _ => 0%nat) 0 items_storable
           ends_storable empty_table deployed_run.1 deployed_run.2 empty_table_starting).
  rewrite <- surjective_pairing. exact deployed_run_reached.
Defined.

Lemma deployed_messages_on_record_witness :
  URL <$> deployed_run.2.1.2 = ["https://api.telegram.org/botsecret/editMessageText";
                                "https://api.telegram.org/botsecret/sendMessage"] /\
  Forall (fun req => exists text, on_record (rows deployed_run.2.2) text /\
            posts bot "-100" text req) deployed_run.2.1.2.
Proof.
  split; [vm_compute; reflexivity|]. apply Forall_forall. intros req Hin.
  apply (deployed_messages_on_record gateway_manager 9 9 9 no_error ascii_only no_fold cfg (retry_n 3)
           (retry_n_retries 3) bot "-100" false (fun _ _ => 0%nat) 0 items_storable
           ends_storable empty_table deployed_run.1 deployed_run.2 req empty_table_starting).
  - rewrite <- surjective_pairing. exact deployed_run_reached.
  - exact Hin.
Defined.
