(* ===== verification/Gateway.v ===== *)
(** * The process: configuration and start-up

[cmd/gateway/main.go]: reading the environment, choosing the authorization
backend, the order in which the parts are started and the handles each part is
given on the ones made before it. *)

From S2P Require Import Prelude GoStrings GoRuntime GoNet Effects Authz Keycloak.
From S2P Require Telegram Manager.

Local Open Scope string_scope.
Local Open Scope list_scope.
Local Open Scope Z_scope.

Definition oidcIssuer : string := "https://token.actions.githubusercontent.com".
Definition audience : string := "https://gateway.tuando.app".

(** ** The parts *)

Inductive Backend : Type :=
  | BFile (p : Policy.t)
  | BKeycloak (cfg : Config)
  | BShadow (p : Policy.t) (cfg : Config).

(** What a constructor of another package has made: a verifier, a client, a store. *)
Definition Handle : Type := nat.

(** [operation.NewManager]: the manager and what it acts through. *)
Record Ops : Type := {
  ops_kube : Handle;
  ops_store : Handle;
  ops_notifier : Telegram.Notifier;
  ops_manager : Manager.Manager;
}.

Definition NewOps (k st : Handle) (notifier : Telegram.Notifier) (deadline : Z) : Ops :=
  {| ops_kube := k; ops_store := st; ops_notifier := notifier;
     ops_manager := Manager.NewManager deadline |}.

(** [api.Deps] *)
Record Deps : Type := {
  d_verifier : Handle;
  d_authz : Backend;
  d_ops : Ops;
  d_store : Handle;
}.

(** ** Calls *)

Inductive mainE : Type -> Type :=
  | GRt {X} (e : rtE X) : mainE X
  (** [os.Getenv] *)
  | Getenv (key : string) : mainE string
  (** [authz.NewFileAuthorizer(path)] *)
  | LoadFile (path : string) : mainE (result error Policy.t)
  (** [authn.NewVerifier], [kube.NewInCluster], [store.NewDynamo] *)
  | GNewVerifier (issuer audience : string) : mainE (result error Handle)
  | GNewInCluster : mainE (result error Handle)
  | GNewDynamo (table : string) : mainE (result error Handle)
  (** [notify.New] *)
  | GNotifier (cfg : Telegram.Config) : mainE Telegram.Notifier
  (** [go ops.StartSweeper(ctx)]; [go srv.ListenAndServe()] with the router of the
      dependencies, headers read within a time; [<-ctx.Done()]; [srv.Shutdown] within a
      time; [os.Exit] *)
  | GoSweeper (ops : Ops) : mainE unit
  | GoServe (addr : string) (deps : Deps) (headers : Z) : mainE unit
  | AwaitSignal : mainE unit
  | Shutdown (within : Z) : mainE unit
  | ExitCode (code : Z) : mainE unit.

#[export] Instance Sub_rt_main : Sub rtE mainE := @GRt.

Definition main_log (l : level) (msg : string) : prog mainE unit := trigger (LogLine l msg).

Definition envOr (key def : string) : prog mainE string :=
  v ← call (Getenv key);
  mret (if decide (v = "") then def else v).

(** ** Configuration *)

(** The variables without a value, in the order they are checked. *)
Definition missing (cfg : Config) : list string :=
  fst <$> filter (fun nv => nv.2 = "")
    [("KEYCLOAK_BASE_URL", BaseURL cfg); ("KEYCLOAK_REALM", Realm cfg);
     ("KEYCLOAK_CLIENT_ID", ClientID cfg); ("KEYCLOAK_CLIENT_SECRET", ClientSecret cfg)].

Definition requireKeycloakConfig (backend : string) (cfg : Config) : option error :=
  match missing cfg with
  | [] => None
  | names => Some (ErrText ("AUTHZ_BACKEND=" +:+ backend +:+ " requires " +:+ Join names ", "))
  end.

(** [kcConfig()]; the timeout is left at zero. *)
Definition kcConfig : prog mainE Config :=
  base ← call (Getenv "KEYCLOAK_BASE_URL");
  realm ← call (Getenv "KEYCLOAK_REALM");
  id ← call (Getenv "KEYCLOAK_CLIENT_ID");
  secret ← call (Getenv "KEYCLOAK_CLIENT_SECRET");
  mret {| BaseURL := base; Realm := realm; ClientID := id; ClientSecret := secret; Timeout := 0 |}.

(** ** The authorization backend *)

Section Build.
(** [unicode.IsPrint] beyond ASCII. *)
Variable IsPrint : Z -> bool.

Definition buildAuthorizer (backend policyPath : string) : prog mainE (result error Backend) :=
  if decide (backend = "keycloak") then
    cfg ← kcConfig;
    match requireKeycloakConfig backend cfg with
    | Some err => mret (Err err)
    | None => main_log LInfo "authorization backend" ;; mret (Ok (BKeycloak cfg))
    end
  else if decide (backend = "shadow") then
    file ← call (LoadFile policyPath);
    match file with
    | Err err => mret (Err err)
    | Ok p =>
        cfg ← kcConfig;
        match requireKeycloakConfig backend cfg with
        | Some err => mret (Err err)
        | None => main_log LInfo "authorization backend" ;; mret (Ok (BShadow p cfg))
        end
    end
  else if decide (backend = "file" \/ backend = "") then
    main_log LInfo "authorization backend" ;;
    file ← call (LoadFile policyPath);
    match file with
    | Err err => mret (Err err)
    | Ok p => mret (Ok (BFile p))
    end
  else
    mret (Err (ErrText ("unknown AUTHZ_BACKEND " +:+ Quote IsPrint backend +:+
                        " (want file, keycloak or shadow)"))).

(** The authorizer a backend is. *)
Definition authorizer_of (new_request_error : string -> string -> option error)
    (fold_unicode : string -> string -> bool) (b : Backend) : Authorizer kcE :=
  match b with
  | BFile p => Policy.FileAuthorizer p
  | BKeycloak cfg => KeycloakAuthorizer new_request_error IsPrint fold_unicode cfg
  | BShadow p cfg =>
      Shadow.Shadow (Policy.FileAuthorizer p)
        (KeycloakAuthorizer new_request_error IsPrint fold_unicode cfg)
  end.

(** Whether it implements [ReadinessChecker]. *)
Definition checks_readiness (b : Backend) : bool :=
  match b with BKeycloak _ => true | _ => false end.

(** ** Start-up *)

(** A fatal error: log it and exit. *)
Definition fatal (what : string) : prog mainE unit :=
  main_log LError what ;; call (ExitCode 1).

Definition main : prog mainE unit :=
  policyPath ← envOr "POLICY_PATH" "/etc/gateway/policy.yaml";
  table ← envOr "DYNAMO_TABLE" "deploy-gateway-operations";
  port ← envOr "PORT" "8080";
  backend ← call (Getenv "AUTHZ_BACKEND");
  authorizer ← buildAuthorizer backend policyPath;
  match authorizer with
  | Err _ => fatal "authorization backend"
  | Ok authorizer =>
      verifier ← call (GNewVerifier oidcIssuer audience);
      match verifier with
      | Err _ => fatal "oidc verifier"
      | Ok verifier =>
          k ← call GNewInCluster;
          match k with
          | Err _ => fatal "kubernetes client"
          | Ok k =>
              st ← call (GNewDynamo table);
              match st with
              | Err _ => fatal "dynamo store"
              | Ok st =>
                  tok ← call (Getenv "TELEGRAM_BOT_TOKEN");
                  chat ← call (Getenv "TELEGRAM_CHAT_ID");
                  base ← call (Getenv "TELEGRAM_API_BASE");
                  notifier ← call (GNotifier
                    {| Telegram.BotToken := tok; Telegram.ChatID := chat;
                       Telegram.APIBase := base |});
                  let ops := NewOps k st notifier (10 * Minute) in
                  call (GoSweeper ops) ;;
                  call (GoServe (":" +:+ port)
                          {| d_verifier := verifier; d_authz := authorizer; d_ops := ops;
                             d_store := st |} (10 * Second)) ;;
                  call AwaitSignal ;;
                  call (Shutdown (15 * Second)) ;;
                  main_log LInfo "stopped"
              end
          end
      end
  end.

(** ** What the configuration error says *)

Lemma missing_spec cfg name :
  name ∈ missing cfg <->
  (name = "KEYCLOAK_BASE_URL" /\ BaseURL cfg = "") \/
  (name = "KEYCLOAK_REALM" /\ Realm cfg = "") \/
  (name = "KEYCLOAK_CLIENT_ID" /\ ClientID cfg = "") \/
  (name = "KEYCLOAK_CLIENT_SECRET" /\ ClientSecret cfg = "").
Proof.
  unfold missing. rewrite list_elem_of_fmap. setoid_rewrite list_elem_of_filter.
  setoid_rewrite elem_of_cons. split.
  - intros ([n v] & -> & Hv & Hin). simpl in *. rewrite !elem_of_cons in Hin.
    repeat destruct Hin as [[= -> ->]|Hin]; auto. by apply elem_of_nil in Hin.
  - intros [[-> H]|[[-> H]|[[-> H]|[-> H]]]].
    + exists ("KEYCLOAK_BASE_URL", BaseURL cfg). auto.
    + exists ("KEYCLOAK_REALM", Realm cfg). rewrite !elem_of_cons. auto 10.
    + exists ("KEYCLOAK_CLIENT_ID", ClientID cfg). rewrite !elem_of_cons. auto 10.
    + exists ("KEYCLOAK_CLIENT_SECRET", ClientSecret cfg). rewrite !elem_of_cons. auto 10.
Qed.

Lemma names_filter_cons (n v v' : string) (l l' : list (string * string)) :
  (v = "" <-> v' = "") ->
  fst <$> filter (fun nv => nv.2 = "") l = fst <$> filter (fun nv => nv.2 = "") l' ->
  fst <$> filter (fun nv => nv.2 = "") ((n, v) :: l) =
  fst <$> filter (fun nv => nv.2 = "") ((n, v') :: l').
Proof.
  intros Hv Hl. rewrite !filter_cons. simpl. destruct (decide (v = "")) as [E|E].
  - rewrite decide_True by by apply Hv. exact (f_equal (cons n) Hl).
  - rewrite decide_False by by rewrite <- Hv. done.
Qed.

Definition complete (cfg : Config) : Prop :=
  BaseURL cfg <> "" /\ Realm cfg <> "" /\ ClientID cfg <> "" /\ ClientSecret cfg <> "".

(** The check passes exactly a complete configuration, and what it says depends
on which variables are empty, never on a value: two configurations with the same
variables set get the same message. *)
Theorem requireKeycloakConfig_spec backend cfg cfg' :
  (requireKeycloakConfig backend cfg = None <-> complete cfg) /\
  ((BaseURL cfg = "" <-> BaseURL cfg' = "") -> (Realm cfg = "" <-> Realm cfg' = "") ->
   (ClientID cfg = "" <-> ClientID cfg' = "") -> (ClientSecret cfg = "" <-> ClientSecret cfg' = "") ->
   requireKeycloakConfig backend cfg = requireKeycloakConfig backend cfg').
Proof.
  split.
  - unfold requireKeycloakConfig, complete. destruct (missing cfg) as [|n l] eqn:Hm.
    + split; [|done]. intros _.
      assert (forall name, name ∉ missing cfg) as Hno by (rewrite Hm; apply not_elem_of_nil).
      setoid_rewrite missing_spec in Hno. naive_solver.
    + split; [done|]. intros Hc. assert (n ∈ missing cfg) as Hin by (rewrite Hm; left).
      apply missing_spec in Hin. naive_solver.
  - intros H1 H2 H3 H4. unfold requireKeycloakConfig.
    assert (missing cfg = missing cfg') as ->; [|done]. unfold missing.
    by repeat apply names_filter_cons.
Qed.

Lemma requireKeycloakConfig_spec_witness :
  let c s := {| BaseURL := "https://sso"; Realm := "ci"; ClientID := "gw"; ClientSecret := s;
                Timeout := 0 |} in
  requireKeycloakConfig "keycloak" (c "hunter2") = requireKeycloakConfig "keycloak" (c "s3cret") /\
  requireKeycloakConfig "keycloak" (c "") =
    Some (ErrText "AUTHZ_BACKEND=keycloak requires KEYCLOAK_CLIENT_SECRET").
Proof.
  intros c. split; [|reflexivity].
  apply (requireKeycloakConfig_spec "keycloak" (c "hunter2") (c "s3cret")); simpl; split; done.
Defined.

(** ** The choice of backend *)

(** The environment, and what is read from it. *)
Definition env_spec (env : string -> string) (file : result error Policy.t) : spec mainE (list string) :=
  {| spec_pre := fun X e _ =>
       match e with Getenv _ | LoadFile _ | GRt _ => True | _ => False end;
     spec_post := fun X e read =>
       match e in mainE X return X -> list string -> Prop with
       | Getenv key => fun v read' => v = env key /\ read' = key :: read
       | LoadFile path => fun r read' => r = file /\ read' = read
       | _ => fun _ read' => read' = read
       end |}.

Definition env_config (env : string -> string) : Config :=
  {| BaseURL := env "KEYCLOAK_BASE_URL"; Realm := env "KEYCLOAK_REALM";
     ClientID := env "KEYCLOAK_CLIENT_ID"; ClientSecret := env "KEYCLOAK_CLIENT_SECRET";
     Timeout := 0 |}.

Definition keycloak_vars : list string :=
  ["KEYCLOAK_CLIENT_SECRET"; "KEYCLOAK_CLIENT_ID"; "KEYCLOAK_REALM"; "KEYCLOAK_BASE_URL"].

(** The backend an environment asks for. *)
Definition chosen (env : string -> string) (file : result error Policy.t) (backend : string)
    (r : result error Backend) (read : list string) : Prop :=
  let cfg := env_config env in
  if decide (backend = "keycloak") then
    read = keycloak_vars /\
    r = match requireKeycloakConfig backend cfg with Some e => Err e | None => Ok (BKeycloak cfg) end
  else if decide (backend = "shadow") then
    match file with
    | Err e => r = Err e /\ read = []
    | Ok p => read = keycloak_vars /\
        r = match requireKeycloakConfig backend cfg with Some e => Err e | None => Ok (BShadow p cfg) end
    end
  else read = [] /\
    if decide (backend = "file" \/ backend = "") then
      r = match file with Ok p => Ok (BFile p) | Err e => Err e end
    else exists e, r = Err e.

Lemma kcConfig_wp env file read :
  wp (env_spec env file) kcConfig
    (returning (fun c read' => c = env_config env /\ read' = keycloak_vars ++ read)) read.
Proof.
  unfold kcConfig. cbv beta delta [mbind mret prog_bind prog_ret call]. cbn [bind wp].
  split; [done|]. intros v1 r1 [-> ->]. split; [done|]. intros v2 r2 [-> ->].
  split; [done|]. intros v3 r3 [-> ->]. split; [done|]. intros v4 r4 [-> ->]. done.
Qed.

(** The backend is the one named; an unknown name or an incomplete Keycloak
configuration is an error and never falls back to another backend; the Keycloak
variables are read only for a backend that uses Keycloak; choosing makes no
network call. *)
Theorem buildAuthorizer_spec env file backend path :
  wp (env_spec env file) (buildAuthorizer backend path)
    (returning (chosen env file backend)) [].
Proof.
  unfold buildAuthorizer, chosen. case_decide; [|case_decide; [|case_decide]].
  - eapply wp_seq; [apply kcConfig_wp|]. intros c read [-> ->].
    destruct (requireKeycloakConfig _ _); [done|].
    cbv beta delta [mbind mret prog_bind prog_ret main_log trigger call inj Sub_rt_main].
    cbn [bind wp]. split; [exact I|]. intros u r' H'. cbn in H'. by subst.
  - cbv beta delta [mbind mret prog_bind prog_ret main_log trigger call inj Sub_rt_main].
    cbn [bind wp]. split; [exact I|]. intros f read [-> ->]. destruct file as [p|e]; [|done].
    eapply wp_seq; [apply kcConfig_wp|]. intros c read [-> ->].
    destruct (requireKeycloakConfig _ _); [done|].
    cbn [bind wp]. split; [exact I|]. intros u r' H'. cbn in H'. by subst.
  - cbv beta delta [mbind mret prog_bind prog_ret main_log trigger call inj Sub_rt_main].
    cbn [bind wp]. split; [exact I|]. intros u r' H'. cbn in H'. subst r'.
    split; [exact I|]. intros f read [-> ->]. by destruct file.
  - split; [done|]. by eexists.
Qed.

(** ** Nothing is served before everything is in place *)

(** What the process has done, latest first. *)
Inductive Did : Type :=
  | MadeVerifier (v : Handle)
  | MadeClient (k : Handle)
  | MadeStore (st : Handle)
  | MadeNotifier (n : Telegram.Notifier)
  | Failed
  | Sweeping
  | Serving (deps : Deps)
  | Signalled
  | Down
  | Exited.

(** Everything there is to make has been made. *)
Definition complete_with (v k st : Handle) (n : Telegram.Notifier) : list Did :=
  [MadeNotifier n; MadeStore st; MadeClient k; MadeVerifier v].

Section Boot.
(** The environment, and what the policy file holds. *)
Variable env : string -> string.
Variable file : result error Policy.t.

Definition env_or (key def : string) : string := if decide (env key = "") then def else env key.

(** The backend the environment asks for, when it can be built. *)
Definition built (b : result error Backend) : Prop :=
  exists read, chosen env file (env "AUTHZ_BACKEND") b read.

Definition boot_pre X (e : mainE X) (tr : list Did) : Prop :=
  (Exited ∉ tr) /\
  match e with
  | LoadFile path => path = env_or "POLICY_PATH" "/etc/gateway/policy.yaml"
  | GNewVerifier iss aud => tr = [] /\ (exists b, built (Ok b)) /\ iss = oidcIssuer /\ aud = audience
  | GNewInCluster => exists v, tr = [MadeVerifier v]
  | GNewDynamo table => table = env_or "DYNAMO_TABLE" "deploy-gateway-operations" /\
      exists v k, tr = [MadeClient k; MadeVerifier v]
  | GNotifier cfg =>
      cfg = {| Telegram.BotToken := env "TELEGRAM_BOT_TOKEN"; Telegram.ChatID := env "TELEGRAM_CHAT_ID";
               Telegram.APIBase := env "TELEGRAM_API_BASE" |} /\
      exists v k st, tr = [MadeStore st; MadeClient k; MadeVerifier v]
  | GoSweeper ops => exists v k st n, tr = complete_with v k st n /\ ops = NewOps k st n (10 * Minute)
  | GoServe addr deps _ => addr = (":" +:+ env_or "PORT" "8080") /\
      exists v k st n, tr = Sweeping :: complete_with v k st n /\ built (Ok (d_authz deps)) /\
        d_verifier deps = v /\ d_ops deps = NewOps k st n (10 * Minute) /\ d_store deps = st
  | AwaitSignal => exists d tr', tr = Serving d :: tr'
  | Shutdown _ => exists tr', tr = Signalled :: tr'
  | ExitCode code => code <> 0 /\
      ((tr = [] /\ exists err, built (Err err)) \/ exists tr', tr = Failed :: tr')
  | Getenv _ | GRt _ => True
  end.

Definition made {A} (x : result error A) (did : A -> Did) : Did :=
  match x with Ok a => did a | Err _ => Failed end.

Definition boot_step X (e : mainE X) (tr : list Did) : X -> list Did -> Prop :=
  match e in mainE X return X -> list Did -> Prop with
  | GRt _ => fun _ tr' => tr' = tr
  | Getenv key => fun v tr' => v = env key /\ tr' = tr
  | LoadFile _ => fun r tr' => r = file /\ tr' = tr
  | GNewVerifier _ _ => fun x tr' => tr' = made x MadeVerifier :: tr
  | GNewInCluster => fun x tr' => tr' = made x MadeClient :: tr
  | GNewDynamo _ => fun x tr' => tr' = made x MadeStore :: tr
  | GNotifier _ => fun n tr' => tr' = MadeNotifier n :: tr
  | GoSweeper _ => fun _ tr' => tr' = Sweeping :: tr
  | GoServe _ deps _ => fun _ tr' => tr' = Serving deps :: tr
  | AwaitSignal => fun _ tr' => tr' = Signalled :: tr
  | Shutdown _ => fun _ tr' => tr' = Down :: tr
  | ExitCode _ => fun _ tr' => tr' = Exited :: tr
  end.

Definition boot : spec mainE (list Did) := {| spec_pre := boot_pre; spec_post := boot_step |}.

Ltac main_unfold :=
  cbv beta delta [mbind mret prog_bind prog_ret main_log trigger call inj Sub_rt_main envOr];
  cbn [bind wp].
(** A call that only reads. *)
Ltac boot_read v :=
  split; [split; [apply not_elem_of_nil || set_solver|done]|];
  let tr := fresh "tr" in let H := fresh "H" in
  intros v tr H; cbn in H; first [subst tr|destruct H as [-> ->]]; cbn [bind wp].

Lemma kcConfig_boot :
  wp boot kcConfig (returning (fun c tr => c = env_config env /\ tr = [])) [].
Proof.
  unfold kcConfig. main_unfold. boot_read v1. boot_read v2. boot_read v3. by boot_read v4.
Qed.

(** The backend asked for is built, or the error is returned. *)
Lemma buildAuthorizer_boot path :
  path = env_or "POLICY_PATH" "/etc/gateway/policy.yaml" ->
  wp boot (buildAuthorizer (env "AUTHZ_BACKEND") path)
    (returning (fun b tr => built b /\ tr = [])) [].
Proof.
  intros Hpath. unfold buildAuthorizer, built, chosen.
  case_decide; [|case_decide; [|case_decide]].
  - eapply wp_seq; [apply kcConfig_boot|]. intros c tr [-> ->].
    destruct (requireKeycloakConfig _ _); [by split; [eexists|]|]. main_unfold. boot_read u.
    by split; [eexists|].
  - main_unfold. boot_read f. destruct file as [p|e]; [|by split; [eexists|]].
    eapply wp_seq; [apply kcConfig_boot|]. intros c tr [-> ->].
    destruct (requireKeycloakConfig _ _); [by split; [eexists|]|]. main_unfold. boot_read u.
    by split; [eexists|].
  - main_unfold. boot_read u. boot_read f. destruct file; by split; [eexists|].
  - split; [|done]. eexists. split; [done|]. by eexists.
Qed.

Lemma fatal_boot what tr :
  Exited ∉ tr -> (tr = [] /\ exists err, built (Err err)) \/ (exists tr', tr = Failed :: tr') ->
  wp boot (fatal what) (returning (fun _ tr' => tr' = Exited :: tr)) tr.
Proof.
  intros Hex Htr. unfold fatal. main_unfold. split; [done|]. intros u tr1 H. cbn in H. subst tr1.
  split; [by split|]. by intros u' tr1 ->.
Qed.

(** C40: start-up.  Whatever the environment and the policy file hold, [main] builds the
backend that is asked for, then the verifier for GitHub's issuer and this gateway's
audience, the Kubernetes client and the store on the table that is named, each only after
the one before succeeded.  Stale operations are swept and requests served only with all of
them made, by the very authorizer, verifier, client, store and notifier that were made; the
process ends on a signal.  When any of them fails, the backend included, it exits with a
failure and serves nothing. *)
Theorem main_boots_in_order :
  wp boot main (returning (fun _ tr =>
      (exists tr', tr = Exited :: tr' /\ forall d, Serving d ∉ tr') \/
      exists d v k st n, tr = Down :: Signalled :: Serving d :: Sweeping :: complete_with v k st n)) [].
Proof.
  unfold main. main_unfold. boot_read v1. boot_read v2. boot_read v3. boot_read backend.
  eapply wp_seq; [by apply buildAuthorizer_boot|]. intros a tr [Hb ->].
  assert (forall what tr, (tr = [] /\ exists err, built (Err err)) \/
            (exists tr', tr = Failed :: tr' /\ (Exited ∉ tr') /\ forall d, Serving d ∉ tr') ->
    wp boot (fatal what) (returning (fun _ tr =>
      (exists tr', tr = Exited :: tr' /\ forall d, Serving d ∉ tr') \/
      exists d v k st n, tr = Down :: Signalled :: Serving d :: Sweeping :: complete_with v k st n)) tr)
    as Hfatal.
  { intros what tr Htr. eapply wp_mono; [|apply fatal_boot].
    - intros [u|] tr2; [|done]. intros ->. left. exists tr. split; [done|].
      intros d. destruct Htr as [[-> _]|(tr' & -> & _ & Hs)]; [apply not_elem_of_nil|].
      apply not_elem_of_cons. by split.
    - destruct Htr as [[-> _]|(tr' & -> & Hex & _)]; [apply not_elem_of_nil|].
      apply not_elem_of_cons. by split.
    - destruct Htr as [?|(tr' & -> & _)]; [by left|right; by exists tr']. }
  destruct a as [b|err]; [|apply Hfatal; left; split; [done|by exists err]].
  cbn [bind wp]. split; [split; [apply not_elem_of_nil|]; split; [done|]; split; [by exists b|done]|].
  intros [v|err] tr Htr; cbn in Htr; subst tr;
    [|apply Hfatal; right; exists []; split; [done|]; split; [|intros d]; apply not_elem_of_nil].
  cbn [bind wp]. split; [split; [set_solver|by exists v]|].
  intros [k|err] tr Htr; cbn in Htr; subst tr;
    [|apply Hfatal; right; eexists; split; [done|]; set_solver].
  cbn [bind wp]. split; [split; [set_solver|split; [done|by exists v, k]]|].
  intros [st|err] tr Htr; cbn in Htr; subst tr;
    [|apply Hfatal; right; eexists; split; [done|]; set_solver].
  cbn [bind wp]. boot_read tok. boot_read chat. boot_read base.
  split; [split; [set_solver|split; [done|by exists v, k, st]]|].
  intros n tr Htr. cbn in Htr. subst tr. cbn [bind wp].
  split; [split; [set_solver|by exists v, k, st, n]|].
  intros u1 tr Htr. cbn in Htr. subst tr. cbn [bind wp].
  split; [split; [set_solver|split; [done|]; exists v, k, st, n; split; [done|]; by split]|].
  intros u2 tr Htr. cbn in Htr. subst tr. cbn [bind wp].
  split; [split; [set_solver|by eexists _, _]|].
  intros u3 tr Htr. cbn in Htr. subst tr. cbn [bind wp].
  split; [split; [set_solver|by eexists]|].
  intros u4 tr Htr. cbn in Htr. subst tr. cbn [bind wp].
  split; [split; [set_solver|done]|].
  intros u5 tr Htr. cbn in Htr. subst tr. cbn [bind wp]. right. by eexists _, v, k, st, n.
Qed.

End Boot.

End Build.
